(* ===== verification/_CoqProject ===== *)
-Q . S2P
Prelude.v
Values.v
Errors.v
Format.v
Json.v
JsonText.v
JsonLaw.v
Channels.v
Barriers.v
Aggregates.v
Registry.v
Types.v
Retry.v
Graph.v
GraphProps.v
Subgraph.v
Checkpoint.v
Manager.v
Memory.v
RegistryProps.v
Interrupt.v
Routing.v
RoutingProps.v
FieldMapping.v
Convert.v
Writes.v
WritesProps.v
Engine.v
Demo.v
EngineProps.v
ReadProps.v
ResumeProps.v
Store.v
StoreProps.v
Cache.v
Messages.v
RawJson.v
Loop.v
Parallel.v
ChannelIO.v
Optimized.v
GoStrings.v
GoNumbers.v
Chunker.v
ChunkerProps.v
MetaFilter.v
StructJson.v
Events.v
EventsProps.v
Replay.v
ReplayProps.v
Canvas.v
CanvasProps.v
CanvasReads.v
VariableAssigner.v
AssignerProps.v
ListOperations.v
ListOpsProps.v
Switch.v
TurnBuffer.v
AgentCancel.v
AgentCancelProps.v
AgentControl.v
AgentLoop.v
AgentLoopInv.v
AgentLoopProps.v
AgentLoopItems.v
AgentLoopRuns.v
MessageFit.v
