(* ===== verification/Prelude.v ===== *)
(** * A verification library for the graph engine, its event log, and parts of the server around it

    The directory internal/harness/graph (under src/) is a library for running
    agents as graphs: nodes are functions from state to state, edges say what
    runs next, state lives in channels, runs are saved in checkpoints and can
    be interrupted and resumed.  Beside it, internal/harness/events records runs in
    a log and internal/harness/replay replays, compares and forks them; in
    internal/harness/core an agent loop takes items from many callers and runs agents on
    them, turn by turn.  The server around it
    ingests documents, which the token chunker cuts into chunks; answers questions
    from them, where a metadata filter says which documents are searched; and runs
    agents drawn on a canvas, whose components share variables.  This development
    models these libraries, the agent loop, the chunker, the filter, the fitting of messages
    and the variables of a canvas with three of its components as executable functions and proves what makes their parts
    correct.  The files, from the bottom up:

    - this file: results and their notation, lists, maps whose loops run in any
      order ([go_range]), 64-bit arithmetic, strings, tactics and hints;
    - Values, Errors, Format, Json, JsonText: Go's dynamic values, the error
      types (errors/errors.go), the %v verb, the deep copies of checkpoints
      (checkpoint.go, [deepCopy]) and the text of encoding/json;
    - Channels, Barriers, Aggregates, Registry (channels/*.go): every channel
      kind with its methods, the reducers, the registry.  A method with a
      pointer receiver returns the new channel, also when it fails.
      RegistryProps: folds, order independence, checkpoint and restore;
    - Types, Retry (types/types.go, types/config.go, pregel/retry.go,
      pregel/retry_multi.go): graph data, configurations, retry executors;
    - Graph, GraphProps, Subgraph (graph/graph.go, state.go, compiled.go): the
      builder, validation, compilation, and the tree of subgraphs, which live
      in a store because the code links and changes them in place;
    - Checkpoint, Manager, Memory (checkpoint/checkpoint.go, memory.go):
      versioned checkpoints, the manager with its conflict detection, and the
      interface [BaseCheckpointer] whose laws [MemorySaver] satisfies;
    - Interrupt (interrupt/interrupt.go): asking the client, replaying answers;
    - Routing, FieldMapping, Convert, Writes, Engine (pregel/engine.go and
      init_pregel.go): the tasks of a step; field mappings, whose references to
      nested maps live in a store; filling a state struct; writes, versions
      and input; [superstep], [run_loop] and [Run].  The engine is
      proved against the interface of checkpointers, not against one of them.
      RoutingProps, WritesProps, EngineProps, ReadProps, ResumeProps hold the
      theorems, Demo the concrete environments their witnesses run in;
    - Store, StoreProps (store/base.go, memory.go): the namespaced key-value
      store and its refinement of documents with times to live;
    - Cache (pregel/cache.go): the node cache behind its interface;
    - Messages (graph/message.go): conversations, their reducer and filters;
    - JsonLaw: [json.Unmarshal] after [json.Marshal] is the conversion the copies
      of checkpoints are modelled by.  RawJson: structs with fields of their
      own types in JSON, as the next two files read them;
    - Loop, Parallel (graph/loop.go, parallel.go): nodes that invoke a compiled
      graph, an argument of the model, in a loop or for every item of a list,
      and keep their progress in the interrupt they raise;
    - ChannelIO (pregel/read.go, write.go): the reader and writer objects over
      named channels, their triggers, transformers, validators and batches;
    - Optimized (pregel/optimized.go): the orders, priority queue, dependency
      map, step counter and all-or-nothing write of the optimised engine parts;
    - GoStrings, GoNumbers: what the server uses of Go's strings, unicode/utf8,
      regexp (alternations of literals) and strconv;
    - Chunker, ChunkerProps (internal/ingestion/component/chunker/token.go,
      common.go, positions_slice.go, and the tokens and delimiters it calls): from
      the payload of a parser to chunks of a limited number of tokens;
    - MetaFilter (internal/common/metadata_utils.go,
      internal/service/metadata_filter.go): conditions on metadata, and the
      documents they leave for a retrieval;
    - StructJson: structs with typed fields in JSON, as the payloads of events
      are written and read back, and when they come back;
    - Events, EventsProps (internal/harness/events/event.go, store.go, memory.go,
      clock.go, recorder.go): events, the interface [EventLog] with its laws, the
      log in memory and the recorder;
    - Replay, ReplayProps (internal/harness/replay): replays with overrides,
      comparisons of traces, checkpoints rebuilt from events, and forks that hand
      them to the engine;
    - Canvas, CanvasProps, CanvasReads (internal/agent/runtime/state.go, template.go):
      the state of a canvas, whose maps and arrays live in a heap because components
      move references to them between variables, and the templates that refer to it;
    - VariableAssigner, AssignerProps (internal/agent/component/variable_assigner.go):
      the operators on variables and the run over a list of assignments;
    - ListOperations, ListOpsProps (internal/agent/component/list_operations.go):
      picking, filtering, sorting and deduplicating a list of a canvas;
    - Switch (internal/agent/component/switch.go, internal/agent/canvas/multibranch.go):
      conditions over variables and the components that run next;
    - TurnBuffer (internal/harness/core/agent_loop_buffer.go): the blocking queue of an
      agent loop with the goroutines that wait on it;
    - AgentCancel, AgentCancelProps (cancel.go, agent_loop_config.go there): requests to
      cancel an agent, how they are merged, and the state machine of a run that can be
      cancelled;
    - AgentControl (agent_loop_stop.go, agent_loop_preempt.go): the controllers that stop
      a loop and preempt its turns;
    - AgentLoop (agent_loop.go, agent_loop_run.go, agent_loop_agent.go,
      agent_loop_push.go, agent_loop_checkpoint.go, agent_loop_bridge.go): the loop with all
      the goroutines that use it as one transition system, [step], whose labels say who
      acts and what comes back from outside.  AgentLoopInv: its invariant.
      AgentLoopProps, AgentLoopItems: the theorems.  AgentLoopRuns: a store, a codec and
      the executions that witnesses and counterexamples run;
    - MessageFit (internal/component/messagefit/messagefit.go): cutting a conversation to
      the size of a model's context.

    ** What the theorems show

    - Runs end: [Run] is a sequence of at most recursion-limit many
      supersteps and one that decides ([Run_ends]); the retry executors return.
    - Scheduling: the tasks of a step are exactly the ready nodes; in
      all-predecessors mode no node runs before its predecessors or twice, and
      the recursion limit cannot be hit by an acyclic graph below it.
    - Independence of the schedule: reads, writes and registry updates give one
      result for every order of goroutines and map loops, under the
      hypotheses stated; counterexamples show where the code depends on it.
    - Channels refine abstract barriers, folds and single values; the store
      refines a map of documents; a cache is transparent behind its laws; the
      message reducer refines an ordered map.
    - Checkpoints: round trips through maps, JSON and savers, linear histories,
      no lost updates; what an interrupt saves is what a resumed run restores.
    - Loops and fan-outs end, resume from the text of their state and do not
      depend on the schedule; under the engine with the in-memory saver a loop
      starts again, which is a theorem as well.
    - Readers and writers: what a write puts in which channel and what it leaves
      when it fails half way; a trigger that compares by update loses writes.
      The priority queue refines a stable sorted list; dependencies between tasks
      are read the wrong way round.
    - Chunks: splitting and merging lose no text, no chunk exceeds the limit for
      an encoder that can be cut at its tokens, the goroutines give the chunks of
      each item in order, the longest delimiter splits; contexts of tables and
      images stay empty.
    - Filters: a filter selects exactly the documents its conditions mean, in every
      mode; callers that ignore the flag for no match search without restriction.
    - Events: the log in memory refines a list of events; the clocks of a recorder
      are unique in every interleaving; what a run records comes back from its text,
      so replays diverge exactly where an override changed a hash; comparisons do
      not depend on the order of their loop; a fork with the saver of the engine
      restores what was completed and written, one without it restores nothing.
    - Canvas: a variable that was set is read back and nothing else changes that does
      not share its map, as long as no map contains itself, which writing keeps unless
      what is written leads back; references in templates are found and replaced; an
      assignment that fails changes nothing; list variables refine lists; sorting is
      right where keys can be compared; a Switch takes the first group that matches.
      Examples show what sharing does to variables.
    - Agent loops: in every interleaving no goroutine panics and every accepted
      preemption is acknowledged once; the loop never hangs on something that happened;
      items are conserved, and reported at the end unless they went to a turn; what an
      interrupted loop saves the next one resumes with; requests to cancel have the same
      effect merged and one by one, in any order; the buffer refines a queue and loses no
      wakeup.  Executions show how an item, a checkpoint or a preemption can get lost.
    - Messages: what is kept of a conversation fits the budget for every encoder that can
      be cut, whatever the shares computed in floating point come to.
    - Validation: reachability is computed exactly, builder calls keep graphs
      well formed, [Compile] accepts exactly the valid graphs.
    - Where the code does less than it means to, a theorem or an example says
      what it does instead.

    ** Conventions

    Integers of type int are [Z] with the wrap-around written out
    ([int_add]); floats are [SpecFloat] data.  Times, identifiers, random
    choices, the order of a loop over a map, the schedule of goroutines and the
    cancellation of a context are explicit arguments; a theorem quantifies
    over them, with [go_range] saying that a loop visits each entry once.
    A method under a mutex is one step; where the code gives the lock up in
    between (interrupts, reads, the sweep of the store) the sections are
    interleaved explicitly; the invocations of a fan-out are atomic, and the goroutines
    around an agent loop take one action at a time in any order.  Libraries the code calls (SHA-256, Unicode case
    mapping, regular expressions, addresses of pointers, float conversions the
    language leaves open) are classes whose laws are hypotheses, each with an
    instance.

    Fuel: [run_loop] gets one unit more than the recursion limit, at which the
    loop stops by itself ([Run_ends]); the breadth-first search of [Validate]
    gets one unit per name it can ever queue ([SG.bfs_fuel], shown enough in
    [computeReachable_spec]); the loop over retry policies needs more units
    than the greatest number of attempts of a policy ([multi_Execute_total]);
    reading values back from the store of FieldMapping descends at most
    [depth_bound] levels; the JSON parser consumes a byte per level
    ([json_text_round_trip]); a loop gets one unit per iteration its limit
    allows ([runLoop_ends]); cutting an oversized text gets one unit per byte, and
    every round leaves a shorter rest ([hardSplitPiece_unfold]); reading an iterator
    gets one unit more than it has events ([drain_spec]); looking into a text that
    holds JSON gets one unit per byte, which is enough however often it is quoted
    ([step_string_ends]); printing a value of a canvas descends one level per object,
    and is None for a value that contains itself, on which the program overflows its
    stack.

    ** Not modelled

    Event logs in files and in NATS; event streams, callbacks, tracing and telemetry
    of the engine (observers; emitting an event does not change a run, except that the values event reads the
    channels, which is modelled); goroutine pools, whose effect is the
    schedule arguments; remote graphs, the NATS saver and other I/O; the helpers
    no part of the engine calls (managed values, scratchpads, decorators); memory exhaustion; real
    time in an agent loop, whose timers may fire whenever they run, the options and events
    of its runs, and the runners and agents it calls, which are labels of its steps; the
    wrappers that cancel iterators and streams; the
    rest of the agent framework and of the server, which are mostly glue around
    models, databases and search engines: of the chunker the encoding of tokens and
    the cropping of PDF pages, of the metadata filter the prompt and the search
    engine are arguments.  The identity of values that are
    shared by reference is modelled where the code writes through it (field
    mappings, compiled graphs, canvas variables), not elsewhere.  Of the canvas the
    JSON form of a whole state, the locks, the scheduler, which is a third-party
    workflow engine, and the components that call models and tools are not modelled. *)

From stdpp Require Export gmap strings list fin_maps pretty sorting.
From Stdlib Require Export ZArith Lia.
From Stdlib Require Import Ascii.

(** ** Results

    A Go function of type [(T, error)] is a [res T]: [Ok v] when the error
    is nil, [Err e] otherwise.  The error type is a parameter, so that the
    same notations serve every component. *)
Inductive result (E A : Type) : Type :=
| Ok (a : A)
| Err (e : E).
Arguments Ok {E A} _.
Arguments Err {E A} _.

Declare Scope go_scope.
Delimit Scope go_scope with go.

Notation "'let!' x := e1 'in' e2" :=
  (match e1 with Ok x => e2 | Err err => Err err end)
  (at level 10, x binder, e1 at level 100, e2 at level 200) : go_scope.

Definition is_ok {E A} (r : result E A) : bool :=
  match r with Ok _ => true | Err _ => false end.

Lemma Ok_inj {E A} (a b : A) : @Ok E A a = Ok b → a = b.
Proof. by intros [= ->]. Qed.

(** ** Lists *)
Lemma foldl_ext {A B} (f h : A → B → A) l a :
  (∀ a b, f a b = h a b) → foldl f a l = foldl h a l.
Proof. intros Hfh. revert a. induction l as [|b l IH]; intros a; [done|]. simpl. by rewrite Hfh. Qed.

(** ** Tactics *)

(** Case analysis on every [match] and [if] of the goal and the context. *)
Ltac case_all :=
  repeat (match goal with
          | |- context [match ?x with _ => _ end] => destruct x eqn:?
          | H : context [match ?x with _ => _ end] |- _ => destruct x eqn:?
          end; simplify_eq/=).

(** Boolean hypotheses in normal form. *)
Ltac bool_hyps :=
  repeat first [ progress simplify_eq/= | match goal with
  | H : negb _ = true |- _ => apply negb_true_iff in H
  | H : negb _ = false |- _ => apply negb_false_iff in H
  | H : _ && _ = true |- _ => apply andb_true_iff in H as [? ?]
  | H : _ || _ = false |- _ => apply orb_false_iff in H as [? ?]
  | H : bool_decide _ = true |- _ => apply bool_decide_eq_true in H
  | H : bool_decide _ = false |- _ => apply bool_decide_eq_false in H
  end ].

Ltac split_and_all := repeat match goal with |- _ ∧ _ => split end.

(** ** Machine integers

    Go's [int] is 64 bits wide on every platform the harness is built for. *)
Definition int_bound : Z := 2 ^ 63.

Definition wrap64 (z : Z) : Z := (z + int_bound) `mod` 2 ^ 64 - int_bound.

Definition in_int64 (z : Z) : Prop := (- int_bound ≤ z < int_bound)%Z.

Lemma wrap64_id z : in_int64 z → wrap64 z = z.
Proof.
  unfold in_int64, wrap64, int_bound. intros H.
  rewrite Z.mod_small; lia.
Qed.

Lemma wrap64_range z : in_int64 (wrap64 z).
Proof.
  unfold in_int64, wrap64, int_bound.
  pose proof (Z.mod_pos_bound (z + 2 ^ 63) (2 ^ 64) ltac:(lia)). lia.
Qed.

Lemma wrap64_add_l a b : wrap64 (wrap64 a + b) = wrap64 (a + b).
Proof.
  unfold wrap64.
  replace ((a + int_bound) `mod` 2 ^ 64 - int_bound + b + int_bound)%Z
    with ((a + int_bound) `mod` 2 ^ 64 + b)%Z by lia.
  rewrite Zplus_mod_idemp_l. do 2 f_equal. lia.
Qed.

(** ** Strings *)

#[global] Instance string_app_assoc : Assoc (=) String.append.
Proof. intros s t u. induction s as [|a s IH]; [done|]. exact (f_equal (String a) IH). Qed.

(** [strings.Split(s, sep)] for a one-byte separator: at least one part. *)
Fixpoint split_on (c : ascii) (s : string) : list string :=
  match s with
  | EmptyString => [""]
  | String a s' =>
      if decide (a = c) then "" :: split_on c s'
      else match split_on c s' with
           | [] => [String a ""]
           | p :: ps => String a p :: ps
           end
  end.

(** [strings.Join(parts, sep)]. *)
Fixpoint join_with (sep : string) (parts : list string) : string :=
  match parts with
  | [] => ""
  | [p] => p
  | p :: ps => p +:+ sep +:+ join_with sep ps
  end.

Fixpoint str_mem (c : ascii) (s : string) : bool :=
  match s with
  | EmptyString => false
  | String a s' => bool_decide (a = c) || str_mem c s'
  end.

Lemma split_on_nonempty c s : split_on c s ≠ [].
Proof. destruct s; simpl; [done|]. case_decide; [done|]. by case_match. Qed.

Lemma split_on_no_sep c s : str_mem c s = false → split_on c s = [s].
Proof.
  induction s as [|a s IH]; [done|]. simpl.
  intros [Ha%bool_decide_eq_false Hs]%orb_false_iff.
  rewrite decide_False by done. by rewrite IH.
Qed.

Lemma split_on_app_sep c s t :
  str_mem c s = false → split_on c (s +:+ String c t) = s :: split_on c t.
Proof.
  induction s as [|a s IH]; simpl.
  - intros _. by rewrite decide_True.
  - intros [Ha%bool_decide_eq_false Hs]%orb_false_iff.
    rewrite decide_False by done. by rewrite IH.
Qed.

(** Splitting undoes joining, for a non-empty list of parts without separator. *)
Lemma split_join c ps :
  ps ≠ [] → Forall (λ p, str_mem c p = false) ps →
  split_on c (join_with (String c "") ps) = ps.
Proof.
  induction ps as [|p ps IH]; [done|]. intros _ [Hp Hps]%Forall_cons.
  destruct ps as [|q qs]; [by apply split_on_no_sep|].
  change (join_with (String c "") (p :: q :: qs))
    with (p +:+ String c (join_with (String c "") (q :: qs))).
  rewrite split_on_app_sep by done. by rewrite IH.
Qed.

(** Joining undoes splitting. *)
Lemma join_split c s : join_with (String c "") (split_on c s) = s.
Proof.
  induction s as [|a s IH]; [done|]. cbn [split_on]. pose proof (split_on_nonempty c s) as Hne.
  destruct (split_on c s) as [|p ps] eqn:E; [done|]. case_decide as Ha.
  - subst a. change (String c (join_with (String c "") (p :: ps)) = String c s). by rewrite IH.
  - rewrite <-IH. by destruct ps.
Qed.

(** [sort.Strings]: byte-wise lexicographic order. *)
Definition sort_strings (l : list string) : list string := merge_sort String.le l.

Lemma sort_strings_perm l : sort_strings l ≡ₚ l.
Proof. apply merge_sort_Permutation. Qed.

(** Two lists with the same elements sort to the same list. *)
Lemma sort_strings_ext l k : l ≡ₚ k → sort_strings l = sort_strings k.
Proof.
  intros H. apply (StronglySorted_unique String.le).
  - apply StronglySorted_merge_sort; apply _.
  - apply StronglySorted_merge_sort; apply _.
  - by rewrite !sort_strings_perm.
Qed.

(** ** Ranging over a map

    [for k, v := range m] visits every binding of [m] exactly once, in an
    order the language leaves open.  A loop over a map is modelled by a fold
    over a list of bindings [ord], and a property of the loop is stated for
    every [ord] with [go_range m ord]. *)
Definition go_range {V} (m : gmap string V) (ord : list (string * V)) : Prop :=
  ord ≡ₚ map_to_list m.

Lemma go_range_canonical {V} (m : gmap string V) : go_range m (map_to_list m).
Proof. unfold go_range. reflexivity. Qed.

Lemma go_range_NoDup {V} (m : gmap string V) ord :
  go_range m ord → NoDup ord.*1.
Proof. unfold go_range. intros ->. apply NoDup_fst_map_to_list. Qed.

Lemma go_range_elem {V} (m : gmap string V) ord k v :
  go_range m ord → (k, v) ∈ ord ↔ m !! k = Some v.
Proof. unfold go_range. intros ->. apply elem_of_map_to_list. Qed.

Lemma go_range_list_to_map {V} (m : gmap string V) ord :
  go_range m ord → list_to_map ord = m.
Proof.
  intros H. pose proof (go_range_NoDup _ _ H) as Hnd. unfold go_range in H.
  rewrite (list_to_map_proper ord (map_to_list m)) by done.
  apply list_to_map_to_list.
Qed.

(** Copying a map binding by binding, [for k, v := range src { dst[k] = f(v) }]. *)
Definition copy_into {V W} (f : V → W) (ord : list (string * V)) (dst : gmap string W)
  : gmap string W := foldl (λ acc kv, <[kv.1 := f kv.2]> acc) dst ord.

Lemma lookup_copy_into {V W} (f : V → W) ord dst k :
  NoDup ord.*1 →
  copy_into f ord dst !! k =
    match (list_to_map ord : gmap string V) !! k with
    | Some v => Some (f v)
    | None => dst !! k
    end.
Proof.
  unfold copy_into. revert dst.
  induction ord as [|[k' v'] ord IH]; intros dst; simpl; [by rewrite lookup_empty|].
  intros [Hk' Hnd]%NoDup_cons. rewrite IH by done.
  destruct (decide (k' = k)) as [->|Hne].
  - rewrite lookup_insert_eq, not_elem_of_list_to_map_1 by done.
    by rewrite lookup_insert_eq.
  - by rewrite !lookup_insert_ne.
Qed.

(** The result of copying does not depend on the order of the loop. *)
Lemma copy_into_range {V W} (f : V → W) (m : gmap string V) ord dst :
  go_range m ord → copy_into f ord dst = (f <$> m) ∪ dst.
Proof.
  intros H. apply map_eq. intros k.
  rewrite lookup_copy_into by (by eapply go_range_NoDup).
  rewrite (go_range_list_to_map _ _ H), lookup_union, lookup_fmap.
  by destruct (m !! k), (dst !! k).
Qed.

(** ** Hints *)
Create HintDb harness.
Create Rewrite HintDb harness.
#[export] Hint Resolve go_range_canonical go_range_NoDup wrap64_range : harness.
#[export] Hint Rewrite @copy_into_range using (by auto with harness) : harness.
