(* ===== verification/Values.v ===== *)
(** * Go values that flow through the graph engine

    The engine moves values of type [interface{}] between channels, nodes and
    checkpoints.  [val] is the universe of dynamic values the package builds,
    inspects with a type assertion or converts through reflection.  Numbers
    keep their width: an [int] is a 64-bit [Z], a [float64] is an IEEE-754
    binary64 datum of [SpecFloat]. *)

From Stdlib Require Export SpecFloat.
From S2P Require Export Prelude.

(** The fixed-width numeric kinds other than [int] and [float64]. *)
Inductive numkind :=
| Int8 | Int16 | Int32 | Int64 | Uint | Uint8 | Uint16 | Uint32 | Uint64.

(** Go types, as far as reflection looks at them.  Maps have string keys. *)
Inductive gotype : Type :=
| TAny
| TBool
| TInt
| TNum (k : numkind)
| TFloat32
| TFloat64
| TString
| TSlice (e : gotype)
| TMap (e : gotype)
| TPtr (e : gotype)
| TStruct (name : string) (fields : list (string * gotype))
| TOther (name : string).

(** Dynamic values.  [VSlice e l] is a [[]e], [VMap e m] a [map[string]e];
    [VStruct] lists the exported fields in declaration order; [VRType t] is a
    [reflect.Type]; [VTypedNil t] is the nil value of a pointer, slice, map,
    function or channel type. *)
Inductive val : Type :=
| VNil
| VBool (b : bool)
| VInt (z : Z)
| VNum (k : numkind) (z : Z)
| VFloat32 (f : spec_float)
| VFloat (f : spec_float)
| VStr (s : string)
| VBytes (s : string)
| VSlice (e : gotype) (l : list val)
| VMap (e : gotype) (m : gmap string val)
| VPtr (v : val)
| VStruct (name : string) (fields : list (string * gotype * val))
| VRType (t : gotype)
| VTypedNil (t : gotype).

(** [[]interface{}] and [map[string]interface{}]. *)
Abbreviation VList l := (VSlice TAny l).
Abbreviation VObj m := (VMap TAny m).

(** The dynamic type of a value, [reflect.TypeOf]; nil has none. *)
Fixpoint typeof (v : val) : option gotype :=
  match v with
  | VNil => None
  | VBool _ => Some TBool
  | VInt _ => Some TInt
  | VNum k _ => Some (TNum k)
  | VFloat32 _ => Some TFloat32
  | VFloat _ => Some TFloat64
  | VStr _ => Some TString
  | VBytes _ => Some (TSlice (TNum Uint8))
  | VSlice e _ => Some (TSlice e)
  | VMap e _ => Some (TMap e)
  | VPtr v => Some (TPtr (default TAny (typeof v)))
  | VStruct n fs => Some (TStruct n ((λ f, f.1) <$> fs))
  | VRType _ => Some (TPtr (TStruct "reflect.rtype" []))
  | VTypedNil t => Some t
  end.

(** [reflect.Zero(t).Interface()]. *)
Fixpoint zero_of (t : gotype) : val :=
  match t with
  | TAny => VNil
  | TBool => VBool false
  | TInt => VInt 0
  | TNum k => VNum k 0
  | TFloat32 => VFloat32 (S754_zero false)
  | TFloat64 => VFloat (S754_zero false)
  | TString => VStr ""
  | TSlice _ | TMap _ | TPtr _ | TOther _ => VTypedNil t
  | TStruct n fs => VStruct n ((λ f, (f.1, f.2, zero_of f.2)) <$> fs)
  end.

(** ** Type assertions

    [v.(T)] with the comma-ok form.  A nil slice or map of the right type
    asserts successfully and has no elements. *)
Definition as_bool (v : val) : option bool :=
  match v with VBool b => Some b | _ => None end.
Definition as_int (v : val) : option Z :=
  match v with VInt z => Some z | _ => None end.
Definition as_float (v : val) : option spec_float :=
  match v with VFloat f => Some f | _ => None end.
Definition as_string (v : val) : option string :=
  match v with VStr s => Some s | _ => None end.
Definition as_list (v : val) : option (list val) :=
  match v with
  | VSlice TAny l => Some l
  | VTypedNil (TSlice TAny) => Some []
  | _ => None
  end.
Definition as_map (v : val) : option (gmap string val) :=
  match v with
  | VMap TAny m => Some m
  | VTypedNil (TMap TAny) => Some ∅
  | _ => None
  end.
(** [v.(map[string]bool)]. *)
Definition as_bool_map (v : val) : option (gmap string val) :=
  match v with
  | VMap TBool m => Some m
  | VTypedNil (TMap TBool) => Some ∅
  | _ => None
  end.

(** A map read [m[k]] of a [map[string]interface{}]: nil when absent. *)
Definition map_get (m : gmap string val) (k : string) : val := default VNil (m !! k).

Lemma map_get_insert_eq m k v : map_get (<[k := v]> m) k = v.
Proof. unfold map_get. by rewrite lookup_insert_eq. Qed.

Lemma map_get_insert_ne m k k' v : k ≠ k' → map_get (<[k := v]> m) k' = map_get m k'.
Proof. intros. unfold map_get. by rewrite lookup_insert_ne. Qed.

Lemma map_get_singleton k v : map_get {[ k := v ]} k = v.
Proof. unfold map_get. by rewrite lookup_singleton_eq. Qed.

#[export] Hint Rewrite map_get_insert_eq map_get_singleton : harness.
#[export] Hint Rewrite map_get_insert_ne using done : harness.

Definition is_nil (v : val) : bool := match v with VNil => true | _ => false end.

(** ** The [Missing] sentinel, [Overwrite] and [Interrupt] wrappers *)

(** [channels.Missing]: a pointer to the sentinel struct. *)
Definition Missing : val := VPtr (VStruct "channels.missingSentinel" []).

(** [IsMissing] tests the dynamic type, not the pointer; the sentinel's type
    has no fields, so it has a single value. *)
Definition IsMissing (v : val) : bool :=
  match v with
  | VNil => false
  | VPtr (VStruct n []) => bool_decide (n = "channels.missingSentinel")
  | _ => false
  end.

(** [&types.Overwrite{Value: v}]. *)
Definition NewOverwrite (v : val) : val :=
  VPtr (VStruct "types.Overwrite" [("Value", TAny, v)]).

(** [v.( *types.Overwrite)]. *)
Definition as_overwrite (v : val) : option val :=
  match v with
  | VPtr (VStruct n [(_, _, x)]) =>
      if decide (n = "types.Overwrite") then Some x else None
  | _ => None
  end.

(** [&types.Interrupt{Value: v, ID: id}]. *)
Definition NewInterrupt (v : val) (id : string) : val :=
  VPtr (VStruct "types.Interrupt" [("Value", TAny, v); ("ID", TString, VStr id)]).

(** [v.( *types.Interrupt)], the [Value] field. *)
Definition as_interrupt (v : val) : option val :=
  match v with
  | VPtr (VStruct n [(_, _, x); (_, _, _)]) =>
      if decide (n = "types.Interrupt") then Some x else None
  | _ => None
  end.

Lemma IsMissing_Missing : IsMissing Missing = true.
Proof. reflexivity. Qed.

Lemma IsMissing_true v : IsMissing v = true ↔ v = Missing.
Proof.
  split; [|by intros ->]. unfold IsMissing.
  case_all; try done. case_bool_decide; naive_solver.
Qed.

(** The normal form of a restored value: [if !IsMissing(cp) { value = cp }]
    over a value that starts as [Missing]. *)
Lemma IsMissing_restore v : (if IsMissing v then Missing else v) = v.
Proof. destruct (IsMissing v) eqn:E; [|done]. by apply IsMissing_true in E. Qed.

Lemma as_overwrite_New v : as_overwrite (NewOverwrite v) = Some v.
Proof. reflexivity. Qed.

Lemma as_interrupt_New v id : as_interrupt (NewInterrupt v id) = Some v.
Proof. reflexivity. Qed.

#[export] Hint Rewrite IsMissing_Missing as_overwrite_New as_interrupt_New : harness.

(** ** Arithmetic *)

(** [int] addition wraps around. *)
Definition int_add (a b : Z) : Z := wrap64 (a + b).

(** [float64] addition, round to nearest even. *)
Definition float_add (a b : spec_float) : spec_float := SFadd 53 1024 a b.

(** [float64(z)] of an integer, round to nearest even. *)
Definition float_of_int (z : Z) : spec_float := binary_normalize 53 1024 z 0 false.

(** [int(f)] for a finite float in range: truncation toward zero. *)
Definition int_of_float (f : spec_float) : Z :=
  match f with
  | S754_finite s m e =>
      let a := match e with
               | Z0 => Zpos m
               | Zpos p => Z.shiftl (Zpos m) (Zpos p)
               | Zneg p => Z.shiftr (Zpos m) (Zpos p)
               end in
      if s then Z.opp a else a
  | _ => 0%Z
  end.

(** A float with an exact integer value: the round trip [int -> float64 -> int]
    is the identity up to 2^53. *)
Example int_float_example : int_of_float (float_of_int (-7)) = (-7)%Z.
Proof. reflexivity. Qed.

(** ** Merging maps

    The loop [for k, v := range a { r[k] = v }; for k, v := range b { r[k] = v }]
    that the merge reducers and [mergeStates] share: [b] wins. *)
Definition merge_maps (a b : gmap string val) : gmap string val := b ∪ a.

Lemma merge_maps_loops a b orda ordb :
  go_range a orda → go_range b ordb →
  copy_into id ordb (copy_into id orda ∅) = merge_maps a b.
Proof.
  intros Ha Hb. rewrite (copy_into_range _ _ _ _ Ha), (copy_into_range _ _ _ _ Hb).
  unfold merge_maps. rewrite !map_fmap_id. by rewrite (right_id_L ∅ (∪)).
Qed.

Lemma lookup_merge_maps a b k :
  merge_maps a b !! k = match b !! k with Some v => Some v | None => a !! k end.
Proof. unfold merge_maps. rewrite lookup_union. by destruct (b !! k), (a !! k). Qed.

(** ** Type names

    [reflect.Type.String()] and the [%T] verb. *)
Definition numkind_string (k : numkind) : string :=
  match k with
  | Int8 => "int8" | Int16 => "int16" | Int32 => "int32" | Int64 => "int64"
  | Uint => "uint" | Uint8 => "uint8" | Uint16 => "uint16"
  | Uint32 => "uint32" | Uint64 => "uint64"
  end.

Fixpoint type_string (t : gotype) : string :=
  match t with
  | TAny => "interface {}"
  | TBool => "bool"
  | TInt => "int"
  | TNum k => numkind_string k
  | TFloat32 => "float32"
  | TFloat64 => "float64"
  | TString => "string"
  | TSlice e => "[]" +:+ type_string e
  | TMap e => "map[string]" +:+ type_string e
  | TPtr e => "*" +:+ type_string e
  | TStruct n _ => n
  | TOther n => n
  end.

Definition fmt_T (v : val) : string :=
  match typeof v with None => "<nil>" | Some t => type_string t end.
