(* ===== verification/Errors.v ===== *)
(** * Error values of the graph package

    [internal/harness/graph/errors/errors.go], the checkpoint and retry
    errors that other components raise, and the two forms of [fmt.Errorf]
    the engine uses: with and without a wrapped cause.  The predicates
    [IsGraphInterrupt] and the like are type assertions on the outermost
    error: they do not look through a wrapped cause. *)

From S2P Require Export Values.

Inductive error : Type :=
| EmptyChannelError (Message : string)
| GraphRecursionError (Limit : Z)
| InvalidUpdateError (Message : string)
| GraphBubbleUp (Message : string) (Cause : option error)
| GraphInterrupt (Interrupts : list val)
| ParentCommand (Command : val)
| EmptyInputError (Message : string)
| TaskNotFound (TaskID : string)
| InvalidNodeError (NodeName Message : string)
| InvalidEdgeError (From To Message : string)
| ChannelNotFoundError (ChannelName : string)
| NodeNotFoundError (NodeName : string)
| RetryExhaustedError (NodeName : string) (Attempts : Z) (LastErr : option error)
                      (LastOutput : val)
| VersionConflictError (CurrentVersion ExpectedVersion : Z)
                       (CheckpointID ThreadID : string)
| ContextDone
| Errorf (msg : string)
| Wrapf (msg : string) (cause : error).

(** [fmt.Errorf("msg: %w", cause)] prints the message, a colon, the cause. *)
Fixpoint Error_string (e : error) : string :=
  match e with
  | EmptyChannelError m => if decide (m = "") then "channel is empty" else m
  | GraphRecursionError l =>
      "Graph recursion limit of " +:+ pretty l +:+
      " reached. To increase the limit, run your graph with a config specifying a higher recursion_limit."
  | InvalidUpdateError m => "Invalid update: " +:+ m
  | GraphBubbleUp m c =>
      if decide (m = "") then
        match c with Some e' => Error_string e' | None => "graph bubble up" end
      else m
  | GraphInterrupt ints =>
      "graph interrupted with " +:+ pretty (Z.of_nat (length ints)) +:+ " interrupt(s)"
  | ParentCommand _ => "parent command"
  | EmptyInputError m => if decide (m = "") then "empty input" else m
  | TaskNotFound t => "task not found: " +:+ t
  | InvalidNodeError n m => "invalid node '" +:+ n +:+ "': " +:+ m
  | InvalidEdgeError f t m =>
      "invalid edge from '" +:+ f +:+ "' to '" +:+ t +:+ "': " +:+ m
  | ChannelNotFoundError n => "channel not found: " +:+ n
  | NodeNotFoundError n => "node not found: " +:+ n
  | RetryExhaustedError n a le _ =>
      "node " +:+ n +:+ " failed after " +:+ pretty a +:+ " attempts: " +:+
      match le with Some e' => Error_string e' | None => "<nil>" end
  | VersionConflictError cur exp cp th =>
      "version conflict: expected version " +:+ pretty exp +:+ " but found " +:+
      pretty cur +:+ " for checkpoint " +:+ cp +:+ " in thread " +:+ th
  | ContextDone => "context canceled"
  | Errorf m => m
  | Wrapf m c => m +:+ ": " +:+ Error_string c
  end.

Abbreviation res A := (result error A).

Definition IsEmptyChannelError (e : error) : bool :=
  match e with EmptyChannelError _ => true | _ => false end.

Definition IsGraphRecursionError (e : error) : bool :=
  match e with GraphRecursionError _ => true | _ => false end.

Definition IsInvalidUpdateError (e : error) : bool :=
  match e with InvalidUpdateError _ => true | _ => false end.

Definition IsGraphInterrupt (e : error) : bool :=
  match e with GraphInterrupt _ => true | _ => false end.

Definition IsParentCommand (e : error) : bool :=
  match e with ParentCommand _ => true | _ => false end.

Definition IsEmptyInputError (e : error) : bool :=
  match e with EmptyInputError _ => true | _ => false end.

Definition IsTaskNotFound (e : error) : bool :=
  match e with TaskNotFound _ => true | _ => false end.

Definition IsRetryExhausted (e : error) : bool :=
  match e with RetryExhaustedError _ _ _ _ => true | _ => false end.

(** [Unwrap] of the errors that carry a cause. *)
Definition Unwrap (e : error) : option error :=
  match e with
  | GraphBubbleUp _ c => c
  | RetryExhaustedError _ _ le _ => le
  | Wrapf _ c => Some c
  | _ => None
  end.
