(* ===== verification/Format.v ===== *)
(** * The [%v] verb

    The engine renders values with [fmt.Sprintf("%v", x)] in three places: the
    key of a conditional edge, the keys of a reflected map and the fallback of
    [StringConcat].  [fmt_v] models the verb for every dynamic value: floats
    print the shortest decimal that reads back as the same float.  The text
    of a pointer below the top level is its address, which the runtime
    chooses: it is the only parameter. *)

From S2P Require Export Values.

(** The address the runtime prints for a pointer. *)
Class GoRuntime := { ptr_text : val → string }.

(** A runtime in which every pointer prints the same text, for examples. *)
Definition fixed_addresses : GoRuntime := {| ptr_text _ := "0xc000012120" |}.

(** Converting a float that an [int64] cannot hold gives a result that the
    language leaves to the implementation. *)
Class GoFloat := { f2i_out_of_range : spec_float → Z }.

(** An implementation whose out-of-range conversion gives the least integer. *)
Definition amd64 : GoFloat := {| f2i_out_of_range _ := (- int_bound)%Z |}.

Definition f2i_ok (f : spec_float) : bool :=
  match f with
  | S754_zero _ | S754_finite _ _ _ =>
      bool_decide (- int_bound ≤ int_of_float f < int_bound)%Z
  | _ => false
  end.

(** [int64(f)], and [int(f)]. *)
Definition int64_of_float `{GoFloat} (f : spec_float) : Z :=
  if f2i_ok f then int_of_float f else f2i_out_of_range f.

(** *** Small integers are exact *)
Lemma digits2_pos_shift m n :
  Zpos (digits2_pos (Pos.iter xO m n)) = (Zpos (digits2_pos m) + Zpos n)%Z.
Proof.
  induction n as [|n IH] using Pos.peano_ind; [simpl; lia|].
  rewrite Pos.iter_succ. cbn [digits2_pos]. lia.
Qed.

Lemma digits2_pos_bounds m :
  (2 ^ (Zpos (digits2_pos m) - 1) ≤ Zpos m < 2 ^ Zpos (digits2_pos m))%Z.
Proof.
  induction m as [m IH|m IH|]; cbn [digits2_pos]; [..|done];
    rewrite Pos2Z.inj_succ, <-Z.add_1_r, Z.add_simpl_r;
    replace (Zpos (digits2_pos m)) with (1 + (Zpos (digits2_pos m) - 1))%Z at 1 by lia;
    rewrite !Z.pow_add_r by lia; lia.
Qed.

Lemma binary_round_small s m :
  (Zpos m < 2 ^ 53)%Z →
  let d := Zpos (digits2_pos m) in
  binary_round 53 1024 s m 0 =
    match (53 - d)%Z with
    | Zpos k => S754_finite s (Pos.iter xO m k) (d - 53)
    | _ => S754_finite s m 0
    end ∧ (d ≤ 53)%Z.
Proof.
  intros Hm d. pose proof (digits2_pos_bounds m) as [Hlo _]. fold d in Hlo.
  assert (d ≤ 53)%Z as Hd.
  { apply Z.lt_succ_r, Z.lt_sub_lt_add_r. apply (Z.pow_lt_mono_r_iff 2); lia. }
  assert (∀ mz ez, Zpos (digits2_pos mz) = 53%Z → (-52 ≤ ez ≤ 0)%Z →
            binary_round_aux 53 1024 s (Zpos mz) ez loc_Exact = S754_finite s mz ez) as Haux.
  { intros mz ez Hdz Hez. unfold binary_round_aux, shr_fexp. cbn [Zdigits2].
    assert (fexp 53 1024 (Zpos (digits2_pos mz) + ez) - ez = 0)%Z as Hf
      by (rewrite Hdz; unfold fexp, emin; lia).
    rewrite Hf. cbn [shr shr_record_of_loc shr_m loc_of_shr_record round_nearest_even Zdigits2].
    rewrite Hf. cbn. by rewrite (proj2 (Z.leb_le _ _)) by lia. }
  split; [|done]. unfold binary_round, shl_align. fold d.
  assert (fexp 53 1024 (d + 0) - 0 = d - 53)%Z as -> by (unfold fexp, emin; lia).
  assert (fexp 53 1024 (d + 0) = d - 53)%Z as -> by (unfold fexp, emin; lia).
  destruct (53 - d)%Z as [|k|k] eqn:E.
  - replace (d - 53)%Z with 0%Z by lia. apply Haux; [fold d|]; lia.
  - replace (d - 53)%Z with (Zneg k) by lia. apply Haux; [|lia].
    rewrite digits2_pos_shift. fold d. lia.
  - lia.
Qed.

Lemma shiftr_iter m k : Z.shiftr (Zpos (Pos.iter xO m k)) (Zpos k) = Zpos m.
Proof.
  replace (Zpos (Pos.iter xO m k)) with (Z.shiftl (Zpos m) (Zpos k)).
  - by rewrite Z.shiftr_shiftl_l, Z.sub_diag by lia.
  - simpl. symmetry. by apply (Pos.iter_swap_gen positive Z Zpos xO (Z.mul 2) (λ p, eq_refl)).
Qed.

Lemma int_of_binary_round s m :
  (Zpos m < 2 ^ 53)%Z →
  int_of_float (binary_round 53 1024 s m 0) = (if s then Zneg m else Zpos m).
Proof.
  intros Hm. destruct (binary_round_small s m Hm) as [-> Hd].
  set (d := Zpos (digits2_pos m)) in *. destruct (53 - d)%Z as [|k|k] eqn:E; [done| |done].
  replace (d - 53)%Z with (Zneg k) by lia. cbn [int_of_float]. rewrite shiftr_iter. by destruct s.
Qed.

(** An integer of at most 53 bits survives the way to [float64] and back. *)
Lemma int_float_exact z : (- 2 ^ 53 < z < 2 ^ 53)%Z → int_of_float (float_of_int z) = z.
Proof.
  intros Hz. unfold float_of_int, binary_normalize.
  destruct z as [|m|m]; [done|apply int_of_binary_round; lia|].
  apply (int_of_binary_round true). lia.
Qed.

Lemma int64_float_exact `{GoFloat} z :
  (- 2 ^ 53 < z < 2 ^ 53)%Z → int64_of_float (float_of_int z) = z.
Proof.
  intros Hz. unfold int64_of_float, f2i_ok. rewrite int_float_exact by done.
  rewrite bool_decide_true by (unfold int_bound; lia).
  unfold float_of_int, binary_normalize. destruct z as [|m|m]; [done|..];
    [destruct (binary_round_small false m) as [-> _]|destruct (binary_round_small true m) as [-> _]];
    try lia; by destruct (53 - _)%Z.
Qed.

(** ** Shortest decimal representation *)
Section float.
Context (prec emax : Z).

Definition pow10 (n : Z) : Z := (10 ^ n)%Z.

(** The float nearest to [c * 10^p], for [c >= 0]. *)
Definition float_of_dec (c p : Z) : spec_float :=
  match c with
  | Zpos m =>
      if (0 <=? p)%Z then binary_normalize prec emax (c * pow10 p) 0 false
      else SFdiv prec emax (S754_finite false m 0)
                 (S754_finite false (Z.to_pos (pow10 (- p))) 0)
  | _ => S754_zero false
  end.

(** [num / den < 10^d]. *)
Definition below10 (num den d : Z) : bool :=
  if (0 <=? d)%Z then (num <? pow10 d * den)%Z else (num * pow10 (- d) <? den)%Z.

(** The number of decimal digits before the point, from a logarithmic
    estimate that is off by at most two. *)
Definition dec_point (num den : Z) : Z :=
  let est := ((Z.log2 num - Z.log2 den) * 30103 / 100000)%Z in
  let fix go (n : nat) (d : Z) : Z :=
    match n with
    | O => d
    | S n' => if below10 num den d then d else go n' (d + 1)%Z
    end in
  go 4 (est - 1)%Z.

(** The [n]-digit decimal nearest to [num/den] that reads back as [f]. *)
Definition try_digits (f : spec_float) (num den d n : Z) : option (Z * Z) :=
  let k := (n - d)%Z in
  let num' := if (0 <=? k)%Z then (num * pow10 k)%Z else num in
  let den' := if (0 <=? k)%Z then den else (den * pow10 (- k))%Z in
  let lo := (num' / den')%Z in
  let rem := (num' mod den')%Z in
  let ok c := match c with Zpos _ => SFeqb (float_of_dec c (- k)) f | _ => false end in
  let hi_first := ((den' <? 2 * rem) || ((den' =? 2 * rem) && Z.odd lo))%Z in
  if hi_first && ok (lo + 1)%Z then Some ((lo + 1)%Z, (- k)%Z)
  else if ok lo then Some (lo, (- k)%Z)
  else if ok (lo + 1)%Z then Some ((lo + 1)%Z, (- k)%Z)
  else None.

Definition shortest (f : spec_float) (m : positive) (e : Z) : Z * Z :=
  let num := if (0 <=? e)%Z then (Zpos m * 2 ^ e)%Z else Zpos m in
  let den := if (0 <=? e)%Z then 1%Z else (2 ^ (- e))%Z in
  let d := dec_point num den in
  let fix go (n : nat) (i : Z) : Z * Z :=
    match n with
    | O => (num / den, 0)%Z
    | S n' => match try_digits f num den d i with
              | Some r => r
              | None => go n' (i + 1)%Z
              end
    end in
  go 17 1%Z.

Fixpoint strip_zeros (n : nat) (c p : Z) : Z * Z :=
  match n with
  | O => (c, p)
  | S n' => if (c mod 10 =? 0)%Z then strip_zeros n' (c / 10)%Z (p + 1)%Z else (c, p)
  end.
End float.

Fixpoint zeros (n : nat) : string :=
  match n with O => "" | S n' => "0" +:+ zeros n' end.

Definition str_take (n : nat) (s : string) : string := String.substring 0 n s.
Definition str_drop (n : nat) (s : string) : string :=
  String.substring n (String.length s - n) s.

(** [%e] with the given digits: one digit before the point. *)
Definition fmt_e (ds : string) (x : Z) : string :=
  let mant := if decide (String.length ds = 1) then ds
              else str_take 1 ds +:+ "." +:+ str_drop 1 ds in
  let ax := Z.abs x in
  mant +:+ (if (x <? 0)%Z then "e-" else "e+") +:+
  (if (ax <? 10)%Z then "0" else "") +:+ pretty ax.

(** [%f] with the given digits and decimal point. *)
Definition fmt_f (ds : string) (dp : Z) : string :=
  let nd := Z.of_nat (String.length ds) in
  if (dp <=? 0)%Z then "0." +:+ zeros (Z.to_nat (- dp)) +:+ ds
  else if (nd <=? dp)%Z then ds +:+ zeros (Z.to_nat (dp - nd))
  else str_take (Z.to_nat dp) ds +:+ "." +:+ str_drop (Z.to_nat dp) ds.

(** [%v] of a float: [strconv.FormatFloat(f, 'g', -1, size)], [%e] when the
    exponent is below -4 or, the digits being the shortest ones, at least 6. *)
Definition fmt_float (prec emax : Z) (f : spec_float) : string :=
  match f with
  | S754_nan => "NaN"
  | S754_infinity s => if s then "-Inf" else "+Inf"
  | S754_zero s => if s then "-0" else "0"
  | S754_finite s m e =>
      let '(c, p) := shortest prec emax (S754_finite false m e) m e in
      let '(c, p) := strip_zeros 400 c p in
      let ds := pretty c in
      let dp := (Z.of_nat (String.length ds) + p)%Z in
      let x := (dp - 1)%Z in
      (if s then "-" else "") +:+
      (if ((x <? -4) || (6 <=? x))%Z then fmt_e ds x else fmt_f ds dp)
  end.

Example fmt_tenth : fmt_float 53 1024 (float_of_dec 53 1024 1 (-1)) = "0.1".
Proof. vm_compute. reflexivity. Qed.
Example fmt_third : fmt_float 53 1024 (SFdiv 53 1024 (float_of_int (-1)) (float_of_int 3))
                    = "-0.3333333333333333".
Proof. vm_compute. reflexivity. Qed.
Example fmt_million : fmt_float 53 1024 (float_of_int 1000000) = "1e+06".
Proof. vm_compute. reflexivity. Qed.
Example fmt_int : fmt_float 53 1024 (float_of_int 123456) = "123456".
Proof. vm_compute. reflexivity. Qed.
Example fmt_max : fmt_float 53 1024 (S754_finite false 9007199254740991 971)
                  = "1.7976931348623157e+308".
Proof. vm_compute. reflexivity. Qed.
Example fmt_min : fmt_float 53 1024 (S754_finite false 1 (-1074)) = "5e-324".
Proof. vm_compute. reflexivity. Qed.

(** ** Values *)

(** [map[k1:v1 k2:v2]], keys in order. *)
Definition fmt_map (m : gmap string string) : string :=
  "map[" +:+
  join_with " " ((λ k, k +:+ ":" +:+ default "" (m !! k))
                 <$> sort_strings ((map_to_list m).*1)) +:+ "]".

Section values.
Context `{GoRuntime}.

(** [top] is true for the operand itself, false below it.  The sentinel and
    [reflect.Type] have a [String] method, which wins at any depth. *)
Fixpoint fmt_at (top : bool) (v : val) : string :=
  match v with
  | VNil => "<nil>"
  | VBool b => if b then "true" else "false"
  | VInt z => pretty z
  | VNum _ z => pretty z
  | VFloat32 f => fmt_float 24 128 f
  | VFloat f => fmt_float 53 1024 f
  | VStr s => s
  | VBytes s =>
      "[" +:+ join_with " " ((λ a, pretty (Z.of_N (Ascii.N_of_ascii a)))
                             <$> String.list_ascii_of_string s) +:+ "]"
  | VSlice _ l => "[" +:+ join_with " " (fmt_at false <$> l) +:+ "]"
  | VMap _ m => fmt_map (fmt_at false <$> m)
  | VPtr p =>
      if IsMissing v then "<MISSING>"
      else if top then
        match p with
        | VStruct _ _ | VSlice _ _ | VMap _ _ => "&" +:+ fmt_at false p
        | _ => ptr_text v
        end
      else ptr_text v
  | VStruct _ fs => "{" +:+ join_with " " ((λ f, fmt_at false f.2) <$> fs) +:+ "}"
  | VRType t => type_string t
  | VTypedNil t =>
      match t with TSlice _ => "[]" | TMap _ => "map[]" | _ => "<nil>" end
  end.

(** [fmt.Sprintf("%v", v)] and [fmt.Sprint(v)]. *)
Definition fmt_v (v : val) : string := fmt_at true v.

Example fmt_nested :
  fmt_v (VList [VInt 1; VStr "a"; VNil; VObj {["k" := VBool true; "b" := VInt (-2)]}])
  = "[1 a <nil> map[b:-2 k:true]]".
Proof. vm_compute. reflexivity. Qed.
End values.
