(* ===== verification/Json.v ===== *)
(** * Deep copies and JSON round trips

    Checkpoints are copied with [deepCopy] (checkpoint/checkpoint.go): maps
    and slices of [interface{}] element by element, everything else through
    [json.Marshal] and [json.Unmarshal] into an [interface{}].  [json_rt] is
    that round trip on dynamic values; it does not go through the text.
    Struct fields encode under their names, as for a struct without tags. *)

From Stdlib Require Import Ascii.
From S2P Require Export Errors Format.

(** ** Strings: invalid UTF-8 is replaced *)
Definition byte_of (a : ascii) : Z := Z.of_N (N_of_ascii a).

Definition between (lo hi : Z) (s : string) : bool :=
  match s with
  | String a _ => (lo <=? byte_of a)%Z && (byte_of a <=? hi)%Z
  | EmptyString => false
  end.

Definition tl (s : string) : string := match s with String _ s' => s' | EmptyString => "" end.

(** The length of the well-formed UTF-8 sequence a string starts with, zero if
    it starts with none. *)
Definition rune_len (s : string) : nat :=
  let cont s := between 128 191 s in
  if between 0 127 s then 1
  else if between 194 223 s then (if cont (tl s) then 2 else 0)
  else if between 224 239 s then
    let lo := if between 224 224 s then 160%Z else 128%Z in
    let hi := if between 237 237 s then 159%Z else 191%Z in
    if between lo hi (tl s) && cont (tl (tl s)) then 3 else 0
  else if between 240 244 s then
    let lo := if between 240 240 s then 144%Z else 128%Z in
    let hi := if between 244 244 s then 143%Z else 191%Z in
    if between lo hi (tl s) && cont (tl (tl s)) && cont (tl (tl (tl s))) then 4 else 0
  else 0.

(** U+FFFD *)
Definition replacement : string :=
  String (ascii_of_nat 239) (String (ascii_of_nat 191) (String (ascii_of_nat 189) "")).

(** [skip] bytes of the current sequence are still to be copied. *)
Fixpoint sanitize_from (skip : nat) (s : string) : string :=
  match s with
  | EmptyString => ""
  | String a s' =>
      match skip with
      | S skip' => String a (sanitize_from skip' s')
      | O => match rune_len s with
             | O => replacement +:+ sanitize_from 0 s'
             | S n => String a (sanitize_from n s')
             end
      end
  end.

Definition sanitize (s : string) : string := sanitize_from 0 s.

(** ** Bytes: base64 *)
Definition base64_alphabet : string :=
  "ABCDEFGHIJKLMNOPQRSTUVWXYZabcdefghijklmnopqrstuvwxyz0123456789+/".

Definition base64_char (n : Z) : ascii :=
  default "A"%char (String.get (Z.to_nat n) base64_alphabet).

Fixpoint base64 (s : string) : string :=
  match s with
  | EmptyString => ""
  | String a EmptyString =>
      let x := byte_of a in
      String (base64_char (x / 4)) (String (base64_char ((x mod 4) * 16)) "==")
  | String a (String b EmptyString) =>
      let x := byte_of a in let y := byte_of b in
      String (base64_char (x / 4))
        (String (base64_char ((x mod 4) * 16 + y / 16))
           (String (base64_char ((y mod 16) * 4)) "="))
  | String a (String b (String c s')) =>
      let x := byte_of a in let y := byte_of b in let z := byte_of c in
      String (base64_char (x / 4))
        (String (base64_char ((x mod 4) * 16 + y / 16))
           (String (base64_char ((y mod 16) * 4 + z / 64))
              (String (base64_char (z mod 64)) (base64 s'))))
  end.

Example base64_example : base64 "any carnal pleas" = "YW55IGNhcm5hbCBwbGVhcw==".
Proof. vm_compute. reflexivity. Qed.

(** ** Numbers *)
Definition is_finite (f : spec_float) : bool :=
  match f with S754_zero _ | S754_finite _ _ _ => true | _ => false end.

(** A [float32] is written with the shortest digits that identify it among the
    [float32]s, and read back as a [float64]. *)
Definition float32_rt (f : spec_float) : spec_float :=
  match f with
  | S754_finite s m e =>
      let '(c, p) := shortest 24 128 (S754_finite false m e) m e in
      let r := float_of_dec 53 1024 c p in
      if s then SFopp r else r
  | _ => f
  end.

Example float32_tenth : float32_rt (SFdiv 24 128 (S754_finite false 8388608 (-23))
                                      (S754_finite false 10485760 (-20)))
                        = float_of_dec 53 1024 1 (-1).
Proof. vm_compute. reflexivity. Qed.

(** ** The round trip *)
Fixpoint sequence {A} (l : list (option A)) : option (list A) :=
  match l with
  | [] => Some []
  | None :: _ => None
  | Some x :: l' => match sequence l' with Some r => Some (x :: r) | None => None end
  end.

(** The members of an object are written in key order; of two keys that become
    equal the later one is read. *)
Definition object_of (m : gmap string val) : gmap string val :=
  foldl (λ acc k, match m !! k with
                  | Some v => <[sanitize k := v]> acc
                  | None => acc
                  end) ∅ (sort_strings (map_to_list m).*1).

(** All values present, or [None]. *)
Definition sequence_map (m : gmap string (option val)) : option (gmap string val) :=
  if decide (map_Forall (λ _ v, is_Some v) m) then Some (omap id m) else None.

Fixpoint json_rt (v : val) : option val :=
  match v with
  | VNil => Some VNil
  | VBool b => Some (VBool b)
  | VInt z | VNum _ z => Some (VFloat (float_of_int z))
  | VFloat32 f => if is_finite f then Some (VFloat (float32_rt f)) else None
  | VFloat f => if is_finite f then Some (VFloat f) else None
  | VStr s => Some (VStr (sanitize s))
  | VBytes s => Some (VStr (base64 s))
  | VSlice _ l => VSlice TAny <$> sequence (json_rt <$> l)
  | VMap _ m => VMap TAny ∘ object_of <$> sequence_map (json_rt <$> m)
  | VPtr p => json_rt p
  | VStruct _ fs =>
      match sequence ((λ f, json_rt f.2) <$> fs) with
      | None => None
      | Some vs =>
          Some (VObj (foldl (λ acc kv, <[sanitize kv.1 := kv.2]> acc) ∅
                            (zip ((λ f, f.1.1) <$> fs) vs)))
      end
  | VRType _ => Some (VObj ∅)
  | VTypedNil t => match t with TSlice _ | TMap _ | TPtr _ => Some VNil | _ => None end
  end.

(** ** deepCopy

    Failing to encode gives nil. *)
Fixpoint deepCopy (v : val) : val :=
  match v with
  | VMap TAny m => VObj (deepCopy <$> m)
  | VTypedNil (TMap TAny) => VObj ∅
  | VSlice TAny l => VList (deepCopy <$> l)
  | VTypedNil (TSlice TAny) => VList []
  | _ => default VNil (json_rt v)
  end.

Definition deepCopyMap (m : gmap string val) : gmap string val := deepCopy <$> m.
Definition deepCopySlice (l : list val) : list val := deepCopy <$> l.

Example deepCopy_example :
  deepCopy (VObj {["n" := VInt 3; "l" := VList [VStr "x"; VBytes "hi"]]}) =
  VObj {["n" := VFloat (float_of_int 3); "l" := VList [VStr "x"; VStr "aGk="]]}.
Proof. vm_compute. reflexivity. Qed.

(** ** Induction on the size of a value *)
Fixpoint vsize (v : val) : nat :=
  match v with
  | VSlice _ l => S (sum_list (vsize <$> l))
  | VMap _ m => S (map_fold (λ _ n acc, n + acc) 0 (vsize <$> m))
  | VPtr p => S (vsize p)
  | VStruct _ fs => S (sum_list ((λ f, vsize f.2) <$> fs))
  | _ => 1
  end.

Lemma vsize_list e l v : v ∈ l → vsize v < vsize (VSlice e l).
Proof.
  intros Hin. simpl. induction l as [|x l IH]; [by apply elem_of_nil in Hin|].
  apply elem_of_cons in Hin as [->|Hin]; csimpl; [lia|]. specialize (IH Hin). lia.
Qed.

Lemma vsize_map e (m : gmap string val) k v : m !! k = Some v → vsize v < vsize (VMap e m).
Proof.
  intros Hk. cbn [vsize]. apply Nat.lt_succ_r.
  assert ((vsize <$> m) !! k = Some (vsize v)) as Hf by by rewrite lookup_fmap, Hk.
  rewrite (map_fold_delete_L _ _ k (vsize v)); [lia| |done].
  intros. lia.
Qed.

Lemma val_size_ind (P : val → Prop) :
  (∀ v, (∀ w, vsize w < vsize v → P w) → P v) → ∀ v, P v.
Proof. intros H v. by apply (well_founded_ind (well_founded_ltof _ vsize)). Qed.

(** ** What survives a copy *)

(** Values that JSON represents exactly: no integers, no typed collections, no
    structs or pointers. *)
Inductive plain : val → Prop :=
| plain_nil : plain VNil
| plain_bool b : plain (VBool b)
| plain_float f : is_finite f = true → plain (VFloat f)
| plain_str s : sanitize s = s → plain (VStr s)
| plain_list l : (∀ v, v ∈ l → plain v) → plain (VList l)
| plain_map m : (∀ k v, m !! k = Some v → plain v) → plain (VObj m).

Definition json_shaped (v : val) : bool :=
  match v with
  | VNil | VBool _ | VFloat _ | VStr _ | VSlice TAny _ | VMap TAny _ => true
  | _ => false
  end.

Lemma json_rt_shape v w : json_rt v = Some w → json_shaped w = true.
Proof.
  induction v as [| | | | | | | | | |v IH|n fs| |t]; cbn [json_rt]; try (by intros [= <-]).
  - destruct (is_finite f); [by intros [= <-]|done].
  - destruct (is_finite f); [by intros [= <-]|done].
  - destruct (sequence _); [by intros [= <-]|done].
  - destruct (sequence_map _); [by intros [= <-]|done].
  - done.
  - destruct (sequence _); [by intros [= <-]|done].
  - destruct t; try done; by intros [= <-].
Qed.

Lemma deepCopy_shape v : json_shaped (deepCopy v) = true.
Proof.
  assert (json_shaped (default VNil (json_rt v)) = true) as Hd.
  { destruct (json_rt v) eqn:E; [by eapply json_rt_shape|done]. }
  destruct v as [| | | | | | | |e ?|e ?| | | |t]; try exact Hd.
  - by destruct e.
  - by destruct e.
  - destruct t as [| | | | | | |e|e| | |]; try exact Hd; by destruct e.
Qed.

Lemma deepCopy_plain v : plain v → deepCopy v = v.
Proof.
  induction v as [v IH] using val_size_ind. intros Hp. destruct Hp as [| |f Hf|s Hs|l Hl|m Hm]; simpl.
  - done.
  - done.
  - by rewrite Hf.
  - by rewrite Hs.
  - f_equal. rewrite <-(list_fmap_id l) at 2. apply list_fmap_ext. intros i v Hi.
    apply list_elem_of_lookup_2 in Hi. apply IH; [by eapply vsize_list|by apply Hl].
  - f_equal. apply map_eq. intros k. rewrite lookup_fmap. destruct (m !! k) as [v|] eqn:Hk; [|done].
    simpl. f_equal. apply IH; [by eapply vsize_map|by eapply Hm].
Qed.

Lemma fmap_fixed {A} (f : A → A) (l : list A) : f <$> l = l → ∀ v, v ∈ l → f v = v.
Proof.
  induction l as [|x l IH]; [by intros _ v ?%elem_of_nil|].
  intros [= Hx Hl] v [->|Hv]%elem_of_cons; [done|by apply IH].
Qed.

Lemma plain_deepCopy v : deepCopy v = v → plain v.
Proof.
  induction v as [v IH] using val_size_ind. intros Hv.
  pose proof (deepCopy_shape v) as Hs. rewrite Hv in Hs.
  destruct v as [| | | | |f|s| |e l|e m| | | |]; simpl in Hs; try done; [constructor..| | | |].
  - constructor. simpl in Hv. by destruct (is_finite f).
  - constructor. simpl in Hv. by injection Hv.
  - destruct e; try done. constructor. simpl in Hv. injection Hv as Hv. intros w Hw.
    apply IH; [by eapply vsize_list|by eapply fmap_fixed].
  - destruct e; try done. constructor. simpl in Hv. injection Hv as Hv. intros k w Hw.
    apply IH; [by eapply vsize_map|].
    assert ((deepCopy <$> m) !! k = m !! k) as Hk by by rewrite Hv.
    rewrite lookup_fmap, Hw in Hk. by injection Hk.
Qed.

(** [deepCopy] gives back the value it copies exactly when the value is
    plain JSON data; its result always has a JSON shape, so integers, typed
    collections, structs and pointers never survive a copy. *)
Theorem deepCopy_fixpoint v :
  (deepCopy v = v ↔ plain v) ∧ json_shaped (deepCopy v) = true.
Proof. split; [split; [apply plain_deepCopy|apply deepCopy_plain]|apply deepCopy_shape]. Qed.

(** An integer comes back as a float. *)
Lemma deepCopy_int z : deepCopy (VInt z) = VFloat (float_of_int z).
Proof. reflexivity. Qed.

Lemma deepCopyMap_plain m : (∀ k v, m !! k = Some v → plain v) → deepCopyMap m = m.
Proof.
  intros Hm. pose proof (deepCopy_plain (VObj m) (plain_map m Hm)) as H. by injection H.
Qed.
#[export] Hint Constructors plain : harness.

(** ** Encoding collections *)
Definition valid (s : string) : Prop := sanitize s = s.

Lemma object_of_valid m : map_Forall (λ k _, valid k) m → object_of m = m.
Proof.
  intros Hm. unfold object_of. set (ks := sort_strings (map_to_list m).*1).
  assert (NoDup ks) as Hnd.
  { unfold ks. rewrite sort_strings_perm. apply NoDup_fst_map_to_list. }
  assert (∀ k, k ∈ ks ↔ is_Some (m !! k)) as Hks.
  { intros k. unfold ks. rewrite sort_strings_perm, list_elem_of_fmap. split.
    - intros ([k' v] & -> & Hin%elem_of_map_to_list). by exists v.
    - intros [v Hv]. exists (k, v). by rewrite elem_of_map_to_list. }
  assert (∀ (l : list string) (acc : gmap string val), NoDup l → (∀ k, k ∈ l → is_Some (m !! k)) → ∀ k,
            foldl (λ acc k, match m !! k with Some v => <[sanitize k := v]> acc | None => acc end)
                  acc l !! k = if decide (k ∈ l) then m !! k else acc !! k) as Hfold.
  { induction l as [|x l IH]; intros acc Hnd' Hin k; [done|]. cbn [foldl].
    apply NoDup_cons in Hnd' as [Hx Hnd']. rewrite IH; [|done|set_solver].
    destruct (Hin x) as [v Hv]; [by left|]. rewrite Hv, (Hm x v Hv).
    destruct (decide (k = x)) as [->|].
    - rewrite decide_False, decide_True, lookup_insert_eq by set_solver. done.
    - rewrite lookup_insert_ne by done. case_decide; case_decide; set_solver. }
  apply map_eq. intros k. rewrite Hfold; [|done|by intros ? ?%Hks].
  case_decide as Hk; [done|]. rewrite lookup_empty. symmetry.
  apply eq_None_not_Some. by rewrite <-Hks.
Qed.

Lemma json_rt_map e m :
  map_Forall (λ k v, valid k ∧ is_Some (json_rt v)) m →
  json_rt (VMap e m) = Some (VObj (omap json_rt m)).
Proof.
  intros Hm. cbn [json_rt]. unfold sequence_map. rewrite decide_True.
  - simpl. do 2 f_equal. assert (omap id (json_rt <$> m) = omap json_rt m) as ->.
    { apply map_eq. intros k. rewrite !lookup_omap, lookup_fmap. by destruct (m !! k). }
    apply object_of_valid. intros k v (x & _ & Hx)%lookup_omap_Some. by destruct (Hm k x Hx).
  - intros k o. rewrite lookup_fmap. intros (v & Hv & ->)%fmap_Some_1. by destruct (Hm k v Hv).
Qed.

Lemma sequence_Some {A B} (f : A → option B) l :
  (∀ x, x ∈ l → is_Some (f x)) → sequence (f <$> l) = Some (omap f l).
Proof.
  induction l as [|x l IH]; intros Hl; [done|]. destruct (Hl x) as [y Hy]; [by left|].
  cbn. rewrite Hy, IH; [done|]. intros z Hz. apply Hl. by right.
Qed.

Lemma json_rt_slice e l :
  (∀ x, x ∈ l → is_Some (json_rt x)) → json_rt (VSlice e l) = Some (VList (omap json_rt l)).
Proof. intros Hl. cbn [json_rt]. by rewrite sequence_Some. Qed.

(** Values both kinds of copy leave alone. *)
Definition exact (v : val) : Prop := json_rt v = Some v ∧ deepCopy v = v.

Lemma exact_nil : exact VNil. Proof. done. Qed.
Lemma exact_bool b : exact (VBool b). Proof. done. Qed.
Lemma exact_str s : valid s → exact (VStr s).
Proof. intros Hs. split; simpl; by rewrite Hs. Qed.

Lemma omap_json_exact (m : gmap string val) :
  map_Forall (λ _ v, exact v) m → omap json_rt m = m.
Proof.
  intros Hm. apply map_eq. intros k. rewrite lookup_omap.
  destruct (m !! k) as [v|] eqn:Hk; [|done]. simpl. by destruct (Hm k v Hk).
Qed.

Lemma deepCopyMap_exact (m : gmap string val) : map_Forall (λ _ v, exact v) m → deepCopyMap m = m.
Proof.
  intros Hm. apply map_eq. intros k. unfold deepCopyMap. rewrite lookup_fmap.
  destruct (m !! k) as [v|] eqn:Hk; [|done]. simpl. f_equal. by destruct (Hm k v Hk).
Qed.
#[export] Hint Resolve exact_nil exact_bool exact_str : harness.
