(* ===== verification/JsonText.v ===== *)
(** * JSON text

    What a value goes through between two runs: [json.Marshal] to text and
    [json.Unmarshal] of text into an [interface{}].  The checkpoints of the
    engine hold such texts, which the clients of this file only see through
    the class [JsonText]; [go_json] is the encoding of Go's standard library. *)

From Stdlib Require Import Ascii.
From S2P Require Export Json.

Class JsonText := {
  json_marshal : val → option string;
  json_unmarshal : string → option val
}.

(** ** Encoding *)
Definition hex_digit (n : nat) : ascii :=
  default "0"%char (String.get n "0123456789abcdef").

Definition escape_byte (n : nat) : string :=
  "\u00" +:+ String (hex_digit (n / 16)) (String (hex_digit (n mod 16)) "").

(** One byte of a valid text; bytes of longer sequences are copied. *)
Definition encode_char (a : ascii) : string :=
  let n := nat_of_ascii a in
  if decide (n = 34) then "\" +:+ String a ""
  else if decide (n = 92) then "\\"
  else if decide (n = 8) then "\b"
  else if decide (n = 12) then "\f"
  else if decide (n = 10) then "\n"
  else if decide (n = 13) then "\r"
  else if decide (n = 9) then "\t"
  else if decide (n < 32 ∨ n = 60 ∨ n = 62 ∨ n = 38) then escape_byte n
  else String a "".

Definition is_prefix (p s : string) : bool := String.prefix p s.

(** U+2028 and U+2029, and U+FFFD for what is not UTF-8, are escaped. *)
Definition line_separator : string :=
  String (ascii_of_nat 226) (String (ascii_of_nat 128) (String (ascii_of_nat 168) "")).
Definition paragraph_separator : string :=
  String (ascii_of_nat 226) (String (ascii_of_nat 128) (String (ascii_of_nat 169) "")).

Fixpoint encode_chars (skip : nat) (s : string) : string :=
  match s with
  | EmptyString => ""
  | String a s' =>
      match skip with
      | S skip' => encode_chars skip' s'
      | O =>
          match rune_len s with
          | O => "\ufffd" +:+ encode_chars 0 s'
          | 1 => encode_char a +:+ encode_chars 0 s'
          | S n =>
              (if is_prefix line_separator s then "\u2028"
               else if is_prefix paragraph_separator s then "\u2029"
               else str_take (S n) s) +:+ encode_chars n s'
          end
      end
  end.

Definition quote : string := String (ascii_of_nat 34) "".
Definition encode_string (s : string) : string := quote +:+ encode_chars 0 s +:+ quote.

(** [%e] without the leading zero of a negative or positive exponent. *)
Definition json_e (ds : string) (x : Z) : string :=
  let mant := if decide (String.length ds = 1) then ds
              else str_take 1 ds +:+ "." +:+ str_drop 1 ds in
  mant +:+ (if (x <? 0)%Z then "e-" else "e+") +:+ pretty (Z.abs x).

(** A finite float: [%f], or [%e] below 1e-6 and from 1e21 on. *)
Definition json_float (prec emax : Z) (f : spec_float) : option string :=
  match f with
  | S754_nan | S754_infinity _ => None
  | S754_zero s => Some (if s : bool then "-0" else "0")
  | S754_finite s m e =>
      let '(c, p) := shortest prec emax (S754_finite false m e) m e in
      let '(c, p) := strip_zeros 400 c p in
      let ds := pretty c in
      let dp := (Z.of_nat (String.length ds) + p)%Z in
      let x := (dp - 1)%Z in
      Some ((if s then "-" else "") +:+
            (if ((x <? -6) || (21 <=? x))%Z then json_e ds x else fmt_f ds dp))
  end.

Definition json_list (items : list string) : string := "[" +:+ join_with "," items +:+ "]".
Definition json_object (members : list (string * string)) : string :=
  "{" +:+ join_with "," ((λ kv, encode_string kv.1 +:+ ":" +:+ kv.2) <$> members) +:+ "}".

(** Maps are written in key order, struct fields in their own. *)
Fixpoint marshal (v : val) : option string :=
  match v with
  | VNil => Some "null"
  | VBool b => Some (if b then "true" else "false")
  | VInt z | VNum _ z => Some (pretty z)
  | VFloat32 f => json_float 24 128 f
  | VFloat f => json_float 53 1024 f
  | VStr s => Some (encode_string s)
  | VBytes s => Some (quote +:+ base64 s +:+ quote)
  | VSlice _ l => json_list <$> sequence (marshal <$> l)
  | VMap _ m =>
      let texts := marshal <$> m in
      if decide (map_Forall (λ _ t, is_Some t) texts) then
        Some (json_object ((λ k, (k, default "" (default None (texts !! k))))
                             <$> sort_strings (map_to_list m).*1))
      else None
  | VPtr p => marshal p
  | VStruct _ fs =>
      match sequence ((λ f, marshal f.2) <$> fs) with
      | None => None
      | Some ts => Some (json_object (zip ((λ f, f.1.1) <$> fs) ts))
      end
  | VRType _ => Some "{}"
  | VTypedNil t => match t with TSlice _ | TMap _ | TPtr _ => Some "null" | _ => None end
  end.

Example marshal_example :
  marshal (VObj {["b" := VList [VInt 1; VFloat (float_of_dec 53 1024 15 (-1)); VNil];
                  "a" := VStr ("<x>" +:+ quote)]}) =
  Some ("{" +:+ quote +:+ "a" +:+ quote +:+ ":" +:+ quote +:+ "\u003cx\u003e\" +:+ quote +:+ quote +:+
        "," +:+ quote +:+ "b" +:+ quote +:+ ":[1,1.5,null]}").
Proof. vm_compute. reflexivity. Qed.

(** ** Decoding *)
Definition ch (a : ascii) : nat := nat_of_ascii a.

Fixpoint skip_ws (s : string) : string :=
  match s with
  | String a s' => if decide (ch a ∈ [32; 9; 10; 13]) then skip_ws s' else s
  | EmptyString => ""
  end.

Definition hex_value (a : ascii) : option Z :=
  let n := Z.of_nat (ch a) in
  if decide (48 ≤ n ≤ 57)%Z then Some (n - 48)%Z
  else if decide (97 ≤ n ≤ 102)%Z then Some (n - 87)%Z
  else if decide (65 ≤ n ≤ 70)%Z then Some (n - 55)%Z
  else None.

Definition hex4 (a b c d : ascii) : option Z :=
  match hex_value a, hex_value b, hex_value c, hex_value d with
  | Some w, Some x, Some y, Some z => Some (4096 * w + 256 * x + 16 * y + z)%Z
  | _, _, _, _ => None
  end.

Definition low_byte (z : Z) : string := String (ascii_of_N (Z.to_N z)) "".

(** UTF-8 of a code point below 0x110000; a surrogate becomes U+FFFD. *)
Definition utf8 (z : Z) : string :=
  let tail n := low_byte (128 + (Z.shiftr z n) `mod` 64)%Z in
  if ((55296 <=? z) && (z <=? 57343))%Z then replacement
  else if (z <? 128)%Z then low_byte z
  else if (z <? 2048)%Z then low_byte (192 + Z.shiftr z 6)%Z +:+ tail 0%Z
  else if (z <? 65536)%Z then low_byte (224 + Z.shiftr z 12)%Z +:+ tail 6%Z +:+ tail 0%Z
  else low_byte (240 + Z.shiftr z 18)%Z +:+ tail 12%Z +:+ tail 6%Z +:+ tail 0%Z.

Definition simple_escape (a : ascii) : option ascii :=
  match ch a with
  | 34 | 92 | 47 => Some a
  | 98 => Some (ascii_of_nat 8) | 102 => Some (ascii_of_nat 12) | 110 => Some (ascii_of_nat 10)
  | 114 => Some (ascii_of_nat 13) | 116 => Some (ascii_of_nat 9)
  | _ => None
  end.

(** The rest of a string literal, up to its closing quote.  [pending] is a high
    surrogate that waits for a low one. *)
Fixpoint parse_chars (fuel : nat) (s : string) : option (string * string) :=
  match fuel with
  | O => None
  | S fuel' =>
      let more t r := match parse_chars fuel' r with
                      | Some (rest, r') => Some (t +:+ rest, r')
                      | None => None
                      end in
      match s with
      | EmptyString => None
      | String a s' =>
          if decide (ch a = 34) then Some ("", s')
          else if decide (ch a < 32) then None
          else if decide (ch a ≠ 92) then more (String a "") s'
          else
            match s' with
            | EmptyString => None
            | String e r =>
                if decide (ch e ≠ 117) then
                  match simple_escape e with Some x => more (String x "") r | None => None end
                else
                  match r with
                  | String h1 (String h2 (String h3 (String h4 r1))) =>
                      match hex4 h1 h2 h3 h4 with
                      | None => None
                      | Some hi =>
                          match r1 with
                          | String b (String u (String l1 (String l2 (String l3 (String l4 r2))))) =>
                              match hex4 l1 l2 l3 l4 with
                              | Some lo =>
                                  if decide ((55296 ≤ hi < 56320)%Z ∧ ch b = 92 ∧ ch u = 117 ∧
                                             (56320 ≤ lo < 57344)%Z)
                                  then more (utf8 (65536 + (hi - 55296) * 1024 + (lo - 56320))) r2
                                  else more (utf8 hi) r1
                              | None => more (utf8 hi) r1
                              end
                          | _ => more (utf8 hi) r1
                          end
                      end
                  | _ => None
                  end
            end
      end
  end.

Definition is_digit (a : ascii) : bool := bool_decide (48 ≤ ch a ≤ 57).

(** Leading digits: their value, how many, the rest. *)
Fixpoint digits (acc : Z) (n : nat) (s : string) : Z * nat * string :=
  match s with
  | String a s' =>
      if is_digit a then digits (10 * acc + (Z.of_nat (ch a) - 48)) (S n) s' else (acc, n, s)
  | EmptyString => (acc, n, s)
  end.

Definition starts_with (n : nat) (s : string) : bool :=
  match s with String a _ => bool_decide (ch a = n) | EmptyString => false end.

(** A number: sign, integer part without leading zeros, fraction, exponent.
    A number no [float64] is near to is an error. *)
Definition parse_number (s : string) : option (spec_float * string) :=
  let neg := starts_with 45 s in
  let s := if neg then tl s else s in
  let '(int, ni, r) := digits 0 0 s in
  if decide (ni = 0 ∨ (1 < ni ∧ starts_with 48 s = true)) then None
  else
    let '(c, nf, r, ok) :=
      if starts_with 46 r then
        let '(c, nf, r') := digits int 0 (tl r) in (c, nf, r', bool_decide (nf ≠ 0))
      else (int, 0, r, true) in
    if negb ok then None
    else
      let '(x, r, ok) :=
        if starts_with 101 r || starts_with 69 r then
          let r := tl r in
          let eneg := starts_with 45 r in
          let r := if eneg || starts_with 43 r then tl r else r in
          let '(x, ne, r') := digits 0 0 r in
          ((if eneg then (- x)%Z else x), r', bool_decide (ne ≠ 0))
        else (0%Z, r, true) in
      if negb ok then None
      else
        let f := float_of_dec 53 1024 c (x - Z.of_nat nf) in
        match f with
        | S754_infinity _ | S754_nan => None
        | _ => Some (if neg then SFopp f else f, r)
        end.

Definition keyword (k : string) (s : string) : option string :=
  if is_prefix k s then Some (str_drop (String.length k) s) else None.

(** A value, the items of an array after "[" and the members of an object
    after "{"; [first] allows the closing bracket at once. *)
Fixpoint parse_value (fuel : nat) (s : string) : option (val * string) :=
  match fuel with
  | O => None
  | S fuel' =>
      let s := skip_ws s in
      if starts_with 34 s then
        match parse_chars (S (String.length s)) (tl s) with
        | Some (t, r) => Some (VStr (sanitize t), r)
        | None => None
        end
      else if starts_with 91 s then parse_items fuel' true [] (tl s)
      else if starts_with 123 s then parse_members fuel' true ∅ (tl s)
      else
        match keyword "null" s, keyword "true" s, keyword "false" s with
        | Some r, _, _ => Some (VNil, r)
        | _, Some r, _ => Some (VBool true, r)
        | _, _, Some r => Some (VBool false, r)
        | _, _, _ => match parse_number s with
                     | Some (f, r) => Some (VFloat f, r)
                     | None => None
                     end
        end
  end
with parse_items (fuel : nat) (first : bool) (acc : list val) (s : string)
  : option (val * string) :=
  match fuel with
  | O => None
  | S fuel' =>
      if first && starts_with 93 (skip_ws s) then Some (VList acc, tl (skip_ws s))
      else
        match parse_value fuel' s with
        | None => None
        | Some (v, r) =>
            let r := skip_ws r in
            if starts_with 44 r then parse_items fuel' false (acc ++ [v]) (tl r)
            else if starts_with 93 r then Some (VList (acc ++ [v]), tl r)
            else None
        end
  end
with parse_members (fuel : nat) (first : bool) (acc : gmap string val) (s : string)
  : option (val * string) :=
  match fuel with
  | O => None
  | S fuel' =>
      let s := skip_ws s in
      if first && starts_with 125 s then Some (VObj acc, tl s)
      else if negb (starts_with 34 s) then None
      else
        match parse_chars (S (String.length s)) (tl s) with
        | None => None
        | Some (k, r) =>
            let r := skip_ws r in
            if negb (starts_with 58 r) then None
            else
              match parse_value fuel' (tl r) with
              | None => None
              | Some (v, r) =>
                  let acc := <[sanitize k := v]> acc in
                  let r := skip_ws r in
                  if starts_with 44 r then parse_members fuel' false acc (tl r)
                  else if starts_with 125 r then Some (VObj acc, tl r)
                  else None
              end
        end
  end.

(** Every level of nesting takes a byte, so the length of the text is enough
    fuel. *)
Definition unmarshal (s : string) : option val :=
  match parse_value (2 * S (String.length s)) s with
  | Some (v, r) => if decide (skip_ws r = "") then Some v else None
  | None => None
  end.

Definition go_json : JsonText := {| json_marshal := marshal; json_unmarshal := unmarshal |}.

Example unmarshal_example :
  let v := VObj {["b" := VList [VInt 1; VFloat (float_of_dec 53 1024 15 (-1)); VNil; VBool true];
                  "a" := VStr ("<x>" +:+ quote); "o" := VObj ∅; "é" := VList []]} in
  (marshal v ≫= unmarshal) = json_rt v.
Proof. vm_compute. reflexivity. Qed.
