(* ===== verification/JsonLaw.v ===== *)
(** * The round trip of JSON text

    [marshal] followed by [unmarshal] is the conversion [json_rt] that models
    copies of checkpoints, for every value whose floats print digits that
    read back as themselves. *)

From Stdlib Require Import Ascii.
From S2P Require Export JsonText.

(** ** Strings *)
Lemma app_String a s t : String a s +:+ t = String a (s +:+ t).
Proof. reflexivity. Qed.
Lemma app_Empty t : "" +:+ t = t.
Proof. reflexivity. Qed.
Lemma app_nil_String s : s +:+ "" = s.
Proof. induction s as [|a s IH]; [done|]. by rewrite app_String, IH. Qed.
Lemma length_app_String s t : String.length (s +:+ t) = String.length s + String.length t.
Proof. induction s as [|a s IH]; [done|]. rewrite app_String. cbn. by rewrite IH. Qed.

(** Concatenations to the right, characters in front. *)
Ltac str_norm :=
  repeat first [rewrite app_String | rewrite app_Empty | rewrite <-(assoc_L String.append)].

(** ** Digits *)
Fixpoint all_digits (s : string) : bool :=
  match s with EmptyString => true | String a s => is_digit a && all_digits s end.

(** The number the digits denote after [acc]. *)
Fixpoint dval (acc : Z) (s : string) : Z :=
  match s with
  | EmptyString => acc
  | String a s => dval (10 * acc + (Z.of_nat (ch a) - 48)) s
  end.

Definition starts_digit (s : string) : bool :=
  match s with String a _ => is_digit a | EmptyString => false end.

Lemma all_digits_app s t : all_digits (s +:+ t) = all_digits s && all_digits t.
Proof. induction s as [|a s IH]; [done|]. rewrite app_String. cbn. by rewrite IH, andb_assoc. Qed.

Lemma dval_app s t acc : dval acc (s +:+ t) = dval (dval acc s) t.
Proof. revert acc. induction s as [|a s IH]; intros acc; [done|]. rewrite app_String. cbn. apply IH. Qed.

Lemma digits_app s r acc n :
  all_digits s = true → digits acc n (s +:+ r) = digits (dval acc s) (n + String.length s) r.
Proof.
  revert acc n. induction s as [|a s IH]; intros acc n; cbn; [by rewrite Nat.add_0_r|].
  intros [Ha Hs]%andb_true_iff. rewrite app_String. cbn. rewrite Ha, IH by done. by rewrite Nat.add_succ_comm.
Qed.

Lemma digits_stop acc n r : starts_digit r = false → digits acc n r = (acc, n, r).
Proof. destruct r as [|a r]; cbn; [done|]. by intros ->. Qed.

Lemma dval_zeros n acc : dval acc (zeros n) = (acc * pow10 (Z.of_nat n))%Z.
Proof.
  revert acc. induction n as [|n IH]; intros acc; cbn [zeros]; [unfold pow10; simpl; lia|].
  rewrite app_String. cbn [dval]. rewrite app_Empty, IH. change (ch "0") with 48.
  unfold pow10. rewrite (Nat2Z.inj_succ n), (Z.pow_succ_r 10 (Z.of_nat n)) by lia. lia.
Qed.

Lemma all_digits_zeros n : all_digits (zeros n) = true.
Proof. induction n as [|n IH]; [done|]. cbn [zeros]. by rewrite app_String. Qed.

Lemma length_zeros n : String.length (zeros n) = n.
Proof. induction n as [|n IH]; [done|]. cbn [zeros]. rewrite app_String, app_Empty. cbn. by rewrite IH. Qed.

(** Digits of a positive number: no leading zero. *)
Definition numeral (s : string) : Prop :=
  all_digits s = true ∧ s ≠ "" ∧ starts_with 48 s = false.

Lemma pretty_N_char_digit d :
  (d < 10)%N → is_digit (pretty_N_char d) = true ∧ ch (pretty_N_char d) = 48 + N.to_nat d.
Proof.
  intros Hd. assert (d = 0 ∨ d = 1 ∨ d = 2 ∨ d = 3 ∨ d = 4 ∨ d = 5 ∨ d = 6 ∨ d = 7 ∨ d = 8 ∨ d = 9)%N by lia.
  by naive_solver.
Qed.

Lemma pretty_N_go_digits x s :
  ∃ t, pretty_N_go x s = t +:+ s ∧ all_digits t = true ∧ dval 0 t = Z.of_N x ∧ ((0 < x)%N → numeral t).
Proof.
  revert s. induction (N.lt_wf_0 x) as [x _ IH]; intros s.
  destruct (decide (x = 0)%N) as [->|Hx]; [by exists ""|]. rewrite pretty_N_go_step by lia.
  pose proof (N.mod_lt x 10 ltac:(done)) as Hm. destruct (pretty_N_char_digit _ Hm) as [Hd Hc].
  set (c := pretty_N_char (x `mod` 10)) in *. destruct (decide (x < 10)%N) as [Hlt|Hge].
  - rewrite N.div_small, pretty_N_go_0 by done. rewrite N.mod_small in Hc by done.
    exists (String c ""). cbn [all_digits dval]. rewrite Hd, Hc. split_and!; [done..|lia|].
    intros _. split_and!; [cbn; by rewrite Hd|done|]. cbn. rewrite Hc. apply bool_decide_eq_false. lia.
  - destruct (IH (x `div` 10)%N ltac:(apply N.div_lt; lia) (String c s)) as (t & -> & Ht & Hv & Hn).
    destruct Hn as (Ha & Hne & Hz); [apply N.div_str_pos; lia|].
    assert (all_digits (t +:+ String c "") = true) as Htc by (rewrite all_digits_app, Ht; cbn; by rewrite Hd).
    exists (t +:+ String c ""). split_and!; [by rewrite <-(assoc_L String.append), app_String|done| |].
    + rewrite dval_app, Hv. cbn [dval]. rewrite Hc. pose proof (N.div_mod x 10). lia.
    + intros _. split_and!; [done|by destruct t|by destruct t].
Qed.

Lemma pretty_pos p :
  numeral (pretty (N.pos p)) ∧ dval 0 (pretty (N.pos p)) = Z.pos p.
Proof.
  unfold pretty, pretty_N. rewrite decide_False by done.
  destruct (pretty_N_go_digits (N.pos p) "") as (t & -> & _ & Hv & Hn). rewrite app_nil_String.
  split; [by apply Hn|done].
Qed.

(** ** Numbers *)

(** What may follow a number. *)
Definition ends (r : string) : Prop :=
  starts_digit r = false ∧ starts_with 46 r = false ∧ starts_with 101 r = false ∧ starts_with 69 r = false.

Definition frac (s : string) : string := if decide (s = "") then "" else "." +:+ s.
Definition expo (x : option Z) : string :=
  match x with
  | None => ""
  | Some x => (if (x <? 0)%Z then "e-" else "e+") +:+ pretty (Z.abs x)
  end.

Definition as_number (f : spec_float) (r : string) : option (spec_float * string) :=
  match f with S754_infinity _ | S754_nan => None | _ => Some (f, r) end.

Lemma pretty_Z_nonneg z : (0 ≤ z)%Z →
  all_digits (pretty z) = true ∧ dval 0 (pretty z) = z ∧ pretty z ≠ "".
Proof.
  intros Hz. destruct z as [|p|p]; [done| |done].
  destruct (pretty_pos p) as [(Ha & Hn & _) Hv]. by split_and!.
Qed.

Lemma digits_exactly s r : all_digits s = true → starts_digit r = false →
  ∀ acc, digits acc 0 (s +:+ r) = (dval acc s, String.length s, r).
Proof. intros Hs Hr acc. by rewrite digits_app, digits_stop. Qed.

(** The end of a number, after the digits of its mantissa. *)
Definition parse_expo (c : Z) (nf : nat) (r : string) : option (spec_float * string) :=
  let '(x, r, ok) :=
    if starts_with 101 r || starts_with 69 r then
      let r := tl r in
      let eneg := starts_with 45 r in
      let r := if eneg || starts_with 43 r then tl r else r in
      let '(x, ne, r') := digits 0 0 r in
      ((if eneg then (- x)%Z else x), r', bool_decide (ne ≠ 0))
    else (0%Z, r, true) in
  if negb ok then None else as_number (float_of_dec 53 1024 c (x - Z.of_nat nf)) r.

Lemma parse_expo_spec c nf x r : ends r →
  parse_expo c nf (expo x +:+ r) = as_number (float_of_dec 53 1024 c (default 0 x - Z.of_nat nf)%Z) r.
Proof.
  intros (Hd & Hdot & He & HE). unfold parse_expo. destruct x as [x|]; cbn [expo].
  - destruct (pretty_Z_nonneg (Z.abs x) ltac:(lia)) as (Ha & Hv & Hne).
    assert (bool_decide (String.length (pretty (Z.abs x)) ≠ 0) = true) as Hl
      by (apply bool_decide_eq_true; by destruct (pretty (Z.abs x))).
    rewrite <-(assoc_L String.append). destruct (Z.ltb_spec x 0); rewrite !app_String, app_Empty;
      cbn [starts_with tl]; change (bool_decide (ch "e" = 101)) with true;
      change (bool_decide (ch "-" = 45)) with true; change (bool_decide (ch "+" = 45)) with false;
      change (bool_decide (ch "+" = 43)) with true; cbn [orb];
      rewrite digits_exactly, Hv, Hl by done; cbn; do 2 f_equal; lia.
  - by rewrite app_Empty, He, HE.
Qed.

Lemma parse_decimal s1 s2 x r :
  all_digits s1 = true → s1 ≠ "" → starts_with 48 s1 = false ∨ String.length s1 = 1 →
  all_digits s2 = true → ends r →
  parse_number (s1 +:+ (frac s2 +:+ (expo x +:+ r))) =
  as_number (float_of_dec 53 1024 (dval 0 (s1 +:+ s2)) (default 0 x - Z.of_nat (String.length s2))%Z) r.
Proof.
  intros H1 Hne Hz H2 (Hd & Hdot & He & HE). unfold parse_number.
  assert (∀ t, starts_with 45 (s1 +:+ t) = false) as Hneg.
  { intros t. destruct s1 as [|a s1]; [done|]. rewrite app_String. cbn.
    cbn in H1. apply andb_true_iff in H1 as [H1%bool_decide_eq_true _]. apply bool_decide_eq_false. lia. }
  assert (∀ t, starts_with 48 (s1 +:+ t) = starts_with 48 s1) as Hzero by (by destruct s1).
  assert (starts_digit (expo x +:+ r) = false ∧ starts_with 46 (expo x +:+ r) = false) as [Hxd Hxdot].
  { destruct x as [x|]; [|done]. cbn [expo]. rewrite <-(assoc_L String.append). by destruct (x <? 0)%Z. }
  assert (starts_digit (frac s2 +:+ (expo x +:+ r)) = false) as Hfd.
  { unfold frac. case_decide; [done|]. by rewrite app_String. }
  rewrite Hneg, digits_exactly, Hzero by done.
  rewrite decide_False by (destruct s1; [done|]; cbn in *; destruct Hz as [->|?]; intros [?|[? ?]]; lia || done).
  transitivity (parse_expo (dval 0 (s1 +:+ s2)) (String.length s2) (expo x +:+ r)); [|by apply parse_expo_spec].
  destruct (decide (s2 = "")) as [->|Hs2].
  - unfold frac. rewrite decide_True, app_Empty, Hxdot, app_nil_String by done. reflexivity.
  - unfold frac. rewrite decide_False by done. rewrite !app_String, app_Empty. cbn [starts_with tl].
    change (bool_decide (ch "." = 46)) with true. rewrite digits_exactly, dval_app by done.
    rewrite (bool_decide_eq_true_2 (String.length s2 ≠ 0)) by (by destruct s2). reflexivity.
Qed.

Lemma parse_negative t f r :
  starts_with 45 t = false → parse_number t = Some (f, r) → parse_number (String "-" t) = Some (SFopp f, r).
Proof.
  intros Ht. unfold parse_number. rewrite Ht. change (starts_with 45 (String "-" t)) with true. cbn [tl].
  destruct (digits 0 0 t) as [[int ni] r0]. destruct (decide _); [done|].
  destruct (if starts_with 46 r0 then _ else _) as [[[c nf] r1] ok]. destruct (negb ok); [done|].
  destruct (if starts_with 101 r1 || _ then _ else _) as [[x r2] ok']. destruct (negb ok'); [done|].
  destruct (float_of_dec 53 1024 c _); intros [= <- <-] || intros [=]; done.
Qed.

Lemma numeral_not_minus s t : numeral s → starts_with 45 (s +:+ t) = false.
Proof.
  intros (Ha & Hne & _). destruct s as [|a s]; [done|]. rewrite app_String. cbn in *.
  apply andb_true_iff in Ha as [Ha%bool_decide_eq_true _]. apply bool_decide_eq_false. lia.
Qed.

Lemma binary_round_opp prec emax m e :
  binary_round prec emax true m e = SFopp (binary_round prec emax false m e).
Proof.
  unfold binary_round, binary_round_aux. destruct (shl_align m e _) as [mz ez].
  destruct (shr_fexp prec emax (Z.pos mz) ez loc_Exact) as [mrs e'].
  destruct (shr_fexp prec emax (round_nearest_even _ _) e' loc_Exact) as [mrs' e''].
  destruct (shr_m mrs') as [|m'|m']; [done| |done]. by destruct (_ <=? _)%Z.
Qed.

Lemma as_number_finite f r : is_finite f = true → as_number f r = Some (f, r).
Proof. by destruct f. Qed.

Lemma is_finite_opp f : is_finite (SFopp f) = is_finite f.
Proof. by destruct f. Qed.

Lemma parse_int z r :
  ends r → is_finite (float_of_int z) = true → parse_number (pretty z +:+ r) = Some (float_of_int z, r).
Proof.
  intros Hr Hf. assert (∀ p, is_finite (float_of_int (Z.pos p)) = true →
    parse_number (pretty (N.pos p) +:+ r) = Some (float_of_int (Z.pos p), r)) as Hpos.
  { intros p Hp. destruct (pretty_pos p) as [(Ha & Hne & Hz) Hv].
    assert (float_of_dec 53 1024 (Z.pos p) 0 = float_of_int (Z.pos p)) as Hd.
    { unfold float_of_dec, pow10. change (0 <=? 0)%Z with true. cbn iota.
      by rewrite Z.pow_0_r, Z.mul_1_r. }
    pose proof (parse_decimal (pretty (N.pos p)) "" None r Ha Hne (or_introl Hz) eq_refl Hr) as Hp'.
    rewrite app_nil_String, Hv in Hp'. cbn [default String.length Z.of_nat] in Hp'. rewrite Z.sub_0_r, Hd in Hp'.
    rewrite <-as_number_finite by done. by rewrite <-Hp'. }
  destruct z as [|p|p].
  - pose proof (parse_decimal "0" "" None r eq_refl ltac:(done) (or_intror eq_refl) eq_refl Hr) as H0.
    exact H0.
  - by apply Hpos.
  - assert (float_of_int (Z.neg p) = SFopp (float_of_int (Z.pos p))) as Ho by apply binary_round_opp.
    rewrite Ho in *. rewrite is_finite_opp in Hf.
    change (pretty (Z.neg p)) with ("-" +:+ pretty (N.pos p)). rewrite <-(assoc_L String.append), app_String, app_Empty.
    apply parse_negative; [by apply numeral_not_minus, pretty_pos|by apply Hpos].
Qed.

(** ** Floats *)
Lemma substring_full s : String.substring 0 (String.length s) s = s.
Proof. induction s as [|a s IH]; [done|]. cbn. by rewrite IH. Qed.

Lemma str_take_drop n s : str_take n s +:+ str_drop n s = s.
Proof.
  revert n. induction s as [|a s IH]; intros [|n]; [done..| |].
  - unfold str_take, str_drop. rewrite Nat.sub_0_r. change (String.substring 0 0 (String a s)) with "".
    by rewrite app_Empty, substring_full.
  - change (str_take (S n) (String a s)) with (String a (str_take n s)).
    change (str_drop (S n) (String a s)) with (str_drop n s). by rewrite app_String, IH.
Qed.

Lemma length_str_take n s : n ≤ String.length s → String.length (str_take n s) = n.
Proof.
  revert n. induction s as [|a s IH]; intros [|n] Hn; cbn in *; [done|lia|done|].
  change (S (String.length (str_take n s)) = S n). rewrite IH; lia.
Qed.

Lemma starts_with_take n k s : 0 < n → starts_with k (str_take n s) = starts_with k s.
Proof. destruct n; [lia|]. by destruct s. Qed.

(** Both ways to write the digits of [c * 10^p] read back. *)
Lemma parse_digits (c p : Z) r (e : bool) :
  (0 < c)%Z → ends r →
  let ds := pretty c in
  let dp := (Z.of_nat (String.length ds) + p)%Z in
  parse_number ((if e then json_e ds (dp - 1) else fmt_f ds dp) +:+ r) = as_number (float_of_dec 53 1024 c p) r.
Proof.
  intros Hc Hr ds dp. destruct c as [|c|c]; [lia| |lia].
  destruct (pretty_pos c) as [(Ha & Hne & Hz) Hv]. change (pretty (N.pos c)) with ds in *.
  assert (∀ n, all_digits (str_take n ds) = true ∧ all_digits (str_drop n ds) = true) as Hsplit.
  { intros n. by rewrite <-andb_true_iff, <-all_digits_app, str_take_drop. }
  clearbody ds. assert (0 < String.length ds) as Hlen by (destruct ds; [done|cbn; lia]).
  assert (∀ n, 0 < n → n ≤ String.length ds → ∀ x,
    parse_number (str_take n ds +:+ (frac (str_drop n ds) +:+ (expo x +:+ r))) =
    as_number (float_of_dec 53 1024 (Z.pos c) (default 0 x - (Z.of_nat (String.length ds) - Z.of_nat n))%Z) r) as Htake.
  { intros n Hn Hn' x. destruct (Hsplit n) as [H1 H2].
    pose proof (length_str_take n ds Hn') as Hl. pose proof (str_take_drop n ds) as Htd.
    rewrite parse_decimal; [|done| |left; by rewrite starts_with_take|done|done].
    - rewrite Htd, Hv. do 2 f_equal. apply (f_equal String.length) in Htd. rewrite length_app_String in Htd. lia.
    - intros E. rewrite E in Hl. cbn in Hl. lia. }
  destruct e.
  - transitivity (parse_number (str_take 1 ds +:+ (frac (str_drop 1 ds) +:+ (expo (Some (dp - 1)%Z) +:+ r)))).
    + f_equal. unfold json_e, expo. rewrite <-!(assoc_L String.append). cbn zeta.
      pose proof (length_str_take 1 ds Hlen) as Hl. pose proof (str_take_drop 1 ds) as Htd.
      apply (f_equal String.length) in Htd as Htl. rewrite length_app_String, Hl in Htl.
      unfold frac. destruct (decide (String.length ds = 1)) as [H1|H1].
      * assert (str_drop 1 ds = "") as E by (destruct (str_drop 1 ds); [done|cbn in Htl; lia]).
        rewrite E in *. rewrite decide_True by done. rewrite app_nil_String in Htd. by rewrite app_Empty, Htd.
      * rewrite decide_False by (intros E; rewrite E in Htl; cbn in Htl; lia). by rewrite <-!(assoc_L String.append).
    + rewrite Htake by lia. do 2 f_equal. change (default 0%Z (Some (dp - 1)%Z)) with (dp - 1)%Z. unfold dp. lia.
  - unfold fmt_f. fold dp. destruct (Z.leb_spec dp 0) as [Hdp|Hdp]; [|destruct (Z.leb_spec (Z.of_nat (String.length ds)) dp) as [Hnd|Hnd]].
    + set (k := Z.to_nat (- dp)). pose proof (parse_decimal "0" (zeros k +:+ ds) None r eq_refl ltac:(done) (or_intror eq_refl)) as Hp.
      rewrite all_digits_app, all_digits_zeros, Ha in Hp. specialize (Hp eq_refl Hr).
      assert (zeros k +:+ ds ≠ "") as Hn0 by (intros E; apply (f_equal String.length) in E; rewrite length_app_String in E; cbn in E; lia).
      unfold frac in Hp. rewrite decide_False in Hp by done. cbn [expo default] in Hp.
      rewrite !app_String, !app_Empty in Hp. cbn [dval] in Hp. change (10 * 0 + (Z.of_nat (ch "0") - 48))%Z with 0%Z in Hp.
      rewrite dval_app, dval_zeros, Z.mul_0_l, Hv, length_app_String, length_zeros in Hp.
      rewrite !app_String, !app_Empty. rewrite Hp. do 2 f_equal. unfold k, dp in *. lia.
    + set (k := Z.to_nat (dp - Z.of_nat (String.length ds))).
      pose proof (parse_decimal (ds +:+ zeros k) "" None r) as Hp.
      rewrite all_digits_app, all_digits_zeros, Ha in Hp. specialize (Hp eq_refl).
      assert (ds +:+ zeros k ≠ "") as Hn0 by (intros E; apply (f_equal String.length) in E; rewrite length_app_String in E; cbn in E; lia).
      assert (starts_with 48 (ds +:+ zeros k) = false) as Hz' by (destruct ds; done).
      specialize (Hp Hn0 (or_introl Hz') eq_refl Hr). unfold frac in Hp. rewrite decide_True in Hp by done.
      cbn [expo default String.length] in Hp. rewrite !app_Empty, app_nil_String, dval_app, dval_zeros, Hv in Hp.
      rewrite Hp. f_equal. assert (Z.of_nat k = p) as Hk by (unfold k, dp in *; lia).
      clearbody k. rewrite <-Hk.
      unfold pow10. change (0 - Z.of_nat 0)%Z with 0%Z. destruct (Z.pos c * 10 ^ Z.of_nat k)%Z as [|q|q] eqn:E; [lia| |lia].
      unfold float_of_dec, pow10. change (0 <=? 0)%Z with true. cbn iota.
      rewrite (proj2 (Z.leb_le 0 (Z.of_nat k))) by lia. by rewrite E, Z.pow_0_r, Z.mul_1_r.
    + pose proof (Htake (Z.to_nat dp) ltac:(lia) ltac:(lia) None) as Hp. unfold frac in Hp.
      rewrite decide_False in Hp.
      * cbn [expo default] in Hp. rewrite app_Empty in Hp. rewrite <-!(assoc_L String.append) in *. rewrite Hp.
        do 2 f_equal. unfold dp in *. lia.
      * intros E. pose proof (str_take_drop (Z.to_nat dp) ds) as Htd. rewrite E, app_nil_String in Htd.
        apply (f_equal String.length) in Htd. rewrite length_str_take in Htd by lia. lia.
Qed.

(** A float whose printed digits read back as [w]. *)
Definition reads_as (prec emax : Z) (f w : spec_float) : Prop :=
  match f with
  | S754_finite s m e =>
      let '(c, p) := shortest prec emax (S754_finite false m e) m e in
      let '(c, p) := strip_zeros 400 c p in
      (0 < c)%Z ∧ is_finite w = true ∧ w = (if s then SFopp else id) (float_of_dec 53 1024 c p)
  | S754_zero _ => w = f
  | _ => True
  end.

(** The first character of a number. *)
Definition starts_number (s : string) : bool := starts_digit s || starts_with 45 s.

Lemma digits_text_start (c p : Z) r (e : bool) : (0 < c)%Z →
  let ds := pretty c in
  let dp := (Z.of_nat (String.length ds) + p)%Z in
  starts_digit ((if e then json_e ds (dp - 1) else fmt_f ds dp) +:+ r) = true.
Proof.
  intros Hc ds dp. destruct c as [|c|c]; [lia| |lia].
  destruct (pretty_pos c) as [(Ha & Hne & _) _]. change (pretty (N.pos c)) with ds in *. clearbody ds.
  destruct ds as [|a ds]; [done|]. cbn in Ha. apply andb_true_iff in Ha as [Ha _].
  destruct e; unfold json_e, fmt_f.
  - case_decide; rewrite <-!(assoc_L String.append); [by rewrite app_String|].
    change (str_take 1 (String a ds)) with (String a (str_take 0 ds)). by rewrite app_String.
  - destruct (Z.leb_spec dp 0); [done|]. destruct (_ <=? _)%Z; [by rewrite !app_String|].
    destruct (Z.to_nat dp) as [|n] eqn:E; [lia|].
    change (str_take (S n) (String a ds)) with (String a (str_take n ds)). by rewrite !app_String.
Qed.

Lemma json_float_reads prec emax f w t r :
  reads_as prec emax f w → json_float prec emax f = Some t → ends r →
  parse_number (t +:+ r) = Some (w, r) ∧ starts_number (t +:+ r) = true.
Proof.
  intros Hw Ht Hr. destruct f as [s|s| |s m e]; [|done|done|].
  - cbn in Hw. subst w. injection Ht as <-.
    pose proof (parse_decimal "0" "" None r eq_refl ltac:(done) (or_intror eq_refl) eq_refl Hr) as H0.
    rewrite app_nil_String in H0. destruct s; [|by split]. split; [|done].
    change ("-0" +:+ r) with (String "-" ("0" +:+ r)). by apply (parse_negative _ (S754_zero false)).
  - unfold json_float, reads_as in *. destruct (shortest prec emax (S754_finite false m e) m e) as [c0 p0].
    destruct (strip_zeros 400 c0 p0) as [c p]. destruct Hw as (Hc & Hf & ->). injection Ht as <-.
    set (dp := (Z.of_nat (String.length (pretty c)) + p)%Z).
    set (b := ((dp - 1 <? -6) || (21 <=? dp - 1))%Z).
    pose proof (parse_digits c p r b Hc Hr) as Hp. pose proof (digits_text_start c p r b Hc) as Hs.
    cbn zeta in Hp, Hs. fold dp in Hp, Hs.
    set (text := if b then json_e (pretty c) (dp - 1) else fmt_f (pretty c) dp) in *.
    destruct s; rewrite ?app_String, ?app_Empty.
    + rewrite is_finite_opp in Hf. rewrite as_number_finite in Hp by done. split; [|done].
      apply parse_negative; [|done]. destruct (text +:+ r) as [|a u]; [done|]. cbn in *.
      apply bool_decide_eq_true in Hs. apply bool_decide_eq_false. lia.
    + rewrite as_number_finite in Hp by done. split; [done|]. unfold starts_number. by rewrite Hs.
Qed.

Lemma parse_value_number fuel t f r :
  starts_number t = true → parse_number t = Some (f, r) → parse_value (S fuel) t = Some (VFloat f, r).
Proof.
  intros Hs Hp. destruct t as [|a t]; [done|]. unfold starts_number in Hs. cbn in Hs.
  assert (ch a = 45 ∨ 48 ≤ ch a ≤ 57) as Ha.
  { apply orb_true_iff in Hs as [Hs|Hs]; apply bool_decide_eq_true in Hs; auto. }
  assert (∀ n, n < 45 ∨ 57 < n → ch a ≠ n) as Hne by lia. cbn [parse_value].
  assert (skip_ws (String a t) = String a t) as ->.
  { cbn. rewrite decide_False; [done|]. rewrite !elem_of_cons, elem_of_nil. lia. }
  cbn [starts_with]. rewrite !bool_decide_eq_false_2 by (apply Hne; lia).
  assert (∀ k b, ch b ≠ ch a → keyword (String b k) (String a t) = None) as Hk.
  { intros k b Hb. unfold keyword, is_prefix. cbn. by destruct (ascii_dec b a) as [->|]. }
  rewrite !Hk by (intros E; symmetry in E; revert E; apply Hne; vm_compute; lia). by rewrite Hp.
Qed.

(** ** String literals *)

(** What one escaped byte decodes to. *)
Definition decodes (a : ascii) : bool :=
  match encode_char a with
  | String b EmptyString =>
      bool_decide (b = a) && bool_decide (ch b ≠ 34) && negb (bool_decide (ch b < 32)) && bool_decide (ch b ≠ 92)
  | String b (String e EmptyString) =>
      bool_decide (ch b = 92) && bool_decide (ch e ≠ 117) && bool_decide (simple_escape e = Some a)
  | String b (String e (String h1 (String h2 (String h3 (String h4 EmptyString))))) =>
      bool_decide (ch b = 92) && bool_decide (ch e = 117) &&
      match hex4 h1 h2 h3 h4 with
      | Some hi => negb ((55296 <=? hi) && (hi <? 56320))%Z && bool_decide (utf8 hi = String a "")
      | None => false
      end
  | _ => false
  end.

Lemma decodes_ascii a : (byte_of a ≤ 127)%Z → decodes a = true.
Proof.
  intros Ha. assert (decodes a || (127 <? byte_of a)%Z = true) as H.
  { destruct a as [[] [] [] [] [] [] [] []]; vm_compute; reflexivity. }
  apply orb_true_iff in H as [?|?%Z.ltb_lt]; [done|lia].
Qed.

(** The parser's continuation after some text. *)
Definition prepend (t : string) (o : option (string * string)) : option (string * string) :=
  match o with Some (rest, r) => Some (t +:+ rest, r) | None => None end.

Lemma parse_plain fuel a r :
  ch a ≠ 34 → ¬ ch a < 32 → ch a ≠ 92 →
  parse_chars (S fuel) (String a r) = prepend (String a "") (parse_chars fuel r).
Proof.
  intros H1 H2 H3. cbn [parse_chars]. rewrite (decide_False (P := ch a = 34)) by done.
  rewrite (decide_False (P := ch a < 32)) by done. by rewrite decide_True.
Qed.

Lemma parse_escape fuel b e x r :
  ch b = 92 → ch e ≠ 117 → simple_escape e = Some x →
  parse_chars (S fuel) (String b (String e r)) = prepend (String x "") (parse_chars fuel r).
Proof.
  intros H1 H2 H3. cbn [parse_chars]. rewrite (decide_False (P := ch b = 34)) by lia.
  rewrite (decide_False (P := ch b < 32)) by lia. rewrite (decide_False (P := ch b ≠ 92)) by auto.
  rewrite (decide_True (P := ch e ≠ 117)) by done. by rewrite H3.
Qed.

Lemma parse_unicode fuel b e h1 h2 h3 h4 hi r :
  ch b = 92 → ch e = 117 → hex4 h1 h2 h3 h4 = Some hi → ¬ (55296 ≤ hi < 56320)%Z →
  parse_chars (S fuel) (String b (String e (String h1 (String h2 (String h3 (String h4 r)))))) =
  prepend (utf8 hi) (parse_chars fuel r).
Proof.
  intros H1 H2 H3 H4. cbn [parse_chars]. rewrite (decide_False (P := ch b = 34)) by lia.
  rewrite (decide_False (P := ch b < 32)) by lia. rewrite (decide_False (P := ch b ≠ 92)) by auto.
  rewrite (decide_False (P := ch e ≠ 117)) by auto. rewrite H3.
  destruct r as [|b' [|u [|l1 [|l2 [|l3 [|l4 r]]]]]]; try reflexivity.
  destruct (hex4 l1 l2 l3 l4); [|reflexivity]. by rewrite decide_False by tauto.
Qed.

Lemma parse_decodes fuel a r :
  decodes a = true → parse_chars (S fuel) (encode_char a +:+ r) = prepend (String a "") (parse_chars fuel r).
Proof.
  unfold decodes. destruct (encode_char a) as [|b [|e [|h1 [|h2 [|h3 [|h4 [|]]]]]]]; try done; intros H;
    rewrite !app_String, app_Empty.
  - apply andb_true_iff in H as [[[->%bool_decide_eq_true H1%bool_decide_eq_true]%andb_true_iff
      H2%negb_true_iff%bool_decide_eq_false]%andb_true_iff H3%bool_decide_eq_true]. by apply parse_plain.
  - apply andb_true_iff in H as [[H1%bool_decide_eq_true H2%bool_decide_eq_true]%andb_true_iff
      H3%bool_decide_eq_true]. by apply parse_escape.
  - apply andb_true_iff in H as [[H1%bool_decide_eq_true H2%bool_decide_eq_true]%andb_true_iff H].
    destruct (hex4 h1 h2 h3 h4) as [hi|] eqn:E; [|done].
    apply andb_true_iff in H as [H3%negb_true_iff <-%bool_decide_eq_true].
    apply parse_unicode; [done..|]. intros [? ?]. apply andb_false_iff in H3 as [?%Z.leb_gt|?%Z.ltb_ge]; lia.
Qed.

(** *** Well-formed sequences *)
Ltac rune_cases H :=
  unfold rune_len in H |- *;
  repeat match type of H with
         | context [if ?b then _ else _] => destruct b eqn:?; try discriminate H
         end.

Lemma rune_len_le s : rune_len s ≤ String.length s.
Proof.
  assert (∀ lo hi t, Json.between lo hi t = true → t ≠ "") as Hb by (by intros lo hi [|]).
  unfold rune_len. destruct s as [|a [|b [|c [|d s]]]]; cbn [tl Json.between String.length];
    repeat case_match; simpl; try lia; done.
Qed.

(** A well-formed sequence is one wherever it stands. *)
Lemma rune_len_take s t n : rune_len s = S n → rune_len (str_take (S n) s +:+ t) = S n.
Proof.
  intros H. pose proof (rune_len_le s) as Hl. rewrite H in Hl. revert H.
  destruct n as [|[|[|[|n]]]]; destruct s as [|a [|b [|c [|d s]]]]; cbn [String.length] in Hl; try lia;
    unfold str_take; cbn [String.substring]; rewrite !app_String, ?app_Empty;
    unfold rune_len; cbn [tl Json.between]; intros H;
    repeat (match type of H with
            | (if ?b then _ else _) = _ => destruct b eqn:?
            end; try discriminate H); reflexivity.
Qed.

Definition high (s : string) : Prop := ∀ a, str_mem a s = true → (128 ≤ byte_of a)%Z.

Lemma high_cons a s : (128 ≤ byte_of a)%Z → high s → high (String a s).
Proof. intros Ha Hs b. cbn. rewrite orb_true_iff, bool_decide_eq_true. intros [<-|?]; auto. Qed.

Lemma rune_bytes s n : rune_len s = S (S n) → high (str_take (S (S n)) s).
Proof.
  intros H. pose proof (rune_len_le s) as Hl. rewrite H in Hl. revert H.
  assert (∀ lo hi a t, (128 ≤ lo)%Z → Json.between lo hi (String a t) = true → (128 ≤ byte_of a)%Z) as Hb.
  { intros lo hi a t Hlo. cbn. intros [?%Z.leb_le _]%andb_true_iff. lia. }
  assert (high "") as H0 by done.
  destruct n as [|[|[|n]]]; destruct s as [|a [|b [|c [|d s]]]]; cbn [String.length] in Hl; try lia;
    unfold str_take; cbn [String.substring]; unfold rune_len; cbn [tl]; intros H;
    repeat (match type of H with
            | (if ?b then _ else _) = _ => destruct b eqn:?
            end; try discriminate H);
    repeat match goal with
           | E : (_ && _)%bool = true |- _ => apply andb_true_iff in E as [? ?]
           end;
    repeat match goal with |- high (String _ _) => apply high_cons end; try exact H0; try (by destruct s);
    match goal with
    | E : Json.between ?lo ?hi (String ?x ?t) = true |- (128 ≤ byte_of ?x)%Z => apply (Hb lo hi x t); [|exact E]
    end; repeat case_match; lia.
Qed.

Lemma sanitize_skip k s : k ≤ String.length s →
  sanitize_from k s = str_take k s +:+ sanitize (str_drop k s).
Proof.
  revert s. induction k as [|k IH]; intros s Hk.
  - change (str_take 0 s) with (String.substring 0 0 s).
    replace (str_drop 0 s) with s; [by destruct s|]. unfold str_drop. by rewrite Nat.sub_0_r, substring_full.
  - destruct s as [|a s]; cbn in Hk; [lia|]. cbn [sanitize_from].
    change (str_take (S k) (String a s)) with (String a (str_take k s)).
    change (str_drop (S k) (String a s)) with (str_drop k s). by rewrite app_String, IH by lia.
Qed.

Lemma sanitize_bad a s : rune_len (String a s) = 0 → sanitize (String a s) = replacement +:+ sanitize s.
Proof. unfold sanitize. cbn [sanitize_from]. by intros ->. Qed.

Lemma sanitize_good s n : rune_len s = S n →
  sanitize s = str_take (S n) s +:+ sanitize (str_drop (S n) s).
Proof.
  intros H. pose proof (rune_len_le s) as Hl. rewrite H in Hl. destruct s as [|a s]; [done|].
  unfold sanitize at 1. cbn [sanitize_from]. rewrite H. cbn in Hl. rewrite sanitize_skip by lia.
  by rewrite <-app_String.
Qed.

Lemma encode_skip k s : k ≤ String.length s → encode_chars k s = encode_chars 0 (str_drop k s).
Proof.
  revert s. induction k as [|k IH]; intros s Hk.
  - unfold str_drop. by rewrite Nat.sub_0_r, substring_full.
  - destruct s as [|a s]; cbn in Hk; [lia|]. cbn [encode_chars]. by rewrite IH by lia.
Qed.

(** What is written for a longer sequence. *)
Definition written (n : nat) (s : string) : string :=
  if is_prefix line_separator s then "\u2028"
  else if is_prefix paragraph_separator s then "\u2029"
  else str_take n s.

Lemma encode_bad a s : rune_len (String a s) = 0 → encode_chars 0 (String a s) = "\ufffd" +:+ encode_chars 0 s.
Proof. cbn [encode_chars]. by intros ->. Qed.

Lemma encode_ascii a s : rune_len (String a s) = 1 → encode_chars 0 (String a s) = encode_char a +:+ encode_chars 0 s.
Proof. cbn [encode_chars]. by intros ->. Qed.

Lemma encode_long s n : rune_len s = S (S n) →
  encode_chars 0 s = written (S (S n)) s +:+ encode_chars 0 (str_drop (S (S n)) s).
Proof.
  intros H. pose proof (rune_len_le s) as Hl. rewrite H in Hl. destruct s as [|a s]; [done|].
  cbn [encode_chars]. rewrite H. cbn in Hl. by rewrite (encode_skip (S n) s) by lia.
Qed.

Lemma length_str_drop n s : String.length (str_drop n s) = String.length s - n.
Proof.
  pose proof (str_take_drop n s) as H. apply (f_equal String.length) in H. rewrite length_app_String in H.
  destruct (decide (n ≤ String.length s)).
  - rewrite length_str_take in H by done. lia.
  - revert n H n0. induction s as [|a s IH]; intros [|n] H Hn; cbn in Hn; try lia; [done|].
    change (str_drop (S n) (String a s)) with (str_drop n s) in *.
    change (str_take (S n) (String a s)) with (String a (str_take n s)) in H. cbn in H.
    cbn. apply IH; lia.
Qed.

Lemma sanitize_idemp s : sanitize (sanitize s) = sanitize s.
Proof.
  remember (String.length s) as n eqn:Hn. revert s Hn. induction (lt_wf n) as [n _ IH]. intros s ->.
  destruct s as [|a s]; [done|]. destruct (rune_len (String a s)) as [|k] eqn:E.
  - rewrite (sanitize_bad a s) by done. rewrite (sanitize_good (replacement +:+ _) 2) by reflexivity.
    change (str_take 3 (replacement +:+ sanitize s)) with (replacement +:+ str_take 0 (sanitize s)).
    change (str_drop 3 (replacement +:+ sanitize s)) with (str_drop 0 (sanitize s)).
    replace (str_take 0 (sanitize s)) with "" by (unfold str_take; by destruct (sanitize s)).
    unfold str_drop. rewrite Nat.sub_0_r, substring_full, app_nil_String. f_equal.
    apply (IH (String.length s)); cbn; [lia|done].
  - rewrite (sanitize_good (String a s) k) by done. set (t := str_take (S k) (String a s)).
    rewrite (sanitize_good _ k) by by apply rune_len_take.
    pose proof (rune_len_le (String a s)) as Hl. rewrite E in Hl.
    assert (String.length t = S k) as Ht by (by apply length_str_take).
    assert (∀ u, str_take (S k) (t +:+ u) = t ∧ str_drop (S k) (t +:+ u) = u) as Htu.
    { intros u. rewrite <-Ht. clear. induction t as [|b t IHt].
      - split; [unfold str_take; by destruct u|]. unfold str_drop. cbn. by rewrite Nat.sub_0_r, substring_full.
      - rewrite app_String. cbn [String.length]. destruct IHt as [H1 H2].
        change (str_take (S (String.length t)) (String b (t +:+ u))) with (String b (str_take (String.length t) (t +:+ u))).
        change (str_drop (S (String.length t)) (String b (t +:+ u))) with (str_drop (String.length t) (t +:+ u)).
        by rewrite H1. }
    destruct (Htu (sanitize (str_drop (S k) (String a s)))) as [-> ->]. f_equal.
    apply (IH (String.length (str_drop (S k) (String a s)))); [|done]. rewrite length_str_drop. cbn. lia.
Qed.

(** *** Reading an encoded string *)
Lemma byte_of_ch a : byte_of a = Z.of_nat (ch a).
Proof. unfold byte_of, ch, nat_of_ascii. lia. Qed.

Lemma prepend_app t u o : prepend t (prepend u o) = prepend (t +:+ u) o.
Proof. destruct o as [[rest r]|]; [|done]. cbn. by rewrite (assoc_L String.append). Qed.

Lemma parse_high t r fuel : high t →
  parse_chars (String.length t + fuel) (t +:+ r) = prepend t (parse_chars fuel r).
Proof.
  induction t as [|a t IH]; intros Ht; [rewrite app_Empty; cbn [String.length Nat.add]; by destruct (parse_chars fuel r) as [[? ?]|]|].
  assert (128 ≤ byte_of a)%Z as Ha by (apply Ht; cbn; by rewrite bool_decide_eq_true_2).
  rewrite byte_of_ch in Ha. rewrite app_String. cbn [String.length Nat.add].
  rewrite parse_plain by lia. rewrite IH, prepend_app, app_String, app_Empty; [done|].
  intros b Hb. apply Ht. cbn. by rewrite Hb, orb_true_r.
Qed.

Lemma prefix_split p s : is_prefix p s = true → s = p +:+ str_drop (String.length p) s.
Proof.
  unfold is_prefix. revert s. induction p as [|a p IH]; intros s Hp.
  - unfold str_drop. cbn. by rewrite Nat.sub_0_r, substring_full.
  - destruct s as [|b s]; [done|]. cbn in Hp. destruct (ascii_dec a b) as [->|]; [|done].
    change (str_drop (String.length (String b p)) (String b s)) with (str_drop (String.length p) s).
    by rewrite app_String, <-IH.
Qed.

(** A longer sequence reads back as itself. *)
Lemma parse_written s n r fuel : rune_len s = S (S n) → String.length (written (S (S n)) s) ≤ fuel →
  ∃ fuel', fuel ≤ String.length (written (S (S n)) s) + fuel' ∧
    parse_chars fuel (written (S (S n)) s +:+ r) = prepend (str_take (S (S n)) s) (parse_chars fuel' r).
Proof.
  intros H Hf. assert (∀ p, is_prefix p s = true → rune_len p = 3 → String.length p = 3 → n = 1 ∧ str_take (S (S n)) s = p) as Hpre.
  { intros p Hp%prefix_split H3 Hl. assert (str_take 3 p = p) as Htp by (rewrite <-Hl; apply substring_full).
    rewrite Hp, <-Htp, (rune_len_take p _ 2 H3) in H. injection H as <-. split; [done|].
    rewrite Hp. destruct p as [|a [|b [|c [|d p]]]]; try discriminate Hl. rewrite !app_String, app_Empty.
    unfold str_take. cbn [String.substring]. by destruct (str_drop _ s). }
  unfold written in *. destruct (is_prefix line_separator s) eqn:E1; [|destruct (is_prefix paragraph_separator s) eqn:E2].
  - destruct (Hpre _ E1 eq_refl eq_refl) as [-> ->]. cbn in Hf. destruct fuel as [|fuel]; [lia|].
    exists fuel. split; [cbn; lia|]. rewrite !app_String, app_Empty. apply (parse_unicode _ _ _ _ _ _ _ 8232); (done || lia).
  - destruct (Hpre _ E2 eq_refl eq_refl) as [-> ->]. cbn in Hf. destruct fuel as [|fuel]; [lia|].
    exists fuel. split; [cbn; lia|]. rewrite !app_String, app_Empty. apply (parse_unicode _ _ _ _ _ _ _ 8233); (done || lia).
  - set (t := str_take (S (S n)) s) in *. exists (fuel - String.length t). split; [lia|].
    rewrite <-parse_high by by apply rune_bytes. f_equal. lia.
Qed.

Lemma parse_encode s r fuel : String.length (encode_chars 0 s) < fuel →
  parse_chars fuel (encode_chars 0 s +:+ (quote +:+ r)) = Some (sanitize s, r).
Proof.
  remember (String.length s) as n eqn:Hn. revert s fuel Hn. induction (lt_wf n) as [n _ IH]. intros s fuel -> Hf.
  destruct s as [|a s].
  { destruct fuel as [|fuel]; [cbn in Hf; lia|]. reflexivity. }
  destruct (rune_len (String a s)) as [|[|k]] eqn:E.
  - rewrite encode_bad, sanitize_bad in * by done. rewrite length_app_String in Hf. cbn in Hf.
    destruct fuel as [|fuel]; [lia|]. rewrite !app_String, app_Empty.
    rewrite (parse_unicode _ _ _ _ _ _ _ 65533) by (done || lia).
    by rewrite (IH (String.length s)) by (cbn; lia || done).
  - rewrite encode_ascii in * by done. rewrite (sanitize_good _ 0) by done.
    assert (byte_of a ≤ 127)%Z as Ha.
    { unfold rune_len in E. cbn [Json.between] in E.
      destruct ((0 <=? byte_of a) && (byte_of a <=? 127))%Z eqn:E0; [apply andb_true_iff in E0 as [_ ?%Z.leb_le]; lia|].
      repeat case_match; discriminate. }
    rewrite length_app_String in Hf. assert (0 < String.length (encode_char a)) as Hl.
    { unfold encode_char. repeat case_decide; unfold escape_byte; rewrite ?length_app_String; cbn; lia. }
    destruct fuel as [|fuel]; [lia|]. rewrite <-(assoc_L String.append), parse_decodes by by apply decodes_ascii.
    rewrite (IH (String.length s)) by (cbn; lia || done). cbn [prepend]. do 2 f_equal.
    change (str_drop 1 (String a s)) with (str_drop 0 s). change (str_take 1 (String a s)) with (String a (str_take 0 s)).
    unfold str_drop, str_take. rewrite Nat.sub_0_r, substring_full. by destruct s.
  - rewrite (encode_long _ k) in * by done. rewrite (sanitize_good _ (S k)) by done.
    rewrite length_app_String in Hf.
    destruct (parse_written _ _ (encode_chars 0 (str_drop (S (S k)) (String a s)) +:+ (quote +:+ r)) fuel E)
      as (fuel' & Hfuel & Hp); [lia|].
    rewrite <-(assoc_L String.append), Hp.
    by rewrite (IH (String.length (str_drop (S (S k)) (String a s)))) by first [done|lia|rewrite length_str_drop; cbn; lia].
Qed.

(** *** Base64 *)
Definition plain_char (a : ascii) : bool :=
  (32 <=? ch a) && (ch a <=? 127) && negb (ch a =? 34) && negb (ch a =? 92).

Fixpoint all_plain (s : string) : bool :=
  match s with EmptyString => true | String a s => plain_char a && all_plain s end.

Lemma base64_char_plain n : plain_char (base64_char n) = true.
Proof.
  unfold base64_char. generalize (Z.to_nat n) as i. intros i.
  assert (∀ s, all_plain s = true → ∀ i, plain_char (default "A"%char (String.get i s)) = true) as H.
  { induction s as [|a s IH]; [by intros _ []|]. cbn [all_plain].
    intros [Ha Hs]%andb_true_iff [|j]; [done|]. by apply IH. }
  by apply H.
Qed.

Lemma base64_plain s : all_plain (base64 s) = true.
Proof.
  revert s. fix IH 1. intros s. destruct s as [|x [|y [|z s]]]; [done|..]; cbn [base64 all_plain];
    rewrite !base64_char_plain; cbn [andb]; [done..|apply IH].
Qed.

Lemma plain_valid s : all_plain s = true → sanitize s = s.
Proof.
  unfold sanitize. induction s as [|a s IH]; [done|]. cbn [all_plain sanitize_from].
  intros [Ha Hs]%andb_true_iff. assert (rune_len (String a s) = 1) as ->; [|by rewrite IH].
  unfold rune_len, plain_char in *. cbn [Json.between]. rewrite byte_of_ch.
  apply andb_true_iff in Ha as [[[_ Ha%Nat.leb_le]%andb_true_iff _]%andb_true_iff _].
  by rewrite (proj2 (Z.leb_le 0 _)), (proj2 (Z.leb_le _ 127)) by lia.
Qed.

Lemma base64_valid s : valid (base64 s).
Proof. apply plain_valid, base64_plain. Qed.

Lemma parse_all_plain s r fuel : all_plain s = true → String.length s < fuel →
  parse_chars fuel (s +:+ (quote +:+ r)) = Some (s, r).
Proof.
  revert fuel. induction s as [|a s IH]; intros fuel Hs Hf; (destruct fuel as [|fuel]; [cbn in Hf; lia|]); [done|].
  cbn in Hs, Hf. apply andb_true_iff in Hs as [Ha Hs]. unfold plain_char in Ha.
  apply andb_true_iff in Ha as [[[H1%Nat.leb_le _]%andb_true_iff H2%negb_true_iff%Nat.eqb_neq]%andb_true_iff
    H3%negb_true_iff%Nat.eqb_neq].
  rewrite app_String, parse_plain by lia. rewrite IH by (done || lia). done.
Qed.

(** ** Values *)

(** Every number in a value prints digits that read back. *)
Fixpoint readable (v : val) : Prop :=
  match v with
  | VInt z | VNum _ z => is_finite (float_of_int z) = true
  | VFloat32 f => reads_as 24 128 f (float32_rt f)
  | VFloat f => reads_as 53 1024 f f
  | VSlice _ l => Forall id (readable <$> l)
  | VMap _ m => map_Forall (λ _ P, P) (readable <$> m)
  | VPtr p => readable p
  | VStruct _ fs => Forall id ((λ f, readable f.2) <$> fs)
  | _ => True
  end.

(** A text the parser takes for one value; it does not start like the end of
    a collection. *)
Record denotes (t : string) (w : val) : Prop := {
  denotes_head a u : t = String a u → ch a ∉ [32; 9; 10; 13] ∧ ch a ≠ 93 ∧ ch a ≠ 125;
  denotes_length : 0 < String.length t;
  denotes_parse fuel r : String.length t ≤ fuel → ends r → parse_value fuel (t +:+ r) = Some (w, r)
}.

Lemma skip_head t w r : denotes t w → skip_ws (t +:+ r) = t +:+ r.
Proof.
  intros [Hh Hl _]. destruct t as [|a t]; [cbn in Hl; lia|]. destruct (Hh a t eq_refl) as [Ha _].
  rewrite app_String. cbn. by rewrite decide_False.
Qed.

Lemma denotes_keyword k w :
  (∀ r fuel, parse_value (S fuel) (k +:+ r) = Some (w, r)) → 0 < String.length k →
  (∀ a u, k = String a u → ch a ∉ [32; 9; 10; 13] ∧ ch a ≠ 93 ∧ ch a ≠ 125) → denotes k w.
Proof. intros Hp Hl Hh. split; [done|done|]. intros fuel r Hf _. destruct fuel; [lia|]. apply Hp. Qed.

Ltac head_char :=
  let E := fresh in intros ? ? E; injection E as <- _;
  split; [rewrite !elem_of_cons, elem_of_nil; vm_compute; naive_solver|split; vm_compute; discriminate].

Lemma keyword_app k r : keyword k (k +:+ r) = Some r.
Proof.
  unfold keyword. assert (is_prefix k (k +:+ r) = true ∧ str_drop (String.length k) (k +:+ r) = r) as [-> ->]; [|done].
  unfold is_prefix. induction k as [|a k [IH1 IH2]].
  - unfold str_drop. cbn. rewrite app_Empty, Nat.sub_0_r, substring_full. split; [by destruct r|done].
  - rewrite app_String. cbn [String.prefix String.length]. destruct (ascii_dec a a); [|done]. split; [done|exact IH2].
Qed.

Lemma parse_value_keywords fuel a t : ch a ∉ [32; 9; 10; 13; 34; 91; 123] →
  parse_value (S fuel) (String a t) =
  match keyword "null" (String a t), keyword "true" (String a t), keyword "false" (String a t) with
  | Some r, _, _ => Some (VNil, r)
  | _, Some r, _ => Some (VBool true, r)
  | _, _, Some r => Some (VBool false, r)
  | _, _, _ => match parse_number (String a t) with
               | Some (f, r) => Some (VFloat f, r)
               | None => None
               end
  end.
Proof.
  rewrite !elem_of_cons, elem_of_nil. intros Ha. cbn [parse_value].
  assert (skip_ws (String a t) = String a t) as ->.
  { cbn. rewrite decide_False; [done|]. rewrite !elem_of_cons, elem_of_nil. tauto. }
  cbn [starts_with]. by rewrite !bool_decide_eq_false_2 by tauto.
Qed.

Ltac by_keyword k a u :=
  let r := fresh in let fuel := fresh in let Hk := fresh in
  intros r fuel; pose proof (keyword_app k r) as Hk; change (k +:+ r) with (String a (u +:+ r)) in *;
  rewrite parse_value_keywords by (rewrite !elem_of_cons, elem_of_nil; vm_compute; naive_solver);
  rewrite Hk; reflexivity.

Lemma denotes_null : denotes "null" VNil.
Proof. apply denotes_keyword; [by_keyword "null" "n"%char "ull"|cbn; lia|head_char]. Qed.
Lemma denotes_true : denotes "true" (VBool true).
Proof. apply denotes_keyword; [by_keyword "true" "t"%char "rue"|cbn; lia|head_char]. Qed.
Lemma denotes_false : denotes "false" (VBool false).
Proof. apply denotes_keyword; [by_keyword "false" "f"%char "alse"|cbn; lia|head_char]. Qed.

Lemma denotes_number t f :
  (∀ r, ends r → parse_number (t +:+ r) = Some (f, r) ∧ starts_number (t +:+ r) = true) → denotes t (VFloat f).
Proof.
  intros H. assert (ends "") as He by done. destruct (H "" He) as [_ Hs]. rewrite app_nil_String in Hs.
  destruct t as [|a t]; [done|]. split; [|cbn; lia|].
  - intros b u [= <- _]. unfold starts_number in Hs. cbn in Hs.
    apply orb_true_iff in Hs as [Hs%bool_decide_eq_true|Hs%bool_decide_eq_true];
      rewrite !elem_of_cons, elem_of_nil; lia.
  - intros fuel r Hf Hr. cbn in Hf. destruct fuel as [|fuel]; [lia|]. destruct (H r Hr). by apply parse_value_number.
Qed.

Lemma denotes_string t s : (∀ fuel r, String.length t < fuel → parse_chars fuel (t +:+ (quote +:+ r)) = Some (s, r)) →
  sanitize s = s → denotes (quote +:+ t +:+ quote) (VStr s).
Proof.
  intros Hp Hs. assert (∀ r, (quote +:+ t +:+ quote) +:+ r = String (ascii_of_nat 34) (t +:+ (quote +:+ r))) as Happ.
  { intros r. unfold quote. rewrite !app_String, app_Empty. by rewrite <-(assoc_L String.append). }
  split.
  - intros a u. unfold quote. rewrite !app_String. revert a u. head_char.
  - unfold quote. rewrite app_String. cbn. lia.
  - intros fuel r Hf _. rewrite Happ. destruct fuel as [|fuel]; [unfold quote in Hf; rewrite app_String in Hf; cbn in Hf; lia|].
    cbn [parse_value]. change (skip_ws (String (ascii_of_nat 34) (t +:+ (quote +:+ r))))
      with (String (ascii_of_nat 34) (t +:+ (quote +:+ r))).
    change (starts_with 34 (String (ascii_of_nat 34) (t +:+ (quote +:+ r)))) with true. cbn iota. cbn [tl].
    rewrite Hp; [by rewrite Hs|]. cbn. rewrite !length_app_String. lia.
Qed.

(** *** Collections *)
Lemma ends_char a r : is_digit a = false → ch a ≠ 46 → ch a ≠ 101 → ch a ≠ 69 → ends (String a r).
Proof. intros H1 H2 H3 H4. unfold ends. cbn. by rewrite !bool_decide_eq_false_2. Qed.

Lemma ends_comma r : ends (String "," r). Proof. by apply ends_char. Qed.
Lemma ends_bracket r : ends (String "]" r). Proof. by apply ends_char. Qed.
Lemma ends_brace r : ends (String "}" r). Proof. by apply ends_char. Qed.

Lemma join_cons sep p q ps : join_with sep (p :: q :: ps) = p +:+ sep +:+ join_with sep (q :: ps).
Proof. done. Qed.

Lemma denotes_not_bracket t w r : denotes t w → starts_with 93 (skip_ws (t +:+ r)) = false.
Proof.
  intros Hd. rewrite (skip_head t w) by done. destruct Hd as [Hh Hl _]. destruct t as [|a t]; [cbn in Hl; lia|].
  rewrite app_String. cbn. apply bool_decide_eq_false. by destruct (Hh a t eq_refl) as (_ & ? & _).
Qed.

Lemma parse_items_denotes ts ws first acc fuel r :
  Forall2 denotes ts ws → ts ≠ [] → String.length (join_with "," ts) < fuel →
  parse_items fuel first acc (join_with "," ts +:+ String "]" r) = Some (VList (acc ++ ws), r).
Proof.
  intros H. revert first acc fuel. induction H as [|t w ts ws Ht Hts IH]; intros first acc fuel Hne Hf; [done|].
  destruct fuel as [|fuel]; [lia|]. cbn [parse_items].
  assert (∀ u, starts_with 93 (skip_ws (t +:+ u)) = false) as Hb by (intros u; by eapply denotes_not_bracket).
  destruct ts as [|t' ts].
  - inversion Hts; subst. cbn [join_with] in *. rewrite Hb, andb_false_r.
    rewrite (denotes_parse _ _ Ht) by (lia || apply ends_bracket). reflexivity.
  - inversion Hts as [|? w' ? ws' Ht' Hts']; subst. rewrite join_cons in *.
    rewrite !length_app_String in Hf. cbn [String.length] in Hf.
    rewrite <-!(assoc_L String.append), Hb, andb_false_r. rewrite app_String, app_Empty.
    rewrite (denotes_parse _ _ Ht) by (lia || apply ends_comma).
    change (skip_ws (String "," ?x)) with (String "," x).
    transitivity (parse_items fuel false (acc ++ [w]) (join_with "," (t' :: ts) +:+ String "]" r)); [reflexivity|].
    rewrite IH by (done || lia). by rewrite <-(assoc_L (++)).
Qed.

Lemma denotes_list ts ws : Forall2 denotes ts ws → denotes (json_list ts) (VList ws).
Proof.
  intros H. unfold json_list. split.
  - rewrite app_String. head_char.
  - rewrite app_String. cbn. lia.
  - intros fuel r Hf _. rewrite <-!(assoc_L String.append), !app_String, !app_Empty in *. cbn [String.length] in Hf.
    rewrite !length_app_String in Hf. cbn [String.length] in Hf. destruct fuel as [|fuel]; [lia|].
    transitivity (parse_items fuel true [] (join_with "," ts +:+ String "]" r)); [reflexivity|].
    destruct H as [|t w ts ws Ht Hts].
    + destruct fuel as [|fuel]; [cbn in Hf; lia|]. reflexivity.
    + rewrite (parse_items_denotes _ (w :: ws)); [done|by constructor|done|lia].
Qed.

(** A member of an object. *)
Definition member_text (kt : string * string) : string := encode_string kt.1 +:+ ":" +:+ kt.2.

Lemma member_app kt r :
  member_text kt +:+ r = String (ascii_of_nat 34) (encode_chars 0 kt.1 +:+ (quote +:+ String ":" (kt.2 +:+ r))).
Proof.
  unfold member_text, encode_string, quote. str_norm. done.
Qed.

Lemma length_member kt :
  String.length (member_text kt) = String.length (encode_chars 0 kt.1) + 3 + String.length kt.2.
Proof.
  rewrite <-(app_nil_String (member_text kt)), member_app. cbn. rewrite !length_app_String. cbn.
  rewrite length_app_String. cbn. lia.
Qed.

Lemma parse_members_denotes (kts : list (string * string)) kws first acc fuel r :
  Forall2 (λ kt kw, kt.1 = kw.1 ∧ denotes kt.2 kw.2) kts kws → kts ≠ [] →
  String.length (join_with "," (member_text <$> kts)) < fuel →
  parse_members fuel first acc (join_with "," (member_text <$> kts) +:+ String "}" r) =
  Some (VObj (foldl (λ acc kw, <[sanitize kw.1 := kw.2]> acc) acc kws), r).
Proof.
  intros H. revert first acc fuel. induction H as [|[k t] [k' w] kts kws [Hk Ht] Hts IH]; intros first acc fuel Hne Hf; [done|].
  cbn [fst snd] in Hk, Ht. subst k'. destruct fuel as [|fuel]; [lia|].
  assert (∀ u, parse_members (S fuel) first acc (member_text (k, t) +:+ u) =
    match parse_value fuel (t +:+ u) with
    | None => None
    | Some (v, r) =>
        if starts_with 44 (skip_ws r) then parse_members fuel false (<[sanitize k := v]> acc) (tl (skip_ws r))
        else if starts_with 125 (skip_ws r) then Some (VObj (<[sanitize k := v]> acc), tl (skip_ws r))
        else None
    end) as Hstep.
  { intros u. rewrite member_app. cbn [fst snd parse_members].
    change (skip_ws (String (ascii_of_nat 34) ?x)) with (String (ascii_of_nat 34) x).
    change (starts_with 125 (String (ascii_of_nat 34) ?x)) with false.
    change (starts_with 34 (String (ascii_of_nat 34) ?x)) with true.
    rewrite andb_false_r. cbn [negb tl].
    rewrite parse_encode by (cbn; rewrite !length_app_String; lia).
    change (skip_ws (String ":" ?x)) with (String ":" x). change (starts_with 58 (String ":" ?x)) with true.
    cbn [negb tl]. by rewrite sanitize_idemp. }
  pose proof (length_member (k, t)) as Hlm. cbn [fst snd] in Hlm.
  rewrite fmap_cons. rewrite fmap_cons in Hf. destruct kts as [|[k2 t2] kts].
  - inversion Hts; subst. cbn [fmap list_fmap join_with] in *. rewrite Hstep, (denotes_parse _ _ Ht) by (lia || apply ends_brace).
    reflexivity.
  - rewrite fmap_cons in *. rewrite join_cons in *. rewrite !length_app_String in Hf. cbn [String.length] in Hf.
    rewrite <-!(assoc_L String.append), Hstep, app_String, app_Empty.
    rewrite (denotes_parse _ _ Ht) by (lia || apply ends_comma).
    transitivity (parse_members fuel false (<[sanitize k := w]> acc) (join_with "," (member_text (k2, t2) :: (member_text <$> kts)) +:+ String "}" r)); [reflexivity|].
    by rewrite <-fmap_cons, IH by (done || lia).
Qed.

Lemma denotes_object kts kws :
  Forall2 (λ kt kw, kt.1 = kw.1 ∧ denotes kt.2 kw.2) kts kws →
  denotes (json_object kts) (VObj (foldl (λ acc kw, <[sanitize kw.1 := kw.2]> acc) ∅ kws)).
Proof.
  intros H. unfold json_object. change (λ kv : string * string, encode_string kv.1 +:+ ":" +:+ kv.2) with member_text. split.
  - rewrite app_String. head_char.
  - rewrite app_String. cbn. lia.
  - intros fuel r Hf _. rewrite <-!(assoc_L String.append), !app_String, !app_Empty in *. cbn [String.length] in Hf.
    rewrite !length_app_String in Hf. cbn [String.length] in Hf. destruct fuel as [|fuel]; [lia|].
    transitivity (parse_members fuel true ∅ (join_with "," (member_text <$> kts) +:+ String "}" r)); [reflexivity|].
    destruct kts as [|kt kts].
    + inversion H; subst. destruct fuel as [|fuel]; [cbn in Hf; lia|]. reflexivity.
    + by rewrite (parse_members_denotes _ kws) by (done || lia).
Qed.

(** ** The law *)
Definition agree (t : option string) (w : option val) : Prop :=
  match t, w with
  | Some t, Some w => denotes t w
  | None, None => True
  | _, _ => False
  end.

Lemma sequence_agree {A} (f : A → option string) (g : A → option val) l :
  Forall (λ x, agree (f x) (g x)) l →
  match sequence (f <$> l), sequence (g <$> l) with
  | Some ts, Some ws => Forall2 denotes ts ws
  | None, None => True
  | _, _ => False
  end.
Proof.
  induction 1 as [|x l Hx Hl IH]; [constructor|]. rewrite !fmap_cons. cbn [sequence]. unfold agree in Hx.
  destruct (f x) as [t|], (g x) as [w|]; try done.
  destruct (sequence (f <$> l)), (sequence (g <$> l)); try done. by constructor.
Qed.

Lemma starts_number_int (z : Z) r : starts_number (pretty z +:+ r) = true.
Proof.
  assert (∀ p, starts_digit (pretty (N.pos p) +:+ r) = true) as Hp.
  { intros p. destruct (pretty_pos p) as [(Ha & Hne & _) _]. destruct (pretty (N.pos p)) as [|a s]; [done|].
    cbn in *. by apply andb_true_iff in Ha as [? _]. }
  unfold starts_number. destruct z as [|p|p]; [done|change (pretty (Z.pos p)) with (pretty (N.pos p)); by rewrite (Hp p)|].
  change (pretty (Z.neg p)) with ("-" +:+ pretty (N.pos p)). by str_norm.
Qed.

Lemma denotes_int z : is_finite (float_of_int z) = true → denotes (pretty z) (VFloat (float_of_int z)).
Proof. intros Hz. apply denotes_number. intros r Hr. split; [by apply parse_int|apply starts_number_int]. Qed.

Lemma json_float_agree prec emax f w :
  reads_as prec emax f w → agree (json_float prec emax f) (if is_finite f then Some (VFloat w) else None).
Proof.
  intros Hw. destruct (json_float prec emax f) as [t|] eqn:E.
  - assert (is_finite f = true) as -> by (by destruct f). apply denotes_number. intros r Hr. by eapply json_float_reads.
  - destruct f as [| | |s m e]; try done. exfalso. revert E. unfold json_float.
    destruct (shortest prec emax (S754_finite false m e) m e) as [c p]. by destruct (strip_zeros 400 c p).
Qed.

Lemma object_of_fold m : object_of m =
  foldl (λ acc kw, <[sanitize kw.1 := kw.2]> acc) ∅
    (omap (λ k, (λ w, (k, w)) <$> m !! k) (sort_strings (map_to_list m).*1)).
Proof.
  unfold object_of. generalize (sort_strings (map_to_list m).*1) as ks. generalize (∅ : gmap string val) as acc.
  intros acc ks. revert acc. induction ks as [|k ks IH]; intros acc; [done|]. cbn. rewrite IH.
  by destruct (m !! k).
Qed.

Lemma elem_of_keys {V} (m : gmap string V) k : k ∈ (map_to_list m).*1 ↔ is_Some (m !! k).
Proof.
  rewrite list_elem_of_fmap. split.
  - intros ([k' v] & -> & Hin%elem_of_map_to_list). by exists v.
  - intros [v Hv]. exists (k, v). by rewrite elem_of_map_to_list.
Qed.

Lemma agree_map e m :
  map_Forall (λ _ v, agree (marshal v) (json_rt v)) m → agree (marshal (VMap e m)) (json_rt (VMap e m)).
Proof.
  intros Hm. cbn [marshal json_rt]. unfold sequence_map.
  assert (map_Forall (λ _ t, is_Some t) (marshal <$> m) ↔ map_Forall (λ _ w, is_Some w) (json_rt <$> m)) as Hall.
  { rewrite !map_Forall_fmap. split; intros H k v Hk; specialize (H k v Hk); specialize (Hm k v Hk);
      unfold compose, agree in *; destruct (marshal v), (json_rt v); try done; by destruct H. }
  destruct (decide (map_Forall _ (marshal <$> m))) as [Ht|Ht]; [|by rewrite decide_False by (by rewrite <-Hall)].
  assert (map_Forall (λ _ w, is_Some w) (json_rt <$> m)) as Hall' by by apply Hall.
  rewrite decide_True by done. cbn. rewrite object_of_fold.
  set (m' := omap id (json_rt <$> m)).
  assert (∀ k, m' !! k = m !! k ≫= json_rt) as Hm'.
  { intros k. unfold m'. rewrite lookup_omap, lookup_fmap. by destruct (m !! k). }
  assert (sort_strings (map_to_list m').*1 = sort_strings (map_to_list m).*1) as ->.
  { apply sort_strings_ext, NoDup_Permutation; [apply NoDup_fst_map_to_list..|]. intros k.
    rewrite !elem_of_keys, Hm'. destruct (m !! k) as [v|] eqn:Hk; cbn; [|done].
    split; [by eexists|intros _]. specialize (Hall' k (json_rt v)). apply Hall'. by rewrite lookup_fmap, Hk. }
  apply denotes_object.
  assert (∀ k, k ∈ sort_strings (map_to_list m).*1 → is_Some (m !! k)) as Hks.
  { intros k. by rewrite sort_strings_perm, elem_of_keys. }
  induction (sort_strings (map_to_list m).*1) as [|k ks IH]; [constructor|].
  destruct (Hks k) as [v Hv]; [by left|]. specialize (Hm k v Hv). unfold agree in Hm.
  destruct (Hall' k (json_rt v)) as [w Hw]; [by rewrite lookup_fmap, Hv|]. rewrite Hw in Hm.
  destruct (marshal v) as [t|] eqn:Et; [|done].
  rewrite fmap_cons. cbn [omap list_omap]. rewrite Hm', Hv. cbn. rewrite Hw. cbn. constructor.
  - split; [done|]. cbn. by rewrite lookup_fmap, Hv; cbn; rewrite Et.
  - apply IH. intros k' Hk'. apply Hks. by right.
Qed.

Lemma marshal_agree v : readable v → agree (marshal v) (json_rt v).
Proof.
  induction v as [v IH] using val_size_ind. intros Hr.
  destruct v as [|b|z|k z|f|f|s|s|e l|e m|p|n fs|t|t]; cbn [readable] in Hr.
  - apply denotes_null.
  - destruct b; [apply denotes_true|apply denotes_false].
  - by apply denotes_int.
  - by apply denotes_int.
  - by apply json_float_agree.
  - by apply json_float_agree.
  - apply denotes_string; [|apply sanitize_idemp]. intros fuel r Hf. by apply parse_encode.
  - apply denotes_string; [|apply base64_valid]. intros fuel r Hf. apply parse_all_plain; [apply base64_plain|done].
  - cbn [marshal json_rt]. pose proof (sequence_agree marshal json_rt l) as Hs.
    destruct (sequence (marshal <$> l)), (sequence (json_rt <$> l)); try apply denotes_list; apply Hs;
      apply Forall_forall; intros v Hv; apply IH; try (by eapply vsize_list);
      rewrite Forall_fmap, Forall_forall in Hr; by apply Hr.
  - apply agree_map. intros k v Hk. apply IH; [by eapply vsize_map|].
    rewrite map_Forall_fmap in Hr. by apply (Hr k).
  - cbn [marshal json_rt]. apply IH; [cbn; lia|done].
  - assert (Forall (λ f : string * gotype * val, agree (marshal f.2) (json_rt f.2)) fs) as Hfs.
    { rewrite Forall_fmap, Forall_forall in Hr. apply Forall_forall. intros f Hf. apply IH; [|by apply Hr].
      cbn [vsize]. clear -Hf. induction fs as [|g fs IHfs]; [by apply elem_of_nil in Hf|].
      apply elem_of_cons in Hf as [->|Hf]; csimpl; [lia|]. specialize (IHfs Hf). lia. }
    cbn [marshal json_rt]. pose proof (sequence_agree (λ f : string * gotype * val, marshal f.2) (λ f, json_rt f.2) fs) as Hs.
    destruct (sequence ((λ f, marshal f.2) <$> fs)) as [ts|], (sequence ((λ f, json_rt f.2) <$> fs)) as [ws|];
      try (apply Hs, Hfs).
    apply denotes_object. assert (Forall2 denotes ts ws) as Hts by (apply Hs, Hfs).
    clear -Hts. generalize ((λ f, f.1.1) <$> fs) as ks. induction Hts; intros [|k ks]; constructor; [done|]. apply IHHts.
  - apply (denotes_object [] []). constructor.
  - destruct t; try exact I; apply denotes_null.
Qed.

Lemma denotes_unmarshal t w : denotes t w → unmarshal t = Some w.
Proof.
  intros H. unfold unmarshal.
  pose proof (denotes_parse _ _ H (2 * S (String.length t)) "" ltac:(lia) ltac:(done)) as Hp.
  rewrite app_nil_String in Hp. by rewrite Hp.
Qed.

(** C20: reading back what was written is the conversion that copies of values
    go through: [json.Unmarshal] after [json.Marshal] is [json_rt], failures
    included, for every value whose floats print digits that read back. *)
Theorem json_text_round_trip v : readable v → marshal v ≫= unmarshal = json_rt v.
Proof.
  intros Hv. pose proof (marshal_agree v Hv) as H. unfold agree in H.
  destruct (marshal v) as [t|], (json_rt v) as [w|]; try done. by apply denotes_unmarshal.
Qed.

(** The bounds of the integer types and floats of every magnitude. *)
Definition sample : val := VList
  [VNil; VBool true; VInt (- int_bound); VInt (int_bound - 1); VNum Uint64 18446744073709551615;
   VFloat (float_of_dec 53 1024 15 (-1)); VFloat (float_of_dec 53 1024 1 300);
   VFloat (float_of_dec 53 1024 5 (-324)); VFloat (SFdiv 53 1024 (float_of_int (-1)) (float_of_int 3));
   VFloat32 (float_of_dec 24 128 1 (-1)); VStr ("<é" +:+ quote); VBytes "any"].

Lemma sample_readable : readable sample.
Proof. repeat (constructor; [vm_compute; (exact I || done || (split; [reflexivity|split; reflexivity]))|]). constructor. Qed.

Lemma json_text_round_trip_witness :
  ∃ t, marshal sample = Some t ∧ unmarshal t = json_rt sample.
Proof.
  assert (is_Some (marshal sample)) as [t E] by (vm_compute; by eexists).
  exists t. split; [exact E|]. transitivity (marshal sample ≫= unmarshal).
  - by rewrite E.
  - exact (json_text_round_trip sample sample_readable).
Defined.
