(* ===== verification/Channels.v ===== *)
(** * Channels: the interface and the value channels

    [internal/harness/graph/channels]: the [Channel] interface (base.go) and
    the channels that store plain values: [LastValue], [AnyValue],
    [EphemeralValue], [UntrackedValue] and [Topic].

    A channel method with a pointer receiver is a function that returns the
    new channel next to its results, also on the error path, since Go keeps
    what was mutated before the error. *)

From S2P Require Export Errors.

(** ** The interface (base.go)

    [Get] returns the new state as well: [EphemeralValue.Get] clears it. *)
Class Channel (C : Type) := {
  GetKey : C → string;
  SetKey : string → C → C;
  Get : C → res val * C;
  IsAvailable : C → bool;
  Update : list val → C → res bool * C;
  Copy : C → C;
  Checkpoint : C → val;
  FromCheckpoint : val → C → C;
  Consume : C → bool * C;
  Finish : C → bool * C;
  GetVersion : C → Z
}.

(** The structural interface [interface{ SetVersion(int) }] the engine asserts. *)
Class Versioned (C : Type) := { SetVersion : Z → C → C }.

(** What every channel of the package promises to its clients. *)
Class ChannelLaws (C : Type) `{Channel C} : Prop := {
  (** a failed read reports an empty channel and changes nothing *)
  get_err : ∀ (c c' : C) e, Get c = (Err e, c') → IsEmptyChannelError e = true ∧ c' = c;
  (** an available channel can be read *)
  get_available : ∀ c : C, IsAvailable c = true → is_ok (Get c).1 = true;
  (** a rejected update is an [InvalidUpdateError] *)
  update_err : ∀ vs (c c' : C) e, Update vs c = (Err e, c') → IsInvalidUpdateError e = true;
  (** reads, updates, the step hooks and copies keep the key *)
  get_key : ∀ c : C, GetKey (Get c).2 = GetKey c;
  update_key : ∀ vs (c : C), GetKey (Update vs c).2 = GetKey c;
  consume_key : ∀ c : C, GetKey (Consume c).2 = GetKey c;
  finish_key : ∀ c : C, GetKey (Finish c).2 = GetKey c;
  copy_key : ∀ c : C, GetKey (Copy c) = GetKey c;
  set_key : ∀ k (c : C), GetKey (SetKey k c) = k
}.

(** ** BaseChannel (base.go) *)
Module BaseChannel.
Record t := Mk { Key : string; Typ : val; Version : Z }.

(** [BaseChannel{Typ: typ}] *)
Definition New (typ : val) : t := Mk "" typ 0.

Definition GetKey (c : t) : string := Key c.
Definition SetKey (key : string) (c : t) : t := Mk key (Typ c) (Version c).
Definition GetVersion (c : t) : Z := Version c.
Definition SetVersion (v : Z) (c : t) : t := Mk (Key c) (Typ c) v.

(** [newCh := NewX(c.Typ); newCh.Key = c.Key]: version zero again. *)
Definition renew (c : t) : t := SetKey (Key c) (New (Typ c)).

(** The hooks a channel inherits: a no-op that reports no change. *)
Definition Consume {C} (c : C) : bool * C := (false, c).
Definition Finish {C} (c : C) : bool * C := (false, c).
End BaseChannel.

Definition empty_channel : error := EmptyChannelError "".

(** ** LastValue (last_value.go)

    Stores the last value received; at most one value per step. *)
Module LastValue.
Record t := Mk { base : BaseChannel.t; value : val }.

Definition New (typ : val) : t := Mk (BaseChannel.New typ) Missing.

Definition Get (c : t) : res val * t :=
  if IsMissing (value c) then (Err empty_channel, c) else (Ok (value c), c).

Definition IsAvailable (c : t) : bool := negb (IsMissing (value c)).

Definition Update (values : list val) (c : t) : res bool * t :=
  match values with
  | [] => (Ok false, c)
  | [v] => (Ok true, Mk (base c) v)
  | _ :: _ :: _ =>
      (Err (InvalidUpdateError
              ("At key '" +:+ BaseChannel.Key (base c) +:+
               "': Can receive only one value per step. Use a reducer to handle multiple values.")),
       c)
  end.

Definition Copy (c : t) : t := Mk (BaseChannel.renew (base c)) (value c).

Definition Checkpoint (c : t) : val := value c.

Definition FromCheckpoint (checkpoint : val) (c : t) : t :=
  Mk (BaseChannel.renew (base c)) (if IsMissing checkpoint then Missing else checkpoint).
End LastValue.

#[global] Instance LastValue_channel : Channel LastValue.t := {
  GetKey c := BaseChannel.GetKey (LastValue.base c);
  SetKey k c := LastValue.Mk (BaseChannel.SetKey k (LastValue.base c)) (LastValue.value c);
  Get := LastValue.Get;
  IsAvailable := LastValue.IsAvailable;
  Update := LastValue.Update;
  Copy := LastValue.Copy;
  Checkpoint := LastValue.Checkpoint;
  FromCheckpoint := LastValue.FromCheckpoint;
  Consume := BaseChannel.Consume;
  Finish := BaseChannel.Finish;
  GetVersion c := BaseChannel.GetVersion (LastValue.base c)
}.
#[global] Instance LastValue_versioned : Versioned LastValue.t := {
  SetVersion v c := LastValue.Mk (BaseChannel.SetVersion v (LastValue.base c)) (LastValue.value c)
}.

(** ** AnyValue (any_value.go)

    Stores any value received, overwriting the previous one. *)
Module AnyValue.
Record t := Mk { base : BaseChannel.t; value : val }.

Definition New (typ : val) : t := Mk (BaseChannel.New typ) Missing.

Definition Get (c : t) : res val * t :=
  if IsMissing (value c) then (Err empty_channel, c) else (Ok (value c), c).

Definition IsAvailable (c : t) : bool := negb (IsMissing (value c)).

Definition Update (values : list val) (c : t) : res bool * t :=
  match last values with
  | None => (Ok false, c)
  | Some v => (Ok true, Mk (base c) v)
  end.

Definition Copy (c : t) : t := Mk (BaseChannel.renew (base c)) (value c).

Definition Checkpoint (c : t) : val := value c.

Definition FromCheckpoint (checkpoint : val) (c : t) : t :=
  Mk (BaseChannel.renew (base c)) (if IsMissing checkpoint then Missing else checkpoint).
End AnyValue.

#[global] Instance AnyValue_channel : Channel AnyValue.t := {
  GetKey c := BaseChannel.GetKey (AnyValue.base c);
  SetKey k c := AnyValue.Mk (BaseChannel.SetKey k (AnyValue.base c)) (AnyValue.value c);
  Get := AnyValue.Get;
  IsAvailable := AnyValue.IsAvailable;
  Update := AnyValue.Update;
  Copy := AnyValue.Copy;
  Checkpoint := AnyValue.Checkpoint;
  FromCheckpoint := AnyValue.FromCheckpoint;
  Consume := BaseChannel.Consume;
  Finish := BaseChannel.Finish;
  GetVersion c := BaseChannel.GetVersion (AnyValue.base c)
}.
#[global] Instance AnyValue_versioned : Versioned AnyValue.t := {
  SetVersion v c := AnyValue.Mk (BaseChannel.SetVersion v (AnyValue.base c)) (AnyValue.value c)
}.

(** ** EphemeralValue (ephemeral_value.go)

    A value that the first read clears; [guard] makes an empty read an error. *)
Module EphemeralValue.
Record t := Mk { base : BaseChannel.t; value : val; guard : bool }.

Definition New (typ : val) (guard : bool) : t := Mk (BaseChannel.New typ) Missing guard.

Definition Get (c : t) : res val * t :=
  if IsMissing (value c) then
    if guard c then (Err empty_channel, c) else (Ok VNil, c)
  else (Ok (value c), Mk (base c) Missing (guard c)).

Definition IsAvailable (c : t) : bool := negb (IsMissing (value c)).

Definition Update (values : list val) (c : t) : res bool * t :=
  match last values with
  | None => (Ok false, c)
  | Some v => (Ok true, Mk (base c) v (guard c))
  end.

Definition Copy (c : t) : t := Mk (BaseChannel.renew (base c)) (value c) (guard c).

Definition Checkpoint (c : t) : val := value c.

Definition FromCheckpoint (checkpoint : val) (c : t) : t :=
  Mk (BaseChannel.renew (base c)) (if IsMissing checkpoint then Missing else checkpoint)
     (guard c).
End EphemeralValue.

#[global] Instance EphemeralValue_channel : Channel EphemeralValue.t := {
  GetKey c := BaseChannel.GetKey (EphemeralValue.base c);
  SetKey k c := EphemeralValue.Mk (BaseChannel.SetKey k (EphemeralValue.base c))
                  (EphemeralValue.value c) (EphemeralValue.guard c);
  Get := EphemeralValue.Get;
  IsAvailable := EphemeralValue.IsAvailable;
  Update := EphemeralValue.Update;
  Copy := EphemeralValue.Copy;
  Checkpoint := EphemeralValue.Checkpoint;
  FromCheckpoint := EphemeralValue.FromCheckpoint;
  Consume := BaseChannel.Consume;
  Finish := BaseChannel.Finish;
  GetVersion c := BaseChannel.GetVersion (EphemeralValue.base c)
}.
#[global] Instance EphemeralValue_versioned : Versioned EphemeralValue.t := {
  SetVersion v c := EphemeralValue.Mk (BaseChannel.SetVersion v (EphemeralValue.base c))
                      (EphemeralValue.value c) (EphemeralValue.guard c)
}.

(** ** UntrackedValue (untracked.go)

    Never checkpointed: copies and restored channels start empty, and a
    restored one has no key. *)
Module UntrackedValue.
Record t := Mk { base : BaseChannel.t; value : val }.

Definition New (typ : val) : t := Mk (BaseChannel.New typ) Missing.

Definition Get (c : t) : res val * t :=
  if IsMissing (value c) then (Err empty_channel, c) else (Ok (value c), c).

Definition IsAvailable (c : t) : bool := negb (IsMissing (value c)).

Definition Update (values : list val) (c : t) : res bool * t :=
  match last values with
  | None => (Ok false, c)
  | Some v => (Ok true, Mk (base c) v)
  end.

Definition Copy (c : t) : t := Mk (BaseChannel.renew (base c)) Missing.

Definition Checkpoint (c : t) : val := Missing.

Definition FromCheckpoint (checkpoint : val) (c : t) : t := New (BaseChannel.Typ (base c)).
End UntrackedValue.

#[global] Instance UntrackedValue_channel : Channel UntrackedValue.t := {
  GetKey c := BaseChannel.GetKey (UntrackedValue.base c);
  SetKey k c := UntrackedValue.Mk (BaseChannel.SetKey k (UntrackedValue.base c))
                  (UntrackedValue.value c);
  Get := UntrackedValue.Get;
  IsAvailable := UntrackedValue.IsAvailable;
  Update := UntrackedValue.Update;
  Copy := UntrackedValue.Copy;
  Checkpoint := UntrackedValue.Checkpoint;
  FromCheckpoint := UntrackedValue.FromCheckpoint;
  Consume := BaseChannel.Consume;
  Finish := BaseChannel.Finish;
  GetVersion c := BaseChannel.GetVersion (UntrackedValue.base c)
}.
#[global] Instance UntrackedValue_versioned : Versioned UntrackedValue.t := {
  SetVersion v c := UntrackedValue.Mk (BaseChannel.SetVersion v (UntrackedValue.base c))
                      (UntrackedValue.value c)
}.

(** ** Topic (topic.go)

    A publish/subscribe topic.  Without [accumulate] every update starts by
    emptying the topic. *)
Module Topic.
Record t := Mk { base : BaseChannel.t; values : list val; accumulate : bool }.

Definition New (typ : val) (accumulate : bool) : t := Mk (BaseChannel.New typ) [] accumulate.

Definition Get (c : t) : res val * t :=
  match values c with
  | [] => (Err empty_channel, c)
  | vs => (Ok (VList vs), c)
  end.

Definition IsAvailable (c : t) : bool := bool_decide (0 < length (values c)).

(** One level of [[]interface{}] is spliced in. *)
Fixpoint flatten (vs : list val) : list val :=
  match vs with
  | [] => []
  | v :: vs' =>
      match as_list v with
      | Some l => l ++ flatten vs'
      | None => v :: flatten vs'
      end
  end.

Definition Update (vs : list val) (c : t) : res bool * t :=
  let updated := if accumulate c then false else bool_decide (0 < length (values c)) in
  let kept := if accumulate c then values c else [] in
  match flatten vs with
  | [] => (Ok updated, Mk (base c) kept (accumulate c))
  | flat => (Ok true, Mk (base c) (kept ++ flat) (accumulate c))
  end.

Definition Copy (c : t) : t := Mk (BaseChannel.renew (base c)) (values c) (accumulate c).

Definition Checkpoint (c : t) : val :=
  match values c with [] => Missing | vs => VList vs end.

Definition FromCheckpoint (checkpoint : val) (c : t) : t :=
  Mk (BaseChannel.renew (base c))
     (if IsMissing checkpoint then []
      else match as_list checkpoint with Some l => l | None => [] end)
     (accumulate c).
End Topic.

#[global] Instance Topic_channel : Channel Topic.t := {
  GetKey c := BaseChannel.GetKey (Topic.base c);
  SetKey k c := Topic.Mk (BaseChannel.SetKey k (Topic.base c)) (Topic.values c)
                  (Topic.accumulate c);
  Get := Topic.Get;
  IsAvailable := Topic.IsAvailable;
  Update := Topic.Update;
  Copy := Topic.Copy;
  Checkpoint := Topic.Checkpoint;
  FromCheckpoint := Topic.FromCheckpoint;
  Consume := BaseChannel.Consume;
  Finish := BaseChannel.Finish;
  GetVersion c := BaseChannel.GetVersion (Topic.base c)
}.
#[global] Instance Topic_versioned : Versioned Topic.t := {
  SetVersion v c := Topic.Mk (BaseChannel.SetVersion v (Topic.base c)) (Topic.values c)
                      (Topic.accumulate c)
}.

(** ** The laws hold of the value channels *)

Ltac destruct_channel :=
  repeat match goal with
  | c : LastValue.t |- _ => destruct c
  | c : AnyValue.t |- _ => destruct c
  | c : EphemeralValue.t |- _ => destruct c
  | c : UntrackedValue.t |- _ => destruct c
  | c : Topic.t |- _ => destruct c
  end.

Ltac unfold_channel :=
  cbv [Get Update IsAvailable Copy Checkpoint FromCheckpoint Consume Finish GetKey SetKey
       GetVersion
       LastValue_channel AnyValue_channel EphemeralValue_channel UntrackedValue_channel
       Topic_channel
       LastValue_versioned AnyValue_versioned EphemeralValue_versioned UntrackedValue_versioned
       Topic_versioned SetVersion BaseChannel.SetVersion BaseChannel.SetKey BaseChannel.New
       BaseChannel.GetVersion
       BaseChannel.Consume BaseChannel.Finish BaseChannel.GetKey BaseChannel.renew
       LastValue.Get LastValue.Update LastValue.IsAvailable LastValue.Copy
       LastValue.Checkpoint LastValue.FromCheckpoint
       AnyValue.Get AnyValue.Update AnyValue.IsAvailable AnyValue.Copy
       AnyValue.Checkpoint AnyValue.FromCheckpoint
       EphemeralValue.Get EphemeralValue.Update EphemeralValue.IsAvailable EphemeralValue.Copy
       EphemeralValue.Checkpoint EphemeralValue.FromCheckpoint
       UntrackedValue.Get UntrackedValue.Update UntrackedValue.IsAvailable UntrackedValue.Copy
       UntrackedValue.Checkpoint UntrackedValue.FromCheckpoint
       Topic.Get Topic.Update Topic.IsAvailable Topic.Copy
       Topic.Checkpoint Topic.FromCheckpoint] in *.

Ltac channel_laws :=
  split; intros; destruct_channel; unfold_channel; simpl in *; case_all; done.

#[global] Instance LastValue_laws : ChannelLaws LastValue.t.
Proof. channel_laws. Qed.
#[global] Instance AnyValue_laws : ChannelLaws AnyValue.t.
Proof. channel_laws. Qed.
#[global] Instance EphemeralValue_laws : ChannelLaws EphemeralValue.t.
Proof. channel_laws. Qed.
#[global] Instance UntrackedValue_laws : ChannelLaws UntrackedValue.t.
Proof. channel_laws. Qed.
#[global] Instance Topic_laws : ChannelLaws Topic.t.
Proof. channel_laws. Qed.

(** ** Equality up to the version

    [Copy] and [FromCheckpoint] start over at version zero, so the channel
    they build equals the original only up to its version.  Two channels are
    equivalent when they become equal once the version is reset. *)
Definition same_but_version {C} `{Versioned C} (c c' : C) : Prop :=
  SetVersion 0 c = SetVersion 0 c'.

Infix "≃" := same_but_version (at level 70, no associativity) : go_scope.
Open Scope go_scope.

#[global] Instance same_but_version_equivalence {C} `{Versioned C} :
  Equivalence (same_but_version (C := C)).
Proof. unfold same_but_version. split; red; congruence. Qed.

(** No operation looks at the version: each commutes with resetting it. *)
Class VersionBlind (C : Type) `{Channel C, Versioned C} : Prop := {
  set_version_set : ∀ v w (c : C), SetVersion v (SetVersion w c) = SetVersion v c;
  get_blind : ∀ v (c : C), Get (SetVersion v c) = ((Get c).1, SetVersion v (Get c).2);
  update_blind : ∀ v vs (c : C),
    Update vs (SetVersion v c) = ((Update vs c).1, SetVersion v (Update vs c).2);
  available_blind : ∀ v (c : C), IsAvailable (SetVersion v c) = IsAvailable c;
  key_blind : ∀ v (c : C), GetKey (SetVersion v c) = GetKey c;
  checkpoint_blind : ∀ v (c : C), Checkpoint (SetVersion v c) = Checkpoint c;
  copy_blind : ∀ v (c : C), Copy (SetVersion v c) = Copy c;
  restore_blind : ∀ v cp (c : C), FromCheckpoint cp (SetVersion v c) = FromCheckpoint cp c
}.

(** A channel whose state survives a checkpoint, in the states [ok]. *)
Class Persistent (C : Type) `{Channel C, Versioned C} (ok : C → Prop) : Prop :=
  restore_checkpoint : ∀ c : C, ok c → FromCheckpoint (Checkpoint c) c ≃ c.

(** Any state. *)
Definition always {C} (c : C) : Prop := True.

(** Restoring uses only the configuration of the channel (key, type, names,
    operator), which no operation changes. *)
Class ConfigStable (C : Type) `{Channel C} : Prop := {
  get_config : ∀ cp (c : C), FromCheckpoint cp (Get c).2 = FromCheckpoint cp c;
  update_config : ∀ cp vs (c : C), FromCheckpoint cp (Update vs c).2 = FromCheckpoint cp c;
  consume_config : ∀ cp (c : C), FromCheckpoint cp (Consume c).2 = FromCheckpoint cp c;
  finish_config : ∀ cp (c : C), FromCheckpoint cp (Finish c).2 = FromCheckpoint cp c;
  copy_config : ∀ cp (c : C), FromCheckpoint cp (Copy c) = FromCheckpoint cp c
}.

Section blind.
Context {C : Type} `{Channel C, Versioned C, !VersionBlind C}.

#[global] Instance get_proper : Proper (same_but_version ==> prod_relation eq same_but_version)
  (Get (C := C)).
Proof.
  intros c c' E. red in E. pose proof (get_blind 0 c). pose proof (get_blind 0 c').
  unfold same_but_version. split; simpl; congruence.
Qed.

#[global] Instance update_proper vs :
  Proper (same_but_version ==> prod_relation eq same_but_version) (Update (C := C) vs).
Proof.
  intros c c' E. red in E.
  pose proof (update_blind 0 vs c). pose proof (update_blind 0 vs c').
  unfold same_but_version. split; simpl; congruence.
Qed.

#[global] Instance available_proper : Proper (same_but_version ==> eq) (IsAvailable (C := C)).
Proof.
  intros c c' E. red in E. pose proof (available_blind 0 c). pose proof (available_blind 0 c').
  congruence.
Qed.

#[global] Instance checkpoint_proper : Proper (same_but_version ==> eq) (Checkpoint (C := C)).
Proof.
  intros c c' E. red in E. pose proof (checkpoint_blind 0 c).
  pose proof (checkpoint_blind 0 c'). congruence.
Qed.

#[global] Instance copy_proper : Proper (same_but_version ==> eq) (Copy (C := C)).
Proof.
  intros c c' E. red in E. pose proof (copy_blind 0 c). pose proof (copy_blind 0 c').
  congruence.
Qed.

#[global] Instance restore_proper cp :
  Proper (same_but_version ==> eq) (FromCheckpoint (C := C) cp).
Proof.
  intros c c' E. red in E. pose proof (restore_blind 0 cp c).
  pose proof (restore_blind 0 cp c'). congruence.
Qed.
End blind.

Ltac version_blind :=
  split; intros; destruct_channel; unfold_channel; simpl; case_all; done.

#[global] Instance LastValue_blind : VersionBlind LastValue.t.
Proof. version_blind. Qed.
#[global] Instance AnyValue_blind : VersionBlind AnyValue.t.
Proof. version_blind. Qed.
#[global] Instance EphemeralValue_blind : VersionBlind EphemeralValue.t.
Proof. version_blind. Qed.
#[global] Instance UntrackedValue_blind : VersionBlind UntrackedValue.t.
Proof. version_blind. Qed.
#[global] Instance Topic_blind : VersionBlind Topic.t.
Proof. version_blind. Qed.

Ltac config_stable :=
  split; intros; destruct_channel; unfold_channel; simpl; case_all; done.

#[global] Instance LastValue_config : ConfigStable LastValue.t.
Proof. config_stable. Qed.
#[global] Instance AnyValue_config : ConfigStable AnyValue.t.
Proof. config_stable. Qed.
#[global] Instance EphemeralValue_config : ConfigStable EphemeralValue.t.
Proof. config_stable. Qed.
#[global] Instance UntrackedValue_config : ConfigStable UntrackedValue.t.
Proof. config_stable. Qed.
#[global] Instance Topic_config : ConfigStable Topic.t.
Proof. config_stable. Qed.

Ltac value_persistent :=
  intros c _; destruct_channel; unfold same_but_version; unfold_channel;
  cbn -[IsMissing]; rewrite ?IsMissing_restore; done.

#[global] Instance LastValue_persistent : Persistent LastValue.t always.
Proof. value_persistent. Qed.
#[global] Instance AnyValue_persistent : Persistent AnyValue.t always.
Proof. value_persistent. Qed.
#[global] Instance EphemeralValue_persistent : Persistent EphemeralValue.t always.
Proof. value_persistent. Qed.
#[global] Instance Topic_persistent : Persistent Topic.t always.
Proof. intros [b [|v vs] a] _; done. Qed.
