(* ===== verification/Barriers.v ===== *)
(** * Barrier channels

    [internal/harness/graph/channels/barrier.go]: [NamedBarrierValue],
    [NamedBarrierValueAfterFinish] and [LastValueAfterFinish].  A
    [map[string]bool] used as a set stays a finite map to booleans, because a
    checkpoint may bring back an entry that is [false].  The mutex makes every
    method atomic, so a method is one function of the state. *)

From S2P Require Export Channels.

(** [make(map[string]bool)] filled with [names[name] = true]. *)
Definition name_set (waitFor : list string) : gmap string bool :=
  foldl (λ m n, <[n := true]> m) ∅ waitFor.

(** [m[k]] of a [map[string]bool]: false when absent. *)
Definition bool_get (m : gmap string bool) (k : string) : bool := default false (m !! k).

(** The boolean entries of a [map[string]bool] or [map[string]interface{}]. *)
Definition bool_entries (m : gmap string val) : gmap string bool := omap as_bool m.

(** [%v] of a [map[string]bool]: keys in order. *)
Definition fmt_bool_map (m : gmap string bool) : string :=
  "map[" +:+
  join_with " " ((λ k, k +:+ ":" +:+ (if bool_get m k then "true" else "false"))
                 <$> sort_strings ((map_to_list m).*1)) +:+ "]".

(** [namesMatchSeen], the same code in both barrier types. *)
Definition namesMatchSeen (names seen : gmap string bool) : bool :=
  if decide (size names ≠ size seen) then false
  else bool_decide (map_Forall (λ name _, bool_get seen name = true) names).

(** The loop of [Update], the same code in both barrier types: it stops at
    the first bad value and keeps what was seen before it. *)
Fixpoint receive_names (names : gmap string bool) (values : list val)
    (seen : gmap string bool) (updated : bool) : res bool * gmap string bool :=
  match values with
  | [] => (Ok updated, seen)
  | v :: values' =>
      match as_string v with
      | None => (Err (InvalidUpdateError ("value must be a string, got " +:+ fmt_T v)), seen)
      | Some name =>
          match names !! name with
          | Some _ =>
              if bool_get seen name then receive_names names values' seen updated
              else receive_names names values' (<[name := true]> seen) true
          | None =>
              (Err (InvalidUpdateError ("value '" +:+ name +:+ "' not in expected names "
                                        +:+ fmt_bool_map names)), seen)
          end
      end
  end.

(** The type switch that reads [seen] back from a checkpoint: a live
    [map[string]bool] or, after JSON, a [map[string]interface{}]. *)
Definition seen_of_checkpoint (v : val) : gmap string bool :=
  match as_bool_map v with
  | Some m => bool_entries m
  | None => match as_map v with Some m => bool_entries m | None => ∅ end
  end.

(** ** NamedBarrierValue *)
Module NamedBarrierValue.
Record t := Mk { base : BaseChannel.t; names : gmap string bool; seen : gmap string bool }.

Definition New (typ : val) (waitFor : list string) : t :=
  Mk (BaseChannel.New typ) (name_set waitFor) ∅.

Definition Get (c : t) : res val * t :=
  if negb (namesMatchSeen (names c) (seen c)) then (Err empty_channel, c) else (Ok VNil, c).

Definition IsAvailable (c : t) : bool := namesMatchSeen (names c) (seen c).

Definition Update (values : list val) (c : t) : res bool * t :=
  match values with
  | [] => (Ok false, c)
  | _ =>
      let '(r, seen') := receive_names (names c) values (seen c) false in
      (r, Mk (base c) (names c) seen')
  end.

Definition Copy (c : t) : t := Mk (BaseChannel.renew (base c)) (names c) (seen c).

Definition Checkpoint (c : t) : val :=
  if decide (size (seen c) = 0) then Missing else VMap TBool (VBool <$> seen c).

Definition FromCheckpoint (checkpoint : val) (c : t) : t :=
  Mk (BaseChannel.renew (base c)) (names c)
     (if negb (is_nil checkpoint) && negb (IsMissing checkpoint)
      then seen_of_checkpoint checkpoint else ∅).

Definition Finish (c : t) : bool * t :=
  if decide (0 < size (seen c)) then (true, Mk (base c) (names c) ∅) else (false, c).

Definition Consume (c : t) : bool * t :=
  if namesMatchSeen (names c) (seen c) && bool_decide (0 < size (seen c))
  then (true, Mk (base c) (names c) ∅) else (false, c).
End NamedBarrierValue.

#[global] Instance NamedBarrierValue_channel : Channel NamedBarrierValue.t := {
  GetKey c := BaseChannel.GetKey (NamedBarrierValue.base c);
  SetKey k c := NamedBarrierValue.Mk (BaseChannel.SetKey k (NamedBarrierValue.base c))
                  (NamedBarrierValue.names c) (NamedBarrierValue.seen c);
  Get := NamedBarrierValue.Get;
  IsAvailable := NamedBarrierValue.IsAvailable;
  Update := NamedBarrierValue.Update;
  Copy := NamedBarrierValue.Copy;
  Checkpoint := NamedBarrierValue.Checkpoint;
  FromCheckpoint := NamedBarrierValue.FromCheckpoint;
  Consume := NamedBarrierValue.Consume;
  Finish := NamedBarrierValue.Finish;
  GetVersion c := BaseChannel.GetVersion (NamedBarrierValue.base c)
}.
#[global] Instance NamedBarrierValue_versioned : Versioned NamedBarrierValue.t := {
  SetVersion v c := NamedBarrierValue.Mk (BaseChannel.SetVersion v (NamedBarrierValue.base c))
                      (NamedBarrierValue.names c) (NamedBarrierValue.seen c)
}.

(** ** NamedBarrierValueAfterFinish

    [Checkpoint] puts the live [seen] map into its result where
    [NamedBarrierValue.Checkpoint] copies it; the model takes its contents at
    the time of the call. *)
Module NamedBarrierValueAfterFinish.
Record t := Mk { base : BaseChannel.t; names : gmap string bool; seen : gmap string bool;
                 finished : bool }.

Definition New (typ : val) (waitFor : list string) : t :=
  Mk (BaseChannel.New typ) (name_set waitFor) ∅ false.

Definition Get (c : t) : res val * t :=
  if negb (finished c) || negb (namesMatchSeen (names c) (seen c))
  then (Err empty_channel, c) else (Ok VNil, c).

Definition IsAvailable (c : t) : bool := finished c && namesMatchSeen (names c) (seen c).

Definition Update (values : list val) (c : t) : res bool * t :=
  match values with
  | [] => (Ok false, c)
  | _ =>
      let '(r, seen') := receive_names (names c) values (seen c) false in
      (r, Mk (base c) (names c) seen' (finished c))
  end.

Definition Copy (c : t) : t :=
  Mk (BaseChannel.renew (base c)) (names c) (seen c) (finished c).

Definition Checkpoint (c : t) : val :=
  if bool_decide (size (seen c) = 0) && negb (finished c) then Missing
  else VObj {[ "seen" := VMap TBool (VBool <$> seen c); "finished" := VBool (finished c) ]}.

Definition FromCheckpoint (checkpoint : val) (c : t) : t :=
  let b := BaseChannel.renew (base c) in
  if negb (is_nil checkpoint) && negb (IsMissing checkpoint) then
    match as_map checkpoint with
    | Some cp =>
        Mk b (names c) (seen_of_checkpoint (map_get cp "seen"))
           (match as_bool (map_get cp "finished") with Some f => f | None => false end)
    | None => Mk b (names c) ∅ false
    end
  else Mk b (names c) ∅ false.

Definition Finish (c : t) : bool * t :=
  if negb (finished c) && namesMatchSeen (names c) (seen c)
  then (true, Mk (base c) (names c) (seen c) true) else (false, c).

Definition Consume (c : t) : bool * t :=
  if finished c && namesMatchSeen (names c) (seen c) && bool_decide (0 < size (seen c))
  then (true, Mk (base c) (names c) ∅ false) else (false, c).
End NamedBarrierValueAfterFinish.

#[global] Instance NamedBarrierValueAfterFinish_channel :
    Channel NamedBarrierValueAfterFinish.t := {
  GetKey c := BaseChannel.GetKey (NamedBarrierValueAfterFinish.base c);
  SetKey k c := NamedBarrierValueAfterFinish.Mk
                  (BaseChannel.SetKey k (NamedBarrierValueAfterFinish.base c))
                  (NamedBarrierValueAfterFinish.names c) (NamedBarrierValueAfterFinish.seen c)
                  (NamedBarrierValueAfterFinish.finished c);
  Get := NamedBarrierValueAfterFinish.Get;
  IsAvailable := NamedBarrierValueAfterFinish.IsAvailable;
  Update := NamedBarrierValueAfterFinish.Update;
  Copy := NamedBarrierValueAfterFinish.Copy;
  Checkpoint := NamedBarrierValueAfterFinish.Checkpoint;
  FromCheckpoint := NamedBarrierValueAfterFinish.FromCheckpoint;
  Consume := NamedBarrierValueAfterFinish.Consume;
  Finish := NamedBarrierValueAfterFinish.Finish;
  GetVersion c := BaseChannel.GetVersion (NamedBarrierValueAfterFinish.base c)
}.
#[global] Instance NamedBarrierValueAfterFinish_versioned :
    Versioned NamedBarrierValueAfterFinish.t := {
  SetVersion v c := NamedBarrierValueAfterFinish.Mk
                      (BaseChannel.SetVersion v (NamedBarrierValueAfterFinish.base c))
                      (NamedBarrierValueAfterFinish.names c)
                      (NamedBarrierValueAfterFinish.seen c)
                      (NamedBarrierValueAfterFinish.finished c)
}.

(** ** LastValueAfterFinish *)
Module LastValueAfterFinish.
Record t := Mk { base : BaseChannel.t; value : val; finished : bool }.

Definition New (typ : val) : t := Mk (BaseChannel.New typ) Missing false.

Definition Get (c : t) : res val * t :=
  if negb (finished c) then (Err empty_channel, c)
  else if IsMissing (value c) then (Err empty_channel, c)
  else (Ok (value c), c).

Definition IsAvailable (c : t) : bool := finished c && negb (IsMissing (value c)).

Definition Update (values : list val) (c : t) : res bool * t :=
  match values with
  | [] => (Ok false, c)
  | [v] => (Ok true, Mk (base c) v (finished c))
  | _ :: _ :: _ =>
      (Err (InvalidUpdateError
         "Can receive only one value per step. Use a reducer to handle multiple values."), c)
  end.

Definition Copy (c : t) : t := Mk (BaseChannel.renew (base c)) (value c) (finished c).

Definition Checkpoint (c : t) : val := value c.

Definition FromCheckpoint (checkpoint : val) (c : t) : t :=
  Mk (BaseChannel.renew (base c)) (if IsMissing checkpoint then Missing else checkpoint) false.

Definition Finish (c : t) : bool * t :=
  if negb (finished c) then (true, Mk (base c) (value c) true) else (false, c).

Definition Consume (c : t) : bool * t := (false, c).
End LastValueAfterFinish.

#[global] Instance LastValueAfterFinish_channel : Channel LastValueAfterFinish.t := {
  GetKey c := BaseChannel.GetKey (LastValueAfterFinish.base c);
  SetKey k c := LastValueAfterFinish.Mk (BaseChannel.SetKey k (LastValueAfterFinish.base c))
                  (LastValueAfterFinish.value c) (LastValueAfterFinish.finished c);
  Get := LastValueAfterFinish.Get;
  IsAvailable := LastValueAfterFinish.IsAvailable;
  Update := LastValueAfterFinish.Update;
  Copy := LastValueAfterFinish.Copy;
  Checkpoint := LastValueAfterFinish.Checkpoint;
  FromCheckpoint := LastValueAfterFinish.FromCheckpoint;
  Consume := LastValueAfterFinish.Consume;
  Finish := LastValueAfterFinish.Finish;
  GetVersion c := BaseChannel.GetVersion (LastValueAfterFinish.base c)
}.
#[global] Instance LastValueAfterFinish_versioned : Versioned LastValueAfterFinish.t := {
  SetVersion v c := LastValueAfterFinish.Mk
                      (BaseChannel.SetVersion v (LastValueAfterFinish.base c))
                      (LastValueAfterFinish.value c) (LastValueAfterFinish.finished c)
}.

(** ** The laws hold of the barrier channels *)

Ltac destruct_barrier :=
  repeat match goal with
  | c : NamedBarrierValue.t |- _ => destruct c
  | c : NamedBarrierValueAfterFinish.t |- _ => destruct c
  | c : LastValueAfterFinish.t |- _ => destruct c
  end.

Ltac unfold_barrier :=
  unfold_channel;
  cbv [NamedBarrierValue_channel NamedBarrierValueAfterFinish_channel LastValueAfterFinish_channel
       NamedBarrierValue_versioned NamedBarrierValueAfterFinish_versioned
       LastValueAfterFinish_versioned SetVersion
       Get Update IsAvailable Copy Checkpoint FromCheckpoint Consume Finish GetKey SetKey
       GetVersion BaseChannel.GetKey BaseChannel.SetKey BaseChannel.SetVersion BaseChannel.New
       BaseChannel.renew
       NamedBarrierValue.Get NamedBarrierValue.Update NamedBarrierValue.IsAvailable
       NamedBarrierValue.Copy NamedBarrierValue.Checkpoint NamedBarrierValue.FromCheckpoint
       NamedBarrierValue.Consume NamedBarrierValue.Finish
       NamedBarrierValueAfterFinish.Get NamedBarrierValueAfterFinish.Update
       NamedBarrierValueAfterFinish.IsAvailable NamedBarrierValueAfterFinish.Copy
       NamedBarrierValueAfterFinish.Checkpoint NamedBarrierValueAfterFinish.FromCheckpoint
       NamedBarrierValueAfterFinish.Consume NamedBarrierValueAfterFinish.Finish
       LastValueAfterFinish.Get LastValueAfterFinish.Update LastValueAfterFinish.IsAvailable
       LastValueAfterFinish.Copy LastValueAfterFinish.Checkpoint
       LastValueAfterFinish.FromCheckpoint LastValueAfterFinish.Consume
       LastValueAfterFinish.Finish] in *.

(** A rejected name is reported as an invalid update. *)
Lemma receive_names_err names vs seen u e seen' :
  receive_names names vs seen u = (Err e, seen') → IsInvalidUpdateError e = true.
Proof.
  revert seen u. induction vs as [|v vs IH]; intros seen u; simpl; [done|].
  case_all; naive_solver.
Qed.
#[export] Hint Resolve receive_names_err : harness.

Ltac barrier_laws :=
  split; intros; destruct_barrier; unfold_barrier; simpl in *; case_all; bool_hyps;
  try done; split_and?; eauto with harness; congruence.

#[global] Instance NamedBarrierValue_laws : ChannelLaws NamedBarrierValue.t.
Proof. barrier_laws. Qed.
#[global] Instance NamedBarrierValueAfterFinish_laws : ChannelLaws NamedBarrierValueAfterFinish.t.
Proof. barrier_laws. Qed.
#[global] Instance LastValueAfterFinish_laws : ChannelLaws LastValueAfterFinish.t.
Proof. barrier_laws. Qed.

Ltac barrier_blind :=
  split; intros; destruct_barrier; unfold_barrier; simpl; case_all; done.

#[global] Instance NamedBarrierValue_blind : VersionBlind NamedBarrierValue.t.
Proof. barrier_blind. Qed.
#[global] Instance NamedBarrierValueAfterFinish_blind : VersionBlind NamedBarrierValueAfterFinish.t.
Proof. barrier_blind. Qed.
#[global] Instance LastValueAfterFinish_blind : VersionBlind LastValueAfterFinish.t.
Proof. barrier_blind. Qed.

Ltac barrier_config :=
  split; intros; destruct_barrier; unfold_barrier; simpl; case_all; done.

#[global] Instance NamedBarrierValue_config : ConfigStable NamedBarrierValue.t.
Proof. barrier_config. Qed.
#[global] Instance NamedBarrierValueAfterFinish_config :
  ConfigStable NamedBarrierValueAfterFinish.t.
Proof. barrier_config. Qed.
#[global] Instance LastValueAfterFinish_config : ConfigStable LastValueAfterFinish.t.
Proof. barrier_config. Qed.

(** ** Checkpoints *)

Lemma bool_entries_fmap m : bool_entries (VBool <$> m) = m.
Proof.
  unfold bool_entries. apply map_eq. intros k. rewrite lookup_omap, lookup_fmap.
  by destruct (m !! k).
Qed.

Lemma seen_of_checkpoint_live m : seen_of_checkpoint (VMap TBool (VBool <$> m)) = m.
Proof. apply bool_entries_fmap. Qed.

(** The same map after a JSON round trip. *)
Lemma seen_of_checkpoint_json m : seen_of_checkpoint (VObj (VBool <$> m)) = m.
Proof. apply bool_entries_fmap. Qed.

#[global] Instance NamedBarrierValue_persistent : Persistent NamedBarrierValue.t always.
Proof.
  intros c _. destruct_barrier. unfold same_but_version. unfold_barrier. simpl.
  case_decide as Hs; simpl; [by apply map_size_empty_inv in Hs as ->|].
  by rewrite seen_of_checkpoint_live.
Qed.

#[global] Instance NamedBarrierValueAfterFinish_persistent :
  Persistent NamedBarrierValueAfterFinish.t always.
Proof.
  intros c _. destruct_barrier. unfold same_but_version. unfold_barrier. simpl.
  case_bool_decide as Hs; destruct finished; cbn [negb andb is_nil IsMissing as_map];
    autorewrite with harness; rewrite ?seen_of_checkpoint_live; try done.
  by apply map_size_empty_inv in Hs as ->.
Qed.

(** ** The abstract barrier

    What a barrier promises: a set of awaited names and the set of those
    received since the last reset.  A step answers with the boolean the method
    returns, or nothing when the update is rejected, and with the
    availability afterwards. *)
Module Spec.
Record state := Mk { awaited : gset string; received : gset string; finished : bool }.

Inductive op :=
| OUpdate (values : list val)
| OConsume
| OFinish.

Definition init (waitFor : list string) : state := Mk (list_to_set waitFor) ∅ false.

(** Receiving stops at the first value that is not an awaited name. *)
Fixpoint receive (values : list val) (s : state) (updated : bool) : option bool * state :=
  match values with
  | [] => (Some updated, s)
  | v :: values' =>
      match as_string v with
      | Some n =>
          if decide (n ∈ awaited s) then
            receive values' (Mk (awaited s) ({[n]} ∪ received s) (finished s))
                    (updated || bool_decide (n ∉ received s))
          else (None, s)
      | None => (None, s)
      end
  end.

Definition complete (s : state) : bool := bool_decide (received s = awaited s).
Definition reset (s : state) : state := Mk (awaited s) ∅ false.

(** The plain barrier: available as soon as it is complete. *)
Definition step (o : op) (s : state) : option bool * state :=
  match o with
  | OUpdate vs => receive vs s false
  | OConsume =>
      if complete s && bool_decide (received s ≠ ∅) then (Some true, reset s)
      else (Some false, s)
  | OFinish => if decide (received s = ∅) then (Some false, s) else (Some true, reset s)
  end.
Definition available (s : state) : bool := complete s.

(** The barrier that opens only once the run finishes. *)
Definition step_after (o : op) (s : state) : option bool * state :=
  match o with
  | OUpdate vs => receive vs s false
  | OConsume =>
      if finished s && complete s && bool_decide (received s ≠ ∅) then (Some true, reset s)
      else (Some false, s)
  | OFinish =>
      if negb (finished s) && complete s
      then (Some true, Mk (awaited s) (received s) true) else (Some false, s)
  end.
Definition available_after (s : state) : bool := finished s && complete s.

(** The observations of a run. *)
Fixpoint run {S} (st : op → S → option bool * S) (av : S → bool) (ops : list op) (s : S)
  : list (option bool * bool) :=
  match ops with
  | [] => []
  | o :: ops' => let '(r, s') := st o s in (r, av s') :: run st av ops' s'
  end.
End Spec.

(** One step of a barrier channel, through the interface. *)
Definition barrier_step {C} `{Channel C} (o : Spec.op) (c : C) : option bool * C :=
  match o with
  | Spec.OUpdate vs =>
      let '(r, c') := Update vs c in
      (match r with Ok b => Some b | Err _ => None end, c')
  | Spec.OConsume => let '(b, c') := Consume c in (Some b, c')
  | Spec.OFinish => let '(b, c') := Finish c in (Some b, c')
  end.

(** The map a set of names is stored as. *)
Abbreviation set_map X := (gset_to_gmap true (X : gset string)).

Lemma name_set_spec waitFor : name_set waitFor = set_map (list_to_set waitFor).
Proof.
  enough (∀ X, foldl (λ m n, <[n := true]> m) (set_map X) waitFor
               = set_map (list_to_set waitFor ∪ X)) as H.
  { unfold name_set. rewrite <-(gset_to_gmap_empty true), H.
    f_equal. set_solver. }
  induction waitFor as [|n ns IH]; intros X; simpl.
  - f_equal. set_solver.
  - rewrite <-gset_to_gmap_union_singleton, IH. f_equal. set_solver.
Qed.

Lemma set_map_lookup X k : set_map X !! k = if decide (k ∈ X) then Some true else None.
Proof.
  case_decide; [by apply lookup_gset_to_gmap_Some|by apply lookup_gset_to_gmap_None].
Qed.

Lemma size_set_map X : size (set_map X) = size X.
Proof. by rewrite <-(size_dom (D:=gset string)), dom_gset_to_gmap. Qed.

(** On sets of names, matching is equality. *)
Lemma namesMatchSeen_sets W R :
  R ⊆ W → namesMatchSeen (set_map W) (set_map R) = bool_decide (R = W).
Proof.
  intros Hsub. unfold namesMatchSeen. rewrite !size_set_map.
  case_decide as Hs; apply eq_sym.
  - apply bool_decide_eq_false. congruence.
  - apply bool_decide_ext. split.
    + intros -> k b. unfold bool_get. rewrite set_map_lookup. by case_decide.
    + intros _. apply set_subseteq_size_eq; [done|lia].
Qed.

Definition outcome {A} (r : res A) : option A :=
  match r with Ok a => Some a | Err _ => None end.

(** The loop of [Update] computes the abstract receive. *)
Lemma receive_names_spec W f vs : ∀ R u,
  R ⊆ W →
  ∃ R', R' ⊆ W ∧
    outcome (receive_names (set_map W) vs (set_map R) u).1
      = (Spec.receive vs (Spec.Mk W R f) u).1 ∧
    (receive_names (set_map W) vs (set_map R) u).2 = set_map R' ∧
    (Spec.receive vs (Spec.Mk W R f) u).2 = Spec.Mk W R' f.
Proof.
  induction vs as [|v vs IH]; intros R u HR; simpl; [by exists R|].
  destruct (as_string v) as [n|]; simpl; [|by exists R].
  rewrite set_map_lookup. case_decide as Hn; simpl; [|by exists R].
  unfold bool_get. rewrite set_map_lookup. case_decide as Hr; simpl.
  - rewrite bool_decide_eq_false_2, orb_false_r by tauto.
    replace ({[n]} ∪ R) with R by set_solver. by apply IH.
  - rewrite bool_decide_eq_true_2, orb_true_r by done.
    rewrite <-gset_to_gmap_union_singleton. apply IH. set_solver.
Qed.

(** A plain barrier in the state of an abstract one. *)
Definition implements (c : NamedBarrierValue.t) (s : Spec.state) : Prop :=
  NamedBarrierValue.names c = set_map (Spec.awaited s) ∧
  NamedBarrierValue.seen c = set_map (Spec.received s) ∧
  Spec.received s ⊆ Spec.awaited s.

Definition implements_after (c : NamedBarrierValueAfterFinish.t) (s : Spec.state) : Prop :=
  NamedBarrierValueAfterFinish.names c = set_map (Spec.awaited s) ∧
  NamedBarrierValueAfterFinish.seen c = set_map (Spec.received s) ∧
  NamedBarrierValueAfterFinish.finished c = Spec.finished s ∧
  Spec.received s ⊆ Spec.awaited s.

Lemma size_pos_nonempty (X : gset string) : 0 < size X ↔ X ≠ ∅.
Proof.
  split; [intros H ->; rewrite size_empty in H; lia|intros H].
  destruct (decide (size X = 0)) as [E|]; [apply size_empty_inv in E; set_solver|lia].
Qed.

Lemma implements_available c s :
  implements c s → NamedBarrierValue.IsAvailable c = Spec.available s.
Proof.
  intros (Hn & Hs & Hsub). unfold NamedBarrierValue.IsAvailable.
  rewrite Hn, Hs. by apply namesMatchSeen_sets.
Qed.

Lemma implements_available_after c s :
  implements_after c s →
  NamedBarrierValueAfterFinish.IsAvailable c = Spec.available_after s.
Proof.
  intros (Hn & Hs & Hf & Hsub). unfold NamedBarrierValueAfterFinish.IsAvailable.
  rewrite Hn, Hs, Hf. by rewrite namesMatchSeen_sets.
Qed.

(** The test for an empty update is redundant: the loop would do nothing. *)
Lemma barrier_Update_loop vs b names seen :
  NamedBarrierValue.Update vs (NamedBarrierValue.Mk b names seen) =
  let '(r, seen') := receive_names names vs seen false in
  (r, NamedBarrierValue.Mk b names seen').
Proof. by destruct vs. Qed.

Lemma barrier_after_Update_loop vs b names seen fin :
  NamedBarrierValueAfterFinish.Update vs (NamedBarrierValueAfterFinish.Mk b names seen fin) =
  let '(r, seen') := receive_names names vs seen false in
  (r, NamedBarrierValueAfterFinish.Mk b names seen' fin).
Proof. by destruct vs. Qed.

(** Each step of the channel is a step of the abstract barrier. *)
Lemma step_implements o c s :
  implements c s →
  (barrier_step o c).1 = (Spec.step o s).1 ∧ implements (barrier_step o c).2 (Spec.step o s).2.
Proof.
  intros Hi. pose proof (implements_available _ _ Hi) as Hav.
  destruct Hi as (Hn & Hs & Hsub), s as [W R f], c as [b names seen]; simpl in *; subst.
  destruct o as [vs| |]; simpl.
  - rewrite barrier_Update_loop.
    destruct (receive_names_spec W f vs R false Hsub) as (R' & Hsub' & Ho & Hs' & Hr).
    destruct (receive_names _ _ _ _) as [r seen'], (Spec.receive _ _ _) as [o s'].
    simpl in *. subst. split; [by destruct r|done].
  - unfold NamedBarrierValue.Consume, Spec.available in *; simpl in *.
    rewrite size_set_map, (bool_decide_ext _ _ (size_pos_nonempty R)).
    unfold NamedBarrierValue.IsAvailable in Hav; simpl in Hav. rewrite Hav.
    destruct (_ && _); split_and!; simpl; rewrite ?gset_to_gmap_empty; first [done|set_solver].
  - unfold NamedBarrierValue.Finish; simpl. rewrite size_set_map.
    pose proof (size_pos_nonempty R). do 2 case_decide; try tauto; split_and!; simpl;
      rewrite ?gset_to_gmap_empty; first [done|set_solver].
Qed.

Lemma step_implements_after o c s :
  implements_after c s →
  (barrier_step o c).1 = (Spec.step_after o s).1 ∧
  implements_after (barrier_step o c).2 (Spec.step_after o s).2.
Proof.
  intros (Hn & Hs & Hf & Hsub); destruct s as [W R f], c as [b names seen fin]; simpl in *; subst.
  pose proof (namesMatchSeen_sets _ _ Hsub) as Hm.
  destruct o as [vs| |]; simpl.
  - rewrite barrier_after_Update_loop.
    destruct (receive_names_spec W f vs R false Hsub) as (R' & Hsub' & Ho & Hs' & Hr).
    destruct (receive_names _ _ _ _) as [r seen'], (Spec.receive _ _ _) as [o s'].
    simpl in *. subst. split; [by destruct r|done].
  - unfold NamedBarrierValueAfterFinish.Consume; simpl in *.
    rewrite size_set_map, (bool_decide_ext _ _ (size_pos_nonempty R)), Hm.
    unfold Spec.complete; simpl.
    destruct (_ && _); split_and!; simpl; rewrite ?gset_to_gmap_empty; first [done|set_solver].
  - unfold NamedBarrierValueAfterFinish.Finish, Spec.complete; simpl. rewrite Hm.
    by destruct (_ && _).
Qed.

Lemma run_implements ops : ∀ c s,
  implements c s →
  Spec.run barrier_step NamedBarrierValue.IsAvailable ops c
  = Spec.run Spec.step Spec.available ops s.
Proof.
  induction ops as [|o ops IH]; intros c s Hi; simpl; [done|].
  destruct (step_implements o c s Hi) as [Ho Hi'].
  destruct (barrier_step o c), (Spec.step o s); simpl in *. subst.
  by rewrite (implements_available _ _ Hi'), (IH _ _ Hi').
Qed.

Lemma run_implements_after ops : ∀ c s,
  implements_after c s →
  Spec.run barrier_step NamedBarrierValueAfterFinish.IsAvailable ops c
  = Spec.run Spec.step_after Spec.available_after ops s.
Proof.
  induction ops as [|o ops IH]; intros c s Hi; simpl; [done|].
  destruct (step_implements_after o c s Hi) as [Ho Hi'].
  destruct (barrier_step o c), (Spec.step_after o s); simpl in *. subst.
  by rewrite (implements_available_after _ _ Hi'), (IH _ _ Hi').
Qed.

Lemma New_implements typ waitFor :
  implements (NamedBarrierValue.New typ waitFor) (Spec.init waitFor).
Proof.
  split_and!; simpl; [apply name_set_spec| |set_solver]. by rewrite gset_to_gmap_empty.
Qed.

Lemma New_implements_after typ waitFor :
  implements_after (NamedBarrierValueAfterFinish.New typ waitFor) (Spec.init waitFor).
Proof.
  split_and!; simpl; [apply name_set_spec| |done|set_solver]. by rewrite gset_to_gmap_empty.
Qed.

(** ** Properties *)

(** C6: [NamedBarrierValue] refines the abstract barrier: for any sequence of
    updates (accepted or rejected), consumes and finishes on a new channel,
    each call returns what the abstract barrier returns and leaves the channel
    available exactly when the set of received names is the set of awaited
    ones. *)
Theorem barrier_refines (typ : val) (waitFor : list string) (ops : list Spec.op) :
  Spec.run barrier_step NamedBarrierValue.IsAvailable ops (NamedBarrierValue.New typ waitFor)
  = Spec.run Spec.step Spec.available ops (Spec.init waitFor).
Proof. apply run_implements, New_implements. Qed.

(** [NamedBarrierValueAfterFinish] refines the abstract barrier that opens
    only when [Finish] is called on a complete barrier and closes again when it
    is consumed. *)
Theorem barrier_after_finish_refines (typ : val) (waitFor : list string) (ops : list Spec.op) :
  Spec.run barrier_step NamedBarrierValueAfterFinish.IsAvailable ops
    (NamedBarrierValueAfterFinish.New typ waitFor)
  = Spec.run Spec.step_after Spec.available_after ops (Spec.init waitFor).
Proof. apply run_implements_after, New_implements_after. Qed.

(** The names a sequence of accepted updates leaves received. *)
Lemma receive_accepted vs : ∀ s u b s',
  Spec.receive vs s u = (Some b, s') →
  Spec.awaited s' = Spec.awaited s ∧ Spec.finished s' = Spec.finished s ∧
  ∀ n, n ∈ Spec.received s' ↔ n ∈ Spec.received s ∨ VStr n ∈ vs.
Proof.
  induction vs as [|v vs IH]; intros s u b s'; simpl.
  - intros [= _ ->]. split_and!; [done|done|]. intros n. rewrite elem_of_nil. tauto.
  - destruct (as_string v) as [n|] eqn:Hv; [|done]. case_decide; [|done].
    intros H'. apply IH in H' as (Ha & Hf & Hr); simpl in *. split_and!; [done|done|].
    intros m. rewrite Hr, elem_of_cons, elem_of_union, elem_of_singleton.
    assert (v = VStr n) as -> by (by destruct v; simplify_eq/=). naive_solver.
Qed.

(** Feeding updates one after the other, [None] once one is rejected. *)
Fixpoint feed {C} `{Channel C} (upds : list (list val)) (c : C) : option C :=
  match upds with
  | [] => Some c
  | vs :: upds' => match Update vs c with (Ok _, c') => feed upds' c' | (Err _, _) => None end
  end.

Lemma feed_implements upds : ∀ c s c',
  implements c s → feed upds c = Some c' →
  ∃ s', implements c' s' ∧ Spec.awaited s' = Spec.awaited s ∧
    ∀ n, n ∈ Spec.received s' ↔ n ∈ Spec.received s ∨ VStr n ∈ concat upds.
Proof.
  induction upds as [|vs upds IH]; intros c s c' Hi; cbn [feed].
  - intros [= <-]. exists s. split_and!; [done|done|]. intros n. simpl. rewrite elem_of_nil. tauto.
  - destruct (step_implements (Spec.OUpdate vs) c s Hi) as [Ho Hi']. cbn [barrier_step] in *.
    destruct (Update vs c) as [[b|e] c1]; simpl in *; [|done].
    destruct (Spec.receive vs s false) as [o s1] eqn:Hr; simpl in *. subst.
    apply receive_accepted in Hr as (Ha & _ & Hrec).
    intros H'. destruct (IH _ _ _ Hi' H') as (s' & ? & Ha' & Hrec').
    exists s'. split_and!; [done|congruence|].
    intros n. rewrite Hrec', Hrec, elem_of_app. tauto.
Qed.

(** The readiness of a barrier depends only on which names were received:
    after any sequence of accepted updates a new barrier is available if and
    only if every awaited name occurs in some update, whatever the order, the
    batching and the repetitions. *)
Theorem barrier_ready typ waitFor upds c
    (H : feed upds (NamedBarrierValue.New typ waitFor) = Some c) :
  NamedBarrierValue.IsAvailable c = true ↔ Forall (λ n, VStr n ∈ concat upds) waitFor.
Proof.
  destruct (feed_implements _ _ _ _ (New_implements typ waitFor) H) as (s & Hi & Ha & Hr).
  rewrite (implements_available _ _ Hi). unfold Spec.available, Spec.complete.
  rewrite bool_decide_eq_true, Forall_forall. simpl in *. rewrite Ha.
  destruct Hi as (_ & _ & Hsub). rewrite Ha in Hsub. split.
  - intros E n Hn. destruct (proj1 (Hr n)) as [?|?]; [|set_solver|done].
    rewrite E. by apply elem_of_list_to_set.
  - intros Hall. apply set_eq. intros n. split; [by apply Hsub|].
    intros Hn%elem_of_list_to_set. apply Hr. right. by apply Hall.
Qed.

Lemma barrier_ready_witness :
  ∃ c, feed [[VStr "b"]; [VStr "a"; VStr "b"]] (NamedBarrierValue.New VNil ["a"; "b"]) = Some c
       ∧ NamedBarrierValue.IsAvailable c = true.
Proof.
  eexists. split; [reflexivity|].
  eapply (proj2 (barrier_ready VNil ["a"; "b"] [[VStr "b"]; [VStr "a"; VStr "b"]] _ eq_refl)).
  repeat constructor.
Defined.
