(* ===== verification/Aggregates.v ===== *)
(** * Aggregating channels and reducers

    [internal/harness/graph/channels/binop.go] and the built-in reducers of
    reducer.go: [BinaryOperatorAggregate] folds every update into its value
    with a binary operator, unless the update is an overwrite. *)

From S2P Require Export Channels Format.

Definition BinaryOperator := val → val → val.
Definition ReducerFunc := val → val → val.

(** The key of the overwrite map, [constants.Overwrite]. *)
Definition Overwrite_key : string := "__overwrite__".

(** [createZeroValue]: the initial value of an aggregate, from a sample value
    of the channel's type; the pointed-to type when the sample is a pointer. *)
Definition createZeroValue (typ : val) : val :=
  match typeof typ with
  | None => Missing
  | Some rt =>
      match rt with
      | TSlice TAny => VSlice TAny []
      | TMap TAny => VMap TAny ∅
      | _ =>
          let rt := match rt with TPtr e => e | _ => rt end in
          match rt with
          | TSlice (TNum Uint8) => VBytes ""
          | TSlice e => VSlice e []
          | TMap e => VMap e ∅
          | _ => zero_of rt
          end
      end
  end.

(** [isOverwrite]: no type of the module has a [GetValue] method, so the
    interface case never applies and only the one-key map does. *)
Definition isOverwrite (value : val) : option val :=
  if is_nil value then None
  else match as_map value with
       | Some m => if decide (size m = 1) then m !! Overwrite_key else None
       | None => None
       end.

(** ** BinaryOperatorAggregate *)
Module BinaryOperatorAggregate.
Record t := Mk { base : BaseChannel.t; value : val; operator : BinaryOperator }.

Definition New (typ : val) (operator : BinaryOperator) : t :=
  Mk (BaseChannel.New typ) (createZeroValue typ) operator.

Definition Get (c : t) : res val * t :=
  if IsMissing (value c) then (Err empty_channel, c) else (Ok (value c), c).

Definition IsAvailable (c : t) : bool := negb (IsMissing (value c)).

(** The loop of [Update]; the value reached is kept on error. *)
Fixpoint fold_values (operator : BinaryOperator) (values : list val) (seenOverwrite : bool)
    (value : val) : res bool * val :=
  match values with
  | [] => (Ok true, value)
  | v :: values' =>
      match isOverwrite v with
      | Some w =>
          if seenOverwrite then
            (Err (InvalidUpdateError "Can receive only one Overwrite value per super-step."),
             value)
          else fold_values operator values' true w
      | None =>
          if seenOverwrite then fold_values operator values' seenOverwrite value
          else fold_values operator values' seenOverwrite (operator value v)
      end
  end.

Definition Update (values : list val) (c : t) : res bool * t :=
  match values with
  | [] => (Ok false, c)
  | v :: values' =>
      let '(r, value') :=
        if IsMissing (value c) then fold_values (operator c) values' false v
        else fold_values (operator c) values false (value c) in
      (r, Mk (base c) value' (operator c))
  end.

Definition Copy (c : t) : t := Mk (BaseChannel.renew (base c)) (value c) (operator c).

Definition Checkpoint (c : t) : val := value c.

Definition FromCheckpoint (checkpoint : val) (c : t) : t :=
  Mk (BaseChannel.renew (base c))
     (if IsMissing checkpoint then createZeroValue (BaseChannel.Typ (base c)) else checkpoint)
     (operator c).
End BinaryOperatorAggregate.

#[global] Instance BinaryOperatorAggregate_channel : Channel BinaryOperatorAggregate.t := {
  GetKey c := BaseChannel.GetKey (BinaryOperatorAggregate.base c);
  SetKey k c := BinaryOperatorAggregate.Mk
                  (BaseChannel.SetKey k (BinaryOperatorAggregate.base c))
                  (BinaryOperatorAggregate.value c) (BinaryOperatorAggregate.operator c);
  Get := BinaryOperatorAggregate.Get;
  IsAvailable := BinaryOperatorAggregate.IsAvailable;
  Update := BinaryOperatorAggregate.Update;
  Copy := BinaryOperatorAggregate.Copy;
  Checkpoint := BinaryOperatorAggregate.Checkpoint;
  FromCheckpoint := BinaryOperatorAggregate.FromCheckpoint;
  Consume := BaseChannel.Consume;
  Finish := BaseChannel.Finish;
  GetVersion c := BaseChannel.GetVersion (BinaryOperatorAggregate.base c)
}.
#[global] Instance BinaryOperatorAggregate_versioned : Versioned BinaryOperatorAggregate.t := {
  SetVersion v c := BinaryOperatorAggregate.Mk
                      (BaseChannel.SetVersion v (BinaryOperatorAggregate.base c))
                      (BinaryOperatorAggregate.value c) (BinaryOperatorAggregate.operator c)
}.

(** ** Operators (binop.go) *)

Definition StringConcat `{GoRuntime} (a b : val) : val :=
  match as_string a, as_string b with
  | Some sa, Some sb => VStr (sa +:+ sb)
  | _, _ => VStr (fmt_v a +:+ fmt_v b)
  end.

Definition IntAdd (a b : val) : val :=
  match a, b with
  | VInt ai, VInt bi => VInt (int_add ai bi)
  | VFloat af, VFloat bf => VFloat (float_add af bf)
  | _, _ => a
  end.

Definition ListAppend (a b : val) : val :=
  match as_list a with
  | Some al =>
      match as_list b with
      | Some bl => VList (al ++ bl)
      | None => VList (al ++ [b])
      end
  | None => VList [a; b]
  end.

(** ** Reducers (reducer.go) *)

(** The merge loop shared by the map operator of [CreateReducerChannel] and by
    [MergeReducer]: [b] when either operand is not a string-keyed map. *)
Definition merge_or_replace (a b : val) : val :=
  match as_map a with
  | Some aMap => match as_map b with Some bMap => VObj (merge_maps aMap bMap) | None => b end
  | None => b
  end.

Definition AddReducer (current update : val) : val :=
  if is_nil current then update
  else match current, update with
       | VInt ci, VInt ui => VInt (int_add ci ui)
       | VFloat cf, VFloat uf => VFloat (float_add cf uf)
       | _, _ => update
       end.

Definition AppendReducer (current update : val) : val :=
  if is_nil current then VList [update]
  else match as_list current with
       | Some slice => VList (slice ++ [update])
       | None => VList [current; update]
       end.

Definition MergeReducer (current update : val) : val :=
  if is_nil current then update else merge_or_replace current update.

(** ** What one update computes *)

Section fold.
Import BinaryOperatorAggregate.
Context (op : BinaryOperator).

(** The overwrites among a list of updates. *)
Definition overwrites (vs : list val) : list val := omap isOverwrite vs.

Lemma overwrites_cons v vs :
  overwrites (v :: vs) =
    match isOverwrite v with Some w => w :: overwrites vs | None => overwrites vs end.
Proof. done. Qed.

(** Plain updates only: a left fold. *)
Lemma fold_values_plain vs v :
  overwrites vs = [] → fold_values op vs false v = (Ok true, foldl op v vs).
Proof.
  revert v. induction vs as [|x vs IH]; intros v; [done|].
  rewrite overwrites_cons. simpl. destruct (isOverwrite x); [done|]. apply IH.
Qed.

(** After an overwrite plain updates are dropped and another overwrite is an
    error. *)
Lemma fold_values_overwritten vs v :
  fold_values op vs true v =
    match overwrites vs with
    | [] => (Ok true, v)
    | _ => (Err (InvalidUpdateError
                   "Can receive only one Overwrite value per super-step."), v)
    end.
Proof.
  induction vs as [|x vs IH]; [done|].
  rewrite overwrites_cons. simpl. by destruct (isOverwrite x).
Qed.

(** The whole loop, by the number of overwrites. *)
Lemma fold_values_spec vs v :
  fold_values op vs false v =
    match overwrites vs with
    | [] => (Ok true, foldl op v vs)
    | [w] => (Ok true, w)
    | w :: _ => (Err (InvalidUpdateError
                        "Can receive only one Overwrite value per super-step."), w)
    end.
Proof.
  revert v. induction vs as [|x vs IH]; intros v; [done|].
  rewrite overwrites_cons. simpl. destruct (isOverwrite x) as [w|]; [|apply IH].
  rewrite fold_values_overwritten. by destruct (overwrites vs).
Qed.

Lemma fold_values_err vs b v e v' :
  fold_values op vs b v = (Err e, v') → IsInvalidUpdateError e = true.
Proof.
  destruct b; rewrite ?fold_values_overwritten, ?fold_values_spec; case_all; naive_solver.
Qed.
End fold.
#[export] Hint Resolve fold_values_err : harness.

Lemma overwrites_app vs ws : overwrites (vs ++ ws) = overwrites vs ++ overwrites ws.
Proof. apply omap_app. Qed.

#[global] Instance BinaryOperatorAggregate_laws : ChannelLaws BinaryOperatorAggregate.t.
Proof.
  split; intros; repeat match goal with c : BinaryOperatorAggregate.t |- _ => destruct c end;
    unfold_channel; cbn in *;
    unfold BinaryOperatorAggregate.Get, BinaryOperatorAggregate.Update,
           BinaryOperatorAggregate.IsAvailable, BinaryOperatorAggregate.Copy in *; cbn in *;
    case_all; bool_hyps; try done; eauto with harness; congruence.
Qed.

#[global] Instance BinaryOperatorAggregate_blind : VersionBlind BinaryOperatorAggregate.t.
Proof.
  split; intros; repeat match goal with c : BinaryOperatorAggregate.t |- _ => destruct c end;
    cbn; unfold BinaryOperatorAggregate.Get, BinaryOperatorAggregate.Update; cbn;
    case_all; done.
Qed.

#[global] Instance BinaryOperatorAggregate_config : ConfigStable BinaryOperatorAggregate.t.
Proof.
  split; intros; repeat match goal with c : BinaryOperatorAggregate.t |- _ => destruct c end;
    cbn; unfold BinaryOperatorAggregate.Get, BinaryOperatorAggregate.Update,
      BinaryOperatorAggregate.FromCheckpoint; cbn; case_all; done.
Qed.

(** An aggregate that holds a value, or whose type has no zero value. *)
Definition aggregate_stable (c : BinaryOperatorAggregate.t) : Prop :=
  BinaryOperatorAggregate.value c = Missing →
  createZeroValue (BaseChannel.Typ (BinaryOperatorAggregate.base c)) = Missing.

#[global] Instance BinaryOperatorAggregate_persistent :
  Persistent BinaryOperatorAggregate.t aggregate_stable.
Proof.
  intros [b v op] Hok. unfold same_but_version, aggregate_stable in *. cbn in *.
  unfold BinaryOperatorAggregate.FromCheckpoint. cbn.
  destruct (IsMissing v) eqn:E; [|done]. apply IsMissing_true in E as ->. by rewrite Hok.
Qed.

Lemma New_stable typ op : aggregate_stable (BinaryOperatorAggregate.New typ op).
Proof. intros H. apply H. Qed.

(** ** Sums *)

Lemma int_add_assoc a b c : int_add (int_add a b) c = int_add a (int_add b c).
Proof.
  unfold int_add, wrap64.
  set (M := (2 ^ 64)%Z). set (B := int_bound).
  replace (((a + b + B) `mod` M - B + c + B))%Z with ((a + b + B) `mod` M + c)%Z by lia.
  replace ((a + ((b + c + B) `mod` M - B) + B))%Z with (a + (b + c + B) `mod` M)%Z by lia.
  rewrite Zplus_mod_idemp_l, Zplus_mod_idemp_r. f_equal. f_equal. lia.
Qed.

Lemma int_add_comm a b : int_add a b = int_add b a.
Proof. unfold int_add. by rewrite Z.add_comm. Qed.

(** Folding [IntAdd] over ints is the sum modulo 2^64. *)
Lemma foldl_IntAdd zs z :
  foldl IntAdd (VInt z) (VInt <$> zs) = VInt (foldl int_add z zs).
Proof. revert z. induction zs as [|x zs IH]; intros z; simpl; [done|apply IH]. Qed.

Lemma foldl_int_add zs z : in_int64 z → foldl int_add z zs = wrap64 (z + foldr Z.add 0%Z zs).
Proof.
  revert z. induction zs as [|x zs IH]; intros z Hz; simpl.
  - by rewrite Z.add_0_r, wrap64_id.
  - rewrite IH by apply wrap64_range.
    change (int_add (int_add z x) (foldr Z.add 0%Z zs) = wrap64 (z + (x + foldr Z.add 0%Z zs))).
    rewrite int_add_assoc. unfold int_add, wrap64.
    replace ((z + ((x + foldr Z.add 0 zs + int_bound) `mod` 2 ^ 64 - int_bound) + int_bound))%Z
      with (z + (x + foldr Z.add 0 zs + int_bound) `mod` 2 ^ 64)%Z by lia.
    rewrite Zplus_mod_idemp_r. f_equal. f_equal. lia.
Qed.

Lemma overwrites_ints zs : overwrites (VInt <$> zs) = [].
Proof. unfold overwrites. by induction zs. Qed.
