(* ===== verification/Registry.v ===== *)
(** * The channel interface value and the registry

    [leaf] is the dynamic type of a [channels.Channel] value that is not a
    [ReducerChannel]; [channel] adds the wrapper of reducer.go.  The registry
    (base.go) is a map from names to channels. *)

From S2P Require Export Barriers Aggregates.

Inductive leaf : Type :=
| LLastValue (c : LastValue.t)
| LAnyValue (c : AnyValue.t)
| LEphemeralValue (c : EphemeralValue.t)
| LUntrackedValue (c : UntrackedValue.t)
| LTopic (c : Topic.t)
| LNamedBarrierValue (c : NamedBarrierValue.t)
| LNamedBarrierValueAfterFinish (c : NamedBarrierValueAfterFinish.t)
| LLastValueAfterFinish (c : LastValueAfterFinish.t)
| LBinaryOperatorAggregate (c : BinaryOperatorAggregate.t).

(** Dynamic dispatch of a method that may change the channel. *)
Definition leaf_step {A} (f : ∀ C, Channel C → C → A * C) (l : leaf) : A * leaf :=
  match l with
  | LLastValue c => let '(a, c') := f _ _ c in (a, LLastValue c')
  | LAnyValue c => let '(a, c') := f _ _ c in (a, LAnyValue c')
  | LEphemeralValue c => let '(a, c') := f _ _ c in (a, LEphemeralValue c')
  | LUntrackedValue c => let '(a, c') := f _ _ c in (a, LUntrackedValue c')
  | LTopic c => let '(a, c') := f _ _ c in (a, LTopic c')
  | LNamedBarrierValue c => let '(a, c') := f _ _ c in (a, LNamedBarrierValue c')
  | LNamedBarrierValueAfterFinish c =>
      let '(a, c') := f _ _ c in (a, LNamedBarrierValueAfterFinish c')
  | LLastValueAfterFinish c => let '(a, c') := f _ _ c in (a, LLastValueAfterFinish c')
  | LBinaryOperatorAggregate c =>
      let '(a, c') := f _ _ c in (a, LBinaryOperatorAggregate c')
  end.

(** A method that returns a new channel, and one that only reads. *)
Definition leaf_map (f : ∀ C, Channel C → C → C) (l : leaf) : leaf :=
  (leaf_step (λ C H c, ((), f C H c)) l).2.
Definition leaf_read {A} (f : ∀ C, Channel C → C → A) (l : leaf) : A :=
  (leaf_step (λ C H c, (f C H c, c)) l).1.

Definition leaf_SetVersion (v : Z) (l : leaf) : leaf :=
  match l with
  | LLastValue c => LLastValue (SetVersion v c)
  | LAnyValue c => LAnyValue (SetVersion v c)
  | LEphemeralValue c => LEphemeralValue (SetVersion v c)
  | LUntrackedValue c => LUntrackedValue (SetVersion v c)
  | LTopic c => LTopic (SetVersion v c)
  | LNamedBarrierValue c => LNamedBarrierValue (SetVersion v c)
  | LNamedBarrierValueAfterFinish c => LNamedBarrierValueAfterFinish (SetVersion v c)
  | LLastValueAfterFinish c => LLastValueAfterFinish (SetVersion v c)
  | LBinaryOperatorAggregate c => LBinaryOperatorAggregate (SetVersion v c)
  end.

#[global] Instance leaf_channel : Channel leaf := {
  GetKey := leaf_read (@GetKey);
  SetKey k := leaf_map (λ C _ c, SetKey k c);
  Get := leaf_step (@Get);
  IsAvailable := leaf_read (@IsAvailable);
  Update vs := leaf_step (λ C _ c, Update vs c);
  Copy := leaf_map (@Copy);
  Checkpoint := leaf_read (@Checkpoint);
  FromCheckpoint cp := leaf_map (λ C _ c, FromCheckpoint cp c);
  Consume := leaf_step (@Consume);
  Finish := leaf_step (@Finish);
  GetVersion := leaf_read (@GetVersion)
}.
#[global] Instance leaf_versioned : Versioned leaf := { SetVersion := leaf_SetVersion }.

(** ** ReducerChannel (reducer.go)

    The struct embeds the [Channel] interface and adds no state, so a channel
    value is a leaf under a stack of reducers, outermost first, and every
    method the wrapper does not define is the wrapped channel's. *)
Record channel : Type := Ch { ch_leaf : leaf; ch_reducers : list ReducerFunc }.

Definition Leaf (l : leaf) : channel := Ch l [].

Definition NewReducerChannel (c : channel) (reducer : ReducerFunc) : channel :=
  Ch (ch_leaf c) (reducer :: ch_reducers c).

Definition ch_step {A} (f : leaf → A * leaf) (c : channel) : A * channel :=
  let '(a, l') := f (ch_leaf c) in (a, Ch l' (ch_reducers c)).

Definition ch_map (f : leaf → leaf) (c : channel) : channel :=
  Ch (f (ch_leaf c)) (ch_reducers c).

(** [ReducerChannel.Update] combines the current value and all new values into
    one, and passes that on to the wrapped channel. *)
Fixpoint reducer_Update (rs : list ReducerFunc) (values : list val) (l : leaf)
  : res bool * leaf :=
  match rs with
  | [] => Update values l
  | reducer :: rs' =>
      match values with
      | [] => (Ok false, l)
      | v :: values' =>
          let '(current, l1) := Get l in
          let combined := match current with Ok cur => reducer cur v | Err _ => v end in
          let combined := foldl reducer combined values' in
          reducer_Update rs' [combined] l1
      end
  end.

Definition ch_Update (values : list val) (c : channel) : res bool * channel :=
  ch_step (reducer_Update (ch_reducers c) values) c.

#[global] Instance channel_channel : Channel channel := {
  GetKey c := GetKey (ch_leaf c);
  SetKey k := ch_map (SetKey k);
  Get := ch_step Get;
  IsAvailable c := IsAvailable (ch_leaf c);
  Update := ch_Update;
  Copy := ch_map Copy;
  Checkpoint c := Checkpoint (ch_leaf c);
  FromCheckpoint cp := ch_map (FromCheckpoint cp);
  Consume := ch_step Consume;
  Finish := ch_step Finish;
  GetVersion c := GetVersion (ch_leaf c)
}.

(** The version of the wrapped channel, for equality up to the version. *)
#[global] Instance channel_versioned : Versioned channel := { SetVersion v := ch_map (SetVersion v) }.

(** [ch.(interface{ SetVersion(int) })]: a [ReducerChannel] has no such method,
    because the interface it embeds has none. *)
Definition set_version (v : Z) (c : channel) : option channel :=
  match ch_reducers c with [] => Some (SetVersion v c) | _ => None end.

(** [ch.( *BinaryOperatorAggregate)] and [ch.( *ReducerChannel)]. *)
Definition is_binop (c : channel) : bool :=
  match c with Ch (LBinaryOperatorAggregate _) [] => true | _ => false end.
Definition is_reducer (c : channel) : bool :=
  match ch_reducers c with [] => false | _ => true end.

(** ** CreateReducerChannel (reducer.go)

    Slices and maps get the [reflect.Type] descriptor itself as the channel's
    sample value; the numeric kinds get a zero of the type. *)
Definition NewLastValue (typ : val) : channel := Leaf (LLastValue (LastValue.New typ)).
Definition NewBinaryOperatorAggregate (typ : val) (op : BinaryOperator) : channel :=
  Leaf (LBinaryOperatorAggregate (BinaryOperatorAggregate.New typ op)).

Definition CreateReducerChannel (fieldName : string) (fieldType : gotype)
    (reducer : option ReducerFunc) : channel :=
  let ch :=
    match fieldType with
    | TSlice _ => NewBinaryOperatorAggregate (VRType fieldType) ListAppend
    | TMap _ => NewBinaryOperatorAggregate (VRType fieldType) merge_or_replace
    | TInt | TNum _ | TFloat32 | TFloat64 =>
        NewBinaryOperatorAggregate (zero_of fieldType) IntAdd
    | _ => NewLastValue (VRType fieldType)
    end in
  let ch := SetKey fieldName ch in
  match reducer with Some r => NewReducerChannel ch r | None => ch end.

(** ** The laws hold of every channel value *)

(** Reduce a law of the interface value to the law [H] of its dynamic type. *)
Ltac leaf_law H :=
  pose proof H as Hlaw; cbn in *;
  try match goal with
      | |- context [let '(_, _) := ?g in _] => destruct g eqn:?
      end.

#[global] Instance leaf_laws : ChannelLaws leaf.
Proof.
  split.
  - intros [c|c|c|c|c|c|c|c|c] l' e; leaf_law (get_err c); intros [= -> <-];
      edestruct Hlaw as [? ->]; done.
  - intros [c|c|c|c|c|c|c|c|c]; leaf_law (get_available c); done.
  - intros vs [c|c|c|c|c|c|c|c|c] l' e; leaf_law (update_err vs c); intros [= -> <-];
      by eapply Hlaw.
  - intros [c|c|c|c|c|c|c|c|c]; leaf_law (get_key c); done.
  - intros vs [c|c|c|c|c|c|c|c|c]; leaf_law (update_key vs c); done.
  - intros [c|c|c|c|c|c|c|c|c]; leaf_law (consume_key c); done.
  - intros [c|c|c|c|c|c|c|c|c]; leaf_law (finish_key c); done.
  - intros [c|c|c|c|c|c|c|c|c]; exact (copy_key c).
  - intros k [c|c|c|c|c|c|c|c|c]; exact (set_key k c).
Qed.

Ltac leaf_rewrite H :=
  pose proof H as Hlaw; cbn in *; rewrite Hlaw;
  match goal with |- context [let '(_, _) := ?g in _] => destruct g end; done.

#[global] Instance leaf_blind : VersionBlind leaf.
Proof.
  split.
  - intros v w [c|c|c|c|c|c|c|c|c]; leaf_law (set_version_set v w c); by rewrite ?Hlaw.
  - intros v [c|c|c|c|c|c|c|c|c]; leaf_rewrite (get_blind v c).
  - intros v vs [c|c|c|c|c|c|c|c|c]; leaf_rewrite (update_blind v vs c).
  - intros v [c|c|c|c|c|c|c|c|c]; exact (available_blind v c).
  - intros v [c|c|c|c|c|c|c|c|c]; exact (key_blind v c).
  - intros v [c|c|c|c|c|c|c|c|c]; exact (checkpoint_blind v c).
  - intros v [c|c|c|c|c|c|c|c|c]; leaf_law (copy_blind v c); by rewrite Hlaw.
  - intros v cp [c|c|c|c|c|c|c|c|c]; leaf_law (restore_blind v cp c); by rewrite Hlaw.
Qed.

(** The stack of reducers preserves the laws. *)
Lemma reducer_Update_err rs : ∀ vs l l' e,
  reducer_Update rs vs l = (Err e, l') → IsInvalidUpdateError e = true.
Proof.
  induction rs as [|r rs IH]; intros vs l l' e; cbn [reducer_Update]; [apply update_err|].
  destruct vs as [|v vs]; [done|]. destruct (Get l) as [cur l1]. apply IH.
Qed.

Lemma reducer_Update_key rs : ∀ vs l, GetKey (reducer_Update rs vs l).2 = GetKey l.
Proof.
  induction rs as [|r rs IH]; intros vs l; cbn [reducer_Update]; [apply update_key|].
  destruct vs as [|v vs]; [done|]. pose proof (get_key l) as Hk.
  destruct (Get l) as [cur l1]. by rewrite IH.
Qed.

Lemma ch_step_fst {A} (f : leaf → A * leaf) c : (ch_step f c).1 = (f (ch_leaf c)).1.
Proof. unfold ch_step. by destruct (f (ch_leaf c)). Qed.

Lemma ch_step_snd {A} (f : leaf → A * leaf) c :
  (ch_step f c).2 = Ch (f (ch_leaf c)).2 (ch_reducers c).
Proof. unfold ch_step. by destruct (f (ch_leaf c)). Qed.

Lemma ch_step_eq {A} (f : leaf → A * leaf) c :
  ch_step f c = ((f (ch_leaf c)).1, Ch (f (ch_leaf c)).2 (ch_reducers c)).
Proof. unfold ch_step. by destruct (f (ch_leaf c)). Qed.

#[global] Instance channel_laws : ChannelLaws channel.
Proof.
  split; cbn [Get Update IsAvailable GetKey SetKey Consume Finish Copy channel_channel];
    unfold ch_Update, ch_map; intros; rewrite ?ch_step_fst, ?ch_step_snd, ?ch_step_eq in *;
    simplify_eq.
  - destruct (Get (ch_leaf c)) as [r l'] eqn:E; cbn [fst snd] in *; subst.
    destruct (get_err _ _ _ E) as [? ->]. split; [done|]. by destruct c.
  - by apply get_available.
  - destruct (reducer_Update (ch_reducers c) vs (ch_leaf c)) as [r l'] eqn:E.
    cbn [fst snd] in *; subst. by eapply reducer_Update_err.
  - apply get_key.
  - apply reducer_Update_key.
  - apply consume_key.
  - apply finish_key.
  - apply copy_key.
  - apply set_key.
Qed.

Lemma reducer_Update_blind v rs : ∀ vs l,
  reducer_Update rs vs (SetVersion v l) =
  ((reducer_Update rs vs l).1, SetVersion v (reducer_Update rs vs l).2).
Proof.
  induction rs as [|r rs IH]; intros vs l; cbn [reducer_Update]; [apply update_blind|].
  destruct vs as [|x vs]; [done|]. rewrite get_blind.
  destruct (Get l) as [cur l1]; cbn [fst snd]. apply IH.
Qed.

#[global] Instance channel_blind : VersionBlind channel.
Proof.
  split; cbn [Get Update IsAvailable GetKey Checkpoint Copy FromCheckpoint SetVersion
              channel_channel channel_versioned]; unfold ch_map, ch_Update; intros;
    rewrite ?ch_step_eq; cbn [ch_leaf ch_reducers fst snd].
  - by rewrite set_version_set.
  - by rewrite get_blind.
  - by rewrite reducer_Update_blind.
  - apply available_blind.
  - apply key_blind.
  - apply checkpoint_blind.
  - by rewrite copy_blind.
  - by rewrite restore_blind.
Qed.

Ltac leaf_config_law H :=
  pose proof H as Hlaw; cbn in *; try rewrite <-Hlaw;
  try match goal with |- context [let '(_, _) := ?g in _] => destruct g end; done.

#[global] Instance leaf_config : ConfigStable leaf.
Proof.
  split.
  - intros cp [c|c|c|c|c|c|c|c|c]; leaf_config_law (get_config cp c).
  - intros cp vs [c|c|c|c|c|c|c|c|c]; leaf_config_law (update_config cp vs c).
  - intros cp [c|c|c|c|c|c|c|c|c]; leaf_config_law (consume_config cp c).
  - intros cp [c|c|c|c|c|c|c|c|c]; leaf_config_law (finish_config cp c).
  - intros cp [c|c|c|c|c|c|c|c|c]; leaf_config_law (copy_config cp c).
Qed.

Lemma reducer_Update_config cp rs : ∀ vs l,
  FromCheckpoint cp (reducer_Update rs vs l).2 = FromCheckpoint cp l.
Proof.
  induction rs as [|r rs IH]; intros vs l; cbn [reducer_Update]; [apply update_config|].
  destruct vs as [|v vs]; [done|]. pose proof (get_config cp l) as Hg.
  destruct (Get l) as [cur l1]. by rewrite IH.
Qed.

#[global] Instance channel_config : ConfigStable channel.
Proof.
  split; cbn [Get Update Consume Finish Copy FromCheckpoint channel_channel];
    unfold ch_map, ch_Update; intros; rewrite ?ch_step_eq; cbn [ch_leaf ch_reducers fst snd].
  - by rewrite get_config.
  - by rewrite reducer_Update_config.
  - by rewrite consume_config.
  - by rewrite finish_config.
  - by rewrite copy_config.
Qed.

(** The channels whose state survives a checkpoint: all but [UntrackedValue],
    which is meant to lose its value, and [LastValueAfterFinish], whose
    checkpoint omits [finished]. *)
Definition persistable_leaf (l : leaf) : Prop :=
  match l with
  | LUntrackedValue _ => False
  | LLastValueAfterFinish c => LastValueAfterFinish.finished c = false
  | LBinaryOperatorAggregate c => aggregate_stable c
  | _ => True
  end.

Definition persistable (c : channel) : Prop := persistable_leaf (ch_leaf c).

Ltac leaf_restore H :=
  pose proof H as Hr; unfold same_but_version in *; cbn in *; f_equal; by apply Hr.

#[global] Instance leaf_persistent : Persistent leaf persistable_leaf.
Proof.
  intros [c|c|c|c|c|c|c|c|c] Hok; simpl in Hok; try done.
  - leaf_restore (restore_checkpoint (C := LastValue.t) c).
  - leaf_restore (restore_checkpoint (C := AnyValue.t) c).
  - leaf_restore (restore_checkpoint (C := EphemeralValue.t) c).
  - leaf_restore (restore_checkpoint (C := Topic.t) c).
  - leaf_restore (restore_checkpoint (C := NamedBarrierValue.t) c).
  - leaf_restore (restore_checkpoint (C := NamedBarrierValueAfterFinish.t) c).
  - destruct c as [b v f]. simpl in Hok. subst. unfold same_but_version. cbn.
    unfold LastValueAfterFinish.FromCheckpoint. cbn. by rewrite IsMissing_restore.
  - leaf_restore (restore_checkpoint (C := BinaryOperatorAggregate.t) c).
Qed.

#[global] Instance channel_persistent : Persistent channel persistable.
Proof.
  intros [l rs] Hok. pose proof (restore_checkpoint (C := leaf) l Hok) as Hr.
  unfold same_but_version in *. cbn [SetVersion FromCheckpoint Checkpoint channel_channel
    channel_versioned ch_leaf] in *. unfold ch_map; cbn [ch_leaf ch_reducers]. by f_equal.
Qed.

(** ** Registry (base.go)

    The loops range over Go maps: each takes the order [ord] of its loop as a
    list of bindings of the map it ranges over. *)
Abbreviation registry := (gmap string channel).

Module Reg.
Definition NewRegistry : registry := ∅.
Definition Register (name : string) (c : channel) (r : registry) : registry := <[name := c]> r.
Definition Get (name : string) (r : registry) : option channel := r !! name.
Definition Remove (name : string) (r : registry) : registry := delete name r.
Definition Len (r : registry) : nat := size r.
Definition Names (ord : list (string * channel)) : list string := ord.*1.

(** [CreateCheckpoint]: the non-missing checkpoints. *)
Fixpoint CreateCheckpoint (ord : list (string * channel)) (checkpoint : gmap string val)
  : gmap string val :=
  match ord with
  | [] => checkpoint
  | (name, c) :: ord' =>
      let cp := Checkpoint c in
      CreateCheckpoint ord' (if negb (IsMissing cp) then <[name := cp]> checkpoint
                             else checkpoint)
  end.

(** [RestoreFromCheckpoint], ranging over the checkpoint; stops at a name
    that is not registered. *)
Fixpoint RestoreFromCheckpoint (ord : list (string * val)) (r : registry)
  : option error * registry :=
  match ord with
  | [] => (None, r)
  | (name, cp) :: ord' =>
      match r !! name with
      | None => (Some (Errorf ("channel " +:+ name +:+ " not found in registry")), r)
      | Some c => RestoreFromCheckpoint ord' (<[name := FromCheckpoint cp c]> r)
      end
  end.

(** [UpdateChannels], ranging over the writes; a channel that fails keeps
    what it did before the error. *)
Fixpoint UpdateChannels (ord : list (string * list val)) (r : registry)
  : option error * registry :=
  match ord with
  | [] => (None, r)
  | (name, values) :: ord' =>
      match r !! name with
      | None => (Some (ChannelNotFoundError name), r)
      | Some c =>
          let '(u, c') := Update values c in
          let r' := <[name := c']> r in
          match u with
          | Ok _ => UpdateChannels ord' r'
          | Err e => (Some (Wrapf ("failed to update channel " +:+ name) e), r')
          end
      end
  end.

(** [GetValues]: reads every channel; an empty one is skipped.  Reading may
    change the channel, so the registry is returned too. *)
Fixpoint GetValues (ord : list (string * channel)) (values : gmap string val) (r : registry)
  : res (gmap string val) * registry :=
  match ord with
  | [] => (Ok values, r)
  | (name, c) :: ord' =>
      let '(v, c') := Channels.Get c in
      let r' := <[name := c']> r in
      match v with
      | Ok v => GetValues ord' (<[name := v]> values) r'
      | Err e =>
          if IsEmptyChannelError e then GetValues ord' values r'
          else (Err (Wrapf ("failed to get value from channel " +:+ name) e), r')
      end
  end.
End Reg.

(** What the loops compute, whatever their order. *)

Definition live_checkpoint (c : channel) : option val :=
  let cp := Checkpoint c in if IsMissing cp then None else Some cp.

Lemma CreateCheckpoint_lookup ord acc k :
  NoDup ord.*1 →
  Reg.CreateCheckpoint ord acc !! k =
    match (list_to_map ord : registry) !! k ≫= live_checkpoint with
    | Some cp => Some cp
    | None => acc !! k
    end.
Proof.
  revert acc. induction ord as [|[n c] ord IH]; intros acc; simpl; [by rewrite lookup_empty|].
  intros [Hn Hnd]%NoDup_cons. rewrite IH by done. unfold live_checkpoint.
  destruct (decide (n = k)) as [->|Hne].
  - rewrite lookup_insert_eq, not_elem_of_list_to_map_1 by done. simpl.
    destruct (IsMissing _); simpl; by simplify_map_eq.
  - rewrite lookup_insert_ne by done. destruct (IsMissing _); simpl; by simplify_map_eq.
Qed.

Lemma CreateCheckpoint_spec r ord :
  go_range r ord → Reg.CreateCheckpoint ord ∅ = omap live_checkpoint r.
Proof.
  intros H. apply map_eq. intros k.
  rewrite CreateCheckpoint_lookup by eauto with harness.
  rewrite (go_range_list_to_map _ _ H), lookup_omap, lookup_empty. by case_match.
Qed.

Lemma Restore_lookup ord r r' k :
  NoDup ord.*1 → Reg.RestoreFromCheckpoint ord r = (None, r') →
  r' !! k = match (list_to_map ord : gmap string val) !! k with
            | Some cp => FromCheckpoint cp <$> r !! k
            | None => r !! k
            end.
Proof.
  revert r. induction ord as [|[n cp] ord IH]; intros r; simpl.
  - intros _ [= ->]. by rewrite lookup_empty.
  - intros [Hn Hnd]%NoDup_cons. destruct (r !! n) as [c|] eqn:Hc; [|done].
    intros Hr. rewrite (IH _ Hnd Hr).
    destruct (decide (n = k)) as [->|Hne].
    + rewrite not_elem_of_list_to_map_1 by done. by simplify_map_eq.
    + by simplify_map_eq.
Qed.

(** Restoring succeeds exactly when every checkpointed name is registered. *)
Lemma Restore_ok ord r :
  (∀ k, k ∈ ord.*1 → is_Some (r !! k)) ↔ (Reg.RestoreFromCheckpoint ord r).1 = None.
Proof.
  revert r. induction ord as [|[n cp] ord IH]; intros r; simpl.
  - split; [done|]. intros _ k Hk. by apply elem_of_nil in Hk.
  - destruct (r !! n) as [c|] eqn:Hc.
    + rewrite <-IH. setoid_rewrite elem_of_cons. split.
      * intros Hall k Hk. destruct (decide (n = k)) as [->|]; simplify_map_eq; eauto.
      * intros Hall k [->|Hk]; [eauto|]. specialize (Hall k Hk).
        destruct (decide (n = k)) as [->|]; simplify_map_eq; eauto.
    + split; [|done]. intros Hall.
      destruct (Hall n) as [? ?]; [by left|congruence].
Qed.

Lemma UpdateChannels_lookup ord r r' k :
  NoDup ord.*1 → Reg.UpdateChannels ord r = (None, r') →
  r' !! k = match (list_to_map ord : gmap string (list val)) !! k with
            | Some vs => (λ c, (Update vs c).2) <$> r !! k
            | None => r !! k
            end.
Proof.
  revert r. induction ord as [|[n vs] ord IH]; intros r; cbn [Reg.UpdateChannels fmap list_fmap].
  - intros _ [= ->]. simpl. by rewrite lookup_empty.
  - intros [Hn Hnd]%NoDup_cons. destruct (r !! n) as [c|] eqn:Hc; [|done].
    destruct (Update vs c) as [[b|e] c'] eqn:Hu; [|done].
    intros Hr. rewrite (IH _ Hnd Hr). simpl.
    destruct (decide (n = k)) as [->|Hne].
    + rewrite not_elem_of_list_to_map_1 by done. simplify_map_eq. by rewrite Hu.
    + by simplify_map_eq.
Qed.

(** An update succeeds exactly when every channel is there and accepts. *)
Lemma UpdateChannels_ok ord r :
  NoDup ord.*1 →
  (Reg.UpdateChannels ord r).1 = None ↔
  Forall (λ kv, match r !! kv.1 with
                | Some c => is_ok (Update kv.2 c).1 = true
                | None => False
                end) ord.
Proof.
  revert r. induction ord as [|[n vs] ord IH]; intros r Hnd;
    cbn [Reg.UpdateChannels fmap list_fmap] in *; [by split; [constructor|]|].
  apply NoDup_cons in Hnd as [Hn Hnd]. rewrite Forall_cons. cbn [fst snd].
  destruct (r !! n) as [c|] eqn:Hc; [|by split; [|intros [? _]]].
  destruct (Update vs c) as [[b|e] c'] eqn:Hu; cbn [fst is_ok].
  - rewrite IH by done. rewrite !Forall_forall.
    assert (∀ kv, kv ∈ ord → <[n := c']> r !! kv.1 = r !! kv.1) as Hsame.
    { intros kv Hin. rewrite lookup_insert_ne; [done|]. intros ->.
      apply Hn. apply list_elem_of_fmap. by exists kv. }
    split; [intros H; split; [done|]|intros [_ H]]; intros kv Hin;
      specialize (H kv Hin); by rewrite ?Hsame in * by done.
  - split; [done|]. by intros [? _].
Qed.

(** The readable part of a channel, and the channel a read leaves behind. *)
Definition read_value (c : channel) : option val :=
  match (Channels.Get c).1 with Ok v => Some v | Err _ => None end.
Definition after_read (c : channel) : channel := (Channels.Get c).2.

(** Reading never fails: the only error of a channel is being empty. *)
Lemma GetValues_lookup ord acc r :
  NoDup ord.*1 →
  ∃ vs r', Reg.GetValues ord acc r = (Ok vs, r') ∧ ∀ k,
    vs !! k = match (list_to_map ord : registry) !! k ≫= read_value with
              | Some v => Some v | None => acc !! k end ∧
    r' !! k = match (list_to_map ord : registry) !! k with
              | Some c => Some (after_read c) | None => r !! k end.
Proof.
  revert acc r. induction ord as [|[n c] ord IH]; intros acc r.
  - intros _. exists acc, r. split; [done|]. intros k. simpl. by rewrite lookup_empty.
  - rewrite fmap_cons. intros [Hn Hnd]%NoDup_cons. cbn [Reg.GetValues].
    pose proof (get_err c) as Herr.
    assert (∀ acc' r', r' = <[n := after_read c]> r →
              acc' = match read_value c with Some v => <[n := v]> acc | None => acc end →
              ∃ vs r'', Reg.GetValues ord acc' r' = (Ok vs, r'') ∧ ∀ k,
                vs !! k = match (list_to_map ((n, c) :: ord) : registry) !! k ≫= read_value with
                          | Some v => Some v | None => acc !! k end ∧
                r'' !! k = match (list_to_map ((n, c) :: ord) : registry) !! k with
                           | Some c => Some (after_read c) | None => r !! k end) as Hgo.
    { intros acc' r' -> ->.
      destruct (IH (match read_value c with Some v => <[n := v]> acc | None => acc end)
                   (<[n := after_read c]> r) Hnd) as (vs & r'' & -> & Hk).
      exists vs, r''. split; [done|]. intros k. destruct (Hk k) as [-> ->]. simpl.
      destruct (decide (n = k)) as [->|Hne].
      - rewrite not_elem_of_list_to_map_1 by done. simpl. rewrite lookup_insert_eq. simpl.
        split; [|by simplify_map_eq]. by destruct (read_value c); simplify_map_eq.
      - rewrite !lookup_insert_ne by done. split; [|done].
        by destruct (read_value c); simplify_map_eq. }
    unfold read_value, after_read in Hgo. destruct (Channels.Get c) as [[v|e] c'] eqn:Hg;
      simpl in Hgo; [by apply Hgo|].
    destruct (Herr c' e eq_refl) as [-> ->]. by apply Hgo.
Qed.
