(* ===== verification/Types.v ===== *)
(** * Types shared by the graph builder and the engine

    [types/types.go], [types/config.go] and [constants/constants.go]: node
    functions, retry policies, the parts of a graph, commands, and the
    configuration of a run with its merge operations. *)

From S2P Require Export Errors Format.

(** ** Constants *)
Definition Start : string := "__start__".
Definition End_ : string := "__end__".
Definition All : string := "*".
Definition NSSep : string := "|".
Definition NSEnd : string := ":".
Definition Parent : string := "__parent__".
Definition ConfigKeyThreadID : string := "thread_id".
Definition ConfigKeyCheckpointID : string := "checkpoint_id".
Definition ConfigKeyCheckpointNS : string := "checkpoint_ns".
Definition DefaultCheckpointMaxVersions : Z := 100.
Definition DefaultRecursionLimit : Z := 50.

(** The key of the unnamed part of a state. *)
Definition Root : string := "__root__".

(** ** Contexts and node functions

    A [context.Context] carries values; cancellation is a parameter of the
    operations that wait.  A node function returns an output and an error
    (both at once is possible in Go), or panics.  It is a function of the
    context, of how often it was called before in the same task, and of its
    input: a node may fail at first and succeed later, but shares no other
    state with the rest of the program. *)
Definition context := gmap string val.

Inductive outcome : Type :=
| Return (out : val) (err : option error)
| Panics (v : val).

Definition NodeFunc := context → nat → val → outcome.

(** A condition does not panic and depends on nothing but its arguments. *)
Definition EdgeFunc := context → val → val * option error.

(** The panic value of calling a nil function. *)
Definition nil_dereference : val :=
  VStr "runtime error: invalid memory address or nil pointer dereference".

(** Calling a variable of function type. *)
Definition call (fn : option NodeFunc) (ctx : context) (n : nat) (input : val) : outcome :=
  match fn with Some f => f ctx n input | None => Panics nil_dereference end.

(** ** Retry policies

    A [time.Duration] is a 64-bit number of nanoseconds. *)
Record RetryPolicy : Type := {
  InitialInterval : Z;
  BackoffFactor : spec_float;
  MaxInterval : Z;
  MaxAttempts : Z;
  Jitter : bool;
  RetryOn : option (error → bool)
}.

Definition Millisecond : Z := 1000000.
Definition Second : Z := 1000000000.

Definition DefaultRetryOn (_ : error) : bool := true.

Definition DefaultRetryPolicy : RetryPolicy := {|
  InitialInterval := 500 * Millisecond;
  BackoffFactor := float_of_int 2;
  MaxInterval := 128 * Second;
  MaxAttempts := 3;
  Jitter := true;
  RetryOn := Some DefaultRetryOn
|}.

(** ** The parts of a graph

    [NodeTriggerMode] is a string type: "any", "all", or the empty string of a
    graph that was never compiled. *)
Inductive NodeTriggerMode :=
| NodeTriggerUnset
| NodeTriggerAnyPredecessor
| NodeTriggerAllPredecessor.

#[global] Instance trigger_mode_dec : EqDecision NodeTriggerMode.
Proof. solve_decision. Defined.

Record FieldMapping : Type := { MapFrom : string; MapTo_ : string }.

Record Node : Type := {
  NName : string;
  Function : option NodeFunc;
  Triggers : list string;
  Writes : list string;
  NRetryPolicy : option RetryPolicy;
  NTags : list string;
  NMetadata : gmap string val;
  FieldMappings : list FieldMapping
}.

Record Edge : Type := { From : string; To : string }.

#[global] Instance edge_dec : EqDecision Edge.
Proof. solve_decision. Defined.

Record DataEdge : Type := { DFrom : string; DTo : string; DMapping : list FieldMapping }.

Record ConditionalEdge : Type := {
  CFrom : string; Condition : EdgeFunc; Mapping : gmap string string
}.

Record Branch : Type := { BFrom : string; BCondition : EdgeFunc; Then : val → list string }.

Record NodeOptions : Type := {
  ORetryPolicy : option RetryPolicy;
  OTags : list string;
  OMetadata : gmap string val;
  OTriggers : list string;
  OWrites : list string;
  OFieldMapping : list FieldMapping;
  StatePre : option NodeFunc;
  StatePost : option NodeFunc
}.

(** ** Commands *)
Record Command : Type := { CGraph : string; CUpdate : val; CResume : val; CGoto : val }.

Definition NewCommand : Command := {| CGraph := ""; CUpdate := VNil; CResume := VNil; CGoto := VNil |}.

Definition WithGraph (g : string) (c : Command) : Command :=
  {| CGraph := g; CUpdate := CUpdate c; CResume := CResume c; CGoto := CGoto c |}.
Definition WithUpdate (u : val) (c : Command) : Command :=
  {| CGraph := CGraph c; CUpdate := u; CResume := CResume c; CGoto := CGoto c |}.
Definition WithResume (r : val) (c : Command) : Command :=
  {| CGraph := CGraph c; CUpdate := CUpdate c; CResume := r; CGoto := CGoto c |}.
Definition WithGoto (g : val) (c : Command) : Command :=
  {| CGraph := CGraph c; CUpdate := CUpdate c; CResume := CResume c; CGoto := g |}.

(** [UpdateAsTuples]: the bindings of a map update, in the order [ord] of the
    loop; any other update is a write to the root.  [None] is the nil slice. *)
Definition UpdateAsTuples (ord : list (string * val)) (c : Command)
  : option (list (string * val)) :=
  match CUpdate c with
  | VNil => None
  | u => match as_map u with
         | Some _ => Some ord
         | None => Some [(Root, u)]
         end
  end.

(** ** RunnableConfig (config.go)

    Maps and the configuration itself may be nil. *)
Definition DurabilitySync : string := "sync".
Definition DurabilityAsync : string := "async".
Definition DurabilityExit : string := "exit".

Record RunnableConfig : Type := {
  Configurable : option (gmap string val);
  RecursionLimit : Z;
  Tags : list string;
  Metadata : option (gmap string val);
  RunID : string;
  ThreadID : string;
  Durability : string
}.

Module Config.
Definition NewRunnableConfig : RunnableConfig := {|
  Configurable := Some ∅; RecursionLimit := DefaultRecursionLimit; Tags := [];
  Metadata := Some ∅; RunID := ""; ThreadID := ""; Durability := DurabilitySync
|}.

(** [&types.RunnableConfig{}]. *)
Definition zero : RunnableConfig := {|
  Configurable := None; RecursionLimit := 0; Tags := []; Metadata := None;
  RunID := ""; ThreadID := ""; Durability := ""
|}.

Definition Get (key : string) (c : RunnableConfig) : option val :=
  match Configurable c with None => None | Some m => m !! key end.

Definition set_configurable (m : option (gmap string val)) (c : RunnableConfig) : RunnableConfig :=
  {| Configurable := m; RecursionLimit := RecursionLimit c; Tags := Tags c;
     Metadata := Metadata c; RunID := RunID c; ThreadID := ThreadID c;
     Durability := Durability c |}.

Definition Set_ (key : string) (value : val) (c : RunnableConfig) : RunnableConfig :=
  set_configurable (Some (<[key := value]> (default ∅ (Configurable c)))) c.

Definition GetOrEmpty (key : string) (c : RunnableConfig) : string :=
  match Configurable c with
  | None => ""
  | Some m => match m !! key with
              | None => ""
              | Some v => default "" (as_string v)
              end
  end.

(** [Merge]: the receiver with the other configuration's settings.  Writing
    metadata into a nil map panics ([None]).  [ord] and [ordm] are the orders
    of the two loops. *)
Definition Merge (ord ordm : list (string * val)) (other : option RunnableConfig)
    (c : RunnableConfig) : option RunnableConfig :=
  match other with
  | None => Some c
  | Some o =>
      let c := foldl (λ c kv, Set_ kv.1 kv.2 c) c ord in
      let md := match Metadata c, ordm with
                | md, [] => Some md
                | None, _ => None
                | Some m, _ => Some (Some (copy_into id ordm m))
                end in
      match md with
      | None => None
      | Some md =>
          Some {| Configurable := Configurable c;
                  RecursionLimit := if (0 <? RecursionLimit o)%Z then RecursionLimit o
                                    else RecursionLimit c;
                  Tags := Tags c ++ Tags o;
                  Metadata := md;
                  RunID := if decide (RunID o = "") then RunID c else RunID o;
                  ThreadID := if decide (ThreadID o = "") then ThreadID c else ThreadID o;
                  Durability :=
                    if decide (Durability o ≠ "" ∧ Durability o ≠ DurabilitySync)
                    then Durability o else Durability c |}
      end
  end.

Definition WithThreadID (t : string) (c : RunnableConfig) : RunnableConfig :=
  {| Configurable := Configurable c; RecursionLimit := RecursionLimit c; Tags := Tags c;
     Metadata := Metadata c; RunID := RunID c; ThreadID := t; Durability := Durability c |}.

Definition EnsureConfig (c : option RunnableConfig) : RunnableConfig :=
  default NewRunnableConfig c.

(** [PatchConfig]; a patcher may be nil and may return nil. *)
Definition PatchConfig (c : option RunnableConfig)
    (patchers : list (option (option RunnableConfig → option RunnableConfig)))
  : option RunnableConfig :=
  foldl (λ c p, match p with Some f => f c | None => c end)
        (Some (EnsureConfig c)) patchers.

(** [MergeConfigs] of configurations whose loops run in canonical order. *)
Definition MergeConfigs (configs : list (option RunnableConfig)) : option RunnableConfig :=
  foldl (λ acc o,
           match acc with
           | None => None
           | Some c => Merge (map_to_list (default ∅ (o ≫= Configurable)))
                             (map_to_list (default ∅ (o ≫= Metadata))) o c
           end) (Some NewRunnableConfig) configs.

(** The maps of the merged configuration, whatever the order of the loops. *)
Lemma foldl_Set ord c :
  Configurable (foldl (λ c kv, Set_ kv.1 kv.2 c) c ord) =
    match ord with
    | [] => Configurable c
    | _ => Some (copy_into id ord (default ∅ (Configurable c)))
    end.
Proof.
  revert c. induction ord as [|[k v] ord IH]; intros c; [done|].
  simpl. rewrite IH. by destruct ord.
Qed.

Lemma foldl_Set_rest ord c :
  let c' := foldl (λ c kv, Set_ kv.1 kv.2 c) c ord in
  (RecursionLimit c', Tags c', Metadata c', RunID c', ThreadID c', Durability c') =
  (RecursionLimit c, Tags c, Metadata c, RunID c, ThreadID c, Durability c).
Proof.
  revert c. induction ord as [|[k v] ord IH]; intros c; [done|]. simpl in *. by rewrite IH.
Qed.

Lemma Merge_spec ord ordm o c :
  go_range (default ∅ (Configurable o)) ord → go_range (default ∅ (Metadata o)) ordm →
  is_Some (Metadata c) →
  ∃ c', Merge ord ordm (Some o) c = Some c' ∧
    default ∅ (Configurable c') = default ∅ (Configurable o) ∪ default ∅ (Configurable c) ∧
    Metadata c' = Some (default ∅ (Metadata o) ∪ default ∅ (Metadata c)) ∧
    Tags c' = Tags c ++ Tags o.
Proof.
  intros Ho Hm [md Hmd]. unfold Merge.
  pose proof (foldl_Set_rest ord c) as Hr. cbv zeta in Hr.
  pose proof (foldl_Set ord c) as Hs.
  pose proof (copy_into_range id _ _ (default ∅ (Configurable c)) Ho) as Hc.
  pose proof (copy_into_range id _ _ md Hm) as Hcm. rewrite map_fmap_id in Hc, Hcm.
  set (c1 := foldl _ c ord) in *. injection Hr as -> -> HM -> -> ->. rewrite HM, Hmd.
  assert (default ∅ (Configurable c1) =
          default ∅ (Configurable o) ∪ default ∅ (Configurable c)) as Hdef.
  { rewrite Hs. destruct ord; [|by rewrite Hc].
    simpl in Hc. rewrite Hc at 1. done. }
  destruct ordm as [|kv ordm'] eqn:Hordm.
  - eexists. split; [reflexivity|]. simpl. split; [done|]. split; [|done].
    simpl in Hcm. by rewrite Hcm at 1.
  - eexists. split; [reflexivity|]. cbn [Configurable Metadata Tags].
    split; [done|]. split; [|done]. by rewrite Hcm.
Qed.
(** The setting of [key] in the last configuration that has one. *)
Definition last_setting (key : string) (configs : list (option RunnableConfig)) (init : option val)
  : option val :=
  foldl (λ acc o, match o ≫= Get key with Some v => Some v | None => acc end) init configs.

Lemma Get_default key c : Get key c = default ∅ (Configurable c) !! key.
Proof. unfold Get. by destruct (Configurable c). Qed.

Lemma MergeConfigs_fold key configs c :
  is_Some (Metadata c) →
  ∃ c', foldl (λ acc o,
           match acc with
           | None => None
           | Some c => Merge (map_to_list (default ∅ (o ≫= Configurable)))
                             (map_to_list (default ∅ (o ≫= Metadata))) o c
           end) (Some c) configs = Some c' ∧
        Get key c' = last_setting key configs (Get key c) ∧
        Tags c' = Tags c ++ concat (from_option Tags [] <$> configs).
Proof.
  revert c. induction configs as [|[o|] configs IH]; intros c Hc; simpl.
  - exists c. split; [done|]. split; [done|]. by rewrite app_nil_r.
  - destruct (Merge_spec _ _ o c (go_range_canonical _) (go_range_canonical _) Hc)
      as (c1 & Heq & Hconf & Hmd & Htags). simpl in Heq. rewrite Heq.
    destruct (IH c1) as (c' & -> & Hget & Ht); [by rewrite Hmd|].
    exists c'. split; [done|]. split; [|by rewrite Ht, Htags, <-app_assoc].
    rewrite Hget. f_equal. rewrite !Get_default, Hconf, lookup_union.
    by destruct (_ !! key), (default ∅ (Configurable c) !! key).
  - by apply IH.
Qed.
End Config.

(** Merging configurations never fails, the last configuration that sets
    a configurable key wins, and tags accumulate in order. *)
Theorem MergeConfigs_spec key configs :
  ∃ c, Config.MergeConfigs configs = Some c ∧
       Config.Get key c = Config.last_setting key configs None ∧
       Tags c = concat (from_option Tags [] <$> configs).
Proof.
  destruct (Config.MergeConfigs_fold key configs Config.NewRunnableConfig)
    as (c & ? & Hget & ?); [eauto|].
  exists c. split; [done|]. split; [|done]. rewrite Hget. done.
Qed.
