(* ===== verification/Retry.v ===== *)
(** * Retrying node functions

    [RetryPolicy.CalculateBackoff] (types/types.go), [RetryExecutor] and the
    retry predicates (pregel/retry.go), [MultiPolicyRetryExecutor]
    (pregel/retry_multi.go).  Waiting is modelled by an oracle that says, for
    each attempt, whether the context is done while the executor waits. *)

From Stdlib Require Import Ascii.
From S2P Require Export Types.

(** ** Backoff *)

Section backoff.
Context `{F : GoFloat}.

(** [time.Duration(f)]. *)
Definition duration_of_float : spec_float → Z := int64_of_float.

Definition float_mul (a b : spec_float) : spec_float := SFmul 53 1024 a b.

(** [powFloat]: no multiplication for a negative exponent. *)
Definition powFloat (base : spec_float) (exp : Z) : spec_float :=
  Nat.iter (Z.to_nat exp) (λ r, float_mul r base) (float_of_int 1).

Definition half : spec_float := S754_finite false 4503599627370496 (-53).

(** The exact product before the cap. *)
Definition raw_backoff (p : RetryPolicy) (attempt : Z) : spec_float :=
  float_mul (float_of_int (InitialInterval p)) (powFloat (BackoffFactor p) (attempt - 1)).

(** [rnd] is the value [rand.Float64] returns. *)
Definition CalculateBackoff (p : RetryPolicy) (attempt : Z) (rnd : spec_float) : Z :=
  let backoff := Z.min (duration_of_float (raw_backoff p attempt)) (MaxInterval p) in
  if Jitter p then
    let jitter := duration_of_float (float_mul (float_mul (float_of_int backoff) half) rnd) in
    Z.max (wrap64 (backoff - jitter)) 0
  else backoff.
End backoff.

(** A float without a negative sign (the sign of zero does not matter). *)
Definition not_negative (f : spec_float) : Prop :=
  match f with
  | S754_finite s _ _ | S754_infinity s => s = false
  | _ => True
  end.

(** Rounding keeps the sign. *)
Lemma binary_round_aux_sign m e l :
  not_negative (binary_round_aux 53 1024 false m e l).
Proof.
  unfold binary_round_aux. destruct (shr_fexp _ _ _ _ _) as [mr e'].
  destruct (shr_fexp _ _ (round_nearest_even _ _) _ _) as [mr'' e''].
  destruct (shr_m mr''); [done| |done].
  by destruct (Z.leb _ _).
Qed.

Lemma float_mul_not_negative a b :
  not_negative a → not_negative b → not_negative (float_mul a b).
Proof.
  intros Ha Hb. unfold float_mul.
  destruct a as [sa|sa| |sa ma ea], b as [sb|sb| |sb mb eb]; simpl in *; subst; try done.
  apply binary_round_aux_sign.
Qed.

Lemma float_of_int_not_negative z : (0 ≤ z)%Z → not_negative (float_of_int z).
Proof.
  intros Hz. unfold float_of_int, binary_normalize.
  destruct z as [|p|p]; [done| |lia]. unfold binary_round.
  destruct (SpecFloat.shl_align _ _ _) as [mz ez]. apply binary_round_aux_sign.
Qed.

Lemma powFloat_not_negative b n : not_negative b → not_negative (powFloat b n).
Proof.
  intros Hb. unfold powFloat. induction (Z.to_nat n) as [|k IH]; [done|].
  by apply float_mul_not_negative.
Qed.

Lemma duration_not_negative `{GoFloat} f :
  not_negative f → f2i_ok f = true → (0 ≤ duration_of_float f)%Z.
Proof.
  unfold duration_of_float, int64_of_float. intros Hf Hok. rewrite Hok.
  destruct f as [s|s| |s m e]; simpl in *; try done. subst.
  destruct e; [lia| |]; [apply Z.shiftl_nonneg|apply Z.shiftr_nonneg]; lia.
Qed.

Lemma raw_backoff_not_negative p attempt :
  (0 ≤ InitialInterval p)%Z → not_negative (BackoffFactor p) →
  not_negative (raw_backoff p attempt).
Proof.
  intros. apply float_mul_not_negative; [by apply float_of_int_not_negative|].
  by apply powFloat_not_negative.
Qed.

(** A policy with no negative part. *)
Definition sane_policy (p : RetryPolicy) : Prop :=
  (0 ≤ InitialInterval p)%Z ∧ not_negative (BackoffFactor p) ∧
  (0 ≤ MaxInterval p < int_bound)%Z.

(** The jitter of an attempt, before its conversion. *)
Definition raw_jitter `{GoFloat} (p : RetryPolicy) (attempt : Z) (rnd : spec_float) : spec_float :=
  float_mul (float_mul (float_of_int (Z.min (duration_of_float (raw_backoff p attempt))
                                            (MaxInterval p))) half) rnd.

(** For a policy with no negative part, as long as the exponential and the
    jitter fit 64 bits, the backoff of every attempt is between zero and the
    cap, and the jitter only shortens it. *)
Theorem CalculateBackoff_bounds `{F : GoFloat} p attempt rnd :
  sane_policy p → not_negative rnd →
  f2i_ok (raw_backoff p attempt) = true →
  f2i_ok (raw_jitter p attempt rnd) = true →
  (0 ≤ CalculateBackoff p attempt rnd ≤ MaxInterval p)%Z.
Proof.
  intros (Hi & Hb & Hm) Hr Hraw Hjit. unfold CalculateBackoff.
  pose proof (duration_not_negative _ (raw_backoff_not_negative p attempt Hi Hb) Hraw) as Hd.
  fold (raw_jitter p attempt rnd).
  set (b := Z.min _ (MaxInterval p)) in *. assert (0 ≤ b ≤ MaxInterval p)%Z by lia.
  destruct (Jitter p); [|lia].
  assert (0 ≤ duration_of_float (raw_jitter p attempt rnd))%Z as Hj.
  { apply duration_not_negative; [|done].
    apply float_mul_not_negative; [|done]. apply float_mul_not_negative; [|done].
    apply float_of_int_not_negative. fold b. lia. }
  assert (duration_of_float (raw_jitter p attempt rnd) < int_bound)%Z as Hj'.
  { unfold duration_of_float, int64_of_float. rewrite Hjit. unfold f2i_ok in Hjit.
    destruct (raw_jitter p attempt rnd); bool_hyps; try done; lia. }
  rewrite wrap64_id by (unfold in_int64; lia). lia.
Qed.

Lemma CalculateBackoff_bounds_witness :
  sane_policy DefaultRetryPolicy ∧
  (0 ≤ CalculateBackoff (F := amd64) DefaultRetryPolicy 3 half ≤ 128 * Second)%Z.
Proof.
  assert (sane_policy DefaultRetryPolicy) as Hs by (repeat split; done).
  split; [done|].
  apply (CalculateBackoff_bounds (F := amd64) DefaultRetryPolicy 3 half Hs);
    [done| |]; vm_compute; reflexivity.
Defined.

(** When the exponential leaves the 64-bit range the cap no longer holds from
    below: the default policy waits nothing before its 37th attempt. *)
Example backoff_overflow :
  CalculateBackoff (F := amd64) DefaultRetryPolicy 35 half = (96 * Second)%Z ∧
  CalculateBackoff (F := amd64) DefaultRetryPolicy 36 half = 0%Z.
Proof. split; vm_compute; reflexivity. Qed.

(** ** RetryExecutor *)

(** The node function of a task, as a function of how often it was called. *)
Abbreviation task_fn := (nat → outcome).

Section executor.
Context `{GoRuntime}.

(** [RetryOn] is nil or a predicate. *)
Definition retryable (p : RetryPolicy) (e : error) : bool :=
  match RetryOn p with None => true | Some f => f e end.

Definition panic_error (name : string) (v : val) : error :=
  Errorf ("node " +:+ name +:+ " panicked: " +:+ fmt_v v).

(** The loop of [RetryExecutor.Execute]: [fuel] attempts are left, [calls]
    counts the calls of the function so far, [done n] is the context's error
    if it is done when the executor waits after call [n]. *)
Fixpoint execute_loop (p : RetryPolicy) (done_ : nat → option error) (name : string)
    (fn : task_fn) (fuel : nat) (attempt : Z) (calls : nat)
    (lastErr : option error) (lastOutput : val) : (val * option error) * nat :=
  match fuel with
  | O => ((VNil, Some (RetryExhaustedError name (MaxAttempts p) lastErr lastOutput)), calls)
  | S fuel' =>
      match fn calls with
      | Panics v => ((VNil, Some (panic_error name v)), S calls)
      | Return output None => ((output, None), S calls)
      | Return output (Some err) =>
          if IsGraphInterrupt err then ((VNil, Some err), S calls)
          else if negb (retryable p err) then
            ((VNil, Some (Wrapf ("node " +:+ name +:+ " failed with non-retryable error") err)),
             S calls)
          else if (MaxAttempts p <=? attempt)%Z then
            ((VNil, Some (RetryExhaustedError name (MaxAttempts p) (Some err) output)), S calls)
          else
            match done_ calls with
            | Some e =>
                ((VNil, Some (Wrapf ("node " +:+ name +:+ " cancelled during retry") e)), S calls)
            | None => execute_loop p done_ name fn fuel' (attempt + 1) (S calls) (Some err) output
            end
      end
  end.

(** [Execute]: [for attempt := 1; attempt <= MaxAttempts; attempt++]. *)
Definition Execute (p : RetryPolicy) (done_ : nat → option error) (name : string)
    (fn : task_fn) (calls : nat) : (val * option error) * nat :=
  execute_loop p done_ name fn (Z.to_nat (MaxAttempts p)) 1 calls None VNil.

(** [NewRetryExecutor]: a nil policy is the default one. *)
Definition NewRetryExecutor (p : option RetryPolicy) : RetryPolicy := default DefaultRetryPolicy p.

(** What a single call decides: [None] means try again. *)
Definition verdict (p : RetryPolicy) (name : string) (o : outcome) : option (val * option error) :=
  match o with
  | Panics v => Some (VNil, Some (panic_error name v))
  | Return output None => Some (output, None)
  | Return _ (Some err) =>
      if IsGraphInterrupt err then Some (VNil, Some err)
      else if retryable p err then None
      else Some (VNil, Some (Wrapf ("node " +:+ name +:+ " failed with non-retryable error") err))
  end.

Lemma execute_loop_step p done_ name fn fuel attempt calls le lo :
  (attempt + Z.of_nat fuel = MaxAttempts p)%Z →
  execute_loop p done_ name fn (S fuel) attempt calls le lo =
    match verdict p name (fn calls), fn calls with
    | Some r, _ => (r, S calls)
    | None, Return output err =>
        if decide (fuel = 0)
        then ((VNil, Some (RetryExhaustedError name (MaxAttempts p) err output)), S calls)
        else match done_ calls with
             | Some e =>
                ((VNil, Some (Wrapf ("node " +:+ name +:+ " cancelled during retry") e)), S calls)
             | None => execute_loop p done_ name fn fuel (attempt + 1) (S calls) err output
             end
    | None, Panics _ => ((VNil, None), S calls)
    end.
Proof.
  intros Hf. cbn [execute_loop]. unfold verdict.
  destruct (fn calls) as [output [err|]|v]; [|done..].
  destruct (IsGraphInterrupt err); [done|]. destruct (retryable p err); [|done]. simpl.
  case_decide; [rewrite (proj2 (Z.leb_le _ _)) by lia|rewrite (proj2 (Z.leb_gt _ _)) by lia]; done.
Qed.

Lemma execute_loop_verdict p done_ name fn fuel attempt calls le lo k r :
  (attempt + Z.of_nat fuel = MaxAttempts p + 1)%Z → k < fuel →
  (∀ i, i < k → verdict p name (fn (calls + i)) = None ∧ done_ (calls + i) = None) →
  verdict p name (fn (calls + k)) = Some r →
  execute_loop p done_ name fn fuel attempt calls le lo = (r, calls + S k).
Proof.
  revert attempt calls le lo k. induction fuel as [|fuel IH];
    intros attempt calls le lo k Hf Hk Hall Hr; [lia|].
  rewrite execute_loop_step by lia. destruct k as [|k].
  - rewrite Nat.add_0_r in Hr. rewrite Hr. f_equal. lia.
  - destruct (Hall 0 ltac:(lia)) as [Hv Hd]. rewrite Nat.add_0_r in Hv, Hd. rewrite Hv.
    destruct (fn calls) as [output err|] eqn:Hfn; [|done].
    rewrite decide_False by lia. rewrite Hd.
    rewrite (IH _ _ _ _ k); [f_equal; lia|lia|lia| |by rewrite Nat.add_succ_comm].
    intros i Hi. rewrite Nat.add_succ_comm. apply Hall. lia.
Qed.

Lemma execute_loop_exhausted p done_ name fn fuel attempt calls le lo output err :
  (attempt + Z.of_nat (S fuel) = MaxAttempts p + 1)%Z →
  (∀ i, i < S fuel → verdict p name (fn (calls + i)) = None) →
  (∀ i, i < fuel → done_ (calls + i) = None) →
  fn (calls + fuel) = Return output err →
  execute_loop p done_ name fn (S fuel) attempt calls le lo =
    ((VNil, Some (RetryExhaustedError name (MaxAttempts p) err output)), calls + S fuel).
Proof.
  revert attempt calls le lo. induction fuel as [|fuel IH];
    intros attempt calls le lo Hf Hv Hd Hlast; rewrite execute_loop_step by lia.
  - pose proof (Hv 0 ltac:(lia)) as Hv0. rewrite Nat.add_0_r in *. rewrite Hv0, Hlast.
    rewrite decide_True by done. f_equal. lia.
  - pose proof (Hv 0 ltac:(lia)) as Hv0. pose proof (Hd 0 ltac:(lia)) as Hd0.
    rewrite Nat.add_0_r in Hv0, Hd0. rewrite Hv0.
    destruct (fn calls) as [o e|] eqn:Hfn; [|done].
    rewrite decide_False by lia. rewrite Hd0.
    rewrite IH; [f_equal; lia|lia| | |by rewrite Nat.add_succ_comm];
      intros i Hi; rewrite Nat.add_succ_comm; [apply Hv|apply Hd]; lia.
Qed.

(** The executor never calls the function more often than the policy allows. *)
Lemma execute_loop_calls p done_ name fn fuel attempt calls le lo :
  calls ≤ (execute_loop p done_ name fn fuel attempt calls le lo).2 ≤ calls + fuel.
Proof.
  revert attempt calls le lo. induction fuel as [|fuel IH]; intros; cbn [execute_loop]; [simpl; lia|].
  repeat case_match; cbn [snd]; try lia.
  match goal with |- context [execute_loop p done_ name fn fuel ?a ?c ?x ?y] =>
    pose proof (IH a c x y) end. lia.
Qed.

Lemma execute_loop_cancelled p done_ name fn fuel attempt calls le lo k e :
  (attempt + Z.of_nat fuel = MaxAttempts p + 1)%Z → S k < fuel →
  (∀ i, i ≤ k → verdict p name (fn (calls + i)) = None) →
  (∀ i, i < k → done_ (calls + i) = None) → done_ (calls + k) = Some e →
  execute_loop p done_ name fn fuel attempt calls le lo =
    ((VNil, Some (Wrapf ("node " +:+ name +:+ " cancelled during retry") e)), calls + S k).
Proof.
  revert attempt calls le lo k. induction fuel as [|fuel IH];
    intros attempt calls le lo k Hf Hk Hv Hd He; [lia|].
  rewrite execute_loop_step by lia. pose proof (Hv 0 ltac:(lia)) as Hv0.
  rewrite Nat.add_0_r in Hv0. rewrite Hv0.
  destruct (fn calls) as [o er|] eqn:Hfn; [|done]. rewrite decide_False by lia.
  destruct k as [|k].
  - rewrite Nat.add_0_r in He. rewrite He. f_equal. lia.
  - pose proof (Hd 0 ltac:(lia)) as Hd0. rewrite Nat.add_0_r in Hd0. rewrite Hd0.
    rewrite (IH _ _ _ _ k); [f_equal; lia|lia|lia| | |by rewrite Nat.add_succ_comm];
      intros i Hi; rewrite Nat.add_succ_comm; [apply Hv|apply Hd]; lia.
Qed.
End executor.

(** ** MultiPolicyRetryExecutor *)
Section multi.
Context `{GoRuntime}.

(** The first policy whose predicate accepts the error. *)
Definition findMatchingPolicy (policies : list RetryPolicy) (err : error) : option RetryPolicy :=
  snd <$> list_find (λ p, retryable p err = true) policies.

Definition with_max_attempts (n : Z) (p : RetryPolicy) : RetryPolicy :=
  {| InitialInterval := InitialInterval p; BackoffFactor := BackoffFactor p;
     MaxInterval := MaxInterval p; MaxAttempts := n; Jitter := Jitter p; RetryOn := RetryOn p |}.

(** The outer loop; a panic of a call it makes itself is not recovered.
    [None]: out of fuel. *)
Fixpoint multi_loop (policies : list RetryPolicy) (done_ : nat → option error) (name : string)
    (fn : task_fn) (fuel : nat) (attempt : Z) (calls : nat) : option (outcome * nat) :=
  match fuel with
  | O => None
  | S fuel' =>
      match fn calls with
      | Panics v => Some (Panics v, S calls)
      | Return output None => Some (Return output None, S calls)
      | Return output (Some err) =>
          let attempt := (attempt + 1)%Z in
          match findMatchingPolicy policies err with
          | None =>
              Some (Return VNil
                (Some (Wrapf ("node " +:+ name +:+ " failed with non-retryable error") err)), S calls)
          | Some policy =>
              if (MaxAttempts policy <=? attempt)%Z then
                Some (Return VNil (Some (RetryExhaustedError name attempt (Some err) output)), S calls)
              else
                let remaining := (MaxAttempts policy - attempt)%Z in
                let '((result, e), calls') :=
                  Execute (with_max_attempts (remaining + 1) policy) done_ name fn (S calls) in
                match e with
                | None => Some (Return result None, calls')
                | Some _ => multi_loop policies done_ name fn fuel' (attempt + remaining) calls'
                end
          end
      end
  end.

(** [MultiPolicyRetryExecutor.Execute] *)
Definition multi_Execute (policies : list RetryPolicy) (done_ : nat → option error)
    (name : string) (fn : task_fn) (fuel : nat) : option (outcome * nat) :=
  match policies with
  | [] => Some (fn 0, 1)
  | _ => multi_loop policies done_ name fn fuel 0 0
  end.

(** The greatest number of attempts among the policies. *)
Definition max_attempts (policies : list RetryPolicy) : Z :=
  foldr (λ p m, Z.max (MaxAttempts p) m) 0%Z policies.

Lemma findMatchingPolicy_max policies err p :
  findMatchingPolicy policies err = Some p → (MaxAttempts p ≤ max_attempts policies)%Z.
Proof.
  unfold findMatchingPolicy. destruct (list_find _ policies) as [[i q]|] eqn:E; [|done].
  intros [= <-]. apply list_find_Some in E as (Hi & _).
  apply list_elem_of_lookup_2 in Hi.
  induction policies as [|p' policies IH]; [by apply elem_of_nil in Hi|].
  apply elem_of_cons in Hi as [->|Hi]; simpl; [lia|]. specialize (IH Hi). lia.
Qed.

Lemma multi_loop_total policies done_ name fn fuel attempt calls :
  (max_attempts policies < attempt + Z.of_nat fuel)%Z → 0 < fuel →
  is_Some (multi_loop policies done_ name fn fuel attempt calls).
Proof.
  revert attempt calls. induction fuel as [|fuel IH]; intros attempt calls Hf Hpos; [lia|].
  cbn [multi_loop]. destruct (fn calls) as [output [err|]|v]; [|eauto..].
  destruct (findMatchingPolicy policies err) as [p|] eqn:Hp; [|eauto].
  apply findMatchingPolicy_max in Hp.
  destruct (Z.leb_spec (MaxAttempts p) (attempt + 1)); [eauto|].
  destruct (Execute _ _ _ _ _) as [[result [e|]] calls']; [|eauto].
  apply IH; lia.
Qed.
End multi.

(** ** Error predicates *)

Definition lower_ascii (a : ascii) : ascii :=
  let n := Ascii.nat_of_ascii a in
  if decide (65 ≤ n ≤ 90) then Ascii.ascii_of_nat (n + 32) else a.

Fixpoint toLower (s : string) : string :=
  match s with EmptyString => "" | String a s' => String (lower_ascii a) (toLower s') end.

Definition containsIgnoreCase (s substr : string) : bool :=
  let s := toLower s in
  let substr := toLower substr in
  bool_decide (String.length substr ≤ String.length s) && String.prefix substr s.

Definition contains (s substr : string) : bool :=
  bool_decide (String.length substr ≤ String.length s) &&
  (bool_decide (s = substr) ||
   (bool_decide (String.length substr < String.length s) &&
    (bool_decide (String.substring 0 (String.length substr) s = substr) ||
     containsIgnoreCase s substr))).

Definition matches_any (keywords : list string) (e : error) : bool :=
  existsb (contains (Error_string e)) keywords.

Definition network_keywords : list string :=
  ["connection refused"; "connection reset"; "timeout"; "network"; "dns";
   "temporary failure"; "503"; "502"; "504"].
Definition temporary_keywords : list string :=
  ["temporary"; "transient"; "rate limit"; "too many requests"; "429"].
Definition resource_keywords : list string :=
  ["resource exhausted"; "too many requests"; "rate limit"; "quota exceeded"; "429"; "503"].
Definition timeout_keywords : list string :=
  ["timeout"; "deadline exceeded"; "context deadline"; "408"; "504"].

Definition NetworkErrors : error → bool := matches_any network_keywords.
Definition TemporaryErrors : error → bool := matches_any temporary_keywords.
Definition ResourceErrors : error → bool := matches_any resource_keywords.
Definition TimeoutErrors : error → bool := matches_any timeout_keywords.

(** [RetryPolicyPresets] *)
Definition three_halves : spec_float := S754_finite false 6755399441055744 (-52).

Definition network_policy : RetryPolicy :=
  {| MaxAttempts := 5; InitialInterval := 100 * Millisecond; MaxInterval := 30 * Second;
     BackoffFactor := float_of_int 2; Jitter := true; RetryOn := Some NetworkErrors |}.
Definition temporary_policy : RetryPolicy :=
  {| MaxAttempts := 3; InitialInterval := 500 * Millisecond; MaxInterval := 10 * Second;
     BackoffFactor := three_halves; Jitter := true; RetryOn := Some TemporaryErrors |}.
Definition resource_policy : RetryPolicy :=
  {| MaxAttempts := 10; InitialInterval := 1 * Second; MaxInterval := 60 * Second;
     BackoffFactor := three_halves; Jitter := true; RetryOn := Some ResourceErrors |}.
Definition timeout_policy : RetryPolicy :=
  {| MaxAttempts := 3; InitialInterval := 1 * Second; MaxInterval := 30 * Second;
     BackoffFactor := float_of_int 2; Jitter := false; RetryOn := Some TimeoutErrors |}.

Definition CreateDefaultMultiPolicy : list RetryPolicy :=
  [network_policy; temporary_policy; timeout_policy; resource_policy].

(** ** Properties *)

(** Every branch of [RetryExecutor.Execute].  The first call that does not
    ask for a retry decides the result; if all [MaxAttempts] calls ask for one
    the result carries the last error and output; a context done between two
    attempts ends the loop; and the function is never called more than
    [MaxAttempts] times. *)
Theorem Execute_spec `{GoRuntime} p done_ name fn c :
  let N := Z.to_nat (MaxAttempts p) in
  let retried k := ∀ i, i < k → verdict p name (fn (c + i)) = None in
  let waited k := ∀ i, i < k → done_ (c + i) = None in
  (∀ k r, k < N → retried k → waited k → verdict p name (fn (c + k)) = Some r →
     Execute p done_ name fn c = (r, c + S k)) ∧
  (∀ k e, S k < N → retried (S k) → waited k → done_ (c + k) = Some e →
     Execute p done_ name fn c =
       ((VNil, Some (Wrapf ("node " +:+ name +:+ " cancelled during retry") e)), c + S k)) ∧
  (∀ n output err, N = S n → retried N → waited n → fn (c + n) = Return output err →
     Execute p done_ name fn c =
       ((VNil, Some (RetryExhaustedError name (MaxAttempts p) err output)), c + N)) ∧
  (N = 0 → Execute p done_ name fn c =
       ((VNil, Some (RetryExhaustedError name (MaxAttempts p) None VNil)), c)) ∧
  (Execute p done_ name fn c).2 ≤ c + N.
Proof.
  intros N retried waited. unfold Execute. fold N. split_and_all.
  - intros k r Hk Hr Hw Hv. apply execute_loop_verdict; [lia..| |done].
    intros i Hi. by split; [apply Hr|apply Hw].
  - intros k e Hk Hr Hw He. apply execute_loop_cancelled; [lia..| |done|done].
    intros i Hi. apply Hr. lia.
  - intros n output err HN Hr Hw Hfn. rewrite HN.
    apply execute_loop_exhausted; [lia| |done|done]. intros i Hi. apply Hr. lia.
  - intros ->. done.
  - apply execute_loop_calls.
Qed.

(** [MultiPolicyRetryExecutor.Execute] ends for every list of policies and
    every node function: as many rounds as the greatest [MaxAttempts] of its
    policies, plus one, are enough. *)
Theorem multi_Execute_total `{GoRuntime} policies done_ name fn :
  is_Some (multi_Execute policies done_ name fn (S (Z.to_nat (max_attempts policies)))).
Proof.
  unfold multi_Execute. destruct policies; [eauto|].
  assert (0 ≤ max_attempts (r :: policies))%Z by (simpl; induction policies; simpl in *; lia).
  apply multi_loop_total; lia.
Qed.

(** A policy of [N > 1] attempts does not bound the calls of the multi-policy
    executor by [N]: a function that always fails with an error the policy
    matches is called [N + 2] times. *)
Theorem multi_Execute_overruns `{GoRuntime} p name output err :
  (1 < MaxAttempts p)%Z → retryable p err = true → IsGraphInterrupt err = false →
  multi_Execute [p] (λ _, None) name (λ _, Return output (Some err)) 2 =
    Some (Return VNil (Some (RetryExhaustedError name (MaxAttempts p + 1) (Some err) output)),
          Z.to_nat (MaxAttempts p) + 2).
Proof.
  intros HN Hr Hi. unfold multi_Execute. cbn [multi_loop].
  assert (findMatchingPolicy [p] err = Some p) as Hfind.
  { unfold findMatchingPolicy. simpl. by rewrite decide_True. }
  rewrite Hfind. rewrite (proj2 (Z.leb_gt _ _)) by lia.
  replace (MaxAttempts p - (0 + 1) + 1)%Z with (MaxAttempts p) by lia.
  unfold Execute. cbn [with_max_attempts MaxAttempts].
  destruct (Z.to_nat (MaxAttempts p)) as [|n] eqn:HN'; [lia|].
  rewrite (execute_loop_exhausted _ _ _ _ n _ _ _ _ output (Some err)); [|simpl; lia| |done|done].
  - rewrite (proj2 (Z.leb_le _ _)) by lia. do 2 f_equal; [|lia]. do 3 f_equal. lia.
  - intros i _. unfold verdict. rewrite Hi. unfold retryable in *. simpl. by rewrite Hr.
Qed.

Lemma multi_Execute_overruns_witness :
  (1 < MaxAttempts DefaultRetryPolicy)%Z ∧
  multi_Execute (H := fixed_addresses) [DefaultRetryPolicy] (λ _, None) "n"
    (λ _, Return VNil (Some (Errorf "x"))) 2 =
    Some (Return VNil (Some (RetryExhaustedError "n" 4 (Some (Errorf "x")) VNil)), 5).
Proof.
  split; [done|].
  apply (multi_Execute_overruns (H := fixed_addresses)
           DefaultRetryPolicy "n" VNil (Errorf "x")); done.
Defined.

Lemma length_toLower s : String.length (toLower s) = String.length s.
Proof. induction s as [|a s IH]; simpl; congruence. Qed.

Lemma prefix_toLower s t : String.prefix s t = true → String.prefix (toLower s) (toLower t) = true.
Proof.
  revert t. induction s as [|a s IH]; intros [|b t]; simpl; try done.
  destruct (ascii_dec a b) as [->|]; [|done]. intros.
  destruct (ascii_dec _ _); [auto|done].
Qed.

Lemma substring_prefix s t :
  String.substring 0 (String.length s) t = s → String.prefix s t = true.
Proof.
  revert t. induction s as [|a s IH]; intros [|b t]; simpl; try done.
  intros [= -> Ht]. destruct (ascii_dec _ _); [by apply IH|done].
Qed.

(** [contains] looks for the text at the start only: it holds when the
    strings are equal, or the second is a proper prefix up to the case of
    ASCII letters.  So the network and rate-limit predicates do not recognise
    an error whose message has the keyword further in. *)
Theorem contains_is_prefix s substr :
  contains s substr = true ↔
  s = substr ∨ (String.length substr < String.length s ∧
                String.prefix (toLower substr) (toLower s) = true).
Proof.
  unfold contains, containsIgnoreCase.
  rewrite !andb_true_iff, !orb_true_iff, !andb_true_iff, !orb_true_iff, !andb_true_iff,
    !bool_decide_eq_true, !length_toLower.
  split.
  - intros [Hle [->|[Hlt [Hs|[_ Hp]]]]]; [by left|right; split; [done|]..]; [|done].
    by apply prefix_toLower, substring_prefix.
  - intros [->|[Hlt Hp]]; [split; [done|by left]|].
    split; [lia|]. right. split; [done|]. right. split; [lia|done].
Qed.

Example network_errors_miss :
  NetworkErrors (Errorf "dial tcp 10.0.0.1:80: connection refused") = false ∧
  NetworkErrors (Errorf "connection refused by peer") = true ∧
  NetworkErrors (Errorf "TIMEOUT") = false.
Proof. repeat split; vm_compute; reflexivity. Qed.
