(* ===== verification/Graph.v ===== *)
(** * The graph builder

    [graph/graph.go] and [graph/state.go]: a [stateGraph] collects nodes,
    edges, conditional edges, branches and channels; [Validate] checks that
    it can run; [Compile] adds the channels its state schema asks for and
    returns a [compiledGraph]. *)

From Stdlib Require Import Ascii.
From S2P Require Export Registry Retry.

(** ** State schemas

    What reflection sees of the schema value: a nil interface, a struct (or
    a pointer to one) with its fields, a map with string or other keys, or a
    value of another kind. *)
Record StructField : Type := {
  SFName : string; SFType : gotype; SFTag : string; SFExported : bool
}.

Inductive schema : Type :=
| SNil
| SStruct (isPtr : bool) (name : string) (fields : list StructField)
| SMap (stringKeys : bool)
| SOther (kind : string).

(** [Annotation] and [fieldInfo]. *)
Record Annotation : Type := { Reducer : option ReducerFunc; AMetadata : gmap string val }.
Record fieldInfo : Type := {
  FIName : string; FIType : gotype; FIChannel : channel; FIAnnotation : option Annotation
}.

(** The registry of built-in reducers; state.go repeats those of reducer.go. *)
Definition reducers_ : gmap string ReducerFunc :=
  {[ "add" := AddReducer; "append" := AppendReducer; "merge" := MergeReducer ]}.

(** [strings.TrimSpace] of an ASCII string. *)
Definition is_space (a : ascii) : bool :=
  let n := nat_of_ascii a in bool_decide (n = 32 ∨ 9 ≤ n ≤ 13).

Fixpoint trim_left (s : string) : string :=
  match s with
  | String a s' => if is_space a then trim_left s' else s
  | EmptyString => ""
  end.

Fixpoint trim_right (s : string) : string :=
  match s with
  | String a s' =>
      match trim_right s' with
      | EmptyString => if is_space a then "" else String a ""
      | t => String a t
      end
  | EmptyString => ""
  end.

Definition TrimSpace (s : string) : string := trim_right (trim_left s).

(** [strings.SplitN(s, sep, 2)]: [None] when the separator does not occur. *)
Fixpoint split_first (c : ascii) (s : string) : option (string * string) :=
  match s with
  | EmptyString => None
  | String a s' =>
      if decide (a = c) then Some ("", s')
      else match split_first c s' with
           | Some (k, v) => Some (String a k, v)
           | None => None
           end
  end.

Fixpoint parse_pairs (pairs : list string) (an : Annotation) : res Annotation :=
  match pairs with
  | [] => Ok an
  | kv :: pairs' =>
      match split_first "="%char kv with
      | None =>
          parse_pairs pairs' {| Reducer := Reducer an;
                                AMetadata := <[kv := VBool true]> (AMetadata an) |}
      | Some (k, v) =>
          let key := TrimSpace k in
          let value := TrimSpace v in
          if decide (key = "reducer") then
            match reducers_ !! value with
            | None => Err (Errorf ("unknown reducer: " +:+ value))
            | Some r => parse_pairs pairs' {| Reducer := Some r; AMetadata := AMetadata an |}
            end
          else parse_pairs pairs' {| Reducer := Reducer an;
                                     AMetadata := <[key := VStr value]> (AMetadata an) |}
      end
  end.

Definition parseAnnotation (tag : string) : res Annotation :=
  parse_pairs (split_on ","%char tag) {| Reducer := None; AMetadata := ∅ |}.

Local Open Scope go_scope.

Definition processField (field : StructField) : res fieldInfo :=
  let! an := (if decide (SFTag field = "") then Ok None
              else match parseAnnotation (SFTag field) with
                   | Ok a => Ok (Some a)
                   | Err e => Err (Wrapf "invalid annotation" e)
                   end) in
  Ok {| FIName := SFName field; FIType := SFType field;
        FIChannel := CreateReducerChannel (SFName field) (SFType field) (an ≫= Reducer);
        FIAnnotation := an |}.

Fixpoint validate_fields (fields : list StructField) (infos : gmap string fieldInfo)
  : res (gmap string fieldInfo) :=
  match fields with
  | [] => Ok infos
  | field :: fields' =>
      if SFExported field then
        match processField field with
        | Err e => Err (Wrapf ("field " +:+ SFName field) e)
        | Ok info => validate_fields fields' (<[FIName info := info]> infos)
        end
      else validate_fields fields' infos
  end.

Definition validateStateSchema (s : schema) : res (gmap string fieldInfo) :=
  match s with
  | SNil => Err (Errorf "state schema cannot be nil")
  | SStruct _ _ fields => validate_fields fields ∅
  | SMap stringKeys =>
      if stringKeys then Ok ∅ else Err (Errorf "state schema map must have string keys")
  | SOther kind => Err (Errorf ("state schema must be a struct or map, got " +:+ kind))
  end.

(** ** stateGraph *)
Record stateGraph : Type := MkGraph {
  nodes : gmap string Node;
  edges : list Edge;
  dataEdges : list DataEdge;
  conditionalEdges : list ConditionalEdge;
  branches : list Branch;
  entryPoint : string;
  finishPoints : list string;
  gchannels : gmap string channel;
  greducers : gmap string ReducerFunc;
  stateSchema : schema;
  inputSchema : schema;
  outputSchema : schema;
  triggerMode : NodeTriggerMode
}.

Definition NewStateGraph (s : schema) : stateGraph :=
  MkGraph ∅ [] [] [] [] "" [] ∅ ∅ s s s NodeTriggerUnset.

(** One field replaced. *)
Definition with_nodes x (g : stateGraph) : stateGraph :=
  MkGraph x (edges g) (dataEdges g) (conditionalEdges g) (branches g) (entryPoint g)
    (finishPoints g) (gchannels g) (greducers g) (stateSchema g) (inputSchema g)
    (outputSchema g) (triggerMode g).
Definition with_edges x (g : stateGraph) : stateGraph :=
  MkGraph (nodes g) x (dataEdges g) (conditionalEdges g) (branches g) (entryPoint g)
    (finishPoints g) (gchannels g) (greducers g) (stateSchema g) (inputSchema g)
    (outputSchema g) (triggerMode g).
Definition with_dataEdges x (g : stateGraph) : stateGraph :=
  MkGraph (nodes g) (edges g) x (conditionalEdges g) (branches g) (entryPoint g)
    (finishPoints g) (gchannels g) (greducers g) (stateSchema g) (inputSchema g)
    (outputSchema g) (triggerMode g).
Definition with_conditionalEdges x (g : stateGraph) : stateGraph :=
  MkGraph (nodes g) (edges g) (dataEdges g) x (branches g) (entryPoint g)
    (finishPoints g) (gchannels g) (greducers g) (stateSchema g) (inputSchema g)
    (outputSchema g) (triggerMode g).
Definition with_branches x (g : stateGraph) : stateGraph :=
  MkGraph (nodes g) (edges g) (dataEdges g) (conditionalEdges g) x (entryPoint g)
    (finishPoints g) (gchannels g) (greducers g) (stateSchema g) (inputSchema g)
    (outputSchema g) (triggerMode g).
Definition with_entryPoint x (g : stateGraph) : stateGraph :=
  MkGraph (nodes g) (edges g) (dataEdges g) (conditionalEdges g) (branches g) x
    (finishPoints g) (gchannels g) (greducers g) (stateSchema g) (inputSchema g)
    (outputSchema g) (triggerMode g).
Definition with_finishPoints x (g : stateGraph) : stateGraph :=
  MkGraph (nodes g) (edges g) (dataEdges g) (conditionalEdges g) (branches g) (entryPoint g)
    x (gchannels g) (greducers g) (stateSchema g) (inputSchema g)
    (outputSchema g) (triggerMode g).
Definition with_channels x y (g : stateGraph) : stateGraph :=
  MkGraph (nodes g) (edges g) (dataEdges g) (conditionalEdges g) (branches g) (entryPoint g)
    (finishPoints g) x y (stateSchema g) (inputSchema g)
    (outputSchema g) (triggerMode g).
Definition with_schemas i o (g : stateGraph) : stateGraph :=
  MkGraph (nodes g) (edges g) (dataEdges g) (conditionalEdges g) (branches g) (entryPoint g)
    (finishPoints g) (gchannels g) (greducers g) (stateSchema g) i o (triggerMode g).
Definition with_triggerMode x (g : stateGraph) : stateGraph :=
  MkGraph (nodes g) (edges g) (dataEdges g) (conditionalEdges g) (branches g) (entryPoint g)
    (finishPoints g) (gchannels g) (greducers g) (stateSchema g) (inputSchema g)
    (outputSchema g) x.

Module SG.
Definition WithInputSchema (s : schema) (g : stateGraph) : stateGraph :=
  with_schemas s (outputSchema g) g.
Definition WithOutputSchema (s : schema) (g : stateGraph) : stateGraph :=
  with_schemas (inputSchema g) s g.
Definition SetNodeTriggerMode : NodeTriggerMode → stateGraph → stateGraph := with_triggerMode.

Definition plain_node (name : string) (fn : option NodeFunc) : Node := {|
  NName := name; Function := fn; Triggers := []; Writes := []; NRetryPolicy := None;
  NTags := []; NMetadata := ∅; FieldMappings := []
|}.

(** The graph keeps the node under its name, in place of an earlier one. *)
Definition AddNode (name : string) (fn : option NodeFunc) (g : stateGraph) : stateGraph :=
  with_nodes (<[name := plain_node name fn]> (nodes g)) g.

(** The wrapper [AddNodeWithOptions] puts around a node function that has a
    pre- or a post-handler. *)
Definition wrap_handlers (name : string) (pre post orig : option NodeFunc) : NodeFunc :=
  λ ctx n state,
    let after_pre state :=
      match call orig ctx n state with
      | Panics v => Panics v
      | Return _ (Some err) => Return VNil (Some err)
      | Return out None =>
          match post with
          | None => Return out None
          | Some post =>
              match post ctx n out with
              | Panics v => Panics v
              | Return _ (Some err) =>
                  Return VNil (Some (Wrapf ("state post-handler for '" +:+ name +:+ "'") err))
              | Return out None => Return out None
              end
          end
      end in
    match pre with
    | None => after_pre state
    | Some pre =>
        match pre ctx n state with
        | Panics v => Panics v
        | Return _ (Some err) =>
            Return VNil (Some (Wrapf ("state pre-handler for '" +:+ name +:+ "'") err))
        | Return state None => after_pre state
        end
    end.

Definition node_with_options (name : string) (fn : option NodeFunc) (o : NodeOptions) : Node :=
  let fn := match StatePre o, StatePost o with
            | None, None => fn
            | pre, post => Some (wrap_handlers name pre post fn)
            end in
  {| NName := name; Function := fn; Triggers := [] ++ OTriggers o; Writes := [] ++ OWrites o;
     NRetryPolicy := ORetryPolicy o; NTags := [] ++ OTags o;
     NMetadata := merge_maps ∅ (OMetadata o); FieldMappings := [] ++ OFieldMapping o |}.

Definition AddNodeWithOptions (name : string) (fn : option NodeFunc) (o : NodeOptions)
    (g : stateGraph) : stateGraph :=
  with_nodes (<[name := node_with_options name fn o]> (nodes g)) g.

Definition has_node (name : string) (g : stateGraph) : bool := bool_decide (is_Some (nodes g !! name)).

Definition AddEdge (from to : string) (g : stateGraph) : res stateGraph :=
  if negb (has_node from g) && negb (bool_decide (from = Start)) then Err (NodeNotFoundError from)
  else if negb (has_node to g) && negb (bool_decide (to = End_)) then Err (NodeNotFoundError to)
  else
    let g := with_edges (edges g ++ [{| From := from; To := to |}]) g in
    let g := if decide (from = Start) then with_entryPoint to g else g in
    Ok (if decide (to = End_ ∧ from ∉ finishPoints g)
        then with_finishPoints (finishPoints g ++ [from]) g else g).

(** The loop over [mapping] stops at the first target that is no node. *)
Fixpoint first_unknown (targets : list (string * string)) (g : stateGraph) : option string :=
  match targets with
  | [] => None
  | (_, target) :: targets' =>
      if negb (has_node target g) && negb (bool_decide (target = End_)) then Some target
      else first_unknown targets' g
  end.

Definition AddConditionalEdges (from : string) (condition : EdgeFunc) (mapping : gmap string string)
    (ord : list (string * string)) (g : stateGraph) : res stateGraph :=
  if negb (has_node from g) then Err (NodeNotFoundError from)
  else match first_unknown ord g with
       | Some target => Err (NodeNotFoundError target)
       | None => Ok (with_conditionalEdges
                       (conditionalEdges g ++
                        [{| CFrom := from; Condition := condition; Mapping := mapping |}]) g)
       end.

Definition AddBranch (from : string) (condition : EdgeFunc) (then_ : val → list string)
    (g : stateGraph) : res stateGraph :=
  if negb (has_node from g) then Err (NodeNotFoundError from)
  else Ok (with_branches
             (branches g ++ [{| BFrom := from; BCondition := condition; Then := then_ |}]) g).

Definition AddDataEdge (from to : string) (mappings : list FieldMapping) (g : stateGraph)
  : res stateGraph :=
  if negb (has_node from g) && negb (bool_decide (from = Start)) then Err (NodeNotFoundError from)
  else if negb (has_node to g) && negb (bool_decide (to = End_)) then Err (NodeNotFoundError to)
  else Ok (with_dataEdges
             (dataEdges g ++ [{| DFrom := from; DTo := to; DMapping := mappings |}]) g).

Definition SetEntryPoint (node : string) (g : stateGraph) : res stateGraph :=
  if negb (has_node node g) then Err (NodeNotFoundError node) else Ok (with_entryPoint node g).

Definition SetFinishPoint (node : string) (g : stateGraph) : res stateGraph :=
  if negb (has_node node g) then Err (NodeNotFoundError node)
  else Ok (with_finishPoints (finishPoints g ++ [node]) g).

(** A value that is not a [channels.Channel] is ignored ([None]). *)
Definition AddChannel (name : string) (c : option channel) (g : stateGraph) : stateGraph :=
  match c with
  | None => g
  | Some ch => with_channels (<[name := SetKey name ch]> (gchannels g)) (greducers g) g
  end.

Definition SetReducer (name : string) (reducer : ReducerFunc) (g : stateGraph) : stateGraph :=
  let chs := match gchannels g !! name with
             | Some ch => <[name := NewReducerChannel ch reducer]> (gchannels g)
             | None => gchannels g
             end in
  with_channels chs (<[name := reducer]> (greducers g)) g.

Definition AddChannelWithReducer (name : string) (c : option channel)
    (reducer : option ReducerFunc) (g : stateGraph) : stateGraph :=
  match c with
  | None => g
  | Some ch =>
      let ch := SetKey name ch in
      match reducer with
      | Some r => with_channels (<[name := NewReducerChannel ch r]> (gchannels g))
                                (<[name := r]> (greducers g)) g
      | None => with_channels (<[name := ch]> (gchannels g)) (greducers g) g
      end
  end.

(** ** Reachability

    The body of the breadth-first search: the unvisited targets of the edges
    and conditional edges of [current] are marked and enqueued, in order.
    [ord] is the order of each loop over a condition's mapping. *)
Definition visit (acc : gset string * list string) (t : string) : gset string * list string :=
  (acc.1 ∪ {[ t ]}, acc.2 ++ [t]).

Definition expand_edges (g : stateGraph) (current : string) (acc : gset string * list string)
  : gset string * list string :=
  foldl (λ acc e,
           if decide (From e = current ∧ (To e ∉ acc.1) ∧ To e ≠ End_) then visit acc (To e) else acc)
        acc (edges g).

Definition expand_conditional (g : stateGraph) (ord : gmap string string → list (string * string))
    (current : string) (acc : gset string * list string) : gset string * list string :=
  foldl (λ acc ce,
           if decide (CFrom ce = current) then
             foldl (λ acc kt,
                      if decide (has_node kt.2 g = true ∧ (kt.2 ∉ acc.1) ∧ kt.2 ≠ End_)
                      then visit acc kt.2 else acc) acc (ord (Mapping ce))
           else acc)
        acc (conditionalEdges g).

Fixpoint bfs (g : stateGraph) (ord : gmap string string → list (string * string))
    (fuel : nat) (queue : list string) (reachable : gset string) : option (gset string) :=
  match queue with
  | [] => Some reachable
  | current :: queue' =>
      match fuel with
      | O => None
      | S fuel' =>
          let acc := expand_conditional g ord current
                       (expand_edges g current (reachable, queue')) in
          bfs g ord fuel' acc.2 acc.1
      end
  end.

(** Every edge or mapping entry enqueues at most one node. *)
Definition bfs_fuel (g : stateGraph) : nat :=
  1 + length (edges g) + sum_list_with (λ ce, size (Mapping ce)) (conditionalEdges g).

Definition computeReachable (ord : gmap string string → list (string * string)) (g : stateGraph)
  : option (gset string) :=
  if decide (entryPoint g = "") then Some ∅
  else bfs g ord (bfs_fuel g) [entryPoint g] {[ entryPoint g ]}.

(** [Validate]; [ordn] is the order of the loop over the nodes. *)
Fixpoint first_unreachable (ordn : list (string * Node)) (reachable : gset string)
  : option string :=
  match ordn with
  | [] => None
  | (name, _) :: ordn' =>
      if decide (name ∈ reachable) then first_unreachable ordn' reachable else Some name
  end.

Definition Validate (ord : gmap string string → list (string * string))
    (ordn : list (string * Node)) (g : stateGraph) : res unit :=
  if decide (entryPoint g = "") then Err (Errorf "no entry point set")
  else if decide (finishPoints g = []) then Err (Errorf "no finish points set")
  else
    match first_unreachable ordn (default ∅ (computeReachable ord g)) with
    | Some name => Err (Errorf ("node " +:+ name +:+ " is not reachable from entry point"))
    | None =>
        match validateStateSchema (stateSchema g) with
        | Err e => Err (Wrapf "state schema validation failed" e)
        | Ok _ => Ok ()
        end
    end.

(** [configureChannelsFromSchema] *)
Definition configure_field (g : stateGraph) (kv : string * fieldInfo) : stateGraph :=
  let '(fieldName, info) := kv in
  let chs := match gchannels g !! fieldName with
             | Some _ => gchannels g
             | None => <[fieldName := FIChannel info]> (gchannels g)
             end in
  let rs := match FIAnnotation info ≫= Reducer with
            | Some r => <[fieldName := r]> (greducers g)
            | None => greducers g
            end in
  with_channels chs rs g.

Definition configureChannelsFromSchema (ordf : list (string * fieldInfo)) (g : stateGraph)
  : res stateGraph :=
  match validateStateSchema (stateSchema g) with
  | Err e => Err e
  | Ok _ => Ok (foldl configure_field g ordf)
  end.
End SG.

(** ** Compilation

    The checkpointer is an interface value the graph only passes on: its type
    is a parameter. *)
Section compile.
Context {CP : Type}.

Record compiledGraph : Type := MkCompiled {
  graph : stateGraph;
  checkpointer : option CP;
  interrupts : gset string;
  interruptsAfter : gset string;
  recursionLimit : Z;
  debug : bool;
  nodeTriggerMode : NodeTriggerMode
}.

Definition CompileOption := compiledGraph → compiledGraph.

Definition WithCheckpointer (cp : CP) : CompileOption := λ cg,
  MkCompiled (graph cg) (Some cp) (interrupts cg) (interruptsAfter cg) (recursionLimit cg)
    (debug cg) (nodeTriggerMode cg).
Definition WithInterrupts (ns : list string) : CompileOption := λ cg,
  MkCompiled (graph cg) (checkpointer cg) (foldl (λ s n, s ∪ {[ n ]}) (interrupts cg) ns)
    (interruptsAfter cg) (recursionLimit cg) (debug cg) (nodeTriggerMode cg).
Definition WithInterruptsAfter (ns : list string) : CompileOption := λ cg,
  MkCompiled (graph cg) (checkpointer cg) (interrupts cg)
    (foldl (λ s n, s ∪ {[ n ]}) (interruptsAfter cg) ns) (recursionLimit cg) (debug cg)
    (nodeTriggerMode cg).
Definition WithRecursionLimit (limit : Z) : CompileOption := λ cg,
  MkCompiled (graph cg) (checkpointer cg) (interrupts cg) (interruptsAfter cg) limit
    (debug cg) (nodeTriggerMode cg).
Definition WithDebug (b : bool) : CompileOption := λ cg,
  MkCompiled (graph cg) (checkpointer cg) (interrupts cg) (interruptsAfter cg)
    (recursionLimit cg) b (nodeTriggerMode cg).
Definition WithNodeTriggerMode (m : NodeTriggerMode) : CompileOption := λ cg,
  MkCompiled (graph cg) (checkpointer cg) (interrupts cg) (interruptsAfter cg)
    (recursionLimit cg) (debug cg) m.

(** The orders of the loops over maps that one compilation runs. *)
Record orders : Type := {
  ord_mapping : gmap string string → list (string * string);
  ord_nodes : list (string * Node);
  ord_fields : list (string * fieldInfo)
}.

(** [Compile] changes the graph it is called on: the schema's channels are
    added and the trigger mode is set.  The graph of the result is that
    graph. *)
Definition Compile (os : orders) (opts : list CompileOption) (g : stateGraph)
  : res compiledGraph :=
  match SG.Validate (ord_mapping os) (ord_nodes os) g with
  | Err e => Err (Wrapf "graph validation failed" e)
  | Ok _ =>
      match SG.configureChannelsFromSchema (ord_fields os) g with
      | Err e => Err (Wrapf "failed to configure channels from schema" e)
      | Ok g =>
          let cg := MkCompiled g None ∅ ∅ DefaultRecursionLimit false
                      NodeTriggerAnyPredecessor in
          let cg := foldl (λ cg opt, opt cg) cg opts in
          Ok (MkCompiled (with_triggerMode (nodeTriggerMode cg) (graph cg)) (checkpointer cg)
                (interrupts cg) (interruptsAfter cg) (recursionLimit cg) (debug cg)
                (nodeTriggerMode cg))
      end
  end.

(** The orders are those of loops over the graph's own maps. *)
Definition orders_of (os : orders) (g : stateGraph) : Prop :=
  (∀ m, ord_mapping os m ≡ₚ map_to_list m) ∧
  go_range (nodes g) (ord_nodes os) ∧
  (∀ infos, validateStateSchema (stateSchema g) = Ok infos → go_range infos (ord_fields os)).

Definition canonical_orders (g : stateGraph) : orders := {|
  ord_mapping := map_to_list;
  ord_nodes := map_to_list (nodes g);
  ord_fields := match validateStateSchema (stateSchema g) with
                | Ok infos => map_to_list infos
                | Err _ => []
                end
|}.

Lemma canonical_orders_of g : orders_of (canonical_orders g) g.
Proof.
  split; [done|]. split; [apply go_range_canonical|].
  intros infos H. unfold canonical_orders. rewrite H. apply go_range_canonical.
Qed.
End compile.
Arguments compiledGraph : clear implicits.
Arguments CompileOption : clear implicits.
