(* ===== verification/GraphProps.v ===== *)
(** * The graph builder: reachability, validation, well-formedness

    The breadth-first search of [Validate] computes exactly the nodes a path
    of edges and mapped targets leads to; the operations of the builder keep
    a graph well formed; [Compile] accepts exactly the valid graphs. *)

From S2P Require Export Graph.

(** ** Reachability *)
Inductive reach (g : stateGraph) : string → Prop :=
| reach_entry : reach g (entryPoint g)
| reach_edge from to :
    reach g from → {| From := from; To := to |} ∈ edges g → to ≠ End_ → reach g to
| reach_conditional ce key to :
    reach g (CFrom ce) → ce ∈ conditionalEdges g → Mapping ce !! key = Some to →
    SG.has_node to g = true → to ≠ End_ → reach g to.

Section search.
Context (g : stateGraph) (ord : gmap string string → list (string * string)).
Context (Hord : ∀ m, ord m ≡ₚ map_to_list m).

(** The targets of one node, in the order the search meets them. *)
Definition edge_targets (cur : string) : list string :=
  To <$> filter (λ e, From e = cur ∧ To e ≠ End_) (edges g).
Definition conditional_targets (cur : string) : list string :=
  filter (λ t, SG.has_node t g = true ∧ t ≠ End_)
    (mjoin ((λ ce, (ord (Mapping ce)).*2) <$> filter (λ ce, CFrom ce = cur) (conditionalEdges g))).

Definition enqueue (acc : gset string * list string) (t : string) : gset string * list string :=
  if decide (t ∉ acc.1) then SG.visit acc t else acc.

Lemma expand_edges_enqueue cur acc :
  SG.expand_edges g cur acc = foldl enqueue acc (edge_targets cur).
Proof.
  unfold SG.expand_edges, edge_targets. revert acc.
  induction (edges g) as [|e es IH]; intros acc; [done|].
  rewrite filter_cons. cbn [foldl]. rewrite IH.
  destruct (decide (From e = cur ∧ To e ≠ End_)) as [[? ?]|Hno]; simpl; unfold enqueue.
  - f_equal. by case_decide; case_decide; naive_solver.
  - by rewrite decide_False by naive_solver.
Qed.

Lemma foldl_filter_enqueue (P : string → Prop) `{!∀ t, Decision (P t)} (l : list (string * string)) acc :
  foldl (λ acc kt, if decide (P kt.2 ∧ kt.2 ∉ acc.1) then SG.visit acc kt.2 else acc) acc l =
  foldl enqueue acc (filter P l.*2).
Proof.
  revert acc. induction l as [|[k t] l IH]; intros acc; [done|].
  cbn [foldl fmap list_fmap]. rewrite IH, filter_cons.
  simpl. destruct (decide (P t)); simpl; unfold enqueue.
  - f_equal. by case_decide; case_decide; naive_solver.
  - by rewrite decide_False by naive_solver.
Qed.

Lemma expand_conditional_enqueue cur acc :
  SG.expand_conditional g ord cur acc = foldl enqueue acc (conditional_targets cur).
Proof.
  unfold SG.expand_conditional, conditional_targets. revert acc.
  induction (conditionalEdges g) as [|ce ces IH]; intros acc; [done|].
  rewrite filter_cons. cbn [foldl]. rewrite IH. clear IH.
  destruct (decide (CFrom ce = cur)); [|done].
  cbn [fmap list_fmap mjoin list_join]. rewrite filter_app, foldl_app. f_equal.
  rewrite <-foldl_filter_enqueue. apply foldl_ext.
  intros [r q] [k t]. simpl. by case_decide; case_decide; naive_solver.
Qed.

Definition targets (cur : string) : list string := edge_targets cur ++ conditional_targets cur.

Lemma elem_of_targets cur t :
  t ∈ targets cur ↔
  t ≠ End_ ∧
  ({| From := cur; To := t |} ∈ edges g ∨
   SG.has_node t g = true ∧
   ∃ ce key, ce ∈ conditionalEdges g ∧ CFrom ce = cur ∧ Mapping ce !! key = Some t).
Proof.
  unfold targets, edge_targets, conditional_targets.
  rewrite elem_of_app, list_elem_of_filter. split.
  - intros [([from to] & -> & [[<- ?] ?]%list_elem_of_filter)%list_elem_of_fmap|[[? ?] Hin]].
    + simpl in *. naive_solver.
    + split; [done|]. right. split; [done|].
      apply list_elem_of_join in Hin as (l & Hin & (ce & -> & [? Hce]%list_elem_of_filter)%list_elem_of_fmap).
      apply list_elem_of_fmap in Hin as ([key t'] & -> & Hin). rewrite Hord in Hin.
      exists ce, key. split_and!; [done..|]. by apply elem_of_map_to_list.
  - intros [? [He|(? & ce & key & ? & ? & Hk)]].
    + left. apply list_elem_of_fmap. exists {| From := cur; To := t |}. split; [done|].
      by apply list_elem_of_filter.
    + right. split; [done|]. apply list_elem_of_join. exists ((ord (Mapping ce)).*2). split.
      * apply list_elem_of_fmap. exists (key, t). split; [done|]. rewrite Hord.
        by apply elem_of_map_to_list.
      * apply list_elem_of_fmap. exists ce. split; [done|]. by apply list_elem_of_filter.
Qed.

(** Enqueuing a list marks and appends its unmarked elements, once each. *)
Lemma enqueue_all ts R Q :
  ∃ new, foldl enqueue (R, Q) ts = (R ∪ list_to_set new, Q ++ new) ∧ NoDup new ∧
         ∀ t, t ∈ new ↔ t ∈ ts ∧ t ∉ R.
Proof.
  revert R Q. induction ts as [|t ts IH]; intros R Q.
  - exists []. simpl. rewrite app_nil_r, (right_id_L ∅ (∪)). split_and!; [done|constructor|set_solver].
  - cbn [foldl]. unfold enqueue at 2; cbn [fst]. case_decide as Ht.
    + unfold SG.visit; cbn [fst snd].
      destruct (IH (R ∪ {[t]}) (Q ++ [t])) as (new & -> & Hnd & Hnew).
      exists (t :: new). split_and!.
      * f_equal; [set_solver|by rewrite <-app_assoc].
      * constructor; [|done]. set_solver.
      * intros x. rewrite !elem_of_cons. specialize (Hnew x).
        destruct (decide (x = t)); set_solver.
    + destruct (IH R Q) as (new & -> & Hnd & Hnew). exists new. split_and!; [done..|].
      intros x. specialize (Hnew x). destruct (decide (x = t)); set_solver.
Qed.

(** The search ends with a set that is closed under [targets]. *)
Lemma bfs_spec (U : gset string) fuel queue R :
  (∀ x, x ∈ queue → x ∈ R) → R ⊆ U → (∀ cur t, t ∈ targets cur → t ∈ U) →
  size (U ∖ R) + length queue ≤ fuel →
  (∀ x, x ∈ R → reach g x) →
  (∀ x, x ∈ R → x ∉ queue → ∀ t, t ∈ targets x → t ∈ R) →
  ∃ R', SG.bfs g ord fuel queue R = Some R' ∧ R ⊆ R' ∧ (∀ x, x ∈ R' → reach g x) ∧
        ∀ x t, x ∈ R' → t ∈ targets x → t ∈ R'.
Proof.
  revert queue R. induction fuel as [|fuel IH]; intros queue R HQ HR HU Hfuel Hreach Hclosed.
  - destruct queue; [|simpl in Hfuel; lia]. exists R. split_and!; [done..|].
    intros x t Hx. apply Hclosed; set_solver.
  - destruct queue as [|cur queue].
    { exists R. split_and!; [done..|]. intros x t Hx. apply Hclosed; set_solver. }
    cbn [SG.bfs]. rewrite expand_edges_enqueue, expand_conditional_enqueue, <-foldl_app.
    fold (targets cur).
    destruct (enqueue_all (targets cur) R queue) as (new & -> & Hnd & Hnew). cbn [fst snd].
    assert (cur ∈ R) by (apply HQ; set_solver).
    destruct (IH (queue ++ new) (R ∪ list_to_set new)) as (R' & ? & ? & ? & ?).
    + intros x [?|?]%elem_of_app; set_solver.
    + intros x [?|Hx%elem_of_list_to_set]%elem_of_union; [set_solver|].
      apply Hnew in Hx as [Hx _]. by eapply HU.
    + done.
    + rewrite length_app. simpl in Hfuel.
      assert (size (U ∖ (R ∪ list_to_set new)) + length new = size (U ∖ R)); [|lia].
      rewrite <-(size_list_to_set (C := gset string) new) by done.
      rewrite <-size_union by set_solver. f_equal.
      apply set_eq. intros x. destruct (decide (x ∈ new)) as [Hx|]; [|set_solver].
      pose proof Hx as [Ht ?]%Hnew. apply HU in Ht. set_solver.
    + intros x [?|Hx%elem_of_list_to_set]%elem_of_union; [by apply Hreach|].
      apply Hnew in Hx as [(Hne & [He|(? & ce & key & ? & <- & ?)])%elem_of_targets _].
      * by eapply reach_edge; [apply (Hreach cur)|..].
      * by eapply reach_conditional; [apply (Hreach (CFrom ce))|..].
    + intros x Hx Hnq t Ht. destruct (decide (t ∈ R)); [set_solver|].
      destruct (decide (x = cur)) as [->|].
      * assert (t ∈ new) by by apply Hnew. set_solver.
      * apply elem_of_union in Hx as [Hx|Hx]; [|set_solver].
        exfalso. apply (not_elem_of_app queue new x) in Hnq as [??].
        assert (t ∈ R); [|done]. eapply Hclosed; [done| |done]. set_solver.
    + exists R'. split_and!; [done|set_solver|done..].
Qed.
End search.

(** Every node the search can meet: the entry point and all targets. *)
Definition mapping_values (ce : ConditionalEdge) : list string := (map_to_list (Mapping ce)).*2.

Definition universe (g : stateGraph) : list string :=
  entryPoint g :: (To <$> edges g) ++ mjoin (mapping_values <$> conditionalEdges g).

Lemma universe_length g : length (universe g) = SG.bfs_fuel g.
Proof.
  unfold universe, SG.bfs_fuel. simpl. rewrite length_app, length_fmap. do 2 f_equal.
  induction (conditionalEdges g) as [|ce ces IH]; [done|].
  cbn [fmap list_fmap mjoin list_join sum_list_with]. rewrite length_app, <-IH.
  unfold mapping_values. rewrite length_fmap. by rewrite length_map_to_list.
Qed.

Lemma targets_universe g ord (Hord : ∀ m, ord m ≡ₚ map_to_list m) cur t :
  t ∈ targets g ord cur → t ∈ universe g.
Proof.
  unfold universe. rewrite elem_of_targets by done.
  intros [_ [He|(_ & ce & key & Hce & _ & Hk)]]; apply elem_of_cons; right; apply elem_of_app.
  - left. apply list_elem_of_fmap. eexists. by split; [|done].
  - right. apply list_elem_of_join. exists (mapping_values ce). split.
    + apply list_elem_of_fmap. exists (key, t). split; [done|]. by apply elem_of_map_to_list.
    + apply list_elem_of_fmap. by exists ce.
Qed.

Lemma size_list_to_set_le (l : list string) : size (list_to_set l : gset string) ≤ length l.
Proof.
  induction l as [|x l IH]; [done|]. simpl.
  rewrite size_union_alt, size_singleton.
  assert (size ((list_to_set l : gset string) ∖ {[x]}) ≤ size (list_to_set l : gset string)).
  { apply subseteq_size. set_solver. }
  lia.
Qed.

Lemma computeReachable_reach g ord :
  (∀ m, ord m ≡ₚ map_to_list m) → entryPoint g ≠ "" →
  ∃ R, SG.computeReachable ord g = Some R ∧ ∀ x, x ∈ R ↔ reach g x.
Proof.
  intros Hord Hentry. unfold SG.computeReachable. rewrite decide_False by done.
  destruct (bfs_spec g ord Hord (list_to_set (universe g)) (SG.bfs_fuel g)
              [entryPoint g] {[entryPoint g]}) as (R & -> & Hsub & Hsound & Hclosed).
  - set_solver.
  - intros x ->%elem_of_singleton. apply elem_of_list_to_set. by left.
  - intros cur t Ht. apply elem_of_list_to_set. by eapply targets_universe.
  - rewrite <-universe_length. unfold universe. cbn [length]. rewrite (Nat.add_comm _ 1).
    apply le_n_S. etrans; [|apply size_list_to_set_le]. apply subseteq_size.
    rewrite list_to_set_cons. set_solver.
  - intros x ->%elem_of_singleton. constructor.
  - set_solver.
  - exists R. split; [done|]. intros x. split; [apply Hsound|].
    induction 1 as [|from to _ IH He Hne|ce key to _ IH Hce Hk Hn Hne].
    + set_solver.
    + eapply Hclosed; [done|]. apply elem_of_targets; [done|]. by split; [|left].
    + eapply Hclosed; [done|]. apply elem_of_targets; [done|].
      split; [done|]. right. split; [done|]. by exists ce, key.
Qed.

(** ** Well-formed graphs *)
Definition is_node (g : stateGraph) (n : string) : Prop := is_Some (nodes g !! n).

Lemma has_node_true n g : SG.has_node n g = true ↔ is_node g n.
Proof. unfold SG.has_node. by rewrite bool_decide_eq_true. Qed.

Record well_formed (g : stateGraph) : Prop := {
  wf_edges e : e ∈ edges g →
    (From e = Start ∨ is_node g (From e)) ∧ (To e = End_ ∨ is_node g (To e));
  wf_conditional ce : ce ∈ conditionalEdges g →
    is_node g (CFrom ce) ∧ ∀ k t, Mapping ce !! k = Some t → t = End_ ∨ is_node g t;
  wf_branches b : b ∈ branches g → is_node g (BFrom b);
  wf_dataEdges e : e ∈ dataEdges g →
    (DFrom e = Start ∨ is_node g (DFrom e)) ∧ (DTo e = End_ ∨ is_node g (DTo e));
  wf_entry : entryPoint g = "" ∨ entryPoint g = End_ ∨ is_node g (entryPoint g);
  wf_finish n : n ∈ finishPoints g → n = Start ∨ is_node g n;
  wf_names n nd : nodes g !! n = Some nd → NName nd = n;
  wf_keys k c : gchannels g !! k = Some c → GetKey c = k
}.

(** One call of a method of the builder; a call that returns an error leaves
    the graph as it was. *)
Inductive builder_op : Type :=
| OpAddNode (name : string) (fn : option NodeFunc)
| OpAddNodeWithOptions (name : string) (fn : option NodeFunc) (o : NodeOptions)
| OpAddEdge (from to : string)
| OpAddConditionalEdges (from : string) (c : EdgeFunc) (m : gmap string string)
    (ord : list (string * string)) (H : go_range m ord)
| OpAddBranch (from : string) (c : EdgeFunc) (t : val → list string)
| OpAddDataEdge (from to : string) (ms : list FieldMapping)
| OpSetEntryPoint (n : string)
| OpSetFinishPoint (n : string)
| OpAddChannel (n : string) (c : option channel)
| OpSetReducer (n : string) (r : ReducerFunc)
| OpAddChannelWithReducer (n : string) (c : option channel) (r : option ReducerFunc)
| OpWithSchemas (i o : schema)
| OpSetNodeTriggerMode (m : NodeTriggerMode).

Definition try_op (r : res stateGraph) (g : stateGraph) : stateGraph :=
  match r with Ok g' => g' | Err _ => g end.

Definition run_op (op : builder_op) (g : stateGraph) : stateGraph :=
  match op with
  | OpAddNode n f => SG.AddNode n f g
  | OpAddNodeWithOptions n f o => SG.AddNodeWithOptions n f o g
  | OpAddEdge a b => try_op (SG.AddEdge a b g) g
  | OpAddConditionalEdges a c m ord _ => try_op (SG.AddConditionalEdges a c m ord g) g
  | OpAddBranch a c t => try_op (SG.AddBranch a c t g) g
  | OpAddDataEdge a b ms => try_op (SG.AddDataEdge a b ms g) g
  | OpSetEntryPoint n => try_op (SG.SetEntryPoint n g) g
  | OpSetFinishPoint n => try_op (SG.SetFinishPoint n g) g
  | OpAddChannel n c => SG.AddChannel n c g
  | OpSetReducer n r => SG.SetReducer n r g
  | OpAddChannelWithReducer n c r => SG.AddChannelWithReducer n c r g
  | OpWithSchemas i o => SG.WithOutputSchema o (SG.WithInputSchema i g)
  | OpSetNodeTriggerMode m => SG.SetNodeTriggerMode m g
  end.

(** A graph keeps its nodes when a node is added. *)
Lemma wf_add_node name nd g :
  NName nd = name → well_formed g → well_formed (with_nodes (<[name := nd]> (nodes g)) g).
Proof.
  intros Hn [He Hc Hb Hd Hen Hf Hnm Hk].
  assert (∀ x, is_node g x → is_node (with_nodes (<[name := nd]> (nodes g)) g) x) as Hmono.
  { intros x Hx. unfold is_node. simpl. destruct (decide (name = x)) as [->|];
      [rewrite lookup_insert_eq|rewrite lookup_insert_ne]; eauto. }
  split; cbn [with_nodes edges conditionalEdges branches dataEdges entryPoint finishPoints
              gchannels nodes] in *; [naive_solver..| |done].
  intros n nd' Hin. destruct (decide (name = n)) as [->|]; simplify_map_eq; naive_solver.
Qed.

(** The endpoint checks of [AddEdge] and [AddDataEdge]. *)
Lemma endpoint_check n special g :
  negb (SG.has_node n g) && negb (bool_decide (n = special)) = false →
  n = special ∨ is_node g n.
Proof.
  rewrite andb_false_iff, !negb_false_iff, has_node_true, bool_decide_eq_true. tauto.
Qed.

Lemma first_unknown_None ord g :
  SG.first_unknown ord g = None → ∀ k t, (k, t) ∈ ord → t = End_ ∨ is_node g t.
Proof.
  induction ord as [|[k' t'] ord IH]; simpl; [set_solver|].
  destruct (negb _ && negb _) eqn:E; [done|]. intros H k t [[= -> ->]|Hin]%elem_of_cons.
  - by eapply endpoint_check.
  - by eapply IH.
Qed.

Ltac wf_simpl :=
  cbn [with_edges with_dataEdges with_conditionalEdges with_branches with_entryPoint
       with_finishPoints with_channels with_schemas with_triggerMode
       edges conditionalEdges branches dataEdges entryPoint finishPoints gchannels nodes is_node
       From To DFrom DTo CFrom Mapping BFrom] in *.

(** Adding an element to one of the graph's lists. *)
Ltac wf_append := intros ? [?| ->%list_elem_of_singleton]%elem_of_app; wf_simpl; naive_solver.

Lemma wf_AddEdge from to g g' : SG.AddEdge from to g = Ok g' → well_formed g → well_formed g'.
Proof.
  unfold SG.AddEdge. intros H [He Hc Hb Hd Hen Hf Hnm Hk].
  destruct (negb _ && _) eqn:E1; [done|]. destruct (negb (SG.has_node to g) && _) eqn:E2; [done|].
  apply endpoint_check in E1, E2.
  assert (∀ x e, x ∈ finishPoints g ++ [from] → e = from → x = Start ∨ is_node g x) as Hfin.
  { intros x ? [?| ->%list_elem_of_singleton]%elem_of_app _; [by apply Hf|done]. }
  injection H as <-.
  repeat case_decide; split; wf_simpl; try done; try wf_append; try naive_solver.
Qed.

Lemma wf_set_channel k c rs g :
  GetKey c = k → well_formed g → well_formed (with_channels (<[k := c]> (gchannels g)) rs g).
Proof.
  intros Hc [He Hce Hb Hd Hen Hf Hnm Hk]. split; wf_simpl; try done.
  intros k' c' Hl. destruct (decide (k = k')) as [->|]; simplify_map_eq; naive_solver.
Qed.

Lemma run_op_well_formed op g : well_formed g → well_formed (run_op op g).
Proof.
  intros Hwf. pose proof Hwf as [He Hc Hb Hd Hen Hf Hnm Hk].
  destruct op; simpl; unfold try_op;
    try (match goal with |- context [match ?r with Ok _ => _ | Err _ => _ end] =>
           destruct r as [g'|] eqn:E; [|done] end).
  - by apply wf_add_node.
  - by apply wf_add_node.
  - by eapply wf_AddEdge.
  - unfold SG.AddConditionalEdges in E. destruct (negb _) eqn:E1; [done|].
    apply negb_false_iff, has_node_true in E1.
    destruct (SG.first_unknown _ _) eqn:E2; [done|]. injection E as <-.
    split; wf_simpl; try done.
    intros ce [?| ->%list_elem_of_singleton]%elem_of_app; [by apply Hc|]. wf_simpl. split; [done|].
    intros k t Hkt. eapply (first_unknown_None _ _ E2). by apply (go_range_elem _ _ k t H).
  - unfold SG.AddBranch in E. destruct (negb _) eqn:E1; [done|]. injection E as <-.
    apply negb_false_iff, has_node_true in E1. split; wf_simpl; try done. wf_append.
  - unfold SG.AddDataEdge in E. destruct (negb _ && _) eqn:E1; [done|].
    destruct (negb (SG.has_node to g) && _) eqn:E2; [done|]. injection E as <-.
    apply endpoint_check in E1, E2. split; wf_simpl; try done. wf_append.
  - unfold SG.SetEntryPoint in E. destruct (negb _) eqn:E1; [done|]. injection E as <-.
    apply negb_false_iff, has_node_true in E1. split; wf_simpl; try done. tauto.
  - unfold SG.SetFinishPoint in E. destruct (negb _) eqn:E1; [done|]. injection E as <-.
    apply negb_false_iff, has_node_true in E1. split; wf_simpl; try done. wf_append.
  - unfold SG.AddChannel. destruct c; [|done]. apply wf_set_channel; [|done]. apply set_key.
  - unfold SG.SetReducer. destruct (gchannels g !! n) as [ch|] eqn:E.
    + apply wf_set_channel; [|done]. exact (Hk _ _ E).
    + by split.
  - unfold SG.AddChannelWithReducer. destruct c as [c|]; [|done].
    destruct r; (apply wf_set_channel; [|done]); [exact (set_key n c)|apply set_key].
  - by split.
  - by split.
Qed.

Lemma wf_new s : well_formed (NewStateGraph s).
Proof. split; simpl; intros; first [by left | by simplify_map_eq | set_solver]. Qed.

(** The graph a sequence of calls builds. *)
Definition build (s : schema) (ops : list builder_op) : stateGraph :=
  foldl (λ g op, run_op op g) (NewStateGraph s) ops.

Lemma build_well_formed s ops : well_formed (build s ops).
Proof.
  unfold build. generalize (wf_new s). generalize (NewStateGraph s).
  induction ops as [|op ops IH]; intros g Hg; [done|]. by apply IH, run_op_well_formed.
Qed.

(** ** Validation *)
Lemma first_unreachable_None ordn R :
  SG.first_unreachable ordn R = None ↔ ∀ n nd, (n, nd) ∈ ordn → n ∈ R.
Proof.
  induction ordn as [|[n nd] ordn IH]; simpl; [set_solver|].
  case_decide; [|split; [done|intros Hall; exfalso; set_solver]].
  rewrite IH. split; [|set_solver]. intros Hall x y [[= -> ->]|?]%elem_of_cons; [done|eauto].
Qed.

Lemma first_unreachable_Some ordn R n :
  SG.first_unreachable ordn R = Some n → (n ∉ R) ∧ ∃ nd, (n, nd) ∈ ordn.
Proof.
  induction ordn as [|[k nd] ordn IH]; simpl; [done|]. case_decide.
  - intros [? [? ?]]%IH. split; [done|]. eexists. by right.
  - intros [= ->]. split; [done|]. eexists. by left.
Qed.

Record valid (g : stateGraph) : Prop := {
  valid_entry : entryPoint g ≠ "";
  valid_finish : finishPoints g ≠ [];
  valid_reach n : is_node g n → reach g n;
  valid_schema : is_ok (validateStateSchema (stateSchema g)) = true
}.

Lemma Validate_cases os g :
  orders_of os g →
  match SG.Validate (ord_mapping os) (ord_nodes os) g with
  | Ok _ => valid g
  | Err (Errorf m) =>
      entryPoint g = "" ∧ m = "no entry point set" ∨
      finishPoints g = [] ∧ m = "no finish points set" ∨
      ∃ n, is_node g n ∧ ¬ reach g n ∧ m = "node " +:+ n +:+ " is not reachable from entry point"
  | Err e => ∃ e', validateStateSchema (stateSchema g) = Err e' ∧
                   e = Wrapf "state schema validation failed" e'
  end.
Proof.
  intros (Hord & Hnodes & _). unfold SG.Validate.
  case_decide as He; [by left|]. case_decide as Hf; [right; by left|].
  destruct (computeReachable_reach g (ord_mapping os) Hord He) as (R & -> & HR). simpl.
  destruct (SG.first_unreachable _ _) as [n|] eqn:Hun.
  - right; right. apply first_unreachable_Some in Hun as [Hn [nd Hin]].
    exists n. split_and!; [|by rewrite <-HR|done].
    exists nd. by apply (go_range_elem _ _ n nd Hnodes).
  - destruct (validateStateSchema _) as [infos|e'] eqn:Hs; [|by eexists].
    split; [done..| |by rewrite Hs]. intros n [nd Hnd]. apply HR.
    eapply first_unreachable_None; [done|]. by apply (go_range_elem _ _ n nd Hnodes).
Qed.

Lemma Validate_valid os g :
  orders_of os g → is_ok (SG.Validate (ord_mapping os) (ord_nodes os) g) = true ↔ valid g.
Proof.
  intros Hos. pose proof (Validate_cases os g Hos) as Hc.
  destruct (SG.Validate _ _ g) as [[]|e]; simpl; [done|]. split; [done|].
  intros [He Hf Hr Hs]. exfalso. destruct e; try (destruct Hc as (? & Hc & ?); by rewrite Hc in Hs).
  destruct Hc as [[? _]|[[? _]|(n & ? & Hn & _)]]; [done..|]. by apply Hn, Hr.
Qed.

(** In a graph the builder made, a path never leaves the nodes. *)
Lemma reach_is_node g x : well_formed g → reach g x → x = entryPoint g ∨ is_node g x.
Proof.
  intros Hwf. induction 1 as [|from to _ _ He Hne|ce key to _ _ Hce Hk Hn Hne]; [by left|right..].
  - by destruct (wf_edges _ Hwf _ He) as [_ [?|?]].
  - by apply has_node_true.
Qed.

(** ** Compilation *)
Lemma configure_lookup ordf g k :
  NoDup ordf.*1 →
  gchannels (foldl SG.configure_field g ordf) !! k =
    match gchannels g !! k with
    | Some c => Some c
    | None => FIChannel <$> (list_to_map ordf : gmap string fieldInfo) !! k
    end.
Proof.
  revert g. induction ordf as [|[n info] ordf IH]; intros g; simpl.
  - intros _. rewrite lookup_empty. by destruct (gchannels g !! k).
  - intros [Hn Hnd]%NoDup_cons. rewrite IH by done. unfold SG.configure_field.
    cbn [with_channels gchannels].
    destruct (decide (n = k)) as [->|Hne].
    + rewrite lookup_insert_eq. destruct (gchannels g !! k) as [c|] eqn:E; [by rewrite E|].
      by rewrite lookup_insert_eq.
    + rewrite lookup_insert_ne by done. destruct (gchannels g !! n); [done|].
      by rewrite lookup_insert_ne by done.
Qed.

Lemma CreateReducerChannel_key n t r : GetKey (CreateReducerChannel n t r) = n.
Proof.
  unfold CreateReducerChannel. set (c := match t with TSlice _ => _ | _ => _ end).
  destruct r; [change (GetKey (SetKey n c) = n)|]; apply set_key.
Qed.

Lemma processField_key f info : processField f = Ok info → GetKey (FIChannel info) = FIName info.
Proof.
  unfold processField. case_match; [|done]. intros [= <-]. apply CreateReducerChannel_key.
Qed.

Lemma validate_fields_key fields infos infos' :
  validate_fields fields infos = Ok infos' →
  (∀ k i, infos !! k = Some i → GetKey (FIChannel i) = k) →
  ∀ k i, infos' !! k = Some i → GetKey (FIChannel i) = k.
Proof.
  revert infos. induction fields as [|f fields IH]; intros infos; simpl; [by intros [= ->]|].
  destruct (SFExported f); [|apply IH].
  destruct (processField f) as [info|] eqn:Hf; [|done]. intros H Hinfos. apply (IH _ H).
  intros k i. destruct (decide (FIName info = k)) as [<-|].
  - rewrite lookup_insert_eq. intros [= <-]. by eapply processField_key.
  - rewrite lookup_insert_ne by done. apply Hinfos.
Qed.

Lemma schema_keys s infos k i :
  validateStateSchema s = Ok infos → infos !! k = Some i → GetKey (FIChannel i) = k.
Proof.
  destruct s as [|p n fields|[]|]; simpl; try done.
  - intros H. eapply validate_fields_key; [done|]. intros ??. by simplify_map_eq.
  - intros [= <-]. by simplify_map_eq.
Qed.

(** Graphs that agree on what a path looks at. *)
Definition same_topology (g g' : stateGraph) : Prop :=
  (nodes g', edges g', dataEdges g', conditionalEdges g', branches g', entryPoint g',
   finishPoints g') =
  (nodes g, edges g, dataEdges g, conditionalEdges g, branches g, entryPoint g, finishPoints g).

Lemma reach_same g g' x : same_topology g g' → reach g x → reach g' x.
Proof.
  intros [= Hn He _ Hc _ Hen _]. induction 1 as [|from to _ IH Hin|ce key to _ IH Hin Hk Hto].
  - rewrite <-Hen. constructor.
  - eapply reach_edge; [done| |done]. by rewrite He.
  - eapply reach_conditional; [done|by rewrite Hc|done| |done].
    apply has_node_true. unfold is_node. rewrite Hn. by apply has_node_true in Hto.
Qed.

Lemma same_topology_sym g g' : same_topology g g' → same_topology g' g.
Proof. unfold same_topology. by intros ->. Qed.

Lemma wf_same g g' :
  same_topology g g' → (∀ k c, gchannels g' !! k = Some c → GetKey c = k) →
  well_formed g → well_formed g'.
Proof.
  intros [= Hn He Hd Hc Hb Hen Hf] Hk [].
  split; unfold is_node in *; rewrite ?Hn, ?He, ?Hd, ?Hc, ?Hb, ?Hen, ?Hf in *; done.
Qed.

Lemma fold_options {CP} (opts : list (CompileOption CP)) cg :
  Forall (λ opt, ∀ cg, graph (opt cg) = graph cg) opts →
  graph (foldl (λ cg opt, opt cg) cg opts) = graph cg.
Proof.
  intros H. revert cg. induction H as [|opt opts Hopt _ IH]; intros cg; [done|].
  simpl. by rewrite IH, Hopt.
Qed.

(** What a successful compilation went through. *)
Lemma Compile_inv {CP} os (opts : list (CompileOption CP)) g cg :
  Forall (λ opt, ∀ cg, graph (opt cg) = graph cg) opts →
  Compile os opts g = Ok cg →
  is_ok (SG.Validate (ord_mapping os) (ord_nodes os) g) = true ∧
  ∃ infos, validateStateSchema (stateSchema g) = Ok infos ∧
    graph cg = with_triggerMode (nodeTriggerMode cg) (foldl SG.configure_field g (ord_fields os)).
Proof.
  intros Hopts. unfold Compile, SG.configureChannelsFromSchema.
  destruct (SG.Validate _ _ _); [|done]. destruct (validateStateSchema _) as [infos|]; [|done].
  intros [= <-]. split; [done|]. exists infos. split; [done|]. simpl. by rewrite fold_options.
Qed.

Lemma configured_topology ordf m g :
  same_topology g (with_triggerMode m (foldl SG.configure_field g ordf)).
Proof.
  unfold same_topology. cbn. revert g.
  induction ordf as [|[n info] ordf IH]; intros g; [done|]. simpl in *. by rewrite IH.
Qed.

(** ** Properties *)

(** C15: [computeReachable] ends, whatever the order of its loops over the
    mappings, and returns exactly the names a path from the entry point leads
    to along edges and mapped conditional targets. *)
Theorem computeReachable_spec g ord :
  (∀ m, ord m ≡ₚ map_to_list m) → entryPoint g ≠ "" →
  ∃ R, SG.computeReachable ord g = Some R ∧ ∀ x, x ∈ R ↔ reach g x.
Proof. apply computeReachable_reach. Qed.


(** [Validate] accepts a graph exactly when it has an entry point and a
    finish point, every node is reachable and the schema is accepted;
    otherwise the error names a condition that fails. *)
Theorem Validate_spec os g :
  orders_of os g →
  (is_ok (SG.Validate (ord_mapping os) (ord_nodes os) g) = true ↔ valid g) ∧
  match SG.Validate (ord_mapping os) (ord_nodes os) g with
  | Ok _ => valid g
  | Err (Errorf m) =>
      entryPoint g = "" ∧ m = "no entry point set" ∨
      finishPoints g = [] ∧ m = "no finish points set" ∨
      ∃ n, is_node g n ∧ ¬ reach g n ∧ m = "node " +:+ n +:+ " is not reachable from entry point"
  | Err e => ∃ e', validateStateSchema (stateSchema g) = Err e' ∧
                   e = Wrapf "state schema validation failed" e'
  end.
Proof. intros Hos. split; [by apply Validate_valid|by apply Validate_cases]. Qed.

(** A graph the builder made compiles exactly when it is valid.  The
    compiled graph is the same graph, still well formed, whose nodes are just
    the names reachable from its entry point, with a channel for every schema
    field that had none, and the trigger mode the options chose. *)
Theorem Compile_spec {CP} s ops os (opts : list (CompileOption CP)) :
  let g := build s ops in
  orders_of os g →
  Forall (λ opt, ∀ cg, graph (opt cg) = graph cg) opts →
  (is_ok (Compile os opts g) = true ↔ valid g) ∧
  ∀ cg, Compile os opts g = Ok cg →
    let g' := graph cg in
    well_formed g' ∧ nodes g' = nodes g ∧ edges g' = edges g ∧
    triggerMode g' = nodeTriggerMode cg ∧
    (∀ x, reach g' x ↔ is_node g' x ∨ x = entryPoint g') ∧
    ∀ k, gchannels g' !! k =
      match gchannels g !! k with
      | Some c => Some c
      | None => match validateStateSchema (stateSchema g) with
                | Ok infos => FIChannel <$> infos !! k
                | Err _ => None
                end
      end.
Proof.
  intros g Hos Hopts. split.
  - rewrite <-(Validate_valid os g Hos). unfold Compile, SG.configureChannelsFromSchema.
    pose proof (Validate_valid os g Hos) as Hv.
    destruct (SG.Validate _ _ _); simpl in *; [|done].
    destruct Hv as [Hv _]. pose proof (valid_schema _ (Hv eq_refl)) as Hsch.
    by destruct (validateStateSchema (stateSchema g)).
  - intros cg Hc. destruct (Compile_inv os opts g cg Hopts Hc) as (Hok & infos & Hinfos & Hg).
    apply (Validate_valid os g Hos) in Hok.
    pose proof (build_well_formed s ops) as Hwf. fold g in Hwf.
    pose proof (configured_topology (ord_fields os) (nodeTriggerMode cg) g) as Htop.
    rewrite <-Hg in Htop.
    assert (go_range infos (ord_fields os)) as Hrange by (by apply Hos).
    assert (∀ k, gchannels (graph cg) !! k =
                 match gchannels g !! k with
                 | Some c => Some c
                 | None => FIChannel <$> infos !! k
                 end) as Hch.
    { intros k. rewrite Hg. cbn [with_triggerMode gchannels].
      rewrite configure_lookup by eauto with harness. by rewrite (go_range_list_to_map _ _ Hrange). }
    assert (well_formed (graph cg)) as Hwf'.
    { eapply wf_same; [done| |done]. intros k c. rewrite Hch.
      destruct (gchannels g !! k) eqn:E; [intros [= <-]; by eapply wf_keys|].
      intros (i & Hi & ->)%fmap_Some. by eapply schema_keys. }
    pose proof Htop as [= Hn He _ _ _ Hen _].
    split_and!; [done|done|done|by rewrite Hg| |].
    + intros x. split.
      * intros [->|?]%reach_is_node; [by right|by left|done].
      * intros [Hx| ->]; [|constructor]. apply (reach_same g); [done|].
        apply (valid_reach _ Hok). unfold is_node in *. by rewrite <-Hn.
    + intros k. rewrite Hch, Hinfos. done.
Qed.

(** ** Witnesses *)
Definition demo_ops : list builder_op :=
  [OpAddNode "a" None; OpAddNode "b" None; OpAddEdge "a" "b"; OpAddEdge "b" End_;
   OpSetEntryPoint "a"].
Definition demo_schema : schema :=
  SStruct false "State" [{| SFName := "Count"; SFType := TInt; SFTag := "reducer=add";
                            SFExported := true |}].
Definition demo_graph : stateGraph := build demo_schema demo_ops.

Lemma computeReachable_spec_witness :
  SG.computeReachable map_to_list demo_graph = Some {["a"; "b"]} ∧
  ∃ R, SG.computeReachable map_to_list demo_graph = Some R ∧ ∀ x, x ∈ R ↔ reach demo_graph x.
Proof.
  split; [vm_compute; reflexivity|].
  apply (computeReachable_spec demo_graph map_to_list); [done|vm_compute; congruence].
Defined.

Lemma Validate_spec_witness :
  let os := canonical_orders demo_graph in
  SG.Validate (ord_mapping os) (ord_nodes os) demo_graph = Ok () ∧ valid demo_graph.
Proof.
  split; [vm_compute; reflexivity|].
  destruct (Validate_spec _ _ (canonical_orders_of demo_graph)) as [[H _] _].
  apply H. vm_compute. reflexivity.
Defined.

Lemma Compile_spec_witness :
  let os := canonical_orders demo_graph in
  let opts := [WithRecursionLimit (CP := unit) 7; WithInterrupts ["b"]] in
  is_ok (Compile os opts demo_graph) = true ∧ valid demo_graph.
Proof.
  split; [vm_compute; reflexivity|].
  destruct (Compile_spec (CP := unit) demo_schema demo_ops (canonical_orders demo_graph)
              [WithRecursionLimit 7; WithInterrupts ["b"]] (canonical_orders_of demo_graph))
    as [[H _] _]; [repeat constructor|].
  apply H. vm_compute. reflexivity.
Defined.
