(* ===== verification/Subgraph.v ===== *)
(** * Compiled graphs with subgraphs

    [graph/compiled.go].  A [CompiledStateGraph] points to its parent and to
    its subgraphs and is changed in place, so the graphs live in a store
    indexed by locations; every method runs under the graph's lock and is one
    step. *)

From Stdlib Require Import Ascii.
From S2P Require Export GraphProps.

Section subgraph.
Context {CP : Type}.

Record CompiledStateGraph : Type := MkCSG {
  base : compiledGraph CP;
  subgraphs : gmap string nat;
  parent : option nat;
  namespace : string;
  checkpointMap : gmap string string
}.

Abbreviation store := (gmap nat CompiledStateGraph).

Definition buildSubgraphNamespace (parentNS subgraphName : string) : string :=
  if decide (parentNS = "") then subgraphName else parentNS +:+ NSSep +:+ subgraphName.

Definition buildTaskPath (ns subgraphName : string) : string :=
  if decide (ns = "") then subgraphName +:+ NSEnd else ns +:+ NSSep +:+ subgraphName +:+ NSEnd.

(** [generateCheckpointID], from the text of a fresh UUID. *)
Definition generateCheckpointID (uuid : string) : string := "ckp_" +:+ uuid.

Definition new_csg (cg : compiledGraph CP) (p : option nat) (ns : string) : CompiledStateGraph :=
  MkCSG cg ∅ p ns ∅.

(** [NewCompiledStateGraph] of a [*compiledGraph], stored at a new location. *)
Definition NewCompiledStateGraph (l : nat) (cg : compiledGraph CP) (h : store) : store :=
  <[l := new_csg cg None ""]> h.

Definition set_checkpointMap (m : gmap string string) (c : CompiledStateGraph) : CompiledStateGraph :=
  MkCSG (base c) (subgraphs c) (parent c) (namespace c) m.

(** [c.AddSubgraph(name, subgraph)] with [c] at [l]; [l'] is the location of the
    new graph.  A value that is not a [*stateGraph] is [None]. *)
Definition AddSubgraph (l l' : nat) (name : string) (subgraph : option stateGraph)
    (os : orders) (h : store) : res store :=
  match h !! l with
  | None => Err (Errorf "nil receiver")
  | Some c =>
      match subgraphs c !! name with
      | Some _ => Err (Errorf ("subgraph '" +:+ name +:+ "' already exists"))
      | None =>
          match subgraph with
          | None => Err (Errorf "subgraph type does not support Compile")
          | Some sg =>
              match Compile os [] sg with
              | Err e => Err (Wrapf ("failed to compile subgraph '" +:+ name +:+ "'") e)
              | Ok compiled =>
                  let sub := new_csg compiled (Some l) (buildSubgraphNamespace (namespace c) name) in
                  Ok (<[l := MkCSG (base c) (<[name := l']> (subgraphs c)) (parent c)
                                   (namespace c) (checkpointMap c)]> (<[l' := sub]> h))
              end
          end
      end
  end.

Definition GetSubgraph (l : nat) (name : string) (h : store) : option nat :=
  h !! l ≫= λ c, subgraphs c !! name.

(** [c.MigrateCheckpoint(threadID, checkpointID, toSubgraph)]: the returned
    identifier, and the store with both mappings. *)
Definition MigrateCheckpoint (l : nat) (checkpointID toSubgraph uuid : string) (h : store)
  : res (string * store) :=
  match h !! l with
  | None => Err (Errorf "nil receiver")
  | Some c =>
      if decide (toSubgraph = "") then
        match parent c with
        | None => Err (Errorf "no parent graph to migrate to")
        | Some _ =>
            match checkpointMap c !! checkpointID with
            | None => Err (Errorf ("no parent checkpoint mapping found for " +:+ checkpointID))
            | Some parentID => Ok (parentID, h)
            end
        end
      else
        match subgraphs c !! toSubgraph with
        | None => Err (Errorf ("subgraph '" +:+ toSubgraph +:+ "' not found"))
        | Some ls =>
            let newID := generateCheckpointID uuid in
            let h := alter (λ s, set_checkpointMap (<[newID := checkpointID]> (checkpointMap s)) s) ls h in
            let h := alter (λ c, set_checkpointMap (<[checkpointID := newID]> (checkpointMap c)) c) l h in
            Ok (newID, h)
        end
  end.

(** [Invoke] and [Stream] put the namespace into the run's configuration. *)
Definition invoke_config (l : nat) (config : list (option RunnableConfig)) (h : store)
  : option RunnableConfig :=
  let rc := match config with Some rc :: _ => rc | _ => Config.zero end in
  (λ c, Config.Set_ ConfigKeyCheckpointNS (VStr (namespace c)) rc) <$> h !! l.

Definition IsRoot (l : nat) (h : store) : option bool :=
  (λ c, bool_decide (parent c = None)) <$> h !! l.

(** ** Reachable stores *)
Inductive csg_step : store → store → Prop :=
| step_new l cg h : h !! l = None → csg_step h (NewCompiledStateGraph l cg h)
| step_add l l' name sg os h h' :
    h !! l' = None → AddSubgraph l l' name (Some sg) os h = Ok h' → csg_step h h'
| step_migrate l cid name uuid nid h h' :
    MigrateCheckpoint l cid name uuid h = Ok (nid, h') → csg_step h h'.

(** The names on the way from the root to a graph. *)
Inductive path_of (h : store) : nat → list string → Prop :=
| path_root l c : h !! l = Some c → parent c = None → path_of h l []
| path_child l l' c name p :
    path_of h l p → h !! l = Some c → subgraphs c !! name = Some l' → path_of h l' (p ++ [name]).

Record consistent (h : store) : Prop := {
  cons_child l c name l' : h !! l = Some c → subgraphs c !! name = Some l' →
    l' ≠ l ∧ ∃ c', h !! l' = Some c' ∧ parent c' = Some l ∧
    namespace c' = buildSubgraphNamespace (namespace c) name;
  cons_root l c : h !! l = Some c → parent c = None → namespace c = ""
}.

(** Changing checkpoint maps only. *)
Definition same_tree (h h' : store) : Prop :=
  ∀ l, (λ c, (subgraphs c, parent c, namespace c)) <$> h' !! l =
       (λ c, (subgraphs c, parent c, namespace c)) <$> h !! l.

Lemma alter_same_tree f l h :
  same_tree h (alter (λ c, set_checkpointMap (f c) c) l h).
Proof.
  intros k. destruct (decide (k = l)) as [->|].
  - rewrite lookup_alter_eq. by destruct (h !! l).
  - by rewrite lookup_alter_ne.
Qed.

Lemma same_tree_trans h1 h2 h3 : same_tree h1 h2 → same_tree h2 h3 → same_tree h1 h3.
Proof. intros H1 H2 l. by rewrite H2, H1. Qed.

Lemma same_tree_lookup h h' l c' :
  same_tree h h' → h' !! l = Some c' →
  ∃ c, h !! l = Some c ∧ subgraphs c = subgraphs c' ∧ parent c = parent c' ∧
       namespace c = namespace c'.
Proof.
  intros Hs Hl. specialize (Hs l). rewrite Hl in Hs. destruct (h !! l) as [c|]; [|done].
  simpl in Hs. exists c. naive_solver.
Qed.

Lemma same_tree_sym h h' : same_tree h h' → same_tree h' h.
Proof. intros H l. by rewrite H. Qed.

Lemma consistent_same_tree h h' : same_tree h h' → consistent h → consistent h'.
Proof.
  intros Hs [Hc Hr]. split.
  - intros l c' name l' Hl Hn.
    destruct (same_tree_lookup _ _ _ _ Hs Hl) as (c & Hlc & Hsub & _ & Hns).
    rewrite <-Hsub in Hn. destruct (Hc _ _ _ _ Hlc Hn) as (Hne & d & Hd & Hp & Hdn).
    split; [done|]. destruct (same_tree_lookup _ _ _ _ (same_tree_sym _ _ Hs) Hd)
      as (d' & ? & _ & Hp' & Hn'). exists d'. split_and!; congruence.
  - intros l c' Hl Hp. destruct (same_tree_lookup _ _ _ _ Hs Hl) as (c & Hlc & _ & Hpc & Hns).
    rewrite <-Hns. apply (Hr l); congruence.
Qed.

Lemma Migrate_same_tree l cid name uuid h nid h' :
  MigrateCheckpoint l cid name uuid h = Ok (nid, h') → same_tree h h'.
Proof.
  unfold MigrateCheckpoint. case_all; try done; intros; simplify_eq; try done.
  eapply same_tree_trans; apply alter_same_tree.
Qed.

Lemma consistent_new l cg h :
  h !! l = None → consistent h → consistent (NewCompiledStateGraph l cg h).
Proof.
  intros Hl [Hc Hr]. unfold NewCompiledStateGraph. split.
  - intros k c name l' [[<- <-]|[? Hk]]%lookup_insert_Some Hn; [by simplify_map_eq|].
    destruct (Hc _ _ _ _ Hk Hn) as (? & d & Hd & ? & ?). split; [done|].
    exists d. split_and!; [|done..]. rewrite lookup_insert_ne; [done|congruence].
  - intros k c [[<- <-]|[? Hk]]%lookup_insert_Some; [done|eauto].
Qed.

Lemma AddSubgraph_inv l l' name sg os h h' :
  AddSubgraph l l' name sg os h = Ok h' →
  ∃ c compiled, h !! l = Some c ∧ subgraphs c !! name = None ∧
    h' = <[l := MkCSG (base c) (<[name := l']> (subgraphs c)) (parent c) (namespace c)
                      (checkpointMap c)]>
         (<[l' := new_csg compiled (Some l) (buildSubgraphNamespace (namespace c) name)]> h).
Proof.
  unfold AddSubgraph. case_all; try done. intros [= <-]. by eexists _, _.
Qed.

Lemma consistent_add l l' name sg os h h' :
  h !! l' = None → AddSubgraph l l' name sg os h = Ok h' → consistent h → consistent h'.
Proof.
  intros Hl' (c & cg & Hl & Hname & ->)%AddSubgraph_inv [Hc Hr].
  assert (l ≠ l') as Hne by congruence. split.
  - intros k ck n m [[<- <-]|[Hkl [[<- <-]|[Hkl' Hk]]%lookup_insert_Some]]%lookup_insert_Some Hn;
      cbn [subgraphs namespace new_csg] in *.
    + destruct (decide (n = name)) as [->|].
      * rewrite lookup_insert_eq in Hn. injection Hn as <-. split; [done|].
        eexists. rewrite lookup_insert_ne, lookup_insert_eq by done. done.
      * rewrite lookup_insert_ne in Hn by done.
        destruct (Hc _ _ _ _ Hl Hn) as (Hml & d & Hd & ? & ?). split; [done|].
        exists d. rewrite !lookup_insert_ne by congruence. done.
    + by simplify_map_eq.
    + destruct (Hc _ _ _ _ Hk Hn) as (Hmk & d & Hd & Hp & Hns). split; [done|].
      destruct (decide (m = l)) as [->|].
      * rewrite lookup_insert_eq. simplify_eq. by eexists.
      * exists d. rewrite !lookup_insert_ne by congruence. done.
  - intros k ck [[<- <-]|[Hkl [[<- <-]|[Hkl' Hk]]%lookup_insert_Some]]%lookup_insert_Some;
      cbn [parent namespace new_csg]; [by eapply Hr|done|by eapply Hr].
Qed.

Lemma reachable_consistent h : rtc csg_step ∅ h → consistent h.
Proof.
  revert h. apply rtc_ind_r; [|intros h1 h2 _ Hstep IH].
  - by split; intros; simplify_map_eq.
  - destruct Hstep; [by apply consistent_new|by eapply consistent_add|].
    eapply consistent_same_tree; [by eapply Migrate_same_tree|done].
Qed.

(** Namespaces spell out the path from the root. *)
Definition good_name (n : string) : Prop := n ≠ "" ∧ str_mem "|"%char n = false.

Lemma join_snoc p n :
  Forall good_name p → join_with NSSep (p ++ [n]) = buildSubgraphNamespace (join_with NSSep p) n.
Proof.
  unfold buildSubgraphNamespace. intros Hp. destruct p as [|x p]; [done|].
  rewrite decide_False.
  - clear Hp. revert x. induction p as [|y p IH]; intros x; [done|].
    change ((x :: y :: p) ++ [n]) with (x :: (y :: p) ++ [n]).
    change (join_with NSSep (x :: y :: p)) with (x +:+ NSSep +:+ join_with NSSep (y :: p)).
    change (join_with NSSep (x :: (y :: p) ++ [n]))
      with (x +:+ NSSep +:+ join_with NSSep ((y :: p) ++ [n])).
    rewrite IH. by rewrite !(assoc_L String.append).
  - apply Forall_cons in Hp as [[Hx _] _]. destruct x; [done|]. by destruct p.
Qed.

Lemma path_namespace h l p :
  consistent h → path_of h l p → Forall good_name p →
  ∃ c, h !! l = Some c ∧ namespace c = join_with NSSep p.
Proof.
  intros Hcons. induction 1 as [l c Hl Hp|l l' c name p _ IH Hl Hn]; intros Hgood.
  - exists c. split; [done|]. by rewrite (cons_root _ Hcons _ _ Hl Hp).
  - apply Forall_app in Hgood as [Hgood _]. destruct (IH Hgood) as (c' & Hl' & Hns).
    destruct (cons_child _ Hcons _ _ _ _ Hl Hn) as (_ & d & Hd & _ & Hdn).
    exists d. split; [done|]. rewrite Hdn, join_snoc by done. congruence.
Qed.

(** What a successful migration into a subgraph does to the two maps. *)
Lemma Migrate_down_inv l cid name uuid h nid h' :
  name ≠ "" → MigrateCheckpoint l cid name uuid h = Ok (nid, h') →
  ∃ c ls, h !! l = Some c ∧ subgraphs c !! name = Some ls ∧ nid = generateCheckpointID uuid ∧
    h' = alter (λ c, set_checkpointMap (<[cid := nid]> (checkpointMap c)) c) l
           (alter (λ s, set_checkpointMap (<[nid := cid]> (checkpointMap s)) s) ls h).
Proof.
  intros Hn. unfold MigrateCheckpoint. destruct (h !! l) as [c|] eqn:Hl; [|done].
  rewrite decide_False by done. destruct (subgraphs c !! name) as [ls|] eqn:Hls; [|done].
  intros [= <- <-]. by exists c, ls.
Qed.

Lemma Migrate_up l cid h c pid uuid :
  h !! l = Some c → is_Some (parent c) → checkpointMap c !! cid = Some pid →
  MigrateCheckpoint l cid "" uuid h = Ok (pid, h).
Proof.
  intros Hl [p Hp] Hm. unfold MigrateCheckpoint. by rewrite Hl, Hp, Hm.
Qed.

(** The child after a migration maps the new identifier back. *)
Lemma Migrate_down_child l cid name uuid h nid h' ls :
  consistent h → name ≠ "" → GetSubgraph l name h = Some ls →
  MigrateCheckpoint l cid name uuid h = Ok (nid, h') →
  ls ≠ l ∧ ∃ d, h' !! ls = Some d ∧ parent d = Some l ∧ checkpointMap d !! nid = Some cid.
Proof.
  intros Hcons Hn Hg Hm. destruct (Migrate_down_inv _ _ _ _ _ _ _ Hn Hm)
    as (c & ls' & Hl & Hsub & -> & ->).
  unfold GetSubgraph in Hg. rewrite Hl in Hg. simpl in Hg. rewrite Hsub in Hg. injection Hg as ->.
  destruct (cons_child _ Hcons _ _ _ _ Hl Hsub) as (Hne & d & Hd & Hp & _). split; [done|].
  rewrite lookup_alter_ne, lookup_alter_eq, Hd by done. simpl. eexists. split; [done|]. simpl.
  split; [done|]. by rewrite lookup_insert_eq.
Qed.
End subgraph.
Arguments CompiledStateGraph : clear implicits.

(** ** Properties *)

(** In every reachable store the namespace of a graph is the path of
    subgraph names from its root joined with [|], and distinct paths of names
    that are non-empty and do not contain [|] have distinct namespaces. *)
Theorem subgraph_namespaces {CP} (h : gmap nat (CompiledStateGraph CP)) l p l' p' :
  rtc csg_step ∅ h → path_of h l p → path_of h l' p' →
  Forall good_name p → Forall good_name p' →
  ∃ c c', h !! l = Some c ∧ h !! l' = Some c' ∧ namespace c = join_with NSSep p ∧
          (namespace c = namespace c' → p = p').
Proof.
  intros Hreach Hp Hp' Hg Hg'. pose proof (reachable_consistent h Hreach) as Hcons.
  destruct (path_namespace h l p Hcons Hp Hg) as (c & Hl & Hns).
  destruct (path_namespace h l' p' Hcons Hp' Hg') as (c' & Hl' & Hns').
  exists c, c'. split_and!; [done..|]. intros Heq. rewrite Hns, Hns' in Heq.
  assert (∀ q, Forall good_name q → q ≠ [] → split_on "|"%char (join_with NSSep q) = q) as Hsplit.
  { intros q Hq Hne. apply split_join; [done|]. eapply Forall_impl; [done|]. by intros ? [_ ?]. }
  assert (∀ q, Forall good_name q → join_with NSSep q = "" → q = []) as Hempty.
  { intros [|x q] Hq; [done|]. apply Forall_cons in Hq as [[Hx _] _].
    destruct q; simpl; [done|]. by destruct x. }
  destruct p as [|x p], p' as [|x' p']; [done|..].
  - symmetry in Heq. symmetry. by apply Hempty.
  - by apply Hempty.
  - rewrite <-(Hsplit (x :: p)), <-(Hsplit (x' :: p')) by done. by rewrite Heq.
Qed.

(** A checkpoint migrated into a subgraph migrates back: the subgraph maps
    the new identifier to the original one. *)
Theorem migrate_round_trip {CP} (h h' : gmap nat (CompiledStateGraph CP)) l ls cid name uuid nid u :
  rtc csg_step ∅ h → name ≠ "" → GetSubgraph l name h = Some ls →
  MigrateCheckpoint l cid name uuid h = Ok (nid, h') →
  MigrateCheckpoint ls nid "" u h' = Ok (cid, h').
Proof.
  intros Hreach Hn Hg Hm. pose proof (reachable_consistent h Hreach) as Hcons.
  destruct (Migrate_down_child _ _ _ _ _ _ _ _ Hcons Hn Hg Hm) as (_ & d & Hd & Hp & Hmap).
  by eapply Migrate_up.
Qed.

(** The round trip does not survive a second migration: one map serves both
    directions, so once the migrated checkpoint moves on into a sub-subgraph,
    asking the subgraph for the parent's identifier answers the child's. *)
Theorem migrate_chain_loses_parent {CP} (h h1 h2 : gmap nat (CompiledStateGraph CP))
    l m k cid name name' uuid uuid' id1 id2 u :
  rtc csg_step ∅ h → name ≠ "" → name' ≠ "" →
  GetSubgraph l name h = Some m → GetSubgraph m name' h1 = Some k →
  MigrateCheckpoint l cid name uuid h = Ok (id1, h1) →
  MigrateCheckpoint m id1 name' uuid' h1 = Ok (id2, h2) →
  MigrateCheckpoint m id1 "" u h2 = Ok (id2, h2).
Proof.
  intros Hreach Hn Hn' Hg Hg' Hm1 Hm2. pose proof (reachable_consistent h Hreach) as Hcons.
  destruct (Migrate_down_child _ _ _ _ _ _ _ _ Hcons Hn Hg Hm1) as (_ & d & Hd & Hp & _).
  assert (consistent h1) as Hcons1
    by (eapply consistent_same_tree; [by eapply Migrate_same_tree|done]).
  destruct (Migrate_down_child _ _ _ _ _ _ _ _ Hcons1 Hn' Hg' Hm2) as (Hne & _).
  destruct (Migrate_down_inv _ _ _ _ _ _ _ Hn' Hm2) as (d' & ls & Hd' & Hsub & -> & ->).
  unfold GetSubgraph in Hg'. rewrite Hd' in Hg'. simpl in Hg'. rewrite Hsub in Hg'.
  simplify_eq.
  eapply Migrate_up; [by rewrite lookup_alter_eq, lookup_alter_ne, Hd by done|by eexists|].
  simpl. by rewrite lookup_insert_eq.
Qed.

(** ** Witnesses: a root with a subgraph ["a"] that has a subgraph ["b"]. *)
Definition tiny_graph : stateGraph := build (SMap true) demo_ops.
Definition tiny_compiled : compiledGraph unit :=
  MkCompiled tiny_graph None ∅ ∅ DefaultRecursionLimit false NodeTriggerAnyPredecessor.

Definition store_of {A} (r : res (gmap nat A)) : gmap nat A :=
  match r with Ok h => h | Err _ => ∅ end.

Lemma store_of_ok {A} (r : res (gmap nat A)) : is_ok r = true → r = Ok (store_of r).
Proof. by destruct r. Qed.

Definition demo0 : gmap nat (CompiledStateGraph unit) := NewCompiledStateGraph 0 tiny_compiled ∅.
Definition demo1 := store_of (AddSubgraph 0 1 "a" (Some tiny_graph) (canonical_orders tiny_graph) demo0).
Definition demo2 := store_of (AddSubgraph 1 2 "b" (Some tiny_graph) (canonical_orders tiny_graph) demo1).

Lemma demo2_reachable : rtc csg_step ∅ demo2.
Proof.
  apply (rtc_l _ _ demo0); [by apply step_new|].
  apply (rtc_l _ _ demo1).
  { eapply (step_add 0 1); [vm_compute; reflexivity|]. apply store_of_ok. vm_compute. reflexivity. }
  apply (rtc_l _ _ demo2); [|done].
  eapply (step_add 1 2); [vm_compute; reflexivity|]. apply store_of_ok. vm_compute. reflexivity.
Qed.

Lemma lookup_of_bool {A} (h : gmap nat A) (P : A → bool) l :
  match h !! l with Some c => P c | None => false end = true → ∃ c, h !! l = Some c ∧ P c = true.
Proof. destruct (h !! l); [eauto|done]. Qed.

Lemma demo2_path_b : path_of demo2 2 (["a"] ++ ["b"]).
Proof.
  destruct (lookup_of_bool demo2 (λ c, bool_decide (subgraphs c !! "b" = Some 2)) 1)
    as (c1 & H1 & E1%bool_decide_eq_true); [vm_compute; reflexivity|].
  destruct (lookup_of_bool demo2 (λ c, bool_decide (subgraphs c !! "a" = Some 1 ∧ parent c = None)) 0)
    as (c0 & H0 & [E0 P0]%bool_decide_eq_true); [vm_compute; reflexivity|].
  eapply path_child; [|exact H1|exact E1].
  apply (path_child _ _ _ _ _ [] (path_root _ _ _ H0 P0) H0 E0).
Qed.

Lemma subgraph_namespaces_witness :
  ∃ c c', demo2 !! 2 = Some c ∧ demo2 !! 2 = Some c' ∧ namespace c = "a|b" ∧
          (namespace c = namespace c' → ["a"; "b"] = ["a"; "b"]).
Proof.
  apply (subgraph_namespaces demo2 2 ["a"; "b"] 2 ["a"; "b"] demo2_reachable
           demo2_path_b demo2_path_b); repeat constructor; done.
Defined.

Definition migrated {A} (r : res (string * gmap nat A)) : string * gmap nat A :=
  match r with Ok p => p | Err _ => ("", ∅) end.

Lemma migrated_ok {A} (r : res (string * gmap nat A)) :
  is_ok r = true → r = Ok ((migrated r).1, (migrated r).2).
Proof. by destruct r as [[]|]. Qed.

Definition demo3 := (migrated (MigrateCheckpoint 0 "cp" "a" "u1" demo2)).2.
Definition demo4 := (migrated (MigrateCheckpoint 1 "ckp_u1" "b" "u2" demo3)).2.

Lemma demo3_ok : MigrateCheckpoint 0 "cp" "a" "u1" demo2 = Ok ("ckp_u1", demo3).
Proof.
  rewrite (migrated_ok (MigrateCheckpoint 0 "cp" "a" "u1" demo2)) by (vm_compute; reflexivity).
  unfold demo3. done.
Qed.

Lemma demo4_ok : MigrateCheckpoint 1 "ckp_u1" "b" "u2" demo3 = Ok ("ckp_u2", demo4).
Proof.
  rewrite (migrated_ok (MigrateCheckpoint 1 "ckp_u1" "b" "u2" demo3)) by (vm_compute; reflexivity).
  unfold demo4. done.
Qed.

Lemma migrate_round_trip_witness :
  MigrateCheckpoint 0 "cp" "a" "u1" demo2 = Ok ("ckp_u1", demo3) ∧
  MigrateCheckpoint 1 "ckp_u1" "" "" demo3 = Ok ("cp", demo3).
Proof.
  split; [exact demo3_ok|].
  apply (migrate_round_trip demo2 demo3 0 1 "cp" "a" "u1" "ckp_u1" "" demo2_reachable);
    [done|vm_compute; reflexivity|exact demo3_ok].
Defined.

Lemma migrate_chain_loses_parent_witness :
  MigrateCheckpoint 1 "ckp_u1" "" "" demo3 = Ok ("cp", demo3) ∧
  MigrateCheckpoint 1 "ckp_u1" "" "" demo4 = Ok ("ckp_u2", demo4).
Proof.
  split.
  - rewrite (migrated_ok (MigrateCheckpoint 1 "ckp_u1" "" "" demo3)) by (vm_compute; reflexivity).
    vm_compute. reflexivity.
  - apply (migrate_chain_loses_parent demo2 demo3 demo4 0 1 2 "cp" "a" "b" "u1" "u2"
             "ckp_u1" "ckp_u2" "" demo2_reachable);
      [done|done|vm_compute; reflexivity|vm_compute; reflexivity|exact demo3_ok|exact demo4_ok].
Defined.
