(* ===== verification/Checkpoint.v ===== *)
(** * Versioned checkpoints

    The [Checkpoint] structure of [checkpoint/checkpoint.go]: its channel
    versions, the versions each node has seen, its pending writes, cloning,
    and the conversion to and from the map that is stored as JSON. *)

From Stdlib Require Import Ascii.
From S2P Require Export Json Types.

(** The clock's text: [t.Format(time.RFC3339Nano)] and [time.Parse]. *)
Class GoTime := {
  format_time : Z → string;
  parse_time : string → option Z
}.

(** Seconds and nanoseconds survive the text, and the text is ASCII. *)
Class GoTimeLaws `{GoTime} := {
  parse_format t : parse_time (format_time t) = Some t;
  format_valid t : sanitize (format_time t) = format_time t;
  format_nonempty t : format_time t ≠ ""
}.

Definition SourceNode : string := "node".

Record PendingWrite : Type := {
  PWChannel : string; PWValue : val; PWOverwrite : bool; PWNode : string;
  PWTimestamp : Z; PWTaskID : string
}.

Record CheckpointMetadata : Type := {
  MID : string; MParentID : string; MThreadID : string; MStep : Z; MCreatedAt : Z;
  MSource : string; MCustom : gmap string val
}.

(** The zero value of [time.Time], in nanoseconds of an unspecified epoch. *)
Definition zero_time : Z := 0.

Module CP.
Record t : Type := Mk {
  ID : string;
  Version : Z;
  ParentID : string;
  ChannelVersions : gmap string Z;
  VersionsSeen : gmap string (gmap string Z);
  State : gmap string val;
  PendingWrites : list PendingWrite;
  Meta : CheckpointMetadata
}.

(** [NewCheckpoint], from a fresh identifier and the time. *)
Definition NewCheckpoint (id : string) (now : Z) (threadID : string) (step : Z) : t :=
  Mk id 0 "" ∅ ∅ ∅ []
     {| MID := id; MParentID := ""; MThreadID := threadID; MStep := step; MCreatedAt := now;
        MSource := SourceNode; MCustom := ∅ |}.

Definition copy_write (pw : PendingWrite) : PendingWrite :=
  {| PWChannel := PWChannel pw; PWValue := deepCopy (PWValue pw);
     PWOverwrite := PWOverwrite pw; PWNode := PWNode pw; PWTimestamp := PWTimestamp pw;
     PWTaskID := PWTaskID pw |}.

(** [Clone]: a deep copy under a new identifier, whose parent is the original. *)
Definition Clone (newID : string) (now : Z) (c : t) : t :=
  Mk newID (Version c) (ID c) (ChannelVersions c) (VersionsSeen c) (deepCopyMap (State c))
     (copy_write <$> PendingWrites c)
     {| MID := newID; MParentID := ID c; MThreadID := MThreadID (Meta c);
        MStep := MStep (Meta c); MCreatedAt := now; MSource := MSource (Meta c);
        MCustom := deepCopyMap (MCustom (Meta c)) |}.

Definition version_of (c : t) (channel : string) : Z := default 0%Z (ChannelVersions c !! channel).

(** [c.ChannelVersions[channel]++] on an [int]. *)
Definition IncrementChannel (channel : string) (c : t) : t :=
  Mk (ID c) (Version c) (ParentID c)
     (<[channel := int_add (version_of c channel) 1]> (ChannelVersions c))
     (VersionsSeen c) (State c) (PendingWrites c) (Meta c).

Definition MarkSeen (node channel : string) (c : t) : t :=
  Mk (ID c) (Version c) (ParentID c) (ChannelVersions c)
     (<[node := <[channel := version_of c channel]> (default ∅ (VersionsSeen c !! node))]>
        (VersionsSeen c))
     (State c) (PendingWrites c) (Meta c).

Definition HasSeen (node channel : string) (c : t) : bool :=
  match VersionsSeen c !! node with
  | Some versions =>
      match versions !! channel with
      | Some version => (version =? version_of c channel)%Z
      | None => false
      end
  | None => false
  end.

Definition AddPendingWrite (channel : string) (value : val) (overwrite : bool) (node : string)
    (c : t) : t :=
  Mk (ID c) (Version c) (ParentID c) (ChannelVersions c) (VersionsSeen c) (State c)
     (PendingWrites c ++ [{| PWChannel := channel; PWValue := value; PWOverwrite := overwrite;
                             PWNode := node; PWTimestamp := zero_time; PWTaskID := "" |}])
     (Meta c).

Definition ClearPendingWrites (c : t) : t :=
  Mk (ID c) (Version c) (ParentID c) (ChannelVersions c) (VersionsSeen c) (State c) [] (Meta c).

(** ** Conversion to a map *)
Definition metadata_keys : list string :=
  ["id"; "parent_id"; "thread_id"; "step"; "created_at"; "source"].

Definition versions_val (m : gmap string Z) : val := VMap TInt (VInt <$> m).

Definition write_val (pw : PendingWrite) : val :=
  VObj {["channel" := VStr (PWChannel pw); "value" := PWValue pw;
         "overwrite" := VBool (PWOverwrite pw); "node" := VStr (PWNode pw)]}.

Section conversion.
Context `{GoTime} `{GoFloat}.

Definition metadata_val (md : CheckpointMetadata) : val :=
  VObj (MCustom md ∪
        {["id" := VStr (MID md); "parent_id" := VStr (MParentID md);
          "thread_id" := VStr (MThreadID md); "step" := VInt (MStep md);
          "created_at" := VStr (format_time (MCreatedAt md)); "source" := VStr (MSource md)]}).

Definition ToMap (c : t) : gmap string val :=
  {["id" := VStr (ID c); "version" := VInt (Version c); "parent_id" := VStr (ParentID c);
    "channel_versions" := versions_val (ChannelVersions c);
    "versions_seen" := VMap (TMap TInt) (versions_val <$> VersionsSeen c);
    "state" := VObj (deepCopyMap (State c));
    "pending_writes" := VSlice (TMap TAny) (write_val <$> PendingWrites c);
    "metadata" := metadata_val (Meta c)]}.

(** ** Conversion from a map *)
Definition getString (data : gmap string val) (key : string) : string :=
  default "" (as_string (map_get data key)).

Definition getInt (data : gmap string val) (key : string) (defaultVal : Z) : Z :=
  match as_float (map_get data key) with Some f => int64_of_float f | None => defaultVal end.

Definition getBool (data : gmap string val) (key : string) (defaultVal : bool) : bool :=
  default defaultVal (as_bool (map_get data key)).

(** The entries of a [map[string]interface{}] that are floats. *)
Definition parse_versions (v : val) : option (gmap string Z) :=
  match as_map v with
  | Some m => Some (omap (λ x, match as_float x with
                               | Some f => Some (int64_of_float f)
                               | None => None
                               end) m)
  | None => None
  end.

Definition parse_write (v : val) : option PendingWrite :=
  m ← as_map v;
  Some {| PWChannel := getString m "channel"; PWValue := map_get m "value";
          PWOverwrite := getBool m "overwrite" false; PWNode := getString m "node";
          PWTimestamp := zero_time; PWTaskID := "" |}.

Definition zero_metadata : CheckpointMetadata :=
  {| MID := ""; MParentID := ""; MThreadID := ""; MStep := 0; MCreatedAt := zero_time;
     MSource := ""; MCustom := ∅ |}.

Definition parse_metadata (v : val) : CheckpointMetadata :=
  match as_map v with
  | None => zero_metadata
  | Some md =>
      {| MID := getString md "id"; MParentID := getString md "parent_id";
         MThreadID := getString md "thread_id"; MStep := getInt md "step" 0;
         MCreatedAt := let s := getString md "created_at" in
                       if decide (s = "") then zero_time else default zero_time (parse_time s);
         MSource := getString md "source";
         MCustom := filter (λ kv, kv.1 ∉ metadata_keys) md |}
  end.

(** [FromMap] never fails. *)
Definition FromMap (data : gmap string val) : t :=
  Mk (getString data "id") (getInt data "version" 0) (getString data "parent_id")
     (default ∅ (parse_versions (map_get data "channel_versions")))
     (match as_map (map_get data "versions_seen") with
      | Some vs => omap parse_versions vs
      | None => ∅
      end)
     (match as_map (map_get data "state") with Some state => deepCopyMap state | None => ∅ end)
     (match as_list (map_get data "pending_writes") with
      | Some pws => omap parse_write pws
      | None => []
      end)
     (parse_metadata (map_get data "metadata")).
End conversion.
End CP.

(** ** What the conversion keeps *)
Definition small (z : Z) : Prop := (- 2 ^ 53 < z < 2 ^ 53)%Z.

(** A checkpoint JSON can hold: small integers, valid text, exact values, and
    custom metadata that does not use the fixed keys. *)
Record storable (c : CP.t) : Prop := {
  st_id : valid (CP.ID c);
  st_parent : valid (CP.ParentID c);
  st_version : small (CP.Version c);
  st_channels : map_Forall (λ k v, valid k ∧ small v) (CP.ChannelVersions c);
  st_seen : map_Forall (λ n m, valid n ∧ map_Forall (λ k v, valid k ∧ small v) m) (CP.VersionsSeen c);
  st_state : map_Forall (λ k v, valid k ∧ exact v) (CP.State c);
  st_writes : Forall (λ pw, valid (PWChannel pw) ∧ valid (PWNode pw) ∧ exact (PWValue pw))
                     (CP.PendingWrites c);
  st_meta : valid (MID (CP.Meta c)) ∧ valid (MParentID (CP.Meta c)) ∧
            valid (MThreadID (CP.Meta c)) ∧ valid (MSource (CP.Meta c)) ∧
            small (MStep (CP.Meta c));
  st_custom : map_Forall (λ k v, valid k ∧ exact v ∧ k ∉ CP.metadata_keys) (MCustom (CP.Meta c))
}.

(** The parts of a pending write that are stored. *)
Definition stored_write (pw : PendingWrite) : PendingWrite :=
  {| PWChannel := PWChannel pw; PWValue := PWValue pw; PWOverwrite := PWOverwrite pw;
     PWNode := PWNode pw; PWTimestamp := zero_time; PWTaskID := "" |}.

Definition stored (c : CP.t) : CP.t :=
  CP.Mk (CP.ID c) (CP.Version c) (CP.ParentID c) (CP.ChannelVersions c) (CP.VersionsSeen c)
     (CP.State c) (stored_write <$> CP.PendingWrites c) (CP.Meta c).

Section roundtrip.
Context `{GoTime} `{!GoTimeLaws} `{GoFloat}.

(** The JSON image of the parts of a checkpoint. *)
Definition float_versions (m : gmap string Z) : gmap string val :=
  (λ z, VFloat (float_of_int z)) <$> m.

Lemma versions_rt m :
  map_Forall (λ k _, valid k) m →
  json_rt (CP.versions_val m) = Some (VObj (float_versions m)).
Proof.
  intros Hm. unfold CP.versions_val. rewrite json_rt_map.
  - do 2 f_equal. apply map_eq. intros k. unfold float_versions.
    rewrite lookup_omap, !lookup_fmap. by destruct (m !! k).
  - intros k v (z & <- & Hz)%lookup_fmap_Some. split; [by apply (Hm k z)|by eexists].
Qed.

Lemma parse_float_versions m :
  map_Forall (λ _ v, small v) m → CP.parse_versions (VObj (float_versions m)) = Some m.
Proof.
  intros Hm. unfold CP.parse_versions, float_versions. simpl. f_equal. apply map_eq. intros k.
  rewrite lookup_omap, lookup_fmap. destruct (m !! k) as [z|] eqn:Hk; [|done]. simpl.
  by rewrite int64_float_exact by apply (Hm k z Hk).
Qed.

Lemma write_rt pw :
  valid (PWChannel pw) → valid (PWNode pw) → exact (PWValue pw) →
  json_rt (CP.write_val pw) = Some (CP.write_val pw) ∧
  CP.parse_write (CP.write_val pw) = Some (stored_write pw).
Proof.
  intros Hc Hn Hv. split; [|done]. unfold CP.write_val. rewrite json_rt_map.
  - rewrite omap_json_exact; [done|]. repeat (apply map_Forall_insert_2; [auto with harness|]).
    apply map_Forall_empty.
  - destruct Hv as [Hv _].
    repeat (apply map_Forall_insert_2; [by eauto|]). apply map_Forall_empty.
Qed.

Lemma writes_rt pws :
  Forall (λ pw, valid (PWChannel pw) ∧ valid (PWNode pw) ∧ exact (PWValue pw)) pws →
  json_rt (VSlice (TMap TAny) (CP.write_val <$> pws)) = Some (VList (CP.write_val <$> pws)) ∧
  omap CP.parse_write (CP.write_val <$> pws) = stored_write <$> pws.
Proof.
  intros Hf. rewrite json_rt_slice.
  - induction Hf as [|pw pws (Hc & Hn & Hv) _ [IH1 IH2]]; [done|].
    destruct (write_rt pw Hc Hn Hv) as [Hw1 Hw2]. rewrite !fmap_cons.
    cbn [omap list_omap]. rewrite Hw1, Hw2. split; [|by rewrite IH2]. by injection IH1 as ->.
  - intros x (pw & -> & Hin)%list_elem_of_fmap. rewrite Forall_forall in Hf.
    destruct (Hf pw Hin) as (Hc & Hn & Hv). destruct (write_rt pw Hc Hn Hv) as [-> _]. eauto.
Qed.

Lemma seen_rt vs :
  map_Forall (λ n m, valid n ∧ map_Forall (λ k v, valid k ∧ small v) m) vs →
  json_rt (VMap (TMap TInt) (CP.versions_val <$> vs)) =
    Some (VObj ((λ m, VObj (float_versions m)) <$> vs)) ∧
  omap CP.parse_versions ((λ m, VObj (float_versions m)) <$> vs) = vs.
Proof.
  intros Hv.
  assert (∀ n m, vs !! n = Some m → json_rt (CP.versions_val m) = Some (VObj (float_versions m)) ∧
                 CP.parse_versions (VObj (float_versions m)) = Some m) as Hone.
  { intros n m Hm. destruct (Hv n m Hm) as [_ Hk].
    split; [apply versions_rt|apply parse_float_versions]; intros k z Hz;
      by destruct (Hk k z Hz). }
  split.
  - rewrite json_rt_map.
    + do 2 f_equal. apply map_eq. intros n. rewrite lookup_omap, !lookup_fmap.
      destruct (vs !! n) as [m|] eqn:Hn; [|done]. simpl. by destruct (Hone n m Hn).
    + intros n v (m & <- & Hm)%lookup_fmap_Some. split; [by apply (Hv n m)|].
      destruct (Hone n m Hm) as [-> _]. eauto.
  - apply map_eq. intros n. rewrite lookup_omap, lookup_fmap.
    destruct (vs !! n) as [m|] eqn:Hn; [|done]. simpl. by destruct (Hone n m Hn).
Qed.

Lemma state_rt st :
  map_Forall (λ k v, valid k ∧ exact v) st →
  json_rt (VObj (deepCopyMap st)) = Some (VObj st) ∧ deepCopyMap st = st.
Proof.
  intros Hst. assert (map_Forall (λ _ v, exact v) st) as He.
  { eapply map_Forall_impl; [done|]. by intros ?? [_ ?]. }
  rewrite deepCopyMap_exact by done. split; [|done].
  rewrite json_rt_map; [by rewrite omap_json_exact|].
  intros k v Hk. destruct (Hst k v Hk) as [? [-> _]]. eauto.
Qed.

Lemma lookup_custom_None md k :
  map_Forall (λ k v, valid k ∧ exact v ∧ k ∉ CP.metadata_keys) (MCustom md) →
  k ∈ CP.metadata_keys → MCustom md !! k = None.
Proof.
  intros Hm Hk. destruct (MCustom md !! k) as [v|] eqn:E; [|done]. by destruct (Hm k v E) as (_ & _ & ?).
Qed.

(** The image of the metadata: the step has become a float. *)
Definition meta_image (md : CheckpointMetadata) : gmap string val :=
  MCustom md ∪
  {["id" := VStr (MID md); "parent_id" := VStr (MParentID md);
    "thread_id" := VStr (MThreadID md); "step" := VFloat (float_of_int (MStep md));
    "created_at" := VStr (format_time (MCreatedAt md)); "source" := VStr (MSource md)]}.

Lemma lookup_meta_image md k :
  map_Forall (λ k v, valid k ∧ exact v ∧ k ∉ CP.metadata_keys) (MCustom md) →
  k ∈ CP.metadata_keys →
  meta_image md !! k =
    ({["id" := VStr (MID md); "parent_id" := VStr (MParentID md);
       "thread_id" := VStr (MThreadID md); "step" := VFloat (float_of_int (MStep md));
       "created_at" := VStr (format_time (MCreatedAt md)); "source" := VStr (MSource md)]}
     : gmap string val) !! k.
Proof.
  intros Hm Hk. unfold meta_image. rewrite lookup_union, (lookup_custom_None md k Hm Hk).
  by rewrite (left_id_L None (∪)).
Qed.

Lemma meta_rt md :
  valid (MID md) → valid (MParentID md) → valid (MThreadID md) → valid (MSource md) →
  small (MStep md) →
  map_Forall (λ k v, valid k ∧ exact v ∧ k ∉ CP.metadata_keys) (MCustom md) →
  json_rt (CP.metadata_val md) = Some (VObj (meta_image md)) ∧
  CP.parse_metadata (VObj (meta_image md)) = md.
Proof.
  intros Hid Hpa Hth Hso Hst Hcu. split.
  - unfold CP.metadata_val. rewrite json_rt_map.
    + do 2 f_equal. apply map_eq. intros k. unfold meta_image.
      rewrite lookup_omap, !lookup_union. destruct (MCustom md !! k) as [v|] eqn:Hk.
      * rewrite !union_Some_l. simpl. by destruct (Hcu k v Hk) as (_ & [? _] & _).
      * rewrite !(left_id_L None (∪)), <-lookup_omap. f_equal.
        rewrite !omap_insert, omap_singleton. simpl.
        by rewrite Hid, Hpa, Hth, Hso, format_valid.
    + apply map_Forall_union_2.
      * intros k v Hk. destruct (Hcu k v Hk) as (? & [? _] & _). eauto.
      * repeat (apply map_Forall_insert_2; [by eauto|]). apply map_Forall_empty.
  - unfold CP.parse_metadata. cbn [as_map]. unfold CP.getString, CP.getInt, map_get.
    rewrite !(lookup_meta_image md) by (done || (unfold CP.metadata_keys; set_solver)).
    simplify_map_eq. cbn [default as_string as_float].
    rewrite decide_False by apply format_nonempty. rewrite parse_format. cbn [default].
    rewrite int64_float_exact by done. destruct md as [i p t st ca so cu]; simpl in *. f_equal.
    apply map_eq. intros k. destruct (decide (k ∈ CP.metadata_keys)) as [Hk|Hk].
    + rewrite map_lookup_filter_None_2 by naive_solver.
      symmetry. by eapply (lookup_custom_None (Build_CheckpointMetadata i p t st ca so cu)).
    + unfold meta_image. cbn [MCustom]. unfold CP.metadata_keys in Hk.
      rewrite map_lookup_filter, lookup_union.
      repeat (rewrite lookup_insert_ne by (intros <-; apply Hk; set_solver)).
      rewrite lookup_singleton_ne by (intros <-; apply Hk; set_solver).
      rewrite (right_id_L None (∪)).
      destruct (cu !! k); [|done]. simpl. by rewrite option_guard_True.
Qed.
End roundtrip.

(** The JSON image of a whole checkpoint. *)
Definition image `{GoTime} (c : CP.t) : gmap string val :=
  {["id" := VStr (CP.ID c); "version" := VFloat (float_of_int (CP.Version c));
    "parent_id" := VStr (CP.ParentID c);
    "channel_versions" := VObj (float_versions (CP.ChannelVersions c));
    "versions_seen" := VObj ((λ m, VObj (float_versions m)) <$> CP.VersionsSeen c);
    "state" := VObj (CP.State c);
    "pending_writes" := VList (CP.write_val <$> CP.PendingWrites c);
    "metadata" := VObj (meta_image (CP.Meta c))]}.

Lemma ToMap_image `{GoTimeLaws} `{GoFloat} c :
  storable c → json_rt (VObj (CP.ToMap c)) = Some (VObj (image c)).
Proof.
  intros [Hid Hpa Hv Hch Hse Hst Hwr (Hi & Hp & Ht & Hs & Hstep) Hcu].
  assert (json_rt (CP.versions_val (CP.ChannelVersions c)) =
          Some (VObj (float_versions (CP.ChannelVersions c)))) as E1.
  { apply versions_rt. eapply map_Forall_impl; [done|]. by intros ?? [? _]. }
  destruct (seen_rt _ Hse) as [E2 _]. destruct (state_rt _ Hst) as [E3 _].
  destruct (writes_rt _ Hwr) as [E4 _]. destruct (meta_rt _ Hi Hp Ht Hs Hstep Hcu) as [E5 _].
  unfold CP.ToMap, image. rewrite json_rt_map.
  - do 2 f_equal. rewrite !omap_insert, omap_singleton, E1, E2, E3, E4, E5. simpl. by rewrite Hid, Hpa.
  - repeat (apply map_Forall_insert_2; [by rewrite ?E1, ?E2, ?E3, ?E4, ?E5; eauto|]).
    apply map_Forall_empty.
Qed.

Lemma FromMap_image `{GoTimeLaws} `{GoFloat} c : storable c → CP.FromMap (image c) = stored c.
Proof.
  intros [Hid Hpa Hv Hch Hse Hst Hwr (Hi & Hp & Ht & Hs & Hstep) Hcu].
  assert (map_Forall (λ _ v, small v) (CP.ChannelVersions c)) as Hsm
    by (eapply map_Forall_impl; [done|]; by intros ?? [_ ?]).
  pose proof (parse_float_versions _ Hsm) as E1. unfold CP.parse_versions in E1. simpl in E1.
  injection E1 as E1.
  destruct (seen_rt _ Hse) as [_ E2]. destruct (state_rt _ Hst) as [_ E3].
  destruct (writes_rt _ Hwr) as [_ E4]. destruct (meta_rt _ Hi Hp Ht Hs Hstep Hcu) as [_ E5].
  unfold CP.FromMap, image, CP.getString, CP.getInt, map_get. simplify_map_eq.
  cbn [default as_string as_float as_map as_list]. rewrite E2, E3, E4, E5, E1.
  by rewrite int64_float_exact.
Qed.

Lemma int_add_1_neq z : int_add z 1 ≠ z.
Proof.
  unfold int_add. intros E. pose proof (wrap64_range (z + 1)) as Hr. rewrite E in Hr.
  unfold wrap64, in_int64, int_bound in *.
  destruct (decide (z + 1 < 2 ^ 63)%Z).
  - rewrite Z.mod_small in E by lia. lia.
  - replace (z + 1 + 2 ^ 63)%Z with (0 + 1 * 2 ^ 64)%Z in E by lia.
    rewrite Z.mod_add, Z.mod_0_l in E by lia. lia.
Qed.

(** ** Properties *)

(** C11: a checkpoint that JSON can hold survives being stored: [FromMap] of the
    decoded JSON of [ToMap] is the checkpoint itself, except for the time and
    the task of its pending writes, which are not stored. *)
Theorem checkpoint_json_roundtrip `{GoTimeLaws} `{GoFloat} c :
  storable c →
  ∃ m, json_rt (VObj (CP.ToMap c)) = Some (VObj m) ∧ CP.FromMap m = stored c.
Proof.
  intros Hc. exists (image c). split; [by apply ToMap_image|by apply FromMap_image].
Qed.

(** Without JSON in between the conversion loses every number and every
    pending write: [FromMap] looks for floats and untyped collections, and
    [ToMap] stores integers and typed ones. *)
Theorem ToMap_FromMap_loses `{GoTime} `{GoFloat} c :
  let c' := CP.FromMap (CP.ToMap c) in
  CP.ID c' = CP.ID c ∧ CP.ParentID c' = CP.ParentID c ∧
  CP.State c' = deepCopyMap (deepCopyMap (CP.State c)) ∧
  CP.Version c' = 0%Z ∧ CP.ChannelVersions c' = ∅ ∧ CP.VersionsSeen c' = ∅ ∧
  CP.PendingWrites c' = [].
Proof.
  unfold CP.FromMap, CP.ToMap, CP.getString, CP.getInt, map_get. simplify_map_eq. done.
Qed.

(** Version tracking: a node that marks a channel as seen has seen it until
    the channel's next increment, which does not touch other channels. *)
Theorem seen_until_increment node channel other c :
  CP.HasSeen node channel (CP.MarkSeen node channel c) = true ∧
  CP.HasSeen node channel (CP.IncrementChannel channel (CP.MarkSeen node channel c)) = false ∧
  (other ≠ channel →
   CP.HasSeen node channel (CP.IncrementChannel other c) = CP.HasSeen node channel c).
Proof.
  unfold CP.HasSeen, CP.MarkSeen, CP.IncrementChannel, CP.version_of. simpl. split_and!.
  - by rewrite !lookup_insert_eq, Z.eqb_refl.
  - rewrite !lookup_insert_eq. simpl. apply Z.eqb_neq. intros E. by apply (int_add_1_neq _ (eq_sym E)).
  - intros Hne. by rewrite lookup_insert_ne.
Qed.

(** ** Witnesses *)

(** A clock text: a sign and a tally. *)
Fixpoint tally (n : nat) : string := match n with O => "" | S n' => String "1"%char (tally n') end.

Definition tally_clock : GoTime := {|
  format_time t := String (if decide (t < 0)%Z then "-"%char else "+"%char) (tally (Z.abs_nat t));
  parse_time s := match s with
                  | String a s' => Some (if decide (a = "-"%char) then - Z.of_nat (String.length s')
                                         else Z.of_nat (String.length s'))%Z
                  | EmptyString => None
                  end
|}.

Lemma tally_valid n : sanitize (tally n) = tally n.
Proof.
  unfold sanitize. induction n as [|n IH]; [done|]. cbn [tally sanitize_from].
  change (rune_len (String "1"%char (tally n))) with 1. cbv iota. by rewrite IH.
Qed.

Lemma tally_length n : String.length (tally n) = n.
Proof. induction n; simpl; congruence. Qed.

Lemma tally_clock_laws : @GoTimeLaws tally_clock.
Proof.
  split; intros t; cbn [format_time parse_time tally_clock].
  - f_equal. rewrite tally_length. repeat case_decide; try done; lia.
  - unfold sanitize. case_decide; cbn [sanitize_from].
    + change (rune_len _) with 1. cbv iota. f_equal. apply tally_valid.
    + change (rune_len _) with 1. cbv iota. f_equal. apply tally_valid.
  - done.
Qed.

Definition demo_checkpoint : CP.t :=
  CP.AddPendingWrite "out" (VStr "x") true "n"
    (CP.MarkSeen "n" "out" (CP.IncrementChannel "out"
      (CP.NewCheckpoint "id1" 7 "thread" 3))).

Lemma demo_storable : storable demo_checkpoint.
Proof.
  split; try done.
  - apply map_Forall_insert_2; [split; [done|split; vm_compute; reflexivity]|apply map_Forall_empty].
  - apply map_Forall_insert_2; [split; [done|]|apply map_Forall_empty].
    apply map_Forall_insert_2; [split; [done|split; vm_compute; reflexivity]|apply map_Forall_empty].
  - repeat constructor.
Qed.

Lemma checkpoint_json_roundtrip_witness :
  ∃ m, json_rt (VObj (CP.ToMap (H := tally_clock) demo_checkpoint)) = Some (VObj m) ∧
       CP.FromMap (H := tally_clock) (H0 := amd64) m = demo_checkpoint.
Proof.
  exact (checkpoint_json_roundtrip (H := tally_clock) (H0 := tally_clock_laws)
           (H1 := amd64) demo_checkpoint demo_storable).
Defined.

Lemma seen_until_increment_witness : "b" ≠ "a" ∧
  CP.HasSeen "n" "a" (CP.IncrementChannel "b" demo_checkpoint) = CP.HasSeen "n" "a" demo_checkpoint.
Proof.
  split; [done|]. by apply (seen_until_increment "n" "a" "b" demo_checkpoint).
Defined.
