(* ===== verification/Manager.v ===== *)
(** * The checkpoint manager

    [CheckpointManager] of [checkpoint/checkpoint.go]: a history of versioned
    checkpoints per thread, with conflict detection.  Every method holds the
    manager's lock, so it is one step.  Identifiers of clones and the time
    are arguments.  [Save] keeps the caller's pointer; the model takes the
    value the checkpoint has at that moment. *)

From S2P Require Export Checkpoint.

Record CheckpointTuple : Type := {
  TConfig : RunnableConfig;
  TCheckpoint : option CP.t;
  TParentConfig : option RunnableConfig;
  TMetadata : gmap string val
}.

Definition time_val (t : Z) : val := VStruct "time.Time" [("ns", TInt, VInt t)].

Definition NewCheckpointTuple (config : option RunnableConfig) (cp : option CP.t)
    (parentConfig : option RunnableConfig) : CheckpointTuple := {|
  TConfig := default Config.NewRunnableConfig config;
  TCheckpoint := cp;
  TParentConfig := parentConfig;
  TMetadata :=
    match cp with
    | None => ∅
    | Some c =>
        {["id" := VStr (CP.ID c); "version" := VInt (CP.Version c);
          "thread_id" := VStr (MThreadID (CP.Meta c)); "step" := VInt (MStep (CP.Meta c));
          "source" := VStr (MSource (CP.Meta c)); "created_at" := time_val (MCreatedAt (CP.Meta c))]}
    end
|}.

(** [RunnableConfigToMap] *)
Definition RunnableConfigToMap (cfg : option RunnableConfig) : gmap string val :=
  match cfg with
  | None => ∅
  | Some c =>
      {["thread_id" := VStr (ThreadID c);
        "checkpoint_id" := VStr (Config.GetOrEmpty "checkpoint_id" c);
        "checkpoint_ns" := VStr (Config.GetOrEmpty "checkpoint_ns" c)]}
  end.

Record CheckpointManager : Type := MkManager {
  checkpoints : gmap string (list CP.t);
  maxVersions : Z
}.

Module CM.
Definition NewCheckpointManager (max : Z) : CheckpointManager :=
  MkManager ∅ (if (max <=? 0)%Z then DefaultCheckpointMaxVersions else max).

(** The history of a thread, oldest first; the empty one when there is none. *)
Definition history (threadID : string) (cm : CheckpointManager) : list CP.t :=
  default [] (checkpoints cm !! threadID).

Definition set_history (threadID : string) (h : list CP.t) (cm : CheckpointManager)
  : CheckpointManager := MkManager (<[threadID := h]> (checkpoints cm)) (maxVersions cm).

Definition save_conflict (c latest : CP.t) (threadID : string) : error :=
  VersionConflictError (CP.Version c) (int_add (CP.Version latest) 1) (CP.ID c) threadID.

(** The two checks of [Save] against the latest checkpoint. *)
Definition conflicts (c latest : CP.t) : bool :=
  (negb (bool_decide (CP.ParentID c = "")) && negb (bool_decide (CP.ID latest = CP.ParentID c))) ||
  ((0 <? CP.Version c)%Z && negb (CP.Version latest =? int_add (CP.Version c) (-1))%Z).

(** Only the last [maxVersions] checkpoints are kept. *)
Definition trim (max : Z) (h : list CP.t) : list CP.t :=
  if (max <? Z.of_nat (length h))%Z then drop (length h - Z.to_nat max) h else h.

Definition Save (c : CP.t) (cm : CheckpointManager) : res CheckpointManager :=
  let threadID := MThreadID (CP.Meta c) in
  let h := history threadID cm in
  match last h with
  | Some latest =>
      if conflicts c latest then Err (save_conflict c latest threadID)
      else Ok (set_history threadID (trim (maxVersions cm) (h ++ [c])) cm)
  | None => Ok (set_history threadID (trim (maxVersions cm) (h ++ [c])) cm)
  end.

Definition set_state (st : gmap string val) (c : CP.t) : CP.t :=
  CP.Mk (CP.ID c) (CP.Version c) (CP.ParentID c) (CP.ChannelVersions c) (CP.VersionsSeen c)
     st (CP.PendingWrites c) (CP.Meta c).

Definition set_version (v : Z) (parentID : string) (c : CP.t) : CP.t :=
  CP.Mk (CP.ID c) v parentID (CP.ChannelVersions c) (CP.VersionsSeen c)
     (CP.State c) (CP.PendingWrites c) (CP.Meta c).

(** The loop of [PutWrites]. *)
Definition apply_write (c : CP.t) (w : PendingWrite) : CP.t :=
  CP.IncrementChannel (PWChannel w) (set_state (<[PWChannel w := PWValue w]> (CP.State c)) c).

(** The successor [PutWrites] appends. *)
Definition successor (newID : string) (now : Z) (writes : list PendingWrite) (current : CP.t) : CP.t :=
  foldl apply_write
    (set_version (int_add (CP.Version current) 1) (CP.ID current) (CP.Clone newID now current))
    writes.

Definition PutWrites (config : RunnableConfig) (writes : list PendingWrite) (newID : string)
    (now : Z) (cm : CheckpointManager) : res CheckpointManager :=
  let threadID := ThreadID config in
  if decide (threadID = "") then Err (Errorf "thread ID is required for put_writes")
  else
    match last (history threadID cm) with
    | None => Err (Errorf ("no checkpoint found for thread " +:+ threadID))
    | Some current =>
        let callerID := Config.GetOrEmpty "checkpoint_id" config in
        if decide (callerID = "") then
          Err (Errorf ("checkpoint_id is required for put_writes on thread " +:+ threadID))
        else if decide (callerID = CP.ID current) then
          Ok (set_history threadID
                (history threadID cm ++ [successor newID now writes current]) cm)
        else Err (VersionConflictError (CP.Version current) (int_add (CP.Version current) 1)
                    (CP.ID current) threadID)
    end.

(** [Load] returns a clone. *)
Definition Load (threadID newID : string) (now : Z) (cm : CheckpointManager) : option CP.t :=
  CP.Clone newID now <$> last (history threadID cm).

Definition find_id (id : string) (h : list CP.t) : option CP.t :=
  snd <$> list_find (λ c, CP.ID c = id) h.

(** [LoadByCheckpointID], ranging over the threads in the order [ord]. *)
Definition LoadByCheckpointID (ord : list (string * list CP.t)) (id newID : string) (now : Z)
  : res CP.t :=
  match find_id id (mjoin ord.*2) with
  | Some c => Ok (CP.Clone newID now c)
  | None => Err (Errorf ("checkpoint not found: " +:+ id))
  end.

(** [limit] of [List] and [GetLineage]. *)
Definition clamp (limit : Z) (n : nat) : nat :=
  if ((limit <=? 0) || (Z.of_nat n <? limit))%Z then n else Z.to_nat limit.

(** [List]: clones of the newest [limit] checkpoints; [None] is the nil slice. *)
Definition List_ (threadID : string) (limit : Z) (newID : nat → string) (now : Z)
    (cm : CheckpointManager) : option (list CP.t) :=
  let h := history threadID cm in
  if decide (h = []) then None
  else let l := clamp limit (length h) in
       Some (imap (λ i c, CP.Clone (newID i) now c) (drop (length h - l) h)).

Definition id_config (threadID id : string) : RunnableConfig :=
  Config.Set_ "checkpoint_id" (VStr id) (Config.WithThreadID threadID Config.NewRunnableConfig).

Definition GetTuple (config : RunnableConfig) (newID : nat → string) (now : Z)
    (cm : CheckpointManager) : res CheckpointTuple :=
  let threadID := ThreadID config in
  if decide (threadID = "") then Err (Errorf "thread ID is required")
  else
    let h := history threadID cm in
    match last h with
    | None => Ok (NewCheckpointTuple (Some config) None None)
    | Some latest =>
        let parent := if decide (1 < length h)
                      then CP.Clone (newID 1) now <$> h !! (length h - 2) else None in
        Ok (NewCheckpointTuple (Some config) (Some (CP.Clone (newID 0) now latest))
              ((λ p, id_config threadID (CP.ID p)) <$> parent))
    end.

Definition GetTupleByVersion (config : RunnableConfig) (version : Z) (newID : nat → string)
    (now : Z) (cm : CheckpointManager) : res CheckpointTuple :=
  let threadID := ThreadID config in
  if decide (threadID = "") then Err (Errorf "thread ID is required")
  else
    let h := history threadID cm in
    match list_find (λ c, CP.Version c = version) h with
    | None => Err (Errorf ("version not found: " +:+ pretty version))
    | Some (i, c) =>
        let parent := if decide (0 < i) then CP.Clone (newID 1) now <$> h !! (i - 1) else None in
        Ok (NewCheckpointTuple (Some config) (Some (CP.Clone (newID 0) now c))
              ((λ p, id_config threadID (CP.ID p)) <$> parent))
    end.

(** [GetLineage]: the identifiers of the parents are those of the stored
    checkpoints, the checkpoints themselves are clones. *)
Definition GetLineage (threadID : string) (limit : Z) (newID : nat → string) (now : Z)
    (cm : CheckpointManager) : option (list CheckpointTuple) :=
  let h := history threadID cm in
  if decide (h = []) then None
  else
    let l := clamp limit (length h) in
    let start := length h - l in
    Some (imap (λ j c,
            let i := start + j in
            let cp := CP.Clone (newID j) now c in
            NewCheckpointTuple (Some (id_config threadID (CP.ID cp))) (Some cp)
              (if decide (0 < i) then (λ p, id_config threadID (CP.ID p)) <$> h !! (i - 1) else None))
          (drop start h)).

Definition GetVersion (threadID : string) (version : Z) (newID : string) (now : Z)
    (cm : CheckpointManager) : res CP.t :=
  match list_find (λ c, CP.Version c = version) (history threadID cm) with
  | Some (_, c) => Ok (CP.Clone newID now c)
  | None => Err (Errorf ("version not found: " +:+ pretty version))
  end.

(** [Delete] removes the first checkpoint with the identifier, in the order
    [ord] of the loop over the threads. *)
Fixpoint delete_in (ord : list (string * list CP.t)) (id : string) : option (string * list CP.t) :=
  match ord with
  | [] => None
  | (threadID, h) :: ord' =>
      match list_find (λ c, CP.ID c = id) h with
      | Some (i, _) => Some (threadID, take i h ++ drop (S i) h)
      | None => delete_in ord' id
      end
  end.

Definition Delete (ord : list (string * list CP.t)) (id : string) (cm : CheckpointManager)
  : res CheckpointManager :=
  match delete_in ord id with
  | Some (threadID, h) => Ok (set_history threadID h cm)
  | None => Err (Errorf ("checkpoint not found: " +:+ id))
  end.

Definition ClearThread (threadID : string) (cm : CheckpointManager) : CheckpointManager :=
  MkManager (delete threadID (checkpoints cm)) (maxVersions cm).

Definition ClearAll (cm : CheckpointManager) : CheckpointManager := MkManager ∅ (maxVersions cm).
End CM.

(** ** Histories *)
Lemma history_set t h cm t' :
  CM.history t' (CM.set_history t h cm) = if decide (t = t') then h else CM.history t' cm.
Proof.
  unfold CM.history, CM.set_history. simpl. case_decide; by simplify_map_eq.
Qed.

Lemma trim_suffix max h : ∃ k, CM.trim max h = drop k h.
Proof. unfold CM.trim. case_match; [eauto|]. by exists 0. Qed.

Lemma last_drop_lt {A} n (l : list A) : n < length l → last (drop n l) = last l.
Proof. intros Hn. rewrite !last_lookup, lookup_drop, length_drop. f_equal. lia. Qed.

Lemma trim_length max h : (0 ≤ max)%Z → Z.of_nat (length (CM.trim max h)) = Z.min max (Z.of_nat (length h)).
Proof.
  intros Hm. unfold CM.trim. destruct (Z.ltb_spec max (Z.of_nat (length h))); [|lia].
  rewrite length_drop. lia.
Qed.

(** What [Save] and [PutWrites] do to the histories. *)
Lemma Save_inv c cm cm' :
  CM.Save c cm = Ok cm' →
  cm' = CM.set_history (MThreadID (CP.Meta c))
          (CM.trim (maxVersions cm) (CM.history (MThreadID (CP.Meta c)) cm ++ [c])) cm ∧
  ∀ latest, last (CM.history (MThreadID (CP.Meta c)) cm) = Some latest →
            CM.conflicts c latest = false.
Proof.
  unfold CM.Save. destruct (last _) as [latest|].
  - destruct (CM.conflicts c latest) eqn:E; [done|]. intros [= <-]. split; [done|]. by intros ? [= <-].
  - by intros [= <-].
Qed.

Lemma PutWrites_inv cfg ws newID now cm cm' :
  CM.PutWrites cfg ws newID now cm = Ok cm' →
  ∃ current, last (CM.history (ThreadID cfg) cm) = Some current ∧ ThreadID cfg ≠ "" ∧
    Config.GetOrEmpty "checkpoint_id" cfg = CP.ID current ∧
    cm' = CM.set_history (ThreadID cfg)
            (CM.history (ThreadID cfg) cm ++ [CM.successor newID now ws current]) cm.
Proof.
  unfold CM.PutWrites. case_decide; [done|]. destruct (last _) as [current|]; [|done].
  case_decide; [done|]. case_decide; [|done]. intros [= <-]. by exists current.
Qed.

(** *** The loop over the writes *)
Lemma apply_writes_fields ws c :
  let c' := foldl CM.apply_write c ws in
  (CP.ID c', CP.Version c', CP.ParentID c', CP.VersionsSeen c', CP.PendingWrites c', CP.Meta c') =
  (CP.ID c, CP.Version c, CP.ParentID c, CP.VersionsSeen c, CP.PendingWrites c, CP.Meta c).
Proof.
  revert c. induction ws as [|w ws IH]; intros c; [done|]. simpl in *. by rewrite IH.
Qed.

(** The value of the last write to a channel. *)
Definition last_write (ch : string) (ws : list PendingWrite) : option val :=
  PWValue <$> last (filter (λ w, PWChannel w = ch) ws).

Lemma last_write_cons ch w ws :
  last_write ch (w :: ws) =
    match last_write ch ws with
    | Some v => Some v
    | None => if decide (PWChannel w = ch) then Some (PWValue w) else None
    end.
Proof.
  unfold last_write. rewrite filter_cons. case_decide; [|by destruct (last _)].
  rewrite last_cons. by destruct (last _).
Qed.

Lemma apply_writes_state ws c ch :
  CP.State (foldl CM.apply_write c ws) !! ch =
    match last_write ch ws with Some v => Some v | None => CP.State c !! ch end.
Proof.
  revert c. induction ws as [|w ws IH]; intros c; [done|].
  cbn [foldl]. rewrite IH, last_write_cons. destruct (last_write ch ws); [done|].
  simpl. case_decide as E; [rewrite E; by rewrite lookup_insert_eq|by rewrite lookup_insert_ne].
Qed.

Definition writes_to (ch : string) (ws : list PendingWrite) : nat :=
  length (filter (λ w, PWChannel w = ch) ws).

Lemma apply_writes_version ws c ch :
  CP.version_of (foldl CM.apply_write c ws) ch =
    Nat.iter (writes_to ch ws) (λ v, int_add v 1) (CP.version_of c ch).
Proof.
  revert c. induction ws as [|w ws IH]; intros c; [done|].
  cbn [foldl]. rewrite IH. unfold writes_to. rewrite filter_cons.
  unfold CM.apply_write, CP.IncrementChannel, CP.version_of. simpl.
  case_decide as E.
  - rewrite E, lookup_insert_eq. cbn [length]. by rewrite Nat.iter_succ_r.
  - by rewrite lookup_insert_ne.
Qed.

(** ** Linear histories *)
Definition linked (c d : CP.t) : Prop :=
  CP.ParentID d = CP.ID c ∧ CP.Version d = int_add (CP.Version c) 1.

Definition chained (h : list CP.t) : Prop :=
  ∀ i c d, h !! i = Some c → h !! S i = Some d → linked c d.

Lemma chained_drop k h : chained h → chained (drop k h).
Proof. intros Hh i c d. rewrite !lookup_drop, Nat.add_succ_r. apply Hh. Qed.

Lemma chained_snoc h d :
  chained h → (∀ c, last h = Some c → linked c d) → chained (h ++ [d]).
Proof.
  intros Hh Hl i c e Hi Hsi.
  destruct (decide (S i < length h)).
  - rewrite lookup_app_l in Hi, Hsi by lia. by eapply Hh.
  - apply lookup_lt_Some in Hsi as Hlt. rewrite length_app in Hlt. simpl in Hlt.
    rewrite lookup_app_r in Hsi by lia. rewrite lookup_app_l in Hi by lia.
    replace (S i - length h) with 0 in Hsi by lia. injection Hsi as <-.
    apply Hl. rewrite last_lookup. by replace (pred (length h)) with i by lia.
Qed.

Lemma successor_linked newID now ws c : linked c (CM.successor newID now ws c).
Proof.
  unfold linked, CM.successor.
  pose proof (apply_writes_fields ws
    (CM.set_version (int_add (CP.Version c) 1) (CP.ID c) (CP.Clone newID now c))) as Hf.
  cbv zeta in Hf. by injection Hf as _ -> -> _ _ _.
Qed.

(** A checkpoint that declares its parent and its version. *)
Definition declared (c : CP.t) : Prop :=
  CP.ParentID c ≠ "" ∧ (0 < CP.Version c)%Z ∧ in_int64 (CP.Version c).

Lemma no_conflict_linked c latest :
  declared c → in_int64 (CP.Version latest) →
  CM.conflicts c latest = false → linked latest c.
Proof.
  intros (Hp & Hv & Hb) Hl [E1 E2]%orb_false_iff. split.
  - rewrite bool_decide_false in E1 by done. simpl in E1.
    apply negb_false_iff, bool_decide_eq_true in E1. done.
  - rewrite (proj2 (Z.ltb_lt _ _)) in E2 by done. simpl in E2.
    apply negb_false_iff, Z.eqb_eq in E2. rewrite E2. unfold int_add, in_int64, int_bound in *.
    rewrite !wrap64_id; unfold in_int64, int_bound in *; rewrite ?wrap64_id; unfold in_int64, int_bound; lia.
Qed.

(** A step of a client that declares parents and versions: the first save of a
    thread may declare nothing. *)
Inductive cm_step : CheckpointManager → CheckpointManager → Prop :=
| step_save c cm cm' :
    in_int64 (CP.Version c) →
    CM.history (MThreadID (CP.Meta c)) cm = [] ∨ declared c →
    CM.Save c cm = Ok cm' → cm_step cm cm'
| step_put cfg ws newID now cm cm' :
    CM.PutWrites cfg ws newID now cm = Ok cm' → cm_step cm cm'
| step_clear_thread t cm : cm_step cm (CM.ClearThread t cm)
| step_clear_all cm : cm_step cm (CM.ClearAll cm).

Record orderly (cm : CheckpointManager) : Prop := {
  ord_chained t : chained (CM.history t cm);
  ord_thread t : Forall (λ c, MThreadID (CP.Meta c) = t ∧ in_int64 (CP.Version c)) (CM.history t cm)
}.

Lemma successor_thread newID now ws c :
  MThreadID (CP.Meta (CM.successor newID now ws c)) = MThreadID (CP.Meta c) ∧
  in_int64 (CP.Version (CM.successor newID now ws c)).
Proof.
  unfold CM.successor.
  pose proof (apply_writes_fields ws
    (CM.set_version (int_add (CP.Version c) 1) (CP.ID c) (CP.Clone newID now c))) as Hf.
  cbv zeta in Hf. injection Hf as _ -> _ _ _ ->. split; [done|]. apply wrap64_range.
Qed.

Lemma orderly_set t h cm :
  orderly cm → chained h → Forall (λ c, MThreadID (CP.Meta c) = t ∧ in_int64 (CP.Version c)) h →
  orderly (CM.set_history t h cm).
Proof.
  intros [Hc Ht] Hh Hf. split; intros t'; rewrite history_set; case_decide; subst; auto.
Qed.

Lemma orderly_step cm cm' : cm_step cm cm' → orderly cm → orderly cm'.
Proof.
  intros [c cm0 cm1 Hv Hd Hs|cfg ws newID now cm0 cm1 Hp|t cm0|cm0] Ho; pose proof Ho as [Hc Ht].
  - destruct (Save_inv _ _ _ Hs) as [-> Hno].
    set (t := MThreadID (CP.Meta c)) in *.
    assert (chained (CM.history t cm0 ++ [c])) as Hch.
    { apply chained_snoc; [done|]. intros d Hl. destruct Hd as [Hd|Hd]; [by rewrite Hd in Hl|].
      apply no_conflict_linked; [done| |by apply Hno].
      assert (d ∈ CM.history t cm0) as Hin by by apply last_Some_elem_of.
      specialize (Ht t). rewrite Forall_forall in Ht. by apply Ht. }
    destruct (trim_suffix (maxVersions cm0) (CM.history t cm0 ++ [c])) as [k ->].
    apply orderly_set; [done|by apply chained_drop|]. apply Forall_drop, Forall_app. auto.
  - destruct (PutWrites_inv _ _ _ _ _ _ Hp) as (cur & Hl & _ & _ & ->).
    apply orderly_set; [done| |].
    + apply chained_snoc; [done|]. intros d. rewrite Hl. intros [= <-]. apply successor_linked.
    + apply Forall_app. split; [done|]. apply Forall_singleton.
      destruct (successor_thread newID now ws cur) as [-> ?]. split; [|done].
      assert (cur ∈ CM.history (ThreadID cfg) cm0) as Hin by by apply last_Some_elem_of.
      specialize (Ht (ThreadID cfg)). rewrite Forall_forall in Ht. by apply Ht.
  - assert (∀ t', CM.history t' (CM.ClearThread t cm0) = if decide (t = t') then [] else CM.history t' cm0)
      as Hcl.
    { intros t'. unfold CM.history. simpl. case_decide; by simplify_map_eq. }
    split; intros t'; rewrite Hcl; case_decide; auto. by intros i c d ?.
  - split; intros t; [by intros i c d ?|constructor].
Qed.

(** ** Properties *)

(** C7: whatever saves (that declare their parent and version), writes and
    clears a manager went through, the history of every thread is linear: each
    checkpoint names its predecessor as parent and follows it by one version,
    and all belong to the thread. *)
Theorem history_linear max cm :
  rtc cm_step (CM.NewCheckpointManager max) cm →
  ∀ t, chained (CM.history t cm) ∧
       Forall (λ c, MThreadID (CP.Meta c) = t) (CM.history t cm).
Proof.
  intros Hr t. assert (orderly cm) as [Hc Ht].
  { revert cm Hr. apply rtc_ind_r.
    - split; intros t'; [by intros i c d ?|constructor].
    - intros ????. by apply orderly_step. }
  split; [done|]. eapply Forall_impl; [apply Ht|]. by intros c [? _].
Qed.

(** C8: no lost update through [Save]: once a checkpoint is saved, saving another
    one that was made from a different parent is a version conflict and changes
    nothing; and a save that succeeds leaves the other threads alone and keeps
    the newest [maxVersions] checkpoints of its own. *)
Theorem Save_no_lost_update c1 c2 cm cm' :
  (0 < maxVersions cm)%Z →
  CM.Save c1 cm = Ok cm' →
  let t := MThreadID (CP.Meta c1) in
  (MThreadID (CP.Meta c2) = t → CP.ParentID c2 ≠ "" → CP.ParentID c2 ≠ CP.ID c1 →
   CM.Save c2 cm' = Err (CM.save_conflict c2 c1 t)) ∧
  last (CM.history t cm') = Some c1 ∧
  Z.of_nat (length (CM.history t cm')) =
    Z.min (maxVersions cm) (Z.of_nat (length (CM.history t cm)) + 1) ∧
  ∀ t', t' ≠ t → CM.history t' cm' = CM.history t' cm.
Proof.
  intros Hm Hs t. destruct (Save_inv _ _ _ Hs) as [-> _]. fold t.
  assert (last (CM.trim (maxVersions cm) (CM.history t cm ++ [c1])) = Some c1) as Hlast.
  { unfold CM.trim. destruct (Z.ltb_spec (maxVersions cm) (Z.of_nat (length (CM.history t cm ++ [c1]))));
      [|by rewrite last_snoc].
    rewrite last_drop_lt; [by rewrite last_snoc|]. rewrite length_app in *. simpl in *. lia. }
  split_and!.
  - intros Ht Hp Hne. unfold CM.Save. rewrite Ht, history_set, decide_True by done. fold t.
    rewrite Hlast. unfold CM.conflicts.
    rewrite (bool_decide_false _ Hp), (bool_decide_false (CP.ID c1 = CP.ParentID c2)) by congruence.
    done.
  - by rewrite history_set, decide_True.
  - rewrite history_set, decide_True by done. rewrite trim_length by lia.
    rewrite length_app. simpl. lia.
  - intros t' Hne. by rewrite history_set, decide_False.
Qed.

(** [PutWrites] with the identifier of the latest checkpoint appends exactly
    one successor (even beyond [maxVersions]): one version on, its parent the
    latest checkpoint, every written channel holding its last write with its
    version counted up once per write, and the rest of the state copied.  Any
    other identifier is a conflict. *)
Theorem PutWrites_spec cfg ws newID now cm current :
  let t := ThreadID cfg in
  let id := Config.GetOrEmpty "checkpoint_id" cfg in
  t ≠ "" → last (CM.history t cm) = Some current → id ≠ "" →
  if decide (id = CP.ID current) then
    ∃ cm' c, CM.PutWrites cfg ws newID now cm = Ok cm' ∧
      CM.history t cm' = CM.history t cm ++ [c] ∧
      (∀ t', t' ≠ t → CM.history t' cm' = CM.history t' cm) ∧
      CP.ID c = newID ∧ linked current c ∧
      ∀ ch, CP.State c !! ch = match last_write ch ws with
                               | Some v => Some v
                               | None => deepCopyMap (CP.State current) !! ch
                               end ∧
            CP.version_of c ch =
              Nat.iter (writes_to ch ws) (λ v, int_add v 1) (CP.version_of current ch)
  else CM.PutWrites cfg ws newID now cm =
         Err (VersionConflictError (CP.Version current) (int_add (CP.Version current) 1)
                (CP.ID current) t).
Proof.
  intros t id Ht Hl Hid. unfold CM.PutWrites. fold t id.
  rewrite (decide_False (P := t = "")) by done. rewrite Hl, (decide_False (P := id = "")) by done.
  case_decide as Heq; [|done].
  eexists _, _. split; [done|]. rewrite history_set, decide_True by done. split; [done|].
  split; [intros t' Hne; by rewrite history_set, decide_False by done|].
  split_and!.
  - unfold CM.successor.
    pose proof (apply_writes_fields ws
      (CM.set_version (int_add (CP.Version current) 1) (CP.ID current)
         (CP.Clone newID now current))) as Hf.
    cbv zeta in Hf. by injection Hf as -> _ _ _ _ _.
  - apply successor_linked.
  - intros ch. unfold CM.successor. split; [apply apply_writes_state|by rewrite apply_writes_version].
Qed.

(** A checkpoint that was loaded cannot be written back to: the clone [Load]
    returns has an identifier of its own, which [PutWrites] takes for a stale
    one and [LoadByCheckpointID] does not find. *)
Theorem Load_id_unusable t newID now cm c cfg ws id' now' ord :
  CM.Load t newID now cm = Some c →
  (∀ t' d, d ∈ CM.history t' cm → CP.ID d ≠ newID) → newID ≠ "" → t ≠ "" →
  ThreadID cfg = t → Config.GetOrEmpty "checkpoint_id" cfg = CP.ID c →
  go_range (checkpoints cm) ord →
  (∃ v v' id, CM.PutWrites cfg ws id' now' cm = Err (VersionConflictError v v' id t)) ∧
  CM.LoadByCheckpointID ord (CP.ID c) id' now' = Err (Errorf ("checkpoint not found: " +:+ newID)).
Proof.
  unfold CM.Load. intros (current & Hl & ->)%fmap_Some Hfresh Hn Ht Hcfg Hid Hord.
  assert (current ∈ CM.history t cm) as Hin by by apply last_Some_elem_of.
  simpl in Hid. split.
  - unfold CM.PutWrites. rewrite Hcfg, decide_False, Hl, Hid by done.
    rewrite (decide_False (P := newID = "")) by done.
    rewrite decide_False by (intros E; by apply (Hfresh t current)). by eexists _, _, _.
  - unfold CM.LoadByCheckpointID, CM.find_id. simpl.
    destruct (list_find _ _) as [[i d]|] eqn:E; [|done]. exfalso.
    apply list_find_Some in E as (Hi & Hd & _). apply list_elem_of_lookup_2 in Hi.
    apply list_elem_of_join in Hi as (h & Hdh & ([t' h'] & -> & Hth)%list_elem_of_fmap).
    apply (go_range_elem _ _ t' h' Hord) in Hth. apply (Hfresh t' d); [|done].
    unfold CM.history. by rewrite Hth.
Qed.

(** [List] returns clones of the newest checkpoints of a thread, as many as
    the limit asks for, in the order they were saved: the most recent one comes
    last. *)
Theorem List_oldest_first t limit ids now cm l :
  CM.List_ t limit ids now cm = Some l →
  let h := CM.history t cm in
  length l = CM.clamp limit (length h) ∧
  (∀ j, l !! j = CP.Clone (ids j) now <$> h !! (length h - length l + j)) ∧
  (l ≠ [] → CP.State <$> last l = deepCopyMap ∘ CP.State <$> last h).
Proof.
  unfold CM.List_. set (h := CM.history t cm). case_decide as Hne; [done|]. intros [= <-].
  assert (CM.clamp limit (length h) ≤ length h) as Hc.
  { unfold CM.clamp. destruct ((limit <=? 0)%Z || _) eqn:E; [done|].
    apply orb_false_iff in E as [E1%Z.leb_gt E2%Z.ltb_ge]. lia. }
  assert (length (imap (λ i c, CP.Clone (ids i) now c) (drop (length h - CM.clamp limit (length h)) h))
          = CM.clamp limit (length h)) as Hlen.
  { rewrite length_imap, length_drop. lia. }
  split; [done|]. rewrite Hlen. split.
  - intros j. by rewrite list_lookup_imap, lookup_drop.
  - intros Hnil. rewrite !last_lookup, list_lookup_imap, lookup_drop, Hlen.
    assert (0 < CM.clamp limit (length h)) as Hpos.
    { rewrite <-Hlen. destruct (imap _ _); [done|simpl; lia]. }
    replace (length h - CM.clamp limit (length h) + pred (CM.clamp limit (length h)))
      with (pred (length h)) by lia.
    by destruct (h !! pred (length h)).
Qed.

(** ** Witnesses *)
Definition chk (id parent : string) (version : Z) : CP.t :=
  CM.set_version version parent (CP.NewCheckpoint id 0 "th" 0).

Definition demo_manager : CheckpointManager :=
  CM.set_history "th" [chk "a" "" 1] (CM.NewCheckpointManager 1).

Lemma demo_manager_saved : CM.Save (chk "a" "" 1) (CM.NewCheckpointManager 1) = Ok demo_manager.
Proof. reflexivity. Qed.

Definition demo_cfg : RunnableConfig := CM.id_config "th" "a".
Definition demo_write : PendingWrite :=
  {| PWChannel := "x"; PWValue := VInt 1; PWOverwrite := false; PWNode := "n";
     PWTimestamp := 0; PWTaskID := "t" |}.
Definition demo_manager2 : CheckpointManager :=
  CM.set_history "th" [chk "a" "" 1; CM.successor "b" 0 [demo_write] (chk "a" "" 1)] demo_manager.

Lemma demo_put : CM.PutWrites demo_cfg [demo_write] "b" 0 demo_manager = Ok demo_manager2.
Proof. reflexivity. Qed.

Lemma history_linear_witness :
  length (CM.history "th" demo_manager2) = 2 ∧
  chained (CM.history "th" demo_manager2) ∧
  Forall (λ c, MThreadID (CP.Meta c) = "th") (CM.history "th" demo_manager2).
Proof.
  split; [reflexivity|]. apply (history_linear 1).
  apply (rtc_l _ _ demo_manager).
  { eapply step_save; [|left; reflexivity|exact demo_manager_saved]. split; vm_compute; congruence. }
  apply (rtc_l _ _ demo_manager2); [|constructor]. eapply step_put. exact demo_put.
Defined.

Lemma Save_no_lost_update_witness :
  CM.Save (chk "c" "zz" 2) demo_manager =
  Err (CM.save_conflict (chk "c" "zz" 2) (chk "a" "" 1) "th").
Proof.
  apply (Save_no_lost_update (chk "a" "" 1) (chk "c" "zz" 2)
           (CM.NewCheckpointManager 1) demo_manager (eq_refl Lt) demo_manager_saved); done.
Defined.

Lemma PutWrites_spec_witness :
  CM.PutWrites (CM.id_config "th" "old") [demo_write] "b" 0 demo_manager =
  Err (VersionConflictError 1 2 "a" "th").
Proof.
  apply (PutWrites_spec (CM.id_config "th" "old") [demo_write] "b" 0 demo_manager (chk "a" "" 1)); done.
Defined.

Lemma Load_id_unusable_witness :
  CM.LoadByCheckpointID [("th", [chk "a" "" 1])] "fresh" "u" 0 =
  Err (Errorf "checkpoint not found: fresh").
Proof.
  apply (Load_id_unusable "th" "fresh" 0 demo_manager (CP.Clone "fresh" 0 (chk "a" "" 1))
           (CM.id_config "th" "fresh") [] "u" 0 [("th", [chk "a" "" 1])]); try done.
  - intros t d Hd. unfold demo_manager in Hd. rewrite history_set in Hd.
    destruct (decide ("th" = t)); [|by apply elem_of_nil in Hd].
    by apply list_elem_of_singleton in Hd as ->.
  - unfold go_range. simpl. by rewrite map_to_list_insert, map_to_list_empty.
Defined.

Lemma List_oldest_first_witness :
  ∃ l, CM.List_ "th" 5 (λ _, "u") 0 demo_manager2 = Some l ∧ length l = 2 ∧
       CP.State <$> last l = deepCopyMap ∘ CP.State <$> last (CM.history "th" demo_manager2).
Proof.
  eexists. split; [reflexivity|].
  destruct (List_oldest_first "th" 5 (λ _, "u") 0 demo_manager2 _ eq_refl) as (Hl & _ & H).
  split; [exact Hl|]. apply H. done.
Defined.
