(* ===== verification/Memory.v ===== *)
(** * The checkpointer interface and the in-memory saver

    [BaseCheckpointer] (checkpoint/checkpoint.go) is what the engine needs of
    a checkpointer; its laws say what every implementation promises.
    [MemorySaver] (checkpoint/memory.go) keeps every version in memory and
    satisfies them. *)

From S2P Require Export Checkpoint.

Abbreviation config := (gmap string val).
Abbreviation payload := (gmap string val).

(** A method that assigns an identifier or a time gets them as arguments. *)
Class BaseCheckpointer (S : Type) := {
  cp_get : config → S → res (option payload);
  cp_put : config → payload → string → Z → S → res S;
  cp_list : config → Z → S → res (list payload)
}.

Definition thread_of (cfg : config) : option string := as_string (map_get cfg ConfigKeyThreadID).
Definition id_of (cfg : config) : option string := as_string (map_get cfg ConfigKeyCheckpointID).

(** The configuration the engine reads and writes a thread with. *)
Definition thread_config (t : string) : config := {[ConfigKeyThreadID := VStr t]}.

(** [norm] is what storing does to a payload. *)
Class CheckpointerLaws (S : Type) `{BaseCheckpointer S} (norm : payload → payload) := {
  put_total cfg cp id now s :
    is_Some (thread_of cfg) ↔ is_ok (cp_put cfg cp id now s) = true;
  get_put cfg cp id now s s' t :
    thread_of cfg = Some t → cp_put cfg cp id now s = Ok s' →
    cp_get (thread_config t) s' = Ok (Some (norm cp));
  get_put_id cfg cp id now s s' t i cfg' :
    thread_of cfg = Some t → cp_put cfg cp id now s = Ok s' → id_of cfg = Some i →
    thread_of cfg' = Some t → id_of cfg' = Some i →
    (∀ cp', cp_get cfg' s ≠ Ok (Some cp')) → cp_get cfg' s' = Ok (Some (norm cp));
  get_put_other cfg cp id now s s' t t' cfg' :
    thread_of cfg = Some t → cp_put cfg cp id now s = Ok s' →
    thread_of cfg' = Some t' → t ≠ t' → cp_get cfg' s' = cp_get cfg' s
}.

(** ** MemorySaver *)
Record checkpointEntry : Type := {
  EID : string; EThreadID : string; ECheckpoint : payload; EMetadata : config;
  ECreatedAt : Z; EParentID : string
}.

Record CheckpointState : Type := { SCheckpoint : payload; SMetadata : config }.

Module MemorySaver.
Record t : Type := Mk {
  checkpoints : gmap string payload;
  versions : gmap string (list checkpointEntry)
}.

Definition New : t := Mk ∅ ∅.

Definition no_thread : error := Errorf "thread_id is required".

Definition thread_versions (threadID : string) (s : t) : list checkpointEntry :=
  default [] (versions s !! threadID).

Definition find_entry (id : string) (l : list checkpointEntry) : option checkpointEntry :=
  snd <$> list_find (λ e, EID e = id) l.

Definition Get (cfg : config) (s : t) : res (option payload) :=
  match thread_of cfg with
  | None => Err no_thread
  | Some threadID =>
      match id_of cfg with
      | Some checkpointID =>
          match find_entry checkpointID (thread_versions threadID s) with
          | Some entry => Ok (Some (deepCopyMap (ECheckpoint entry)))
          | None => Err (Errorf ("checkpoint not found: " +:+ checkpointID))
          end
      | None =>
          match last (thread_versions threadID s) with
          | None => Ok None
          | Some entry => Ok (Some (deepCopyMap (ECheckpoint entry)))
          end
      end
  end.

Definition Put (cfg : config) (checkpoint : payload) (uuid : string) (now : Z) (s : t) : res t :=
  match thread_of cfg with
  | None => Err no_thread
  | Some threadID =>
      let checkpointID := default uuid (id_of cfg) in
      let entry := {|
        EID := checkpointID; EThreadID := threadID; ECheckpoint := deepCopyMap checkpoint;
        EMetadata := deepCopyMap cfg; ECreatedAt := now;
        EParentID := default "" (as_string (map_get cfg "parent_checkpoint_id"))
      |} in
      Ok (Mk (<[threadID := deepCopyMap checkpoint]> (checkpoints s))
             (<[threadID := thread_versions threadID s ++ [entry]]> (versions s)))
  end.

Definition entry_val (entry : checkpointEntry) : payload :=
  {[ConfigKeyCheckpointID := VStr (EID entry); ConfigKeyThreadID := VStr (EThreadID entry);
    "metadata" := VObj (deepCopyMap (EMetadata entry));
    "created_at" := VStruct "time.Time" [("ns", TInt, VInt (ECreatedAt entry))];
    "parent_id" := VStr (EParentID entry)]}.

(** [List]: newest first. *)
Definition List_ (cfg : config) (limit : Z) (s : t) : res (list payload) :=
  match thread_of cfg with
  | None => Err no_thread
  | Some threadID =>
      let vs := thread_versions threadID s in
      let limit := if ((limit <=? 0) || (Z.of_nat (length vs) <? limit))%Z
                   then length vs else Z.to_nat limit in
      Ok (entry_val <$> take limit (reverse vs))
  end.

Definition GetState (cfg : config) (s : t) : res (option CheckpointState) :=
  let state entry := {| SCheckpoint := deepCopyMap (ECheckpoint entry);
                        SMetadata := deepCopyMap (EMetadata entry) |} in
  match thread_of cfg with
  | None => Err no_thread
  | Some threadID =>
      let vs := thread_versions threadID s in
      match id_of cfg with
      | None => Ok (state <$> last vs)
      | Some checkpointID =>
          match find_entry checkpointID vs with
          | Some entry => Ok (Some (state entry))
          | None => Err (Errorf ("checkpoint not found: " +:+ checkpointID))
          end
      end
  end.
End MemorySaver.

#[global] Instance memory_checkpointer : BaseCheckpointer MemorySaver.t := {
  cp_get := MemorySaver.Get; cp_put := MemorySaver.Put; cp_list := MemorySaver.List_
}.

(** A payload is copied once on the way in and once on the way out. *)
Definition memory_norm (cp : payload) : payload := deepCopyMap (deepCopyMap cp).

Lemma thread_versions_put cfg cp id now s s' t :
  thread_of cfg = Some t → MemorySaver.Put cfg cp id now s = Ok s' →
  ∃ entry, ECheckpoint entry = deepCopyMap cp ∧ EID entry = default id (id_of cfg) ∧
    ∀ t', MemorySaver.thread_versions t' s' =
      if decide (t = t') then MemorySaver.thread_versions t s ++ [entry]
      else MemorySaver.thread_versions t' s.
Proof.
  unfold MemorySaver.Put. intros ->. intros [= <-].
  match goal with |- context [_ ++ [?e]] => exists e end. split_and!; [done..|].
  intros t'. unfold MemorySaver.thread_versions. simpl. case_decide; by simplify_map_eq.
Qed.

Lemma thread_config_thread t : thread_of (thread_config t) = Some t.
Proof. unfold thread_of, thread_config. by rewrite map_get_singleton. Qed.

Lemma thread_config_id t : id_of (thread_config t) = None.
Proof. reflexivity. Qed.

Lemma find_entry_snoc id l e :
  MemorySaver.find_entry id (l ++ [e]) =
    match MemorySaver.find_entry id l with
    | Some x => Some x
    | None => if decide (EID e = id) then Some e else None
    end.
Proof.
  unfold MemorySaver.find_entry. destruct (list_find _ l) as [[i x]|] eqn:E; simpl.
  - by rewrite (list_find_app_l _ _ _ _ _ E).
  - rewrite list_find_app_r by done. simpl. by case_decide.
Qed.

#[global] Instance memory_laws : CheckpointerLaws MemorySaver.t memory_norm.
Proof.
  split.
  - intros cfg cp id now s. cbn. unfold MemorySaver.Put.
    by destruct (thread_of cfg); split.
  - intros cfg cp id now s s' t Ht Hp.
    destruct (thread_versions_put _ _ _ _ _ _ _ Ht Hp) as (e & He & _ & Hv).
    cbn [cp_get cp_put memory_checkpointer] in *.
    unfold MemorySaver.Get. rewrite thread_config_thread, thread_config_id.
    rewrite Hv, decide_True, last_snoc by done. by rewrite He.
  - intros cfg cp id now s s' t i cfg' Ht Hp Hi Ht' Hi' Hno.
    destruct (thread_versions_put _ _ _ _ _ _ _ Ht Hp) as (e & He & Hid & Hv).
    cbn [cp_get cp_put memory_checkpointer] in *.
    unfold MemorySaver.Get in *. rewrite Ht', Hi' in *.
    rewrite Hv, decide_True, find_entry_snoc by done.
    destruct (MemorySaver.find_entry i _) as [x|]; [by destruct (Hno (deepCopyMap (ECheckpoint x)))|].
    rewrite Hi in Hid. simpl in Hid. rewrite decide_True by done. by rewrite He.
  - intros cfg cp id now s s' t t' cfg' Ht Hp Ht' Hne.
    destruct (thread_versions_put _ _ _ _ _ _ _ Ht Hp) as (e & _ & _ & Hv).
    cbn [cp_get cp_put memory_checkpointer] in *.
    unfold MemorySaver.Get. rewrite Ht'. by rewrite Hv, decide_False.
Qed.
