(* ===== verification/RegistryProps.v ===== *)
(** * What channels and registries guarantee

    Aggregates and reducers compute folds; updates of a registry do not depend
    on the order of its map loops; a registry restored from a checkpoint
    continues where it was; and the cases where the code does less. *)

From S2P Require Export Registry Memory.

(** ** Aggregates *)

(** The value an update starts from and the updates it folds in. *)
Definition update_input (value : val) (vs : list val) : option (val * list val) :=
  match vs with
  | [] => None
  | v :: vs' => Some (if IsMissing value then (v, vs') else (value, vs))
  end.

Lemma binop_update b value op vs :
  BinaryOperatorAggregate.Update vs (BinaryOperatorAggregate.Mk b value op) =
    match update_input value vs with
    | None => (Ok false, BinaryOperatorAggregate.Mk b value op)
    | Some (start, rest) =>
        match overwrites rest with
        | [] => (Ok true, BinaryOperatorAggregate.Mk b (foldl op start rest) op)
        | [w] => (Ok true, BinaryOperatorAggregate.Mk b w op)
        | w :: _ => (Err (InvalidUpdateError
                            "Can receive only one Overwrite value per super-step."),
                     BinaryOperatorAggregate.Mk b w op)
        end
    end.
Proof.
  unfold BinaryOperatorAggregate.Update, update_input. destruct vs as [|v vs]; [done|].
  cbn [BinaryOperatorAggregate.base BinaryOperatorAggregate.value BinaryOperatorAggregate.operator].
  destruct (IsMissing value); cbv iota beta; rewrite fold_values_spec;
    by destruct (overwrites _) as [|? [|? ?]].
Qed.

(** An update of a [BinaryOperatorAggregate], on every branch: nothing without
    values; the left fold of the operator when none of them overwrites; the
    overwriting value, with everything after it ignored, when exactly one
    does; an [InvalidUpdateError] that leaves the first overwriting value when
    more do. *)
Theorem aggregate_update b value op vs :
  BinaryOperatorAggregate.Update vs (BinaryOperatorAggregate.Mk b value op) =
    match update_input value vs with
    | None => (Ok false, BinaryOperatorAggregate.Mk b value op)
    | Some (start, rest) =>
        match overwrites rest with
        | [] => (Ok true, BinaryOperatorAggregate.Mk b (foldl op start rest) op)
        | [w] => (Ok true, BinaryOperatorAggregate.Mk b w op)
        | w :: _ => (Err (InvalidUpdateError
                            "Can receive only one Overwrite value per super-step."),
                     BinaryOperatorAggregate.Mk b w op)
        end
    end.
Proof. apply binop_update. Qed.

Definition update_all (c : channel) (batches : list (list val)) : channel :=
  foldl (λ c vs, (Update vs c).2) c batches.

Definition int_counter : channel := NewBinaryOperatorAggregate (VInt 0) IntAdd.

Definition sum (zs : list Z) : Z := foldr Z.add 0%Z zs.

Lemma int_counter_update b z zs :
  Update (VInt <$> zs)
    (Leaf (LBinaryOperatorAggregate (BinaryOperatorAggregate.Mk b (VInt z) IntAdd))) =
  (Ok (bool_decide (zs ≠ [])),
   Leaf (LBinaryOperatorAggregate
           (BinaryOperatorAggregate.Mk b (VInt (foldl int_add z zs)) IntAdd))).
Proof.
  cbn. unfold ch_Update, ch_step. cbn.
  pose proof (binop_update b (VInt z) IntAdd (VInt <$> zs)) as Hu.
  cbn in Hu. rewrite Hu. unfold update_input. destruct zs as [|x zs]; [done|].
  rewrite fmap_cons. cbn [IsMissing]. rewrite <-fmap_cons, overwrites_ints.
  cbv iota. by rewrite foldl_IntAdd.
Qed.

Lemma sum_app l k : sum (l ++ k) = (sum l + sum k)%Z.
Proof. unfold sum. induction l as [|z l IH]; simpl; lia. Qed.

Lemma sum_perm l k : l ≡ₚ k → sum l = sum k.
Proof. unfold sum. induction 1; simpl; lia. Qed.

Lemma int_counter_batches batches b z :
  in_int64 z →
  (Get (update_all
          (Leaf (LBinaryOperatorAggregate (BinaryOperatorAggregate.Mk b (VInt z) IntAdd)))
          (fmap VInt <$> batches))).1 = Ok (VInt (wrap64 (z + sum (mjoin batches)))).
Proof.
  revert z. induction batches as [|zs batches IH]; intros z Hz.
  - cbn. by rewrite Z.add_0_r, wrap64_id.
  - rewrite fmap_cons. cbn [update_all foldl]. rewrite int_counter_update. cbn [snd].
    rewrite foldl_int_add by done.
    change (foldl (λ c vs, (Update vs c).2) ?c ?l) with (update_all c l).
    rewrite IH by apply wrap64_range.
    change (mjoin (zs :: batches)) with (zs ++ mjoin batches). rewrite sum_app.
    do 2 f_equal. fold (sum zs). rewrite wrap64_add_l. f_equal. lia.
Qed.

(** An integer counter holds the sum of everything it received, modulo 2^64:
    neither the order of the values nor their grouping into steps matters. *)
Theorem int_counter_sum batches batches' :
  (Get (update_all int_counter (fmap VInt <$> batches))).1 = Ok (VInt (wrap64 (sum (mjoin batches)))) ∧
  (mjoin batches ≡ₚ mjoin batches' →
   (Get (update_all int_counter (fmap VInt <$> batches'))).1 =
   (Get (update_all int_counter (fmap VInt <$> batches))).1).
Proof.
  assert (∀ bs, (Get (update_all int_counter (fmap VInt <$> bs))).1 =
                Ok (VInt (wrap64 (sum (mjoin bs))))) as H.
  { intros bs. apply (int_counter_batches bs (BaseChannel.New (VInt 0)) 0).
    unfold in_int64, int_bound. lia. }
  split; [apply H|]. intros Hp. rewrite !H. do 3 f_equal. by apply sum_perm.
Qed.

(** The counters [CreateReducerChannel] makes for fixed-width integer fields
    never move: their operator adds [int]s and [float64]s only and keeps the
    left operand otherwise. *)
Theorem fixed_width_counter_stuck name k batches :
  Forall (λ vs, overwrites vs = []) batches →
  (Get (update_all (CreateReducerChannel name (TNum k) None) batches)).1 = Ok (VNum k 0).
Proof.
  assert (∀ b batches, Forall (λ vs, overwrites vs = []) batches →
    (Get (update_all (Leaf (LBinaryOperatorAggregate
       (BinaryOperatorAggregate.Mk b (VNum k 0) IntAdd))) batches)).1 = Ok (VNum k 0)) as H.
  { intros b bs Hbs. induction Hbs as [|vs bs Hvs _ IH]; [done|].
    cbn [update_all foldl]. unfold Update at 1. cbn. unfold ch_Update, ch_step. cbn.
    rewrite binop_update. destruct vs as [|v vs]; [exact IH|].
    unfold update_input. cbn [IsMissing]. rewrite Hvs. cbn [snd].
    assert (foldl IntAdd (VNum k 0) (v :: vs) = VNum k 0) as ->; [|exact IH].
    generalize (v :: vs). intros l. induction l; [done|]. exact IHl. }
  intros Hb. by apply H.
Qed.

(** A slice field without a reducer starts from the field's type descriptor
    instead of an empty slice, so the first update does not append to an empty
    list but pairs its first value with the descriptor. *)
Theorem slice_field_starts_with_descriptor name e v vs :
  overwrites (v :: vs) = [] →
  ∃ d l, typeof d = Some (TStruct "reflect.rtype" []) ∧
    (Get (Update (v :: vs) (CreateReducerChannel name (TSlice e) None)).2).1 =
      Ok (VList (d :: v :: l)).
Proof.
  intros Hv. exists (VStruct "reflect.rtype" []).
  assert (∀ l ws, ∃ l', foldl ListAppend (VList l) ws = VList (l ++ l')) as Hfold.
  { intros l ws. revert l. induction ws as [|w ws IH]; intros l.
    - exists []. by rewrite app_nil_r.
    - cbn [foldl]. unfold ListAppend at 2. cbn [as_list]. destruct (as_list w) as [bl|].
      + destruct (IH (l ++ bl)) as [l' ->]. exists (bl ++ l'). by rewrite app_assoc.
      + destruct (IH (l ++ [w])) as [l' ->]. exists (w :: l'). by rewrite <-app_assoc. }
  destruct (Hfold [VStruct "reflect.rtype" []; v] vs) as [l' Hl'].
  exists l'. split; [done|].
  unfold CreateReducerChannel. cbn -[BinaryOperatorAggregate.Update].
  unfold ch_Update, ch_step. cbn -[BinaryOperatorAggregate.Update].
  rewrite binop_update. unfold update_input. cbn -[overwrites foldl].
  rewrite Hv. cbn -[foldl]. cbn [foldl]. unfold ListAppend at 2. cbn [as_list].
  by rewrite Hl'.
Qed.

(** ** Reducers *)

(** A [ReducerChannel] over a [LastValue] stores the left fold of its reducer
    over the current value and all new values, whatever their number; the
    wrapped channel alone would reject two. *)
Theorem reducer_over_last_value b value r v vs :
  let c := NewReducerChannel (Leaf (LLastValue (LastValue.Mk b value))) r in
  let combined := if IsMissing value then foldl r v vs else foldl r value (v :: vs) in
  Update (v :: vs) c =
    (Ok true, NewReducerChannel (Leaf (LLastValue (LastValue.Mk b combined))) r) ∧
  is_ok (Update (v :: vs) (Leaf (LLastValue (LastValue.Mk b value)))).1 = bool_decide (vs = []).
Proof.
  cbn. unfold ch_Update, ch_step. cbn. unfold LastValue.Get. cbn. split.
  - by destruct (IsMissing value).
  - by destruct vs.
Qed.

(** ** Updates of a registry *)

(** The order in which [UpdateChannels] ranges over the writes does not matter
    when all of them are accepted: every order then succeeds with the same
    registry, in which exactly the written channels are updated. *)
Theorem UpdateChannels_order ws ord ord' r r' :
  go_range ws ord → go_range ws ord' → Reg.UpdateChannels ord r = (None, r') →
  Reg.UpdateChannels ord' r = (None, r') ∧
  ∀ k, r' !! k = match ws !! k with
                 | Some vs => (λ c, (Update vs c).2) <$> r !! k
                 | None => r !! k
                 end.
Proof.
  intros Hord Hord' Hu.
  pose proof (go_range_NoDup _ _ Hord) as Hnd. pose proof (go_range_NoDup _ _ Hord') as Hnd'.
  assert ((Reg.UpdateChannels ord' r).1 = None) as Hok.
  { apply (UpdateChannels_ok ord' r Hnd').
    assert (ord' ≡ₚ ord) as -> by (unfold go_range in *; by rewrite Hord, Hord').
    apply (UpdateChannels_ok ord r Hnd). by rewrite Hu. }
  destruct (Reg.UpdateChannels ord' r) as [o r''] eqn:Hu'. simpl in Hok. subst o.
  assert (∀ k, r' !! k = match ws !! k with
                         | Some vs => (λ c, (Update vs c).2) <$> r !! k
                         | None => r !! k end) as Hk.
  { intros k. rewrite (UpdateChannels_lookup _ _ _ k Hnd Hu).
    by rewrite (go_range_list_to_map _ _ Hord). }
  split; [|done]. f_equal. apply map_eq. intros k.
  rewrite Hk, (UpdateChannels_lookup _ _ _ k Hnd' Hu'). by rewrite (go_range_list_to_map _ _ Hord').
Qed.

(** Only an [EphemeralValue] changes when it is read. *)
Lemma read_stable c : (∀ e, ch_leaf c ≠ LEphemeralValue e) → after_read c = c.
Proof.
  intros Hne. destruct c as [l rs]. unfold after_read. cbn. rewrite ch_step_eq. cbn. f_equal.
  destruct l as [c|c|c|c|c|c|c|c|c]; cbn;
    try (pose proof (get_err c) as He);
    try (by unfold LastValue.Get, AnyValue.Get, UntrackedValue.Get, Topic.Get,
           NamedBarrierValue.Get, NamedBarrierValueAfterFinish.Get, LastValueAfterFinish.Get,
           BinaryOperatorAggregate.Get; repeat case_match; simplify_eq).
  by destruct (Hne c).
Qed.

(** [GetValues] never fails and returns exactly the values of the channels
    that have one; reading leaves every channel as it was, except for
    [EphemeralValue]s, which it empties. *)
Theorem GetValues_spec r ord :
  go_range r ord →
  ∃ vs r', Reg.GetValues ord ∅ r = (Ok vs, r') ∧
    vs = omap read_value r ∧ r' = after_read <$> r ∧
    ∀ k c, r !! k = Some c →
      (∀ e, ch_leaf c ≠ LEphemeralValue e) → r' !! k = Some c.
Proof.
  intros Hord. pose proof (go_range_NoDup _ _ Hord) as Hnd.
  destruct (GetValues_lookup ord ∅ r Hnd) as (vs & r' & Heq & Hk).
  rewrite (go_range_list_to_map _ _ Hord) in Hk.
  exists vs, r'. split; [done|]. assert (r' = after_read <$> r) as Hr'.
  { apply map_eq. intros k. destruct (Hk k) as [_ ->]. rewrite lookup_fmap. by destruct (r !! k). }
  split_and!.
  - apply map_eq. intros k. destruct (Hk k) as [-> _]. rewrite lookup_omap, lookup_empty.
    by destruct (r !! k ≫= read_value).
  - done.
  - intros k c Hc Hne. rewrite Hr', lookup_fmap, Hc. simpl. f_equal. by apply read_stable.
Qed.

(** ** Checkpoints *)

(** The operations the engine performs on a channel of a running graph. *)
Inductive channel_op : channel → channel → Prop :=
| co_get c : channel_op c (Get c).2
| co_update vs c : channel_op c (Update vs c).2
| co_consume c : channel_op c (Consume c).2
| co_finish c : channel_op c (Finish c).2
| co_version v c : channel_op c (SetVersion v c).

Lemma channel_ops_config c c' cp : rtc channel_op c c' → FromCheckpoint cp c' = FromCheckpoint cp c.
Proof.
  induction 1 as [|c1 c2 c3 Hop _ IH]; [done|]. rewrite IH. destruct Hop.
  - apply get_config.
  - apply update_config.
  - apply consume_config.
  - apply finish_config.
  - apply restore_blind.
Qed.

Lemma channel_op_update vs c c' : (Update vs c).2 = c' → rtc channel_op c c'.
Proof. intros <-. apply rtc_once. constructor. Qed.

(** A channel as it is before anything was written to it. *)
Definition blank (c : channel) : Prop := c ≃ FromCheckpoint Missing c.

(** Resuming from a checkpoint: take a registry of blank channels, run any
    operations on its channels, checkpoint it and restore the checkpoint into
    the blank registry.  Restoring succeeds, and every channel whose kind
    persists is back in the state it was in, up to its version counter. *)
Theorem checkpoint_resume r0 r ord ordc :
  (∀ k, match r0 !! k, r !! k with
        | Some c0, Some c => blank c0 ∧ rtc channel_op c0 c
        | None, None => True
        | _, _ => False
        end) →
  go_range r ord → go_range (Reg.CreateCheckpoint ord ∅) ordc →
  ∃ r', Reg.RestoreFromCheckpoint ordc r0 = (None, r') ∧
    ∀ k c, r !! k = Some c → persistable c → ∃ c', r' !! k = Some c' ∧ c' ≃ c.
Proof.
  intros Hr Hord Hordc. rewrite (CreateCheckpoint_spec _ _ Hord) in Hordc.
  assert ((Reg.RestoreFromCheckpoint ordc r0).1 = None) as Hok.
  { apply Restore_ok. intros k ([k' cp] & -> & Hin)%list_elem_of_fmap.
    apply (go_range_elem _ _ k' cp Hordc) in Hin. rewrite lookup_omap in Hin. simpl.
    specialize (Hr k'). destruct (r !! k'); [|done]. by destruct (r0 !! k'). }
  destruct (Reg.RestoreFromCheckpoint ordc r0) as [o r'] eqn:Hres. simpl in Hok. subst o.
  exists r'. split; [done|]. intros k c Hc Hp.
  rewrite (Restore_lookup _ _ _ k (go_range_NoDup _ _ Hordc) Hres).
  rewrite (go_range_list_to_map _ _ Hordc), lookup_omap, Hc. simpl.
  specialize (Hr k). rewrite Hc in Hr. destruct (r0 !! k) as [c0|]; [|done].
  destruct Hr as [Hblank Hops].
  pose proof (restore_checkpoint c Hp) as Hrest.
  rewrite (channel_ops_config c0 c _ Hops) in Hrest.
  unfold live_checkpoint. destruct (IsMissing (Checkpoint c)) eqn:E; simpl.
  - exists c0. split; [done|]. apply IsMissing_true in E. rewrite E in Hrest.
    etrans; [exact Hblank|exact Hrest].
  - eexists. by split.
Qed.

(** A counter that goes through the in-memory saver stops counting: its value
    comes back as a float, and adding integers to a float leaves it. *)
Theorem counter_frozen_by_memory b z (batches : list (list Z)) :
  let saved := deepCopy (deepCopy
    (Checkpoint (Leaf (LBinaryOperatorAggregate (BinaryOperatorAggregate.Mk b (VInt z) IntAdd))))) in
  let restored := FromCheckpoint saved int_counter in
  is_finite (float_of_int z) = true →
  (Get (update_all restored (fmap (M := list) VInt <$> batches))).1 = Ok (VFloat (float_of_int z)).
Proof.
  intros saved restored Hf.
  assert (saved = VFloat (float_of_int z)) as Hsaved by (unfold saved; cbn; by rewrite Hf).
  assert (∀ b' f bs, (Get (update_all (Leaf (LBinaryOperatorAggregate
            (BinaryOperatorAggregate.Mk b' (VFloat f) IntAdd))) (fmap (M := list) VInt <$> bs))).1 = Ok (VFloat f))
    as Hstuck.
  { intros b' f bs. revert b'. induction bs as [|zs bs IH]; intros b'; [done|].
    rewrite fmap_cons. cbn [update_all foldl]. unfold Update at 1. cbn. unfold ch_Update, ch_step. cbn.
    rewrite binop_update. unfold update_input. destruct zs as [|x zs]; [apply IH|].
    rewrite fmap_cons. cbn [IsMissing]. rewrite <-fmap_cons, overwrites_ints. cbn [snd].
    assert (∀ l, foldl IntAdd (VFloat f) (VInt <$> l) = VFloat f) as ->
      by (intros l; by induction l). apply IH. }
  unfold restored. rewrite Hsaved. apply Hstuck.
Qed.

(** ** Witnesses *)
Lemma int_counter_sum_witness :
  (Get (update_all int_counter [[VInt 3; VInt 1]; [VInt 2]])).1 =
  (Get (update_all int_counter [[VInt 1]; [VInt 2; VInt 3]])).1.
Proof.
  apply (int_counter_sum [[1]; [2; 3]]%Z [[3; 1]; [2]]%Z).
  exact (Permutation_app_comm [1; 2]%Z [3]%Z).
Defined.

Lemma fixed_width_counter_stuck_witness :
  (Get (update_all (CreateReducerChannel "n" (TNum Int64) None) [[VNum Int64 5]; [VInt 1]])).1 =
  Ok (VNum Int64 0).
Proof. apply (fixed_width_counter_stuck "n" Int64). repeat constructor. Defined.

Lemma slice_field_starts_with_descriptor_witness :
  ∃ d l, typeof d = Some (TStruct "reflect.rtype" []) ∧
    (Get (Update [VStr "x"] (CreateReducerChannel "items" (TSlice TString) None)).2).1 =
      Ok (VList (d :: VStr "x" :: l)).
Proof. apply (slice_field_starts_with_descriptor "items" TString (VStr "x") []). reflexivity. Defined.

Definition demo_registry : registry :=
  <["a" := SetKey "a" (NewLastValue VNil)]> {["b" := SetKey "b" int_counter]}.

Definition demo_writes : gmap string (list val) := <["a" := [VStr "x"]]> {["b" := [VInt 2; VInt 3]]}.

Lemma demo_writes_range : go_range demo_writes [("a", [VStr "x"]); ("b", [VInt 2; VInt 3])].
Proof.
  unfold go_range, demo_writes. rewrite map_to_list_insert by done.
  by rewrite map_to_list_singleton.
Qed.

Definition demo_updated : registry :=
  <["b" := (Update [VInt 2; VInt 3] (SetKey "b" int_counter)).2]>
    (<["a" := (Update [VStr "x"] (SetKey "a" (NewLastValue VNil))).2]> demo_registry).

Lemma UpdateChannels_order_witness :
  Reg.UpdateChannels [("b", [VInt 2; VInt 3]); ("a", [VStr "x"])] demo_registry =
  (None, demo_updated).
Proof.
  apply (UpdateChannels_order demo_writes [("a", [VStr "x"]); ("b", [VInt 2; VInt 3])]
           [("b", [VInt 2; VInt 3]); ("a", [VStr "x"])] demo_registry demo_updated);
    [exact demo_writes_range| |reflexivity].
  unfold go_range. rewrite <-demo_writes_range. constructor.
Defined.

Lemma GetValues_spec_witness :
  ∃ vs r', Reg.GetValues (map_to_list demo_updated) ∅ demo_updated = (Ok vs, r') ∧
           vs = omap read_value demo_updated.
Proof.
  destruct (GetValues_spec demo_updated (map_to_list demo_updated) (go_range_canonical _))
    as (vs & r' & H & Hv & _). by exists vs, r'.
Defined.

Lemma checkpoint_resume_witness :
  ∃ r', Reg.RestoreFromCheckpoint
          (map_to_list (Reg.CreateCheckpoint (map_to_list demo_updated) ∅)) demo_registry = (None, r') ∧
    ∀ k c, demo_updated !! k = Some c → persistable c → ∃ c', r' !! k = Some c' ∧ c' ≃ c.
Proof.
  apply (checkpoint_resume demo_registry demo_updated (map_to_list demo_updated));
    [|apply go_range_canonical|apply go_range_canonical].
  intros k. unfold demo_updated, demo_registry.
  destruct (decide (k = "a")) as [->|]; [|destruct (decide (k = "b")) as [->|]].
  - rewrite (lookup_insert_ne _ "b"), !lookup_insert_eq by done.
    split; [reflexivity|]. apply rtc_once. constructor.
  - rewrite (lookup_insert_ne _ "a"), lookup_insert_eq, lookup_singleton_eq by done.
    split; [reflexivity|]. apply rtc_once. constructor.
  - by rewrite !lookup_insert_ne, lookup_singleton_ne by done.
Defined.

Lemma counter_frozen_by_memory_witness :
  (Get (update_all (FromCheckpoint (VFloat (float_of_int 5)) int_counter) [[VInt 1]; [VInt 2]])).1 =
  Ok (VFloat (float_of_int 5)).
Proof.
  exact (counter_frozen_by_memory (BaseChannel.New (VInt 0)) 5 [[1]; [2]]%Z eq_refl).
Defined.
