(* ===== verification/Interrupt.v ===== *)
(** * Interrupts

    [interrupt/interrupt.go]: a node calls [Interrupt] to ask its client for a
    value; on resume the recorded values are handed out in order.  The state
    is the interrupt context of the request, if its Go context carries one,
    the global fallback context, and the process-wide counter. *)

From Stdlib Require Import Ascii.
From S2P Require Export Types.

(** The first eight bytes of a SHA-256 sum, in hexadecimal. *)
Class Sha256 := { hash8 : string → string }.
Class Sha256Laws `{Sha256} := { hash8_hex s : str_mem "_"%char (hash8 s) = false }.

Record interruptContext : Type := MkIC {
  resumeValues : list val;
  index : nat;
  nullResume : val
}.

Module IC.
Definition New : interruptContext := MkIC [] 0 VNil.

(** The methods of the context, each under its lock. *)
Definition consumeNextResumeValue (ic : interruptContext) : option val * interruptContext :=
  match resumeValues ic !! index ic with
  | Some v => (Some v, MkIC (resumeValues ic) (S (index ic)) (nullResume ic))
  | None => (None, ic)
  end.
Definition appendResumeValue (v : val) (ic : interruptContext) : interruptContext :=
  MkIC (resumeValues ic ++ [v]) (index ic) (nullResume ic).
Definition setNullResume (v : val) (ic : interruptContext) : interruptContext :=
  MkIC (resumeValues ic) (index ic) v.
Definition setResumeValues (vs : list val) (ic : interruptContext) : interruptContext :=
  MkIC vs (index ic) (nullResume ic).
Definition reset (ic : interruptContext) : interruptContext := New.
End IC.

(** What a call can reach. *)
Record istate : Type := MkIS {
  own : option interruptContext;
  globalContext : interruptContext;
  interruptIDCounter : Z
}.

(** The context a call works on: the request's own one, else the global one. *)
Definition current (s : istate) : interruptContext := default (globalContext s) (own s).

Definition set_current (ic : interruptContext) (s : istate) : istate :=
  match own s with
  | Some _ => MkIS (Some ic) (globalContext s) (interruptIDCounter s)
  | None => MkIS None ic (interruptIDCounter s)
  end.

Definition WithInterruptContext (s : istate) : istate :=
  MkIS (Some IC.New) (globalContext s) (interruptIDCounter s).
Definition IsInterruptContext (s : istate) : bool := bool_decide (is_Some (own s)).
Definition GetResumeValues (s : istate) : list val := resumeValues (current s).
Definition GetInterruptIndex (s : istate) : nat := index (current s).
Definition AppendResumeValue (v : val) (s : istate) : istate :=
  set_current (IC.appendResumeValue v (current s)) s.
Definition GetNullResume (consume : bool) (s : istate) : val * istate :=
  let v := nullResume (current s) in
  (v, if consume then set_current (IC.setNullResume VNil (current s)) s else s).
Definition Reset (s : istate) : istate := set_current (IC.reset (current s)) s.
Definition SetResumeValues (vs : list val) (s : istate) : istate :=
  set_current (IC.setResumeValues vs (current s)) s.

Section interrupt.
Context `{Sha256} `{GoRuntime}.

Definition generateInterruptID (value : val) (s : istate) : string * istate :=
  let n := int_add (interruptIDCounter s) 1 in
  (hash8 (fmt_v value) +:+ "_" +:+ pretty n, MkIS (own s) (globalContext s) n).

(** [Interrupt(ctx, value)] without another call in between its steps. *)
Definition Interrupt (value : val) (s : istate) : res val * istate :=
  let '(o, ic) := IC.consumeNextResumeValue (current s) in
  match o with
  | Some v => (Ok v, set_current ic s)
  | None =>
      let v := nullResume (current s) in
      if negb (is_nil v) then
        let ic := IC.setNullResume VNil (current s) in
        (Ok v, set_current (IC.appendResumeValue v ic) s)
      else
        let '(id, s') := generateInterruptID value s in
        (Err (GraphInterrupt [NewInterrupt value id]), s')
  end.

Definition IsInterrupt (e : error) : bool := IsGraphInterrupt e.

Definition GetInterruptValue (e : error) : option val :=
  match e with
  | GraphInterrupt (i :: _) => match as_interrupt i with Some v => Some v | None => Some i end
  | _ => None
  end.

(** A node body that asks for [questions] in turn and stops at the first
    interrupt: the answers it got and how it ended. *)
Fixpoint ask (questions : list val) (s : istate) : list val * option error * istate :=
  match questions with
  | [] => ([], None, s)
  | q :: qs =>
      match Interrupt q s with
      | (Err e, s') => ([], Some e, s')
      | (Ok v, s') => let '(vs, e, s'') := ask qs s' in (v :: vs, e, s'')
      end
  end.

(** ** Concurrent calls

    [Interrupt] takes the context's lock three or four times; a call of another
    goroutine can come in between.  [pc] is where a call is. *)
Inductive pc :=
| Start_
| AfterConsume
| GotNull (v : val)
| ClearedNull (v : val)
| Finished (r : option val).

Definition thread_step (p : pc) (ic : interruptContext) : pc * interruptContext :=
  match p with
  | Start_ =>
      let '(o, ic') := IC.consumeNextResumeValue ic in
      match o with Some v => (Finished (Some v), ic') | None => (AfterConsume, ic') end
  | AfterConsume =>
      let v := nullResume ic in
      if negb (is_nil v) then (GotNull v, ic) else (Finished None, ic)
  | GotNull v => (ClearedNull v, IC.setNullResume VNil ic)
  | ClearedNull v => (Finished (Some v), IC.appendResumeValue v ic)
  | Finished _ => (p, ic)
  end.

(** Two calls [p] and [q] under a schedule: [true] steps the first one. *)
Fixpoint interleave (sched : list bool) (p q : pc) (ic : interruptContext)
  : pc * pc * interruptContext :=
  match sched with
  | [] => (p, q, ic)
  | true :: sched' => let '(p', ic') := thread_step p ic in interleave sched' p' q ic'
  | false :: sched' => let '(q', ic') := thread_step q ic in interleave sched' p q' ic'
  end.

Lemma current_set ic s : current (set_current ic s) = ic.
Proof. unfold current, set_current. by destruct (own s). Qed.

Lemma current_counter s n : current (MkIS (own s) (globalContext s) n) = current s.
Proof. done. Qed.

(** The sequential call is the concurrent one run alone. *)
Lemma Interrupt_alone value s :
  let '(p, _, ic) := interleave [true; true; true; true] Start_ Start_ (current s) in
  p = Finished (match (Interrupt value s).1 with Ok v => Some v | Err _ => None end) ∧
  current (Interrupt value s).2 = ic.
Proof.
  unfold Interrupt, IC.consumeNextResumeValue. cbn.
  unfold IC.consumeNextResumeValue.
  destruct (resumeValues (current s) !! index (current s)) as [v|] eqn:E; cbn.
  - by rewrite current_set.
  - destruct (is_nil (nullResume (current s))) eqn:En; cbn; [done|]. by rewrite current_set.
Qed.

(** Nothing waits to be handed out: an interrupt is raised. *)
Definition no_answer (s : istate) : Prop :=
  resumeValues (current s) !! index (current s) = None ∧ nullResume (current s) = VNil.

Lemma interrupt_raised v s : no_answer s →
  ∃ id s', Interrupt v s = (Err (GraphInterrupt [NewInterrupt v id]), s').
Proof.
  intros [Hr Hn]. unfold Interrupt, IC.consumeNextResumeValue. rewrite Hr, Hn. cbn [is_nil negb].
  destruct (generateInterruptID v s) as [id s']. by exists id, s'.
Qed.

Lemma ask_answers questions s :
  is_nil (nullResume (current s)) = true →
  let answers := drop (index (current s)) (resumeValues (current s)) in
  let '(vs, e, _) := ask questions s in
  vs = take (length questions) answers ∧
  match drop (length answers) questions with
  | [] => e = None
  | q :: _ => ∃ id, e = Some (GraphInterrupt [NewInterrupt q id])
  end.
Proof.
  revert s. induction questions as [|q qs IH]; intros s Hn answers; [by rewrite drop_nil|].
  cbn [ask]. unfold Interrupt, IC.consumeNextResumeValue.
  destruct (resumeValues (current s) !! index (current s)) as [v|] eqn:E.
  - set (ic := MkIC (resumeValues (current s)) (S (index (current s))) (nullResume (current s))).
    specialize (IH (set_current ic s)). rewrite current_set in IH. specialize (IH Hn).
    cbn [resumeValues index ic] in IH. destruct (ask qs (set_current ic s)) as [[vs e] s'].
    destruct IH as [-> He]. unfold answers. rewrite (drop_S _ _ _ E). split; [done|]. exact He.
  - rewrite Hn. cbn. apply lookup_ge_None in E.
    assert (answers = []) as -> by (by apply drop_ge). split; [done|]. simpl. by eexists.
Qed.
End interrupt.

(** ** Properties *)

(** Resume values are matched to interrupts by position: a node that is run
    again with [n] recorded answers gets them in order from its first [n]
    interrupts, and is interrupted, with its question as the value, at the
    next one. *)
Theorem interrupt_replay `{Sha256} `{GoRuntime} questions answers s :
  let s := SetResumeValues answers (Reset s) in
  let '(vs, e, _) := ask questions s in
  vs = take (length questions) answers ∧
  (length questions ≤ length answers → e = None) ∧
  (length answers < length questions →
   ∃ q i, questions !! length answers = Some q ∧ e = Some i ∧
          IsInterrupt i = true ∧ GetInterruptValue i = Some q).
Proof.
  intros s'. assert (current s' = MkIC answers 0 VNil) as Hc.
  { unfold s', SetResumeValues, Reset. by rewrite current_set, current_set. }
  pose proof (ask_answers questions s') as Ha. rewrite Hc in Ha. specialize (Ha eq_refl).
  cbn [resumeValues index] in Ha. rewrite drop_0 in Ha.
  destruct (ask questions s') as [[vs e] s'']. destruct Ha as [-> He]. split; [done|]. split.
  - intros Hle. by rewrite drop_ge in He.
  - intros Hlt. destruct (drop (length answers) questions) as [|q qs] eqn:E.
    + apply (f_equal length) in E. rewrite length_drop in E. simpl in E. lia.
    + destruct He as [id ->]. exists q. eexists. split_and!; [|done|done|done].
      pose proof (lookup_drop questions (length answers) 0) as Hl. rewrite E, Nat.add_0_r in Hl.
      by rewrite <-Hl.
Qed.

(** A null resume value answers two interrupts: it is recorded without
    advancing the index, so the next call finds it again as its own answer. *)
Theorem null_resume_answers_twice `{Sha256} `{GoRuntime} q1 q2 v s :
  nullResume (current s) = v → is_nil v = false →
  index (current s) = length (resumeValues (current s)) →
  let '(r1, s1) := Interrupt q1 s in
  let '(r2, s2) := Interrupt q2 s1 in
  r1 = Ok v ∧ r2 = Ok v ∧ index (current s2) = length (resumeValues (current s2)).
Proof.
  intros Hv Hn Hi. unfold Interrupt at 1, IC.consumeNextResumeValue.
  rewrite Hi, lookup_ge_None_2, Hv, Hn by done. cbn [negb].
  unfold Interrupt, IC.consumeNextResumeValue. rewrite !current_set.
  cbn [IC.appendResumeValue IC.setNullResume resumeValues index nullResume].
  rewrite Hi, lookup_app_r, Nat.sub_diag by done. cbn. rewrite current_set. cbn.
  split_and!; [done..|]. rewrite length_app. simpl. lia.
Qed.

(** Identifiers of interrupts differ as long as the counter does not wrap
    around, even for equal values. *)
Theorem interrupt_ids_differ `{Sha256Laws} `{GoRuntime} v v' s s' :
  interruptIDCounter s ≠ interruptIDCounter s' →
  in_int64 (interruptIDCounter s + 1) → in_int64 (interruptIDCounter s' + 1) →
  (generateInterruptID v s).1 ≠ (generateInterruptID v' s').1.
Proof.
  intros Hne Hs Hs'. cbn. unfold int_add. rewrite !wrap64_id by done. intros E.
  apply (f_equal (split_on "_"%char)) in E.
  change ("_" +:+ ?x) with (String "_"%char x) in E.
  rewrite !split_on_app_sep in E by apply hash8_hex. injection E as _ E.
  apply (f_equal (join_with (String "_"%char ""))) in E. rewrite !join_split in E.
  apply (inj pretty) in E. lia.
Qed.

(** Two concurrent calls can both take the same null resume value: the value
    is read and cleared under separate locks. *)
Theorem null_resume_race v rs :
  is_nil v = false →
  ∃ sched, (interleave sched Start_ Start_ (MkIC rs (length rs) v)).1 =
           (Finished (Some v), Finished (Some v)).
Proof.
  intros Hv. exists [true; false; true; false; true; false; true; false].
  cbn. unfold IC.consumeNextResumeValue. cbn. rewrite !lookup_ge_None_2 by done. cbn.
  by repeat (rewrite Hv; cbn).
Qed.

(** ** Witnesses *)
Definition hex_hash : Sha256 := {| hash8 _ := "e3b0c44298fc1c14" |}.
Lemma hex_hash_laws : @Sha256Laws hex_hash.
Proof. by split. Qed.

Definition demo_istate : istate := MkIS (Some IC.New) IC.New 41.

Lemma null_resume_answers_twice_witness :
  let s := MkIS (Some (MkIC [] 0 (VStr "yes"))) IC.New 0 in
  let '(r1, s1) := Interrupt (H := hex_hash) (H0 := fixed_addresses) (VStr "a?") s in
  let '(r2, s2) := Interrupt (H := hex_hash) (H0 := fixed_addresses) (VStr "b?") s1 in
  r1 = Ok (VStr "yes") ∧ r2 = Ok (VStr "yes") ∧
  index (current s2) = length (resumeValues (current s2)).
Proof.
  apply (null_resume_answers_twice (H := hex_hash) (H0 := fixed_addresses)
           (VStr "a?") (VStr "b?") (VStr "yes")); reflexivity.
Defined.

Lemma interrupt_ids_differ_witness :
  (generateInterruptID (H := hex_hash) (H0 := fixed_addresses) (VStr "q") demo_istate).1 ≠
  (generateInterruptID (H := hex_hash) (H0 := fixed_addresses) (VStr "q")
     (MkIS None IC.New 42)).1.
Proof.
  apply (interrupt_ids_differ (H := hex_hash) (H0 := hex_hash_laws) (H1 := fixed_addresses));
    [done|split; vm_compute; congruence..].
Defined.

Lemma null_resume_race_witness :
  ∃ sched, (interleave sched Start_ Start_ (MkIC [] 0 (VInt 1))).1 =
           (Finished (Some (VInt 1)), Finished (Some (VInt 1))).
Proof. by apply (null_resume_race (VInt 1) []). Defined.
