(* ===== verification/Routing.v ===== *)
(** * Deciding what runs next

    The part of pregel/engine.go that turns the graph, the completed nodes and
    the last state into the tasks of the next superstep: [getNextNodes] (edges,
    conditional edges, the [_next] fallback, branches), [prepareNextTasks] in
    both trigger modes, and the two interrupt tests.  A loop over a Go map
    takes its order as an argument. *)

From Stdlib Require Import Ascii.
From S2P Require Export Graph.

(** ** Tasks and their results *)
Record Task : Type := MkTask {
  TID : string;
  TName : string;
  Func : option NodeFunc;
  TChannels : list string;
  TPath : list string;
  TTriggers : gset string;
  TRetryPolicy : option RetryPolicy
}.

Record TaskResult : Type := MkResult { RName : string; ROutput : val; RErr : option error }.

(** Task paths. *)
Definition TaskPathStr (path : list string) : string :=
  match path with [] => "" | _ => join_with "/" path end.

Definition ParseTaskPath (pathStr : string) : list string :=
  if decide (pathStr = "") then [] else split_on "/"%char pathStr.

Section paths.
Context `{R : GoRuntime}.

(** One component of [BuildTaskPath]; a nil [[]string] has no elements.  The
    values of the model implement no [String] method. *)
Definition path_component (comp : val) : list string :=
  match comp with
  | VStr s => [s]
  | VInt z => [pretty z]
  | VSlice TString l => omap as_string l
  | VTypedNil (TSlice TString) => []
  | v => [fmt_v v]
  end.

Definition BuildTaskPath (components : list val) : list string :=
  foldl (λ path comp, path ++ path_component comp) [] components.
End paths.

(** ** Routing after a node

    A loop that may leave the whole function early. *)
Inductive flow (R A : Type) : Type :=
| Returned (r : R)
| Continue (a : A).
Arguments Returned {R A} r.
Arguments Continue {R A} a.

Section routing.
Context `{R : GoRuntime}.

(** (1) The conditional edges of the node.  An error of the condition is only
    logged; an edge to [End] ends the function with what was collected. *)
Fixpoint conditional_targets (ctx : context) (node : string) (state : val)
    (ces : list ConditionalEdge) (hasConditional : bool) (nextNodes : gset string)
  : flow (gset string) (bool * gset string) :=
  match ces with
  | [] => Continue (hasConditional, nextNodes)
  | ce :: ces' =>
      if decide (CFrom ce = node) then
        let conditionKey := fmt_v (Condition ce ctx state).1 in
        match Mapping ce !! conditionKey with
        | None => conditional_targets ctx node state ces' true nextNodes
        | Some targetNode =>
            if decide (targetNode = End_) then Returned nextNodes
            else conditional_targets ctx node state ces' true ({[targetNode]} ∪ nextNodes)
        end
      else conditional_targets ctx node state ces' hasConditional nextNodes
  end.

(** (2) The regular edges of the node. *)
Fixpoint edge_targets (node : string) (es : list Edge) (nextNodes : gset string)
  : flow (gset string) (gset string) :=
  match es with
  | [] => Continue nextNodes
  | e :: es' =>
      if decide (From e = node) then
        if decide (To e = End_) then Returned nextNodes
        else edge_targets node es' ({[To e]} ∪ nextNodes)
      else edge_targets node es' nextNodes
  end.

(** (3) The target a state names under [_next]. *)
Definition next_hint (g : stateGraph) (state : val) : option string :=
  match as_map state with
  | None => None
  | Some st =>
      let known s := if SG.has_node s g then Some s else None in
      match map_get st "_next" with
      | VStr s => known s
      | v => match as_list v with
             | Some (VStr s :: _) => known s
             | _ => None
             end
      end
  end.

(** (4) The targets of the node's branches. *)
Definition branch_targets (ctx : context) (node : string) (state : val) (bs : list Branch)
    (nextNodes : gset string) : gset string :=
  foldl (λ nextNodes b,
           if decide (BFrom b = node) then
             let '(branchResult, err) := BCondition b ctx state in
             match err with
             | Some _ => nextNodes
             | None => foldl (λ nextNodes target,
                                if decide (target = End_) then nextNodes
                                else {[target]} ∪ nextNodes) nextNodes (Then b branchResult)
             end
           else nextNodes) nextNodes bs.

Definition getNextNodes (g : stateGraph) (ctx : context) (node : string) (state : val)
  : gset string :=
  match conditional_targets ctx node state (conditionalEdges g) false ∅ with
  | Returned nextNodes => nextNodes
  | Continue (hasConditional, nextNodes) =>
      match (if negb hasConditional && bool_decide (nextNodes = ∅)
             then edge_targets node (edges g) nextNodes else Continue nextNodes) with
      | Returned nextNodes => nextNodes
      | Continue nextNodes =>
          let nextNodes :=
            if decide (nextNodes = ∅) then
              match next_hint g state with Some t => {[t]} | None => nextNodes end
            else nextNodes in
          branch_targets ctx node state (branches g) nextNodes
      end
  end.

(** ** Preparing tasks

    The identifiers of the tasks of a step, and the order of its loops:
    [registry.Names()] or the graph's channels (which may differ from task to
    task), the next nodes, and the nodes. *)
Record task_loops : Type := {
  fresh_id : nat → string;
  range_names : nat → registry → list string;
  range_channels : nat → gmap string channel → list string;
  range_next : gset string → list string;
  range_nodes : gmap string Node → list (string * Node)
}.

Record loops_ok (L : task_loops) : Prop := {
  names_ok i r : range_names L i r ≡ₚ (map_to_list r).*1;
  channels_ok i m : range_channels L i m ≡ₚ (map_to_list m).*1;
  next_ok s : range_next L s ≡ₚ elements s;
  nodes_ok m : go_range m (range_nodes L m)
}.

Definition getNode (g : stateGraph) (name : string) : option Node := nodes g !! name.

Definition getTriggers (node : option Node) : list string :=
  match node with None => [] | Some n => Triggers n end.

Definition createTask (node : Node) (state : val) (channels triggers : list string) (id : string)
  : Task :=
  {| TID := id; TName := NName node; Func := Function node; TChannels := channels; TPath := [];
     TTriggers := list_to_set triggers; TRetryPolicy := NRetryPolicy node |}.

Definition createTaskInfo (node : Node) (state : val) (channels triggers : list string)
    (id : string) : Task :=
  {| TID := id; TName := NName node; Func := None; TChannels := channels; TPath := [];
     TTriggers := list_to_set triggers; TRetryPolicy := NRetryPolicy node |}.

Definition make_task (forExecution : bool) : Node → val → list string → list string → string → Task :=
  if forExecution then createTask else createTaskInfo.

(** [buildIncomingEdges]. *)
Definition buildIncomingEdges (g : stateGraph) : gmap string (list string) :=
  foldl (λ adj e, <[To e := default [] (adj !! To e) ++ [From e]]> adj) ∅ (edges g).

(** Adds the task of one scheduled node. *)
Definition schedule (forExecution : bool) (L : task_loops) (n : Node) (state : val)
    (triggers : list string) (acc : list Task * gset string) : list Task * gset string :=
  (acc.1 ++ [make_task forExecution n state triggers [] (fresh_id L (length acc.1))],
   acc.2 ∪ list_to_set triggers).

Definition prepareNextTasksDAG (L : task_loops) (g : stateGraph) (completedTasks : gset string)
    (currentState : val) (forExecution : bool) : res (list Task * gset string) :=
  let incomingEdges := buildIncomingEdges g in
  Ok (foldl (λ acc kn,
         match getNode g (NName kn.2) with
         | None => acc
         | Some n =>
             if decide (NName kn.2 ∈ completedTasks) then acc
             else
               let predecessors := default [] (incomingEdges !! NName kn.2) in
               let allDone :=
                 forallb (λ pred, bool_decide (pred = Start) || bool_decide (pred = End_) ||
                                  bool_decide (pred ∈ completedTasks)) predecessors in
               if allDone then
                 let triggers :=
                   match getTriggers (Some n) with
                   | [] => range_channels L (length acc.1) (gchannels g)
                   | ts => ts
                   end in
                 schedule forExecution L n currentState triggers acc
               else acc
         end) ([], ∅) (range_nodes L (nodes g))).

(** The loop over the next nodes in the default mode. *)
Definition prepare_next (L : task_loops) (g : stateGraph) (reg : registry) (currentState : val)
    (forExecution : bool) (nextNodes : list string) : list Task * gset string :=
  foldl (λ acc nodeName,
           match getNode g nodeName with
           | None => acc
           | Some node =>
               let triggers := match getTriggers (Some node) with
                               | [] => range_names L (length acc.1) reg
                               | ts => ts
                               end in
               schedule forExecution L node currentState triggers acc
           end) ([], ∅) nextNodes.

Definition prepareNextTasksWithMode (L : task_loops) (g : stateGraph) (ctx : context)
    (reg : registry) (completedTasks : gset string) (lastCompletedNode : string)
    (currentState : val) (forExecution : bool) : res (list Task * gset string) :=
  if decide (completedTasks = ∅) then
    let entry := entryPoint g in
    if decide (entry = "") then Err (Errorf "no entry point set")
    else if decide (entry = End_) then Ok ([], ∅)
    else
      match getNode g entry with
      | None => Err (NodeNotFoundError entry)
      | Some node =>
          let triggers := match getTriggers (Some node) with
                          | [] => range_names L 0 reg
                          | ts => ts
                          end in
          Ok ([createTask node currentState triggers [] (fresh_id L 0)], {[ "__start__" ]})
      end
  else if decide (triggerMode g = NodeTriggerAllPredecessor) then
    prepareNextTasksDAG L g completedTasks currentState forExecution
  else
    Ok (prepare_next L g reg currentState forExecution
          (range_next L (getNextNodes g ctx lastCompletedNode currentState))).

Definition prepareNextTasks (L : task_loops) (g : stateGraph) (ctx : context) (reg : registry)
    (completedTasks : gset string) (lastCompletedNode : string) (currentState : val)
  : res (list Task * gset string) :=
  prepareNextTasksWithMode L g ctx reg completedTasks lastCompletedNode currentState true.

Definition PrepareNextTasksForInspection (L : task_loops) (g : stateGraph) (ctx : context)
    (reg : registry) (completedTasks : gset string) (lastCompletedNode : string)
    (currentState : val) : res (list Task * gset string) :=
  prepareNextTasksWithMode L g ctx reg completedTasks lastCompletedNode currentState false.

(** ** Interrupts around nodes *)
Definition shouldInterrupt (interrupts : gset string) (tasks : list Task) : list Task :=
  if decide (interrupts = ∅) then []
  else filter (λ t, All ∈ interrupts ∨ TName t ∈ interrupts) tasks.

Definition shouldInterruptAfter (interruptsAfter : gset string) (results : list TaskResult) : bool :=
  if decide (interruptsAfter = ∅) then false
  else existsb (λ r, match RErr r with
                     | Some _ => false
                     | None => bool_decide (All ∈ interruptsAfter ∨ RName r ∈ interruptsAfter)
                     end) results.

(** [resolveRetryPolicy]: the task's policy, the engine's, the default. *)
Definition resolveRetryPolicy (engine_policy : option RetryPolicy) (t : Task) : RetryPolicy :=
  match TRetryPolicy t with
  | Some p => p
  | None => match engine_policy with Some p => p | None => DefaultRetryPolicy end
  end.
End routing.
