(* ===== verification/RoutingProps.v ===== *)
(** * What routing and scheduling compute

    The next nodes of a node as a formula over its edges; the tasks of a step
    in both trigger modes; planning without execution. *)

From S2P Require Import GraphProps.
From S2P Require Export Routing.

Section props.
Context `{R : GoRuntime}.

(** ** The next nodes *)

(** Where the conditional edges of a node lead, in the order they were added. *)
Definition conditional_route (g : stateGraph) (ctx : context) (node : string) (state : val)
  : list string :=
  omap (λ ce, Mapping ce !! fmt_v (Condition ce ctx state).1)
       (filter (λ ce, CFrom ce = node) (conditionalEdges g)).

Definition edge_route (g : stateGraph) (node : string) : list string :=
  To <$> filter (λ e, From e = node) (edges g).

Definition is_conditional (g : stateGraph) (node : string) : Prop :=
  Exists (λ ce, CFrom ce = node) (conditionalEdges g).

(** A node with conditional edges ignores its regular ones. *)
Definition route (g : stateGraph) (ctx : context) (node : string) (state : val) : list string :=
  if decide (is_conditional g node) then conditional_route g ctx node state
  else edge_route g node.

(** What the branches of a node add. *)
Definition branch_route (g : stateGraph) (ctx : context) (node : string) (state : val)
  : list string :=
  filter (λ t, t ≠ End_)
    (concat ((λ b, match BCondition b ctx state with
                   | (r, None) => Then b r
                   | _ => []
                   end) <$> filter (λ b, BFrom b = node) (branches g))).

(** The targets that were added before the first edge to [End]. *)
Fixpoint before_end (l : list string) : list string :=
  match l with
  | [] => []
  | t :: l' => if decide (t = End_) then [] else t :: before_end l'
  end.

Lemma before_end_all l : End_ ∉ l → before_end l = l.
Proof.
  induction l as [|t l IH]; [done|]. intros [? ?]%not_elem_of_cons. simpl.
  rewrite decide_False by done. by rewrite IH.
Qed.

Lemma before_end_nil l : End_ ∉ l → before_end l = [] → l = [].
Proof. intros Hl. by rewrite before_end_all. Qed.

Lemma omap_cons_Some {A B} (f : A → option B) x l y :
  f x = Some y → omap f (x :: l) = y :: omap f l.
Proof. simpl. by intros ->. Qed.
Lemma omap_cons_None {A B} (f : A → option B) x l :
  f x = None → omap f (x :: l) = omap f l.
Proof. simpl. by intros ->. Qed.

Lemma add_target t (next : gset string) l :
  {[t]} ∪ next ∪ list_to_set l = next ∪ list_to_set (t :: l).
Proof. set_solver. Qed.

Lemma conditional_targets_spec ctx node state ces has next :
  let r := omap (λ ce, Mapping ce !! fmt_v (Condition ce ctx state).1)
                (filter (λ ce, CFrom ce = node) ces) in
  let s := next ∪ list_to_set (before_end r) in
  conditional_targets ctx node state ces has next =
    if decide (End_ ∈ r) then Returned s
    else Continue (has || bool_decide (Exists (λ ce, CFrom ce = node) ces), s).
Proof.
  revert has next. induction ces as [|ce ces IH]; intros has next; cbv zeta; simpl.
  { rewrite orb_false_r. do 2 f_equal. set_solver. }
  rewrite filter_cons. case_decide as Hf.
  - rewrite (bool_decide_eq_true_2 (Exists _ (ce :: ces))) by by left.
    destruct (Mapping ce !! _) as [t|] eqn:Hm.
    + rewrite (omap_cons_Some _ ce _ t Hm). cbn [before_end]. case_decide as Ht.
      * rewrite decide_True by (subst; left). f_equal. set_solver.
      * rewrite IH. cbv zeta. rewrite orb_true_l, orb_true_r.
        match goal with |- context [End_ ∈ t :: ?l] => set (r := l) end.
        rewrite add_target. by destruct (decide (End_ ∈ r));
          [rewrite decide_True by set_solver|rewrite decide_False by set_solver].
    + rewrite (omap_cons_None _ ce _ Hm), IH. cbv zeta. by rewrite orb_true_l, orb_true_r.
  - rewrite IH. cbv zeta.
    rewrite (bool_decide_ext (Exists _ (ce :: ces)) (Exists (λ ce, CFrom ce = node) ces)); [done|].
    rewrite Exists_cons. tauto.
Qed.

Lemma edge_targets_spec node es next :
  let r := To <$> filter (λ e, From e = node) es in
  let s := next ∪ list_to_set (before_end r) in
  edge_targets node es next = if decide (End_ ∈ r) then Returned s else Continue s.
Proof.
  revert next. induction es as [|e es IH]; intros next; cbv zeta; simpl.
  { f_equal. set_solver. }
  rewrite filter_cons. case_decide as Hf; [|by rewrite IH].
  rewrite fmap_cons. cbn [before_end]. case_decide as Ht.
  - rewrite decide_True by (rewrite Ht; left). f_equal. set_solver.
  - rewrite IH. cbv zeta.
    match goal with |- context [End_ ∈ To e :: ?l] => set (r := l) end.
    rewrite add_target. by destruct (decide (End_ ∈ r));
      [rewrite decide_True by set_solver|rewrite decide_False by set_solver].
Qed.

Lemma collect_targets ts (s : gset string) :
  foldl (λ nextNodes target, if decide (target = End_) then nextNodes
                             else {[target]} ∪ nextNodes) s ts =
  s ∪ list_to_set (filter (λ t, t ≠ End_) ts).
Proof.
  revert s. induction ts as [|t ts IH]; intros s; simpl; [set_solver|].
  rewrite IH, filter_cons. destruct (decide (t = End_)) as [->|];
    [rewrite decide_False by tauto|rewrite decide_True by done]; set_solver.
Qed.

Lemma branch_targets_spec g ctx node state s :
  branch_targets ctx node state (branches g) s =
    s ∪ list_to_set (branch_route g ctx node state).
Proof.
  unfold branch_targets, branch_route.
  generalize (branches g) as bs. intros bs. revert s. induction bs as [|b bs IH]; intros s; simpl.
  { set_solver. }
  rewrite IH, filter_cons. case_decide; [|done].
  rewrite fmap_cons, concat_cons, filter_app, list_to_set_app_L, (assoc_L (∪)). f_equal.
  destruct (BCondition b ctx state) as [r [e|]]; [set_solver|]. apply collect_targets.
Qed.


(** ** Scheduled tasks

    What the loops that schedule tasks have in common: each iteration
    schedules the node it picks, if any. *)
Definition task_of (fe : bool) (n : Node) (triggers : list string) (t : Task) : Prop :=
  TName t = NName n ∧ TChannels t = triggers ∧ TRetryPolicy t = NRetryPolicy n ∧
  Func t = if fe then Function n else None.

Lemma schedule_names fe L n st tr acc :
  TName <$> (schedule fe L n st tr acc).1 = (TName <$> acc.1) ++ [NName n].
Proof. unfold schedule. cbn [fst]. rewrite fmap_app. by destruct fe. Qed.

Lemma fold_schedule {A} fe L st (pick : A → option Node) (good : Node → list string → Prop)
    (step : list Task * gset string → A → list Task * gset string) xs acc :
  (∀ acc x, match pick x with
            | Some n => ∃ tr, good n tr ∧ step acc x = schedule fe L n st tr acc
            | None => step acc x = acc
            end) →
  let r := (foldl step acc xs).1 in
  TName <$> r = (TName <$> acc.1) ++ (NName <$> omap pick xs) ∧
  (∀ t, t ∈ r → t ∈ acc.1 ∨ ∃ x n tr, x ∈ xs ∧ pick x = Some n ∧ good n tr ∧ task_of fe n tr t).
Proof.
  intros Hstep. revert acc. induction xs as [|x xs IH]; intros acc; cbv zeta; simpl.
  { rewrite app_nil_r. auto. }
  destruct (IH (step acc x)) as [Hn Ht]. rewrite Hn. specialize (Hstep acc x).
  destruct (pick x) as [n|] eqn:Hp.
  - destruct Hstep as (tr & Hg & Heq). rewrite Heq in *. rewrite schedule_names, <-app_assoc. split; [done|].
    intros t Hin. destruct (Ht t Hin) as [Hin'|(y & m & tr' & ? & ? & ? & ?)].
    + unfold schedule in Hin'. simpl in Hin'. apply elem_of_app in Hin' as [?|Hin']; [by left|].
      apply list_elem_of_singleton in Hin' as ->. right. exists x, n, tr.
      split; [left|]. split; [done|]. split; [done|]. by destruct fe.
    + right. exists y, m, tr'. split; [by right|done].
  - rewrite Hstep in *. split; [done|]. intros t Hin.
    destruct (Ht t Hin) as [?|(y & m & tr' & ? & ? & ? & ?)]; [by left|].
    right. exists y, m, tr'. split; [by right|done].
Qed.

(** The channels a task reads: the node's triggers, or all of them. *)
Definition reads (all : list string) (n : Node) (triggers : list string) : Prop :=
  if decide (Triggers n = []) then triggers ≡ₚ all else triggers = Triggers n.

Definition all_predecessors_done (g : stateGraph) (completed : gset string) (n : string) : Prop :=
  ∀ e, e ∈ edges g → To e = n → From e = Start ∨ From e = End_ ∨ From e ∈ completed.

Lemma buildIncomingEdges_spec g n :
  default [] (buildIncomingEdges g !! n) = From <$> filter (λ e, To e = n) (edges g).
Proof.
  unfold buildIncomingEdges.
  assert (∀ es (adj : gmap string (list string)), default [] (foldl (λ adj e,
      <[To e := default [] (adj !! To e) ++ [From e]]> adj) adj es !! n) =
      default [] (adj !! n) ++ (From <$> filter (λ e, To e = n) es)) as H.
  { induction es as [|e es IH]; intros adj; simpl; [by rewrite app_nil_r|].
    rewrite IH, filter_cons. case_decide as Ht.
    - subst. rewrite lookup_insert_eq. simpl. by rewrite <-app_assoc.
    - by rewrite lookup_insert_ne. }
  by rewrite H, lookup_empty.
Qed.

#[local] Instance all_done_dec g c n : Decision (all_predecessors_done g c n).
Proof.
  refine (cast_if (decide (Forall (λ e, To e = n → From e = Start ∨ From e = End_ ∨ From e ∈ c)
                                  (edges g))));
    unfold all_predecessors_done; by rewrite <-Forall_forall.
Defined.

Lemma allDone_spec g completed n :
  forallb (λ pred, bool_decide (pred = Start) || bool_decide (pred = End_) ||
                   bool_decide (pred ∈ completed))
          (default [] (buildIncomingEdges g !! n)) =
  bool_decide (all_predecessors_done g completed n).
Proof.
  rewrite buildIncomingEdges_spec. apply eq_bool_prop_intro.
  rewrite bool_decide_spec. rewrite Is_true_true, forallb_forall. split.
  - intros H e He Ht. specialize (H (From e)). rewrite !orb_true_iff, !bool_decide_eq_true in H.
    destruct H as [[|]|]; [|by auto..]. apply list_elem_of_In, list_elem_of_fmap.
    exists e. split; [done|]. by apply list_elem_of_filter.
  - intros H x Hx. apply list_elem_of_In, list_elem_of_fmap in Hx as (e & -> & He).
    apply list_elem_of_filter in He as [Ht He].
    rewrite !orb_true_iff, !bool_decide_eq_true. destruct (H e He Ht) as [|[|]]; auto.
Qed.

Lemma names_of_nodes g L :
  well_formed g → loops_ok L →
  NoDup ((λ kn, NName kn.2) <$> range_nodes L (nodes g)) ∧
  ∀ n, n ∈ ((λ kn, NName kn.2) <$> range_nodes L (nodes g)) ↔ is_node g n.
Proof.
  intros Hwf HL. pose proof (nodes_ok L HL (nodes g)) as Hr.
  assert ((λ kn, NName kn.2) <$> range_nodes L (nodes g) = (range_nodes L (nodes g)).*1) as ->.
  { apply list_fmap_ext. intros i [k n] Hin. simpl.
    apply (wf_names g Hwf). apply (go_range_elem _ _ _ _ Hr), (list_elem_of_lookup_2 _ i _ Hin). }
  split; [by eapply go_range_NoDup|]. intros n. unfold is_node. rewrite list_elem_of_fmap. split.
  - intros ([k nd] & -> & Hin). apply (go_range_elem _ _ _ _ Hr) in Hin. eauto.
  - intros [nd Hnd]. exists (n, nd). split; [done|]. by apply (go_range_elem _ _ _ _ Hr).
Qed.
(** The nodes of the next step. *)
Definition ready (g : stateGraph) (ctx : context) (completed : gset string) (last : string)
    (state : val) (n : string) : Prop :=
  is_node g n ∧
  if decide (completed = ∅) then n = entryPoint g ∧ n ≠ End_
  else if decide (triggerMode g = NodeTriggerAllPredecessor)
  then n ∉ completed ∧ all_predecessors_done g completed n
  else n ∈ getNextNodes g ctx last state.

Definition all_channels (g : stateGraph) (reg : registry) (completed : gset string) : list string :=
  if decide (completed ≠ ∅ ∧ triggerMode g = NodeTriggerAllPredecessor)
  then (map_to_list (gchannels g)).*1 else (map_to_list reg).*1.

(** The tasks of a step: one for each ready node, made from that node. *)
Definition tasks_for (fe : bool) (g : stateGraph) (all : list string) (is_ready : string → Prop)
    (tasks : list Task) : Prop :=
  NoDup (TName <$> tasks) ∧ (∀ n, n ∈ TName <$> tasks ↔ is_ready n) ∧
  ∀ t, t ∈ tasks → ∃ n tr, nodes g !! TName t = Some n ∧ reads all n tr ∧ task_of fe n tr t.

Lemma reads_triggers all n ts :
  ts ≡ₚ all → reads all n (match Triggers n with [] => ts | ts' => ts' end).
Proof. intros Hall. unfold reads. destruct (Triggers n); by case_decide. Qed.

Lemma tasks_for_picked {A} fe g all is_ready (pick : A → option Node) (xs : list A) tasks :
  well_formed g →
  NoDup (NName <$> omap pick xs) →
  (∀ n, n ∈ NName <$> omap pick xs ↔ is_ready n) →
  (∀ x n, x ∈ xs → pick x = Some n → nodes g !! NName n = Some n) →
  TName <$> tasks = NName <$> omap pick xs →
  (∀ t, t ∈ tasks → t ∈ ([] : list Task) ∨
     ∃ x n tr, x ∈ xs ∧ pick x = Some n ∧ reads all n tr ∧ task_of fe n tr t) →
  tasks_for fe g all is_ready tasks.
Proof.
  intros Hwf Hnd Hready Hpick Hnames Htasks. unfold tasks_for. rewrite Hnames.
  split; [done|]. split; [done|]. intros t Ht.
  destruct (Htasks t Ht) as [[]%elem_of_nil|(x & n & tr & Hx & Hp & Hr & Ho)].
  exists n, tr. split_and!; [|done..]. destruct Ho as [-> _]. by eapply Hpick.
Qed.

Lemma prepare_next_spec L g ctx reg last st fe :
  well_formed g → loops_ok L →
  tasks_for fe g (map_to_list reg).*1 (λ n, is_node g n ∧ n ∈ getNextNodes g ctx last st)
    (prepare_next L g reg st fe (range_next L (getNextNodes g ctx last st))).1.
Proof.
  intros Hwf HL. set (s := getNextNodes g ctx last st).
  pose proof (next_ok L HL s) as Hperm.
  destruct (fold_schedule fe L st (getNode g) (reads (map_to_list reg).*1)
    (λ acc nodeName, match getNode g nodeName with
           | None => acc
           | Some node => schedule fe L node st
               (match getTriggers (Some node) with
                | [] => range_names L (length acc.1) reg | ts => ts end) acc
           end) (range_next L s) ([], ∅)) as [Hn Ht].
  { intros acc x. destruct (getNode g x) as [n|]; [|done].
    eexists. split; [|reflexivity]. apply reads_triggers, (names_ok L HL). }
  assert (NName <$> omap (getNode g) (range_next L s) =
          filter (is_node g) (range_next L s)) as Hf.
  { generalize (range_next L s) as xs. induction xs as [|x xs IH]; [done|].
    rewrite filter_cons. destruct (getNode g x) as [n|] eqn:Hx.
    - rewrite (omap_cons_Some _ x _ n Hx), fmap_cons, IH.
      rewrite decide_True by (unfold is_node; by exists n). f_equal. by apply (wf_names g Hwf).
    - rewrite (omap_cons_None _ x _ Hx), decide_False; [done|].
      unfold is_node. intros [n Hn']. unfold getNode in Hx. congruence. }
  eapply (tasks_for_picked _ _ _ _ (getNode g) (range_next L s)); [done|..|done|exact Ht].
  - rewrite Hf. apply NoDup_filter. rewrite Hperm. apply NoDup_elements.
  - intros n. rewrite Hf, list_elem_of_filter, Hperm, elem_of_elements. done.
  - intros x n _ Hx. assert (NName n = x) as -> by by apply (wf_names g Hwf). done.
Qed.

Lemma prepare_dag_spec L g st fe completed :
  well_formed g → loops_ok L →
  ∃ tasks trig, prepareNextTasksDAG L g completed st fe = Ok (tasks, trig) ∧
  tasks_for fe g (map_to_list (gchannels g)).*1
    (λ n, is_node g n ∧ n ∉ completed ∧ all_predecessors_done g completed n) tasks.
Proof.
  intros Hwf HL. unfold prepareNextTasksDAG.
  match goal with |- context [Ok ?p] => destruct p as [tasks trig] eqn:Hp end.
  exists tasks, trig. split; [done|]. apply (f_equal fst) in Hp. simpl in Hp. subst tasks.
  pose proof (nodes_ok L HL (nodes g)) as Hr.
  destruct (names_of_nodes g L Hwf HL) as [Hnd Hin].
  set (pick := λ kn : string * Node,
         if decide (NName kn.2 ∉ completed ∧ all_predecessors_done g completed (NName kn.2))
         then getNode g (NName kn.2) else None).
  assert (∀ xs : list (string * Node), NName <$> omap pick xs =
     filter (λ n, (n ∉ completed ∧ all_predecessors_done g completed n) ∧ is_node g n)
            ((λ kn : string * Node, NName kn.2) <$> xs)) as Hf.
  { induction xs as [|x xs IH]; [done|]. rewrite fmap_cons, filter_cons.
    destruct (pick x) as [n|] eqn:Hx; unfold pick in Hx.
    - rewrite (omap_cons_Some pick x _ n Hx), fmap_cons, IH. case_decide as Hc; [|done].
      rewrite decide_True by (split; [done|]; by exists n). f_equal. by apply (wf_names g Hwf).
    - rewrite (omap_cons_None pick x _ Hx), decide_False; [done|].
      intros [Hc [n Hn']]. rewrite decide_True in Hx by done. unfold getNode in Hx. congruence. }
  eapply (tasks_for_picked _ _ _ _ pick (range_nodes L (nodes g))); [done|..].
  - rewrite Hf. by apply NoDup_filter.
  - intros n. rewrite Hf, list_elem_of_filter, Hin. tauto.
  - intros x n Hx Hp. unfold pick in Hp. case_decide; [|done].
    assert (NName n = NName x.2) as -> by by apply (wf_names g Hwf). done.
  - refine (proj1 (fold_schedule fe L st pick (reads (map_to_list (gchannels g)).*1) _ _ _ _)).
    shelve.
  - refine (proj2 (fold_schedule fe L st pick (reads (map_to_list (gchannels g)).*1) _ _ _ _)).
    Unshelve.
    all: intros acc x; unfold pick; rewrite allDone_spec.
    all: destruct (getNode g (NName x.2)) as [n|] eqn:Hx; [|by case_decide].
    all: destruct (decide (NName x.2 ∈ completed)); [by rewrite decide_False by tauto|].
    all: case_decide as Hc; [rewrite bool_decide_eq_true_2 by tauto
                            |by rewrite bool_decide_eq_false_2 by tauto].
    all: eexists; split; [|reflexivity]; apply reads_triggers, (channels_ok L HL).
Qed.

Lemma prepare_ready L g ctx reg completed last st fe :
  well_formed g → loops_ok L →
  match prepareNextTasksWithMode L g ctx reg completed last st fe with
  | Err e => completed = ∅ ∧ entryPoint g = "" ∧ e = Errorf "no entry point set"
  | Ok (tasks, _) =>
      tasks_for (fe || bool_decide (completed = ∅)) g (all_channels g reg completed)
        (ready g ctx completed last st) tasks
  end.
Proof.
  intros Hwf HL. unfold prepareNextTasksWithMode, ready, all_channels.
  destruct (decide (completed = ∅)) as [->|Hne].
  - rewrite (decide_False (P := (∅ : gset string) ≠ ∅ ∧ _)) by tauto.
    rewrite bool_decide_eq_true_2, orb_true_r by done.
    case_decide as He; [done|]. case_decide as Hend.
    { split; [constructor|]. split; [|set_solver]. intros n. simpl. rewrite elem_of_nil.
      split; [done|]. intros (_ & -> & ?). done. }
    unfold getNode. destruct (wf_entry g Hwf) as [?|[?|[n Hn]]]; [done..|]. rewrite Hn.
    pose proof (wf_names g Hwf _ _ Hn) as Hname.
    split; [apply NoDup_singleton|]. cbn [fmap list_fmap createTask TName]. rewrite Hname. split.
    + intros x. rewrite list_elem_of_singleton. unfold is_node. split; [|tauto].
      intros ->. eauto.
    + intros t ->%list_elem_of_singleton. exists n. eexists. cbn. rewrite Hname.
      split_and!; [done|apply reads_triggers, (names_ok L HL)|]. by split_and!.
  - rewrite (bool_decide_eq_false_2 (completed = ∅)), orb_false_r by done.
    destruct (decide (triggerMode g = NodeTriggerAllPredecessor)) as [Hm|Hm].
    + rewrite (decide_True (P := completed ≠ ∅ ∧ _)) by done.
      destruct (prepare_dag_spec L g st fe completed Hwf HL) as (tasks & trig & -> & H). done.
    + rewrite (decide_False (P := completed ≠ ∅ ∧ _)) by tauto.
      pose proof (prepare_next_spec L g ctx reg last st fe Hwf HL) as H.
      by destruct (prepare_next _ _ _ _ _ _).
Qed.

(** C2: scheduling.  On a well-formed graph preparing a step only fails without
    an entry point; otherwise it makes exactly one task for every ready node
    (at first the entry point; then, in all-predecessors mode, each node that
    has not run and whose predecessors along edges have, and in the default
    mode the next nodes of the last node), whatever the order of the loops,
    and each task runs its node's function on its node's channels. *)
Theorem prepareNextTasks_spec L g ctx reg completed last st fe :
  well_formed g → loops_ok L →
  match prepareNextTasksWithMode L g ctx reg completed last st fe with
  | Err e => completed = ∅ ∧ entryPoint g = "" ∧ e = Errorf "no entry point set"
  | Ok (tasks, _) =>
      tasks_for (fe || bool_decide (completed = ∅)) g (all_channels g reg completed)
        (ready g ctx completed last st) tasks
  end.
Proof. apply prepare_ready. Qed.

(** In all-predecessors mode a node without triggers reads the channels the
    graph was configured with, not those that exist: when there are none, as for
    a map schema, every task after the entry point reads nothing at all. *)
Theorem dag_reads_nothing L g ctx reg completed last st fe tasks triggers :
  well_formed g → loops_ok L → completed ≠ ∅ → triggerMode g = NodeTriggerAllPredecessor →
  gchannels g = ∅ → (∀ k n, nodes g !! k = Some n → Triggers n = []) →
  prepareNextTasksWithMode L g ctx reg completed last st fe = Ok (tasks, triggers) →
  ∀ t, t ∈ tasks → TChannels t = [].
Proof.
  intros Hwf HL Hne Hm Hch Htr. unfold prepareNextTasksWithMode.
  rewrite (decide_False (P := completed = ∅)), (decide_True (P := triggerMode g = _)) by done.
  destruct (prepare_dag_spec L g st fe completed Hwf HL) as (ts & tr & -> & _ & _ & Ht).
  intros [= <- <-] t Hin. destruct (Ht t Hin) as (n & trs & Hn & Hr & _ & -> & _).
  unfold reads in Hr. rewrite (Htr _ _ Hn), Hch, decide_True, map_to_list_empty in Hr by done.
  by apply Permutation_nil_r in Hr.
Qed.

(** The task of a plan. *)
Definition planned (t : Task) : Task :=
  MkTask (TID t) (TName t) None (TChannels t) (TPath t) (TTriggers t) (TRetryPolicy t).

Lemma schedule_planned L n st tr acc :
  schedule false L n st tr (planned <$> acc.1, acc.2) =
  (planned <$> (schedule true L n st tr acc).1, (schedule true L n st tr acc).2).
Proof. unfold schedule. cbn [fst snd]. by rewrite fmap_app, length_fmap. Qed.

Lemma fold_planned {A} (f h : list Task * gset string → A → list Task * gset string) xs acc :
  (∀ acc x, f (planned <$> acc.1, acc.2) x = (planned <$> (h acc x).1, (h acc x).2)) →
  foldl f (planned <$> acc.1, acc.2) xs =
    (planned <$> (foldl h acc xs).1, (foldl h acc xs).2).
Proof.
  intros Hfh. revert acc. induction xs as [|x xs IH]; intros acc; [done|]. simpl.
  by rewrite Hfh, IH.
Qed.

(** Planning is faithful: past the first step, preparing the tasks for
    inspection gives the tasks that would be executed, without their functions. *)
Theorem inspection_plans_execution L g ctx reg completed last st :
  completed ≠ ∅ →
  PrepareNextTasksForInspection L g ctx reg completed last st =
    match prepareNextTasks L g ctx reg completed last st with
    | Ok (tasks, triggers) => Ok (planned <$> tasks, triggers)
    | Err e => Err e
    end.
Proof.
  intros Hne. unfold PrepareNextTasksForInspection, prepareNextTasks, prepareNextTasksWithMode.
  rewrite !(decide_False (P := completed = ∅)) by done. destruct (decide (triggerMode g = _)) as [Hm|Hm].
  - unfold prepareNextTasksDAG. cbv zeta.
    match goal with |- Ok (foldl ?f _ ?xs) = ?rhs =>
      match rhs with context [foldl ?h _ xs] =>
        pose proof (fold_planned f h xs ([], ∅)) as Hf end end.
    cbn [fst snd fmap list_fmap] in Hf.
    rewrite Hf; clear Hf; [destruct (foldl _ _ _); reflexivity|].
    intros acc x. destruct (getNode g (NName x.2)) as [n|]; [|done].
    case_decide; [done|]. destruct (forallb _ _); [|done].
    cbn [fst snd]. rewrite length_fmap. apply schedule_planned.
  - unfold prepare_next.
    match goal with |- Ok (foldl ?f _ ?xs) = ?rhs =>
      match rhs with context [foldl ?h _ xs] =>
        pose proof (fold_planned f h xs ([], ∅)) as Hf end end.
    cbn [fst snd fmap list_fmap] in Hf.
    rewrite Hf; clear Hf; [destruct (foldl _ _ _); reflexivity|].
    intros acc x. destruct (getNode g x) as [n|]; [|done].
    cbn [fst snd]. rewrite length_fmap. apply schedule_planned.
Qed.
End props.

(** ** Witnesses *)
Definition canonical_loops : task_loops := {|
  fresh_id i := "task-" +:+ pretty i;
  range_names _ r := (map_to_list r).*1;
  range_channels _ m := (map_to_list m).*1;
  range_next := elements;
  range_nodes := map_to_list
|}.

Lemma canonical_loops_ok : loops_ok canonical_loops.
Proof. split; intros; [done..|apply go_range_canonical]. Qed.

(** A diamond: [a], then [b] and [c], then [d]. *)
Definition diamond_ops : list builder_op :=
  [OpAddNode "a" None; OpAddNode "b" None; OpAddNode "c" None; OpAddNode "d" None;
   OpAddEdge "a" "b"; OpAddEdge "a" "c"; OpAddEdge "b" "d"; OpAddEdge "c" "d";
   OpSetEntryPoint "a"; OpSetFinishPoint "d";
   OpSetNodeTriggerMode NodeTriggerAllPredecessor].
Definition diamond : stateGraph := build (SMap true) diamond_ops.

Lemma prepareNextTasks_spec_witness :
  let g := diamond in let done_ : gset string := {["a"; "b"]} in
  (∃ t tr, prepareNextTasksWithMode (R := fixed_addresses) canonical_loops g ∅ ∅ done_ "b" VNil true
             = Ok ([t], tr) ∧ TName t = "c") ∧
  ready (R := fixed_addresses) g ∅ done_ "b" VNil "c".
Proof.
  intros g done_.
  pose proof (prepareNextTasks_spec (R := fixed_addresses) canonical_loops g ∅ ∅ done_ "b" VNil true
                (build_well_formed _ diamond_ops) canonical_loops_ok) as H.
  destruct (prepareNextTasksWithMode _ _ _ _ _ _ _ _) as [[ts tr]|e] eqn:E;
    [|vm_compute in E; discriminate].
  vm_compute in E. injection E as <- <-. split; [by eexists _, _|].
  destruct H as (_ & H & _). apply H. by left.
Defined.

Lemma dag_reads_nothing_witness :
  let g := diamond in let done_ : gset string := {["a"]} in
  ∃ tasks triggers,
    prepareNextTasksWithMode (R := fixed_addresses) canonical_loops g ∅
      {["x" := Leaf (LLastValue (LastValue.New (VInt 1)))]} done_ "a" VNil true = Ok (tasks, triggers) ∧
    TName <$> tasks = ["c"; "b"] ∧ ∀ t, t ∈ tasks → TChannels t = [].
Proof.
  intros g done_.
  destruct (prepareNextTasksWithMode (R := fixed_addresses) canonical_loops g ∅
    {["x" := Leaf (LLastValue (LastValue.New (VInt 1)))]} done_ "a" VNil true) as [[tasks triggers]|e] eqn:E;
    [|vm_compute in E; discriminate].
  exists tasks, triggers. split; [reflexivity|].
  split; [vm_compute in E; injection E as <- <-; reflexivity|].
  apply (dag_reads_nothing (R := fixed_addresses) _ _ _ _ _ _ _ _ _ _ (build_well_formed _ diamond_ops) canonical_loops_ok
    (λ H : done_ = ∅, ltac:(discriminate (f_equal size H))) eq_refl
    (ltac:(vm_compute; reflexivity)) (ltac:(
      assert (forallb (λ kn, match Triggers kn.2 with [] => true | _ => false end) (map_to_list (nodes g)) = true)
        as H by (vm_compute; reflexivity);
      intros k n Hn%elem_of_map_to_list;
      rewrite forallb_forall in H; specialize (H (k, n)); rewrite <-list_elem_of_In in H;
      specialize (H Hn); simpl in H; destruct (Triggers n); [reflexivity|discriminate])) E).
Defined.

Lemma inspection_plans_execution_witness :
  let g := diamond in let done_ : gset string := {["a"; "b"]} in
  done_ ≠ ∅ ∧
  is_ok (PrepareNextTasksForInspection (R := fixed_addresses) canonical_loops g ∅ ∅ done_ "b" VNil)
    = true.
Proof.
  intros g done_. assert (done_ ≠ ∅) as Hne by (intros H; discriminate (f_equal size H)).
  split; [done|].
  rewrite (inspection_plans_execution (R := fixed_addresses) canonical_loops g ∅ ∅ done_ "b" VNil Hne).
  vm_compute. reflexivity.
Defined.

(** The order in which edges are added matters: an edge to [End] hides the
    later ones. *)
Example edges_after_end_are_dead :
  let g es := build (SMap true) (OpAddNode "a" None :: OpAddNode "b" None :: es) in
  let next es := getNextNodes (R := fixed_addresses) (g es) ∅ "a" VNil in
  next [OpAddEdge "a" End_; OpAddEdge "a" "b"] = ∅ ∧
  next [OpAddEdge "a" "b"; OpAddEdge "a" End_] = {["b"]}.
Proof. split; vm_compute; reflexivity. Qed.
