(* ===== verification/FieldMapping.v ===== *)
(** * Field-level routing of a node's output

    [applyFieldMapping], [getNestedField] and [setNestedField]
    (pregel/engine.go).  They move references to nested maps around and write
    through them, so the maps live in a store: the maps of the node's output
    are addressed by their path in it, the maps the mapping creates by a
    number.  An output is a tree: no map occurs in it twice. *)

From Stdlib Require Import Ascii.
From S2P Require Export Types Json.

Inductive loc : Type :=
| At (path : list string)
| Fresh (n : nat).

#[global] Instance loc_dec : EqDecision loc.
Proof. solve_decision. Defined.
#[global] Instance loc_countable : Countable loc.
Proof.
  refine (inj_countable' (λ l, match l with At p => inl p | Fresh n => inr n end)
                         (λ s, match s with inl p => At p | inr n => Fresh n end) _).
  by intros [].
Defined.

(** What a map holds: a reference to a [map[string]interface{}], or any other
    value. *)
Inductive cell : Type := Ref (l : loc) | Plain (v : val).

Abbreviation obj := (gmap string cell).

Record store : Type := MkStore {
  source : gmap string val;      (* the output as the node returned it *)
  written : gmap loc obj;        (* maps created or changed since *)
  next_loc : nat
}.

(** The map of the output at a path, as the node returned it. *)
Fixpoint map_at (m : gmap string val) (path : list string) : gmap string val :=
  match path with
  | [] => m
  | k :: path' => match m !! k with
                  | Some (VObj m') => map_at m' path'
                  | _ => ∅
                  end
  end.

Definition cell_of (path : list string) (k : string) (v : val) : cell :=
  match v with VObj _ => Ref (At (path ++ [k])) | _ => Plain v end.

Definition contents (s : store) (l : loc) : obj :=
  match written s !! l with
  | Some o => o
  | None => match l with
            | At path => map_imap (λ k v, Some (cell_of path k v)) (map_at (source s) path)
            | Fresh _ => ∅
            end
  end.

Definition write (l : loc) (k : string) (c : cell) (s : store) : store :=
  MkStore (source s) (<[l := <[k := c]> (contents s l)]> (written s)) (next_loc s).

(** [make(map[string]any)]. *)
Definition new_map (s : store) : loc * store :=
  (Fresh (next_loc s), MkStore (source s) (<[Fresh (next_loc s) := ∅]> (written s)) (S (next_loc s))).

(** [getNestedField] from a map on, over the parts of the path; [None] is nil. *)
Fixpoint walk (s : store) (cur : cell) (parts : list string) : option cell :=
  match parts with
  | [] => Some cur
  | part :: parts' =>
      match cur with
      | Plain _ => None
      | Ref l => match contents s l !! part with
                 | None | Some (Plain VNil) => None
                 | Some c => walk s c parts'
                 end
      end
  end.

Definition getNestedField (s : store) (m : loc) (path : string) : option cell :=
  if decide (path = "") then Some (Ref m) else walk s (Ref m) (split_on "."%char path).

(** The loop of [setNestedField] and its last assignment.  [None]: the program
    panics with an assignment to an entry of a nil map, which is what a failed
    assertion leaves in [m]. *)
Fixpoint set_parts (s : store) (m : loc) (parts : list string) (c : cell) : option store :=
  match parts with
  | [] => Some s
  | [k] => Some (write m k c s)
  | k :: parts' =>
      match contents s m !! k with
      | None => let '(l, s) := new_map s in set_parts (write m k (Ref l) s) l parts' c
      | Some (Ref l) => set_parts s l parts' c
      | Some (Plain _) => None
      end
  end.

(** With an empty path the entries of the value, which must be a map, are
    copied into [m]. *)
Definition setNestedField (s : store) (m : loc) (path : string) (c : cell) : option store :=
  if decide (path = "") then
    match c with
    | Ref l => Some (MkStore (source s) (<[m := contents s l ∪ contents s m]> (written s)) (next_loc s))
    | Plain (VTypedNil (TMap TAny)) => Some s
    | Plain _ => None
    end
  else set_parts s m (split_on "."%char path) c.

Fixpoint map_fields (s : store) (result : loc) (mappings : list FieldMapping) : option store :=
  match mappings with
  | [] => Some s
  | mp :: mappings' =>
      match getNestedField s (At []) (MapFrom mp) with
      | None => map_fields s result mappings'
      | Some c => match setNestedField s result (MapTo_ mp) c with
                  | None => None
                  | Some s => map_fields s result mappings'
                  end
      end
  end.

(** The value a cell denotes.  [None]: nested deeper than [fuel], as a cyclic
    value is for every [fuel]. *)
Fixpoint value_of (fuel : nat) (s : store) (c : cell) : option val :=
  match c with
  | Plain v => Some v
  | Ref l =>
      match fuel with
      | O => None
      | S fuel' => VMap TAny <$> sequence_map (value_of fuel' s <$> contents s l)
      end
  end.

Definition depth_bound (output : gmap string val) (mappings : list FieldMapping) : nat :=
  vsize (VObj output) + sum_list_with (λ mp, length (split_on "."%char (MapTo_ mp))) mappings.

Definition start (output : gmap string val) : loc * store := new_map (MkStore output ∅ 0).

(** [applyFieldMapping].  [None]: the program panics, or the result contains
    itself. *)
Definition applyFieldMapping (output : gmap string val) (mappings : list FieldMapping)
  : option (gmap string val) :=
  match mappings with
  | [] => Some output
  | _ =>
      let '(result, s) := start output in
      s ← map_fields s result mappings;
      v ← value_of (depth_bound output mappings) s (Ref result);
      as_map v
  end.

(** What the mapping leaves of the output, which the node and the last state
    still refer to. *)
Definition output_after (output : gmap string val) (mappings : list FieldMapping)
  : option (gmap string val) :=
  match mappings with
  | [] => Some output
  | _ =>
      let '(result, s) := start output in
      s ← map_fields s result mappings;
      v ← value_of (depth_bound output mappings) s (Ref (At []));
      as_map v
  end.

Definition mapping (f t : string) : FieldMapping := {| MapFrom := f; MapTo_ := t |}.

Definition demo_output : gmap string val :=
  {["user" := VObj {["name" := VStr "ann"; "age" := VInt 3]}; "ok" := VBool true]}.

Example field_mapping :
  applyFieldMapping demo_output [mapping "user.name" "who"; mapping "ok" "flags.done";
                                 mapping "user.none" "none"] =
  Some {["who" := VStr "ann"; "flags" := VObj {["done" := VBool true]}]}.
Proof. vm_compute. reflexivity. Qed.

(** A target inside a mapped map changes the output the map came from. *)
Example mapping_writes_source :
  output_after demo_output [mapping "user" "u"; mapping "ok" "u.name"] =
  Some {["user" := VObj {["name" := VBool true; "age" := VInt 3]}; "ok" := VBool true]}.
Proof. vm_compute. reflexivity. Qed.

(** A target inside a mapped value that is no map panics. *)
Example mapping_panics :
  applyFieldMapping demo_output [mapping "ok" "x"; mapping "user" "x.y"] = None.
Proof. vm_compute. reflexivity. Qed.

(** ** Renaming top-level fields

    With targets that name fields of the result itself, the mapping only
    reads the output. *)

(** [getNestedField] on values; nil is [None]. *)
Fixpoint value_at (v : val) (parts : list string) : option val :=
  match parts with
  | [] => Some v
  | part :: parts' =>
      match v with
      | VObj m => match m !! part with
                  | None | Some VNil => None
                  | Some v' => value_at v' parts'
                  end
      | _ => None
      end
  end.

Definition field_of (output : gmap string val) (path : string) : option val :=
  if decide (path = "") then Some (VObj output) else value_at (VObj output) (split_on "."%char path).

Definition top_level (mp : FieldMapping) : Prop :=
  MapTo_ mp ≠ "" ∧ str_mem "."%char (MapTo_ mp) = false.

Definition renamed (output : gmap string val) (ms : list FieldMapping) : gmap string val :=
  foldl (λ r mp, match field_of output (MapFrom mp) with
                 | Some v => <[MapTo_ mp := v]> r
                 | None => r
                 end) ∅ ms.

(** The cell of a value that is somewhere in the untouched output. *)
Definition denotes (output : gmap string val) (c : cell) (v : val) : Prop :=
  match c with
  | Plain w => w = v ∧ ∀ m, v ≠ VObj m
  | Ref (At path) => v = VObj (map_at output path)
  | Ref (Fresh _) => False
  end.

Lemma map_at_snoc m path k :
  map_at m (path ++ [k]) = match map_at m path !! k with Some (VObj m') => m' | _ => ∅ end.
Proof.
  revert m. induction path as [|p path IH]; intros m; simpl.
  - by destruct (m !! k) as [[]|].
  - destruct (m !! p) as [v|]; [|by rewrite lookup_empty].
    destruct v as [| | | | | | | | |e m'| | | |]; try by rewrite lookup_empty.
    destruct e; try by rewrite lookup_empty. apply IH.
Qed.

Lemma denotes_cell output path k v :
  map_at output path !! k = Some v → denotes output (cell_of path k v) v.
Proof.
  intros Hk. unfold cell_of. destruct v as [| | | | | | | | |e m'| | | |]; try done.
  destruct e; try done. simpl. by rewrite map_at_snoc, Hk.
Qed.

(** The source and the result of a store in which only the result was written. *)
Definition clean (output : gmap string val) (s : store) : Prop :=
  source s = output ∧ ∀ path, written s !! At path = None.

Lemma clean_contents output s path :
  clean output s →
  contents s (At path) = map_imap (λ k v, Some (cell_of path k v)) (map_at output path).
Proof. intros [Hs Hw]. unfold contents. by rewrite Hw, Hs. Qed.

Lemma walk_denotes output s c v parts :
  clean output s → denotes output c v →
  match value_at v parts with
  | Some w => ∃ c', walk s c parts = Some c' ∧ denotes output c' w
  | None => walk s c parts = None
  end.
Proof.
  intros Hs. revert c v. induction parts as [|part parts IH]; intros c v Hd; simpl; [by exists c|].
  destruct c as [[path|n]|w]; [|done|].
  - simpl in Hd. subst v. rewrite (clean_contents _ _ _ Hs), map_lookup_imap.
    destruct (map_at output path !! part) as [w|] eqn:Hw; simpl; [|done].
    pose proof (denotes_cell _ _ _ _ Hw) as Hd.
    destruct w as [| | | | | | | | |e m'| | | |]; [done|..]; try by apply IH.
    destruct e; by apply IH.
  - destruct Hd as [-> Hv]. destruct v as [| | | | | | | | |e m'| | | |]; try done.
    destruct e; try done. by destruct (Hv m').
Qed.

Lemma sequence_map_Some (m : gmap string val) : sequence_map (Some <$> m) = Some m.
Proof.
  unfold sequence_map. rewrite decide_True.
  - f_equal. apply map_eq. intros k. rewrite lookup_omap, lookup_fmap. by destruct (m !! k).
  - intros k v Hk. rewrite lookup_fmap in Hk. apply fmap_Some in Hk as (w & _ & ->). eauto.
Qed.

Lemma value_of_denotes output s fuel c v :
  clean output s → denotes output c v → vsize v ≤ fuel → value_of fuel s c = Some v.
Proof.
  intros Hs. revert c v. induction fuel as [|fuel IH]; intros c v Hd Hf.
  { destruct v; simpl in Hf; lia. }
  destruct c as [[path|n]|w]; [|done|by destruct Hd as [-> _]].
  simpl in Hd. subst v. cbn [value_of]. rewrite (clean_contents _ _ _ Hs).
  replace (value_of fuel s <$> _) with (Some <$> map_at output path).
  { by rewrite sequence_map_Some. }
  apply map_eq. intros k. rewrite !lookup_fmap, map_lookup_imap.
  destruct (map_at output path !! k) as [w|] eqn:Hw; simpl; [|done]. f_equal. symmetry.
  apply IH; [by apply denotes_cell|]. pose proof (vsize_map TAny _ _ _ Hw). lia.
Qed.

Lemma value_at_size v parts w : value_at v parts = Some w → vsize w ≤ vsize v.
Proof.
  revert v. induction parts as [|p parts IH]; intros v; simpl; [by intros [= ->]|].
  destruct v as [| | | | | | | | |e m| | | |]; try done. destruct e; try done.
  destruct (m !! p) as [u|] eqn:Hu; [|done]. intros H.
  assert (value_at u parts = Some w) as H' by by destruct u.
  apply IH in H'. pose proof (vsize_map TAny _ _ _ Hu). lia.
Qed.

Lemma field_of_size output path v : field_of output path = Some v → vsize v ≤ vsize (VObj output).
Proof. unfold field_of. case_decide; [by intros [= <-]|apply value_at_size]. Qed.

(** The result map denotes the entries collected so far. *)
Definition collected (output : gmap string val) (s : store) (r : gmap string val) : Prop :=
  clean output s ∧ is_Some (written s !! Fresh 0) ∧
  ∀ k, match contents s (Fresh 0) !! k, r !! k with
       | Some c, Some v => denotes output c v ∧ vsize v ≤ vsize (VObj output)
       | None, None => True
       | _, _ => False
       end.

Lemma collected_write output s r k c v :
  collected output s r → denotes output c v → vsize v ≤ vsize (VObj output) →
  collected output (write (Fresh 0) k c s) (<[k := v]> r).
Proof.
  intros ((Hs & Hw) & Ho & Hr) Hd Hv. split_and!.
  - split; [done|]. intros path. simpl. by rewrite lookup_insert_ne.
  - simpl. rewrite lookup_insert_eq. eauto.
  - intros k'. unfold contents at 1. simpl. rewrite lookup_insert_eq.
    destruct (decide (k = k')) as [->|]; simplify_map_eq; [done|]. apply Hr.
Qed.

Lemma map_fields_flat output ms s r :
  Forall top_level ms → collected output s r →
  ∃ s', map_fields s (Fresh 0) ms = Some s' ∧
    collected output s' (foldl (λ r mp, match field_of output (MapFrom mp) with
                                        | Some v => <[MapTo_ mp := v]> r
                                        | None => r
                                        end) r ms).
Proof.
  revert s r. induction ms as [|mp ms IH]; intros s r Hms Hc; [by exists s|].
  apply Forall_cons in Hms as [[Hne Hdot] Hms]. cbn [map_fields foldl].
  pose proof Hc as (Hs & _ & _).
  assert (match field_of output (MapFrom mp) with
          | Some w => ∃ c, getNestedField s (At []) (MapFrom mp) = Some c ∧ denotes output c w
          | None => getNestedField s (At []) (MapFrom mp) = None
          end) as Hget.
  { unfold field_of, getNestedField. case_decide; [by eexists|]. by apply walk_denotes. }
  destruct (field_of output (MapFrom mp)) as [w|] eqn:Hw; [|rewrite Hget; by apply IH].
  destruct Hget as (c & -> & Hd). unfold setNestedField. rewrite decide_False by done.
  rewrite split_on_no_sep by done. cbn [set_parts].
  apply IH; [done|]. apply collected_write; [done..|]. by eapply field_of_size.
Qed.

(** A mapping whose targets are fields of the result never panics, leaves the
    node's output as it was, and gives exactly the mapped fields: each is the
    value its source names, the last one winning, and a source that is absent
    or nil adds nothing. *)
Theorem applyFieldMapping_renames output ms :
  ms ≠ [] → Forall top_level ms →
  applyFieldMapping output ms = Some (renamed output ms) ∧
  output_after output ms = Some output.
Proof.
  intros Hne Hms. unfold applyFieldMapping, output_after, renamed.
  destruct ms as [|mp ms]; [done|]. unfold start. cbn [new_map next_loc]. 
  set (s0 := MkStore _ _ _).
  destruct (map_fields_flat output (mp :: ms) s0 ∅ Hms) as (s & Hmap & Hc).
  { split_and!; [split; [done|]|by eexists|].
    - intros path. unfold s0. simpl. by rewrite lookup_insert_ne.
    - intros k. unfold contents, s0. simpl. by rewrite lookup_insert_eq, !lookup_empty. }
  rewrite Hmap. cbn [mbind option_bind]. revert Hc. set (r := foldl _ _ _).
  intros (Hs & _ & Hr).
  assert (∃ f, depth_bound output (mp :: ms) = S f ∧ vsize (VObj output) ≤ f) as (f & -> & Hf).
  { unfold depth_bound. simpl. pose proof (split_on_nonempty "."%char (MapTo_ mp)) as Hsp.
    destruct (split_on _ (MapTo_ mp)) as [|x xs]; [done|]. eexists. split; [|shelve].
    simpl length. rewrite Nat.add_comm. simpl. reflexivity. Unshelve. cbn [vsize]. lia. }
  split.
  - cbn [value_of]. replace (value_of f s <$> _) with (Some <$> r).
    { rewrite sequence_map_Some. done. }
    apply map_eq. intros k. rewrite !lookup_fmap. specialize (Hr k).
    destruct (contents s (Fresh 0) !! k) as [c|], (r !! k) as [v|]; try done.
    simpl. f_equal. symmetry. destruct Hr as [Hd Hv].
    eapply value_of_denotes; [done..|lia].
  - rewrite (value_of_denotes output s _ (Ref (At [])) (VObj output)); [done|done|done|lia].
Qed.

Lemma applyFieldMapping_renames_witness :
  let ms := [mapping "user.name" "who"; mapping "user" "copy"; mapping "gone" "who"] in
  Forall top_level ms ∧
  applyFieldMapping demo_output ms =
    Some {["who" := VStr "ann"; "copy" := VObj {["name" := VStr "ann"; "age" := VInt 3]}]}.
Proof.
  intros ms. assert (Forall top_level ms) as Hms by (repeat constructor; done).
  split; [done|]. rewrite (proj1 (applyFieldMapping_renames demo_output ms ltac:(done) Hms)).
  vm_compute. reflexivity.
Defined.
