(* ===== verification/Convert.v ===== *)
(** * Filling a state struct from a map

    [mapToStateSchema] (pregel/engine.go): a node whose graph has a struct
    schema gets its input as that struct.  Fields are set through reflection,
    whose conversions between numbers, strings, byte and rune slices and
    structurally equal types are modelled here.  A struct type is known by its
    exported fields. *)

From Stdlib Require Import Ascii.
From S2P Require Export Graph JsonText.

(** Converting a float that a [uint64] cannot hold is left to the
    implementation. *)
Class GoUnsigned := { f2u_out_of_range : spec_float → Z }.

Definition amd64_unsigned : GoUnsigned := {| f2u_out_of_range _ := int_bound |}.

Definition uint64_of_float `{GoUnsigned} (f : spec_float) : Z :=
  match f with
  | S754_zero _ | S754_finite _ _ _ =>
      if bool_decide (0 ≤ int_of_float f < 2 ^ 64)%Z then int_of_float f else f2u_out_of_range f
  | _ => f2u_out_of_range f
  end.

(** ** Number kinds *)

(** [Some (signed, bits)]. *)
Definition int_kind (t : gotype) : option (bool * Z) :=
  match t with
  | TInt => Some (true, 64)
  | TNum k => Some (match k with
                    | Int8 => (true, 8) | Int16 => (true, 16) | Int32 => (true, 32)
                    | Int64 => (true, 64) | Uint => (false, 64) | Uint8 => (false, 8)
                    | Uint16 => (false, 16) | Uint32 => (false, 32) | Uint64 => (false, 64)
                    end)
  | _ => None
  end%Z.

(** The low [bits] of an integer, as a signed or unsigned number. *)
Definition truncate (signed : bool) (bits z : Z) : Z :=
  if signed then ((z + 2 ^ (bits - 1)) `mod` 2 ^ bits - 2 ^ (bits - 1))%Z
  else (z `mod` 2 ^ bits)%Z.

Definition int_value (t : gotype) (z : Z) : val :=
  match t with TNum k => VNum k z | _ => VInt z end.

(** [float32(f)] and [float64(f)]. *)
Definition round_to (prec emax : Z) (f : spec_float) : spec_float :=
  match f with S754_finite s m e => binary_round prec emax s m e | _ => f end.

Definition float_value (t : gotype) (f : spec_float) : option val :=
  match t with
  | TFloat32 => Some (VFloat32 (round_to 24 128 f))
  | TFloat64 => Some (VFloat (round_to 53 1024 f))
  | _ => None
  end.

(** ** Runes *)
Definition is_rune (z : Z) : bool :=
  ((0 <=? z) && (z <? 55296) || (57343 <? z) && (z <=? 1114111))%Z.

(** UTF-8; what is no rune becomes U+FFFD. *)
Definition encode_rune (z : Z) : string := if is_rune z then utf8 z else replacement.

Fixpoint bytes_of (s : string) : list Z :=
  match s with String a s' => byte_of a :: bytes_of s' | EmptyString => [] end.

Definition rune_of (bs : list Z) : Z :=
  match bs with
  | [a] => a
  | [a; b] => (a - 192) * 64 + (b - 128)
  | [a; b; c] => (a - 224) * 4096 + (b - 128) * 64 + (c - 128)
  | [a; b; c; d] => (a - 240) * 262144 + (b - 128) * 4096 + (c - 128) * 64 + (d - 128)
  | _ => 65533
  end%Z.

(** [[]rune(s)]; [skip] bytes of the current sequence are left. *)
Fixpoint runes_from (skip : nat) (s : string) : list Z :=
  match s with
  | EmptyString => []
  | String a s' =>
      match skip with
      | S skip' => runes_from skip' s'
      | O => match rune_len s with
             | O => 65533%Z :: runes_from 0 s'
             | S n => rune_of (bytes_of (str_take (S n) s)) :: runes_from n s'
             end
      end
  end.

Definition num_of (v : val) : option Z := match v with VNum _ z => Some z | _ => None end.

(** ** Conversions *)

(** Identical types. *)
Fixpoint gotype_eqb (t u : gotype) {struct t} : bool :=
  match t, u with
  | TAny, TAny | TBool, TBool | TInt, TInt | TFloat32, TFloat32 | TFloat64, TFloat64
  | TString, TString => true
  | TNum Int8, TNum Int8 | TNum Int16, TNum Int16 | TNum Int32, TNum Int32
  | TNum Int64, TNum Int64 | TNum Uint, TNum Uint | TNum Uint8, TNum Uint8
  | TNum Uint16, TNum Uint16 | TNum Uint32, TNum Uint32 | TNum Uint64, TNum Uint64 => true
  | TSlice a, TSlice b | TMap a, TMap b | TPtr a, TPtr b => gotype_eqb a b
  | TStruct n fs, TStruct m gs =>
      bool_decide (n = m) &&
      (fix go (fs gs : list (string * gotype)) : bool :=
         match fs, gs with
         | [], [] => true
         | (k, a) :: fs', (l, b) :: gs' => bool_decide (k = l) && gotype_eqb a b && go fs' gs'
         | _, _ => false
         end) fs gs
  | TOther n, TOther m => bool_decide (n = m)
  | _, _ => false
  end.

(** [Type.AssignableTo] a field's type. *)
Definition assignable (v : val) (t : gotype) : bool :=
  match t, typeof v with
  | TAny, _ => true
  | _, Some u => gotype_eqb u t
  | _, None => false
  end.

Definition rename_struct (v : val) (t : gotype) : option val :=
  match v, t with
  | VStruct _ fs, TStruct n gs =>
      if gotype_eqb (TStruct n ((λ f, f.1) <$> fs)) t then Some (VStruct n fs) else None
  | VPtr (VStruct _ fs), TPtr (TStruct n gs) =>
      if gotype_eqb (TStruct n ((λ f, f.1) <$> fs)) (TStruct n gs)
      then Some (VPtr (VStruct n fs)) else None
  | _, _ => None
  end.

Section convert.
Context `{F : GoFloat} `{U : GoUnsigned}.

(** Integers: to integers by truncation, to floats (through [float64]), to the
    UTF-8 text of a rune. *)
Definition convert_int (z : Z) (t : gotype) : option val :=
  match int_kind t with
  | Some (signed, bits) => Some (int_value t (truncate signed bits z))
  | None =>
      match t with
      | TString => Some (VStr (encode_rune z))
      | _ => float_value t (float_of_int z)
      end
  end.

Definition convert_float (f : spec_float) (t : gotype) : option val :=
  match int_kind t with
  | Some (signed, bits) =>
      let z := if signed then int64_of_float f else uint64_of_float f in
      Some (int_value t (truncate signed bits z))
  | None => float_value t (round_to 53 1024 f)
  end.

(** [Value.Convert], or [None] when the type is not [ConvertibleTo]. *)
Definition convert (v : val) (t : gotype) : option val :=
  match v with
  | VInt z | VNum _ z => convert_int z t
  | VFloat f => convert_float f t
  | VFloat32 f => match t with TFloat32 => Some v | _ => convert_float f t end
  | VStr s =>
      match t with
      | TSlice (TNum Uint8) => Some (VBytes s)
      | TSlice (TNum Int32) => Some (VSlice (TNum Int32) (VNum Int32 <$> runes_from 0 s))
      | _ => None
      end
  | VBytes s => match t with TString => Some (VStr s) | _ => None end
  | VSlice (TNum Int32) l =>
      match t with
      | TString => Some (VStr (foldr (λ z s, encode_rune z +:+ s) "" (omap num_of l)))
      | _ => None
      end
  | VStruct _ _ | VPtr (VStruct _ _) => rename_struct v t
  | _ => None
  end.

(** The value a field gets from the map: [None] when reflection panics on the
    nil value. *)
Definition field_value (f : StructField) (inputMap : gmap string val) : option val :=
  match inputMap !! SFName f with
  | None => Some (zero_of (SFType f))
  | Some VNil => None
  | Some v => Some (if assignable v (SFType f) then v
                    else default (zero_of (SFType f)) (convert v (SFType f)))
  end.

Fixpoint fill_fields (fields : list StructField) (inputMap : gmap string val)
  : option (list (string * gotype * val)) :=
  match fields with
  | [] => Some []
  | f :: fields' =>
      if SFExported f then
        match field_value f inputMap with
        | None => None
        | Some v => (λ l, (SFName f, SFType f, v) :: l) <$> fill_fields fields' inputMap
        end
      else fill_fields fields' inputMap
  end.

(** [mapToStateSchema]; [None]: a panic. *)
Definition mapToStateSchema (s : schema) (input : val) : option val :=
  match input with
  | VNil => Some VNil
  | _ =>
      match as_map input with
      | None => Some input
      | Some inputMap =>
          match s with
          | SStruct isPtr name fields =>
              (λ fs, if isPtr : bool then VPtr (VStruct name fs) else VStruct name fs)
                <$> fill_fields fields inputMap
          | _ => Some input
          end
      end
  end.
End convert.

Example convert_examples :
  convert (F := amd64) (U := amd64_unsigned) (VInt 300) (TNum Uint8) = Some (VNum Uint8 44) ∧
  convert (F := amd64) (U := amd64_unsigned) (VFloat (float_of_int 7)) TInt = Some (VInt 7) ∧
  convert (F := amd64) (U := amd64_unsigned) (VInt 8364) TString = Some (VStr "€") ∧
  convert (F := amd64) (U := amd64_unsigned) (VStr "a€") (TSlice (TNum Int32)) =
    Some (VSlice (TNum Int32) [VNum Int32 97; VNum Int32 8364]) ∧
  convert (F := amd64) (U := amd64_unsigned) (VStr "7") TInt = None.
Proof. by vm_compute. Qed.
