(* ===== verification/Writes.v ===== *)
(** * Input, writes and versions

    The part of pregel/engine.go between the nodes and the channels: [toMap],
    [mergeStates], [applyInput], [readTaskInput],
    [applyWrites] with its version tracking, [buildOutput], and the
    serialisation of the completed tasks.  The registry and the version maps
    are state; a loop over a Go map takes its order as an argument. *)

From Stdlib Require Import Ascii.
From S2P Require Export Routing FieldMapping Convert Checkpoint.

(** ** Values and states *)

(** [toMap].  The fields of a [reflect.Type] are not exported. *)
Definition toMap (v : val) : res (gmap string val) :=
  match v with
  | VNil => Err (Errorf "nil value")
  | VRType _ => Ok ∅
  | _ =>
      match as_map v with
      | Some m => Ok m
      | None =>
          match (match v with VPtr x => x | _ => v end) with
          | VMap _ m => Ok m
          | VTypedNil (TMap _) => Ok ∅
          | VStruct _ fs => Ok (foldl (λ m f, <[f.1.1 := f.2]> m) ∅ fs)
          | _ => Ok {[Root := v]}
          end
      end
  end.

Definition mergeStates (existing next : val) : val :=
  match existing, next with
  | VNil, _ => next
  | _, VNil => existing
  | _, _ => match as_map existing, as_map next with
            | Some a, Some b => VObj (merge_maps a b)
            | _, _ => next
            end
  end.

(** [serializeStringSet]: the sorted names, separated by NUL; [deserializeStringSet]
    returns a nil map for the empty string ([None]). *)
Definition nul : ascii := ascii_of_nat 0.

Definition serializeStringSet (ord : list string) : string :=
  match ord with
  | [] => ""
  | _ => join_with (String nul "") (sort_strings ord)
  end.

Definition deserializeStringSet (encoded : string) : option (gset string) :=
  if decide (encoded = "") then None else Some (list_to_set (split_on nul encoded)).

(** ** The engine's view of versions *)
Record versions : Type := MkVersions {
  currentCheckpoint : option CP.t;
  channelVersions : gmap string Z;
  versionsSeen : gmap string (gmap string Z)
}.

Definition no_versions : versions := MkVersions None ∅ ∅.

Definition channel_version (v : versions) (channel : string) : Z :=
  default 0%Z (channelVersions v !! channel).

Definition markSeen (node channel : string) (v : versions) : versions :=
  MkVersions (CP.MarkSeen node channel <$> currentCheckpoint v) (channelVersions v)
    (<[node := <[channel := channel_version v channel]> (default ∅ (versionsSeen v !! node))]>
       (versionsSeen v)).

Definition hasSeen (node channel : string) (v : versions) : bool :=
  match versionsSeen v !! node with
  | Some vs => match vs !! channel with
               | Some version => bool_decide (version = channel_version v channel)
               | None => false
               end
  | None => false
  end.

(** The three steps on a channel that accepted an update. *)
Definition bump (channel : string) (v : versions) : versions :=
  MkVersions (CP.IncrementChannel channel <$> currentCheckpoint v)
    (<[channel := int_add (channel_version v channel) 1]> (channelVersions v)) (versionsSeen v).

Definition add_pending (pw : PendingWrite) (v : versions) : versions :=
  MkVersions (CP.AddPendingWrite (PWChannel pw) (PWValue pw) (PWOverwrite pw) (PWNode pw)
                <$> currentCheckpoint v) (channelVersions v) (versionsSeen v).

(** ** Input *)

(** The first byte of a key in the other case. *)
Definition shift_first (lo hi : nat) (f : nat → nat) (key : string) : option string :=
  match key with
  | String a s =>
      let n := nat_of_ascii a in
      if decide (lo ≤ n ≤ hi) then Some (String (ascii_of_nat (f n)) s) else None
  | EmptyString => None
  end.

Definition upper_first : string → option string := shift_first 97 122 (λ n, n - 32).
Definition lower_first : string → option string := shift_first 65 90 (λ n, n + 32).

Definition registered (reg : registry) (name : string) : Prop := is_Some (reg !! name).

Definition caseFoldKey (reg : registry) (key : string) : string :=
  match upper_first key with
  | Some candidate =>
      if decide (registered reg candidate) then candidate else ""
  | None =>
      match lower_first key with
      | Some candidate => if decide (registered reg candidate) then candidate else ""
      | None => ""
      end
  end.

(** The first loop of [applyInput], over the keys of the input map in the order
    [ord]: an unknown key is renamed or gets a channel.  A key the loop adds is
    registered, so it does not matter whether it is visited too. *)
Definition fix_keys (ord : list (string * val)) (reg : registry) (inputMap : gmap string val)
  : registry * gmap string val :=
  foldl (λ acc kv,
    let '(reg, inputMap) := acc in
    if decide (registered reg kv.1) then acc
    else
      let guessed := caseFoldKey reg kv.1 in
      if decide (guessed ≠ "") then (reg, <[guessed := kv.2]> (delete kv.1 inputMap))
      else (Reg.Register kv.1 (NewLastValue kv.2) reg, inputMap)) (reg, inputMap) ord.

Definition input_writes (inputMap : gmap string val) : gmap string (list val) :=
  (λ value, [value]) <$> inputMap.

(** [applyInput].  The input map is changed in place when the input is a
    [map[string]any], so the input is returned too. *)
Definition applyInput (ord : gmap string val → list (string * val))
    (ordw : gmap string (list val) → list (string * list val)) (reg : registry) (input : val)
  : option error * registry * val :=
  match toMap input with
  | Err e => (Some e, reg, input)
  | Ok inputMap =>
      let '(reg, inputMap') := fix_keys (ord inputMap) reg inputMap in
      let input' := match input with VObj _ => VObj inputMap' | _ => input end in
      if decide (inputMap' = ∅) then (None, reg, input')
      else
        let '(e, reg) := Reg.UpdateChannels (ordw (input_writes inputMap')) reg in
        (e, reg, input')
  end.

(** ** Reading a task's input *)

(** One iteration of [readTaskInput]. *)
Definition read_channel (name : string) (reg : registry) (values : gmap string val)
  : res (gmap string val) * registry :=
  match reg !! name with
  | None => (Ok values, reg)
  | Some c =>
      let '(v, c') := Channels.Get c in
      let reg' := <[name := c']> reg in
      match v with
      | Ok v => (Ok (<[name := v]> values), reg')
      | Err e => if IsEmptyChannelError e then (Ok values, reg') else (Err e, reg')
      end
  end.

Fixpoint read_channels (names : list string) (reg : registry) (values : gmap string val)
  : res (gmap string val) * registry :=
  match names with
  | [] => (Ok values, reg)
  | name :: names' =>
      match read_channel name reg values with
      | (Ok values, reg) => read_channels names' reg values
      | (Err e, reg) => (Err e, reg)
      end
  end.

Definition readTaskInput (t : Task) (reg : registry) : res val * registry :=
  match read_channels (TChannels t) reg ∅ with
  | (Ok values, reg) => (Ok (VObj values), reg)
  | (Err e, reg) => (Err e, reg)
  end.

(** ** Applying the outputs of a step *)

(** [sort.Slice] by name; the tasks of a step have different names. *)
Definition by_name (a b : TaskResult) : Prop := String.le (RName a) (RName b).

#[global] Instance by_name_dec : RelDecision by_name.
Proof. intros a b. unfold by_name. apply _. Defined.
#[global] Instance by_name_trans : Transitive by_name.
Proof. intros a b c. unfold by_name. apply transitivity. Qed.
#[global] Instance by_name_total : Total by_name.
Proof. intros a b. unfold by_name. apply total, _. Qed.

Definition sort_results (results : list TaskResult) : list TaskResult := merge_sort by_name results.

Abbreviation writes := (gmap string (list val)).
Abbreviation pending := (gmap string PendingWrite).

(** The values a node writes: its output as a map, mapped field by field.
    [None]: the mapping panics. *)
Definition output_map (g : stateGraph) (r : TaskResult) : option (res (gmap string val)) :=
  match toMap (ROutput r) with
  | Err e => Some (Err (Wrapf "failed to convert output to map" e))
  | Ok m =>
      match getNode g (RName r) with
      | Some node => match FieldMappings node with
                     | [] => Some (Ok m)
                     | ms => Ok <$> applyFieldMapping m ms
                     end
      | None => Some (Ok m)
      end
  end.

(** One entry of an output: an [Overwrite] is unwrapped, and only remembered
    in the pending write. *)
Definition add_write (node key : string) (value : val) (acc : writes * pending)
  : writes * pending :=
  if is_nil value then acc
  else
    let '(value, overwrite) := match as_overwrite value with
                               | Some x => (x, true)
                               | None => (value, false)
                               end in
    (<[key := default [] (acc.1 !! key) ++ [value]]> acc.1,
     <[key := {| PWChannel := key; PWValue := value; PWOverwrite := overwrite; PWNode := node;
                 PWTimestamp := zero_time; PWTaskID := "" |}]> acc.2).

(** The first loop: over the results, and over the entries of each in the
    order [ord]. *)
Fixpoint collect_writes (g : stateGraph) (ord : gmap string val → list (string * val))
    (results : list TaskResult) (acc : writes * pending) : option (res (writes * pending)) :=
  match results with
  | [] => Some (Ok acc)
  | r :: results' =>
      match RErr r, ROutput r with
      | Some _, _ | None, VNil => collect_writes g ord results' acc
      | None, _ =>
          match output_map g r with
          | None => None
          | Some (Err e) => Some (Err e)
          | Some (Ok m) =>
              collect_writes g ord results'
                (foldl (λ acc kv, add_write (RName r) kv.1 kv.2 acc) acc (ord m))
          end
      end
  end.

(** Nil values are dropped (an [Overwrite] may hold one); of several values
    only an aggregate or a reducer takes more than the last. *)
Definition filter_values (c : channel) (values : list val) : list val :=
  let filtered := filter (λ v, is_nil v = false) values in
  if is_binop c || is_reducer c then filtered
  else match last filtered with
       | Some v => [v]
       | None => []
       end.

(** One iteration of the loop over the written channels. *)
Definition write_channel (channelName : string) (values : list val)
    (st : registry * versions * gset string) : option error * (registry * versions * gset string) :=
  let '(reg, vs, updatedChannels) := st in
  let c := default (NewLastValue VNil) (reg !! channelName) in
  let '(u, c') := Update (filter_values c values) c in
  match u with
  | Err e =>
      (Some (Wrapf ("failed to update channel " +:+ channelName) e),
       (<[channelName := c']> reg, vs, updatedChannels))
  | Ok updated =>
      if updated && IsAvailable c' then
        let vs' := bump channelName vs in
        let c'' := default c' (set_version (channel_version vs' channelName) c') in
        (None, (<[channelName := c'']> reg, vs', {[channelName]} ∪ updatedChannels))
      else (None, (<[channelName := c']> reg, vs, updatedChannels))
  end.

Fixpoint write_channels (ord : list (string * list val)) (st : registry * versions * gset string)
  : option error * (registry * versions * gset string) :=
  match ord with
  | [] => (None, st)
  | (name, values) :: ord' =>
      match write_channel name values st with
      | (None, st) => write_channels ord' st
      | (Some e, st) => (Some e, st)
      end
  end.

(** The last loop: the names compared with the triggers are those of channels,
    although [markSeen] expects a node. *)
Definition mark_all (written : list string) (triggers updatedChannels : gset string)
    (vs : versions) : versions :=
  foldl (λ vs resultName,
           if decide (resultName ∈ triggers)
           then foldl (λ vs channelName, markSeen resultName channelName vs) vs
                      (elements updatedChannels)
           else vs) vs written.

Record write_loops : Type := {
  range_output : gmap string val → list (string * val);
  range_writes : writes → list (string * list val);
  range_pending : pending → list (string * PendingWrite)
}.

(** [applyWrites].  [None]: a field mapping panics. *)
Definition applyWrites (W : write_loops) (g : stateGraph) (results : list TaskResult)
    (triggers : gset string) (reg : registry) (vs : versions)
  : option (res (gset string) * registry * versions) :=
  match collect_writes g (range_output W) (sort_results results) (∅, ∅) with
  | None => None
  | Some (Err e) => Some (Err e, reg, vs)
  | Some (Ok (writesByChannel, pendingWrites)) =>
      let ordw := range_writes W writesByChannel in
      match write_channels ordw (reg, vs, ∅) with
      | (Some e, (reg, vs, _)) => Some (Err e, reg, vs)
      | (None, (reg, vs, updatedChannels)) =>
          let vs := foldl (λ vs kpw, add_pending kpw.2 vs) vs (range_pending W pendingWrites) in
          let vs := mark_all ordw.*1 triggers updatedChannels vs in
          Some (Ok updatedChannels, reg, vs)
      end
  end.

(** [buildOutput]: the values of the channels, or the last state if they have
    none. *)
Definition buildOutput (ord : list (string * channel)) (lastState : val) (reg : registry)
  : val * registry :=
  match Reg.GetValues ord ∅ reg with
  | (Err _, reg) => (lastState, reg)
  | (Ok values, reg) => (if decide (values = ∅) then lastState else VObj values, reg)
  end.
