(* ===== verification/WritesProps.v ===== *)
(** * Applying writes: what a step leaves in the channels

    [applyWrites] does not depend on the order of its loops over maps, nor on
    the order in which the results of the tasks arrive. *)

From S2P Require Export Writes.
From S2P Require Import RegistryProps.

(** ** The order of the results *)
Lemma sort_results_perm l : sort_results l ≡ₚ l.
Proof. apply merge_sort_Permutation. Qed.

Lemma names_sorted l : NoDup (RName <$> l) → RName <$> sort_results l = sort_strings (RName <$> l).
Proof.
  intros Hnd. apply (StronglySorted_unique String.le).
  - pose proof (StronglySorted_merge_sort by_name l) as H. fold (sort_results l) in H.
    induction H as [|a k Hk IH Ha]; csimpl; constructor; [done|]. by apply Forall_fmap.
  - apply StronglySorted_merge_sort; apply _.
  - unfold sort_strings. rewrite merge_sort_Permutation. by rewrite sort_results_perm.
Qed.

Lemma same_names_eq (l k : list TaskResult) :
  NoDup (RName <$> l) → l ≡ₚ k → RName <$> l = RName <$> k → l = k.
Proof.
  intros Hnd Hp Hn. apply list_eq. intros i.
  assert (∀ a b, a ∈ l → b ∈ l → RName a = RName b → a = b) as Hinj.
  { intros a b [x Ha]%list_elem_of_lookup [y Hb]%list_elem_of_lookup Heq.
    assert (x = y) as ->; [|congruence].
    apply (NoDup_lookup _ _ _ (RName a) Hnd); rewrite list_lookup_fmap, ?Ha, ?Hb; simpl; congruence. }
  assert ((RName <$> l) !! i = (RName <$> k) !! i) as Hi by by rewrite Hn.
  rewrite !list_lookup_fmap in Hi.
  destruct (l !! i) as [a|] eqn:Ha, (k !! i) as [b|] eqn:Hb; try done.
  f_equal. apply Hinj; [by eapply list_elem_of_lookup_2|rewrite Hp; by eapply list_elem_of_lookup_2|].
  by injection Hi.
Qed.

Lemma sort_results_ext l k : NoDup (RName <$> l) → l ≡ₚ k → sort_results l = sort_results k.
Proof.
  intros Hnd Hp. apply same_names_eq.
  - by rewrite sort_results_perm.
  - by rewrite !sort_results_perm.
  - rewrite !names_sorted by (by rewrite <-?Hp). apply sort_strings_ext. by rewrite Hp.
Qed.

(** ** Collecting writes *)
Definition unwrap (v : val) : val * bool :=
  match as_overwrite v with Some x => (x, true) | None => (v, false) end.

(** The entry of a key in one output. *)
Definition entry (m : gmap string val) (k : string) : option val :=
  match m !! k with Some VNil | None => None | Some v => Some v end.

Lemma add_write_nil node k acc : add_write node k VNil acc = acc.
Proof. done. Qed.

Lemma add_write_lookup node k v acc k' :
  is_nil v = false →
  (add_write node k v acc).1 !! k' =
    (if decide (k = k') then Some (default [] (acc.1 !! k) ++ [(unwrap v).1]) else acc.1 !! k') ∧
  (add_write node k v acc).2 !! k' =
    (if decide (k = k')
     then Some {| PWChannel := k; PWValue := (unwrap v).1; PWOverwrite := (unwrap v).2;
                  PWNode := node; PWTimestamp := zero_time; PWTaskID := "" |}
     else acc.2 !! k').
Proof.
  intros Hv. unfold add_write, unwrap. rewrite Hv.
  destruct (as_overwrite v); simpl; case_decide; by simplify_map_eq.
Qed.

Lemma collect_one_lookup node ord acc k :
  NoDup ord.*1 →
  let r := foldl (λ acc kv, add_write node kv.1 kv.2 acc) acc ord in
  r.1 !! k = match entry (list_to_map ord) k with
             | Some v => Some (default [] (acc.1 !! k) ++ [(unwrap v).1])
             | None => acc.1 !! k
             end ∧
  r.2 !! k = match entry (list_to_map ord) k with
             | Some v => Some {| PWChannel := k; PWValue := (unwrap v).1;
                                 PWOverwrite := (unwrap v).2; PWNode := node;
                                 PWTimestamp := zero_time; PWTaskID := "" |}
             | None => acc.2 !! k
             end.
Proof.
  revert acc. induction ord as [|[k' v] ord IH]; intros acc; cbv zeta.
  { intros _. unfold entry. simpl. by rewrite lookup_empty. }
  rewrite fmap_cons. intros [Hn Hnd]%NoDup_cons. cbn [foldl fst snd].
  destruct (IH (add_write node k' v acc) Hnd) as [-> ->]. clear IH. unfold entry. simpl list_to_map.
  destruct (decide (k' = k)) as [->|Hne].
  - rewrite not_elem_of_list_to_map_1 by done. rewrite lookup_insert_eq.
    destruct (is_nil v) eqn:Hv; [by destruct v|].
    destruct (add_write_lookup node k v acc k Hv) as [-> ->].
    rewrite !decide_True by done. destruct v; split; done.
  - rewrite lookup_insert_ne by done.
    destruct (is_nil v) eqn:Hv; [by destruct v|].
    destruct (add_write_lookup node k' v acc k Hv) as [-> ->].
    by rewrite !decide_False by done.
Qed.

Lemma collect_one_ext node (m : gmap string val) ord ord' acc :
  go_range m ord → go_range m ord' →
  foldl (λ acc kv, add_write node kv.1 kv.2 acc) acc ord =
  foldl (λ acc kv, add_write node kv.1 kv.2 acc) acc ord'.
Proof.
  intros H H'. apply injective_projections; apply map_eq; intros k.
  all: rewrite ?(proj1 (collect_one_lookup _ _ _ _ (go_range_NoDup _ _ H))),
       ?(proj1 (collect_one_lookup _ _ _ _ (go_range_NoDup _ _ H'))),
       ?(proj2 (collect_one_lookup _ _ _ _ (go_range_NoDup _ _ H))),
       ?(proj2 (collect_one_lookup _ _ _ _ (go_range_NoDup _ _ H'))).
  all: by rewrite (go_range_list_to_map _ _ H), (go_range_list_to_map _ _ H').
Qed.

Record write_loops_ok (W : write_loops) : Prop := {
  output_ok m : go_range m (range_output W m);
  writes_ok m : go_range m (range_writes W m);
  pending_ok m : go_range m (range_pending W m)
}.

Lemma collect_writes_ext g W W' results acc :
  write_loops_ok W → write_loops_ok W' →
  collect_writes g (range_output W) results acc = collect_writes g (range_output W') results acc.
Proof.
  intros HW HW'. revert acc. induction results as [|r results IH]; intros acc; [done|].
  cbn [collect_writes].
  destruct (RErr r); [done|].
  destruct (output_map g r) as [[m|err]|]; [|by destruct (ROutput r)..].
  rewrite (collect_one_ext (RName r) m (range_output W m) (range_output W' m) acc)
    by (apply HW || apply HW').
  by destruct (ROutput r).
Qed.

(** ** Writing to the channels *)

(** What a write makes of its channel, and whether it counts as updated. *)
Definition written_channel (reg : registry) (vs : versions) (k : string) (values : list val)
  : res (channel * bool) :=
  let c := default (NewLastValue VNil) (reg !! k) in
  match Update (filter_values c values) c with
  | (Err e, _) => Err e
  | (Ok updated, c') =>
      if updated && IsAvailable c'
      then Ok (default c' (set_version (int_add (channel_version vs k) 1) c'), true)
      else Ok (c', false)
  end.

Lemma write_channel_eq k values reg vs upd :
  match written_channel reg vs k values with
  | Err e => (write_channel k values (reg, vs, upd)).1 = Some (Wrapf ("failed to update channel " +:+ k) e)
  | Ok (c, b) =>
      write_channel k values (reg, vs, upd) =
        (None, (<[k := c]> reg, if b : bool then bump k vs else vs,
                if b : bool then {[k]} ∪ upd else upd))
  end.
Proof.
  unfold written_channel, write_channel.
  destruct (Update _ _) as [[updated|e] c']; [|done].
  destruct (updated && IsAvailable c'); [|done].
  unfold channel_version at 1. cbn [bump channelVersions]. by rewrite lookup_insert_eq.
Qed.

Lemma write_channels_lookup ord reg vs upd reg' vs' upd' :
  NoDup ord.*1 →
  write_channels ord (reg, vs, upd) = (None, (reg', vs', upd')) →
  versionsSeen vs' = versionsSeen vs ∧
  ∀ k, match (list_to_map ord : writes) !! k with
       | None => reg' !! k = reg !! k ∧ channelVersions vs' !! k = channelVersions vs !! k ∧
                 (k ∈ upd' ↔ k ∈ upd)
       | Some values => ∃ c b, written_channel reg vs k values = Ok (c, b) ∧ reg' !! k = Some c ∧
           channelVersions vs' !! k =
             (if b then Some (int_add (channel_version vs k) 1) else channelVersions vs !! k) ∧
           (k ∈ upd' ↔ b = true ∨ k ∈ upd)
       end.
Proof.
  revert reg vs upd. induction ord as [|[n values] ord IH]; intros reg vs upd.
  { intros _ [= <- <- <-]. split; [done|]. intros k. simpl. by rewrite lookup_empty. }
  rewrite fmap_cons. intros [Hn Hnd]%NoDup_cons. cbn [write_channels fst].
  pose proof (write_channel_eq n values reg vs upd) as Hw.
  destruct (written_channel reg vs n values) as [[c b]|e] eqn:Hc;
    [|by destruct (write_channel _ _ _) as [[?|] ?]].
  rewrite Hw. intros Hrest. destruct (IH _ _ _ Hnd Hrest) as [Hseen Hk]. split.
  { rewrite Hseen. by destruct b. }
  intros k. specialize (Hk k). simpl list_to_map. destruct (decide (n = k)) as [->|Hne].
  - rewrite not_elem_of_list_to_map_1 in Hk by done. destruct Hk as (Hr & Hv & Hu).
    rewrite lookup_insert_eq. exists c, b. split; [done|]. rewrite Hr, Hv, lookup_insert_eq.
    destruct b; cbn [bump channelVersions]; rewrite ?lookup_insert_eq; set_solver.
  - rewrite lookup_insert_ne by done.
    destruct (list_to_map ord !! k) as [vals|].
    + destruct Hk as (c' & b' & Hw' & Hr & Hv & Hu). exists c', b'.
      assert (channel_version (if b then bump n vs else vs) k = channel_version vs k) as Hver.
      { destruct b; [|done]. unfold channel_version, bump. simpl. by rewrite lookup_insert_ne. }
      rewrite Hver in *. split_and!; [|done| |].
      * unfold written_channel in *. rewrite lookup_insert_ne in Hw' by done. by rewrite Hver in Hw'.
      * rewrite Hv. destruct b', b; cbn [bump channelVersions]; by rewrite ?lookup_insert_ne.
      * rewrite Hu. destruct b; set_solver.
    + destruct Hk as (Hr & Hv & Hu). rewrite lookup_insert_ne in Hr by done.
      split_and!; [done| |]; [rewrite Hv|rewrite Hu]; destruct b; cbn [bump channelVersions];
        rewrite ?lookup_insert_ne by done; set_solver.
Qed.

Lemma write_channels_ok ord reg vs upd :
  NoDup ord.*1 →
  (write_channels ord (reg, vs, upd)).1 = None ↔
  ∀ k values, (k, values) ∈ ord → is_ok (written_channel reg vs k values) = true.
Proof.
  revert reg vs upd. induction ord as [|[n values] ord IH]; intros reg vs upd Hnd.
  { split; [set_solver|done]. }
  rewrite fmap_cons in Hnd. apply NoDup_cons in Hnd as [Hn Hnd]. cbn [write_channels].
  pose proof (write_channel_eq n values reg vs upd) as Hw.
  destruct (written_channel reg vs n values) as [[c b]|e] eqn:Hc.
  - rewrite Hw, IH by done.
    assert (∀ k vals, (k, vals) ∈ ord →
      is_ok (written_channel (<[n := c]> reg) (if b then bump n vs else vs) k vals) =
      is_ok (written_channel reg vs k vals)) as Hsame.
    { intros k vals Hin. assert (n ≠ k) as Hne.
      { intros ->. apply Hn. by apply (list_elem_of_fmap_2 fst) in Hin. }
      unfold written_channel. rewrite lookup_insert_ne by done.
      destruct (Update _ _) as [[u|e] c']; [|done]. by destruct (u && IsAvailable c'). }
    split.
    + intros H k vals [[= -> ->]|Hin]%elem_of_cons; [by rewrite Hc|]. rewrite <-Hsame by done. by apply H.
    + intros H k vals Hin. rewrite Hsame by done. apply H. by right.
  - split.
    + by destruct (write_channel _ _ _) as [[?|] ?].
    + intros H. specialize (H n values ltac:(left)). by rewrite Hc in H.
Qed.

(** ** Marking channels as seen *)
Definition see_all (vs : versions) (chans : list string) (m : gmap string Z) : gmap string Z :=
  foldl (λ m c, <[c := channel_version vs c]> m) m chans.

Lemma mark_one_lookup node chans vs :
  let vs' := foldl (λ vs c, markSeen node c vs) vs chans in
  channelVersions vs' = channelVersions vs ∧
  ∀ n, versionsSeen vs' !! n =
    if decide (n = node ∧ chans ≠ [])
    then Some (see_all vs chans (default ∅ (versionsSeen vs !! node)))
    else versionsSeen vs !! n.
Proof.
  revert vs. induction chans as [|c chans IH]; intros vs; cbv zeta; [split; [done|]|].
  { intros n. by rewrite decide_False by tauto. }
  cbn [foldl]. destruct (IH (markSeen node c vs)) as [Hv Hs]. rewrite Hv. split; [done|].
  intros n. rewrite Hs. cbn [markSeen versionsSeen]. rewrite lookup_insert_eq. simpl default.
  destruct (decide (n = node)) as [->|Hne].
  - rewrite (decide_True (P := node = node ∧ c :: chans ≠ [])) by done. case_decide as Hc; [done|].
    destruct chans; [|by destruct Hc]. by rewrite lookup_insert_eq.
  - rewrite !decide_False by tauto. by rewrite lookup_insert_ne.
Qed.

Lemma mark_all_lookup names trig upd vs :
  NoDup names →
  let vs' := mark_all names trig upd vs in
  channelVersions vs' = channelVersions vs ∧
  ∀ n, versionsSeen vs' !! n =
    if decide (n ∈ names ∧ n ∈ trig ∧ elements upd ≠ [])
    then Some (see_all vs (elements upd) (default ∅ (versionsSeen vs !! n)))
    else versionsSeen vs !! n.
Proof.
  unfold mark_all. revert vs. induction names as [|r names IH]; intros vs; cbv zeta.
  { intros _. split; [done|]. intros n. by rewrite decide_False by set_solver. }
  intros [Hr Hnd]%NoDup_cons. cbn [foldl].
  set (vs1 := if decide (r ∈ trig) then _ else vs).
  assert (channelVersions vs1 = channelVersions vs ∧ ∀ n, versionsSeen vs1 !! n =
    if decide (n = r ∧ r ∈ trig ∧ elements upd ≠ [])
    then Some (see_all vs (elements upd) (default ∅ (versionsSeen vs !! r)))
    else versionsSeen vs !! n) as [Hv1 Hs1].
  { unfold vs1. destruct (decide (r ∈ trig)) as [Ht|Ht].
    - destruct (mark_one_lookup r (elements upd) vs) as [Hv Hs]. split; [done|].
      intros n. rewrite Hs. apply decide_ext. tauto.
    - split; [done|]. intros n. by rewrite decide_False by tauto. }
  destruct (IH vs1 Hnd) as [Hv Hs]. rewrite Hv, Hv1. split; [done|]. intros n. rewrite Hs, Hs1.
  assert (∀ m, see_all vs1 (elements upd) m = see_all vs (elements upd) m) as Hext.
  { intros m. apply foldl_ext. intros m' c. unfold channel_version. by rewrite Hv1. }
  rewrite Hext. destruct (decide (n = r)) as [->|Hne].
  - rewrite (decide_False (P := r ∈ names ∧ _)) by tauto. apply decide_ext. set_solver.
  - rewrite (decide_False (P := n = r ∧ _)) by tauto. apply decide_ext. set_solver.
Qed.

Lemma add_pendings_fields pws vs :
  let vs' := foldl (λ vs (kpw : string * PendingWrite), add_pending kpw.2 vs) vs pws in
  channelVersions vs' = channelVersions vs ∧ versionsSeen vs' = versionsSeen vs.
Proof.
  revert vs. induction pws as [|pw pws IH]; intros vs; [done|]. cbv zeta. cbn [foldl].
  destruct (IH (add_pending pw.2 vs)) as [-> ->]. done.
Qed.

(** ** The order does not matter *)
Lemma write_channels_ext (m : writes) ord ord' reg vs upd reg1 vs1 upd1 :
  go_range m ord → go_range m ord' →
  write_channels ord (reg, vs, upd) = (None, (reg1, vs1, upd1)) →
  ∃ vs2, write_channels ord' (reg, vs, upd) = (None, (reg1, vs2, upd1)) ∧
    channelVersions vs2 = channelVersions vs1 ∧ versionsSeen vs2 = versionsSeen vs1.
Proof.
  intros Hr Hr' Hw.
  pose proof (go_range_NoDup _ _ Hr) as Hnd. pose proof (go_range_NoDup _ _ Hr') as Hnd'.
  assert ((write_channels ord' (reg, vs, upd)).1 = None) as Hok.
  { apply write_channels_ok; [done|]. intros k values Hin.
    apply (proj1 (write_channels_ok ord reg vs upd Hnd)); [by rewrite Hw|].
    apply (go_range_elem _ _ _ _ Hr). by apply (go_range_elem _ _ _ _ Hr'). }
  destruct (write_channels ord' (reg, vs, upd)) as [err [[reg2 vs2] upd2]] eqn:Hw'.
  simpl in Hok. subst err.
  destruct (write_channels_lookup _ _ _ _ _ _ _ Hnd Hw) as [Hs1 H1].
  destruct (write_channels_lookup _ _ _ _ _ _ _ Hnd' Hw') as [Hs2 H2].
  rewrite (go_range_list_to_map _ _ Hr) in H1. rewrite (go_range_list_to_map _ _ Hr') in H2.
  assert (∀ k, reg2 !! k = reg1 !! k ∧ channelVersions vs2 !! k = channelVersions vs1 !! k ∧
               (k ∈ upd2 ↔ k ∈ upd1)) as Heq.
  { intros k. specialize (H1 k). specialize (H2 k). destruct (m !! k) as [values|].
    - destruct H1 as (c & b & Hc & -> & -> & ->), H2 as (c' & b' & Hc' & -> & -> & ->).
      rewrite Hc in Hc'. by injection Hc' as <- <-.
    - destruct H1 as (-> & -> & ->), H2 as (-> & -> & ->). done. }
  assert (reg2 = reg1) as -> by (apply map_eq; intros k; apply Heq).
  assert (upd2 = upd1) as -> by (apply set_eq; intros k; apply Heq).
  exists vs2. split_and!; [done| |congruence]. apply map_eq. intros k. apply Heq.
Qed.

(** C3: applying the writes of a step is deterministic: whatever the order in
    which the tasks finished and the order of the loops over maps, if one order
    succeeds then every order does, and leaves the same channels, versions and
    set of updated channels. *)
Theorem applyWrites_deterministic W W' g results results' triggers reg vs upd reg1 vs1 :
  write_loops_ok W → write_loops_ok W' →
  NoDup (RName <$> results) → results ≡ₚ results' →
  applyWrites W g results triggers reg vs = Some (Ok upd, reg1, vs1) →
  ∃ vs2, applyWrites W' g results' triggers reg vs = Some (Ok upd, reg1, vs2) ∧
    channelVersions vs2 = channelVersions vs1 ∧ versionsSeen vs2 = versionsSeen vs1.
Proof.
  intros HW HW' Hnd Hp. unfold applyWrites.
  rewrite <-(sort_results_ext _ _ Hnd Hp), <-(collect_writes_ext g W W' _ _ HW HW').
  destruct (collect_writes _ _ _ _) as [[[wbc pws]|err]|]; [|done..].
  pose proof (writes_ok W HW wbc) as Hr. pose proof (writes_ok W' HW' wbc) as Hr'.
  destruct (write_channels (range_writes W wbc) _) as [[err|] [[r v] u]] eqn:Hw; [done|].
  intros [= -> -> <-].
  destruct (write_channels_ext _ _ _ _ _ _ _ _ _ Hr Hr' Hw) as (v' & -> & Hcv & Hvs).
  eexists. split; [reflexivity|].
  destruct (add_pendings_fields (range_pending W pws) v) as [Ha1 Ha2].
  destruct (add_pendings_fields (range_pending W' pws) v') as [Hb1 Hb2].
  set (va := foldl _ v _) in *. set (vb := foldl _ v' _) in *.
  destruct (mark_all_lookup (range_writes W wbc).*1 triggers upd va) as [Hc1 Hs1];
    [by eapply go_range_NoDup|].
  destruct (mark_all_lookup (range_writes W' wbc).*1 triggers upd vb) as [Hc2 Hs2];
    [by eapply go_range_NoDup|].
  split; [congruence|]. apply map_eq. intros n. rewrite Hs1, Hs2.
  assert ((range_writes W wbc).*1 ≡ₚ (range_writes W' wbc).*1) as Hnames
    by (rewrite Hr, Hr'; done).
  assert (∀ m, see_all vb (elements upd) m = see_all va (elements upd) m) as Hext.
  { intros m. apply foldl_ext. intros m' c. unfold channel_version. congruence. }
  rewrite Hext. replace (versionsSeen vb) with (versionsSeen va) by congruence.
  apply decide_ext. by rewrite Hnames.
Qed.

(** ** What the channels hold afterwards *)

(** The value a result writes to a channel. *)
Definition node_write (g : stateGraph) (k : string) (r : TaskResult) : option val :=
  match RErr r, ROutput r, output_map g r with
  | Some _, _, _ | _, VNil, _ => None
  | None, _, Some (Ok m) => fst ∘ unwrap <$> entry m k
  | _, _, _ => None
  end.

Lemma node_write_none g k r : RErr r ≠ None ∨ ROutput r = VNil → node_write g k r = None.
Proof. unfold node_write. by intros [?| ->]; destruct (RErr r). Qed.

Lemma node_write_some g k r m :
  RErr r = None → ROutput r ≠ VNil → output_map g r = Some (Ok m) →
  node_write g k r = fst ∘ unwrap <$> entry m k.
Proof. unfold node_write. intros -> Ho ->. by destruct (ROutput r). Qed.

Lemma collect_writes_lookup g W results acc wbc pws k :
  write_loops_ok W →
  collect_writes g (range_output W) results acc = Some (Ok (wbc, pws)) →
  wbc !! k = match omap (node_write g k) results with
             | [] => acc.1 !! k
             | values => Some (default [] (acc.1 !! k) ++ values)
             end.
Proof.
  intros HW. revert acc. induction results as [|r results IH]; intros acc; [by intros [= ->]|].
  cbn [collect_writes]. destruct (RErr r) as [err|] eqn:He.
  { intros H. rewrite (IH _ H). simpl. by rewrite node_write_none by (left; congruence). }
  assert (ROutput r = VNil ∨ ROutput r ≠ VNil) as [Ho|Ho] by (destruct (ROutput r); auto).
  { rewrite Ho. intros H. rewrite (IH _ H). simpl. by rewrite node_write_none by by right. }
  destruct (output_map g r) as [[m|err]|] eqn:Hm; [|by destruct (ROutput r)..].
  assert (∀ A (a b : A), match ROutput r with VNil => a | _ => b end = b) as Hmatch.
  { intros A a b. by destruct (ROutput r). }
  rewrite Hmatch. intros H. rewrite (IH _ H). simpl.
  rewrite (node_write_some g k r m He Ho Hm).
  destruct (collect_one_lookup (RName r) (range_output W m) acc k) as [-> _].
  { eapply go_range_NoDup, (output_ok W HW). }
  rewrite (go_range_list_to_map _ _ (output_ok W HW m)).
  destruct (entry m k) as [v|]; [|done]. simpl.
    change (list_omap _ _ (node_write g k) results) with (omap (node_write g k) results).
    destruct (omap (node_write g k) results) as [|v2 vs2]; [done|]. by rewrite <-app_assoc.
Qed.

(** A channel that keeps the last value. *)
Definition plain_channel (reg : registry) (k : string) : Prop :=
  match reg !! k with
  | None => True
  | Some (Ch (LLastValue _) []) => True
  | _ => False
  end.

(** The values written to a channel, in the order of the nodes' names. *)
Definition written_values (g : stateGraph) (results : list TaskResult) (k : string) : list val :=
  filter (λ v, is_nil v = false) (omap (node_write g k) (sort_results results)).

Lemma applyWrites_channels W g results triggers reg vs upd reg' vs' :
  write_loops_ok W →
  applyWrites W g results triggers reg vs = Some (Ok upd, reg', vs') →
  ∀ k, match omap (node_write g k) (sort_results results) with
       | [] => reg' !! k = reg !! k ∧ k ∉ upd
       | values => ∃ c b, written_channel reg vs k values = Ok (c, b) ∧ reg' !! k = Some c ∧
                          (k ∈ upd ↔ b = true)
       end.
Proof.
  intros HW. unfold applyWrites.
  destruct (collect_writes _ _ _ _) as [[[wbc pws]|err]|] eqn:Hcol; [|done..].
  destruct (write_channels _ _) as [[err|] [[r v] u]] eqn:Hw; [done|].
  intros [= -> -> _] k.
  pose proof (writes_ok W HW wbc) as Hr.
  destruct (write_channels_lookup _ _ _ _ _ _ _ (go_range_NoDup _ _ Hr) Hw) as [_ Hk].
  specialize (Hk k). rewrite (go_range_list_to_map _ _ Hr) in Hk.
  rewrite (collect_writes_lookup _ _ _ _ _ _ k HW Hcol) in Hk. cbn [fst] in Hk.
  rewrite lookup_empty in Hk. destruct (omap (node_write g k) _) as [|x l].
  - destruct Hk as (? & _ & ?). set_solver.
  - destruct Hk as (c & b & ? & ? & _ & ?). exists c, b. set_solver.
Qed.

Lemma read_last_value b v rs :
  read_value (Ch (LLastValue (LastValue.Mk b v)) rs) = if IsMissing v then None else Some v.
Proof.
  assert (Get (LastValue.Mk b v) = if IsMissing v then (Err empty_channel, LastValue.Mk b v)
                                   else (Ok v, LastValue.Mk b v)) as H by done.
  unfold read_value. change (Get (Ch (LLastValue (LastValue.Mk b v)) rs)) with
    (ch_step (leaf_step (@Get)) (Ch (LLastValue (LastValue.Mk b v)) rs)).
  unfold ch_step, leaf_step, ch_leaf. rewrite H. by destruct (IsMissing v).
Qed.

(** C4: the last writer wins: after the writes of a step, a channel that keeps the
    last value, or that did not exist, holds the value of the last node in name
    order that wrote one; every channel no node wrote to is as it was. *)
Theorem last_writer_wins W g results triggers reg vs upd reg' vs' k :
  write_loops_ok W →
  applyWrites W g results triggers reg vs = Some (Ok upd, reg', vs') →
  (omap (node_write g k) (sort_results results) = [] → reg' !! k = reg !! k ∧ k ∉ upd) ∧
  (∀ v, plain_channel reg k → last (written_values g results k) = Some v → v ≠ Missing →
        k ∈ upd ∧ ∃ c, reg' !! k = Some c ∧ read_value c = Some v).
Proof.
  intros HW Ha. pose proof (applyWrites_channels _ _ _ _ _ _ _ _ _ HW Ha k) as Hk.
  split; [intros Hnil; by rewrite Hnil in Hk|]. intros v Hp Hl Hv.
  unfold written_values in Hl. destruct (omap _ _) as [|x l] eqn:Ho; [done|].
  destruct Hk as (c & b & Hc & Hr & Hu). rewrite Hu.
  assert (∃ lv, default (NewLastValue VNil) (reg !! k) = Leaf (LLastValue lv)) as [lv Hlv].
  { unfold plain_channel in Hp. destruct (reg !! k) as [[lf [|rd rds]]|]; [|by destruct lf|by eexists].
    destruct lf; try done. by eexists. }
  unfold written_channel in Hc. rewrite Hlv in Hc. unfold filter_values in Hc.
  cbn [is_binop is_reducer Leaf ch_reducers orb] in Hc. rewrite Hl in Hc.
  assert (IsMissing v = false) as Hm.
  { destruct (IsMissing v) eqn:E; [|done]. by apply IsMissing_true in E. }
  assert (Update [v] (Leaf (LLastValue lv)) =
            (Ok true, Leaf (LLastValue (LastValue.Mk (LastValue.base lv) v)))) as Hupd by done.
  rewrite Hupd in Hc. cbn [andb] in Hc.
  assert (∀ b, IsAvailable (Leaf (LLastValue (LastValue.Mk b v))) = true) as Hav.
  { intros b0. cbn. unfold LastValue.IsAvailable. simpl. by rewrite Hm. }
  rewrite Hav in Hc. injection Hc as <- <-. split; [done|].
  eexists. split; [done|].
  change (read_value (Ch (LLastValue (LastValue.Mk (BaseChannel.SetVersion
            (int_add (channel_version vs k) 1) (LastValue.base lv)) v)) []) = Some v).
  by rewrite read_last_value, Hm.
Qed.

(** ** Witnesses *)
Definition canonical_writes : write_loops := {|
  range_output := map_to_list; range_writes := map_to_list; range_pending := map_to_list
|}.

Lemma canonical_writes_ok : write_loops_ok canonical_writes.
Proof. split; intros m; apply go_range_canonical. Qed.

(** Two nodes write to one channel, [a] also to another. *)
Definition two_results : list TaskResult :=
  [MkResult "b" (VObj {["x" := VInt 2]}) None;
   MkResult "a" (VObj {["x" := VInt 1; "y" := VBool true]}) None].

Definition reversed_writes : write_loops := {|
  range_output := λ m, reverse (map_to_list m); range_writes := λ m, reverse (map_to_list m);
  range_pending := λ m, reverse (map_to_list m)
|}.

Lemma reversed_writes_ok : write_loops_ok reversed_writes.
Proof. split; intros m; unfold go_range; simpl; apply reverse_Permutation. Qed.

Lemma two_names : NoDup (RName <$> two_results).
Proof. change (NoDup ["b"; "a"]). apply NoDup_cons. split; [set_solver|apply NoDup_singleton]. Qed.

Lemma applyWrites_deterministic_witness :
  let run W rs := applyWrites W (NewStateGraph (SMap true)) rs ∅ ∅ no_versions in
  let read_x r := r ≫= λ x : res (gset string) * registry * versions,
                    x.1.2 !! "x" ≫= read_value in
  read_x (run canonical_writes two_results) = Some (VInt 2) ∧
  read_x (run reversed_writes (reverse two_results)) = Some (VInt 2).
Proof.
  intros run read_x. split; [vm_compute; reflexivity|].
  destruct (run canonical_writes two_results) as [[[[upd|err] reg1] vs1]|] eqn:E;
    [|vm_compute in E; discriminate..].
  unfold run in E.
  destruct (applyWrites_deterministic canonical_writes reversed_writes _ _ (reverse two_results)
              _ _ _ _ _ _ canonical_writes_ok reversed_writes_ok
              two_names
              (symmetry (reverse_Permutation two_results)) E) as (vs2 & Hrun & _ & _).
  unfold run. rewrite Hrun. vm_compute in E. injection E as <- <- <-. reflexivity.
Defined.

Lemma last_writer_wins_witness :
  ∃ upd reg' vs' c,
    applyWrites canonical_writes (NewStateGraph (SMap true)) two_results ∅ ∅ no_versions
      = Some (Ok upd, reg', vs') ∧
    reg' !! "x" = Some c ∧ read_value c = Some (VInt 2) ∧ reg' !! "z" = None.
Proof.
  destruct (applyWrites canonical_writes (NewStateGraph (SMap true)) two_results ∅ ∅ no_versions)
    as [[[[upd|err] reg'] vs']|] eqn:E; [|vm_compute in E; discriminate..].
  destruct (last_writer_wins _ _ _ _ _ _ _ _ _ "x" canonical_writes_ok E) as [_ Hx].
  destruct (Hx (VInt 2)) as (_ & c & Hc & Hv);
    [exact I|vm_compute; reflexivity|discriminate|].
  destruct (last_writer_wins _ _ _ _ _ _ _ _ _ "z" canonical_writes_ok E) as [Hz _].
  destruct (Hz (ltac:(vm_compute; reflexivity))) as [Hz' _].
  exists upd, reg', vs', c. split; [reflexivity|]. split; [exact Hc|]. split; [exact Hv|exact Hz'].
Defined.
