(* ===== verification/Engine.v ===== *)
(** * The execution loop

    [Engine.Run] (pregel/engine.go) without its event stream and callbacks:
    reset, input, recovery from a checkpoint, and the superstep loop with
    interrupts, retries, writes and checkpoints in the three durability modes.
    What the runtime decides - map orders, schedules, cancellation, fresh
    identifiers, times - is an environment the run gets as an argument. *)

From S2P Require Export Writes Memory JsonText.

(** ** The engine *)
Record engine : Type := MkEngine {
  egraph : stateGraph;
  einterrupts : gset string;
  einterruptsAfter : gset string;
  erecursionLimit : Z;
  edebug : bool;
  econfig : option RunnableConfig;
  emaxConcurrency : Z;
  eretryPolicy : option RetryPolicy
}.

Definition EngineOption := engine → engine.

Definition NewEngine (g : stateGraph) (opts : list EngineOption) : engine :=
  foldl (λ e opt, opt e) (MkEngine g ∅ ∅ 25 false (Some Config.NewRunnableConfig) 10 None) opts.

Module Opt.
Definition WithInterrupts (ns : list string) : EngineOption := λ e,
  MkEngine (egraph e) (einterrupts e ∪ list_to_set ns) (einterruptsAfter e) (erecursionLimit e)
    (edebug e) (econfig e) (emaxConcurrency e) (eretryPolicy e).
Definition WithInterruptsAfter (ns : list string) : EngineOption := λ e,
  MkEngine (egraph e) (einterrupts e) (einterruptsAfter e ∪ list_to_set ns) (erecursionLimit e)
    (edebug e) (econfig e) (emaxConcurrency e) (eretryPolicy e).
Definition WithRecursionLimit (limit : Z) : EngineOption := λ e,
  MkEngine (egraph e) (einterrupts e) (einterruptsAfter e) limit (edebug e) (econfig e)
    (emaxConcurrency e) (eretryPolicy e).
Definition WithDebug (b : bool) : EngineOption := λ e,
  MkEngine (egraph e) (einterrupts e) (einterruptsAfter e) (erecursionLimit e) b (econfig e)
    (emaxConcurrency e) (eretryPolicy e).
Definition WithConfig (c : option RunnableConfig) : EngineOption := λ e,
  MkEngine (egraph e) (einterrupts e) (einterruptsAfter e) (erecursionLimit e) (edebug e) c
    (emaxConcurrency e) (eretryPolicy e).
Definition WithMaxConcurrency (n : Z) : EngineOption := λ e,
  if (0 <? n)%Z then
    MkEngine (egraph e) (einterrupts e) (einterruptsAfter e) (erecursionLimit e) (edebug e)
      (econfig e) n (eretryPolicy e)
  else e.
Definition WithRetryPolicy (p : option RetryPolicy) : EngineOption := λ e,
  MkEngine (egraph e) (einterrupts e) (einterruptsAfter e) (erecursionLimit e) (edebug e)
    (econfig e) (emaxConcurrency e) p.
End Opt.

(** ** Environments *)
Record step_env : Type := {
  se_done : option error;             (* the context is done when the step begins *)
  se_flush : list nat;                (* asynchronous saves that happen before the step *)
  se_loops : task_loops;
  se_reads : list nat;                (* the task that reads its next channel *)
  se_cancel : nat → option error;     (* a task whose wait sees the context done *)
  se_retry : nat → nat → option error; (* the context at the backoffs of a task *)
  se_writes : write_loops;
  se_uuid : string;                   (* the identifier of the step's checkpoint *)
  se_put : string * Z                 (* identifier and time a save may use *)
}.

Record run_env : Type := {
  re_uuid : string;                   (* the thread, if the configuration has none *)
  re_checkpoint : string * Z;         (* identifier and time of the first checkpoint *)
  re_input : gmap string val → list (string * val);
  re_input_writes : writes → list (string * list val);
  re_input' : gmap string val → list (string * val);
  re_input_writes' : writes → list (string * list val);
  re_restore : gmap string val → list (string * val);
  re_step : nat → step_env;
  re_saves : nat → string * Z;        (* of the deferred checkpoints *)
  re_final_lost : bool                (* the context is done and the last event is lost *)
}.

(** ** State of a run *)
Record deferredCheckpoint : Type := {
  DThreadID : string; DCheckpointID : string; DStep : Z; DCheckpoint : payload
}.

Record run_state (S : Type) : Type := MkState {
  st_reg : registry;
  st_vs : versions;
  st_completed : gset string;
  st_last : string;
  st_state : val;
  st_cp : option S;                          (* the checkpointer, or nil *)
  st_deferred : list deferredCheckpoint;
  st_async : list (config * payload * (string * Z))  (* saves that are under way *)
}.
Arguments MkState {S}. Arguments st_reg {S}. Arguments st_vs {S}. Arguments st_completed {S}.
Arguments st_last {S}. Arguments st_state {S}. Arguments st_cp {S}. Arguments st_deferred {S}.
Arguments st_async {S}.

(** How a run ends: with a state, with an error, or with a panic nobody
    recovers. *)
Inductive exit : Type :=
| Finished (state : val)
| Failed (e : error)
| Crashed.

(** What a superstep leads to. *)
Inductive step_result (S : Type) : Type :=
| Next (st : run_state S)
| Done (st : run_state S)
| Exit (x : exit) (st : run_state S).
Arguments Next {S}. Arguments Done {S}. Arguments Exit {S}.

Section setters.
Context {S : Type}.
Definition set_reg r (s : run_state S) : run_state S :=
  MkState r (st_vs s) (st_completed s) (st_last s) (st_state s) (st_cp s) (st_deferred s) (st_async s).
Definition set_writes r vs (s : run_state S) : run_state S :=
  MkState r vs (st_completed s) (st_last s) (st_state s) (st_cp s) (st_deferred s) (st_async s).
Definition set_progress c l x (s : run_state S) : run_state S :=
  MkState (st_reg s) (st_vs s) c l x (st_cp s) (st_deferred s) (st_async s).
Definition set_cp c (s : run_state S) : run_state S :=
  MkState (st_reg s) (st_vs s) (st_completed s) (st_last s) (st_state s) c (st_deferred s) (st_async s).
Definition set_deferred d (s : run_state S) : run_state S :=
  MkState (st_reg s) (st_vs s) (st_completed s) (st_last s) (st_state s) (st_cp s) d (st_async s).
Definition set_async a (s : run_state S) : run_state S :=
  MkState (st_reg s) (st_vs s) (st_completed s) (st_last s) (st_state s) (st_cp s) (st_deferred s) a.
End setters.

(** ** Executing the tasks of a step

    The goroutines of the tasks read their channels concurrently: a schedule
    says which task reads its next channel. *)
Record reader : Type := { todo : list string; got : res (gmap string val) }.

Definition start_reader (t : Task) : reader := {| todo := TChannels t; got := Ok ∅ |}.

Definition read_step (i : nat) (st : registry * list reader) : registry * list reader :=
  match st.2 !! i with
  | Some {| todo := name :: rest; got := Ok values |} =>
      let '(r, reg) := read_channel name st.1 values in
      (reg, <[i := {| todo := if is_ok r then rest else []; got := r |}]> st.2)
  | _ => st
  end.

(** What a schedule leaves unread is read task by task. *)
Definition finish_schedule (rs : list reader) : list nat :=
  concat (imap (λ i r, replicate (length (todo r)) i) rs).

Definition read_all (sched : list nat) (tasks : list Task) (reg : registry)
  : registry * list reader :=
  let st := foldl (λ st i, read_step i st) (reg, start_reader <$> tasks) sched in
  foldl (λ st i, read_step i st) st (finish_schedule st.2).

Section tasks.
Context `{R : GoRuntime} `{F : GoFloat} `{U : GoUnsigned}.

(** A task after it has read its input.  [None]: the conversion of the input
    panics outside of the recovering executor. *)
Definition exec_task (e : engine) (ctx : context) (cancel : option error)
    (retry_done : nat → option error) (t : Task) (input : res (gmap string val))
  : option TaskResult :=
  match input with
  | Err err => Some (MkResult (TName t) VNil (Some (Wrapf "failed to read task input" err)))
  | Ok values =>
      match mapToStateSchema (stateSchema (egraph e)) (VObj values) with
      | None => None
      | Some convertedInput =>
          match cancel with
          | Some err => Some (MkResult (TName t) VNil (Some err))
          | None =>
              let policy := resolveRetryPolicy (eretryPolicy e) t in
              let '((output, err), _) :=
                Execute (NewRetryExecutor (Some policy)) retry_done (TName t)
                  (λ n, call (Func t) ctx n convertedInput) 0 in
              Some (MkResult (TName t) output err)
          end
      end
  end.

(** [executeTasksAsync]: the results in the order of the tasks. *)
Definition executeTasksAsync (e : engine) (ctx : context) (se : step_env) (tasks : list Task)
    (reg : registry) : option (list TaskResult) * registry :=
  let '(reg, readers) := read_all (se_reads se) tasks reg in
  (sequence (imap (λ i tr, exec_task e ctx (se_cancel se i) (se_retry se i) tr.1 (got tr.2))
                  (zip tasks readers)), reg).
End tasks.

(** ** Recording the results *)
Record progress : Type := {
  allFailed : bool;
  interruptTaskNames : list string;
  p_completed : gset string;
  p_last : string;
  p_state : val
}.

Definition record_result (p : progress) (r : TaskResult) : progress :=
  match RErr r with
  | Some err =>
      if IsGraphInterrupt err then
        {| allFailed := allFailed p; interruptTaskNames := interruptTaskNames p ++ [RName r];
           p_completed := p_completed p; p_last := p_last p; p_state := p_state p |}
      else p
  | None =>
      {| allFailed := false; interruptTaskNames := interruptTaskNames p;
         p_completed := {[RName r]} ∪ p_completed p; p_last := RName r;
         p_state := mergeStates (p_state p) (ROutput r) |}
  end.

Definition record_results (results : list TaskResult) (completed : gset string) (last : string)
    (state : val) : progress :=
  foldl record_result
    {| allFailed := match results with [] => false | _ => true end; interruptTaskNames := [];
       p_completed := completed; p_last := last; p_state := state |} results.

(** ** Checkpoints *)

(** [CreateCheckpoint]; the order of its loop does not matter
    ([CreateCheckpoint_spec]), so it is the canonical one. *)
Definition snapshot (reg : registry) : payload := Reg.CreateCheckpoint (map_to_list reg) ∅.

(** The first interrupt of a step that carries a value. *)
Fixpoint first_interrupt (results : list TaskResult) : option (list val) :=
  match results with
  | [] => None
  | r :: results' =>
      match RErr r with
      | Some (GraphInterrupt (i :: is_)) => Some (i :: is_)
      | _ => first_interrupt results'
      end
  end.

(** The Go type of an error, for the message of a step in which all fail. *)
Definition error_type (e : error) : string :=
  match e with
  | EmptyChannelError _ => "*errors.EmptyChannelError"
  | GraphRecursionError _ => "*errors.GraphRecursionError"
  | InvalidUpdateError _ => "*errors.InvalidUpdateError"
  | GraphBubbleUp _ _ => "*errors.GraphBubbleUp"
  | GraphInterrupt _ => "*errors.GraphInterrupt"
  | ParentCommand _ => "*errors.ParentCommand"
  | EmptyInputError _ => "*errors.EmptyInputError"
  | TaskNotFound _ => "*errors.TaskNotFound"
  | InvalidNodeError _ _ => "*errors.InvalidNodeError"
  | InvalidEdgeError _ _ _ => "*errors.InvalidEdgeError"
  | ChannelNotFoundError _ => "*errors.ChannelNotFoundError"
  | NodeNotFoundError _ => "*errors.NodeNotFoundError"
  | RetryExhaustedError _ _ _ _ => "*pregel.RetryExhaustedError"
  | VersionConflictError _ _ _ _ => "*checkpoint.VersionConflictError"
  | ContextDone | Errorf _ => "*errors.errorString"
  | Wrapf _ _ => "*fmt.wrapError"
  end.

Definition all_failed_error (step : nat) (results : list TaskResult) : error :=
  let why := foldl (λ why r,
      why +:+ " " +:+ RName r +:+ "=" +:+
      match RErr r with
      | Some err => error_type err +:+ "(" +:+ Error_string err +:+ ")"
      | None => "<nil>(<nil>)"
      end) "" results in
  Errorf ("all " +:+ pretty (length results) +:+ " tasks failed in step " +:+ pretty step +:+
          ": " +:+ why).

Definition step_config (threadID checkpointID : string) (step : nat) : config :=
  {[ConfigKeyThreadID := VStr threadID; ConfigKeyCheckpointID := VStr checkpointID;
    "step" := VInt (Z.of_nat step)]}.

Section checkpoints.
Context `{J : JsonText} {S : Type} `{C : BaseCheckpointer S}.

(** Adds the JSON text of a value; not for nil, nor for what JSON cannot hold. *)
Definition save_json (key : string) (wrap : string → val) (v : val) (cp : payload) : payload :=
  if is_nil v then cp
  else match json_marshal v with Some text => <[key := wrap text]> cp | None => cp end.

(** The value of the first interrupt, if it has one. *)
Definition sub_state_value (results : list TaskResult) : val :=
  match first_interrupt results with
  | Some (i :: _) => default VNil (as_interrupt i)
  | _ => VNil
  end.

(** What an interrupt saves: the channels, the progress, the last state and the
    state of the interrupted sub-graph. *)
Definition interrupt_payload (reg : registry) (p : progress) (step : nat)
    (results : list TaskResult) : payload :=
  save_json "__sub_state__" VBytes (sub_state_value results)
    (save_json "__last_state__" VStr (p_state p)
      (<["__step__" := VFloat (float_of_int (Z.of_nat step))]>
         (<["__last_completed_node__" := VStr (p_last p)]>
            (<["__completed_tasks__" := VStr (serializeStringSet (elements (p_completed p)))]>
               (snapshot reg))))).

(** [saveCheckpoint]; nothing without a checkpointer. *)
Definition saveCheckpoint (cfg : config) (cp : payload) (fresh : string * Z) (s : option S)
  : res (option S) :=
  match s with
  | None => Ok None
  | Some s => let! s' := cp_put cfg cp fresh.1 fresh.2 s in Ok (Some s')
  end%go.

(** The asynchronous saves a list of picks completes; their errors are logged. *)
Definition flush_one (st : run_state S) (i : nat) : run_state S :=
  match st_async st !! i with
  | None => st
  | Some (cfg, cp, fresh) =>
      let st := set_async (delete i (st_async st)) st in
      match saveCheckpoint cfg cp fresh (st_cp st) with
      | Ok s => set_cp s st
      | Err _ => st
      end
  end.

Definition flush (picks : list nat) (st : run_state S) : run_state S := foldl flush_one st picks.

(** [saveDeferredCheckpoints]: all are tried, the last error is returned. *)
Definition save_deferred_one (fresh : nat → string * Z)
    (acc : nat * option error * option S) (dc : deferredCheckpoint)
  : nat * option error * option S :=
  let '(i, lastErr, s) := acc in
  match saveCheckpoint {[ConfigKeyThreadID := VStr (DThreadID dc);
                         ConfigKeyCheckpointID := VStr (DCheckpointID dc);
                         "step" := VInt (DStep dc)]} (DCheckpoint dc) (fresh i) s with
  | Ok s => (i + 1, lastErr, s)
  | Err e => (i + 1, Some e, s)
  end.

Definition saveDeferredCheckpoints (fresh : nat → string * Z) (st : run_state S)
  : option error * run_state S :=
  match st_cp st, st_deferred st with
  | None, _ | _, [] => (None, st)
  | Some _, ds =>
      let '(_, lastErr, s) := foldl (save_deferred_one fresh) (0, None, st_cp st) ds in
      (lastErr, set_deferred [] (set_cp s st))
  end.
End checkpoints.

(** ** A superstep *)
Section run.
Context `{R : GoRuntime} `{F : GoFloat} `{U : GoUnsigned} `{T : GoTime} `{J : JsonText}.
Context {S : Type} `{C : BaseCheckpointer S}.

(** The node-level interrupts before the tasks run. *)
Definition interrupt_before (se : step_env) (threadID : string) (st : run_state S)
  : step_result S :=
  match saveCheckpoint (thread_config threadID) (snapshot (st_reg st)) (se_put se) (st_cp st) with
  | Err err => Exit (Failed (Wrapf "failed to save checkpoint" err)) st
  | Ok s => Exit (Failed (GraphInterrupt [])) (set_cp s st)
  end.

(** A task raised an interrupt.  The writes of the tasks that did complete are
    not applied; only their place in [completed] is saved. *)
Definition interrupt_during (se : step_env) (threadID : string) (step : nat) (p : progress)
    (results : list TaskResult) (st : run_state S) : step_result S :=
  match saveCheckpoint (thread_config threadID)
          (interrupt_payload (st_reg st) p step results) (se_put se) (st_cp st) with
  | Err err => Exit (Failed (Wrapf "failed to save checkpoint on interrupt" err)) st
  | Ok s =>
      Exit (Failed (GraphInterrupt (default [] (first_interrupt results)))) (set_cp s st)
  end.

(** The checkpoint after a step, by durability.  [None]: a nil configuration
    is dereferenced. *)
Definition checkpoint_step (e : engine) (se : step_env) (threadID : string) (step : nat)
    (st : run_state S) : option (option error * run_state S) :=
  match st_cp st with
  | None => Some (None, st)
  | Some _ =>
      let cp := snapshot (st_reg st) in
      let cfg := step_config threadID (se_uuid se) step in
      match econfig e with
      | None => None
      | Some c =>
          if decide (Durability c = DurabilityAsync) then
            Some (None, set_async (st_async st ++ [(cfg, cp, se_put se)]) st)
          else if decide (Durability c = DurabilityExit) then
            Some (None, set_deferred (st_deferred st ++
              [{| DThreadID := threadID; DCheckpointID := se_uuid se; DStep := Z.of_nat step;
                  DCheckpoint := cp |}]) st)
          else
            match saveCheckpoint cfg cp (se_put se) (st_cp st) with
            | Err err => Some (Some (Wrapf "failed to save checkpoint" err), st)
            | Ok s => Some (None, set_cp s st)
            end
      end
  end.

(** After the tasks: writes, the values event (which reads every channel),
    the checkpoint, the interrupts after nodes. *)
Definition commit_step (e : engine) (se : step_env) (threadID : string) (step : nat)
    (results : list TaskResult) (triggers : gset string) (st : run_state S) : step_result S :=
  match applyWrites (se_writes se) (egraph e) results triggers (st_reg st) (st_vs st) with
  | None => Exit Crashed st
  | Some (Err err, reg, vs) =>
      Exit (Failed (Wrapf "failed to apply writes" err)) (set_writes reg vs st)
  | Some (Ok _, reg, vs) =>
      let reg := (Reg.GetValues (map_to_list reg) ∅ reg).2 in
      let st := set_writes reg vs st in
      match checkpoint_step e se threadID step st with
      | None => Exit Crashed st
      | Some (Some err, st) => Exit (Failed err) st
      | Some (None, st) =>
          if shouldInterruptAfter (einterruptsAfter e) results
          then Exit (Failed (GraphInterrupt [])) st
          else Next st
      end
  end.

(** One iteration of the loop.  Conditions see the caller's context [ctx], nodes
    the pipeline's [pctx]. *)
Definition superstep (e : engine) (ctx pctx : context) (threadID : string) (se : step_env) (step : nat)
    (st : run_state S) : step_result S :=
  let st := flush (se_flush se) st in
  match se_done se with
  | Some err => Exit (Failed err) st
  | None =>
      if (erecursionLimit e <=? Z.of_nat step)%Z
      then Exit (Failed (GraphRecursionError (erecursionLimit e))) st
      else
        match prepareNextTasks (se_loops se) (egraph e) ctx (st_reg st) (st_completed st)
                (st_last st) (st_state st) with
        | Err err => Exit (Failed (Wrapf "failed to prepare next tasks" err)) st
        | Ok ([], _) => Done st
        | Ok (tasks, triggers) =>
            match shouldInterrupt (einterrupts e) tasks with
            | _ :: _ => interrupt_before se threadID st
            | [] =>
                match executeTasksAsync e pctx se tasks (st_reg st) with
                | (None, _) => Exit Crashed st
                | (Some results, reg) =>
                    let st := set_reg reg st in
                    let p := record_results results (st_completed st) (st_last st) (st_state st) in
                    let st := set_progress (p_completed p) (p_last p) (p_state p) st in
                    match interruptTaskNames p with
                    | _ :: _ => interrupt_during se threadID step p results st
                    | [] =>
                        if allFailed p then Exit (Failed (all_failed_error step results)) st
                        else commit_step e se threadID step results triggers st
                    end
                end
            end
        end
  end.

(** The loop; [None] when out of fuel. *)
Fixpoint run_loop (fuel : nat) (e : engine) (ctx pctx : context) (threadID : string)
    (env : nat → step_env) (step : nat) (st : run_state S) : option (step_result S) :=
  match fuel with
  | O => None
  | Datatypes.S fuel' =>
      match superstep e ctx pctx threadID (env step) step st with
      | Next st => run_loop fuel' e ctx pctx threadID env (Datatypes.S step) st
      | r => Some r
      end
  end.

(** ** Starting a run *)

(** [getThreadID]: the configured thread, or a fresh one. *)
Definition getThreadID (e : engine) (uuid : string) : string :=
  match econfig e ≫= Config.Get ConfigKeyThreadID with
  | Some (VStr tid) => tid
  | _ => uuid
  end.

Definition requested_checkpoint (e : engine) : string :=
  match econfig e ≫= Config.Get ConfigKeyCheckpointID with
  | Some (VStr id) => id
  | _ => ""
  end.

(** Looking for a checkpoint of the thread.  Without an explicit identifier an
    error of the checkpointer means that there is none. *)
Definition load_checkpoint (e : engine) (threadID : string) (s : option S) : res (option payload) :=
  match s with
  | None => Ok None
  | Some s =>
      let id := requested_checkpoint e in
      let cfg := if decide (id = "") then thread_config threadID
                 else <[ConfigKeyCheckpointID := VStr id]> (thread_config threadID) in
      match cp_get cfg s with
      | Ok (Some data) => Ok (Some data)
      | Ok None =>
          if decide (id = "") then Ok None
          else Err (Errorf ("requested checkpoint_id " +:+ id +:+ ": checkpoint not found"))
      | Err err =>
          if decide (id = "") then Ok None
          else Err (Errorf ("requested checkpoint_id " +:+ id +:+ ": " +:+ Error_string err))
      end
  end.

(** The text of a value stored as a string or as bytes. *)
Definition text_of (v : val) : option string :=
  match v with VStr s | VBytes s => Some s | _ => None end.

(** Decoding [__last_state__] into a map; null leaves a nil map. *)
Definition decode_state (raw : val) : val :=
  match text_of raw ≫= json_unmarshal with
  | Some (VObj m) => VObj m
  | Some VNil => VTypedNil (TMap TAny)
  | _ => VNil
  end.

Definition SubGraphStateCtxKey : string := "interrupt.SubGraphStateCtxKey".

Definition pipeline_ctx (data : payload) (ctx : context) : context :=
  match data !! "__sub_state__" ≫= text_of with
  | Some text => <[SubGraphStateCtxKey := VBytes text]> ctx
  | None => ctx
  end.

Definition restored_completed (data : payload) : gset string :=
  default ∅ (((data !! "__completed_tasks__") ≫= as_string) ≫= deserializeStringSet).

Definition restored_last (data : payload) : string :=
  default "" ((data !! "__last_completed_node__") ≫= as_string).

(** Only the keys of registered channels are restored. *)
Definition channel_data (data : payload) (reg : registry) : payload :=
  filter (λ kv, registered reg kv.1) data.

(** [Run] after the input was applied for the first time: the state a loaded
    checkpoint gives, or the one of a fresh run, whose input is applied again. *)
Definition resume_state (env : run_env) (ctx : context) (data : payload)
    (reg : registry) (s : option S) : res (context * run_state S) :=
  let filtered := channel_data data reg in
  match (if decide (filtered = ∅) then (None, reg)
         else Reg.RestoreFromCheckpoint (re_restore env filtered) reg) with
  | (Some err, _) => Err (Wrapf "failed to restore from checkpoint" err)
  | (None, reg) =>
      Ok (pipeline_ctx data ctx,
          MkState reg (MkVersions (Some (CP.FromMap data)) ∅ ∅) (restored_completed data)
            (restored_last data)
            (match data !! "__last_state__" with Some raw => decode_state raw | None => VNil end)
            s [] [])
  end.

Definition fresh_state (env : run_env) (threadID : string) (ctx : context) (input : val)
    (reg : registry) (s : option S) : res (context * run_state S) :=
  match applyInput (re_input' env) (re_input_writes' env) reg input with
  | (Some err, _, _) => Err (Wrapf "failed to apply input" err)
  | (None, reg, input) =>
      let cp := CP.NewCheckpoint (re_checkpoint env).1 (re_checkpoint env).2 threadID 0 in
      Ok (ctx, MkState reg (MkVersions (Some cp) ∅ ∅) ∅ "" input s [] [])
  end.

Definition start_run (e : engine) (env : run_env) (ctx : context) (input : val) (s : option S)
  : res (context * run_state S) :=
  let threadID := getThreadID e (re_uuid env) in
  let reg : registry := Copy <$> gchannels (egraph e) in
  match applyInput (re_input env) (re_input_writes env) reg input with
  | (Some err, _, _) => Err (Wrapf "failed to apply input" err)
  | (None, reg, input) =>
      match load_checkpoint e threadID s with
      | Err err => Err err
      | Ok (Some data) => resume_state env ctx data reg s
      | Ok None => fresh_state env threadID ctx input reg s
      end
  end.

(** ** The end of a run *)
Definition finish_run (e : engine) (env : run_env) (st : run_state S) : exit * run_state S :=
  let '(finalState, reg) := buildOutput (map_to_list (st_reg st)) (st_state st) (st_reg st) in
  let st := set_reg reg st in
  match econfig e with
  | None => (Crashed, st)
  | Some c =>
      if decide (Durability c = DurabilityExit) then
        match saveDeferredCheckpoints (re_saves env) st with
        | (Some err, st) => (Failed (Wrapf "failed to save deferred checkpoints" err), st)
        | (None, st) => (Finished finalState, st)
        end
      else (Finished finalState, st)
  end.

(** [Run].  The loop stops at the recursion limit, so [enough] fuel is enough. *)
Definition enough (e : engine) : nat := Datatypes.S (Z.to_nat (erecursionLimit e)).

Definition Run (e : engine) (env : run_env) (ctx : context) (input : val) (s : option S)
  : option (exit * option S) :=
  match start_run e env ctx input s with
  | Err err => Some (Failed err, s)
  | Ok (pctx, st) =>
      match run_loop (enough e) e ctx pctx (getThreadID e (re_uuid env)) (re_step env) 0 st with
      | None => None
      | Some (Done st) => let '(x, st) := finish_run e env st in Some (x, st_cp st)
      | Some (Exit x st) => Some (x, st_cp st)
      | Some (Next st) => None
      end
  end.

(** [RunSync]: the state of the final event, nil if the forwarding goroutine
    saw the context done first.  [None]: the process crashes. *)
Definition RunSync (e : engine) (env : run_env) (ctx : context) (input : val) (s : option S)
  : option (res val * option S) :=
  match Run e env ctx input s with
  | Some (Finished state, s) => Some (Ok (if re_final_lost env then VNil else state), s)
  | Some (Failed err, s) => Some (Err err, s)
  | Some (Crashed, _) | None => None
  end.

(** [runCompiledGraph] (pregel/init_pregel.go), behind [compiledGraph.Invoke]:
    without a configuration the run has a zero one. *)
Definition Invoke (cg : compiledGraph S) (config : option RunnableConfig) (env : run_env)
    (ctx : context) (input : val) : option (res val * option S) :=
  let rc := default Config.zero config in
  let e := NewEngine (graph cg)
    [Opt.WithInterrupts (elements (interrupts cg));
     Opt.WithInterruptsAfter (elements (interruptsAfter cg));
     Opt.WithRecursionLimit (recursionLimit cg);
     Opt.WithDebug (debug cg);
     Opt.WithConfig (Some rc)] in
  RunSync e env ctx input (checkpointer cg).
End run.
