(* ===== verification/Demo.v ===== *)
(** * A quiet environment

    For witnesses and examples: canonical map orders, no cancellation, reads
    one task after the other, and node functions that return constants. *)

From S2P Require Import GraphProps.
From S2P Require Export RoutingProps WritesProps Engine.

Definition calm_step (L : task_loops) (i : nat) : step_env := {|
  se_done := None; se_flush := []; se_loops := L; se_reads := []; se_cancel _ := None;
  se_retry _ _ := None; se_writes := canonical_writes; se_uuid := "cp" +:+ pretty i;
  se_put := ("id" +:+ pretty i, Z.of_nat i)
|}.

Definition calm_with (L : task_loops) : run_env := {|
  re_uuid := "thread"; re_checkpoint := ("cp", 0%Z);
  re_input := map_to_list; re_input_writes := map_to_list;
  re_input' := map_to_list; re_input_writes' := map_to_list; re_restore := map_to_list;
  re_step := calm_step L; re_saves i := ("deferred" +:+ pretty i, 0%Z); re_final_lost := false
|}.

Definition calm : run_env := calm_with canonical_loops.

(** A scheduler that starts with the last of the next nodes. *)
Definition reversed_loops : task_loops := {|
  fresh_id i := "task-" +:+ pretty i;
  range_names _ r := (map_to_list r).*1;
  range_channels _ m := (map_to_list m).*1;
  range_next s := reverse (elements s);
  range_nodes m := map_to_list m
|}.

Lemma reversed_loops_ok : loops_ok reversed_loops.
Proof.
  split; intros; [done..| |apply go_range_canonical].
  simpl. apply reverse_Permutation.
Qed.

(** A node that writes one constant, and one that interrupts at its first call
    in a thread without an answer. *)
Definition writes_to (k : string) (v : val) : option NodeFunc :=
  Some (λ _ _ _, Return (VObj {[k := v]}) None).
Definition interrupts_with (v : val) : option NodeFunc :=
  Some (λ _ _ _, Return VNil (Some (GraphInterrupt [NewInterrupt v "i1"]))).
Definition fails : option NodeFunc := Some (λ _ _ _, Return VNil (Some (Errorf "boom"))).

Section demo.
#[local] Existing Instance fixed_addresses.
#[local] Existing Instance amd64.
#[local] Existing Instance amd64_unsigned.
#[local] Existing Instance tally_clock.
#[local] Existing Instance go_json.

(** A run with the in-memory saver, or without a checkpointer. *)
Definition demo_run (e : engine) (env : run_env) (input : val) (s : option MemorySaver.t)
  : option (exit * option MemorySaver.t) := Run e env ∅ input s.

(** Its beginning. *)
Definition demo_start (e : engine) (env : run_env) (input : val) (s : option MemorySaver.t)
  : res (context * run_state MemorySaver.t) := start_run e env ∅ input s.
End demo.

Definition threaded (tid : string) : EngineOption :=
  Opt.WithConfig (Some (Config.Set_ ConfigKeyThreadID (VStr tid) Config.NewRunnableConfig)).

(** The exit of a run, and the exit of the run that follows it on the same thread. *)
Definition first_exit (r : option (exit * option MemorySaver.t)) : option exit := fst <$> r.
Definition saver_of (r : option (exit * option MemorySaver.t)) : option MemorySaver.t :=
  r ≫= snd.

(** ** Fan-out

    [a] leads to [b] and [c], which lead to [d] and [e]. *)
Definition fan_ops : list builder_op :=
  [OpAddNode "a" (writes_to "a" (VBool true)); OpAddNode "b" (writes_to "b" (VBool true));
   OpAddNode "c" (writes_to "c" (VBool true)); OpAddNode "d" (writes_to "d" (VBool true));
   OpAddNode "e" (writes_to "e" (VBool true));
   OpAddEdge "a" "b"; OpAddEdge "a" "c"; OpAddEdge "b" "d"; OpAddEdge "c" "e";
   OpAddEdge "d" End_; OpAddEdge "e" End_; OpSetEntryPoint "a"].
Definition fan_engine : engine := NewEngine (build (SMap true) fan_ops) [].

Definition all_true (ks : list string) : val := VObj (list_to_map ((λ k, (k, VBool true)) <$> ks)).

(** In the default mode a run follows only the last node of a step: of two
    parallel branches only the one that happens to be scheduled last goes on,
    so the final state depends on the order of a loop over a map. *)
Theorem fan_out_follows_one_branch :
  first_exit (demo_run fan_engine (calm_with canonical_loops) (VObj ∅) None) =
    Some (Finished (all_true ["a"; "b"; "c"; "d"])) ∧
  first_exit (demo_run fan_engine (calm_with reversed_loops) (VObj ∅) None) =
    Some (Finished (all_true ["a"; "b"; "c"; "e"])).
Proof. split; vm_compute; reflexivity. Qed.

(** The same nodes in all-predecessors mode run all of them. *)
Definition dag_engine : engine :=
  NewEngine (build (SMap true) (fan_ops ++ [OpSetNodeTriggerMode NodeTriggerAllPredecessor])) [].

Example dag_runs_every_branch :
  first_exit (demo_run dag_engine calm (VObj ∅) None) =
    Some (Finished (all_true ["a"; "b"; "c"; "d"; "e"])).
Proof. vm_compute. reflexivity. Qed.
