(* ===== verification/EngineProps.v ===== *)
(** * The superstep loop: termination and scheduling

    A run is a sequence of supersteps that ends within the recursion limit;
    what one superstep does to the completed nodes; and in all-predecessors
    mode every node runs at most once, after its predecessors. *)

From S2P Require Import GraphProps RoutingProps Demo.
From S2P Require Export Engine.

Section loop.
Context `{R : GoRuntime} `{F : GoFloat} `{U : GoUnsigned} `{T : GoTime} `{J : JsonText}.
Context {CPT : Type} `{C : BaseCheckpointer CPT}.
Implicit Types (st : run_state CPT) (e : engine).

(** [steps_to k st st']: [k] supersteps that go on, from step [i]. *)
Inductive steps_to (e : engine) (ctx pctx : context) (tid : string) (env : nat → step_env)
  : nat → nat → run_state CPT → run_state CPT → Prop :=
| steps_none i st : steps_to e ctx pctx tid env i 0 st st
| steps_more i k st st1 st2 :
    superstep e ctx pctx tid (env i) i st = Next st1 →
    steps_to e ctx pctx tid env (S i) k st1 st2 →
    steps_to e ctx pctx tid env i (S k) st st2.

(** Supersteps one after the other, by computation. *)
Fixpoint iter_steps (e : engine) (ctx pctx : context) (tid : string) (env : nat → step_env)
    (i k : nat) (st : run_state CPT) : option (run_state CPT) :=
  match k with
  | 0 => Some st
  | S k => match superstep e ctx pctx tid (env i) i st with
           | Next st1 => iter_steps e ctx pctx tid env (S i) k st1
           | _ => None
           end
  end.

Lemma iter_steps_to e ctx pctx tid env i k st st' :
  iter_steps e ctx pctx tid env i k st = Some st' → steps_to e ctx pctx tid env i k st st'.
Proof.
  revert i st. induction k as [|k IH]; intros i st; simpl; [intros [= <-]; constructor|].
  destruct (superstep _ _ _ _ _ _ _) eqn:Hs; [|done..]. intros H. by econstructor; [|apply IH].
Qed.

Lemma flush_fields picks st :
  let st' := flush picks st in
  st_reg st' = st_reg st ∧ st_vs st' = st_vs st ∧ st_completed st' = st_completed st ∧
  st_last st' = st_last st ∧ st_state st' = st_state st ∧ st_deferred st' = st_deferred st.
Proof.
  unfold flush. revert st. induction picks as [|i picks IH]; intros st; [done|]. simpl.
  destruct (IH (flush_one st i)) as (-> & -> & -> & -> & -> & ->).
  unfold flush_one. destruct (st_async st !! i) as [[[cfg cp] fresh]|]; [|done].
  by destruct (saveCheckpoint _ _ _ _).
Qed.

(** The limit ends the loop. *)
Lemma superstep_limit e ctx pctx tid se i st st' :
  superstep e ctx pctx tid se i st = Next st' → (Z.of_nat i < erecursionLimit e)%Z.
Proof.
  unfold superstep. destruct (se_done se); [done|].
  destruct (erecursionLimit e <=? Z.of_nat i)%Z eqn:Hl; [done|]. apply Z.leb_gt in Hl. lia.
Qed.

Lemma run_loop_steps e ctx pctx tid env fuel i st :
  0 < fuel → Z.to_nat (erecursionLimit e) < i + fuel →
  ∃ k st' r, steps_to e ctx pctx tid env i k st st' ∧
    superstep e ctx pctx tid (env (i + k)) (i + k) st' = r ∧ (∀ s, r ≠ Next s) ∧
    run_loop fuel e ctx pctx tid env i st = Some r ∧
    (k = 0 ∨ (Z.of_nat (i + k) ≤ erecursionLimit e)%Z).
Proof.
  revert i st. induction fuel as [|fuel IH]; intros i st Hpos Hf; [lia|]. cbn [run_loop].
  destruct (superstep e ctx pctx tid (env i) i st) as [st1|st1|x st1] eqn:Hs.
  - pose proof (superstep_limit _ _ _ _ _ _ _ _ Hs) as Hl.
    destruct (IH (S i) st1) as (k & st' & r & Hk & Hr & Hn & -> & Hb); [lia..|].
    exists (S k), st', r. rewrite !Nat.add_succ_r. split_and!; [by econstructor|done..|].
    right. destruct Hb as [->|?]; lia.
  - exists 0, st, (Done st1). rewrite Nat.add_0_r, Hs. split_and!; [apply steps_none|done..|by left].
  - exists 0, st, (Exit x st1). rewrite Nat.add_0_r, Hs. split_and!; [apply steps_none|done..|by left].
Qed.

(** How the last superstep decides the outcome of the run. *)
Definition outcome_of (e : engine) (env : run_env) (r : step_result CPT)
  : option (exit * option CPT) :=
  match r with
  | Next _ => None
  | Done st => Some ((finish_run e env st).1, st_cp (finish_run e env st).2)
  | Exit x st => Some (x, st_cp st)
  end.

Lemma run_ends e env ctx input s :
  match start_run e env ctx input s with
  | Err err => Run e env ctx input s = Some (Failed err, s)
  | Ok (pctx, st) =>
      let tid := getThreadID e (re_uuid env) in
      ∃ k st' r,
        steps_to e ctx pctx tid (re_step env) 0 k st st' ∧
        (k = 0 ∨ (Z.of_nat k ≤ erecursionLimit e)%Z) ∧
        superstep e ctx pctx tid (re_step env k) k st' = r ∧
        Run e env ctx input s = outcome_of e env r ∧ is_Some (outcome_of e env r)
  end.
Proof.
  unfold Run. destruct (start_run e env ctx input s) as [[pctx st]|err]; [|done]. cbv zeta.
  destruct (run_loop_steps e ctx pctx (getThreadID e (re_uuid env)) (re_step env)
              (enough e) 0 st) as (k & st' & r & Hk & Hr & Hn & -> & Hb);
    [unfold enough; lia..|].
  exists k, st', r. split_and!; [done..| |].
  - destruct r as [s'|s'|x s']; [by destruct (Hn s')| |done].
    unfold outcome_of. by destruct (finish_run e env s').
  - destruct r as [s'|s'|x s']; [by destruct (Hn s')|by eexists..].
Qed.

(** C1: every run ends.  It is a sequence of supersteps, at most as many as the
    recursion limit (one that begins at the limit fails), followed by a
    superstep that does not go on and decides the outcome; a run that cannot
    start returns the error at once. *)
Theorem Run_ends e env ctx input s :
  match start_run e env ctx input s with
  | Err err => Run e env ctx input s = Some (Failed err, s)
  | Ok (pctx, st) =>
      let tid := getThreadID e (re_uuid env) in
      ∃ k st' r,
        steps_to e ctx pctx tid (re_step env) 0 k st st' ∧
        (k = 0 ∨ (Z.of_nat k ≤ erecursionLimit e)%Z) ∧
        superstep e ctx pctx tid (re_step env k) k st' = r ∧
        Run e env ctx input s = outcome_of e env r ∧ is_Some (outcome_of e env r)
  end.
Proof. apply run_ends. Qed.

(** ** What a superstep completes *)
Definition succeeded (results : list TaskResult) : gset string :=
  list_to_set (RName <$> filter (λ r, RErr r = None) results).

Lemma record_results_completed results p :
  p_completed (foldl record_result p results) = succeeded results ∪ p_completed p ∧
  (allFailed (foldl record_result p results) = false →
     allFailed p = false ∨ ∃ r, r ∈ results ∧ RErr r = None).
Proof.
  unfold succeeded. revert p. induction results as [|r results IH]; intros p; simpl.
  { split; [set_solver|by left]. }
  destruct (IH (record_result p r)) as [Hc Ha]. rewrite Hc. rewrite filter_cons. split.
  - unfold record_result. destruct (RErr r) as [err|] eqn:Hr.
    + rewrite decide_False by done. by destruct (IsGraphInterrupt err).
    + rewrite decide_True by done. set_solver.
  - intros Hf. destruct (Ha Hf) as [Hp|(r' & ? & ?)];
      [|right; exists r'; split; [by right|done]].
    unfold record_result in Hp. destruct (RErr r) as [err|] eqn:Hr.
    + left. by destruct (IsGraphInterrupt err).
    + right. exists r. split; [by left|done].
Qed.

Lemma exec_task_name e ctx cancel retry t input r :
  exec_task e ctx cancel retry t input = Some r → RName r = TName t.
Proof.
  unfold exec_task. destruct input as [values|err]; [|by intros [= <-]].
  destruct (mapToStateSchema _ _); [|done]. destruct cancel; [by intros [= <-]|].
  destruct (Execute _ _ _ _ _) as [[out err] n]. by intros [= <-].
Qed.
Lemma read_step_length i s : length (read_step i s).2 = length s.2.
Proof.
  unfold read_step. destruct (s.2 !! i) as [[[|n todo] [values|err]]|]; try done.
  destruct (read_channel n s.1 values). cbn [snd]. apply length_insert.
Qed.

Lemma read_all_length sched tasks reg : length (read_all sched tasks reg).2 = length tasks.
Proof.
  assert (∀ l s, length (foldl (λ a i, read_step i a) s l).2 = length s.2) as H.
  { induction l as [|i l IH]; intros s; [done|]. simpl. by rewrite IH, read_step_length. }
  unfold read_all. rewrite !H. simpl. apply length_fmap.
Qed.

Lemma sequence_Forall2 {A} (l : list (option A)) r :
  sequence l = Some r → Forall2 (λ o x, o = Some x) l r.
Proof.
  revert r. induction l as [|[x|] l IH]; intros r; simpl; [by intros [= <-]| |done].
  destruct (sequence l) as [r'|]; [|done]. intros [= <-]. constructor; [done|by apply IH].
Qed.

Lemma executeTasksAsync_names e ctx se tasks reg results reg' :
  executeTasksAsync e ctx se tasks reg = (Some results, reg') →
  RName <$> results = TName <$> tasks.
Proof.
  unfold executeTasksAsync. pose proof (read_all_length (se_reads se) tasks reg) as Hlen.
  destruct (read_all _ _ _) as [reg1 readers]. simpl in Hlen.
  intros [= Hs <-]. apply sequence_Forall2 in Hs.
  apply list_eq. intros i. rewrite !list_lookup_fmap.
  destruct (results !! i) as [r|] eqn:Hr.
  - destruct (Forall2_lookup_r _ _ _ _ _ Hs Hr) as (o & Ho & ->).
    rewrite list_lookup_imap in Ho. apply fmap_Some in Ho as ([t rd] & Hz & He).
    apply lookup_zip_Some in Hz as [Ht _]. rewrite Ht. cbn. f_equal.
    symmetry in He. by apply exec_task_name in He.
  - apply lookup_ge_None in Hr. rewrite <-(Forall2_length _ _ _ Hs), length_imap, length_zip in Hr.
    rewrite (proj2 (lookup_ge_None tasks i)); [done|lia].
Qed.

(** What a superstep that goes on has done. *)
Lemma superstep_Next e ctx pctx tid se i st st' :
  superstep e ctx pctx tid se i st = Next st' →
  ∃ tasks triggers results,
    prepareNextTasks (se_loops se) (egraph e) ctx (st_reg st) (st_completed st) (st_last st)
      (st_state st) = Ok (tasks, triggers) ∧
    RName <$> results = TName <$> tasks ∧
    st_completed st' = succeeded results ∪ st_completed st ∧
    (∃ r, r ∈ results ∧ RErr r = None).
Proof.
  unfold superstep. destruct (flush_fields (se_flush se) st) as (<- & _ & <- & <- & <- & _).
  cbv zeta. set (st0 := flush (se_flush se) st).
  destruct (se_done se); [done|]. destruct (Z.leb _ _); [done|].
  destruct (prepareNextTasks _ _ _ _ _ _ _) as [[tasks triggers]|err] eqn:Hp; [|done].
  destruct tasks as [|t tasks]; [done|].
  destruct (shouldInterrupt _ _); [|unfold interrupt_before; by destruct (saveCheckpoint _ _ _ _)].
  destruct (executeTasksAsync _ _ _ _ _) as [[results|] reg] eqn:He; [|done].
  pose proof (executeTasksAsync_names _ _ _ _ _ _ _ He) as Hn.
  destruct (interruptTaskNames _); [|unfold interrupt_during; by destruct (saveCheckpoint _ _ _ _)].
  destruct (allFailed _) eqn:Hf; [done|]. intros Hc.
  exists (t :: tasks), triggers, results.
  destruct (record_results_completed results
    {| allFailed := match results with [] => false | _ => true end; interruptTaskNames := [];
       p_completed := st_completed st0; p_last := st_last st0; p_state := st_state st0 |})
    as [Hcomp Hall].
  split_and!; [done|done| |].
  - simpl in Hcomp. rewrite <-Hcomp. unfold commit_step in Hc.
    destruct (applyWrites _ _ _ _ _ _) as [[[[u|err] reg'] vs']|]; [|done..].
    unfold checkpoint_step in Hc.
    repeat case_match; simplify_eq/=; done.
  - destruct (Hall Hf) as [Hnil|?]; [|done]. by destruct results.
Qed.
Lemma elem_of_succeeded n results :
  n ∈ succeeded results ↔ ∃ r, r ∈ results ∧ RErr r = None ∧ RName r = n.
Proof.
  unfold succeeded. rewrite elem_of_list_to_set, list_elem_of_fmap. setoid_rewrite list_elem_of_filter.
  naive_solver.
Qed.

(** Everything that completes was ready, and something did. *)
Lemma superstep_completes e ctx pctx tid se i st st' :
  well_formed (egraph e) → loops_ok (se_loops se) →
  superstep e ctx pctx tid se i st = Next st' →
  ∃ done_ : gset string, done_ ≠ ∅ ∧ st_completed st' = done_ ∪ st_completed st ∧
    ∀ n, n ∈ done_ → ready (egraph e) ctx (st_completed st) (st_last st) (st_state st) n.
Proof.
  intros Hwf HL Hs.
  destruct (superstep_Next _ _ _ _ _ _ _ _ Hs) as (tasks & trig & results & Hp & Hn & Hc & r & Hr & He).
  exists (succeeded results). split; [|split; [done|]].
  - assert (RName r ∈ succeeded results) by (apply elem_of_succeeded; eauto). set_solver.
  - intros n (r' & Hr' & _ & <-)%elem_of_succeeded.
    pose proof (prepare_ready (se_loops se) (egraph e) ctx (st_reg st) (st_completed st)
                  (st_last st) (st_state st) true Hwf HL) as Hspec.
    unfold prepareNextTasks in Hp. rewrite Hp in Hspec. destruct Hspec as (_ & Hready & _).
    apply Hready. rewrite <-Hn. by apply list_elem_of_fmap_2.
Qed.

(** A set of completed nodes that respects the edges. *)
Definition closed (g : stateGraph) (completed : gset string) : Prop :=
  ∀ n, n ∈ completed →
    is_node g n ∧ (n = entryPoint g ∨ all_predecessors_done g completed n).

Lemma closed_size g completed : closed g completed → size completed ≤ size (nodes g).
Proof.
  intros Hc. rewrite <-(size_dom (nodes g)). apply subseteq_size. intros n Hn.
  apply elem_of_dom. by apply Hc.
Qed.

Lemma dag_step e ctx pctx tid se i st st' :
  well_formed (egraph e) → loops_ok (se_loops se) →
  triggerMode (egraph e) = NodeTriggerAllPredecessor →
  closed (egraph e) (st_completed st) →
  superstep e ctx pctx tid se i st = Next st' →
  closed (egraph e) (st_completed st') ∧ size (st_completed st) < size (st_completed st').
Proof.
  intros Hwf HL Hm Hc Hs.
  destruct (superstep_completes _ _ _ _ _ _ _ _ Hwf HL Hs) as (d & Hne & -> & Hd).
  assert (∀ n, n ∈ d → n ∉ st_completed st ∧ is_node (egraph e) n ∧
            (n = entryPoint (egraph e) ∨
             all_predecessors_done (egraph e) (st_completed st) n)) as Hnew.
  { intros n Hn. destruct (Hd n Hn) as [Hnode Hr]. revert Hr.
    destruct (decide (st_completed st = ∅)) as [->|]; [set_solver|].
    rewrite decide_True by done. tauto. }
  split.
  - intros n Hn. apply elem_of_union in Hn as [Hn|Hn].
    + destruct (Hnew n Hn) as (_ & ? & [?|Hall]); [by auto|]. split; [done|]. right.
      intros ed ? ?. destruct (Hall ed) as [|[|]]; set_solver.
    + destruct (Hc n Hn) as (? & [?|Hall]); [by auto|]. split; [done|]. right.
      intros ed ? ?. destruct (Hall ed) as [|[|]]; set_solver.
  - apply subset_size. apply set_choose_L in Hne as [n Hn].
    destruct (Hnew n Hn) as [? _]. set_solver.
Qed.

Lemma dag_steps e ctx pctx tid env k st st' :
  well_formed (egraph e) → triggerMode (egraph e) = NodeTriggerAllPredecessor →
  (∀ i, loops_ok (se_loops (env i))) → st_completed st = ∅ →
  steps_to e ctx pctx tid env 0 k st st' →
  closed (egraph e) (st_completed st') ∧
  k ≤ size (st_completed st') ≤ size (nodes (egraph e)).
Proof.
  intros Hwf Hm HL H0 Hs.
  assert (closed (egraph e) (st_completed st) ∧ 0 ≤ size (st_completed st)) as [Hc Hsz].
  { split; [rewrite H0; intros n Hn; set_solver|lia]. }
  assert (closed (egraph e) (st_completed st') ∧ size (st_completed st) + k ≤ size (st_completed st'))
    as [Hc' Hk].
  { clear H0 Hsz. induction Hs as [i st|i k st st1 st2 Hstep Hs IH]; [split; [done|lia]|].
    destruct (dag_step _ _ _ _ _ _ _ _ Hwf (HL i) Hm Hc Hstep) as [Hc1 Hlt].
    destruct (IH Hc1) as [? ?]. split; [done|lia]. }
  split; [done|]. pose proof (closed_size _ _ Hc'). lia.
Qed.


(** The only way to run into the recursion limit. *)
Lemma superstep_recursion e ctx pctx tid se i st l st' :
  se_done se = None →
  superstep e ctx pctx tid se i st = Exit (Failed (GraphRecursionError l)) st' →
  (erecursionLimit e ≤ Z.of_nat i)%Z.
Proof.
  intros Hd. unfold superstep. rewrite Hd. destruct (Z.leb _ _) eqn:Hl; [by apply Z.leb_le in Hl|].
  destruct (prepareNextTasks _ _ _ _ _ _ _) as [[[|t tasks] trig]|err]; [done| |done].
  destruct (shouldInterrupt _ _);
    [|unfold interrupt_before; by destruct (saveCheckpoint _ _ _ _)].
  destruct (executeTasksAsync _ _ _ _ _) as [[results|] reg]; [|done].
  destruct (interruptTaskNames _); [|unfold interrupt_during; by destruct (saveCheckpoint _ _ _ _)].
  destruct (allFailed _); [done|]. unfold commit_step, checkpoint_step.
  intros H. repeat case_match; simplify_eq/=.
Qed.

Lemma start_run_fresh e env ctx input s pctx st :
  load_checkpoint e (getThreadID e (re_uuid env)) s = Ok None →
  start_run e env ctx input s = Ok (pctx, st) → st_completed st = ∅ ∧ pctx = ctx.
Proof.
  intros Hload. unfold start_run. rewrite Hload. unfold fresh_state.
  destruct (applyInput _ _ _ _) as [[[err|] reg] inp]; [done|].
  destruct (applyInput _ _ _ _) as [[[err|] reg'] inp']; [done|]. by intros [= <- <-].
Qed.

Lemma start_run_no_recursion e env ctx input s l :
  load_checkpoint e (getThreadID e (re_uuid env)) s = Ok None →
  start_run e env ctx input s ≠ Err (GraphRecursionError l).
Proof.
  intros Hload. unfold start_run. rewrite Hload. unfold fresh_state.
  destruct (applyInput _ _ _ _) as [[[err|] reg] inp]; [done|].
  by destruct (applyInput _ _ _ _) as [[[err|] reg'] inp'].
Qed.

Lemma finish_run_no_recursion e env st l : (finish_run e env st).1 ≠ Failed (GraphRecursionError l).
Proof.
  unfold finish_run. destruct (buildOutput _ _ _). destruct (econfig e); [|done].
  case_decide; [|done]. by destruct (saveDeferredCheckpoints _ _) as [[err|] st'].
Qed.

(** A fresh run of a graph in all-predecessors mode never exhausts a
    recursion limit that exceeds the number of its nodes. *)
Theorem dag_within_limit e env ctx input s l :
  well_formed (egraph e) → triggerMode (egraph e) = NodeTriggerAllPredecessor →
  (∀ i, loops_ok (se_loops (re_step env i)) ∧ se_done (re_step env i) = None) →
  (Z.of_nat (size (nodes (egraph e))) < erecursionLimit e)%Z →
  load_checkpoint e (getThreadID e (re_uuid env)) s = Ok None →
  ∃ x s', Run e env ctx input s = Some (x, s') ∧ x ≠ Failed (GraphRecursionError l).
Proof.
  intros Hwf Hm Henv Hlimit Hload. pose proof (run_ends e env ctx input s) as Hends.
  destruct (start_run e env ctx input s) as [[pctx st]|err] eqn:Hstart.
  - destruct (start_run_fresh _ _ _ _ _ _ _ Hload Hstart) as [H0 ->].
    destruct Hends as (k & st' & r & Hsteps & _ & Hr & -> & [[x s'] Hx]).
    exists x, s'. split; [done|]. intros ->.
    assert (k ≤ size (nodes (egraph e))) as Hk.
    { destruct (dag_steps e ctx ctx _ _ _ _ _ Hwf Hm (λ i, proj1 (Henv i)) H0 Hsteps); lia. }
    destruct r as [st1|st1|x st1]; [done| |]; injection Hx as Hx _.
    + by apply (finish_run_no_recursion e env st1 l).
    + subst x. apply superstep_recursion in Hr; [lia|apply Henv].
  - exists (Failed err), s. split; [done|]. intros [= ->].
    by apply (start_run_no_recursion e env ctx input s l).
Qed.
End loop.

(** ** Witnesses *)
Lemma canonical_steps_ok i : loops_ok (se_loops (re_step calm i)).
Proof. apply canonical_loops_ok. Qed.

Definition demo_steps (e : engine) (env : run_env) (tid : string) (k : nat)
    (st : run_state MemorySaver.t) : option (run_state MemorySaver.t) :=
  iter_steps (R := fixed_addresses) (F := amd64) (U := amd64_unsigned)
    (J := go_json) e ∅ ∅ tid (re_step env) 0 k st.


Lemma dag_within_limit_witness :
  ∃ x s', demo_run dag_engine calm (VObj ∅) None = Some (x, s') ∧ x ≠ Failed (GraphRecursionError 25).
Proof.
  apply (dag_within_limit (R := fixed_addresses) (F := amd64) (U := amd64_unsigned)
    (J := go_json) dag_engine calm ∅ (VObj ∅) None 25
    (build_well_formed _ _) eq_refl (λ i, conj (canonical_steps_ok i) eq_refl)).
  - vm_compute. reflexivity.
  - reflexivity.
Defined.
