(* ===== verification/ReadProps.v ===== *)
(** * Concurrent reads

    The tasks of a step read their channels concurrently.  When reading leaves
    the channels as they are, every schedule gives every task the same input;
    an [EphemeralValue] is cleared by the first reader. *)

From S2P Require Import RegistryProps.
From S2P Require Export Engine.

(** What a task sees of a registry. *)
Definition see (reg : registry) (m : gmap string val) (name : string) : gmap string val :=
  match (reg !! name) ≫= read_value with Some v => <[name := v]> m | None => m end.

Definition visible (reg : registry) (names : list string) : gmap string val :=
  foldl (see reg) ∅ names.

Definition stable (reg : registry) : Prop := ∀ k c, reg !! k = Some c → after_read c = c.

Lemma read_channel_stable reg name values :
  stable reg → read_channel name reg values = (Ok (see reg values name), reg).
Proof.
  intros Hs. unfold read_channel, see. destruct (reg !! name) as [c|] eqn:Hc; [|done].
  cbn [mbind option_bind].
  pose proof (Hs _ _ Hc) as Ha. unfold after_read in Ha. unfold read_value.
  pose proof (get_err c) as Herr.
  destruct (Channels.Get c) as [[v|e] c'] eqn:Hg; cbn [fst snd] in *; subst c';
    rewrite (insert_id reg name c Hc); [done|].
  by destruct (Herr c e eq_refl) as [-> _].
Qed.

(** A reader that has read a part of its channels. *)
Definition partial (reg : registry) (names : list string) (r : reader) : Prop :=
  ∃ before, names = before ++ todo r ∧ got r = Ok (visible reg before).

Definition partials (reg : registry) (tasks : list Task) (st : registry * list reader) : Prop :=
  st.1 = reg ∧ Forall2 (λ t r, partial reg (TChannels t) r) tasks st.2.

Definition left (st : registry * list reader) (i : nat) : nat :=
  match st.2 !! i with Some r => length (todo r) | None => 0 end.

Lemma read_step_partials reg tasks st i :
  stable reg → partials reg tasks st →
  partials reg tasks (read_step i st) ∧
  ∀ j, left (read_step i st) j = if decide (i = j) then pred (left st j) else left st j.
Proof.
  intros Hs [Hreg Hp]. unfold read_step, left.
  destruct (st.2 !! i) as [[td g]|] eqn:Hi.
  2: { split; [done|]. intros j. case_decide; [|done]. subst. by rewrite Hi. }
  destruct (Forall2_lookup_r _ _ _ _ _ Hp Hi) as (t & Ht & before & Hb & Hg).
  simpl in Hb, Hg. subst g. destruct td as [|name rest].
  { split; [done|]. intros j. case_decide; [|done]. subst. by rewrite Hi. }
  rewrite Hreg, read_channel_stable by done. cbn [is_ok]. split.
  - split; [done|]. cbn [snd]. rewrite <-(list_insert_id tasks i t Ht).
    apply Forall2_insert; [done|]. exists (before ++ [name]). cbn [todo got].
    split; [by rewrite Hb, <-app_assoc|]. unfold visible. by rewrite foldl_app.
  - intros j. cbn [snd]. destruct (decide (i = j)) as [<-|Hne].
    + rewrite list_lookup_insert_eq by by eapply lookup_lt_Some. by rewrite Hi.
    + by rewrite list_lookup_insert_ne by done.
Qed.

Lemma read_steps_partials reg tasks picks st :
  stable reg → partials reg tasks st →
  let st' := foldl (λ st i, read_step i st) st picks in
  partials reg tasks st' ∧ ∀ j, left st' j = left st j - count_occ Nat.eq_dec picks j.
Proof.
  intros Hs. revert st. induction picks as [|i picks IH]; intros st Hp; cbv zeta; cbn [foldl].
  { split; [done|]. intros j. simpl. lia. }
  destruct (read_step_partials reg tasks st i Hs Hp) as [Hp' Hl].
  destruct (IH _ Hp') as [? Hl']. split; [done|]. intros j. rewrite Hl', Hl. simpl.
  destruct (Nat.eq_dec i j), (decide (i = j)); lia.
Qed.

Lemma count_occ_replicate i n j :
  count_occ Nat.eq_dec (replicate n i) j = if decide (i = j) then n else 0.
Proof.
  induction n as [|n IH]; simpl; [by case_decide|]. rewrite IH.
  destruct (Nat.eq_dec i j), (decide (i = j)); lia.
Qed.

(** The rest of a schedule has a step for everything that is left. *)
Lemma finish_schedule_enough reg rs j : left (reg, rs) j ≤ count_occ Nat.eq_dec (finish_schedule rs) j.
Proof.
  unfold finish_schedule, left. cbn [snd].
  assert (∀ k (f : nat → nat), (∀ i, f i = k + i) →
    match rs !! j with Some r => length (todo r) | None => 0 end ≤
    count_occ Nat.eq_dec (concat (imap (λ i r, replicate (length (todo r)) (f i)) rs)) (k + j)) as H.
  { revert j. induction rs as [|r rs IH]; intros j k f Hf; [done|]. cbn [imap concat].
    rewrite count_occ_app, count_occ_replicate, Hf. destruct j as [|j].
    - rewrite decide_True by lia. simpl. lia.
    - etrans; [apply (IH j (S k) (f ∘ S)); intros i; unfold compose; rewrite Hf; lia|].
      replace (S k + j) with (k + S j) by lia. unfold compose at 1.
      match goal with |- _ ≤ _ + ?y => enough (count_occ Nat.eq_dec (concat (imap (λ i r, replicate (length (todo r)) (f (S i))) rs)) (k + S j) = y) by lia end.
      do 2 f_equal. }
  apply (H 0 id). done.
Qed.

Lemma read_all_stable sched tasks reg :
  stable reg →
  read_all sched tasks reg =
    (reg, (λ t, {| todo := []; got := Ok (visible reg (TChannels t)) |}) <$> tasks).
Proof.
  intros Hs. unfold read_all.
  assert (partials reg tasks (reg, start_reader <$> tasks)) as H0.
  { split; [done|]. cbn [snd]. apply Forall2_fmap_r, Forall_Forall2_diag, Forall_true.
    intros t. by exists []. }
  destruct (read_steps_partials reg tasks sched _ Hs H0) as [H1 _].
  set (st1 := foldl _ _ sched) in *.
  destruct (read_steps_partials reg tasks (finish_schedule st1.2) st1 Hs H1) as [H2 Hl].
  set (st2 := foldl _ st1 _) in *. destruct H2 as [Hreg Hp].
  destruct st2 as [reg2 rs2]. simpl in Hreg, Hp. subst reg2. f_equal.
  apply list_eq. intros i. rewrite list_lookup_fmap.
  destruct (rs2 !! i) as [r|] eqn:Hr.
  - destruct (Forall2_lookup_r _ _ _ _ _ Hp Hr) as (t & Ht & before & Hb & Hg). rewrite Ht. simpl.
    specialize (Hl i). pose proof (finish_schedule_enough st1.1 st1.2 i) as Hle.
    rewrite <-surjective_pairing in Hle.
    assert (left (reg, rs2) i = 0) as Hz by lia. unfold left in Hz. simpl in Hz. rewrite Hr in Hz.
    destruct r as [td g]. simpl in *. destruct td; [|done]. rewrite app_nil_r in Hb. by subst.
  - apply lookup_ge_None in Hr. rewrite <-(Forall2_length _ _ _ Hp) in Hr.
    by rewrite (proj2 (lookup_ge_None tasks i) Hr).
Qed.

(** Concurrent reads: when reading a channel does not change it, every task
    gets exactly the values of its channels that have one, whatever the schedule
    of the reads of all tasks, and the channels are as before. *)
Theorem reads_independent sched tasks reg :
  stable reg →
  read_all sched tasks reg =
    (reg, (λ t, {| todo := []; got := Ok (visible reg (TChannels t)) |}) <$> tasks).
Proof. apply read_all_stable. Qed.

Lemma stable_registry reg :
  (∀ k c e, reg !! k = Some c → ch_leaf c ≠ LEphemeralValue e) → stable reg.
Proof. intros H k c Hc. apply read_stable. intros e. by eapply H. Qed.

(** ** Witness and counterexample *)
Definition reading (name : string) (channels : list string) : Task :=
  MkTask name name None channels [] ∅ None.

Definition held (c : channel) (v : val) : channel := (Update [v] c).2.

Definition two_channels : registry :=
  {["x" := held (NewLastValue VNil) (VInt 1); "y" := held (NewLastValue VNil) (VInt 2)]}.

Lemma reads_independent_witness :
  stable two_channels ∧
  (read_all [1; 0; 1] [reading "a" ["x"; "z"]; reading "b" ["x"; "y"]] two_channels).2 =
    [{| todo := []; got := Ok {["x" := VInt 1]} |};
     {| todo := []; got := Ok {["x" := VInt 1; "y" := VInt 2]} |}].
Proof.
  assert (stable two_channels) as Hs.
  { apply stable_registry. intros k c e Hk. unfold two_channels in Hk.
    apply lookup_insert_Some in Hk as [[_ <-]|[_ Hk]]; [done|].
    by apply lookup_singleton_Some in Hk as [_ <-]. }
  split; [done|].
  rewrite (reads_independent [1; 0; 1] [reading "a" ["x"; "z"]; reading "b" ["x"; "y"]]
             two_channels Hs).
  vm_compute. reflexivity.
Defined.

(** An ephemeral value goes to whichever task reads it first. *)
Example ephemeral_read_race :
  let reg : registry := {["e" := held (Leaf (LEphemeralValue (EphemeralValue.New VNil true))) (VInt 7)]} in
  let tasks := [reading "a" ["e"]; reading "b" ["e"]] in
  (got <$> (read_all [0; 1] tasks reg).2) = [Ok {["e" := VInt 7]}; Ok ∅] ∧
  (got <$> (read_all [1; 0] tasks reg).2) = [Ok ∅; Ok {["e" := VInt 7]}].
Proof. split; vm_compute; reflexivity. Qed.
