(* ===== verification/ResumeProps.v ===== *)
(** * Input, interrupts and resuming

    A fresh run applies its input twice; what an interrupt saves and what a
    resumed run restores, through the in-memory saver. *)

From Stdlib Require Import Ascii.
From S2P Require Import JsonLaw RegistryProps GraphProps RoutingProps Demo.
From S2P Require Export Engine EngineProps ReadProps.

(** ** The set of completed nodes as a string *)
Lemma join_with_empty sep l :
  sep ≠ "" → join_with sep l = "" → l = [] ∨ l = [""].
Proof.
  destruct l as [|p [|q l]]; [by left|intros _ H; simpl in H; subst; by right|]. intros Hsep H.
  change (p +:+ sep +:+ join_with sep (q :: l) = "") in H.
  destruct p; [|done]. destruct sep; [done|done].
Qed.

Lemma string_set_perm s ord :
  ord ≡ₚ elements s → (∀ n, n ∈ s → str_mem nul n = false) →
  deserializeStringSet (serializeStringSet ord) =
    if decide (s = ∅ ∨ s = {[ "" ]}) then None else Some s.
Proof.
  intros Hord Hs. unfold deserializeStringSet.
  assert (serializeStringSet ord = join_with (String nul "") (sort_strings ord)) as Hser.
  { unfold serializeStringSet. by destruct ord. }
  assert (sort_strings ord ≡ₚ elements s) as Hp by by rewrite sort_strings_perm.
  rewrite Hser. destruct (decide (s = ∅ ∨ s = {[""]})) as [Hc|Hc].
  - destruct Hc as [-> | ->].
    + rewrite elements_empty in Hp. apply Permutation_nil_r in Hp. by rewrite Hp.
    + rewrite elements_singleton in Hp. apply Permutation_singleton_r in Hp. by rewrite Hp.
  - rewrite decide_False.
    2: { intros [Hn|Hn]%join_with_empty; [..|done]; apply Hc; rewrite Hn in Hp.
         - left. symmetry in Hp. apply Permutation_nil_r in Hp. by apply leibniz_equiv, elements_empty_inv.
         - right. apply set_eq. intros x. by rewrite <-elem_of_elements, <-Hp, elem_of_singleton,
             list_elem_of_singleton. }
    rewrite split_join.
    + f_equal. apply set_eq. intros x. by rewrite elem_of_list_to_set, Hp, elem_of_elements.
    + intros Hn. rewrite Hn in Hp. symmetry in Hp. apply Permutation_nil_r in Hp.
      apply Hc. left. by apply leibniz_equiv, elements_empty_inv.
    + apply Forall_forall. intros x. rewrite Hp, elem_of_elements. apply Hs.
Qed.

Lemma string_set_nul s :
  (∀ n, n ∈ s → str_mem nul n = false) →
  deserializeStringSet (serializeStringSet (elements s)) =
    if decide (s = ∅ ∨ s = {[ "" ]}) then None else Some s.
Proof. by apply string_set_perm. Qed.

(** The completed nodes survive their serialisation, whatever the order of
    the loop over the set, when no name contains a NUL byte; only the empty set
    and the set of the empty name are read back as nil. *)
Theorem string_set_roundtrip s ord :
  ord ≡ₚ elements s → (∀ n, n ∈ s → str_mem nul n = false) →
  deserializeStringSet (serializeStringSet ord) =
    if decide (s = ∅ ∨ s = {[ "" ]}) then None else Some s.
Proof. apply string_set_perm. Qed.

(** ** A fresh run *)
Lemma go_range_singleton {V} k (v : V) ord : go_range {[k := v]} ord → ord = [(k, v)].
Proof. unfold go_range. rewrite map_to_list_singleton. apply Permutation_singleton_r. Qed.

Definition counter_with (k : string) (z : Z) : channel :=
  Leaf (LBinaryOperatorAggregate
          (BinaryOperatorAggregate.Mk (BaseChannel.SetKey k (BaseChannel.New (VInt 0))) (VInt z) IntAdd)).

Lemma counter_update k z n :
  Update [VInt n] (counter_with k z) = (Ok true, counter_with k (int_add z n)).
Proof. reflexivity. Qed.

Lemma applyInput_counter ord ordw reg k z n :
  (∀ m, go_range m (ord m)) → (∀ m, go_range m (ordw m)) →
  reg !! k = Some (counter_with k z) →
  applyInput ord ordw reg (VObj {[k := VInt n]}) =
    (None, <[k := counter_with k (int_add z n)]> reg, VObj {[k := VInt n]}).
Proof.
  intros Ho How Hk. unfold applyInput. cbn [toMap as_map].
  rewrite (go_range_singleton _ _ _ (Ho {[k := VInt n]})).
  unfold fix_keys. cbn [foldl fst snd].
  rewrite decide_True by (unfold registered; eauto).
  rewrite decide_False by apply map_non_empty_singleton.
  unfold input_writes. rewrite map_fmap_singleton.
  rewrite (go_range_singleton _ _ _ (How {[k := [VInt n]]})).
  cbn [Reg.UpdateChannels]. by rewrite Hk, counter_update.
Qed.

(** A fresh run applies its input twice: a counter that starts at zero holds
    twice the number it was given before the first node runs. *)
Theorem input_applied_twice `{R : GoRuntime} `{F : GoFloat} `{U : GoUnsigned} `{T : GoTime}
    `{J : JsonText} {S : Type} `{C : BaseCheckpointer S} e env ctx k n s :
  (∀ m, go_range m (re_input env m)) → (∀ m, go_range m (re_input_writes env m)) →
  (∀ m, go_range m (re_input' env m)) → (∀ m, go_range m (re_input_writes' env m)) →
  gchannels (egraph e) !! k = Some (SetKey k int_counter) →
  load_checkpoint e (getThreadID e (re_uuid env)) s = Ok None →
  ∃ st c, start_run e env ctx (VObj {[k := VInt n]}) s = Ok (ctx, st) ∧
    st_reg st !! k = Some c ∧ read_value c = Some (VInt (wrap64 (n + n))).
Proof.
  intros H1 H2 H3 H4 Hk Hload. unfold start_run.
  assert ((Copy <$> gchannels (egraph e)) !! k = Some (counter_with k 0)) as H0.
  { by rewrite lookup_fmap, Hk. }
  rewrite (applyInput_counter _ _ _ k 0 n H1 H2 H0), Hload. unfold fresh_state.
  rewrite (applyInput_counter _ _ _ k (int_add 0 n) n H3 H4) by apply lookup_insert_eq.
  eexists _, (counter_with k (int_add (int_add 0 n) n)). split; [reflexivity|].
  split; [apply lookup_insert_eq|].
  change (Some (VInt (int_add (int_add 0 n) n)) = Some (VInt (wrap64 (n + n)))).
  unfold int_add. by rewrite Z.add_0_l, wrap64_add_l.
Qed.

(** ** What the in-memory saver keeps of an interrupt *)
Lemma memory_norm_lookup cp k : memory_norm cp !! k = (deepCopy ∘ deepCopy) <$> cp !! k.
Proof. unfold memory_norm, deepCopyMap. rewrite !lookup_fmap. by destruct (cp !! k). Qed.

Lemma memory_norm_text cp k s :
  cp !! k = Some (VStr s) → valid s → memory_norm cp !! k = Some (VStr s).
Proof. intros Hk Hs. rewrite memory_norm_lookup, Hk. unfold valid in Hs. simpl. by rewrite !Hs. Qed.

Lemma memory_norm_bytes cp k s :
  cp !! k = Some (VBytes s) → memory_norm cp !! k = Some (VStr (base64 s)).
Proof.
  intros Hk. rewrite memory_norm_lookup, Hk. simpl. by rewrite (base64_valid s : sanitize _ = _).
Qed.

Section resume.
Context `{R : GoRuntime} `{F : GoFloat} `{U : GoUnsigned} `{T : GoTime} `{J : JsonText}.

Definition reserved_keys : list string :=
  ["__step__"; "__last_completed_node__"; "__completed_tasks__"; "__last_state__"; "__sub_state__"].

Lemma save_json_ne key wrap v cp k : k ≠ key → save_json key wrap v cp !! k = cp !! k.
Proof.
  intros Hk. unfold save_json. destruct (is_nil v); [done|].
  destruct (json_marshal v); [by rewrite lookup_insert_ne|done].
Qed.

Lemma interrupt_payload_completed reg p step results :
  let cp := interrupt_payload reg p step results in
  cp !! "__completed_tasks__" = Some (VStr (serializeStringSet (elements (p_completed p)))) ∧
  cp !! "__last_completed_node__" = Some (VStr (p_last p)) ∧
  (∀ k, k ∉ reserved_keys → cp !! k = snapshot reg !! k).
Proof.
  unfold interrupt_payload, reserved_keys. split_and!.
  - rewrite !save_json_ne by done. by simplify_map_eq.
  - rewrite !save_json_ne by done. by simplify_map_eq.
  - intros k Hk. rewrite !not_elem_of_cons in Hk. destruct Hk as (?&?&?&?&?&_).
    rewrite !save_json_ne by done. by rewrite !lookup_insert_ne by done.
Qed.

Lemma interrupt_payload_sub reg p step results text :
  sub_state_value results ≠ VNil → json_marshal (sub_state_value results) = Some text →
  interrupt_payload reg p step results !! "__sub_state__" = Some (VBytes text).
Proof.
  intros Hn Ht. unfold interrupt_payload. unfold save_json at 1.
  destruct (is_nil _) eqn:E; [by destruct (sub_state_value results)|].
  by rewrite Ht, lookup_insert_eq.
Qed.

(** What the saver returns for the thread after an interrupt was saved. *)
Lemma interrupt_saved se tid step p results (st : run_state MemorySaver.t) s :
  st_cp st = Some s →
  ∃ s', interrupt_during se tid step p results st =
      Exit (Failed (GraphInterrupt (default [] (first_interrupt results)))) (set_cp (Some s') st) ∧
    ∀ e, requested_checkpoint e = "" →
      load_checkpoint e tid (Some s') =
        Ok (Some (memory_norm (interrupt_payload (st_reg st) p step results))).
Proof.
  intros Hs. unfold interrupt_during, saveCheckpoint. rewrite Hs.
  set (cp := interrupt_payload _ _ _ _).
  destruct (cp_put (thread_config tid) cp (se_put se).1 (se_put se).2 s) as [s'|err] eqn:Hput.
  - exists s'. split; [done|]. intros e He. unfold load_checkpoint. rewrite He.
    rewrite decide_True by done.
    by rewrite (get_put _ _ _ _ _ _ _ (thread_config_thread tid) Hput).
  - exfalso. pose proof (proj1 (put_total (norm := memory_norm) (thread_config tid) cp
      (se_put se).1 (se_put se).2 s)) as Hok.
    rewrite Hput in Hok. discriminate Hok. rewrite thread_config_thread. eauto.
Qed.


(** The state of an interrupted sub-graph does not survive the in-memory
    saver: it is saved as bytes, copied as JSON, and so comes back as its base64
    text, which the engine hands to the node as if it were the state. *)
Theorem sub_state_comes_back_encoded se tid step p results (st : run_state MemorySaver.t) s text :
  st_cp st = Some s →
  sub_state_value results ≠ VNil → json_marshal (sub_state_value results) = Some text →
  ∃ s' data x, interrupt_during se tid step p results st = Exit x (set_cp (Some s') st) ∧
    (∀ e, requested_checkpoint e = "" → load_checkpoint e tid (Some s') = Ok (Some data)) ∧
    ∀ ctx, pipeline_ctx data ctx !! SubGraphStateCtxKey = Some (VBytes (base64 text)).
Proof.
  intros Hs Hn Ht.
  destruct (interrupt_saved se tid step p results st s Hs) as (s' & Hint & Hload).
  eexists s', _, _. split; [exact Hint|]. split; [exact Hload|]. intros ctx. unfold pipeline_ctx.
  rewrite (memory_norm_bytes _ _ text) by (by apply interrupt_payload_sub).
  apply lookup_insert_eq.
Qed.
End resume.

(** ** The tasks next to an interrupted one *)
Section siblings.
Context `{R : GoRuntime} `{F : GoFloat} `{U : GoUnsigned} `{T : GoTime} `{J : JsonText}.
Context {CPT : Type} `{C : BaseCheckpointer CPT}.

Lemma record_results_interrupted results p :
  interruptTaskNames (foldl record_result p results) ≠ [] →
  interruptTaskNames p ≠ [] ∨
  ∃ r is_, r ∈ results ∧ RErr r = Some (GraphInterrupt is_).
Proof.
  revert p. induction results as [|r results IH]; intros p Hne; [by left|]. simpl in Hne.
  destruct (IH _ Hne) as [Hp|(r' & is_ & ? & ?)]; [|right; exists r', is_; split; [by right|done]].
  unfold record_result in Hp. destruct (RErr r) as [err|] eqn:Hr; [|by left].
  destruct (IsGraphInterrupt err) eqn:Hi; [|by left].
  right. destruct err; try done. eexists r, _. split; [left|done].
Qed.

Lemma interrupt_during_state se tid step p results (st : run_state CPT) is_ st' :
  interrupt_during se tid step p results st = Exit (Failed (GraphInterrupt is_)) st' →
  st_completed st' = st_completed st ∧ st_reg st' = st_reg st.
Proof.
  unfold interrupt_during. destruct (saveCheckpoint _ _ _ _); [|done]. by intros [= _ <-].
Qed.

Lemma commit_step_interrupt e se tid step results trig (st : run_state CPT) is_ st' :
  einterruptsAfter e = ∅ →
  commit_step e se tid step results trig st ≠ Exit (Failed (GraphInterrupt is_)) st'.
Proof.
  intros He H. unfold commit_step, checkpoint_step, shouldInterruptAfter in H.
  rewrite decide_True in H by done. repeat case_match; simplify_eq/=.
Qed.

(** An interrupt discards the writes of the whole step: when one task of a step
    interrupts, the tasks that completed next to it are recorded as completed,
    but what they wrote reaches no channel. *)
Theorem interrupt_loses_writes e ctx pctx tid se i (st : run_state CPT) is_ st' :
  stable (st_reg st) → einterrupts e = ∅ → einterruptsAfter e = ∅ → se_done se = None →
  superstep e ctx pctx tid se i st = Exit (Failed (GraphInterrupt is_)) st' →
  ∃ tasks triggers results r,
    prepareNextTasks (se_loops se) (egraph e) ctx (st_reg st) (st_completed st) (st_last st)
      (st_state st) = Ok (tasks, triggers) ∧
    RName <$> results = TName <$> tasks ∧
    r ∈ results ∧ (∃ is', RErr r = Some (GraphInterrupt is')) ∧
    st_completed st' = succeeded results ∪ st_completed st ∧
    st_reg st' = st_reg st.
Proof.
  intros Hst Hi Ha Hd. unfold superstep. rewrite Hd.
  assert (∀ ts, shouldInterrupt (einterrupts e) ts = []) as Hsi.
  { intros ts. unfold shouldInterrupt. by rewrite decide_True. }
  destruct (flush_fields (se_flush se) st) as (Hreg & _ & Hcomp & Hlast & Hstate & _).
  cbv zeta. set (st0 := flush (se_flush se) st) in *.
  destruct (Z.leb _ _); [done|]. rewrite Hreg, Hcomp, Hlast, Hstate.
  destruct (prepareNextTasks _ _ _ _ _ _ _) as [[tasks triggers]|err] eqn:Hp; [|done].
  destruct tasks as [|t tasks]; [done|]. rewrite Hsi.
  destruct (executeTasksAsync _ _ _ _ _) as [[results|] reg] eqn:He; [|done].
  pose proof (executeTasksAsync_names _ _ _ _ _ _ _ He) as Hn.
  assert (reg = st_reg st) as ->.
  { unfold executeTasksAsync in He. rewrite read_all_stable in He by done. by injection He. }
  pose proof (record_results_interrupted results
    {| allFailed := match results with [] => false | _ => true end; interruptTaskNames := [];
       p_completed := st_completed st; p_last := st_last st; p_state := st_state st |}) as Hint.
  pose proof (record_results_completed results
    {| allFailed := match results with [] => false | _ => true end; interruptTaskNames := [];
       p_completed := st_completed st; p_last := st_last st; p_state := st_state st |}) as [Hc _].
  cbn [st_completed st_last st_state set_reg]. rewrite Hcomp, Hlast, Hstate.
  fold (record_results results (st_completed st) (st_last st) (st_state st)) in Hint, Hc.
  destruct (interruptTaskNames _) eqn:Hnames.
  { destruct (allFailed _); [done|]. intros H. by apply commit_step_interrupt in H. }
  intros [Hc' Hr']%interrupt_during_state.
  destruct (Hint ltac:(done)) as [?|(r & is' & ? & ?)]; [done|].
  exists (t :: tasks), triggers, results, r. split_and!; [done..|by eauto| |].
  - rewrite Hc'. exact Hc.
  - by rewrite Hr'.
Qed.
End siblings.

(** ** Interrupts before nodes *)
Section before.
Context `{R : GoRuntime} `{F : GoFloat} `{U : GoUnsigned} `{T : GoTime} `{J : JsonText}.

Lemma start_run_saver {S} `{C : BaseCheckpointer S} e env ctx input (s : option S) pctx st :
  start_run e env ctx input s = Ok (pctx, st) → st_cp st = s ∧ st_async st = [].
Proof.
  unfold start_run. destruct (applyInput _ _ _ _) as [[[err|] reg] inp]; [done|].
  destruct (load_checkpoint _ _ _) as [[data|]|err]; [..|done].
  - unfold resume_state. destruct (if decide _ then _ else _) as [[err|] reg']; [done|].
    by intros [= _ <-].
  - unfold fresh_state. destruct (applyInput _ _ _ _) as [[[err|] reg'] inp']; [done|].
    by intros [= _ <-].
Qed.

Lemma start_run_completed {S} `{C : BaseCheckpointer S} e env ctx input (s : option S) pctx st data :
  load_checkpoint e (getThreadID e (re_uuid env)) s = Ok (Some data) →
  start_run e env ctx input s = Ok (pctx, st) → st_completed st = restored_completed data.
Proof.
  intros Hl. unfold start_run. destruct (applyInput _ _ _ _) as [[[err|] reg] inp]; [done|].
  rewrite Hl. unfold resume_state.
  destruct (if decide _ then _ else _) as [[err|] reg']; [done|]. by intros [= _ <-].
Qed.

Lemma flush_idle {S} `{C : BaseCheckpointer S} picks (st : run_state S) :
  st_async st = [] → flush picks st = st.
Proof.
  intros Ha. unfold flush. induction picks as [|i picks IH]; [done|]. simpl.
  unfold flush_one. by rewrite Ha.
Qed.

Lemma first_task L g ctx reg last st nd :
  nodes g !! entryPoint g = Some nd → NName nd = entryPoint g →
  entryPoint g ≠ "" → entryPoint g ≠ End_ →
  ∃ t trig, prepareNextTasks L g ctx reg ∅ last st = Ok ([t], trig) ∧ TName t = entryPoint g.
Proof.
  intros Hn Hname He Hend. unfold prepareNextTasks, prepareNextTasksWithMode.
  rewrite (decide_True (P := (∅ : gset string) = ∅)), !decide_False by done. unfold getNode. rewrite Hn. by eexists _, _.
Qed.

End before.

(** ** Witnesses *)
Lemma string_set_roundtrip_witness :
  deserializeStringSet (serializeStringSet ["node b"; "a"]) = Some {["a"; "node b"]}.
Proof.
  rewrite (string_set_roundtrip {["a"; "node b"]} ["node b"; "a"]).
  - vm_compute. reflexivity.
  - change (["node b"; "a"] ≡ₚ elements ({["a"; "node b"]} : gset string)).
    vm_compute elements. first [reflexivity|apply perm_swap].
  - intros n Hn. apply elem_of_union in Hn as [Hn|Hn];
      apply elem_of_singleton in Hn; rewrite Hn; reflexivity.
Defined.

Section witnesses.
#[local] Existing Instance fixed_addresses.
#[local] Existing Instance amd64.
#[local] Existing Instance amd64_unsigned.
#[local] Existing Instance tally_clock.
#[local] Existing Instance go_json.

Definition counting_engine : engine :=
  NewEngine (build (SMap true)
    [OpAddNode "a" (writes_to "b" (VBool true)); OpSetEntryPoint "a"; OpSetFinishPoint "a";
     OpAddChannel "n" (Some int_counter)]) [].

Lemma input_applied_twice_witness :
  ∃ st c, demo_start counting_engine calm (VObj {["n" := VInt 3]}) None = Ok (∅, st) ∧
    st_reg st !! "n" = Some c ∧ read_value c = Some (VInt 6).
Proof.
  assert (gchannels (egraph counting_engine) !! "n" = Some (SetKey "n" int_counter)) as Hn
    by reflexivity.
  assert (load_checkpoint counting_engine (getThreadID counting_engine (re_uuid calm))
            (None : option MemorySaver.t) = Ok None) as Hl by reflexivity.
  pose proof (input_applied_twice counting_engine calm ∅ "n" 3 None
    go_range_canonical go_range_canonical go_range_canonical go_range_canonical Hn Hl) as H.
  destruct H as (st & c & Hs & Hc & Hv).
  exists st, c. split; [exact Hs|]. split; [exact Hc|]. rewrite Hv. vm_compute. reflexivity.
Defined.

(** Node [a] is done; [b] interrupts next to [c]. *)
Definition interrupted_state : run_state MemorySaver.t :=
  MkState {["x" := held (NewLastValue VNil) (VStr "v")]} no_versions {["a"]} "a" (VObj ∅)
    (Some MemorySaver.New) [] [].

Definition sub_interrupt : list TaskResult :=
  [MkResult "b" VNil (Some (GraphInterrupt [NewInterrupt (VObj {["k" := VBool true]}) "i1"]))].

Definition interrupted_progress : progress :=
  record_results sub_interrupt {["a"]} "a" (VObj ∅).


Lemma sub_state_comes_back_encoded_witness :
  ∃ s' data x text,
    json_marshal (VObj {["k" := VBool true]}) = Some text ∧
    interrupt_during (calm_step canonical_loops 1) "t" 1 interrupted_progress sub_interrupt
      interrupted_state = Exit x (set_cp (Some s') interrupted_state) ∧
    (∀ e, requested_checkpoint e = "" → load_checkpoint e "t" (Some s') = Ok (Some data)) ∧
    pipeline_ctx data ∅ !! SubGraphStateCtxKey = Some (VBytes "eyJrIjp0cnVlfQ==").
Proof.
  destruct (json_marshal (VObj {["k" := VBool true]})) as [text|] eqn:E; [|vm_compute in E; discriminate].
  destruct (sub_state_comes_back_encoded (calm_step canonical_loops 1) "t" 1 interrupted_progress
    sub_interrupt interrupted_state MemorySaver.New text eq_refl)
    as (s' & data & x & Hi & Hl & Hp).
  - vm_compute. discriminate.
  - exact E.
  - exists s', data, x, text. split; [reflexivity|]. split; [exact Hi|]. split; [exact Hl|].
    rewrite Hp. vm_compute in E. injection E as <-. vm_compute. reflexivity.
Defined.

(** Node [a] leads to [b], which interrupts, and to [c], which writes. *)
Definition sibling_ops : list builder_op :=
  [OpAddNode "a" (writes_to "a" (VBool true)); OpAddNode "b" (interrupts_with (VStr "why"));
   OpAddNode "c" (writes_to "c" (VBool true)); OpAddEdge "a" "b"; OpAddEdge "a" "c";
   OpAddEdge "b" End_; OpAddEdge "c" End_; OpSetEntryPoint "a"].
Definition sibling_engine : engine := NewEngine (build (SMap true) sibling_ops) [threaded "t"].

Definition after_a : run_state MemorySaver.t :=
  MkState ∅ no_versions {["a"]} "a" (VObj ∅) (Some MemorySaver.New) [] [].

Lemma interrupt_loses_writes_witness :
  ∃ results st', RName <$> results = ["c"; "b"] ∧
    superstep sibling_engine ∅ ∅ "t" (calm_step canonical_loops 1) 1 after_a =
      Exit (Failed (GraphInterrupt [NewInterrupt (VStr "why") "i1"])) st' ∧
    st_completed st' = succeeded results ∪ {["a"]} ∧ st_reg st' = ∅.
Proof.
  destruct (superstep sibling_engine ∅ ∅ "t" (calm_step canonical_loops 1) 1 after_a)
    as [st'|st'|x st'] eqn:E; [vm_compute in E; discriminate..|].
  assert (x = Failed (GraphInterrupt [NewInterrupt (VStr "why") "i1"])) as ->
    by (vm_compute in E; injection E as <- <-; reflexivity).
  assert (stable (st_reg after_a)) as Hst by (intros k c Hk; discriminate Hk).
  destruct (interrupt_loses_writes sibling_engine ∅ ∅ "t" (calm_step canonical_loops 1) 1 after_a
    _ _ Hst eq_refl eq_refl eq_refl E) as (tasks & tr & results & r & Hp & Hn & _ & _ & Hc & Hr).
  exists results, st'. split; [|split; [reflexivity|split; [exact Hc|exact Hr]]].
  rewrite Hn. vm_compute in Hp. injection Hp as <- <-. reflexivity.
Defined.

(** The run stops in front of [a] with an empty interrupt. *)
Definition guarded_engine : engine :=
  NewEngine (build (SMap true) sibling_ops) [Opt.WithInterrupts ["a"]; threaded "t"].

End witnesses.
