(* ===== verification/Store.v ===== *)
(** * The namespaced key-value store (store/base.go, store/memory.go)

    [InMemoryStore]: documents by namespace and key, with times to live, a
    query language over their fields and search by embeddings.  The mutex
    makes an operation one step; the sweep of the background goroutine is an
    operation of its own.  [time.Now] is an argument: [clock] gives the time
    at which a loop looks at an entry. *)

From Stdlib Require Import Ascii.
From S2P Require Export Convert.

(** Unicode case mapping, regular expressions, the identity of pointers and the
    types outside of [gotype] belong to the runtime. *)
Class GoText := {
  to_lower : string → string;
  regexp_match : string → string → option bool;    (* pattern, text; [None] if invalid *)
  same_pointer : val → val → bool;
  comparable_other : string → bool
}.

Definition document : Type := gmap string val.

(** Data of the interface. *)
Record IndexConfig : Type := { Dims : Z; Embed : val; Fields : list string }.

(** The [index interface{}] argument of [PutItem]. *)
Inductive index_arg : Type :=
| NoIndex
| ByConfig (c : IndexConfig)
| ByFields (fields : list string)
| ByDefault (b : bool)
| OtherIndex.

Record Item : Type := {
  IValue : document; IKey : string; INamespace : list string;
  ICreatedAt : Z; IUpdatedAt : Z; IExpiresAt : option Z
}.

Record SearchItem : Type := { SItem : Item; SScore : option spec_float }.

Record MatchCondition : Type := { MatchType : string; MPath : list string }.

Inductive Op : Type :=
| GetOp (ns : list string) (key : string)
| PutOp (ns : list string) (key : string) (value : document) (ttl : option Z)
| SearchOp (prefix : list string) (filter : option document) (limit offset : Z)
    (query : option string)
| ListNamespacesOp (conditions : list MatchCondition) (maxDepth : option Z) (limit offset : Z)
| OtherOp.

Record StoreError : Type := { SMessage : string; SCode : string }.

Definition StoreError_Error (e : StoreError) : string :=
  if decide (SCode e = "") then SMessage e else SCode e +:+ ": " +:+ SMessage e.

Definition failure (A : Type) : Type := result StoreError A.

Definition store_closed : StoreError := {| SMessage := "store is closed"; SCode := "" |}.

(** The value of one operation of a batch. *)
Inductive batch_value : Type :=
| NoValue
| OneDocument (d : document)
| Documents (ds : list document)
| OpError (e : StoreError).

(** How a call ends; a batch can wait for a lock it holds itself. *)
Inductive outcome (A : Type) : Type := Returns (a : A) | Panics | Blocks.
Arguments Returns {A}. Arguments Panics {A}. Arguments Blocks {A}.

Module InMemoryStore.
Record t : Type := Mk {
  data : gmap string (gmap string document);
  ttl : gmap string Z;
  indexes : gmap string (gmap string (list spec_float));
  indexConfigs : gmap string IndexConfig;
  closed : bool
}.

Definition NewInMemoryStore : t := Mk ∅ ∅ ∅ ∅ false.

Definition nsKey (namespace : list string) : string := join_with "|" namespace.
Definition fullKey (ns key : string) : string := ns +:+ ":" +:+ key.

Definition set_data d (s : t) : t := Mk d (ttl s) (indexes s) (indexConfigs s) (closed s).
Definition set_ttl m (s : t) : t := Mk (data s) m (indexes s) (indexConfigs s) (closed s).
Definition set_indexes m (s : t) : t := Mk (data s) (ttl s) m (indexConfigs s) (closed s).
Definition set_configs m (s : t) : t := Mk (data s) (ttl s) (indexes s) m (closed s).

Definition checkTTL (now : Z) (fk : string) (s : t) : bool :=
  match ttl s !! fk with
  | Some expiry => (now <? expiry)%Z
  | None => true
  end.

(** A value under a namespace key; a missing namespace has none. *)
Definition lookup_doc (ns key : string) (s : t) : option document := data s !! ns ≫= (.!! key).

(** ** Reading and writing *)
Definition read_doc (now : Z) (ns key : string) (s : t) : option document :=
  if checkTTL now (fullKey ns key) s then lookup_doc ns key s else None.

Definition Get (now : Z) (namespace : list string) (key : string) (s : t) : failure (option document) :=
  if closed s then Err store_closed else Ok (read_doc now (nsKey namespace) key s).

(** Stores a document, creating its namespace. *)
Definition store_doc (ns key : string) (value : document) (s : t) : t :=
  set_data (<[ns := <[key := value]> (default ∅ (data s !! ns))]> (data s)) s.

Definition Put (namespace : list string) (key : string) (value : document) (s : t) : failure unit * t :=
  if closed s then (Err store_closed, s) else (Ok (), store_doc (nsKey namespace) key value s).

Definition Delete (namespace : list string) (key : string) (s : t) : failure unit * t :=
  if closed s then (Err store_closed, s)
  else
    let ns := nsKey namespace in
    match data s !! ns with
    | None => (Ok (), s)
    | Some nsData =>
        (Ok (), set_ttl (delete (fullKey ns key) (ttl s))
                  (set_data (<[ns := delete key nsData]> (data s)) s))
    end.

Definition expire (ns key : string) (expiry : Z) (s : t) : t :=
  set_ttl (<[fullKey ns key := expiry]> (ttl s)) s.

Definition SetTTL (now : Z) (namespace : list string) (key : string) (d : Z) (s : t) : failure unit * t :=
  if closed s then (Err store_closed, s)
  else if (d <=? 0)%Z then (Ok (), s)
  else (Ok (), expire (nsKey namespace) key (now + d)%Z s).

Definition BatchPut (ops : list (list string * string * document)) (s : t) : failure unit * t :=
  if closed s then (Err store_closed, s)
  else (Ok (), foldl (λ s op, store_doc (nsKey op.1.1) op.1.2 op.2 s) s ops).

(** [value[field].([]float64)] *)
Definition as_floats (v : val) : option (list spec_float) :=
  match v with
  | VSlice TFloat64 l => Some (omap as_float l)
  | VTypedNil (TSlice TFloat64) => Some []
  | _ => None
  end.

Fixpoint first_embedding (fields : list string) (value : document) : option (list spec_float) :=
  match fields with
  | [] => None
  | f :: fields => match as_floats (map_get value f) with
                   | Some emb => Some emb
                   | None => first_embedding fields value
                   end
  end.

(** The indexing of [PutItem]. *)
Definition put_index (ns key : string) (value : document) (index : index_arg) (s : t) : t :=
  match index with
  | ByConfig c =>
      let s := set_configs (<[ns := c]> (indexConfigs s)) s in
      if is_nil (Embed c) then s
      else match first_embedding (Fields c) value with
           | Some emb => set_indexes (<[ns := <[key := emb]> (default ∅ (indexes s !! ns))]> (indexes s)) s
           | None => s
           end
  | ByFields fields =>
      match fields with
      | [] => s
      | _ => set_configs (<[ns := {| Dims := 0; Embed := VNil; Fields := fields |}]> (indexConfigs s)) s
      end
  | ByDefault true =>
      set_configs (<[ns := {| Dims := 0; Embed := VNil; Fields := ["embedding"] |}]> (indexConfigs s)) s
  | ByDefault false | NoIndex | OtherIndex => s
  end.

Definition PutItem (now : Z) (namespace : list string) (key : string) (value : document)
    (index : index_arg) (d : option Z) (s : t) : failure unit * t :=
  if closed s then (Err store_closed, s)
  else
    let ns := nsKey namespace in
    let s := store_doc ns key value s in
    let s := match d with Some d => expire ns key (now + d)%Z s | None => s end in
    (Ok (), put_index ns key value index s).

(** A document as an item. *)
Definition item_of (now : Z) (namespace : list string) (ns key : string) (value : document) (s : t) : Item := {|
  IValue := value; IKey := key; INamespace := namespace; ICreatedAt := now; IUpdatedAt := now;
  IExpiresAt := ttl s !! fullKey ns key
|}.

(** [GetItem]; it looks at the clock for the time to live and for the item.
    [refreshTTL] has no effect. *)
Definition GetItem (checked now : Z) (namespace : list string) (key : string) (s : t)
  : failure (option Item) :=
  if closed s then Err store_closed
  else let ns := nsKey namespace in
       Ok ((λ v, item_of now namespace ns key v s) <$> read_doc checked ns key s).

(** ** The query language *)
Section query.
Context `{GoText}.

(** [strings.Contains(s, sub)] *)
Fixpoint str_contains (sub s : string) : bool :=
  String.prefix sub s || match s with EmptyString => false | String _ s' => str_contains sub s' end.

Definition matchQuery (value : document) (query : string) : bool :=
  existsb (λ kv, match kv.2 with
                 | VStr str => str_contains (to_lower query) (to_lower str)
                 | _ => false
                 end) (map_to_list value).

(** Whether [==] is defined on a type; comparing interfaces of another type
    panics. *)
Fixpoint comparable (t : gotype) : bool :=
  match t with
  | TSlice _ | TMap _ => false
  | TStruct _ fs => (fix go (fs : list (string * gotype)) : bool :=
                       match fs with [] => true | (_, t) :: fs' => comparable t && go fs' end) fs
  | TOther n => comparable_other n
  | _ => true
  end.

(** [a == b] on values of interface type; [None] is a panic.  Structs are
    compared field by field up to the first difference. *)
Fixpoint equal (a b : val) {struct a} : option bool :=
  match typeof a, typeof b with
  | None, None => Some true
  | Some t, Some u =>
      if negb (gotype_eqb t u) then Some false
      else if negb (comparable t) then None
      else match a, b with
           | VBool x, VBool y => Some (bool_decide (x = y))
           | VInt x, VInt y | VNum _ x, VNum _ y => Some (bool_decide (x = y))
           | VFloat x, VFloat y | VFloat32 x, VFloat32 y => Some (SFeqb x y)
           | VStr x, VStr y => Some (bool_decide (x = y))
           | VStruct _ fs, VStruct _ gs =>
               (fix go (fs gs : list (string * gotype * val)) : option bool :=
                  match fs, gs with
                  | (_, x) :: fs', (_, y) :: gs' =>
                      match equal x y with
                      | Some true => go fs' gs'
                      | r => r
                      end
                  | _, _ => Some true
                  end) fs gs
           | VTypedNil _, VTypedNil _ => Some true
           | VTypedNil _, _ | _, VTypedNil _ => Some false
           | _, _ => Some (same_pointer a b)
           end
  | _, _ => Some false
  end.

Definition greaterThan (a b : val) : bool :=
  match a, b with
  | VInt x, VInt y | VNum Int64 x, VNum Int64 y => (y <? x)%Z
  | VFloat x, VFloat y => SFltb y x
  | VStr x, VStr y => String.ltb y x
  | _, _ => false
  end.

Definition lessThan (a b : val) : bool :=
  match a, b with
  | VInt x, VInt y | VNum Int64 x, VNum Int64 y => (x <? y)%Z
  | VFloat x, VFloat y => SFltb x y
  | VStr x, VStr y => String.ltb x y
  | _, _ => false
  end.

Fixpoint in_values (value : val) (l : list val) : option bool :=
  match l with
  | [] => Some false
  | v :: l => match equal value v with
              | Some false => in_values value l
              | r => r
              end
  end.

Definition inArray (value arr : val) : option bool :=
  match as_list arr with Some l => in_values value l | None => Some false end.

Definition regexMatch (value pattern : val) : bool :=
  match value, pattern with
  | VStr str, VStr p => default false (regexp_match p str)
  | _, _ => false
  end.

Definition compare (fieldValue : val) (operator : string) (opValue : val) : option bool :=
  if decide (operator = "$eq") then equal fieldValue opValue
  else if decide (operator = "$ne") then negb <$> equal fieldValue opValue
  else if decide (operator = "$gt") then Some (greaterThan fieldValue opValue)
  else if decide (operator = "$gte") then
    if greaterThan fieldValue opValue then Some true else equal fieldValue opValue
  else if decide (operator = "$lt") then Some (lessThan fieldValue opValue)
  else if decide (operator = "$lte") then
    if lessThan fieldValue opValue then Some true else equal fieldValue opValue
  else if decide (operator = "$in") then inArray fieldValue opValue
  else if decide (operator = "$nin") then negb <$> inArray fieldValue opValue
  else if decide (operator = "$regex") then Some (regexMatch fieldValue opValue)
  else Some false.

(** A conjunction of tests that may panic, up to the first that fails. *)
Fixpoint all_of {A} (test : A → option bool) (l : list A) : option bool :=
  match l with
  | [] => Some true
  | x :: l => match test x with
              | Some true => all_of test l
              | r => r
              end
  end.

(** [matchFilter]; [ord] is the order of its loops over maps. *)
Definition match_field (ord : document → list (string * val)) (value : document)
    (fc : string * val) : option bool :=
  match value !! fc.1 with
  | None => Some false
  | Some fieldValue =>
      match as_map fc.2 with
      | Some condMap => all_of (λ oc, compare fieldValue oc.1 oc.2) (ord condMap)
      | None => compare fieldValue "$eq" fc.2
      end
  end.

Definition matchFilter (ord : document → list (string * val)) (value filter : document) : option bool :=
  all_of (match_field ord value) (ord filter).

(** ** Searching

    A nil slice and an empty one are one list. *)

(** The loop over a namespace: entries that pass the test, up to the limit. *)
Fixpoint collect {V A} (limit : Z) (test : string → V → option bool) (mk : string → V → A)
    (ord : list (string * V)) (acc : list A) : option (list A) :=
  match ord with
  | [] => Some acc
  | (k, v) :: ord =>
      match test k v with
      | None => None
      | Some false => collect limit test mk ord acc
      | Some true =>
          let acc := acc ++ [mk k v] in
          if ((0 <? limit) && (limit <=? Z.of_nat (length acc)))%Z then Some acc
          else collect limit test mk ord acc
      end
  end.

(** The offset is applied to what the limit has left, and ignored when it
    reaches past it. *)
Definition apply_offset {A} (offset : Z) (l : list A) : list A :=
  if ((0 <? offset) && (offset <? Z.of_nat (length l)))%Z then drop (Z.to_nat offset) l else l.

Definition live (clock : string → Z) (ns key : string) (s : t) : bool :=
  checkTTL (clock key) (fullKey ns key) s.

(** The order of the loop over the documents of a namespace. *)
Definition doc_order := gmap string document → list (string * document).

Definition Search (clock : string → Z) (ord : doc_order) (namespace : list string) (query : string)
    (limit : Z) (s : t) : failure (list document) :=
  if closed s then Err store_closed
  else
    let ns := nsKey namespace in
    match data s !! ns with
    | None => Ok []
    | Some nsData =>
        Ok (default [] (collect limit
             (λ k v, Some (live clock ns k s && (bool_decide (query = "") || matchQuery v query)))
             (λ _ v, v) (ord nsData) []))
    end.

Definition List_ (clock : string → Z) (ord : doc_order) (namespace : list string) (limit : Z) (s : t)
  : failure (list string) :=
  if closed s then Err store_closed
  else
    let ns := nsKey namespace in
    match data s !! ns with
    | None => Ok []
    | Some nsData => Ok (default [] (collect limit (λ k _, Some (live clock ns k s)) (λ k _, k) (ord nsData) []))
    end.

(** The test of an entry against a query and a filter. *)
Definition selects (clock : string → Z) (fo : document → list (string * val)) (ns : string)
    (query : option string) (filter : option document) (s : t) (k : string) (v : document) : option bool :=
  if negb (live clock ns k s) then Some false
  else if match query with
          | Some q => negb (bool_decide (q = "")) && negb (matchQuery v q)
          | None => false
          end then Some false
  else match filter with Some f => matchFilter fo v f | None => Some true end.

(** *** Search by embedding, in the arithmetic of an implementation that does
    not fuse multiplications and additions. *)
Definition fzero : spec_float := S754_zero false.
Definition fadd : spec_float → spec_float → spec_float := SFadd 53 1024.
Definition fmul : spec_float → spec_float → spec_float := SFmul 53 1024.

Definition cosineSimilarity (a b : list spec_float) : spec_float :=
  if bool_decide (length a ≠ length b) || bool_decide (a = []) then fzero
  else
    let '(dot, normA, normB) :=
      foldl (λ acc xy, let '(dot, na, nb) := acc in
                       (fadd dot (fmul xy.1 xy.2), fadd na (fmul xy.1 xy.1), fadd nb (fmul xy.2 xy.2)))
        (fzero, fzero, fzero) (zip a b) in
    if SFeqb normA fzero || SFeqb normB fzero then fzero
    else SFdiv 53 1024 dot (fmul (SFsqrt 53 1024 normA) (SFsqrt 53 1024 normB)).

(** The scored entries; [order] is what [sort.Slice] makes of them. *)
Definition scored (clock : string → Z) (ns : string) (query : list spec_float)
    (ord : list (string * list spec_float)) (s : t) : list SearchItem :=
  omap (λ ke, match lookup_doc ns ke.1 s with
              | Some value =>
                  if live clock ns ke.1 s then
                    Some {| SItem := item_of (clock ke.1) (split_on "|"%char ns) ns ke.1 value s;
                            SScore := Some (cosineSimilarity query ke.2) |}
                  else None
              | None => None
              end) ord.

Definition searchByEmbedding (clock : string → Z)
    (ord : gmap string (list spec_float) → list (string * list spec_float))
    (order : list SearchItem → list SearchItem) (ns : string) (query : list spec_float) (limit : Z) (s : t)
  : list SearchItem :=
  match indexes s !! ns with
  | None => []
  | Some idxMap =>
      let result := order (scored clock ns query (ord idxMap) s) in
      if ((0 <? limit) && (limit <? Z.of_nat (length result)))%Z then take (Z.to_nat limit) result
      else result
  end.

(** The choices of a search. *)
Record search_env : Type := {
  e_clock : string → Z;                             (* when an entry is looked at *)
  e_now : Z;                                        (* the time of the items *)
  e_docs : doc_order;
  e_filter : document → list (string * val);
  e_index : gmap string (list spec_float) → list (string * list spec_float);
  e_sort : list SearchItem → list SearchItem
}.

Definition SearchItems (e : search_env) (namespace : list string) (query : option string)
    (filter : option document) (limit offset : Z) (s : t) : outcome (failure (list SearchItem)) :=
  if closed s then Returns (Err store_closed)
  else
    let ns := nsKey namespace in
    match filter ≫= (λ f, as_floats (map_get f "$embedding")) with
    | Some emb =>
        Returns (Ok (apply_offset offset
                       (searchByEmbedding (e_clock e) (e_index e) (e_sort e) ns emb limit s)))
    | None =>
        match data s !! ns with
        | None => Returns (Ok [])
        | Some nsData =>
            match collect limit (selects (e_clock e) (e_filter e) ns query filter s)
                    (λ k v, {| SItem := item_of (e_now e) namespace ns k v s; SScore := None |})
                    (e_docs e nsData) [] with
            | Some results => Returns (Ok (apply_offset offset results))
            | None => Panics
            end
        end
    end.

(** ** Namespaces *)
Fixpoint has_prefix (l path : list string) : bool :=
  match path, l with
  | [], _ => true
  | p :: path, x :: l => bool_decide (x = p) && has_prefix l path
  | _ :: _, [] => false
  end.

Definition has_suffix (l path : list string) : bool :=
  bool_decide (length path ≤ length l) && has_prefix (drop (length l - length path) l) path.

(** The first condition that fails or holds decides; conditions of another
    type are skipped. *)
Fixpoint match_conditions (namespace : list string) (conditions : list MatchCondition) : bool :=
  match conditions with
  | [] => false
  | c :: conditions =>
      if decide (MatchType c = "prefix") then has_prefix namespace (MPath c)
      else if decide (MatchType c = "suffix") then has_suffix namespace (MPath c)
      else match_conditions namespace conditions
  end.

Definition matchNamespaceConditions (namespace : list string) (conditions : list MatchCondition) : bool :=
  match conditions with [] => true | _ => match_conditions namespace conditions end.

(** Every prefix of every namespace, by its key. *)
Definition add_prefix (parts : list string) (acc : gmap string (list string)) (i : nat)
  : gmap string (list string) :=
  let prefix := nsKey (take i parts) in
  match acc !! prefix with Some _ => acc | None => <[prefix := take i parts]> acc end.

Definition namespaceSet (s : t) : gmap string (list string) :=
  foldl (λ acc ns, let parts := split_on "|"%char ns in
                   foldl (add_prefix parts) acc (seq 1 (length parts)))
    ∅ (map_to_list (data s)).*1.

Definition ListNamespaces (ord : gmap string (list string) → list (string * list string))
    (conditions : list MatchCondition) (maxDepth : option Z) (limit offset : Z) (s : t)
  : outcome (failure (list (list string))) :=
  if closed s then Returns (Err store_closed)
  else
    let filtered := filter (λ ns, matchNamespaceConditions ns conditions = true) (ord (namespaceSet s)).*2 in
    let filtered := match maxDepth with
                    | Some d => filter (λ ns : list string, (Z.of_nat (length ns) ≤ d)%Z) filtered
                    | None => filtered
                    end in
    if (Z.of_nat (length filtered) <? offset)%Z then Panics
    else
      let filtered := drop (Z.to_nat offset) filtered in
      Returns (Ok (if ((0 <? limit) && (limit <? Z.of_nat (length filtered)))%Z
                   then take (Z.to_nat limit) filtered else filtered)).

(** ** Batches

    One operation with what it does to the store: [None] when it panics.  The
    lock of [ListNamespaces] is not reentrant, so in a batch it waits for
    ever. *)
Definition batch_search (e : search_env) (ns : string) (filter : option document) (limit offset : Z)
    (query : option string) (s : t) : option batch_value :=
  match data s !! ns with
  | None => Some NoValue
  | Some nsData =>
      match collect limit (selects (e_clock e) (e_filter e) ns query filter s) (λ _ v, v)
              (e_docs e nsData) [] with
      | Some ds => Some (Documents (apply_offset offset ds))
      | None => None
      end
  end.

Definition batch_op (e : search_env) (op : Op) (s : t) : outcome batch_value * t :=
  match op with
  | GetOp ns key =>
      (Returns (match read_doc (e_now e) (nsKey ns) key s with
                | Some d => OneDocument d
                | None => NoValue
                end), s)
  | PutOp ns key value d =>
      let s := store_doc (nsKey ns) key value s in
      (Returns NoValue, match d with Some d => expire (nsKey ns) key (e_now e + d)%Z s | None => s end)
  | SearchOp prefix filter limit offset query =>
      (match batch_search e (nsKey prefix) filter limit offset query s with
       | Some v => Returns v
       | None => Panics
       end, s)
  | ListNamespacesOp _ _ _ _ => (Blocks, s)
  | OtherOp => (Returns (OpError {| SMessage := "unknown operation type"; SCode := "" |}), s)
  end.

Fixpoint batch_ops (env : nat → search_env) (i : nat) (ops : list Op) (results : list batch_value) (s : t)
  : outcome (failure (list batch_value)) * t :=
  match ops with
  | [] => (Returns (Ok results), s)
  | op :: ops =>
      match batch_op (env i) op s with
      | (Returns v, s) => batch_ops env (S i) ops (results ++ [v]) s
      | (Panics, s) => (Panics, s)
      | (Blocks, s) => (Blocks, s)
      end
  end.

Definition Batch (env : nat → search_env) (ops : list Op) (s : t)
  : outcome (failure (list batch_value)) * t :=
  if closed s then (Returns (Err store_closed), s) else batch_ops env 0 ops [] s.
End query.

(** ** Life cycle *)
Definition Clear (s : t) : t := set_ttl ∅ (set_data ∅ s).

Definition Close (s : t) : t := Mk (data s) (ttl s) (indexes s) (indexConfigs s) true.

(** One tick of [cleanupExpired]: the entries whose time is over, in the order
    of the loop. *)
Definition drop_expired (parts : list string) (s : t) : t :=
  match parts with
  | [ns; key] =>
      match data s !! ns with
      | Some nsData =>
          let nsData := delete key nsData in
          set_data (if decide (nsData = ∅) then delete ns (data s) else <[ns := nsData]> (data s)) s
      | None => s
      end
  | _ => s
  end.

Definition clean_indexes (fk : string) (m : gmap string (gmap string (list spec_float)))
  : gmap string (gmap string (list spec_float)) :=
  omap (λ idx, let idx := delete fk idx in if decide (idx = ∅) then None else Some idx) m.

Definition sweep_one (now : Z) (s : t) (fe : string * Z) : t :=
  if (fe.2 <? now)%Z then
    let s := drop_expired (split_on ":"%char fe.1) s in
    set_indexes (clean_indexes fe.1 (indexes s)) (set_ttl (delete fe.1 (ttl s)) s)
  else s.

Definition sweep (now : Z) (ord : list (string * Z)) (s : t) : t := foldl (sweep_one now) s ord.
End InMemoryStore.
