(* ===== verification/StoreProps.v ===== *)
(** * The store implements documents with times to live

    With names that contain neither of the separators, the string keys of the
    store are harmless: it behaves like a map of documents by namespace and
    key with a second map of expiry times.  Other names share their times to
    live, and lose them without their documents. *)

From Stdlib Require Import Ascii.
From S2P Require Export Store.
Import InMemoryStore.

(** ** Names *)
Definition bar : ascii := "|"%char.
Definition colon : ascii := ":"%char.

Definition plain_name (s : string) : Prop := str_mem bar s = false ∧ str_mem colon s = false.
Definition good_ns (ns : list string) : Prop := ns ≠ [] ∧ Forall plain_name ns.
Definition good_key (k : string) : Prop := str_mem colon k = false.

Lemma str_mem_app c s t : str_mem c (s +:+ t) = str_mem c s || str_mem c t.
Proof. induction s as [|a s IH]; [done|]. change (bool_decide (a = c) || str_mem c (s +:+ t) = bool_decide (a = c) || str_mem c s || str_mem c t). by rewrite IH, orb_assoc. Qed.

Lemma str_mem_join c sep l :
  str_mem c sep = false → Forall (λ p, str_mem c p = false) l → str_mem c (join_with sep l) = false.
Proof.
  intros Hsep. induction l as [|p [|q l] IH]; [done|by intros [? _]%Forall_cons|].
  intros [Hp Hl]%Forall_cons. change (str_mem c (p +:+ sep +:+ join_with sep (q :: l)) = false).
  by rewrite !str_mem_app, Hp, Hsep, IH.
Qed.

Lemma nsKey_split ns : good_ns ns → split_on bar (nsKey ns) = ns.
Proof. intros [Hne Hns]. apply split_join; [done|]. eapply Forall_impl; [done|]. by intros ? [? _]. Qed.

Lemma nsKey_inj ns ns' : good_ns ns → good_ns ns' → nsKey ns = nsKey ns' → ns = ns'.
Proof. intros H H' E. by rewrite <-(nsKey_split ns), E, nsKey_split. Qed.

Lemma fullKey_split n k :
  str_mem colon n = false → good_key k → split_on colon (fullKey n k) = [n; k].
Proof.
  intros Hn Hk. unfold fullKey. change (":" +:+ k) with (String colon k).
  by rewrite split_on_app_sep, split_on_no_sep.
Qed.

Lemma nsKey_colon ns : good_ns ns → str_mem colon (nsKey ns) = false.
Proof.
  intros [_ Hns]. apply str_mem_join; [done|]. eapply Forall_impl; [done|]. by intros ? [_ ?].
Qed.

Lemma fullKey_good ns k : good_ns ns → good_key k → split_on colon (fullKey (nsKey ns) k) = [nsKey ns; k].
Proof. intros Hns Hk. apply fullKey_split; [by apply nsKey_colon|done]. Qed.

Lemma fullKey_inj ns k ns' k' :
  good_ns ns → good_key k → good_ns ns' → good_key k' →
  fullKey (nsKey ns) k = fullKey (nsKey ns') k' → ns = ns' ∧ k = k'.
Proof.
  intros Hns Hk Hns' Hk' E. apply (f_equal (split_on colon)) in E.
  rewrite !fullKey_good in E by done. injection E as E ->. by apply nsKey_inj in E.
Qed.

(** ** What a sweep does *)
Definition dead (now : Z) (l : list (string * Z)) (n k : string) : bool :=
  existsb (λ fe, (fe.2 <? now)%Z && bool_decide (split_on colon fe.1 = [n; k])) l.

Definition touched (now : Z) (l : list (string * Z)) (n : string) : bool :=
  existsb (λ fe, (fe.2 <? now)%Z && match split_on colon fe.1 with
                                     | [n'; _] => bool_decide (n' = n)
                                     | _ => false
                                     end) l.

Definition over (now : Z) (l : list (string * Z)) (fk : string) : bool :=
  existsb (λ fe, (fe.2 <? now)%Z && bool_decide (fe.1 = fk)) l.

(** The documents of a namespace after a sweep. *)
Definition survivors (now : Z) (l : list (string * Z)) (n : string) (docs : gmap string document)
  : gmap string document := filter (λ kd, dead now l n kd.1 = false) docs.

Definition swept (now : Z) (l : list (string * Z)) (n : string) (docs : gmap string document)
  : option (gmap string document) :=
  if touched now l n && bool_decide (survivors now l n docs = ∅) then None
  else Some (survivors now l n docs).

Lemma sweep_one_fields now s fe :
  ttl (sweep_one now s fe) = (if (fe.2 <? now)%Z then delete fe.1 (ttl s) else ttl s) ∧
  data (sweep_one now s fe) = (if (fe.2 <? now)%Z then data (drop_expired (split_on colon fe.1) s) else data s) ∧
  closed (sweep_one now s fe) = closed s.
Proof.
  unfold sweep_one. destruct (_ <? _)%Z; [|done].
  destruct (split_on _ _) as [|n [|k [|]]]; cbn; try done.
  by destruct (data s !! n).
Qed.

Lemma survivors_nil now n docs : survivors now [] n docs = docs.
Proof. unfold survivors. apply map_filter_id. done. Qed.

Lemma survivors_cons now fe l n docs :
  survivors now (fe :: l) n docs =
    survivors now l n (if (fe.2 <? now)%Z then
                         match split_on colon fe.1 with
                         | [n'; k] => if decide (n' = n) then delete k docs else docs
                         | _ => docs
                         end else docs).
Proof.
  unfold survivors, dead. cbn [existsb]. destruct (fe.2 <? now)%Z; [|by apply map_filter_ext].
  destruct (split_on colon fe.1) as [|n' [|k [|]]]; cbn [andb];
    try (apply map_filter_ext; intros k' d _; by rewrite bool_decide_eq_false_2).
  case_decide as Hn.
  - subst n'. apply map_eq. intros k'. apply option_eq. intros d. rewrite !map_lookup_filter_Some.
    rewrite lookup_delete_Some, orb_false_iff, bool_decide_eq_false. naive_solver.
  - apply map_filter_ext. intros k' d _. rewrite bool_decide_eq_false_2; [done|]. naive_solver.
Qed.

Lemma survivors_empty now l n : survivors now l n ∅ = ∅.
Proof. apply map_filter_empty. Qed.

Lemma drop_expired_data parts s n :
  data (drop_expired parts s) !! n =
    match parts with
    | [n'; k] => if decide (n' = n) then
                   match data s !! n with
                   | Some docs => if decide (delete k docs = ∅) then None else Some (delete k docs)
                   | None => None
                   end
                 else data s !! n
    | _ => data s !! n
    end.
Proof.
  destruct parts as [|n' [|k [|]]]; try done. unfold drop_expired.
  destruct (decide (n' = n)) as [->|Hne].
  - destruct (data s !! n) as [docs|] eqn:E; [|done]. cbn. case_decide; [apply lookup_delete_eq|apply lookup_insert_eq].
  - destruct (data s !! n') as [docs|] eqn:E; [|done]. cbn.
    case_decide; [by apply lookup_delete_ne|by apply lookup_insert_ne].
Qed.

Lemma sweep_data now l s n :
  data (sweep now l s) !! n = data s !! n ≫= swept now l n.
Proof.
  unfold sweep. revert s. induction l as [|fe l IH]; intros s; cbn [foldl].
  { destruct (data s !! n); [|done]. unfold swept. cbn. by rewrite survivors_nil. }
  rewrite IH. destruct (sweep_one_fields now s fe) as (_ & -> & _). unfold swept.
  assert (touched now (fe :: l) n =
    ((fe.2 <? now)%Z && match split_on colon fe.1 with [n'; _] => bool_decide (n' = n) | _ => false end)
      || touched now l n) as -> by done.
  destruct (fe.2 <? now)%Z eqn:He.
  2: { destruct (data s !! n) as [docs|]; [|done]. cbn. by rewrite survivors_cons, He. }
  rewrite drop_expired_data.
  destruct (split_on colon fe.1) as [|n' [|k [|]]] eqn:Hs;
    try (destruct (data s !! n) as [docs|]; [|done]; cbn; by rewrite survivors_cons, He, Hs).
  case_decide as Hn.
  2: { destruct (data s !! n) as [docs|]; [|done]. cbn.
       rewrite survivors_cons, He, Hs, decide_False, (bool_decide_eq_false_2 (n' = n)) by done.
       done. }
  subst n'. destruct (data s !! n) as [docs|]; [|done]. cbn.
  rewrite survivors_cons, He, Hs, (decide_True (P := n = n)), (bool_decide_eq_true_2 (n = n)) by done.
  cbn [andb orb].
  case_decide as Hd; cbn.
  - by rewrite Hd, survivors_empty, (bool_decide_eq_true_2 (∅ = ∅)).
  - destruct (touched now l n) eqn:Ht; [done|]. cbn.
    rewrite bool_decide_eq_false_2; [done|]. intros Hs'. apply Hd.
    apply map_eq. intros k'. rewrite lookup_empty. apply eq_None_not_Some. intros [d Hk'].
    assert (survivors now l n (delete k docs) !! k' = Some d) as Hin; [|by rewrite Hs', lookup_empty in Hin].
    apply map_lookup_filter_Some. split; [done|].
    unfold dead. apply not_true_iff_false. intros (fe' & Hin & Hfe)%existsb_exists.
    apply not_true_iff_false in Ht. apply Ht. apply existsb_exists. exists fe'. split; [done|].
    bool_hyps. apply andb_true_iff. split; [done|].
    match goal with H : split_on _ _ = [n; _] |- _ => rewrite H end. by apply bool_decide_eq_true.
Qed.

Lemma sweep_ttl now l s fk :
  ttl (sweep now l s) !! fk = if over now l fk then None else ttl s !! fk.
Proof.
  unfold sweep. revert s. induction l as [|fe l IH]; intros s; [done|]. cbn [foldl].
  rewrite IH. destruct (sweep_one_fields now s fe) as (-> & _ & _). unfold over. cbn [existsb].
  destruct (fe.2 <? now)%Z; cbn [andb]; [|done].
  destruct (bool_decide_reflect (fe.1 = fk)) as [->|Hne]; cbn [orb].
  - rewrite lookup_delete_eq. by destruct (existsb _ l).
  - by rewrite lookup_delete_ne.
Qed.

Lemma sweep_closed now l s : closed (sweep now l s) = closed s.
Proof.
  unfold sweep. revert s. induction l as [|fe l IH]; intros s; [done|]. cbn [foldl].
  rewrite IH. by destruct (sweep_one_fields now s fe) as (_ & _ & ->).
Qed.

(** A sweep seen through a key. *)
Lemma sweep_lookup_doc now l s n k :
  lookup_doc n k (sweep now l s) = if dead now l n k then None else lookup_doc n k s.
Proof.
  unfold lookup_doc. rewrite sweep_data. destruct (data s !! n) as [docs|]; [|by destruct (dead _ _ _ _)].
  cbn. assert (survivors now l n docs !! k = if dead now l n k then None else docs !! k) as Hk.
  { unfold survivors. destruct (dead now l n k) eqn:Hd.
    - apply map_lookup_filter_None. right. intros d _. cbn. by rewrite Hd.
    - destruct (docs !! k) as [d|] eqn:E.
      + by apply map_lookup_filter_Some.
      + apply map_lookup_filter_None. by left. }
  unfold swept. destruct (touched now l n && bool_decide _) eqn:Ht; [|done].
  apply andb_true_iff in Ht as [_ Ht%bool_decide_eq_true]. cbn.
  by rewrite <-Hk, Ht, lookup_empty.
Qed.

Lemma over_true now s ord fk :
  go_range (ttl s) ord → over now ord fk = true ↔ ∃ e, ttl s !! fk = Some e ∧ (e < now)%Z.
Proof.
  intros Hord. unfold over. rewrite existsb_exists. setoid_rewrite andb_true_iff.
  setoid_rewrite bool_decide_eq_true. setoid_rewrite Z.ltb_lt. split.
  - intros ([fk' e] & Hin & He & Heq). cbn in *. subst fk'. exists e. split; [|done].
    apply (go_range_elem _ _ _ _ Hord). by apply list_elem_of_In.
  - intros (e & Hin & He). exists (fk, e). split; [|done].
    apply list_elem_of_In. by apply (go_range_elem _ _ _ _ Hord).
Qed.

Lemma dead_over now l n k :
  dead now l n k = true ↔ split_on colon (fullKey n k) = [n; k] ∧ over now l (fullKey n k) = true.
Proof.
  unfold dead, over. rewrite !existsb_exists. setoid_rewrite andb_true_iff.
  setoid_rewrite bool_decide_eq_true. split.
  - intros (fe & Hin & He & Hs). assert (fe.1 = fullKey n k) as Heq.
    { rewrite <-(join_split colon fe.1), Hs. done. }
    rewrite <-Heq. split; [done|]. by exists fe.
  - intros [Hs (fe & Hin & He & Heq)]. exists fe. by rewrite Heq.
Qed.

(** ** The abstract store *)
Module StoreSpec.
Record t : Type := Mk {
  spaces : gmap (list string) (gmap string document);
  expiry : gmap (list string * string) Z
}.

Definition init : t := Mk ∅ ∅.

Definition visible (now : Z) (ns : list string) (k : string) (a : t) : option document :=
  match expiry a !! (ns, k) with
  | Some e => if (now <? e)%Z then spaces a !! ns ≫= (.!! k) else None
  | None => spaces a !! ns ≫= (.!! k)
  end.

(** A document may be written before or after its time to live, which it
    inherits from its predecessor. *)
Definition put ns k v (a : t) : t :=
  Mk (<[ns := <[k := v]> (default ∅ (spaces a !! ns))]> (spaces a)) (expiry a).
Definition expire (ns : list string) (k : string) (e : Z) (a : t) : t :=
  Mk (spaces a) (<[(ns, k) := e]> (expiry a)).
Definition remove ns k (a : t) : t :=
  match spaces a !! ns with
  | Some docs => Mk (<[ns := delete k docs]> (spaces a)) (delete (ns, k) (expiry a))
  | None => a
  end.

(** A sweep removes what has expired, and the namespaces it empties. *)
Definition expired (now : Z) (a : t) (id : list string * string) : bool :=
  match expiry a !! id with Some e => (e <? now)%Z | None => false end.
Definition sweep (now : Z) (a : t) : t :=
  Mk (map_imap (λ ns docs,
        let docs' := filter (λ kd : string * document, expired now a (ns, kd.1) = false) docs in
        if decide (docs' = ∅ ∧ map_Exists (λ id e, id.1 = ns ∧ e < now)%Z (expiry a)) then None
        else Some docs') (spaces a))
     (filter (λ ie, (now ≤ ie.2)%Z) (expiry a)).
End StoreSpec.

Inductive store_op : Type :=
| SPut (ns : list string) (k : string) (v : document)
| SPutItem (now : Z) (ns : list string) (k : string) (v : document) (i : index_arg) (d : option Z)
| SDelete (ns : list string) (k : string)
| SSetTTL (now : Z) (ns : list string) (k : string) (d : Z)
| SSweep (now : Z)
| SClear.

Definition store_step (ord : gmap string Z → list (string * Z)) (s : InMemoryStore.t) (o : store_op)
  : InMemoryStore.t :=
  match o with
  | SPut ns k v => (Put ns k v s).2
  | SPutItem now ns k v i d => (PutItem now ns k v i d s).2
  | SDelete ns k => (Delete ns k s).2
  | SSetTTL now ns k d => (SetTTL now ns k d s).2
  | SSweep now => sweep now (ord (ttl s)) s
  | SClear => Clear s
  end.

Definition spec_step (a : StoreSpec.t) (o : store_op) : StoreSpec.t :=
  match o with
  | SPut ns k v => StoreSpec.put ns k v a
  | SPutItem now ns k v _ d =>
      let a := StoreSpec.put ns k v a in
      match d with Some d => StoreSpec.expire ns k (now + d)%Z a | None => a end
  | SDelete ns k => StoreSpec.remove ns k a
  | SSetTTL now ns k d => if (d <=? 0)%Z then a else StoreSpec.expire ns k (now + d)%Z a
  | SSweep now => StoreSpec.sweep now a
  | SClear => StoreSpec.init
  end.

Definition good_op (o : store_op) : Prop :=
  match o with
  | SPut ns k _ | SPutItem _ ns k _ _ _ | SDelete ns k | SSetTTL _ ns k _ => good_ns ns ∧ good_key k
  | SSweep _ | SClear => True
  end.

(** ** The simulation relation *)
Record represents (s : InMemoryStore.t) (a : StoreSpec.t) : Prop := {
  rep_open : closed s = false;
  rep_data ns : good_ns ns → data s !! nsKey ns = StoreSpec.spaces a !! ns;
  rep_ttl ns k : good_ns ns → good_key k →
    ttl s !! fullKey (nsKey ns) k = StoreSpec.expiry a !! (ns, k);
  rep_ttl_good fk e : ttl s !! fk = Some e →
    ∃ ns k, good_ns ns ∧ good_key k ∧ fk = fullKey (nsKey ns) k;
  rep_good id e : StoreSpec.expiry a !! id = Some e → good_ns id.1 ∧ good_key id.2
}.

Lemma rep_init : represents NewInMemoryStore StoreSpec.init.
Proof. by split; intros; cbn in *; rewrite ?lookup_empty in *. Qed.

Lemma rep_put s a ns k v :
  represents s a → good_ns ns → represents (store_doc (nsKey ns) k v s) (StoreSpec.put ns k v a).
Proof.
  intros [Ho Hd Ht Hg Hs] Hns. split; [done| |done..]. intros ns' Hns'. cbn.
  destruct (decide (ns = ns')) as [->|Hne].
  - by rewrite !lookup_insert_eq, Hd.
  - rewrite !lookup_insert_ne; [by apply Hd|done|]. intros E. by apply Hne, nsKey_inj.
Qed.

Lemma rep_expire s a ns k e :
  represents s a → good_ns ns → good_key k →
  represents (expire (nsKey ns) k e s) (StoreSpec.expire ns k e a).
Proof.
  intros [Ho Hd Ht Hg Hs] Hns Hk. split; [done|done|..]; cbn.
  - intros ns' k' Hns' Hk'. destruct (decide ((ns, k) = (ns', k'))) as [[= <- <-]|Hne].
    + by rewrite !lookup_insert_eq.
    + rewrite !lookup_insert_ne; [by apply Ht|done|].
      intros E. apply Hne. by apply fullKey_inj in E as [-> ->].
  - intros fk e' [[<- _]|[_ ?]]%lookup_insert_Some; eauto.
  - intros id e' [[<- _]|[_ ?]]%lookup_insert_Some; eauto.
Qed.

Lemma rep_delete s a ns k :
  represents s a → good_ns ns → good_key k →
  represents (Delete ns k s).2 (StoreSpec.remove ns k a).
Proof.
  intros Hr Hns Hk. pose proof Hr as [Ho Hd Ht Hg Hs]. unfold Delete, StoreSpec.remove.
  rewrite Ho. rewrite (Hd ns Hns). destruct (StoreSpec.spaces a !! ns) as [docs|] eqn:E; [|done].
  split; cbn; [done|..].
  - intros ns' Hns'. destruct (decide (ns = ns')) as [->|Hne].
    + by rewrite !lookup_insert_eq.
    + rewrite !lookup_insert_ne; [by apply Hd|done|]. intros E'. by apply Hne, nsKey_inj.
  - intros ns' k' Hns' Hk'. destruct (decide ((ns, k) = (ns', k'))) as [[= <- <-]|Hne].
    + by rewrite !lookup_delete_eq.
    + rewrite !lookup_delete_ne; [by apply Ht|done|].
      intros E'. apply Hne. by apply fullKey_inj in E' as [-> ->].
  - intros fk e [_ ?]%lookup_delete_Some. eauto.
  - intros id e [_ ?]%lookup_delete_Some. eauto.
Qed.

Lemma rep_index s a n k v i : represents s a → represents (put_index n k v i s) a.
Proof.
  intros [Ho Hd Ht Hg Hs].
  assert (∀ s', data s' = data s → ttl s' = ttl s → closed s' = closed s → represents s' a) as H.
  { intros s' Ed Et Ec. split; [congruence|intros; rewrite Ed; auto|intros; rewrite Et; auto
      |intros ?? E; rewrite Et in E; eauto|done]. }
  unfold put_index. destruct i as [|c|[|f fs]|[|]|]; try (by apply H).
  destruct (is_nil (Embed c)); [by apply H|]. destruct (first_embedding _ _); by apply H.
Qed.

Lemma dead_expired now s a ord ns k :
  represents s a → go_range (ttl s) ord → good_ns ns →
  dead now ord (nsKey ns) k = StoreSpec.expired now a (ns, k).
Proof.
  intros [Ho Hd Ht Hg Hs] Hord Hns. apply eq_true_iff_eq.
  rewrite dead_over, (over_true _ _ _ _ Hord). unfold StoreSpec.expired. split.
  - intros [Hsp (e & He & Hlt)].
    assert (good_key k) as Hk.
    { destruct (Hg _ _ He) as (ns' & k' & Hns' & Hk' & E). rewrite E, fullKey_good in Hsp by done.
      by injection Hsp as _ ->. }
    rewrite Ht in He by done. rewrite He. by apply Z.ltb_lt.
  - destruct (StoreSpec.expiry a !! (ns, k)) as [e|] eqn:E; [|done]. intros Hlt%Z.ltb_lt.
    destruct (Hs _ _ E) as [_ Hk]. split; [by apply fullKey_good|]. exists e. by rewrite Ht.
Qed.

Lemma touched_expired now s a ord ns :
  represents s a → go_range (ttl s) ord → good_ns ns →
  touched now ord (nsKey ns) = true ↔
  map_Exists (λ (id : list string * string) e, id.1 = ns ∧ e < now)%Z (StoreSpec.expiry a).
Proof.
  intros [Ho Hd Ht Hg Hs] Hord Hns. unfold touched, map_Exists. rewrite existsb_exists. split.
  - intros ([fk e] & Hin & [Hlt%Z.ltb_lt Hsp]%andb_true_iff). cbn in *.
    apply list_elem_of_In, (go_range_elem _ _ _ _ Hord) in Hin.
    destruct (Hg _ _ Hin) as (ns' & k & Hns' & Hk & ->). rewrite fullKey_good in Hsp by done.
    apply bool_decide_eq_true, nsKey_inj in Hsp as ->; [|done..].
    exists (ns, k), e. by rewrite <-Ht.
  - intros ([ns' k] & e & He & [Heq Hlt]). cbn in Heq. subst ns'. destruct (Hs _ _ He) as [_ Hk].
    exists (fullKey (nsKey ns) k, e). cbn. rewrite fullKey_good by done. split.
    + apply list_elem_of_In, (go_range_elem _ _ _ _ Hord). by rewrite Ht.
    + apply andb_true_iff. split; [by apply Z.ltb_lt|by apply bool_decide_eq_true].
Qed.

Lemma rep_sweep now s a ord :
  represents s a → go_range (ttl s) ord → represents (sweep now ord s) (StoreSpec.sweep now a).
Proof.
  intros Hr Hord. pose proof Hr as [Ho Hd Ht Hg Hs]. split.
  - by rewrite sweep_closed.
  - intros ns Hns. rewrite sweep_data, Hd by done. cbn. rewrite map_lookup_imap.
    destruct (StoreSpec.spaces a !! ns) as [docs|]; [|done]. cbn. unfold swept, survivors.
    assert (filter (λ kd, dead now ord (nsKey ns) kd.1 = false) docs =
            filter (λ kd : string * document, StoreSpec.expired now a (ns, kd.1) = false) docs) as ->.
    { apply map_filter_ext. intros k d _. cbn. by rewrite (dead_expired now s a). }
    pose proof (touched_expired now s a ord ns Hr Hord Hns) as Htd.
    case_decide as Hdec.
    + destruct Hdec as [Hem Hex]. apply Htd in Hex. by rewrite Hex, bool_decide_eq_true_2.
    + destruct (touched now ord (nsKey ns)) eqn:E; [|done]. cbn.
      rewrite bool_decide_eq_false_2; [done|]. intros Hem. apply Hdec. split; [done|]. by apply Htd.
  - intros ns k Hns Hk. rewrite sweep_ttl. cbn.
    pose proof (over_true now s ord (fullKey (nsKey ns) k) Hord) as Hov. rewrite Ht in Hov by done.
    rewrite Ht by done. apply option_eq. intros e. rewrite map_lookup_filter_Some. cbn.
    destruct (over now ord _) eqn:E; split; try done.
    + intros [He Hle]. destruct (proj1 Hov eq_refl) as (e' & He' & Hlt). simplify_eq. lia.
    + intros He. split; [done|]. destruct (decide (now ≤ e)%Z); [done|].
      enough (false = true) by done. apply Hov. exists e. split; [done|lia].
    + by intros [? _].
  - intros fk e. rewrite sweep_ttl. destruct (over _ _ _); [done|]. apply Hg.
  - intros id e [He _]%map_lookup_filter_Some. by eapply Hs.
Qed.

Lemma rep_step ord s a o :
  (∀ m, go_range m (ord m)) → good_op o → represents s a →
  represents (store_step ord s o) (spec_step a o).
Proof.
  intros Hord Hg Hr. pose proof (rep_open _ _ Hr) as Ho.
  destruct o as [ns k v|now ns k v i d|ns k|now ns k d|now|]; cbn in *;
    try destruct Hg as [Hns Hk].
  - unfold Put. rewrite Ho. by apply rep_put.
  - unfold PutItem. rewrite Ho. apply rep_index. destruct d as [d|].
    + by apply rep_expire; [apply rep_put|..].
    + by apply rep_put.
  - by apply rep_delete.
  - unfold SetTTL. rewrite Ho. destruct (d <=? 0)%Z; [done|]. by apply rep_expire.
  - by apply rep_sweep.
  - split; cbn; [done|..]; intros; rewrite ?lookup_empty in *; done.
Qed.

Lemma rep_run ord ops s a :
  (∀ m, go_range m (ord m)) → Forall good_op ops → represents s a →
  represents (foldl (store_step ord) s ops) (foldl spec_step a ops).
Proof.
  intros Hord Hops. revert s a. induction Hops as [|o ops Ho _ IH]; intros s a Hr; [done|].
  by apply IH, rep_step.
Qed.

(** ** The loop over a namespace *)
Lemma collect_all {V A} limit (test : string → V → option bool) (b : string → V → bool)
    (mk : string → V → A) ord acc :
  (limit ≤ 0)%Z → (∀ k v, (k, v) ∈ ord → test k v = Some (b k v)) →
  collect limit test mk ord acc =
    Some (acc ++ ((λ kv, mk kv.1 kv.2) <$> filter (λ kv, b kv.1 kv.2 = true) ord)).
Proof.
  intros Hl. revert acc. induction ord as [|[k v] ord IH]; intros acc Ht; cbn [collect].
  { by rewrite app_nil_r. }
  rewrite (Ht k v) by by left.
  assert (∀ k v, (k, v) ∈ ord → test k v = Some (b k v)) as Ht' by (intros; apply Ht; by right).
  rewrite filter_cons. destruct (b k v) eqn:Hb; cbn.
  - rewrite Hb, (decide_True (P := true = true)) by done.
    rewrite (proj2 (Z.ltb_ge 0 limit)) by done. cbn. rewrite IH by done. by rewrite <-app_assoc.
  - rewrite Hb, (decide_False (P := false = true)) by done. by apply IH.
Qed.

(** A limit leaves the loop early, with entries that pass the test. *)
Lemma collect_bound {V A} limit (test : string → V → option bool) (mk : string → V → A) ord acc r :
  (0 < limit)%Z → (Z.of_nat (length acc) < limit)%Z →
  collect limit test mk ord acc = Some r → (Z.of_nat (length r) ≤ limit)%Z.
Proof.
  intros Hl. revert acc. induction ord as [|[k v] ord IH]; intros acc Ha; cbn [collect].
  { intros [= <-]. lia. }
  destruct (test k v) as [[|]|]; [|by apply IH|done].
  rewrite (proj2 (Z.ltb_lt 0 limit)) by done. cbn.
  destruct (limit <=? _)%Z eqn:E.
  - intros [= <-]. rewrite length_app. cbn. lia.
  - apply IH. apply Z.leb_gt in E. done.
Qed.


(** ** Sweeping *)

(** When every entry with a time to live can be parsed back, a sweep is
    invisible: at the time of the sweep or later every read gives what it gave
    without it. *)
Theorem sweep_invisible now now' ord s ns k :
  go_range (ttl s) ord → (now ≤ now')%Z → good_ns ns → good_key k →
  Get now' ns k (sweep now ord s) = Get now' ns k s.
Proof.
  intros Hord Hle Hns Hk. unfold Get. rewrite sweep_closed. destruct (closed s); [done|].
  unfold read_doc, checkTTL. rewrite sweep_ttl, sweep_lookup_doc.
  pose proof (over_true now s ord (fullKey (nsKey ns) k) Hord) as Hov.
  pose proof (dead_over now ord (nsKey ns) k) as Hdo.
  destruct (over now ord _) eqn:Eo.
  - destruct (proj1 Hov eq_refl) as (e & -> & Hlt).
    rewrite (proj2 Hdo) by (split; [by apply fullKey_good|done]).
    by rewrite (proj2 (Z.ltb_ge now' e)) by lia.
  - destruct (dead now ord (nsKey ns) k) eqn:Ed; [|done]. destruct (proj1 Hdo eq_refl); done.
Qed.

(** A document whose name contains the separator comes back to life: once
    its time is over it cannot be read, but the sweep fails to parse its entry,
    forgets the time and leaves the document, which is visible again. *)
Theorem swept_document_returns now ord s ns k v e :
  go_range (ttl s) ord → closed s = false →
  lookup_doc (nsKey ns) k s = Some v → ttl s !! fullKey (nsKey ns) k = Some e → (e < now)%Z →
  split_on colon (fullKey (nsKey ns) k) ≠ [nsKey ns; k] →
  (∀ now', (e ≤ now')%Z → Get now' ns k s = Ok None) ∧
  ∀ now', Get now' ns k (sweep now ord s) = Ok (Some v).
Proof.
  intros Hord Ho Hl He Hlt Hsp. unfold Get, read_doc, checkTTL. rewrite sweep_closed, Ho. split.
  - intros now' Hle. by rewrite He, (proj2 (Z.ltb_ge now' e)).
  - intros now'. rewrite sweep_ttl, sweep_lookup_doc.
    rewrite (proj2 (over_true now s ord (fullKey (nsKey ns) k) Hord)) by eauto.
    destruct (dead now ord (nsKey ns) k) eqn:Ed; [|by rewrite Hl].
    apply dead_over in Ed as [? _]. done.
Qed.

(** A document written over one whose time is over, but that no sweep has
    removed yet, is lost: it inherits the expiry, so no later read sees it, and
    the next sweep deletes it. *)
Theorem put_over_expired_is_lost now ord s ns k v e :
  (∀ m, go_range m (ord m)) → closed s = false → good_ns ns → good_key k →
  ttl s !! fullKey (nsKey ns) k = Some e → (e < now)%Z →
  let s' := (Put ns k v s).2 in
  (∀ now', (e ≤ now')%Z → Get now' ns k s' = Ok None) ∧
  ∀ now', Get now' ns k (sweep now (ord (ttl s')) s') = Ok None.
Proof.
  intros Hord Ho Hns Hk He Hlt. unfold Put. rewrite Ho. cbn [snd]. set (s' := store_doc _ _ _ s).
  assert (ttl s' !! fullKey (nsKey ns) k = Some e) as He' by done.
  assert (closed s' = false) as Ho' by done.
  unfold Get, read_doc, checkTTL. rewrite sweep_closed, Ho'. split.
  - intros now' Hle. by rewrite He', (proj2 (Z.ltb_ge now' e)).
  - intros now'. rewrite sweep_ttl, sweep_lookup_doc.
    assert (over now (ord (ttl s')) (fullKey (nsKey ns) k) = true) as Hov
      by (apply (over_true _ s' _ _ (Hord (ttl s'))); eauto).
    rewrite Hov, (proj2 (dead_over _ _ _ _)); [done|]. split; [by apply fullKey_good|done].
Qed.

(** ** Searching *)
Section search.
Context `{GoText}.

(** A search without limit and offset returns exactly the documents of the
    namespace that are alive, match the query and pass the filter, each once,
    with their times; with a limit it never returns more than the limit. *)
Theorem SearchItems_spec e namespace query filter_ limit offset s docs (b : string → document → bool) :
  let ns := nsKey namespace in
  closed s = false → filter_ ≫= (λ f, as_floats (map_get f "$embedding")) = None →
  data s !! ns = Some docs → go_range docs (e_docs e docs) → (offset ≤ 0)%Z →
  (∀ k v, docs !! k = Some v → selects (e_clock e) (e_filter e) ns query filter_ s k v = Some (b k v)) →
  ∃ r, SearchItems e namespace query filter_ limit offset s = Returns (Ok r) ∧
    ((0 < limit)%Z → (Z.of_nat (length r) ≤ limit)%Z) ∧
    ((limit ≤ 0)%Z →
       NoDup ((λ i, IKey (SItem i)) <$> r) ∧
       ∀ i, i ∈ r ↔ ∃ k v, docs !! k = Some v ∧ b k v = true ∧
                     i = {| SItem := item_of (e_now e) namespace ns k v s; SScore := None |}).
Proof.
  intros ns Ho Hemb Hd Hr Hoff Hsel. unfold SearchItems. rewrite Ho, Hemb. fold ns. rewrite Hd.
  set (test := selects _ _ _ _ _ _). set (mk := λ (k : string) (v : document), _ : SearchItem).
  assert (∀ k v, (k, v) ∈ e_docs e docs → test k v = Some (b k v)) as Ht.
  { intros k v Hin. apply Hsel. by apply (go_range_elem _ _ _ _ Hr). }
  assert (∀ l : list SearchItem, apply_offset offset l = l) as Hao.
  { intros l. unfold apply_offset. by rewrite (proj2 (Z.ltb_ge 0 offset)). }
  assert (∃ r, collect limit test mk (e_docs e docs) [] = Some r) as [r Hc].
  { clear -Ht. generalize (@nil SearchItem). induction (e_docs e docs) as [|[k v] l IH]; intros acc; [eauto|].
    cbn [collect]. rewrite (Ht k v) by by left.
    assert (∀ k v, (k, v) ∈ l → test k v = Some (b k v)) as Ht' by (intros; apply Ht; by right).
    destruct (b k v); [|by apply IH]. destruct (_ && _); [eauto|by apply IH]. }
  rewrite Hc, Hao. exists r. split; [done|]. split.
  { intros Hl. by apply (collect_bound _ _ _ _ _ _ Hl) in Hc. }
  intros Hl. rewrite (collect_all _ _ b) in Hc by done. injection Hc as <-. cbn [app]. split.
  - pose proof (go_range_NoDup _ _ Hr) as Hnd. clear -Hnd.
    induction (e_docs e docs) as [|x l IH]; [constructor|]. apply NoDup_cons in Hnd as [Hx Hl].
    rewrite filter_cons. case_decide; [|by apply IH]. apply NoDup_cons. split; [|by apply IH].
    intros (y & Hy & (z & -> & [_ Hin]%list_elem_of_filter)%list_elem_of_fmap)%list_elem_of_fmap.
    apply Hx. cbn in Hy. rewrite Hy. by apply list_elem_of_fmap_2.
  - intros i. rewrite list_elem_of_fmap. setoid_rewrite list_elem_of_filter. split.
    + intros ([k v] & -> & Hb & Hin). apply (go_range_elem _ _ _ _ Hr) in Hin. by exists k, v.
    + intros (k & v & Hk & Hb & ->). exists (k, v). split_and!; [done..|].
      by apply (go_range_elem _ _ _ _ Hr).
Qed.
End search.

(** ** Namespaces *)

(** A map that holds the lists of a set under their keys. *)
Definition indexes_set (m : gmap string (list string)) (S : list string → Prop) : Prop :=
  ∀ p x, m !! p = Some x ↔ p = nsKey x ∧ S x.

Definition barless (x : list string) : Prop := x ≠ [] ∧ Forall (λ p, str_mem bar p = false) x.

Lemma barless_inj x y : barless x → barless y → nsKey x = nsKey y → x = y.
Proof.
  intros [Hx1 Hx2] [Hy1 Hy2] E. rewrite <-(split_join bar x), <-(split_join bar y) by done.
  by apply (f_equal (split_on bar)) in E.
Qed.

Lemma split_on_parts c s : Forall (λ p, str_mem c p = false) (split_on c s).
Proof.
  induction s as [|a s IH]; [by constructor|]. cbn [split_on]. case_decide as Ha; [by constructor|].
  destruct (split_on c s) as [|p ps]; [constructor; [|done]; cbn; by rewrite bool_decide_eq_false_2|].
  apply Forall_cons in IH as [Hp Hps]. constructor; [|done]. cbn. by rewrite bool_decide_eq_false_2, Hp.
Qed.

Lemma barless_take i n : 0 < i → barless (take i (split_on bar n)).
Proof.
  intros Hi. split; [|apply Forall_take, split_on_parts].
  pose proof (split_on_nonempty bar n) as Hne. destruct i; [lia|]. by destruct (split_on bar n).
Qed.

Lemma indexes_add m S parts i :
  (∀ x, S x → barless x) → barless (take i parts) → indexes_set m S →
  indexes_set (add_prefix parts m i) (λ x, S x ∨ x = take i parts).
Proof.
  intros HS Hi Hm p x. unfold add_prefix. destruct (m !! nsKey (take i parts)) as [y|] eqn:E.
  - apply Hm in E as [Ey Hy]. rewrite (Hm p x). split; [naive_solver|].
    intros [-> [?| ->]]; [done|]. apply barless_inj in Ey; [|done|by apply HS]. by rewrite Ey.
  - rewrite lookup_insert_Some, (Hm p x). split; [naive_solver|].
    intros [-> [Hx| ->]]; [|by left]. right. split; [|done]. intros Heq.
    rewrite Heq, (proj2 (Hm (nsKey x) x)) in E by done. done.
Qed.

Lemma indexes_parts parts l m S :
  (∀ x, S x → barless x) → Forall (λ i, barless (take i parts)) l → indexes_set m S →
  (∀ x, S x ∨ (∃ i, i ∈ l ∧ x = take i parts) → barless x) ∧
  indexes_set (foldl (add_prefix parts) m l) (λ x, S x ∨ ∃ i, i ∈ l ∧ x = take i parts).
Proof.
  intros HS Hl. revert m S HS. induction Hl as [|i l Hi Hl IH]; intros m S HS Hm.
  - cbn. split; [naive_solver set_solver|]. intros p x. rewrite (Hm p x). set_solver.
  - cbn [foldl]. destruct (IH (add_prefix parts m i) (λ x, S x ∨ x = take i parts)) as [IH1 IH2].
    + naive_solver.
    + by apply indexes_add.
    + split; [set_solver|]. intros p x. rewrite (IH2 p x). set_solver.
Qed.

Lemma indexes_spaces l m S :
  (∀ x, S x → barless x) → indexes_set m S →
  indexes_set (foldl (λ acc ns, let parts := split_on bar ns in
                       foldl (add_prefix parts) acc (seq 1 (length parts))) m l)
    (λ x, S x ∨ ∃ n i, n ∈ l ∧ 0 < i ≤ length (split_on bar n) ∧ x = take i (split_on bar n)).
Proof.
  revert m S. induction l as [|n l IH]; intros m S HS Hm.
  - intros p x. cbn. rewrite (Hm p x). set_solver.
  - cbn [foldl].
    destruct (indexes_parts (split_on bar n) (seq 1 (length (split_on bar n))) m S HS) as [H1 H2]; [|done|].
    { apply Forall_forall. intros i Hi%elem_of_seq. apply barless_take. lia. }
    intros p x. rewrite (IH _ _ H1 H2 p x). setoid_rewrite elem_of_seq. split.
    + intros [-> [[?|(i & ? & ->)]|(n' & i & ? & ? & ->)]]; split; try done; [by left|right|right].
      * exists n, i. split_and!; [by left|lia..|done].
      * exists n', i. split_and!; [by right|lia..|done].
    + intros [-> [?|(n' & i & [->|?]%elem_of_cons & ? & ->)]]; split; try done; [by left; left|left; right|right].
      * exists i. split; [lia|done].
      * by exists n', i.
Qed.

Lemma namespaceSet_spec s p x :
  namespaceSet s !! p = Some x ↔
  p = nsKey x ∧ x ≠ [] ∧ ∃ n docs, data s !! n = Some docs ∧ x `prefix_of` split_on bar n.
Proof.
  assert (indexes_set ∅ (λ _, False)) as H0 by (intros q y; rewrite lookup_empty; naive_solver).
  pose proof (indexes_spaces (map_to_list (data s)).*1 ∅ (λ _, False) ltac:(done) H0 p x) as Hs.
  change (namespaceSet s) with (foldl (λ acc ns, let parts := split_on bar ns in
    foldl (add_prefix parts) acc (seq 1 (length parts))) ∅ (map_to_list (data s)).*1).
  rewrite Hs. clear Hs H0. split.
  - intros [-> [[]|(n & i & Hn & Hi & ->)]]. split; [done|]. split; [apply (barless_take i n); lia|].
    apply list_elem_of_fmap in Hn as ([n' docs] & -> & Hn%elem_of_map_to_list).
    exists n', docs. split; [done|]. apply prefix_take.
  - intros (-> & Hne & n & docs & Hn & Hp). split; [done|]. right.
    exists n, (length x). split; [|split].
    + apply list_elem_of_fmap. exists (n, docs). split; [done|]. by apply elem_of_map_to_list.
    + split; [by destruct x; cbn; [|lia]|by apply prefix_length].
    + destruct Hp as [k ->]. by rewrite take_app_length.
Qed.

Lemma NoDup_keyed {A B} (f : B → A) (l : list (A * B)) :
  NoDup l.*1 → (∀ p x, (p, x) ∈ l → p = f x) → NoDup l.*2.
Proof.
  induction l as [|[p x] l IH]; [constructor|]. cbn. intros [Hx Hl]%NoDup_cons Hp.
  apply NoDup_cons. split; [|apply IH; [done|]; intros; apply Hp; by right].
  intros ([p' x'] & Heq & Hin)%list_elem_of_fmap. cbn in Heq. subst x'. apply Hx.
  rewrite (Hp p x), <-(Hp p' x) by (by left || by right). by apply (list_elem_of_fmap_2 fst _ (p', x)).
Qed.

(** The namespaces listed are exactly the non-empty prefixes of the
    namespaces in use that match the conditions and the depth, each once; an
    offset past their number panics. *)
Theorem ListNamespaces_spec ord conditions maxDepth s :
  closed s = false → go_range (namespaceSet s) (ord (namespaceSet s)) →
  ∃ r, ListNamespaces ord conditions maxDepth 0 0 s = Returns (Ok r) ∧ NoDup r ∧
    (∀ x, x ∈ r ↔ x ≠ [] ∧ (∃ n docs, data s !! n = Some docs ∧ x `prefix_of` split_on bar n) ∧
                  matchNamespaceConditions x conditions = true ∧
                  (∀ d, maxDepth = Some d → (Z.of_nat (length x) ≤ d)%Z)) ∧
    ∀ limit offset, (Z.of_nat (length r) < offset)%Z →
      ListNamespaces ord conditions maxDepth limit offset s = Panics.
Proof.
  intros Ho Hr. unfold ListNamespaces. rewrite Ho.
  set (all := (ord (namespaceSet s)).*2).
  set (sel := match maxDepth with Some d => _ | None => _ end).
  rewrite (proj2 (Z.ltb_ge _ 0)) by lia. change (Z.to_nat 0) with 0. rewrite drop_0.
  exists sel. split; [done|].
  assert (∀ x, x ∈ all ↔ x ≠ [] ∧ ∃ n docs, data s !! n = Some docs ∧ x `prefix_of` split_on bar n) as Hall.
  { intros x. unfold all. rewrite list_elem_of_fmap. split.
    - intros ([p y] & -> & Hin%(go_range_elem _ _ _ _ Hr)). by apply namespaceSet_spec in Hin as [_ ?].
    - intros Hx. exists (nsKey x, x). split; [done|]. apply (go_range_elem _ _ _ _ Hr).
      by apply namespaceSet_spec. }
  assert (NoDup all) as Hnd.
  { apply (NoDup_keyed nsKey); [apply (go_range_NoDup _ _ Hr)|].
    intros p x Hin%(go_range_elem _ _ _ _ Hr). by apply namespaceSet_spec in Hin as [? _]. }
  split; [|split].
  - unfold sel. destruct maxDepth; by repeat apply NoDup_filter.
  - intros x. unfold sel. destruct maxDepth as [d|]; rewrite ?list_elem_of_filter, Hall; naive_solver.
  - intros limit offset Hlt. by rewrite (proj2 (Z.ltb_lt _ offset)).
Qed.

(** ** Witnesses and examples *)
Definition plain_text : GoText := {|
  to_lower s := s; regexp_match p s := Some (str_contains p s);
  same_pointer _ _ := false; comparable_other _ := false
|}.

Definition named (s : string) : document := {["name" := VStr s]}.

(** A session: two documents, one of them with a time to live. *)
Definition session : list store_op :=
  [SPut ["users"; "ann"] "profile" (named "Ann");
   SPutItem 100 ["users"; "ann"] "token" (named "t1") NoIndex (Some 50%Z);
   SSweep 120; SDelete ["users"; "bob"] "profile"].

Lemma good_session : Forall good_op session.
Proof.
  assert (good_ns ["users"; "ann"] ∧ good_ns ["users"; "bob"]) as [? ?]
    by (split; (split; [done|repeat constructor])).
  repeat apply Forall_cons_2; [..|apply Forall_nil_2]; done.
Qed.

Lemma good_users : good_ns ["users"; "ann"].
Proof. split; [done|repeat constructor]. Qed.


Definition token_store : InMemoryStore.t :=
  (PutItem 100 ["users"; "ann"] "token" (named "t1") NoIndex (Some 50%Z) NewInMemoryStore).2.

Lemma sweep_invisible_witness :
  Get 200 ["users"; "ann"] "token" (sweep 200 (map_to_list (ttl token_store)) token_store) =
  Get 200 ["users"; "ann"] "token" token_store.
Proof.
  apply (sweep_invisible 200 200); [apply go_range_canonical|lia|exact good_users|reflexivity].
Defined.

Lemma swept_document_returns_witness :
  let s := (PutItem 100 ["u"] "a:b" (named "t1") NoIndex (Some 50%Z) NewInMemoryStore).2 in
  Get 200 ["u"] "a:b" s = Ok None ∧
  Get 200 ["u"] "a:b" (sweep 200 (map_to_list (ttl s)) s) = Ok (Some (named "t1")).
Proof.
  intros s. destruct (swept_document_returns 200 (map_to_list (ttl s)) s ["u"] "a:b" (named "t1") 150)
    as [H1 H2]; [apply go_range_canonical|reflexivity|reflexivity|reflexivity|lia|discriminate|].
  split; [apply H1; lia|apply H2].
Defined.

Lemma put_over_expired_is_lost_witness :
  let s' := (Put ["users"; "ann"] "token" (named "t2") token_store).2 in
  Get 200 ["users"; "ann"] "token" s' = Ok None ∧
  Get 300 ["users"; "ann"] "token" (sweep 200 (map_to_list (ttl s')) s') = Ok None.
Proof.
  intros s'. destruct (put_over_expired_is_lost 200 map_to_list token_store ["users"; "ann"] "token"
    (named "t2") 150) as [H1 H2];
    [exact go_range_canonical|reflexivity|exact good_users|reflexivity|reflexivity|lia|].
  split; [apply H1; lia|apply H2].
Defined.

Definition search_choices : search_env := {|
  e_clock _ := 0%Z; e_now := 0%Z; e_docs := map_to_list; e_filter := map_to_list;
  e_index := map_to_list; e_sort := id
|}.

Definition people : InMemoryStore.t :=
  foldl (store_step map_to_list) NewInMemoryStore
    [SPut ["p"] "1" {["name" := VStr "Ann"; "age" := VInt 30]};
     SPut ["p"] "2" {["name" := VStr "Bob"; "age" := VInt 20]};
     SPut ["p"; "q"] "3" (named "Cid")].

Lemma SearchItems_spec_witness :
  ∃ r, SearchItems (H := plain_text) search_choices ["p"] None
         (Some {["age" := VObj {["$gt" := VInt 25]}]}) 0 0 people = Returns (Ok r) ∧
       (∀ i, i ∈ r → IKey (SItem i) = "1").
Proof.
  destruct (data people !! nsKey ["p"]) as [docs|] eqn:E; [|vm_compute in E; discriminate].
  destruct (SearchItems_spec (H := plain_text) search_choices ["p"] None
    (Some {["age" := VObj {["$gt" := VInt 25]}]}) 0 0 people docs (λ k _, bool_decide (k = "1")))
    as (r & Hr & _ & Hall); [reflexivity|reflexivity|exact E|apply go_range_canonical|lia| |].
  - assert (forallb (λ kv, bool_decide (selects (H := plain_text) (e_clock search_choices)
      (e_filter search_choices) (nsKey ["p"]) None (Some {["age" := VObj {["$gt" := VInt 25]}]}) people
      kv.1 kv.2 = Some (bool_decide (kv.1 = "1")))) (map_to_list docs) = true) as Hb.
    { vm_compute in E. injection E as <-. vm_compute. reflexivity. }
    intros k v Hk. rewrite forallb_forall in Hb. apply elem_of_map_to_list, list_elem_of_In in Hk.
    exact (proj1 (bool_decide_eq_true _) (Hb _ Hk)).
  - exists r. split; [exact Hr|]. intros i Hi.
    apply (proj2 (Hall ltac:(lia))) in Hi as (k & v & _ & Hk & ->).
    apply bool_decide_eq_true in Hk. exact Hk.
Defined.

Lemma ListNamespaces_spec_witness :
  ∃ r, ListNamespaces map_to_list [] None 0 0 people = Returns (Ok r) ∧ ["p"; "q"] ∈ r ∧
       ListNamespaces map_to_list [] None 0 3 people = Panics.
Proof.
  destruct (ListNamespaces_spec map_to_list [] None people) as (r & Hr & _ & Hin & Hp);
    [reflexivity|apply go_range_canonical|].
  exists r. split; [exact Hr|]. split.
  - apply Hin. split; [discriminate|]. split; [|split; [reflexivity|discriminate]].
    exists "p|q", {["3" := named "Cid"]}. split; [vm_compute; reflexivity|].
    exists []. vm_compute. reflexivity.
  - apply Hp. vm_compute in Hr. injection Hr as <-. vm_compute. reflexivity.
Defined.

(** Names that contain the separator share a time to live. *)
Example names_share_ttl :
  let s := (PutItem 0 ["a"] "b:c" (named "x") NoIndex (Some 10%Z)
             (Put ["a:b"] "c" (named "y") NewInMemoryStore).2).2 in
  Get 5 ["a:b"] "c" s = Ok (Some (named "y")) ∧ Get 20 ["a:b"] "c" s = Ok None.
Proof. split; vm_compute; reflexivity. Qed.

(** An offset that reaches past the results is ignored instead of giving none. *)
Example offset_past_the_end :
  ∃ r r', SearchItems (H := plain_text) search_choices ["p"] None None 0 1 people = Returns (Ok r) ∧
          SearchItems (H := plain_text) search_choices ["p"] None None 0 2 people = Returns (Ok r') ∧
          length r = 1 ∧ length r' = 2.
Proof. eexists _, _. split_and!; vm_compute; reflexivity. Qed.

(** Listing namespaces in a batch waits for the lock the batch holds, and a
    filter on a slice panics halfway through a batch. *)
Example batch_not_atomic :
  let put := PutOp ["p"] "4" {["l" := VList []]} None in
  let run ops := Batch (H := plain_text) (λ _, search_choices) ops people in
  (run [put; ListNamespacesOp [] None 0 0]).1 = Blocks ∧
  (run [put; SearchOp ["p"] (Some {["l" := VList []]}) 0 0 None]).1 = Panics ∧
  lookup_doc "p" "4" (run [put; SearchOp ["p"] (Some {["l" := VList []]}) 0 0 None]).2 =
    Some {["l" := VList []]}.
Proof. split_and!; vm_compute; reflexivity. Qed.
