(* ===== verification/Cache.v ===== *)
(** * The node cache (pregel/cache.go)

    [MemoryCache] with its eviction policies, the interface [Cache] and the
    executor that puts a cache in front of a function. *)

From S2P Require Import Types.
From S2P Require Export Errors JsonText.

(** What an operation takes from the runtime: the clock when it is first read,
    when it is read again, and the order of a loop over a map. *)
Record moment : Type := {
  now : Z;
  later : Z;
  range : ∀ V : Type, gmap string V → list (string * V)
}.

(** ** The interface *)
Class Cache (C : Type) := {
  cache_get : moment → string → C → option val * C;
  cache_set : moment → string → val → Z → C → C;   (* the time to live last *)
  cache_delete : string → C → C;
  cache_clear : C → C
}.

(** What clients rely on: a cache answers only what was stored under the key.
    [may_answer c k v]: the cache may answer [v] for [k] now or later. *)
Class CacheLaws (C : Type) `{Cache C} := {
  may_answer : C → string → val → Prop;
  get_answers m k c v : (cache_get m k c).1 = Some v → may_answer c k v;
  get_keeps m k c k' v : may_answer (cache_get m k c).2 k' v → may_answer c k' v;
  set_adds m k v ttl c k' v' :
    may_answer (cache_set m k v ttl c) k' v' → (k' = k ∧ v' = v) ∨ may_answer c k' v';
  delete_keeps k c k' v : may_answer (cache_delete k c) k' v → may_answer c k' v;
  clear_forgets c k v : ¬ may_answer (cache_clear c) k v
}.

(** ** In memory *)
Inductive EvictionPolicy : Type := EvictLRU | EvictLFU | EvictRandom.

(** [expiration] is [None] for the zero time. *)
Record cacheEntry : Type := MkEntry {
  cvalue : val; expiration : option Z; lastAccess : Z; hits : Z
}.

Module MemoryCache.
Record t : Type := Mk {
  data : gmap string cacheEntry;
  maxSize : Z;
  eviction : EvictionPolicy
}.

Definition NewMemoryCache (max : Z) (p : EvictionPolicy) : t := Mk ∅ max p.

Definition set_data d (c : t) : t := Mk d (maxSize c) (eviction c).

Definition is_expired (time : Z) (e : cacheEntry) : bool :=
  match expiration e with Some x => (x <? time)%Z | None => false end.

Definition Get (m : moment) (key : string) (c : t) : option val * t :=
  match data c !! key with
  | None => (None, c)
  | Some e =>
      if is_expired (now m) e then (None, c)
      else (Some (cvalue e),
            set_data (<[key := MkEntry (cvalue e) (expiration e) (later m) (int_add (hits e) 1)]> (data c)) c)
  end.

(** The loops of [evict]: the first entry with the least access time, the one
    with the least hits, the first one.  The empty key stands for none. *)
Definition oldest_step (acc : option Z * string) (ke : string * cacheEntry) : option Z * string :=
  match acc.1 with
  | None => (Some (lastAccess ke.2), ke.1)
  | Some oldest => if (lastAccess ke.2 <? oldest)%Z then (Some (lastAccess ke.2), ke.1) else acc
  end.

Definition least_hits_step (acc : Z * string) (ke : string * cacheEntry) : Z * string :=
  if (acc.1 =? -1)%Z || (hits ke.2 <? acc.1)%Z then (hits ke.2, ke.1) else acc.

Definition keyToDelete (m : moment) (c : t) : string :=
  let ord := range m cacheEntry (data c) in
  match eviction c with
  | EvictLRU => (foldl oldest_step (None, "") ord).2
  | EvictLFU => (foldl least_hits_step ((-1)%Z, "") ord).2
  | EvictRandom => match ord with (k, _) :: _ => k | [] => "" end
  end.

Definition evict (m : moment) (c : t) : t :=
  let k := keyToDelete m c in
  if decide (k = "") then c else set_data (delete k (data c)) c.

Definition Set_ (m : moment) (key : string) (value : val) (ttl : Z) (c : t) : t :=
  let c := if (maxSize c <=? Z.of_nat (size (data c)))%Z then evict m c else c in
  let x := if (0 <? ttl)%Z then Some (now m + ttl)%Z else None in
  set_data (<[key := MkEntry value x (later m) 0]> (data c)) c.

Definition Delete (key : string) (c : t) : t := set_data (delete key (data c)) c.
Definition Clear (c : t) : t := set_data ∅ c.
End MemoryCache.

#[global] Instance MemoryCache_cache : Cache MemoryCache.t := {
  cache_get := MemoryCache.Get; cache_set := MemoryCache.Set_;
  cache_delete := MemoryCache.Delete; cache_clear := MemoryCache.Clear
}.

(** The cache that stores nothing. *)
Definition NoopCache : Type := unit.
#[global] Instance NoopCache_cache : Cache NoopCache := {
  cache_get _ _ c := (None, c); cache_set _ _ _ _ c := c; cache_delete _ c := c; cache_clear c := c
}.

(** ** Keys *)
Class Sha256Hex := { sha256_hex : string → string }.

Definition GenerateCacheKey `{JsonText} `{Sha256Hex} (nodeName : string) (input : val) : string :=
  match json_marshal input with
  | None => nodeName +:+ ":" +:+ fmt_T input
  | Some text => nodeName +:+ ":" +:+ sha256_hex text
  end.

(** ** The executor *)
Record CachePolicy : Type := {
  KeyFunc : option (context → val → string);
  TTL : option Z
}.

Section executor.
Context `{JsonText} `{Sha256Hex} {C : Type} `{Cache C}.

Definition cache_key (policy : option CachePolicy) (ctx : context) (nodeName : string) (input : val) : string :=
  match policy ≫= KeyFunc with
  | Some f => f ctx input
  | None => GenerateCacheKey nodeName input
  end.

(** [CachedExecutor.Execute]; [ms] are the moments of the lookup and of
    the store. *)
Definition CachedExecute (policy : option CachePolicy) (ms : moment * moment) (ctx : context) (nodeName : string)
    (input : val) (fn : context → val → res val) (c : C) : res val * C :=
  let key := cache_key policy ctx nodeName input in
  match cache_get ms.1 key c with
  | (Some cached, c) => (Ok cached, c)
  | (None, c) =>
      match fn ctx input with
      | Err e => (Err e, c)
      | Ok result => (Ok result, cache_set ms.2 key result (default 0%Z (policy ≫= TTL)) c)
      end
  end.
End executor.

(** * Properties *)

(** ** The memory cache answers what was stored *)
Lemma memory_set_lookup m k v ttl (c : MemoryCache.t) k' e :
  MemoryCache.data (MemoryCache.Set_ m k v ttl c) !! k' = Some e →
  (k' = k ∧ cvalue e = v) ∨ MemoryCache.data c !! k' = Some e.
Proof.
  unfold MemoryCache.Set_. cbn. intros [[<- <-]|[_ He]]%lookup_insert_Some; [by left|right].
  revert He. case_match; [|done]. unfold MemoryCache.evict.
  case_decide; [done|]. cbn. by intros [_ ?]%lookup_delete_Some.
Qed.

#[global, refine] Instance memory_cache_laws : CacheLaws MemoryCache.t := {
  may_answer c k v := ∃ e, MemoryCache.data c !! k = Some e ∧ cvalue e = v
}.
Proof.
  - intros m k c v. cbn. unfold MemoryCache.Get. destruct (MemoryCache.data c !! k) as [e|]; [|done].
    destruct (MemoryCache.is_expired _ _); [done|]. intros [= <-]. eauto.
  - intros m k c k' v (e & He & <-). cbn in He. unfold MemoryCache.Get in He.
    destruct (MemoryCache.data c !! k) as [e0|] eqn:E; [|eauto].
    destruct (MemoryCache.is_expired _ _); [eauto|]. cbn in He.
    apply lookup_insert_Some in He as [[<- <-]|[_ ?]]; eauto.
  - intros m k v ttl c k' v' (e & He & <-). apply memory_set_lookup in He as [[-> <-]|?]; eauto.
  - intros k c k' v (e & He & <-). cbn in He. apply lookup_delete_Some in He as [_ ?]. eauto.
  - intros c k v (e & He & _). cbn in He. by rewrite lookup_empty in He.
Defined.

#[global, refine] Instance noop_cache_laws : CacheLaws NoopCache := { may_answer _ _ _ := False }.
Proof. all: cbn; naive_solver. Defined.

(** ** The executor *)
Section transparent.
Context `{JsonText} `{Sha256Hex} {C : Type} `{CacheLaws C}.
Context (policy : option CachePolicy) (ctx : context) (nodeName : string).
Context (fn : context → val → res val).

(** The inputs share a key only if the function does not tell them apart. *)
Definition keys_separate : Prop :=
  ∀ i j, cache_key policy ctx nodeName i = cache_key policy ctx nodeName j → fn ctx i = fn ctx j.

(** The cache holds only results of the function. *)
Definition holds_results (c : C) : Prop :=
  ∀ i v, may_answer c (cache_key policy ctx nodeName i) v → fn ctx i = Ok v.

Lemma execute_transparent ms i c :
  keys_separate → holds_results c →
  (CachedExecute policy ms ctx nodeName i fn c).1 = fn ctx i ∧
  holds_results (CachedExecute policy ms ctx nodeName i fn c).2.
Proof.
  intros Hkeys Hc. unfold CachedExecute.
  destruct (cache_get ms.1 (cache_key policy ctx nodeName i) c) as [[v|] c'] eqn:E.
  - split.
    + symmetry. apply Hc, (get_answers ms.1). by rewrite E.
    + intros j w Hw. apply Hc, (get_keeps ms.1 (cache_key policy ctx nodeName i)). by rewrite E.
  - assert (holds_results c') as Hc'.
    { intros j w Hw. apply Hc, (get_keeps ms.1 (cache_key policy ctx nodeName i)). by rewrite E. }
    destruct (fn ctx i) as [v|e] eqn:Ef; [|done]. split; [done|].
    intros j w [[Hk ->]|?]%set_adds; [|by apply Hc']. by rewrite (Hkeys j i Hk).
Qed.

(** Any number of calls on one cache. *)
Fixpoint execute_all (calls : list (moment * moment * val)) (c : C) : list (res val) :=
  match calls with
  | [] => []
  | (ms, i) :: calls =>
      let '(r, c) := CachedExecute policy ms ctx nodeName i fn c in r :: execute_all calls c
  end.

(** C19: A cache is transparent: behind any cache that keeps the laws of the
    interface and starts empty, a node function is observed as without one -
    whatever is evicted or expires - as long as inputs with one key have one
    result. *)
Theorem cached_execution_transparent calls c :
  keys_separate →
  execute_all calls (cache_clear c) = (λ call, fn ctx call.2) <$> calls.
Proof.
  intros Hkeys. assert (holds_results (cache_clear c)) as Hc by (intros i v []%clear_forgets).
  revert Hc. generalize (cache_clear c). induction calls as [|[ms i] calls IH]; intros c' Hc; [done|].
  cbn [execute_all]. destruct (execute_transparent ms i c' Hkeys Hc) as [Hr Hc''].
  destruct (CachedExecute policy ms ctx nodeName i fn c') as [r c'']. cbn in *. by rewrite Hr, IH.
Qed.
End transparent.

(** Inputs that JSON cannot express share the key of their Go type, although
    the code means different inputs to have different keys: the second call
    gets the result of the first. *)
Theorem unmarshalable_inputs_collide `{JsonText} `{Sha256Hex} (ms ms' : moment * moment) ctx nodeName i j v
    (fn : context → val → res val) max policy :
  json_marshal i = None → json_marshal j = None → fmt_T i = fmt_T j → fn ctx i = Ok v →
  let c := (CachedExecute None ms ctx nodeName i fn (MemoryCache.NewMemoryCache max policy)).2 in
  (CachedExecute None ms' ctx nodeName j fn c).1 = Ok v.
Proof.
  intros Hi Hj Ht Hf. unfold CachedExecute, cache_key. cbn [mbind option_bind].
  unfold GenerateCacheKey. rewrite Hi, Hj, Ht. cbn [cache_get cache_set MemoryCache_cache].
  set (key := _ +:+ _ : string). set (c0 := MemoryCache.NewMemoryCache max policy).
  assert (MemoryCache.Get ms.1 key c0 = (None, c0)) as -> by done. cbv beta iota zeta. rewrite Hf. cbn [snd].
  assert (MemoryCache.data (MemoryCache.Set_ ms.2 key v (default 0%Z None) c0) !! key =
            Some (MkEntry v None (later ms.2) 0)) as Hk by apply lookup_insert_eq.
  unfold MemoryCache.Get. by rewrite Hk.
Qed.

(** ** Eviction *)
Lemma oldest_spec (l : list (string * cacheEntry)) o k0 :
  let r := foldl MemoryCache.oldest_step (Some o, k0) l in
  (r = (Some o, k0) ∧ ∀ k e, (k, e) ∈ l → (o ≤ lastAccess e)%Z) ∨
  ∃ k e, (k, e) ∈ l ∧ r = (Some (lastAccess e), k) ∧ (lastAccess e ≤ o)%Z ∧
    ∀ k' e', (k', e') ∈ l → (lastAccess e ≤ lastAccess e')%Z.
Proof.
  revert o k0. induction l as [|[k e] l IH]; intros o k0 r; [left; split; [done|set_solver]|].
  unfold r. cbn [foldl].
  assert (MemoryCache.oldest_step (Some o, k0) (k, e) =
            if (lastAccess e <? o)%Z then (Some (lastAccess e), k) else (Some o, k0)) as -> by done.
  destruct (Z.ltb_spec (lastAccess e) o) as [Hlt|Hge].
  - right. destruct (IH (lastAccess e) k) as [[-> Hmin]|(k1 & e1 & Hin & -> & Hle & Hmin)].
    + exists k, e. split_and!; [by left|done|lia|].
      intros k' e' [[= -> ->]|?]%elem_of_cons; [lia|by eapply Hmin].
    + exists k1, e1. split_and!; [by right|done|lia|].
      intros k' e' [[= -> ->]|?]%elem_of_cons; [lia|by eapply Hmin].
  - destruct (IH o k0) as [[-> Hmin]|(k1 & e1 & Hin & -> & Hle & Hmin)].
    + left. split; [done|]. intros k' e' [[= -> ->]|?]%elem_of_cons; [lia|by eapply Hmin].
    + right. exists k1, e1. split_and!; [by right|done|lia|].
      intros k' e' [[= -> ->]|?]%elem_of_cons; [lia|by eapply Hmin].
Qed.

Lemma least_hits_spec (l : list (string * cacheEntry)) o k0 :
  (0 ≤ o)%Z → (∀ k e, (k, e) ∈ l → (0 ≤ hits e)%Z) →
  let r := foldl MemoryCache.least_hits_step (o, k0) l in
  (r = (o, k0) ∧ ∀ k e, (k, e) ∈ l → (o ≤ hits e)%Z) ∨
  ∃ k e, (k, e) ∈ l ∧ r = (hits e, k) ∧ (hits e ≤ o)%Z ∧
    ∀ k' e', (k', e') ∈ l → (hits e ≤ hits e')%Z.
Proof.
  revert o k0. induction l as [|[k e] l IH]; intros o k0 Ho Hl r; [left; split; [done|set_solver]|].
  assert (0 ≤ hits e)%Z as He by (apply (Hl k e); by left).
  assert (∀ k e, (k, e) ∈ l → (0 ≤ hits e)%Z) as Hl' by (intros; eapply Hl; by right).
  unfold r. cbn [foldl].
  assert (MemoryCache.least_hits_step (o, k0) (k, e) =
            if (hits e <? o)%Z then (hits e, k) else (o, k0)) as ->.
  { unfold MemoryCache.least_hits_step. cbn [fst snd]. by rewrite (proj2 (Z.eqb_neq o (-1))) by lia. }
  destruct (Z.ltb_spec (hits e) o) as [Hlt|Hge].
  - right. destruct (IH (hits e) k He Hl') as [[-> Hmin]|(k1 & e1 & Hin & -> & Hle & Hmin)].
    + exists k, e. split_and!; [by left|done|lia|].
      intros k' e' [[= -> ->]|?]%elem_of_cons; [lia|by eapply Hmin].
    + exists k1, e1. split_and!; [by right|done|lia|].
      intros k' e' [[= -> ->]|?]%elem_of_cons; [lia|by eapply Hmin].
  - destruct (IH o k0 Ho Hl') as [[-> Hmin]|(k1 & e1 & Hin & -> & Hle & Hmin)].
    + left. split; [done|]. intros k' e' [[= -> ->]|?]%elem_of_cons; [lia|by eapply Hmin].
    + right. exists k1, e1. split_and!; [by right|done|lia|].
      intros k' e' [[= -> ->]|?]%elem_of_cons; [lia|by eapply Hmin].
Qed.

(** The entry each policy gives up. *)
Definition victim (p : EvictionPolicy) (d : gmap string cacheEntry) (e : cacheEntry) : Prop :=
  match p with
  | EvictLRU => ∀ k' e', d !! k' = Some e' → (lastAccess e ≤ lastAccess e')%Z
  | EvictLFU => ∀ k' e', d !! k' = Some e' → (hits e ≤ hits e')%Z
  | EvictRandom => True
  end.

Lemma keyToDelete_spec m (c : MemoryCache.t) :
  let d := MemoryCache.data c in
  go_range d (range m _ d) → d ≠ ∅ → (∀ k e, d !! k = Some e → (0 ≤ hits e)%Z) →
  ∃ e, d !! MemoryCache.keyToDelete m c = Some e ∧ victim (MemoryCache.eviction c) d e.
Proof.
  intros d Hr Hne Hh. unfold MemoryCache.keyToDelete. fold d.
  pose proof (λ k e, go_range_elem d _ k e Hr) as Hin. revert Hin. clear -Hr Hne Hh.
  destruct (range m cacheEntry d) as [|[k e] l] eqn:E; intros Hin.
  { exfalso. apply Hne. apply map_eq. intros k. rewrite lookup_empty. apply eq_None_not_Some.
    intros [e He%Hin]. set_solver. }
  assert (d !! k = Some e) as Hk by (apply Hin; by left).
  destruct (MemoryCache.eviction c); cbn [victim]; [..|by eauto].
  - change (foldl MemoryCache.oldest_step (None, "") ((k, e) :: l)) with
      (foldl MemoryCache.oldest_step (Some (lastAccess e), k) l).
    destruct (oldest_spec l (lastAccess e) k) as [[-> Hmin]|(k1 & e1 & Hk1 & -> & Hle & Hmin)].
    + exists e. split; [done|]. intros k' e' [[= -> ->]|?]%Hin%elem_of_cons; [lia|by eapply Hmin].
    + exists e1. split; [apply Hin; by right|].
      intros k' e' [[= -> ->]|?]%Hin%elem_of_cons; [lia|by eapply Hmin].
  - change (foldl MemoryCache.least_hits_step ((-1)%Z, "") ((k, e) :: l)) with
      (foldl MemoryCache.least_hits_step (hits e, k) l).
    destruct (least_hits_spec l (hits e) k) as [[-> Hmin]|(k1 & e1 & Hk1 & -> & Hle & Hmin)];
      [by eapply Hh|intros; eapply Hh, Hin; by right|..].
    + exists e. split; [done|]. intros k' e' [[= -> ->]|?]%Hin%elem_of_cons; [lia|by eapply Hmin].
    + exists e1. split; [apply Hin; by right|].
      intros k' e' [[= -> ->]|?]%Hin%elem_of_cons; [lia|by eapply Hmin].
Qed.

Lemma fold_picks {A} (f : A * string → string * cacheEntry → A * string) l acc :
  (∀ acc x, f acc x = acc ∨ (f acc x).2 = x.1) →
  (foldl f acc l).2 = acc.2 ∨ (foldl f acc l).2 ∈ l.*1.
Proof.
  intros Hf. revert acc. induction l as [|x l IH]; intros acc; [by left|]. cbn [foldl].
  destruct (IH (f acc x)) as [-> |?]; [|right; by right].
  destruct (Hf acc x) as [-> | ->]; [by left|right; by left].
Qed.

(** Whatever the counters hold, the key to delete is one of the cache. *)
Lemma keyToDelete_in m (c : MemoryCache.t) :
  go_range (MemoryCache.data c) (range m _ (MemoryCache.data c)) → MemoryCache.data c ≠ ∅ →
  is_Some (MemoryCache.data c !! MemoryCache.keyToDelete m c).
Proof.
  intros Hr Hne. unfold MemoryCache.keyToDelete.
  pose proof (λ k e, go_range_elem (MemoryCache.data c) _ k e Hr) as Hin.
  destruct (range m cacheEntry (MemoryCache.data c)) as [|[k e] l].
  { exfalso. apply Hne. apply map_eq. intros k. rewrite lookup_empty. apply eq_None_not_Some.
    intros [e He%Hin]. set_solver. }
  assert (∀ k', k' = k ∨ k' ∈ l.*1 → is_Some (MemoryCache.data c !! k')) as Hsome.
  { intros k' Hk'. assert (k' ∈ ((k, e) :: l).*1) as ([k1 e1] & -> & Hx)%list_elem_of_fmap
      by (cbn; set_solver). exists e1. by apply Hin. }
  destruct (MemoryCache.eviction c); [..|apply Hsome; by left]; apply Hsome.
  - apply (fold_picks MemoryCache.oldest_step l (Some (lastAccess e), k)). intros [o k0] x.
    unfold MemoryCache.oldest_step. destruct o as [o|]; cbn [fst snd]; [|by right]. destruct (_ <? _)%Z; [by right|by left].
  - apply (fold_picks MemoryCache.least_hits_step l (hits e, k)). intros [o k0] x.
    unfold MemoryCache.least_hits_step. cbn [fst snd]. destruct (_ || _); [by right|by left].
Qed.

(** The runtime visits every entry once. *)
Definition fair (m : moment) : Prop := ∀ V d, go_range d (range m V d).

(** Storing into a full cache gives up exactly one entry, the least recently
    used or least frequently used one if the policy says so - even when the
    stored key is present already and needs no room. *)
Theorem Set_evicts m k v ttl (c : MemoryCache.t) :
  let d := MemoryCache.data c in
  fair m → (MemoryCache.maxSize c ≤ Z.of_nat (size d))%Z → d ≠ ∅ → d !! "" = None →
  (∀ k e, d !! k = Some e → (0 ≤ hits e)%Z) →
  ∃ kv e ev, d !! kv = Some ev ∧ victim (MemoryCache.eviction c) d ev ∧ cvalue e = v ∧
    MemoryCache.data (MemoryCache.Set_ m k v ttl c) = <[k := e]> (delete kv d).
Proof.
  intros d Hm Hfull Hne He Hh. unfold MemoryCache.Set_. fold d. rewrite (proj2 (Z.leb_le _ _)) by done.
  destruct (keyToDelete_spec m c (Hm _ d) Hne Hh) as (ev & Hev & Hvic).
  unfold MemoryCache.evict. rewrite decide_False by (intros Hk; rewrite Hk in Hev; fold d in Hev; congruence).
  eexists _, _, ev. split; [exact Hev|]. split; [done|]. split; [|reflexivity]. done.
Qed.

(** ** The size of a cache *)
Inductive cache_op : Type :=
| CGet (m : moment) (k : string)
| CSet (m : moment) (k : string) (v : val) (ttl : Z)
| CDelete (k : string)
| CClear.

Definition cache_step (c : MemoryCache.t) (o : cache_op) : MemoryCache.t :=
  match o with
  | CGet m k => (MemoryCache.Get m k c).2
  | CSet m k v ttl => MemoryCache.Set_ m k v ttl c
  | CDelete k => MemoryCache.Delete k c
  | CClear => MemoryCache.Clear c
  end.

(** The moments are fair and nothing is stored under the empty key. *)
Definition named_op (o : cache_op) : Prop :=
  match o with
  | CGet m _ => fair m
  | CSet m k _ _ => fair m ∧ k ≠ ""
  | CDelete _ | CClear => True
  end.

Definition bounded (c : MemoryCache.t) : Prop :=
  (Z.of_nat (size (MemoryCache.data c)) ≤ Z.max 1 (MemoryCache.maxSize c))%Z ∧
  MemoryCache.data c !! "" = None.

Lemma size_insert_le {V} (d : gmap string V) k v : size (<[k := v]> d) ≤ S (size d).
Proof. rewrite map_size_insert. destruct (d !! k); simpl; lia. Qed.

Lemma bounded_step c o : named_op o → bounded c → bounded (cache_step c o) ∧
  MemoryCache.maxSize (cache_step c o) = MemoryCache.maxSize c.
Proof.
  intros Ho [Hs He]. destruct o as [m k|m k v ttl|k|]; cbn [cache_step].
  - unfold MemoryCache.Get. destruct (MemoryCache.data c !! k) as [e|] eqn:Hk; [|done].
    destruct (MemoryCache.is_expired _ _); [done|]. split; [|done]. split; cbn.
    + rewrite map_size_insert_Some; [done|by eexists].
    + rewrite lookup_insert_ne; [done|]. by intros ->; congruence.
  - destruct Ho as [Hm Hne]. unfold MemoryCache.Set_.
    destruct (Z.leb_spec (MemoryCache.maxSize c) (Z.of_nat (size (MemoryCache.data c)))) as [Hfull|Hroom].
    + unfold MemoryCache.evict. destruct (decide (MemoryCache.data c = ∅)) as [Hd|Hd].
      * assert (∀ c', MemoryCache.data c' = MemoryCache.data c ∨
            MemoryCache.data c' = delete (MemoryCache.keyToDelete m c) (MemoryCache.data c) →
            MemoryCache.maxSize c' = MemoryCache.maxSize c →
            bounded (MemoryCache.set_data (<[k := MkEntry v (if (0 <? ttl)%Z then Some (now m + ttl)%Z else None) (later m) 0]> (MemoryCache.data c')) c')) as Hb.
        { intros c' Hc' Hmax. assert (MemoryCache.data c' = ∅) as -> by
            (destruct Hc' as [-> | ->]; rewrite Hd, ?delete_empty; done).
          split; cbn; [rewrite insert_empty, map_size_singleton; lia|].
          by rewrite lookup_insert_ne, lookup_empty. }
        case_decide; (split; [apply Hb; [auto|done]|done]).
      * destruct (keyToDelete_in m c (Hm _ _) Hd) as [ev Hev].
        rewrite decide_False by (intros E; rewrite E in Hev; congruence). split; [|done]. split; cbn.
        -- pose proof (size_insert_le (delete (MemoryCache.keyToDelete m c) (MemoryCache.data c)) k
             (MkEntry v (if (0 <? ttl)%Z then Some (now m + ttl)%Z else None) (later m) 0)) as Hle.
           rewrite map_size_delete_Some in Hle by (by eexists).
           assert (0 < size (MemoryCache.data c)) by (destruct (size (MemoryCache.data c)) eqn:E0; [apply map_size_empty_inv in E0; done|lia]).
           lia.
        -- rewrite lookup_insert_ne by done. by apply lookup_delete_None; right.
    + split; [|done]. split; cbn.
      * pose proof (size_insert_le (MemoryCache.data c) k
          (MkEntry v (if (0 <? ttl)%Z then Some (now m + ttl)%Z else None) (later m) 0)). lia.
      * by rewrite lookup_insert_ne.
  - split; [|done]. split; cbn.
    + rewrite map_size_delete. destruct (MemoryCache.data c !! k); simpl; lia.
    + by apply lookup_delete_None; right.
  - split; [|done]. split; cbn; [rewrite map_size_empty; lia|apply lookup_empty].
Qed.

(** As long as nothing is stored under the empty key a cache never holds
    more entries than its maximal size, or one if that is not positive. *)
Theorem cache_bounded max p ops :
  Forall named_op ops →
  (Z.of_nat (size (MemoryCache.data (foldl cache_step (MemoryCache.NewMemoryCache max p) ops)))
     ≤ Z.max 1 max)%Z.
Proof.
  intros Hops. assert (∀ c, bounded c → Forall named_op ops →
    bounded (foldl cache_step c ops) ∧
    MemoryCache.maxSize (foldl cache_step c ops) = MemoryCache.maxSize c) as H.
  { clear Hops. induction ops as [|o ops IH]; intros c Hc Hops; [done|].
    apply Forall_cons in Hops as [Ho Hops]. cbn [foldl].
    destruct (bounded_step c o Ho Hc) as [Hc' <-]. by apply IH. }
  destruct (H (MemoryCache.NewMemoryCache max p)) as [[Hb _] Hmax]; [|done|].
  - split; cbn; [rewrite map_size_empty; lia|apply lookup_empty].
  - by rewrite Hmax in Hb.
Qed.

(** ** Witnesses and boundary cases *)
Definition at_time (t : Z) : moment := {| now := t; later := t; range := λ V, map_to_list |}.

Lemma at_time_fair t : fair (at_time t).
Proof. intros V d. apply go_range_canonical. Qed.

(** Keys that spell the text out instead of hashing it. *)
Definition plain_keys : Sha256Hex := {| sha256_hex s := s |}.

Definition double (ctx : context) (v : val) : res val :=
  match v with VInt z => Ok (VInt (int_add z z)) | _ => Err (Errorf "not a number") end.

Definition double_policy : CachePolicy := {|
  KeyFunc := Some (λ _ v, match v with VInt z => "n" +:+ pretty z | _ => "other" end);
  TTL := Some 5%Z
|}.

Lemma cached_execution_transparent_witness :
  execute_all (H := go_json) (H0 := plain_keys) (Some double_policy) ∅ "double" double
    [((at_time 1, at_time 2), VInt 4); ((at_time 3, at_time 3), VInt 4); ((at_time 99, at_time 99), VInt 5)]
    (cache_clear (MemoryCache.NewMemoryCache 1 EvictLRU)) =
  [Ok (VInt 8); Ok (VInt 8); Ok (VInt 10)].
Proof.
  apply (cached_execution_transparent (H := go_json) (H0 := plain_keys)). intros i j. cbn.
  destruct i, j; cbn; intros Hij; try done.
  apply (inj (String.append "n")), (inj pretty) in Hij. by subst.
Defined.

Lemma unmarshalable_inputs_collide_witness :
  let describe (_ : context) (v : val) : res val :=
    Ok (VBool (match v with VFloat S754_nan => true | _ => false end)) in
  let c := (CachedExecute (H := go_json) (H0 := plain_keys) None (at_time 1, at_time 2) ∅ "nan?"
              (VFloat S754_nan) describe (MemoryCache.NewMemoryCache 8 EvictLFU)).2 in
  (CachedExecute (H := go_json) (H0 := plain_keys) None (at_time 3, at_time 3) ∅ "nan?"
     (VFloat (S754_infinity false)) describe c).1 = Ok (VBool true).
Proof.
  intros describe. by apply (unmarshalable_inputs_collide (H := go_json) (H0 := plain_keys)).
Defined.

Definition full_cache (p : EvictionPolicy) : MemoryCache.t :=
  (MemoryCache.Get (at_time 3) "a"
     (MemoryCache.Set_ (at_time 2) "b" (VInt 2) 0
        (MemoryCache.Set_ (at_time 1) "a" (VInt 1) 0 (MemoryCache.NewMemoryCache 2 p)))).2.

Lemma Set_evicts_witness :
  ∃ kv e ev, MemoryCache.data (full_cache EvictLRU) !! kv = Some ev ∧
    victim EvictLRU (MemoryCache.data (full_cache EvictLRU)) ev ∧ cvalue e = VInt 9 ∧
    MemoryCache.data (MemoryCache.Set_ (at_time 4) "a" (VInt 9) 0 (full_cache EvictLRU)) =
      <["a" := e]> (delete kv (MemoryCache.data (full_cache EvictLRU))).
Proof.
  apply (Set_evicts (at_time 4) "a" (VInt 9) 0 (full_cache EvictLRU));
    [exact (at_time_fair 4)|vm_compute; discriminate|discriminate|reflexivity|].
  apply (map_Forall_to_list (λ _ e, (0 ≤ hits e)%Z)).
  repeat (constructor; [vm_compute; discriminate|]). constructor.
Defined.

(** Updating a key that is present takes another one out. *)
Example update_evicts_another :
  let c := MemoryCache.Set_ (at_time 4) "a" (VInt 9) 0 (full_cache EvictLRU) in
  (MemoryCache.Get (at_time 5) "a" c).1 = Some (VInt 9) ∧
  (MemoryCache.Get (at_time 5) "b" c).1 = None.
Proof. vm_compute. by split. Qed.

Lemma cache_bounded_witness :
  (Z.of_nat (size (MemoryCache.data (foldl cache_step (MemoryCache.NewMemoryCache 2 EvictLFU)
     [CSet (at_time 1) "a" VNil 0; CSet (at_time 2) "b" VNil 0; CGet (at_time 3) "a";
      CSet (at_time 4) "c" VNil 7; CDelete "b"; CSet (at_time 5) "d" VNil 0])))
   ≤ Z.max 1 2)%Z.
Proof. apply cache_bounded. repeat constructor; try apply at_time_fair; done. Defined.

(** The empty key is never given up, so that a cache that holds it grows. *)
Example empty_key_overflows :
  size (MemoryCache.data (foldl cache_step (MemoryCache.NewMemoryCache 1 EvictLRU)
     [CSet (at_time 1) "" VNil 0; CSet (at_time 2) "a" VNil 0; CSet (at_time 3) "b" VNil 0])) = 3.
Proof. reflexivity. Qed.
