(* ===== verification/Messages.v ===== *)
(** * Message graphs (graph/message.go)

    Conversations as lists of messages, the reducer that merges them by
    identifier, message graphs, filters and the conversion to the format of the
    OpenAI interface.  Messages are pointers: a list may hold nil ones, whose
    fields panic when read.  A function that can panic returns an [option]. *)

From S2P Require Export Graph.

Record Message : Type := MkMessage {
  MID : string;
  Role : string;
  Content : string;
  Extra : option (gmap string val)       (* [None] is the nil map *)
}.

Abbreviation pointer := (option Message).

Definition NewMessage (role content : string) : Message := MkMessage "" role content (Some ∅).
Definition NewMessageWithID (id role content : string) : Message := MkMessage id role content (Some ∅).

Record GraphError : Type := { GMessage : string; GCode : string }.

Definition GraphError_Error (e : GraphError) : string :=
  if decide (GCode e = "") then GMessage e else GCode e +:+ ": " +:+ GMessage e.

Definition graph_error (msg : string) : GraphError := {| GMessage := msg; GCode := "" |}.

(** ** As dynamic values *)
Definition message_fields : list (string * gotype) :=
  [("ID", TString); ("Role", TString); ("Content", TString); ("Extra", TMap TAny)].
Definition TMessage : gotype := TPtr (TStruct "graph.Message" message_fields).

Definition extra_val (x : option (gmap string val)) : val :=
  match x with Some m => VObj m | None => VTypedNil (TMap TAny) end.

Definition message_val (p : pointer) : val :=
  match p with
  | Some m => VPtr (VStruct "graph.Message"
                [("ID", TString, VStr (MID m)); ("Role", TString, VStr (Role m));
                 ("Content", TString, VStr (Content m)); ("Extra", TMap TAny, extra_val (Extra m))])
  | None => VTypedNil TMessage
  end.

Definition messages_val (l : list pointer) : val := VSlice TMessage (message_val <$> l).

(** [v.( *Message)] *)
Definition as_message (v : val) : option pointer :=
  match v with
  | VPtr (VStruct "graph.Message" [(_, _, VStr id); (_, _, VStr role); (_, _, VStr content); (_, _, x)]) =>
      Some (Some (MkMessage id role content (match x with VObj m => Some m | _ => None end)))
  | VTypedNil (TPtr (TStruct "graph.Message" _)) => Some None
  | _ => None
  end.

(** [v.([]*Message)] *)
Definition as_messages (v : val) : option (list pointer) :=
  match v with
  | VSlice (TPtr (TStruct "graph.Message" _)) l => mapM as_message l
  | VTypedNil (TSlice (TPtr (TStruct "graph.Message" _))) => Some []
  | _ => None
  end.

(** ** The state of a conversation *)
Module MessagesState.
Record t : Type := Mk { Messages : list pointer; SExtra : option (gmap string val) }.

Definition AddMessages (msgs : list pointer) (s : t) : t := Mk (Messages s ++ msgs) (SExtra s).
Definition GetMessages (s : t) : list pointer := Messages s.
Definition GetLastMessage (s : t) : pointer := default None (last (Messages s)).
End MessagesState.

(** A test that reads a field of every message. *)
Fixpoint filter_messages (f : Message → bool) (msgs : list pointer) : option (list pointer) :=
  match msgs with
  | [] => Some []
  | None :: _ => None
  | Some m :: msgs => l ← filter_messages f msgs; Some (if f m then Some m :: l else l)
  end.

Definition GetMessagesByRole (role : string) (s : MessagesState.t) : option (list pointer) :=
  filter_messages (λ m, bool_decide (Role m = role)) (MessagesState.Messages s).

(** ** The reducer *)

(** The inner loop: the first update with the identifier. *)
Fixpoint first_update (id : string) (msgs : list pointer) : option pointer :=
  match msgs with
  | [] => Some None
  | None :: _ => None
  | Some u :: msgs => if decide (MID u = id) then Some (Some u) else first_update id msgs
  end.

(** The identifiers of the existing messages. *)
Fixpoint existing_ids (existing : list pointer) : option (gset string) :=
  match existing with
  | [] => Some ∅
  | None :: _ => None
  | Some m :: existing =>
      ids ← existing_ids existing; Some (if decide (MID m = "") then ids else {[ MID m ]} ∪ ids)
  end.

(** The first loop: existing messages, updated; with the identifiers that had
    an update. *)
Fixpoint update_existing (msgs existing : list pointer) : option (list pointer * gset string) :=
  match existing with
  | [] => Some ([], ∅)
  | None :: _ => None
  | Some m :: existing =>
      if decide (MID m = "") then
        '(l, ids) ← update_existing msgs existing; Some (Some m :: l, ids)
      else
        u ← first_update (MID m) msgs;
        '(l, ids) ← update_existing msgs existing;
        Some (match u with
              | Some u => (Some u :: l, {[ MID m ]} ∪ ids)
              | None => (Some m :: l, ids)
              end)
  end.

(** The second loop: the messages that are new. *)
Definition new_messages (processed existing : gset string) (msgs : list pointer) : option (list pointer) :=
  filter_messages (λ m, bool_decide (MID m = "") ||
                        (bool_decide (MID m ∉ processed) && bool_decide (MID m ∉ existing))) msgs.

Definition merge_messages (existing msgs : list pointer) : option (list pointer) :=
  ids ← existing_ids existing;
  '(l, processed) ← update_existing msgs existing;
  new ← new_messages processed ids msgs;
  Some (l ++ new).

Definition AddMessagesReducer (existing updates : val) : option (result GraphError val) :=
  match match as_messages updates with
        | Some msgs => Some (msgs, updates)
        | None => (λ p, ([p], VSlice TMessage [updates])) <$> as_message updates
        end with
  | None => Some (Err (graph_error ("cannot add messages of type " +:+ fmt_T updates)))
  | Some (msgs, updates) =>
      if is_nil existing then Some (Ok updates)
      else match as_messages existing with
           | None => Some (Err (graph_error ("existing messages is not []*Message, got " +:+ fmt_T existing)))
           | Some existing => l ← merge_messages existing msgs; Some (Ok (messages_val l))
           end
  end.

(** ** Message graphs *)
Definition messagesChannel : string := "messages".

Definition NewMessageGraph : stateGraph :=
  SG.AddChannel messagesChannel (Some (Leaf (LLastValue (LastValue.New (messages_val [])))))
    (NewStateGraph (SMap true)).

Definition GraphGetMessages (reg : registry) : list pointer * registry :=
  match Reg.Get messagesChannel reg with
  | Some ch =>
      let '(r, ch) := Get ch in
      (match r with
       | Ok data => default [] (as_messages data)
       | Err _ => []
       end, <[messagesChannel := ch]> reg)
  | None => ([], reg)
  end.

(** The wrapped operations. *)
Module MessageGraph.
Definition AddNode (name : string) (action : option NodeFunc) : stateGraph → stateGraph := SG.AddNode name action.
Definition AddEdge (startKey endKey : string) : stateGraph → res stateGraph := SG.AddEdge startKey endKey.
Definition AddConditionalEdge (source : string) (condition : EdgeFunc) (edgeMap : gmap string string)
    (ord : list (string * string)) : stateGraph → res stateGraph :=
  SG.AddConditionalEdges source condition edgeMap ord.
Definition SetEntryPoint (node : string) : stateGraph → res stateGraph := SG.SetEntryPoint node.
Definition Build {CP : Type} (os : orders) : stateGraph → res (@compiledGraph CP) := Compile os [].
Definition GetState (g : stateGraph) : gmap string val := {[ "messages" := VList [] ]}.
End MessageGraph.

(** ** Messages in a state *)
Fixpoint messages_at (i : nat) (l : list val) : result GraphError (list pointer) :=
  match l with
  | [] => Ok []
  | v :: l =>
      match as_message v with
      | Some p => (let! ps := messages_at (S i) l in Ok (p :: ps))%go
      | None => Err (graph_error ("message at index " +:+ pretty i +:+ " is not *Message, got " +:+ fmt_T v))
      end
  end.

Definition GetMessagesFromState (state : gmap string val) : result GraphError (list pointer) :=
  match state !! "messages" with
  | None => Ok []
  | Some v =>
      match as_messages v with
      | Some msgs => Ok msgs
      | None => match as_list v with
                | Some l => messages_at 0 l
                | None => Err (graph_error ("messages is not []*Message, got " +:+ fmt_T v))
                end
      end
  end.

Definition AddMessagesToState (msgs : list pointer) (state : gmap string val)
  : result GraphError unit * gmap string val :=
  match GetMessagesFromState state with
  | Err e => (Err e, state)
  | Ok existing => (Ok (), <["messages" := messages_val (existing ++ msgs)]> state)
  end.

(** ** Roles *)
Definition MessageRoleUser : string := "user".
Definition MessageRoleAssistant : string := "assistant".
Definition MessageRoleSystem : string := "system".
Definition MessageRoleTool : string := "tool".
Definition MessageRoleFunction : string := "function".

Definition HumanMessage (content : string) : Message := NewMessage MessageRoleUser content.
Definition AIMessage (content : string) : Message := NewMessage MessageRoleAssistant content.
Definition SystemMessage (content : string) : Message := NewMessage MessageRoleSystem content.

Definition with_extra (k v : string) (m : Message) : Message :=
  MkMessage (MID m) (Role m) (Content m) (Some (<[k := VStr v]> (default ∅ (Extra m)))).

Definition ToolMessage (content toolCallID : string) : Message :=
  with_extra "tool_call_id" toolCallID (NewMessage MessageRoleTool content).
Definition FunctionMessage (content name : string) : Message :=
  with_extra "name" name (NewMessage MessageRoleFunction content).

(** ** Helpers *)
Definition FormatMessages (msgs : list pointer) : option (list string) :=
  mapM (λ p : pointer, (λ m, Role m +:+ ": " +:+ Content m) <$> p) msgs.

(** The loop from the last message down. *)
Fixpoint first_with_role (role : string) (msgs : list pointer) : option pointer :=
  match msgs with
  | [] => Some None
  | None :: _ => None
  | Some m :: msgs => if decide (Role m = role) then Some (Some m) else first_with_role role msgs
  end.

Definition GetLastUserMessage (msgs : list pointer) : option pointer :=
  first_with_role MessageRoleUser (reverse msgs).
Definition GetLastAIMessage (msgs : list pointer) : option pointer :=
  first_with_role MessageRoleAssistant (reverse msgs).

Definition FilterMessagesByRole (msgs : list pointer) (roles : list string) : option (list pointer) :=
  filter_messages (λ m, bool_decide (Role m ∈ roles)) msgs.

Module MessagesFilter.
Record t : Type := Mk {
  roles : list string;
  limit : Z;
  offset : Z;
  reversed : bool;
  predicate : option (pointer → option bool)    (* [None] when it panics *)
}.

Definition NewMessagesFilter : t := Mk [] 0 0 false None.
Definition WithRole rs (f : t) : t := Mk rs (limit f) (offset f) (reversed f) (predicate f).
Definition WithLimit n (f : t) : t := Mk (roles f) n (offset f) (reversed f) (predicate f).
Definition WithOffset n (f : t) : t := Mk (roles f) (limit f) n (reversed f) (predicate f).
Definition WithReverse (f : t) : t := Mk (roles f) (limit f) (offset f) true (predicate f).
Definition WithPredicate p (f : t) : t := Mk (roles f) (limit f) (offset f) (reversed f) (Some p).

(** One message: it is only looked at when there are roles to compare. *)
Definition passes (f : t) (p : pointer) : option bool :=
  r ← (match roles f with
       | [] => Some true
       | rs => (λ m, bool_decide (Role m ∈ rs)) <$> p
       end);
  if negb r then Some false
  else match predicate f with Some t => t p | None => Some true end.

Fixpoint selected (f : t) (msgs : list pointer) : option (list pointer) :=
  match msgs with
  | [] => Some []
  | p :: msgs => b ← passes f p; l ← selected f msgs; Some (if b : bool then p :: l else l)
  end.

Definition page (f : t) (l : list pointer) : list pointer :=
  let l := if ((0 <? offset f) && (offset f <? Z.of_nat (length l)))%Z
           then drop (Z.to_nat (offset f)) l else l in
  let l := if ((0 <? limit f) && (limit f <? Z.of_nat (length l)))%Z
           then take (Z.to_nat (limit f)) l else l in
  if reversed f then reverse l else l.

Definition Filter (f : t) (msgs : list pointer) : option (list pointer) := page f <$> selected f msgs.
End MessagesFilter.

(** ** OpenAI's format *)
Record OpenAIChatMessage : Type := { ORole : string; OContent : string; OName : string }.

Definition ToOpenAIChatMessage (m : Message) : OpenAIChatMessage :=
  {| ORole := Role m; OContent := Content m; OName := "" |}.

Definition MessagesToOpenAIFormat (msgs : list pointer) : option (list OpenAIChatMessage) :=
  mapM (λ p : pointer, ToOpenAIChatMessage <$> p) msgs.

Definition OpenAIFormatToMessages (msgs : list OpenAIChatMessage) : list pointer :=
  (λ o, let m := NewMessage (ORole o) (OContent o) in
        Some (if decide (OName o = "") then m else with_extra "name" (OName o) m)) <$> msgs.

(** * Properties *)

(** ** Messages as values *)
Lemma as_message_val p : as_message (message_val p) = Some p.
Proof. by destruct p as [[id role content [x|]]|]. Qed.

Lemma as_messages_val l : as_messages (messages_val l) = Some l.
Proof.
  unfold messages_val, as_messages, TMessage. apply mapM_Some. rewrite Forall2_fmap_l.
  apply Forall_Forall2_diag, Forall_true, as_message_val.
Qed.

(** ** The reducer without nil messages *)
Definition by_id (id : string) (l : list Message) : option Message := head (filter (λ m, MID m = id) l).
Definition ids_of (l : list Message) : list string := filter (λ id, id ≠ "") (MID <$> l).

Definition replaced (u e : list Message) : list Message :=
  (λ m, if decide (MID m = "") then m else default m (by_id (MID m) u)) <$> e.
Definition is_new (e : list Message) (m : Message) : Prop := MID m ∉ ids_of e.
#[export] Instance is_new_dec e m : Decision (is_new e m).
Proof. unfold is_new. apply _. Defined.
Definition merged (e u : list Message) : list Message := replaced u e ++ filter (is_new e) u.

Lemma filter_messages_pointers f l :
  filter_messages f (Some <$> l) = Some (Some <$> filter (λ m, f m = true) l).
Proof.
  induction l as [|m l IH]; [done|]. cbn [fmap list_fmap filter_messages]. rewrite IH.
  rewrite filter_cons. cbn [mbind option_bind]. by destruct (f m), (decide _).
Qed.

Lemma first_update_pointers id l : first_update id (Some <$> l) = Some (by_id id l).
Proof.
  induction l as [|m l IH]; [done|]. cbn [fmap list_fmap first_update]. unfold by_id in *.
  rewrite filter_cons. by destruct (decide _).
Qed.

Lemma ids_of_cons m l : ids_of (m :: l) = if decide (MID m = "") then ids_of l else MID m :: ids_of l.
Proof. unfold ids_of. rewrite fmap_cons, filter_cons. destruct (decide (MID m = "")), (decide _); done. Qed.

Lemma existing_ids_pointers e :
  ∃ ids, existing_ids (Some <$> e) = Some ids ∧ ∀ id, id ∈ ids ↔ id ∈ ids_of e.
Proof.
  induction e as [|m e (ids & He & Hids)]; [by exists ∅; set_solver|].
  rewrite fmap_cons. cbn [existing_ids]. rewrite He, ids_of_cons. cbn [mbind option_bind].
  eexists. split; [done|]. intros id. destruct (decide _); [apply Hids|set_solver].
Qed.

Lemma update_existing_pointers u e :
  ∃ processed, update_existing (Some <$> u) (Some <$> e) = Some (Some <$> replaced u e, processed) ∧
    ∀ id, id ∈ processed → id ∈ ids_of e.
Proof.
  induction e as [|m e (P & He & HP)]; [by exists ∅; set_solver|].
  unfold replaced in *. rewrite !fmap_cons, ids_of_cons. cbn [update_existing].
  destruct (decide (MID m = "")) as [Hm|Hm].
  - rewrite He. eexists. by split.
  - rewrite first_update_pointers. cbn [mbind option_bind]. rewrite He. cbn [mbind option_bind].
    destruct (by_id (MID m) u); eexists; (split; [done|]); set_solver.
Qed.

Lemma merge_messages_pointers e u :
  merge_messages (Some <$> e) (Some <$> u) = Some (Some <$> merged e u).
Proof.
  unfold merge_messages. destruct (existing_ids_pointers e) as (ids & -> & Hids). cbn.
  destruct (update_existing_pointers u e) as (P & -> & HP). cbn.
  unfold new_messages. rewrite filter_messages_pointers. cbn. unfold merged. rewrite fmap_app.
  do 4 f_equal. apply list_filter_iff. intros m. unfold is_new.
  rewrite orb_true_iff, andb_true_iff, !bool_decide_eq_true. specialize (Hids (MID m)). specialize (HP (MID m)).
  assert (MID m ∈ ids_of e → MID m ≠ "") by (by intros [? _]%list_elem_of_filter).
  destruct (decide (MID m = "")); naive_solver.
Qed.

(** ** What a merge does *)
Lemma by_id_cons id m l : by_id id (m :: l) = if decide (MID m = id) then Some m else by_id id l.
Proof. unfold by_id. rewrite filter_cons. by destruct (decide _). Qed.

Lemma by_id_app id l k : by_id id (l ++ k) = by_id id l ∪ by_id id k.
Proof. unfold by_id. rewrite filter_app. rewrite head_app. by destruct (head _), (head _). Qed.

Lemma by_id_MID id l m : by_id id l = Some m → MID m = id.
Proof. unfold by_id. intros Hm%head_Some_elem_of. by apply list_elem_of_filter in Hm as [? _]. Qed.

Lemma by_id_ids id l : id ≠ "" → is_Some (by_id id l) ↔ id ∈ ids_of l.
Proof.
  intros Hid. induction l as [|m l IH]; [by split; [intros []|intros ?%elem_of_nil]|].
  rewrite ids_of_cons, by_id_cons. destruct (decide (MID m = id)) as [<-|Hne].
  - rewrite decide_False by done. split; [by left|by eexists].
  - rewrite IH. destruct (decide (MID m = "")); [done|]. rewrite elem_of_cons. naive_solver.
Qed.

Lemma MID_replaced u e : MID <$> replaced u e = MID <$> e.
Proof.
  unfold replaced. rewrite <-list_fmap_compose. apply list_fmap_ext. intros _ m _. cbn.
  destruct (decide _); [done|]. destruct (by_id (MID m) u) eqn:E; [|done]. by apply by_id_MID in E.
Qed.

Lemma by_id_replaced id u e : id ≠ "" →
  by_id id (replaced u e) = m ← by_id id e; Some (default m (by_id id u)).
Proof.
  intros Hid. unfold replaced. induction e as [|m e IH]; [done|]. rewrite fmap_cons.
  assert (MID (if decide (MID m = "") then m else default m (by_id (MID m) u)) = MID m) as Hm.
  { destruct (decide _); [done|]. destruct (by_id (MID m) u) eqn:E; [|done]. by apply by_id_MID in E. }
  rewrite !by_id_cons, Hm. destruct (decide (MID m = id)) as [<-|]; [|exact IH].
  cbn. by rewrite decide_False.
Qed.

Lemma by_id_new id e u : id ≠ "" →
  by_id id (filter (is_new e) u) = if decide (id ∈ ids_of e) then None else by_id id u.
Proof.
  intros Hid. induction u as [|m u IH]; [by destruct (decide _)|]. rewrite filter_cons.
  unfold is_new at 1. destruct (decide (MID m ∉ ids_of e)) as [Hn|Hn].
  - rewrite !by_id_cons. destruct (decide (MID m = id)) as [<-|]; [|exact IH]. by rewrite decide_False.
  - rewrite IH. destruct (decide (id ∈ ids_of e)) as [|Hi]; [done|]. rewrite by_id_cons.
    by destruct (decide (MID m = id)) as [<-|].
Qed.

(** Of every identifier a merge holds the update if there is one. *)
Lemma by_id_merged id e u : id ≠ "" → by_id id (merged e u) = by_id id u ∪ by_id id e.
Proof.
  intros Hid. unfold merged. rewrite by_id_app, by_id_replaced, by_id_new by done.
  pose proof (by_id_ids id e Hid) as He. destruct (by_id id e) as [m|]; cbn.
  - rewrite decide_True by (by apply He; eexists). by destruct (by_id id u).
  - rewrite decide_False by (intros [? ?]%He; done). by destruct (by_id id u).
Qed.

Definition anonymous (l : list Message) : list Message := filter (λ m, MID m = "") l.

Lemma anonymous_merged e u : anonymous (merged e u) = anonymous e ++ anonymous u.
Proof.
  unfold anonymous, merged. rewrite filter_app. f_equal.
  - unfold replaced. induction e as [|m e IH]; [done|]. rewrite fmap_cons, !filter_cons.
    destruct (decide (MID m = "")) as [Hm|Hm]; [by rewrite decide_True, IH|].
    destruct (by_id (MID m) u) as [m'|] eqn:E; cbn; [|by rewrite decide_False, IH].
    apply by_id_MID in E. by rewrite decide_False, IH by (by rewrite E).
  - rewrite list_filter_filter. apply list_filter_iff. intros m. unfold is_new. split; [by intros [? _]|].
    intros Hm. split; [done|]. unfold ids_of. rewrite Hm. by intros [? _]%list_elem_of_filter.
Qed.

Lemma ids_merged e u : ids_of (merged e u) = ids_of e ++ filter (λ id, id ∉ ids_of e) (ids_of u).
Proof.
  unfold merged. unfold ids_of at 1. rewrite fmap_app, MID_replaced, filter_app. f_equal.
  induction u as [|m u IH]; [done|]. rewrite ids_of_cons, filter_cons.
  unfold is_new at 1. destruct (decide (MID m ∉ ids_of e)) as [Hn|Hn].
  - rewrite fmap_cons, filter_cons. destruct (decide (MID m = "")) as [Hm|Hm].
    + by rewrite decide_False by (by intros []).
    + by rewrite decide_True, IH, filter_cons, decide_True by done.
  - rewrite IH. destruct (decide (MID m = "")) as [Hm|Hm]; [done|].
    by rewrite filter_cons, decide_False.
Qed.

(** ** Conversations *)

(** Batches of messages, one after the other. *)
Fixpoint add_batches (existing : val) (batches : list val) : option (result GraphError val) :=
  match batches with
  | [] => Some (Ok existing)
  | b :: batches => match AddMessagesReducer existing b with
                    | Some (Ok v) => add_batches v batches
                    | r => r
                    end
  end.

Definition batch_val (b : list Message) : val := messages_val (Some <$> b).

Lemma reducer_merges e u : AddMessagesReducer (batch_val e) (batch_val u) = Some (Ok (batch_val (merged e u))).
Proof.
  unfold AddMessagesReducer, batch_val. rewrite as_messages_val.
  change (is_nil (messages_val _)) with false. cbn iota.
  by rewrite as_messages_val, merge_messages_pointers.
Qed.

Lemma add_batches_merge e bs : add_batches (batch_val e) (batch_val <$> bs) = Some (Ok (batch_val (foldl merged e bs))).
Proof.
  revert e. induction bs as [|b bs IH]; intros e; [done|]. rewrite fmap_cons. cbn [add_batches foldl].
  by rewrite reducer_merges, IH.
Qed.

Lemma first_batch b : AddMessagesReducer VNil (batch_val b) = Some (Ok (batch_val b)).
Proof. unfold AddMessagesReducer, batch_val. by rewrite as_messages_val. Qed.

(** A conversation is a finite map with an order.  After any sequence of
    batches every identifier has the version the last batch naming it gave (the
    first one within that batch), messages without identifier are all kept in
    order, identifiers stand in the order in which they arrived, and none
    stands twice if no batch repeats one. *)
Theorem conversation_refines b bs :
  ∃ l, add_batches VNil (batch_val <$> b :: bs) = Some (Ok (batch_val l)) ∧
    (∀ id, id ≠ "" → by_id id l = foldl (λ version batch, by_id id batch ∪ version) None (b :: bs)) ∧
    anonymous l = concat (anonymous <$> b :: bs) ∧
    (ids_of l = foldl (λ ids batch, ids ++ filter (λ id, id ∉ ids) (ids_of batch)) (ids_of b) bs) ∧
    (Forall (λ batch, NoDup (ids_of batch)) (b :: bs) → NoDup (ids_of l)).
Proof.
  exists (foldl merged b bs). split_and!.
  - rewrite fmap_cons. cbn [add_batches]. by rewrite first_batch, add_batches_merge.
  - intros id Hid. cbn [foldl]. replace (by_id id b ∪ None) with (by_id id b) by (by destruct (by_id id b)).
    revert b. induction bs as [|c bs IH]; intros b; [done|]. cbn [foldl].
    by rewrite IH, by_id_merged.
  - rewrite fmap_cons. cbn [concat]. revert b. induction bs as [|c bs IH]; intros b; cbn [foldl fmap list_fmap concat].
    + by rewrite app_nil_r.
    + by rewrite IH, anonymous_merged, (assoc_L (++)).
  - revert b. induction bs as [|c bs IH]; intros b; [done|]. cbn [foldl]. by rewrite IH, ids_merged.
  - revert b. induction bs as [|c bs IH]; intros b [Hb Hbs]%Forall_cons; [done|]. cbn [foldl].
    apply Forall_cons in Hbs as [Hc Hbs]. apply IH, Forall_cons. split; [|done].
    rewrite ids_merged. apply NoDup_app. split_and!; [done| |by apply NoDup_filter].
    by intros id Hid [? _]%list_elem_of_filter.
Qed.

(** A batch that repeats an identifier keeps both messages when it is the first
    or the identifier is new. *)
Example batch_repeats_identifier :
  let m1 := NewMessageWithID "1" "user" "hello" in
  let m2 := NewMessageWithID "1" "user" "hello again" in
  add_batches VNil [batch_val [m1; m2]] = Some (Ok (batch_val [m1; m2])) ∧
  add_batches VNil [batch_val []; batch_val [m1; m2]] = Some (Ok (batch_val [m1; m2])) ∧
  add_batches VNil [batch_val [m1]; batch_val [m2; m1]] = Some (Ok (batch_val [m2])).
Proof. by split_and!. Qed.

(** A message graph keeps the last update only: its channel holds a plain value
    and does not merge. *)
Lemma message_graph_forgets old new :
  ∃ ch, gchannels NewMessageGraph !! messagesChannel = Some ch ∧
    let ch1 := (Update [messages_val old] ch).2 in
    let ch2 := (Update [messages_val new] ch1).2 in
    (GraphGetMessages {[ messagesChannel := ch2 ]}).1 = new.
Proof.
  eexists. split; [reflexivity|]. unfold GraphGetMessages. cbn [fst snd].
  unfold Reg.Get. rewrite lookup_singleton_eq.
  change (default [] (as_messages (messages_val new)) = new). by rewrite as_messages_val.
Qed.

(** ** Filters *)

(** The messages a filter takes when its predicate does not panic. *)
Definition takes (f : MessagesFilter.t) (t : Message → bool) (m : Message) : Prop :=
  (MessagesFilter.roles f = [] ∨ Role m ∈ MessagesFilter.roles f) ∧ t m = true.
#[export] Instance takes_dec f t m : Decision (takes f t m).
Proof. unfold takes. apply _. Defined.

Lemma passes_takes f t m :
  default (Some true) ((λ p, p (Some m)) <$> MessagesFilter.predicate f) = Some (t m) →
  MessagesFilter.passes f (Some m) = Some (bool_decide (takes f t m)).
Proof.
  intros Ht. unfold MessagesFilter.passes.
  replace (match MessagesFilter.predicate f with Some t0 => t0 (Some m) | None => Some true end) with (Some (t m))
    by (by destruct (MessagesFilter.predicate f)).
  assert (∀ b : bool, (b = true ↔ (MessagesFilter.roles f = [] ∨ Role m ∈ MessagesFilter.roles f) ∧ t m = true) → Some b = Some (bool_decide (takes f t m))) as Hdec.
  { intros b Hb. f_equal. destruct (bool_decide_reflect (takes f t m)) as [Ht'|Ht']; unfold takes in Ht'; destruct b; naive_solver. }
  destruct (MessagesFilter.roles f) as [|r rs] eqn:Er; cbn [fmap option_fmap option_map mbind option_bind];
    [|destruct (bool_decide_reflect (Role m ∈ r :: rs)) as [Hr|Hr]; cbn]; apply Hdec; naive_solver.
Qed.

Lemma selected_pointers f t l :
  (∀ m, default (Some true) ((λ p, p (Some m)) <$> MessagesFilter.predicate f) = Some (t m)) →
  MessagesFilter.selected f (Some <$> l) = Some (Some <$> filter (takes f t) l).
Proof.
  intros Ht. induction l as [|m l IH]; [done|]. rewrite fmap_cons, filter_cons. cbn [MessagesFilter.selected].
  rewrite IH, (passes_takes f t m (Ht m)). cbn. by destruct (bool_decide_reflect (takes f t m)), (decide _).
Qed.

(** A page of a filter whose offset lies within the results. *)
Example filter_pages :
  let ms := [HumanMessage "1"; AIMessage "2"; HumanMessage "3"; HumanMessage "4"] in
  let f := MessagesFilter.WithOffset 1 (MessagesFilter.WithLimit 1
             (MessagesFilter.WithRole ["user"] MessagesFilter.NewMessagesFilter)) in
  MessagesFilter.Filter f (Some <$> ms) = Some [Some (HumanMessage "3")] ∧
  (* an offset past the end is ignored *)
  MessagesFilter.Filter (MessagesFilter.WithOffset 3 f) (Some <$> ms) = Some [Some (HumanMessage "1")].
Proof. by split. Qed.

(** The conversion to the format of OpenAI and back keeps role and content. *)
Lemma openai_round_trip l :
  OpenAIFormatToMessages <$> MessagesToOpenAIFormat (Some <$> l) =
  Some ((λ m, Some (NewMessage (Role m) (Content m))) <$> l).
Proof.
  assert (MessagesToOpenAIFormat (Some <$> l) = Some (ToOpenAIChatMessage <$> l)) as ->.
  { unfold MessagesToOpenAIFormat. apply mapM_Some. rewrite Forall2_fmap_l, Forall2_fmap_r.
    by apply Forall_Forall2_diag, Forall_true. }
  cbn. unfold OpenAIFormatToMessages. by rewrite <-list_fmap_compose.
Qed.
