(* ===== verification/RawJson.v ===== *)
(** * Structs with raw JSON fields

    [json.Unmarshal] into a struct, as far as the node functions of loops and
    parallel branches use it: an object is split into its members, whose values
    stay text ([json.RawMessage]) until they are decoded into a field.  The
    scanner accepts what [encoding/json] takes for well-formed. *)

From Stdlib Require Import Ascii.
From S2P Require Export JsonLaw.

(** ** Scanning *)
Fixpoint scan_chars (s : string) : option string :=
  match s with
  | EmptyString => None
  | String a s' =>
      if decide (ch a = 34) then Some s'
      else if decide (ch a < 32) then None
      else if decide (ch a ≠ 92) then scan_chars s'
      else
        match s' with
        | EmptyString => None
        | String e r =>
            if decide (ch e ≠ 117) then
              match simple_escape e with Some _ => scan_chars r | None => None end
            else
              match r with
              | String h1 (String h2 (String h3 (String h4 r1))) =>
                  match hex4 h1 h2 h3 h4 with Some _ => scan_chars r1 | None => None end
              | _ => None
              end
        end
  end.

Definition scan_number (s : string) : option string :=
  let s := if starts_with 45 s then tl s else s in
  let '(int, ni, r) := digits 0 0 s in
  if decide (ni = 0 ∨ (1 < ni ∧ starts_with 48 s = true)) then None
  else
    let '(r, ok) :=
      if starts_with 46 r then
        let '(_, nf, r') := digits int 0 (tl r) in (r', bool_decide (nf ≠ 0))
      else (r, true) in
    if negb ok then None
    else
      let '(r, ok) :=
        if starts_with 101 r || starts_with 69 r then
          let r := tl r in
          let r := if starts_with 45 r || starts_with 43 r then tl r else r in
          let '(_, ne, r') := digits 0 0 r in (r', bool_decide (ne ≠ 0))
        else (r, true) in
      if negb ok then None else Some r.

(** The rest of the text after one value, after the items of an array, and the
    members of an object with the rest. *)
Fixpoint scan_value (fuel : nat) (s : string) : option string :=
  match fuel with
  | O => None
  | S fuel' =>
      let s := skip_ws s in
      if starts_with 34 s then scan_chars (tl s)
      else if starts_with 91 s then scan_items fuel' true (tl s)
      else if starts_with 123 s then snd <$> scan_members fuel' true [] (tl s)
      else
        match keyword "null" s, keyword "true" s, keyword "false" s with
        | Some r, _, _ | _, Some r, _ | _, _, Some r => Some r
        | _, _, _ => scan_number s
        end
  end
with scan_items (fuel : nat) (first : bool) (s : string) : option string :=
  match fuel with
  | O => None
  | S fuel' =>
      if first && starts_with 93 (skip_ws s) then Some (tl (skip_ws s))
      else
        match scan_value fuel' s with
        | None => None
        | Some r =>
            let r := skip_ws r in
            if starts_with 44 r then scan_items fuel' false (tl r)
            else if starts_with 93 r then Some (tl r)
            else None
        end
  end
with scan_members (fuel : nat) (first : bool) (acc : list (string * string)) (s : string)
  : option (list (string * string) * string) :=
  match fuel with
  | O => None
  | S fuel' =>
      let s := skip_ws s in
      if first && starts_with 125 s then Some (acc, tl s)
      else if negb (starts_with 34 s) then None
      else
        match parse_chars (S (String.length s)) (tl s) with
        | None => None
        | Some (k, r) =>
            let r := skip_ws r in
            if negb (starts_with 58 r) then None
            else
              let v := skip_ws (tl r) in
              match scan_value fuel' v with
              | None => None
              | Some r =>
                  let acc := acc ++ [(sanitize k, str_take (String.length v - String.length r) v)] in
                  let r := skip_ws r in
                  if starts_with 44 r then scan_members fuel' false acc (tl r)
                  else if starts_with 125 r then Some (acc, tl r)
                  else None
              end
        end
  end.

(** The members of a text that is one object. *)
Definition object_members (text : string) : option (list (string * string)) :=
  let s := skip_ws text in
  if starts_with 123 s then
    match scan_members (2 * S (String.length text)) true [] (tl s) with
    | Some (ms, r) => if decide (skip_ws r = "") then Some ms else None
    | None => None
    end
  else None.

(** ** Fields

    A field takes the members whose key is its name up to case; besides the
    ASCII letters, the long s and the Kelvin sign fold to letters. *)
Definition lower (a : ascii) : ascii :=
  if decide (65 ≤ ch a ≤ 90) then ascii_of_nat (ch a + 32) else a.

Fixpoint fold_key (s : string) : string :=
  match s with
  | EmptyString => ""
  | String a s' =>
      match s' with
      | String b r =>
          if decide (ch a = 197 ∧ ch b = 191) then String "s" (fold_key r)
          else match r with
               | String c r' =>
                   if decide (ch a = 226 ∧ ch b = 132 ∧ ch c = 170) then String "k" (fold_key r')
                   else String (lower a) (fold_key s')
               | EmptyString => String (lower a) (fold_key s')
               end
      | EmptyString => String (lower a) ""
      end
  end.

Definition values_of (name : string) (ms : list (string * string)) : list string :=
  (filter (λ kt, fold_key kt.1 = name) ms).*2.

(** A [json.RawMessage] field: the last text. *)
Definition raw_field (name : string) (ms : list (string * string)) : option string := last (values_of name ms).

(** A literal without fraction and exponent. *)
Definition int_literal (t : string) : option Z :=
  let neg := starts_with 45 t in
  let s := if neg then tl t else t in
  match digits 0 0 s with
  | (c, S _, EmptyString) =>
      let z := if neg then (- c)%Z else c in
      if decide (in_int64 z) then Some z else None
  | _ => None
  end.

(** An [int] field: null leaves it alone, anything but an integer fails. *)
Fixpoint int_field (acc : Z) (values : list string) : option Z :=
  match values with
  | [] => Some acc
  | t :: values => if decide (t = "null") then int_field acc values
                   else z ← int_literal t; int_field z values
  end.

(** * Properties *)

(** ** What the parser accepts the scanner accepts *)
Lemma scan_chars_parse fuel s t r : parse_chars fuel s = Some (t, r) → scan_chars s = Some r.
Proof.
  revert s t r. induction fuel as [|fuel IH]; intros s t r; [done|]. cbn [parse_chars].
  destruct s as [|a s]; [done|]. cbn [scan_chars].
  assert (∀ u x t r, match parse_chars fuel x with Some (rest, r') => Some (u +:+ rest, r') | None => None end = Some (t, r) →
    scan_chars x = Some r) as Hmore.
  { intros u x t' r'. destruct (parse_chars fuel x) as [[rest r0]|] eqn:E; [|done]. intros [= _ <-]. by eapply IH. }
  destruct (decide (ch a = 34)); [by intros [= _ <-]|]. destruct (decide (ch a < 32)); [done|].
  destruct (decide (ch a ≠ 92)); [apply Hmore|]. destruct s as [|e s]; [done|].
  destruct (decide (ch e ≠ 117)); [destruct (simple_escape e); [apply Hmore|done]|].
  destruct s as [|h1 [|h2 [|h3 [|h4 s]]]]; try done. destruct (hex4 h1 h2 h3 h4); [|done].
  destruct s as [|b [|u [|l1 [|l2 [|l3 [|l4 s]]]]]]; try apply Hmore.
  destruct (hex4 l1 l2 l3 l4) as [lo|] eqn:E; [|apply Hmore].
  destruct (decide _) as [(_ & Hb & Hu & _)|]; [|apply Hmore]. intros Hs%Hmore. cbn [scan_chars].
  rewrite !decide_False by lia. by rewrite E.
Qed.

Lemma scan_number_parse s f r : parse_number s = Some (f, r) → scan_number s = Some r.
Proof.
  unfold parse_number, scan_number. cbn zeta.
  destruct (digits 0 0 (if starts_with 45 s then tl s else s)) as [[int ni] r0].
  destruct (decide _); [done|].
  destruct (starts_with 46 r0).
  - destruct (digits int 0 (tl r0)) as [[c nf] r1]. destruct (bool_decide (nf ≠ 0)); [|done]. cbn [negb].
    destruct (starts_with 101 r1 || starts_with 69 r1).
    + destruct (digits 0 0 _) as [[x ne] r2]. destruct (bool_decide (ne ≠ 0)); [|done]. cbn [negb].
      destruct (float_of_dec _ _ _ _); intros [=]; by subst.
    + cbn [negb]. destruct (float_of_dec _ _ _ _); intros [=]; by subst.
  - cbn [negb]. destruct (starts_with 101 r0 || starts_with 69 r0).
    + destruct (digits 0 0 _) as [[x ne] r2]. destruct (bool_decide (ne ≠ 0)); [|done]. cbn [negb].
      destruct (float_of_dec _ _ _ _); intros [=]; by subst.
    + cbn [negb]. destruct (float_of_dec _ _ _ _); intros [=]; by subst.
Qed.

Lemma skip_ws_idem s : skip_ws (skip_ws s) = skip_ws s.
Proof.
  induction s as [|a s IH]; [done|]. cbn [skip_ws]. destruct (decide _) as [Ha|Ha]; [done|].
  cbn [skip_ws]. by rewrite decide_False.
Qed.

Lemma scan_value_skip fuel s : scan_value fuel (skip_ws s) = scan_value fuel s.
Proof. destruct fuel; [done|]. cbn [scan_value]. by rewrite skip_ws_idem. Qed.

Lemma scan_parse fuel :
  (∀ s w r, parse_value fuel s = Some (w, r) → scan_value fuel s = Some r) ∧
  (∀ first acc s w r, parse_items fuel first acc s = Some (w, r) → scan_items fuel first s = Some r) ∧
  (∀ first acc acc' s w r, parse_members fuel first acc s = Some (w, r) → snd <$> scan_members fuel first acc' s = Some r).
Proof.
  induction fuel as [|fuel (IHv & IHi & IHm)]; [done|]. split_and!.
  - intros s w r. cbn [parse_value scan_value]. set (t := skip_ws s).
    destruct (starts_with 34 t).
    { destruct (parse_chars _ _) as [[x r0]|] eqn:E; [|done]. intros [= _ <-]. by eapply scan_chars_parse. }
    destruct (starts_with 91 t); [apply IHi|]. destruct (starts_with 123 t); [apply IHm|].
    destruct (keyword "null" t), (keyword "true" t), (keyword "false" t); try (intros [=]; by subst).
    destruct (parse_number t) as [[f r0]|] eqn:E; [|done]. intros [= _ <-]. by eapply scan_number_parse.
  - intros first acc s w r. cbn [parse_items scan_items].
    destruct (first && starts_with 93 (skip_ws s)); [intros [=]; by subst|].
    destruct (parse_value fuel s) as [[v r0]|] eqn:E; [|done]. rewrite (IHv _ _ _ E). cbn zeta.
    destruct (starts_with 44 (skip_ws r0)); [apply IHi|]. destruct (starts_with 93 (skip_ws r0)); [|done].
    intros [=]; by subst.
  - intros first acc acc' s w r. cbn [parse_members scan_members]. set (t := skip_ws s).
    destruct (first && starts_with 125 t); [intros [=]; by subst|].
    destruct (negb (starts_with 34 t)); [done|]. destruct (parse_chars _ _) as [[k r0]|]; [|done].
    destruct (negb (starts_with 58 (skip_ws r0))); [done|].
    destruct (parse_value fuel (tl (skip_ws r0))) as [[v r1]|] eqn:E; [|done].
    rewrite scan_value_skip, (IHv _ _ _ E). destruct (starts_with 44 (skip_ws r1)); [apply IHm|].
    destruct (starts_with 125 (skip_ws r1)); [|done]. intros [=]; by subst.
Qed.

(** ** Reading what was written *)
Lemma str_take_app t r : str_take (String.length (t +:+ r) - String.length r) (t +:+ r) = t.
Proof.
  rewrite length_app_String. replace (String.length t + String.length r - String.length r) with (String.length t) by lia.
  induction t as [|a t IH]; [unfold str_take; by destruct r|]. rewrite app_String. cbn [String.length].
  change (str_take (S (String.length t)) (String a (t +:+ r))) with (String a (str_take (String.length t) (t +:+ r))).
  by rewrite IH.
Qed.

(** A text the scanner takes for one value, up to what follows. *)
Definition scans (t : string) : Prop :=
  (∀ r, skip_ws (t +:+ r) = t +:+ r) ∧
  ∀ fuel r, String.length t ≤ fuel → ends r → scan_value fuel (t +:+ r) = Some r.

Lemma denotes_scans t w : denotes t w → scans t.
Proof.
  intros Ht. split; [intros r; by eapply skip_head|]. intros fuel r Hf Hr.
  exact (proj1 (scan_parse fuel) _ _ _ (denotes_parse _ _ Ht fuel r Hf Hr)).
Qed.

Lemma marshal_scans v t : readable v → marshal v = Some t → scans t.
Proof.
  intros Hv E. pose proof (marshal_agree v Hv) as H. unfold agree in H. rewrite E in H.
  destruct (json_rt v); [|done]. by eapply denotes_scans.
Qed.

(** Integers of every size: the scanner does not look at their value. *)
Lemma digits_pretty (p : positive) acc r : ends r →
  digits 0 acc (pretty (N.pos p) +:+ r) = (Z.pos p, acc + String.length (pretty (N.pos p)), r).
Proof.
  intros (Hr & _). destruct (pretty_pos p) as [(Ha & _) Hv].
  by rewrite digits_app, digits_stop, Hv by done.
Qed.

Lemma scan_number_pos (p : positive) r (neg : bool) : ends r →
  scan_number ((if neg then "-" else "") +:+ (pretty (N.pos p) +:+ r)) = Some r.
Proof.
  intros Hr. unfold scan_number. pose proof (pretty_pos p) as [Hn _].
  assert ((if starts_with 45 ((if neg then "-" else "") +:+ (pretty (N.pos p) +:+ r))
           then tl ((if neg then "-" else "") +:+ (pretty (N.pos p) +:+ r))
           else (if neg then "-" else "") +:+ (pretty (N.pos p) +:+ r)) = pretty (N.pos p) +:+ r) as ->.
  { destruct neg; [reflexivity|]. rewrite app_Empty. by rewrite numeral_not_minus. }
  cbn zeta. rewrite digits_pretty by done. destruct Hn as (_ & Hne & Hz).
  destruct (pretty (N.pos p)) as [|a s] eqn:E; [done|]. rewrite decide_False.
  2: { rewrite app_String. cbn in Hz |- *. rewrite Hz. intros [?|[_ ?]]; [lia|done]. }
  destruct Hr as (_ & H46 & H101 & H69). rewrite H46. cbn [negb]. by rewrite H101, H69.
Qed.

Lemma pretty_Z_sign (z : Z) : z = 0%Z ∨ ∃ (neg : bool) p,
  pretty z = (if neg then "-" else "") +:+ pretty (N.pos p) ∧ z = (if neg then Z.neg p else Z.pos p).
Proof. destruct z as [|p|p]; [by left|right; by exists false, p|right; by exists true, p]. Qed.

Lemma scan_number_int (z : Z) r : ends r → scan_number (pretty z +:+ r) = Some r.
Proof.
  intros Hr. destruct (pretty_Z_sign z) as [->|(neg & p & -> & _)].
  - destruct Hr as (Hd & H46 & H101 & H69). change (pretty 0%Z) with "0". unfold scan_number.
    rewrite app_String, app_Empty. change (starts_with 45 (String "0" r)) with false. cbn iota zeta.
    change (digits 0 0 (String "0" r)) with (digits 0 1 r). rewrite digits_stop by done.
    rewrite decide_False by lia. rewrite H46. cbn [negb]. by rewrite H101, H69.
  - rewrite <-(assoc_L String.append). by apply scan_number_pos.
Qed.

Lemma scans_int (z : Z) : scans (pretty z).
Proof.
  pose proof (starts_number_int z "") as Hs. rewrite app_nil_String in Hs.
  pose proof (λ r, scan_number_int z r) as Hn. destruct (pretty z) as [|a t]; [done|].
  assert (ch a ∉ [32; 9; 10; 13; 34; 91; 123] ∧ ch a ≠ 110 ∧ ch a ≠ 116 ∧ ch a ≠ 102) as (Ha & H1 & H2 & H3).
  { unfold starts_number in Hs. cbn in Hs.
    apply orb_true_iff in Hs as [Hs%bool_decide_eq_true|Hs%bool_decide_eq_true];
      rewrite !elem_of_cons, elem_of_nil; lia. }
  assert (∀ r, skip_ws (String a t +:+ r) = String a t +:+ r) as Hw.
  { intros r. rewrite app_String. cbn [skip_ws]. rewrite decide_False; [done|].
    rewrite !elem_of_cons, elem_of_nil in *. lia. }
  split; [done|]. intros fuel r Hf Hr. cbn in Hf. destruct fuel as [|fuel]; [lia|]. cbn [scan_value]. rewrite Hw.
  specialize (Hn r Hr). rewrite app_String in *. unfold starts_with.
  rewrite !bool_decide_eq_false_2 by (rewrite !elem_of_cons, elem_of_nil in Ha; lia).
  assert (∀ b k, ch b ≠ ch a → keyword (String b k) (String a (t +:+ r)) = None) as Hk.
  { intros b k Hb. unfold keyword, is_prefix. cbn [String.prefix]. by destruct (ascii_dec b a) as [->|]. }
  rewrite !Hk by (change (ch "n") with 110; change (ch "t") with 116; change (ch "f") with 102; lia).
  exact Hn.
Qed.

Lemma scan_members_scans (kts : list (string * string)) first acc fuel r :
  Forall (λ kt, scans kt.2) kts → kts ≠ [] →
  String.length (join_with "," (member_text <$> kts)) < fuel →
  scan_members fuel first acc (join_with "," (member_text <$> kts) +:+ String "}" r) =
  Some (acc ++ ((λ kt, (sanitize kt.1, kt.2)) <$> kts), r).
Proof.
  intros H. revert first acc fuel. induction H as [|[k t] kts Ht Hts IH]; intros first acc fuel Hne Hf; [done|].
  cbn [fst snd] in Ht. destruct fuel as [|fuel]; [lia|].
  assert (String.length (member_text (k, t)) = String.length (encode_chars 0 k) + 3 + String.length t) as Hlm
    by apply length_member.
  assert (∀ u, ends u → String.length t ≤ fuel → scan_members (S fuel) first acc (member_text (k, t) +:+ u) =
    let acc := acc ++ [(sanitize k, t)] in
    let r := skip_ws u in
    if starts_with 44 r then scan_members fuel false acc (tl r)
    else if starts_with 125 r then Some (acc, tl r) else None) as Hstep.
  { intros u Hu Hl. rewrite member_app. cbn [fst snd scan_members].
    change (skip_ws (String (ascii_of_nat 34) ?x)) with (String (ascii_of_nat 34) x).
    change (starts_with 125 (String (ascii_of_nat 34) ?x)) with false.
    change (starts_with 34 (String (ascii_of_nat 34) ?x)) with true.
    rewrite andb_false_r. cbn [negb tl].
    rewrite parse_encode by (cbn; rewrite !length_app_String; lia).
    change (skip_ws (String ":" ?x)) with (String ":" x). change (starts_with 58 (String ":" ?x)) with true.
    cbn [negb tl]. rewrite (proj1 Ht u).
    rewrite (proj2 Ht fuel u Hl Hu).
    by rewrite sanitize_idemp, str_take_app. }
  rewrite fmap_cons. rewrite fmap_cons in Hf. destruct kts as [|[k2 t2] kts].
  - cbn [fmap list_fmap join_with] in *. rewrite Hstep by (lia || apply ends_brace). reflexivity.
  - rewrite (fmap_cons member_text) in *. rewrite join_cons in *. rewrite !length_app_String in Hf. cbn [String.length] in Hf.
    rewrite <-!(assoc_L String.append), app_String, app_Empty, Hstep by (lia || apply ends_comma).
    transitivity (scan_members fuel false (acc ++ [(sanitize k, t)])
      (join_with "," (member_text (k2, t2) :: (member_text <$> kts)) +:+ String "}" r)); [reflexivity|].
    rewrite <-fmap_cons, IH by (done || lia). rewrite <-(assoc_L (++)). reflexivity.
Qed.

Lemma scans_object kts : Forall (λ kt, scans kt.2) kts → scans (json_object kts).
Proof.
  intros H. unfold json_object.
  change (λ kv : string * string, encode_string kv.1 +:+ ":" +:+ kv.2) with member_text. split.
  - intros r. by rewrite !app_String.
  - intros fuel r Hf _. rewrite <-!(assoc_L String.append), !app_String, !app_Empty in *. cbn [String.length] in Hf.
    rewrite !length_app_String in Hf. cbn [String.length] in Hf. destruct fuel as [|fuel]; [lia|].
    transitivity (snd <$> scan_members fuel true [] (join_with "," (member_text <$> kts) +:+ String "}" r)); [reflexivity|].
    destruct kts as [|kt kts]; [destruct fuel as [|fuel]; [cbn in Hf; lia|reflexivity]|].
    by rewrite scan_members_scans by (done || lia).
Qed.

(** The members of a written object are the ones it was written from. *)
Lemma object_members_written kts :
  Forall (λ kt, scans kt.2) kts →
  object_members (json_object kts) = Some ((λ kt, (sanitize kt.1, kt.2)) <$> kts).
Proof.
  intros H. unfold object_members, json_object.
  change (λ kv : string * string, encode_string kv.1 +:+ ":" +:+ kv.2) with member_text.
  set (b := join_with "," (member_text <$> kts)). rewrite app_String, app_Empty.
  change (skip_ws (String "{" (b +:+ "}"))) with (String "{" (b +:+ "}")).
  change (starts_with 123 (String "{" (b +:+ "}"))) with true. cbn [tl].
  destruct kts as [|kt kts]; [reflexivity|]. unfold b.
  rewrite scan_members_scans; [reflexivity|done|done|]. cbn. rewrite length_app_String. lia.
Qed.

(** An integer field reads the text it was written with. *)
Lemma int_literal_pretty z : in_int64 z → int_literal (pretty z) = Some z.
Proof.
  intros Hz. destruct (pretty_Z_sign z) as [->|(neg & p & -> & Hp)]; [reflexivity|]. unfold int_literal.
  pose proof (pretty_pos p) as [(_ & Hne & _) _]. pose proof (pretty_pos p) as [Hn _].
  destruct neg; cbn iota in Hp.
  - rewrite app_String, app_Empty. change (starts_with 45 (String "-" ?x)) with true. cbn iota zeta. cbn [tl].
    rewrite <-(app_nil_String (pretty (N.pos p))), digits_pretty by done.
    destruct (pretty (N.pos p)); [done|]. cbn [String.length Nat.add]. rewrite decide_True; [by subst|].
    by replace (- Z.pos p)%Z with z by lia.
  - rewrite app_Empty. pose proof (numeral_not_minus _ "" Hn) as Hm. rewrite app_nil_String in Hm. rewrite Hm.
    cbn iota zeta. rewrite <-(app_nil_String (pretty (N.pos p))), digits_pretty by done.
    destruct (pretty (N.pos p)); [done|]. cbn [String.length Nat.add]. rewrite decide_True; [by subst|].
    by subst.
Qed.

Example members_example :
  let text := "{ " +:+ quote +:+ "Iteration" +:+ quote +:+ " : 7 ," +:+ quote +:+ "current_input" +:+ quote +:+ ":[1, {}]}" in
  (ms ← object_members text; z ← int_field 0 (values_of "iteration" ms); Some (z, raw_field "current_input" ms)) =
  Some (7%Z, Some "[1, {}]").
Proof. vm_compute. reflexivity. Qed.

(** ** Fields of other types *)

(** A string literal, and null. *)
Definition string_literal (t : string) : option string :=
  if starts_with 34 t then
    match parse_chars (S (String.length t)) (tl t) with Some (s, EmptyString) => Some (sanitize s) | _ => None end
  else None.

(** The texts of the items of an array. *)
Fixpoint scan_array (fuel : nat) (first : bool) (acc : list string) (s : string) : option (list string) :=
  match fuel with
  | O => None
  | S fuel' =>
      let s := skip_ws s in
      if first && starts_with 93 s then Some acc
      else
        match scan_value (2 * S (String.length s)) s with
        | None => None
        | Some r =>
            let acc := acc ++ [str_take (String.length s - String.length r) s] in
            let r := skip_ws r in
            if starts_with 44 r then scan_array fuel' false acc (tl r)
            else if starts_with 93 r then Some acc else None
        end
  end.

Definition array_items (t : string) : option (list string) :=
  if starts_with 91 t then scan_array (S (String.length t)) true [] (tl t) else None.

(** Base64 with padding; line breaks are skipped. *)
Fixpoint index_of (a : ascii) (s : string) : option nat :=
  match s with
  | EmptyString => None
  | String b s => if decide (a = b) then Some 0 else S <$> index_of a s
  end.
Definition base64_digit (a : ascii) : option Z := Z.of_nat <$> index_of a base64_alphabet.
Definition byte_char (z : Z) : ascii := ascii_of_N (Z.to_N (z mod 256)).

Fixpoint base64_groups (s : string) : option string :=
  match s with
  | EmptyString => Some ""
  | String a (String b (String c (String d s'))) =>
      w ← base64_digit a; x ← base64_digit b;
      let first := byte_char (w * 4 + x / 16) in
      match base64_digit c with
      | None =>
          if decide (c = "="%char ∧ d = "="%char ∧ s' = "") then Some (String first "") else None
      | Some y =>
          let second := byte_char (x * 16 + y / 4) in
          match base64_digit d with
          | None => if decide (d = "="%char ∧ s' = "") then Some (String first (String second "")) else None
          | Some z => rest ← base64_groups s'; Some (String first (String second (String (byte_char (y * 64 + z)) rest)))
          end
      end
  | _ => None
  end.

Fixpoint without_breaks (s : string) : string :=
  match s with
  | EmptyString => ""
  | String a s => if decide (ch a = 10 ∨ ch a = 13) then without_breaks s else String a (without_breaks s)
  end.

Definition base64_decode (s : string) : option string := base64_groups (without_breaks s).

(** A [[]byte] field: null makes it nil. *)
Definition bytes_literal (t : string) : option (option string) :=
  if decide (t = "null") then Some None
  else s ← string_literal t; b ← base64_decode s; Some (Some b).

(** The last of several values counts, but every one of them must be read. *)
Fixpoint last_field {A} (read : string → option A) (acc : A) (values : list string) : option A :=
  match values with [] => Some acc | t :: values => a ← read t; last_field read a values end.

(** A slice of [int]; null items are zero. *)
Definition ints_literal (t : string) : option (list Z) :=
  if decide (t = "null") then Some []
  else ts ← array_items t; sequence ((λ t, int_field 0 [t]) <$> ts).

(** A key of a map with [int] keys, as [strconv.ParseInt] reads it. *)
Definition int_key (k : string) : option Z :=
  let neg := starts_with 45 k in
  let s := if neg || starts_with 43 k then tl k else k in
  match digits 0 0 s with
  | (c, S _, EmptyString) => let z := if neg then (- c)%Z else c in if decide (in_int64 z) then Some z else None
  | _ => None
  end.

Example base64_decode_example :
  base64_decode "YW55IGNh\ncm5hbCBwbGVhcw==" = None ∧
  base64_decode "YW55IGNhcm5hbCBwbGVhcw==" = Some "any carnal pleas" ∧
  array_items "[ 1, [2,3] ,{}]" = Some ["1"; "[2,3]"; "{}"] ∧ ints_literal "[4,null]" = Some [4%Z; 0%Z].
Proof. vm_compute. split_and!; reflexivity. Qed.

(** *** Reading back *)
Lemma base64_digit_char n : (0 ≤ n < 64)%Z → base64_digit (base64_char n) = Some n.
Proof.
  intros Hn. assert (forallb (λ i, bool_decide (base64_digit (base64_char (Z.of_nat i)) = Some (Z.of_nat i))) (seq 0 64) = true)
    as H by (vm_compute; reflexivity).
  rewrite forallb_forall in H. specialize (H (Z.to_nat n)). rewrite Z2Nat.id in H by lia.
  apply bool_decide_eq_true in H; [done|]. apply in_seq. lia.
Qed.

Lemma byte_char_byte a z : (z mod 256 = byte_of a)%Z → byte_char z = a.
Proof. unfold byte_char, byte_of. intros ->. by rewrite N2Z.id, ascii_N_embedding. Qed.

Lemma byte_of_range a : (0 ≤ byte_of a < 256)%Z.
Proof. unfold byte_of. pose proof (N_ascii_bounded a). lia. Qed.

(** The bytes put together again from groups of six bits. *)
Lemma first_byte x u : (0 ≤ x < 256)%Z → (0 ≤ u < 16)%Z →
  ((x / 4 * 4 + (x mod 4 * 16 + u) / 16) mod 256 = x)%Z.
Proof.
  intros Hx Hu. rewrite Z.div_add_l, (Z.div_small u) by lia. pose proof (Z.div_mod x 4).
  rewrite Z.mod_small; lia.
Qed.

Lemma second_byte x y u : (0 ≤ y < 256)%Z → (0 ≤ u < 4)%Z →
  (((x * 16 + y / 16) * 16 + (y mod 16 * 4 + u) / 4) mod 256 = y)%Z.
Proof.
  intros Hy Hu. rewrite Z.div_add_l, (Z.div_small u) by lia. pose proof (Z.div_mod y 16).
  replace ((x * 16 + y / 16) * 16 + (y mod 16 + 0))%Z with (y + x * 256)%Z by lia.
  rewrite Z.mod_add, Z.mod_small; lia.
Qed.

Lemma third_byte y z : (0 ≤ z < 256)%Z → (((y * 4 + z / 64) * 64 + z mod 64) mod 256 = z)%Z.
Proof.
  intros Hz. pose proof (Z.div_mod z 64). replace ((y * 4 + z / 64) * 64 + z mod 64)%Z with (z + y * 256)%Z by lia.
  rewrite Z.mod_add, Z.mod_small; lia.
Qed.

Lemma sixes x y z : (0 ≤ x < 256)%Z → (0 ≤ y < 256)%Z → (0 ≤ z < 256)%Z →
  (0 ≤ x / 4 < 64 ∧ 0 ≤ x mod 4 * 16 + y / 16 < 64 ∧ 0 ≤ y mod 16 * 4 + z / 64 < 64 ∧ 0 ≤ z mod 64 < 64 ∧
   0 ≤ y / 16 < 16 ∧ 0 ≤ z / 64 < 4)%Z.
Proof.
  intros Hx Hy Hz.
  pose proof (Z.mod_pos_bound x 4). pose proof (Z.mod_pos_bound y 16). pose proof (Z.mod_pos_bound z 64).
  pose proof (Z.div_mod x 4). pose proof (Z.div_mod y 16). pose proof (Z.div_mod z 64). lia.
Qed.

Lemma base64_groups_base64 s : base64_groups (base64 s) = Some s.
Proof.
  revert s. fix IH 1. intros s. assert (0 ≤ 0 < 256)%Z as H0 by lia.
  destruct s as [|a [|b [|c s]]]; [done|..]; cbn [base64 base64_groups]; pose proof (byte_of_range a) as Ha.
  - destruct (sixes _ _ _ Ha H0 H0) as (?&?&_). change (0 / 16)%Z with 0%Z in *.
    rewrite !base64_digit_char by (done || lia).
    cbn [mbind option_bind]. change (base64_digit "=") with (@None Z). cbn iota. rewrite decide_True by done.
    do 2 f_equal. apply byte_char_byte. rewrite <-(Z.add_0_r (_ mod 4 * 16)). by apply first_byte.
  - pose proof (byte_of_range b) as Hb. destruct (sixes _ _ _ Ha Hb H0) as (?&?&?&?&?&?). change (0 / 64)%Z with 0%Z in *.
    rewrite !base64_digit_char by (done || lia). cbn [mbind option_bind].
    change (base64_digit "=") with (@None Z). cbn iota. rewrite decide_True by done.
    do 2 f_equal; [by apply byte_char_byte, first_byte|]. f_equal. apply byte_char_byte.
    rewrite <-(Z.add_0_r (_ mod 16 * 4)). by apply second_byte.
  - pose proof (byte_of_range b) as Hb. pose proof (byte_of_range c) as Hc.
    destruct (sixes _ _ _ Ha Hb Hc) as (?&?&?&?&?&?).
    rewrite !base64_digit_char by done. cbn [mbind option_bind]. rewrite IH. cbn [mbind option_bind].
    do 2 f_equal; [by apply byte_char_byte, first_byte|]. f_equal; [by apply byte_char_byte, second_byte|].
    f_equal. by apply byte_char_byte, third_byte.
Qed.

Lemma without_breaks_plain s : all_plain s = true → without_breaks s = s.
Proof.
  induction s as [|a s IH]; [done|]. cbn [all_plain without_breaks]. intros [Ha Hs]%andb_true_iff. rewrite IH by done.
  rewrite decide_False; [done|]. unfold plain_char in Ha. apply andb_true_iff in Ha as [[[Ha%Nat.leb_le _]%andb_true_iff _]%andb_true_iff _]. lia.
Qed.

Lemma base64_decode_encode s : base64_decode (base64 s) = Some s.
Proof. unfold base64_decode. rewrite without_breaks_plain by apply base64_plain. apply base64_groups_base64. Qed.

Lemma string_literal_quoted s : all_plain s = true → string_literal (quote +:+ s +:+ quote) = Some s.
Proof.
  intros Hs. change (quote +:+ s +:+ quote) with (String (ascii_of_nat 34) (s +:+ (quote +:+ ""))).
  unfold string_literal. change (starts_with 34 (String (ascii_of_nat 34) ?x)) with true. cbn iota. cbn [tl].
  rewrite parse_all_plain; [by rewrite (plain_valid s Hs)|done|]. cbn [String.length]. rewrite length_app_String. lia.
Qed.

Lemma bytes_literal_written s : bytes_literal (quote +:+ base64 s +:+ quote) = Some (Some s).
Proof.
  unfold bytes_literal. rewrite decide_False by done. rewrite string_literal_quoted by apply base64_plain.
  cbn [mbind option_bind]. by rewrite base64_decode_encode.
Qed.

Lemma scan_array_scans ts first acc fuel :
  Forall (λ t, scans t ∧ ∀ r, starts_with 93 (t +:+ r) = false) ts → ts ≠ [] → length ts < fuel →
  scan_array fuel first acc (join_with "," ts +:+ "]") = Some (acc ++ ts).
Proof.
  intros H. revert first acc fuel. induction H as [|t ts [Ht Hb] Hts IH]; intros first acc fuel Hne Hf; [done|].
  destruct fuel as [|fuel]; [cbn in Hf; lia|].
  assert (∀ u, ends u → scan_array (S fuel) first acc (t +:+ u) =
    let acc := acc ++ [t] in let r := skip_ws u in
    if starts_with 44 r then scan_array fuel false acc (tl r)
    else if starts_with 93 r then Some acc else None) as Hstep.
  { intros u Hu. cbn [scan_array]. rewrite (proj1 Ht u), Hb, andb_false_r.
    rewrite (proj2 Ht) by (done || rewrite length_app_String; lia). by rewrite str_take_app. }
  destruct ts as [|t' ts].
  - cbn [join_with]. rewrite Hstep by done. reflexivity.
  - rewrite join_cons, <-!(assoc_L String.append), app_String, app_Empty, Hstep by apply ends_comma.
    transitivity (scan_array fuel false (acc ++ [t]) (join_with "," (t' :: ts) +:+ "]")); [reflexivity|].
    cbn [length] in Hf. rewrite IH by (done || cbn [length]; lia). by rewrite <-(assoc_L (++)).
Qed.

Lemma length_join_items (ts : list string) :
  Forall (λ t, t ≠ "") ts → length ts ≤ String.length (join_with "," ts).
Proof.
  induction 1 as [|t ts Ht Hts IH]; [done|]. assert (0 < String.length t) by (destruct t; [done|cbn; lia]).
  destruct ts as [|t' ts]; [cbn in *; lia|]. rewrite join_cons, !length_app_String. cbn [length String.length] in *. lia.
Qed.

Lemma pretty_not_bracket (z : Z) r : starts_with 93 (pretty z +:+ r) = false.
Proof.
  pose proof (starts_number_int z "") as Hs. rewrite app_nil_String in Hs. destruct (pretty z) as [|a t]; [done|].
  rewrite app_String. cbn. apply bool_decide_eq_false. unfold starts_number in Hs. cbn in Hs.
  apply orb_true_iff in Hs as [Hs%bool_decide_eq_true|Hs%bool_decide_eq_true]; lia.
Qed.

Lemma pretty_nonempty (z : Z) : pretty z ≠ "".
Proof. intros E. pose proof (starts_number_int z "") as Hn. by rewrite E in Hn. Qed.

Lemma pretty_not_null (z : Z) : pretty z ≠ "null".
Proof. intros E. pose proof (starts_number_int z "") as Hn. by rewrite app_nil_String, E in Hn. Qed.

Lemma int_field_pretty acc z : in_int64 z → int_field acc [pretty z] = Some z.
Proof.
  intros Hz. unfold int_field. rewrite decide_False by apply pretty_not_null. by rewrite int_literal_pretty.
Qed.

Lemma ints_literal_written (zs : list Z) :
  Forall in_int64 zs → ints_literal (json_list (pretty <$> zs)) = Some zs.
Proof.
  intros Hz. unfold ints_literal, json_list. rewrite decide_False by done. unfold array_items.
  rewrite app_String, app_Empty. change (starts_with 91 (String "[" ?x)) with true. cbn iota. cbn [tl].
  assert (scan_array (S (String.length (String "[" (join_with "," (pretty <$> zs) +:+ "]")))) true []
    (join_with "," (pretty <$> zs) +:+ "]") = Some (pretty <$> zs)) as ->.
  { destruct zs as [|z zs]; [reflexivity|]. apply scan_array_scans.
    - apply Forall_fmap, Forall_forall. intros x _. split; [apply scans_int|apply pretty_not_bracket].
    - done.
    - cbn [String.length]. rewrite length_app_String.
      pose proof (length_join_items (pretty <$> z :: zs) ltac:(apply Forall_fmap, Forall_forall; intros; apply pretty_nonempty)).
      lia. }
  cbn [mbind option_bind]. rewrite <-list_fmap_compose. induction Hz as [|z zs Hz _ IH]; [done|].
  rewrite fmap_cons. cbn [sequence compose]. by rewrite int_field_pretty, IH.
Qed.

Lemma int_key_pretty z : in_int64 z → int_key (pretty z) = Some z.
Proof.
  intros Hz. pose proof (int_literal_pretty z Hz) as Hi. unfold int_literal in Hi. unfold int_key.
  assert (starts_with 43 (pretty z) = false) as ->; [|by rewrite orb_false_r].
  pose proof (starts_number_int z "") as Hs. rewrite app_nil_String in Hs. destruct (pretty z) as [|a t]; [done|].
  cbn. apply bool_decide_eq_false. unfold starts_number in Hs. cbn in Hs.
  apply orb_true_iff in Hs as [Hs%bool_decide_eq_true|Hs%bool_decide_eq_true]; lia.
Qed.

(** The members as the decoder sees them. *)
Definition seen (kts : list (string * string)) : list (string * string) := (λ kt, (sanitize kt.1, kt.2)) <$> kts.

Lemma values_of_member name k t ms :
  values_of name (seen ((k, t) :: ms)) =
  if decide (fold_key (sanitize k) = name) then t :: values_of name (seen ms) else values_of name (seen ms).
Proof. unfold values_of, seen. rewrite fmap_cons, filter_cons. cbn [fst snd]. by destruct (decide _). Qed.

Lemma object_members_seen kts : Forall (λ kt, scans kt.2) kts → object_members (json_object kts) = Some (seen kts).
Proof. apply object_members_written. Qed.

Lemma scan_items_scans ts first fuel r :
  Forall (λ t, scans t ∧ ∀ r, starts_with 93 (t +:+ r) = false) ts → ts ≠ [] →
  String.length (join_with "," ts) < fuel →
  scan_items fuel first (join_with "," ts +:+ String "]" r) = Some r.
Proof.
  intros H. revert first fuel. induction H as [|t ts [Ht Hb] Hts IH]; intros first fuel Hne Hf; [done|].
  destruct fuel as [|fuel]; [lia|].
  assert (∀ u, ends u → String.length t ≤ fuel → scan_items (S fuel) first (t +:+ u) =
    if starts_with 44 (skip_ws u) then scan_items fuel false (tl (skip_ws u))
    else if starts_with 93 (skip_ws u) then Some (tl (skip_ws u)) else None) as Hstep.
  { intros u Hu Hl. cbn [scan_items]. rewrite (proj1 Ht u), Hb, andb_false_r. by rewrite (proj2 Ht). }
  destruct ts as [|t' ts].
  - cbn [join_with] in *. rewrite Hstep by (lia || apply ends_bracket). reflexivity.
  - rewrite join_cons in *. rewrite !length_app_String in Hf. cbn [String.length] in Hf.
    rewrite <-!(assoc_L String.append), app_String, app_Empty, Hstep by (lia || apply ends_comma).
    transitivity (scan_items fuel false (join_with "," (t' :: ts) +:+ String "]" r)); [reflexivity|].
    by apply IH; [|lia].
Qed.

Lemma scans_list ts : Forall (λ t, scans t ∧ ∀ r, starts_with 93 (t +:+ r) = false) ts → scans (json_list ts).
Proof.
  intros H. unfold json_list. split.
  - intros r. by rewrite !app_String.
  - intros fuel r Hf _. rewrite <-!(assoc_L String.append), !app_String, !app_Empty in *. cbn [String.length] in Hf.
    rewrite !length_app_String in Hf. cbn [String.length] in Hf. destruct fuel as [|fuel]; [lia|].
    transitivity (scan_items fuel true (join_with "," ts +:+ String "]" r)); [reflexivity|].
    destruct ts as [|t ts]; [destruct fuel as [|fuel]; [cbn in Hf; lia|reflexivity]|].
    by apply scan_items_scans; [|done|lia].
Qed.

Lemma ints_scan (zs : list Z) : Forall (λ t, scans t ∧ ∀ r, starts_with 93 (t +:+ r) = false) (pretty <$> zs).
Proof. apply Forall_fmap, Forall_forall. intros z _. split; [apply scans_int|apply pretty_not_bracket]. Qed.

Lemma scans_ints (zs : list Z) : scans (json_list (pretty <$> zs)).
Proof. apply scans_list, ints_scan. Qed.

Lemma scans_bytes s : scans (quote +:+ base64 s +:+ quote).
Proof. by apply (marshal_scans (VBytes s)). Qed.
