(* ===== verification/Loop.v ===== *)
(** * Loops as nodes (graph/loop.go)

    [NewLoopNodeFunc] turns a compiled graph into a node that invokes it until
    a condition holds.  The graph and the condition are arguments: any
    functions of the context, the thread identifier, the input and the state
    of the world, that is of the interrupt contexts and whatever else [W] they
    reach; [None] is a panic.  The node keeps its own progress in the interrupt
    it raises, as JSON. *)

From Stdlib Require Import Ascii.
From S2P Require Import Demo ResumeProps.
From S2P Require Export RawJson Interrupt Engine.

(** ** Options *)
Record loopOptions : Type := MkLoopOptions { maxIterations : Z; checkpointIDPrefix : string }.

Definition WithLoopMaxIterations (n : Z) (o : loopOptions) : loopOptions :=
  if (0 <=? n)%Z then MkLoopOptions n (checkpointIDPrefix o) else o.
Definition WithLoopCheckpointIDPrefix (prefix : string) (o : loopOptions) : loopOptions :=
  if decide (prefix = "") then o else MkLoopOptions (maxIterations o) prefix.
Definition getLoopOptions (opts : list (loopOptions → loopOptions)) : loopOptions :=
  foldl (λ o opt, opt o) (MkLoopOptions 1024 "") opts.

Definition ErrLoopMaxIterationsExceeded : error := Errorf "graph: loop max iterations exceeded".
Definition ErrLoopResumeStateInvalid : error := Errorf "graph: loop resume state invalid".

(** ** The state of an interrupted loop

    A [json.RawMessage] is [None] when nil. *)
Record loopInterruptState : Type := MkLoopState {
  Iteration : Z;
  CurrentInput : option string;
  UserFillUpValue : option string
}.

Definition raw_val (t : option string) : val :=
  match t with Some t => VBytes t | None => VTypedNil (TSlice (TNum Uint8)) end.

(** As the value of an interrupt. *)
Definition loop_state_val (st : loopInterruptState) : val :=
  VStruct "graph.loopInterruptState"
    [("Iteration", TInt, VInt (Iteration st));
     ("CurrentInput", TOther "json.RawMessage", raw_val (CurrentInput st));
     ("UserFillUpValue", TOther "json.RawMessage", raw_val (UserFillUpValue st))].

Definition raw_of (v : val) : option string := match v with VBytes t => Some t | _ => None end.

Definition as_loop_state (v : val) : option loopInterruptState :=
  match v with
  | VStruct name [(_, _, VInt i); (_, _, c); (_, _, u)] =>
      if decide (name = "graph.loopInterruptState") then Some (MkLoopState i (raw_of c) (raw_of u)) else None
  | _ => None
  end.

Definition omitempty (name : string) (t : option string) : list (string * string) :=
  match t with Some t => if decide (t = "") then [] else [(name, t)] | None => [] end.

Definition loop_state_members (st : loopInterruptState) : list (string * string) :=
  [("iteration", pretty (Iteration st))] ++
  omitempty "current_input" (CurrentInput st) ++ omitempty "user_fill_up_value" (UserFillUpValue st).

(** Raw messages are written as they are: those of a loop are results of
    [json.Marshal] already. *)
Definition loop_state_text (st : loopInterruptState) : string := json_object (loop_state_members st).

(** encoding/json, with the struct that has its own tags. *)
Definition loop_json : JsonText := {|
  json_marshal v := match as_loop_state v with Some st => Some (loop_state_text st) | None => marshal v end;
  json_unmarshal := unmarshal
|}.
#[local] Existing Instance loop_json.

(** [json.Unmarshal] into a [loopInterruptState]: null leaves it zero. *)
Definition unmarshal_loop_state (text : string) : option loopInterruptState :=
  match object_members text with
  | Some ms =>
      i ← int_field 0 (values_of "iteration" ms);
      Some (MkLoopState i (raw_field "current_input" ms) (raw_field "user_fill_up_value" ms))
  | None => match unmarshal text with Some VNil => Some (MkLoopState 0 None None) | _ => None end
  end.

(** The first bytes or text among the resume values that hold a loop state. *)
Definition snapshot_of (text : string) : option loopInterruptState :=
  match unmarshal_loop_state text with
  | Some st => if (0 <? Iteration st)%Z then Some st else None
  | None => None
  end.

Fixpoint first_snapshot (vs : list val) : option loopInterruptState :=
  match vs with
  | [] => None
  | v :: vs =>
      match (match v with VBytes t | VStr t => snapshot_of t | _ => None end) with
      | Some st => Some st
      | None => first_snapshot vs
      end
  end.

Definition loadLoopSnapshot (ctx : context) (s : istate) : option loopInterruptState :=
  match (match ctx !! SubGraphStateCtxKey with Some (VBytes t) => snapshot_of t | _ => None end) with
  | Some st => Some st
  | None => first_snapshot (GetResumeValues s)
  end.

(** ** The loop *)
Inductive loop_outcome (W : Type) : Type :=
| OutOfFuel
| LoopPanics
| LoopReturns (r : res val) (s : istate) (w : W).
Arguments OutOfFuel {W}.
Arguments LoopPanics {W}.
Arguments LoopReturns {W} _ _ _.

Section loop.
Context `{Sha256} `{GoRuntime} {W : Type}.

(** A compiled graph invoked with a thread, and an exit condition. *)
Definition SubGraph := context → string → val → istate → W → option (res val * istate * W).
Definition LoopCondition := context → Z → val → val → istate → W → option (res bool * istate * W).

(** The errors of encoding/json. *)
Context (marshal_error : val → error) (unmarshal_error : string → error).
Context (key : string) (sub : SubGraph) (shouldQuit : LoopCondition) (options : loopOptions).

Definition subCheckpointID (iteration : Z) : string :=
  checkpointIDPrefix options +:+ ":loop:" +:+ key +:+ ":iter:" +:+ pretty iteration.

(** The progress a loop saves when its graph is interrupted with [err]. *)
Definition loop_progress (iteration : Z) (current_json : string) (err : error) : loopInterruptState :=
  MkLoopState iteration (Some current_json)
    (match GetInterruptValue err with
     | Some v => if is_nil v then None else json_marshal v
     | None => None
     end).

Definition interrupt_loop (iteration : Z) (current : val) (err : error) (s : istate) : res val * istate :=
  match json_marshal current with
  | None => (Err (Wrapf "graph: loop marshal state" (marshal_error current)), s)
  | Some text =>
      match Interrupt (loop_state_val (loop_progress iteration text err)) s with
      | (Ok _, s) => (Ok VNil, s)       (* the error is nil, and the node returns nil *)
      | (Err e, s) => (Err e, s)
      end
  end.

Fixpoint iterate (fuel : nat) (ctx : context) (iteration : Z) (current : val) (s : istate) (w : W)
  : loop_outcome W :=
  match fuel with
  | O => OutOfFuel
  | S fuel =>
      match sub ctx (subCheckpointID iteration) current s w with
      | None => LoopPanics
      | Some (Err err, s, w) =>
          if IsInterrupt err then
            let '(r, s) := interrupt_loop iteration current err s in LoopReturns r s w
          else LoopReturns (Err (Wrapf ("graph: loop iteration " +:+ pretty iteration) err)) s w
      | Some (Ok next, s, w) =>
          match shouldQuit ctx iteration current next s w with
          | None => LoopPanics
          | Some (Err err, s, w) =>
              LoopReturns (Err (Wrapf ("graph: loop condition iteration " +:+ pretty iteration) err)) s w
          | Some (Ok true, s, w) => LoopReturns (Ok next) s w
          | Some (Ok false, s, w) =>
              if (maxIterations options <=? iteration)%Z then
                LoopReturns (Err (Errorf (Error_string ErrLoopMaxIterationsExceeded +:+ ": " +:+
                                          pretty (maxIterations options)))) s w
              else iterate fuel ctx (int_add iteration 1) next s w
          end
      end
  end.

(** One unit for every iteration from [start] to the last one allowed. *)
Definition enough_fuel (start : Z) : nat := S (Z.to_nat (maxIterations options - start)).

(** The iteration to start with and its input. *)
Definition loop_start (ctx : context) (input : val) (s : istate) : res (Z * val) :=
  match loadLoopSnapshot ctx s with
  | None => Ok (1%Z, input)
  | Some snap =>
      match CurrentInput snap with
      | None => Ok (Iteration snap, input)
      | Some text =>
          match json_unmarshal text with
          | Some v => Ok (Iteration snap, v)
          | None => Err (Wrapf (Error_string ErrLoopResumeStateInvalid +:+ ": decode current input")
                           (unmarshal_error text))
          end
      end
  end.

Definition non_nil (v : val) : val := if is_nil v then VObj ∅ else v.

Definition runLoop (ctx : context) (input : val) (s : istate) (w : W) : loop_outcome W :=
  match loop_start ctx input s with
  | Err err => LoopReturns (Err err) s w
  | Ok (start, current) => iterate (enough_fuel start) ctx start (non_nil current) s w
  end.
End loop.

(** The node function, or why there is none; nil arguments are [None]. *)
Definition NewLoopNodeFunc `{Sha256} `{GoRuntime} {W} (merr : val → error) (uerr : string → error) (key : string)
    (sub : option (SubGraph (W := W))) (shouldQuit : option (LoopCondition (W := W)))
    (opts : list (loopOptions → loopOptions)) : res (context → val → istate → W → loop_outcome W) :=
  if decide (key = "") then Err (Errorf "graph: loop key is empty")
  else
    match sub, shouldQuit with
    | None, _ => Err (Errorf "graph: loop sub-graph is nil")
    | _, None => Err (Errorf "graph: loop shouldQuit is nil")
    | Some sub, Some quit =>
        let options := getLoopOptions opts in
        let options := if decide (checkpointIDPrefix options = "")
                       then MkLoopOptions (maxIterations options) key else options in
        Ok (runLoop merr uerr key sub quit options)
    end.

(** * Properties *)

(** ** Reading the state back *)

(** Raw messages are JSON. *)
Definition sound (st : loopInterruptState) : Prop :=
  ∀ t, CurrentInput st = Some t ∨ UserFillUpValue st = Some t → t ≠ "" ∧ scans t.

Lemma as_loop_state_val st : as_loop_state (loop_state_val st) = Some st.
Proof. by destruct st as [i [c|] [u|]]. Qed.

Lemma loop_state_members_scans st : sound st → Forall (λ kt, scans kt.2) (loop_state_members st).
Proof.
  intros Hs. unfold loop_state_members, omitempty.
  assert (∀ t, CurrentInput st = Some t ∨ UserFillUpValue st = Some t → scans t) as H by (intros t Ht; by apply Hs).
  constructor; [apply scans_int|]. apply Forall_app.
  split; [destruct (CurrentInput st) as [t|]|destruct (UserFillUpValue st) as [t|]]; try constructor;
    case_decide; repeat constructor; by apply H; auto.
Qed.

Lemma values_of_omit name k o ms :
  values_of name (seen (omitempty k o ++ ms)) =
  (if decide (fold_key (sanitize k) = name) then (omitempty k o).*2 else []) ++ values_of name (seen ms).
Proof.
  unfold omitempty. destruct o as [t|]; [|by destruct (decide _)]. destruct (decide (t = "")); [by destruct (decide _)|].
  change ([(k, t)] ++ ms) with ((k, t) :: ms). rewrite values_of_member. by destruct (decide _).
Qed.

Lemma omitempty_last k o : (∀ t, o = Some t → t ≠ "") → last (omitempty k o).*2 = o.
Proof. unfold omitempty. intros H. destruct o as [t|]; [|done]. rewrite decide_False by auto. done. Qed.

Lemma loop_state_values st :
  values_of "iteration" (seen (loop_state_members st)) = [pretty (Iteration st)] ∧
  values_of "current_input" (seen (loop_state_members st)) = (omitempty "current_input" (CurrentInput st)).*2 ∧
  values_of "user_fill_up_value" (seen (loop_state_members st)) =
    (omitempty "user_fill_up_value" (UserFillUpValue st)).*2.
Proof.
  assert (fold_key (sanitize "iteration") = "iteration" ∧ fold_key (sanitize "current_input") = "current_input" ∧
    fold_key (sanitize "user_fill_up_value") = "user_fill_up_value") as (H1 & H2 & H3) by by vm_compute.
  unfold loop_state_members. rewrite <-(app_nil_r (omitempty "user_fill_up_value" _)).
  change ([("iteration", ?t)] ++ ?l) with (("iteration", t) :: l).
  rewrite !values_of_member, !values_of_omit, H1, H2, H3.
  split_and!; repeat (rewrite decide_True by done || rewrite decide_False by done);
    change (values_of _ (seen [])) with (@nil string); by rewrite ?app_nil_r.
Qed.

(** A written state is read back as it was. *)
Lemma loop_state_round_trip st :
  sound st → in_int64 (Iteration st) → unmarshal_loop_state (loop_state_text st) = Some st.
Proof.
  intros Hs Hi. unfold unmarshal_loop_state, loop_state_text.
  rewrite (object_members_written _ (loop_state_members_scans st Hs)).
  destruct (loop_state_values st) as (H1 & H2 & H3). unfold raw_field. fold (seen (loop_state_members st)).
  rewrite H1, H2, H3, !omitempty_last by (intros t Ht; apply Hs; auto).
  unfold int_field. rewrite decide_False by apply pretty_not_null. rewrite int_literal_pretty by done. by destruct st.
Qed.

Lemma loop_state_text_scans st : sound st → scans (loop_state_text st).
Proof. intros Hs. by apply scans_object, loop_state_members_scans. Qed.

Lemma snapshot_positive text st : snapshot_of text = Some st → (0 < Iteration st)%Z.
Proof.
  unfold snapshot_of. destruct (unmarshal_loop_state text) as [st'|]; [|done].
  destruct (0 <? Iteration st')%Z eqn:E; [|done]. intros [= <-]. lia.
Qed.

Lemma first_snapshot_positive vs st : first_snapshot vs = Some st → (0 < Iteration st)%Z.
Proof.
  induction vs as [|v vs IH]; [done|]. cbn [first_snapshot]. destruct v; try done;
    destruct (snapshot_of s) eqn:E; try done; intros [= <-]; by eapply snapshot_positive.
Qed.

Lemma loadLoopSnapshot_positive ctx s st : loadLoopSnapshot ctx s = Some st → (0 < Iteration st)%Z.
Proof.
  unfold loadLoopSnapshot. intros H.
  destruct (match ctx !! SubGraphStateCtxKey with Some (VBytes t) => snapshot_of t | _ => None end) eqn:E.
  - injection H as <-. destruct (ctx !! SubGraphStateCtxKey) as [[]|]; try done. by eapply snapshot_positive.
  - by eapply first_snapshot_positive.
Qed.

Section theorems.
Context `{Sha256} `{GoRuntime} {W : Type}.
Context (marshal_error : val → error) (unmarshal_error : string → error).
Context (key : string) (sub : SubGraph (W := W)) (shouldQuit : LoopCondition (W := W)) (options : loopOptions).

Abbreviation iterations := (iterate marshal_error key sub shouldQuit options).
Abbreviation run := (runLoop marshal_error unmarshal_error key sub shouldQuit options).
Abbreviation enough := (enough_fuel options).

(** ** What an iteration does *)

(** The iteration to come, its input, the interrupt contexts, the world. *)
Abbreviation point := (Z * val * istate * W)%type.

(** One iteration after which the loop goes on. *)
Inductive round (ctx : context) : point → point → Prop :=
| Round i c s w next s1 w1 s2 w2 :
    sub ctx (subCheckpointID key options i) c s w = Some (Ok next, s1, w1) →
    shouldQuit ctx i c next s1 w1 = Some (Ok false, s2, w2) →
    (i < maxIterations options)%Z →
    round ctx (i, c, s, w) ((i + 1)%Z, next, s2, w2).

(** The last iteration and how the loop ends in it. *)
Inductive ends_with (ctx : context) : point → loop_outcome W → Prop :=
| Ends_quit i c s w next s1 w1 s2 w2 :
    sub ctx (subCheckpointID key options i) c s w = Some (Ok next, s1, w1) →
    shouldQuit ctx i c next s1 w1 = Some (Ok true, s2, w2) →
    ends_with ctx (i, c, s, w) (LoopReturns (Ok next) s2 w2)
| Ends_exceeded i c s w next s1 w1 s2 w2 :
    sub ctx (subCheckpointID key options i) c s w = Some (Ok next, s1, w1) →
    shouldQuit ctx i c next s1 w1 = Some (Ok false, s2, w2) →
    (maxIterations options ≤ i)%Z →
    ends_with ctx (i, c, s, w)
      (LoopReturns (Err (Errorf ("graph: loop max iterations exceeded: " +:+ pretty (maxIterations options)))) s2 w2)
| Ends_condition i c s w next s1 w1 err s2 w2 :
    sub ctx (subCheckpointID key options i) c s w = Some (Ok next, s1, w1) →
    shouldQuit ctx i c next s1 w1 = Some (Err err, s2, w2) →
    ends_with ctx (i, c, s, w)
      (LoopReturns (Err (Wrapf ("graph: loop condition iteration " +:+ pretty i) err)) s2 w2)
| Ends_failed i c s w err s1 w1 :
    sub ctx (subCheckpointID key options i) c s w = Some (Err err, s1, w1) → IsInterrupt err = false →
    ends_with ctx (i, c, s, w) (LoopReturns (Err (Wrapf ("graph: loop iteration " +:+ pretty i) err)) s1 w1)
| Ends_interrupted i c s w err s1 w1 r s2 :
    sub ctx (subCheckpointID key options i) c s w = Some (Err err, s1, w1) → IsInterrupt err = true →
    interrupt_loop marshal_error i c err s1 = (r, s2) →
    ends_with ctx (i, c, s, w) (LoopReturns r s2 w1)
| Ends_panic i c s w :
    sub ctx (subCheckpointID key options i) c s w = None → ends_with ctx (i, c, s, w) LoopPanics
| Ends_condition_panic i c s w next s1 w1 :
    sub ctx (subCheckpointID key options i) c s w = Some (Ok next, s1, w1) →
    shouldQuit ctx i c next s1 w1 = None → ends_with ctx (i, c, s, w) LoopPanics.

Lemma iterate_spec ctx fuel i c s w :
  (0 < i)%Z → in_int64 (maxIterations options) → Z.to_nat (maxIterations options - i) < fuel →
  ∃ p, rtc (round ctx) (i, c, s, w) p ∧ (p.1.1.1 ≤ Z.max i (maxIterations options))%Z ∧
       ends_with ctx p (iterations fuel ctx i c s w).
Proof.
  revert i c s w. induction fuel as [|fuel IH]; intros i c s w Hi Hm Hf; [lia|]. cbn [iterate].
  destruct (sub ctx _ c s w) as [[[[next|err] s1] w1]|] eqn:Hs.
  - destruct (shouldQuit ctx i c next s1 w1) as [[[[[]|err] s2] w2]|] eqn:Hq;
      try (eexists (_, _, _, _); split; [reflexivity|split; [cbn; lia|by econstructor]]).
    destruct (Z.leb_spec (maxIterations options) i) as [Hle|Hlt].
    { eexists (_, _, _, _); split; [reflexivity|split; [cbn; lia|]]. by eapply Ends_exceeded. }
    assert (int_add i 1 = (i + 1)%Z) as ->.
    { unfold int_add. apply wrap64_id. unfold in_int64 in *. lia. }
    destruct (IH (i + 1)%Z next s2 w2) as (p & Hp & Hb & He); [lia|done|lia|].
    exists p. split; [eapply rtc_l; [by econstructor|done]|]. split; [lia|done].
  - destruct (IsInterrupt err) eqn:He.
    + destruct (interrupt_loop _ i c err s1) as [r s2] eqn:Hr.
      eexists (_, _, _, _); split; [reflexivity|split; [cbn; lia|by econstructor]].
    + eexists (_, _, _, _); split; [reflexivity|split; [cbn; lia|by econstructor]].
  - eexists (_, _, _, _); split; [reflexivity|split; [cbn; lia|by econstructor]].
Qed.

Lemma loop_start_positive ctx input s i c :
  loop_start unmarshal_error ctx input s = Ok (i, c) → (0 < i)%Z.
Proof.
  unfold loop_start. destruct (loadLoopSnapshot ctx s) as [st|] eqn:E; [|intros [= <- _]; lia].
  apply loadLoopSnapshot_positive in E. repeat case_match; intros; simplify_eq; lia.
Qed.

(** A loop ends: from where it starts - the first iteration, or the one a
    snapshot names - it makes rounds in which the graph succeeds and the
    condition says no, at most up to the limit, and then one last iteration
    decides the outcome.  It runs at least one iteration, whatever the limit. *)
Theorem runLoop_ends ctx input s w :
  in_int64 (maxIterations options) →
  match loop_start unmarshal_error ctx input s with
  | Err err => run ctx input s w = LoopReturns (Err err) s w
  | Ok (start, current) =>
      ∃ p, rtc (round ctx) (start, non_nil current, s, w) p ∧
           (p.1.1.1 ≤ Z.max start (maxIterations options))%Z ∧
           ends_with ctx p (run ctx input s w)
  end.
Proof.
  intros Hm. unfold runLoop. destruct (loop_start _ ctx input s) as [[start current]|err] eqn:E; [|done].
  apply iterate_spec; [by eapply loop_start_positive|done|unfold enough_fuel; lia].
Qed.

(** Rounds and the end determine the outcome. *)
Lemma iterate_rounds ctx p q fuel :
  rtc (round ctx) p q → (0 < p.1.1.1)%Z → in_int64 (maxIterations options) →
  Z.to_nat (maxIterations options - p.1.1.1) < fuel →
  ∃ fuel', Z.to_nat (maxIterations options - q.1.1.1) < fuel' ∧ (0 < q.1.1.1)%Z ∧
    let '(i, c, s, w) := p in let '(j, d, t, v) := q in
    iterations fuel ctx i c s w = iterations fuel' ctx j d t v.
Proof.
  intros Hr. revert fuel. induction Hr as [[[[i c] s] w]|p p' q Hp Hr IH]; intros fuel Hi Hm Hf; [by exists fuel|].
  destruct Hp as [i c s w next s1 w1 s2 w2 Hs Hq Hlt]. cbn [fst] in *. destruct fuel as [|fuel]; [lia|].
  destruct (IH fuel) as (fuel' & Hf' & Hq' & E); [lia|done|lia|]. exists fuel'. split; [done|]. split; [done|].
  destruct q as [[[j d] t] v]. rewrite <-E. cbn [iterate]. rewrite Hs, Hq.
  rewrite (proj2 (Z.leb_gt _ _)) by lia. unfold int_add. rewrite wrap64_id; [done|]. unfold in_int64 in *. lia.
Qed.

(** ** Interrupts *)

(** Values whose text is JSON: ordinary ones, and the states of loops. *)
Definition writable (v : val) : Prop :=
  (as_loop_state v = None ∧ readable v) ∨ ∃ st, v = loop_state_val st ∧ sound st.

Lemma readable_text v t : readable v → marshal v = Some t → t ≠ "" ∧ scans t.
Proof.
  intros Hv E. split; [|by eapply marshal_scans]. pose proof (marshal_agree v Hv) as Ha.
  unfold agree in Ha. rewrite E in Ha. destruct (json_rt v); [|done].
  pose proof (denotes_length _ _ Ha) as Hl. intros ->. cbn in Hl. lia.
Qed.

Lemma writable_text v t : writable v → json_marshal v = Some t → t ≠ "" ∧ scans t.
Proof.
  cbn [json_marshal loop_json]. intros [[-> Hv]|(st & -> & Hs)]; [by apply readable_text|].
  rewrite as_loop_state_val. intros [= <-]. split; [|by apply loop_state_text_scans].
  unfold loop_state_text, json_object. by rewrite app_String.
Qed.

Lemma loop_progress_sound i c text err :
  writable c → json_marshal c = Some text → (∀ v, GetInterruptValue err = Some v → writable v) →
  sound (loop_progress i text err).
Proof.
  intros Hc Ht Hv t. cbn [CurrentInput UserFillUpValue loop_progress]. intros [[= <-]|Hu]; [by eapply writable_text|].
  destruct (GetInterruptValue err) as [v|]; [|done]. destruct (is_nil v); [done|].
  eapply writable_text; [by apply Hv|done].
Qed.

(** What the loop finds in the state another run of it left. *)
Lemma loop_start_saved ctx input s st text c :
  sound st → in_int64 (Iteration st) → (0 < Iteration st)%Z →
  CurrentInput st = Some text → unmarshal text = Some c →
  ctx !! SubGraphStateCtxKey = Some (VBytes (loop_state_text st)) →
  loop_start unmarshal_error ctx input s = Ok (Iteration st, c).
Proof.
  intros Hs Hi Hp Hc Hu Hx. unfold loop_start, loadLoopSnapshot. rewrite Hx. unfold snapshot_of.
  rewrite loop_state_round_trip by done. rewrite (proj2 (Z.ltb_lt _ _)) by done.
  rewrite Hc. cbn [json_unmarshal loop_json]. by rewrite Hu.
Qed.

(** C12: a loop whose graph is interrupted in iteration [n] raises an interrupt that
    carries [n] and the iteration's input; a run that is given the JSON text of
    that state continues with iteration [n] and the input as its copy through
    JSON - whatever the node's own input is then. *)
Theorem loop_resumes ctx input s w start first n c s1 w1 err s2 w2 text c' :
  in_int64 (maxIterations options) → in_int64 n →
  loop_start unmarshal_error ctx input s = Ok (start, first) →
  rtc (round ctx) (start, non_nil first, s, w) (n, c, s1, w1) →
  sub ctx (subCheckpointID key options n) c s1 w1 = Some (Err err, s2, w2) → IsInterrupt err = true →
  no_answer s2 →
  as_loop_state c = None → readable c → marshal c = Some text → json_rt c = Some c' →
  (∀ v, GetInterruptValue err = Some v → writable v) →
  let st := loop_progress n text err in
  (∃ id s3, run ctx input s w = LoopReturns (Err (GraphInterrupt [NewInterrupt (loop_state_val st) id])) s3 w2) ∧
  (∃ t, json_marshal (loop_state_val st) = Some t ∧
     ∀ ctx' input' s' w', ctx' !! SubGraphStateCtxKey = Some (VBytes t) →
       run ctx' input' s' w' = iterations (enough n) ctx' n (non_nil c') s' w').
Proof.
  intros Hm Hn Hstart Hr Hsub Hint Hno Hc Hrc Ht Hc' Hv st.
  assert (json_marshal c = Some text) as Hj by (cbn [json_marshal loop_json]; by rewrite Hc).
  pose proof (loop_start_positive _ _ _ _ _ Hstart) as Hpos.
  destruct (iterate_rounds ctx _ _ (enough start) Hr Hpos Hm ltac:(unfold enough_fuel; cbn; lia))
    as (fuel & Hf & Hnpos & E). cbn [fst] in Hf, Hnpos.
  assert (sound st) as Hs by (eapply loop_progress_sound; [left; by split|exact Hj|exact Hv]).
  split.
  - unfold runLoop. rewrite Hstart, E. destruct fuel as [|fuel]; [lia|]. cbn [iterate]. rewrite Hsub, Hint.
    unfold interrupt_loop. rewrite Hj. fold st.
    destruct (interrupt_raised (loop_state_val st) s2 Hno) as (id & s3 & ->). by exists id, s3.
  - exists (loop_state_text st). split; [cbn [json_marshal loop_json]; by rewrite as_loop_state_val|].
    intros ctx' input' s' w' Hx. unfold runLoop.
    rewrite (loop_start_saved ctx' input' s' st text c'); try done.
    pose proof (marshal_agree c Hrc) as Ha. unfold agree in Ha. rewrite Ht, Hc' in Ha. by apply denotes_unmarshal.
Qed.

(** An interrupt of the graph that finds a resume value nobody asked for yet is
    answered by it instead of being raised: the node returns nil, without an
    error, and the iteration is lost. *)
Theorem interrupt_swallowed ctx n c s w err s1 w1 text v fuel :
  sub ctx (subCheckpointID key options n) c s w = Some (Err err, s1, w1) → IsInterrupt err = true →
  json_marshal c = Some text → resumeValues (current s1) !! index (current s1) = Some v →
  ∃ s2, iterations (S fuel) ctx n c s w = LoopReturns (Ok VNil) s2 w1.
Proof.
  intros Hs Hi Ht Hv. cbn [iterate]. rewrite Hs, Hi. unfold interrupt_loop. rewrite Ht.
  unfold Interrupt, IC.consumeNextResumeValue. rewrite Hv. by eexists.
Qed.
End theorems.

(** ** Through the engine and the saver *)

(** The base64 text of an object is not JSON. *)
Lemma base64_object_snapshot body : snapshot_of (base64 (json_object body)) = None.
Proof.
  unfold json_object. rewrite app_String, app_Empty.
  set (u := join_with "," _ +:+ "}"). assert (∃ b, base64 (String "{"%char u) = String "e"%char b) as [b ->].
  { destruct u as [|x [|y u']]; by eexists. }
  reflexivity.
Qed.

Section saver.
Context `{R : GoRuntime} `{F : GoFloat} `{U : GoUnsigned} `{T : GoTime}.

(** Through the engine and the in-memory saver a loop does not resume where it
    was interrupted: the saver returns the saved state as its base64 text, the
    loop finds no snapshot in it, and the resumed run of the thread starts the
    loop again with iteration 1 and the node's own input. *)
Theorem loop_restarts_through_saver se tid step p results (st : run_state MemorySaver.t) sv ls err :
  st_cp st = Some sv → sub_state_value results = loop_state_val ls →
  ∃ s' data x, interrupt_during se tid step p results st = Exit x (set_cp (Some s') st) ∧
    (∀ e, requested_checkpoint e = "" → load_checkpoint e tid (Some s') = Ok (Some data)) ∧
    ∀ ctx input s, first_snapshot (GetResumeValues s) = None →
      loop_start err (pipeline_ctx data ctx) input s = Ok (1%Z, input).
Proof.
  intros Hs Hv. destruct (interrupt_saved se tid step p results st sv Hs) as (s' & Hint & Hload).
  eexists s', _, _. split; [exact Hint|]. split; [exact Hload|]. intros ctx input s Hf.
  assert (interrupt_payload (st_reg st) p step results !! "__sub_state__" = Some (VBytes (loop_state_text ls))) as Hp.
  { apply interrupt_payload_sub; rewrite Hv; [done|]. cbn [json_marshal loop_json]. by rewrite as_loop_state_val. }
  unfold pipeline_ctx. rewrite (memory_norm_bytes _ _ _ Hp). cbn [mbind option_bind text_of].
  set (ctx' := <[_ := _]> ctx). assert (ctx' !! SubGraphStateCtxKey = Some (VBytes (base64 (loop_state_text ls)))) as Hx
    by apply lookup_insert_eq.
  unfold loop_start, loadLoopSnapshot. rewrite Hx.
  unfold loop_state_text. by rewrite base64_object_snapshot, Hf.
Qed.
End saver.

(** ** Witnesses *)
Section witnesses.
#[local] Existing Instance hex_hash.
#[local] Existing Instance fixed_addresses.
#[local] Existing Instance amd64.
#[local] Existing Instance amd64_unsigned.
#[local] Existing Instance tally_clock.

Definition no_reason (A : Type) (_ : A) : error := Errorf "json".

(** A graph that adds a letter and, in the second iteration, asks whether to go
    on; the world is the list of the threads it ran in. *)
Definition asking_graph : SubGraph (W := list string) := λ _ thread input s w,
  let out := match input with VStr t => VStr (t +:+ "x") | _ => VStr "?" end in
  if decide (thread = "p:loop:k:iter:2") then
    match Interrupt (VStr "go on?") s with
    | (Ok _, s) => Some (Ok out, s, w ++ [thread])
    | (Err err, s) => Some (Err err, s, w ++ [thread])
    end
  else Some (Ok out, s, w ++ [thread]).

Definition three_times : LoopCondition (W := list string) := λ _ i _ _ s w, Some (Ok (bool_decide (i = 3%Z)), s, w).

Definition demo_loop (max : Z) : context → val → istate → list string → loop_outcome (list string) :=
  runLoop (no_reason val) (no_reason string) "k" asking_graph three_times (MkLoopOptions max "p").

Definition fresh_istate : istate := MkIS (Some IC.New) IC.New 0.
Definition answered_istate : istate := SetResumeValues [VStr "yes"] fresh_istate.

(** With the answer at hand the loop runs to its end, in a thread per iteration. *)
Example loop_answered : ∃ s', demo_loop 10 ∅ (VStr "") answered_istate [] =
  LoopReturns (Ok (VStr "xxx")) s' ["p:loop:k:iter:1"; "p:loop:k:iter:2"; "p:loop:k:iter:3"].
Proof. eexists. vm_compute. reflexivity. Qed.

(** A limit of none is a limit of one. *)
Example loop_limits :
  (∃ s', demo_loop 0 ∅ (VStr "") fresh_istate [] =
    LoopReturns (Err (Errorf "graph: loop max iterations exceeded: 0")) s' ["p:loop:k:iter:1"]) ∧
  (∃ s', demo_loop 1 ∅ (VStr "") fresh_istate [] =
    LoopReturns (Err (Errorf "graph: loop max iterations exceeded: 1")) s' ["p:loop:k:iter:1"]).
Proof. split; eexists; vm_compute; reflexivity. Qed.

Lemma runLoop_ends_witness :
  ∃ p, rtc (round "k" asking_graph three_times (MkLoopOptions 2 "p") ∅) (1%Z, VStr "", answered_istate, []) p ∧
    ends_with (no_reason val) "k" asking_graph three_times (MkLoopOptions 2 "p") ∅ p
      (demo_loop 2 ∅ (VStr "") answered_istate []).
Proof.
  destruct (runLoop_ends (no_reason val) (no_reason string) "k" asking_graph three_times (MkLoopOptions 2 "p")
    ∅ (VStr "") answered_istate []) as (p & Hp & _ & He); [by split|].
  exists p. split; [exact Hp|exact He].
Defined.

(** The state after the interrupt of the second iteration. *)
Definition asked_state : loopInterruptState := {|
  Iteration := 2;
  CurrentInput := Some (quote +:+ "x" +:+ quote);
  UserFillUpValue := Some (quote +:+ "go on?" +:+ quote)
|}.

Lemma loop_resumes_witness :
  (∃ id s', demo_loop 10 ∅ (VStr "") fresh_istate [] =
     LoopReturns (Err (GraphInterrupt [NewInterrupt (loop_state_val asked_state) id])) s'
       ["p:loop:k:iter:1"; "p:loop:k:iter:2"]) ∧
  ∃ t, json_marshal (loop_state_val asked_state) = Some t ∧
    ∃ s', demo_loop 10 {[ SubGraphStateCtxKey := VBytes t ]} (VStr "ignored") answered_istate [] =
      LoopReturns (Ok (VStr "xxx")) s' ["p:loop:k:iter:2"; "p:loop:k:iter:3"].
Proof.
  destruct (asking_graph ∅ "p:loop:k:iter:2" (VStr "x") fresh_istate ["p:loop:k:iter:1"]) as [[[r s2] w2]|] eqn:Hsub;
    [|vm_compute in Hsub; discriminate].
  assert (∃ id, r = Err (GraphInterrupt [NewInterrupt (VStr "go on?") id]) ∧
    w2 = ["p:loop:k:iter:1"; "p:loop:k:iter:2"] ∧ no_answer s2) as (id & -> & -> & Hno).
  { vm_compute in Hsub. injection Hsub as <- <- <-. eexists. split_and!; [reflexivity|reflexivity|by split]. }
  destruct (loop_resumes (no_reason val) (no_reason string) "k" asking_graph three_times (MkLoopOptions 10 "p")
    ∅ (VStr "") fresh_istate [] 1 (VStr "") 2 (VStr "x") fresh_istate ["p:loop:k:iter:1"]
    (GraphInterrupt [NewInterrupt (VStr "go on?") id]) s2 ["p:loop:k:iter:1"; "p:loop:k:iter:2"]
    (quote +:+ "x" +:+ quote) (VStr "x")) as [Hi (t & Ht & Hres)].
  - by split.
  - by split.
  - reflexivity.
  - eapply rtc_l; [|reflexivity]. change (2%Z) with (1 + 1)%Z. eapply Round; reflexivity.
  - exact Hsub.
  - reflexivity.
  - exact Hno.
  - reflexivity.
  - exact I.
  - reflexivity.
  - reflexivity.
  - intros v Hv. injection Hv as <-. left. split; [reflexivity|exact I].
  - split; [exact Hi|]. exists t. split; [exact Ht|]. unfold demo_loop.
    rewrite (Hres _ (VStr "ignored") answered_istate []) by apply lookup_singleton_eq.
    eexists. vm_compute. reflexivity.
Defined.

Lemma interrupt_swallowed_witness :
  ∃ s2, iterate (no_reason val) "k"
    (λ _ _ _ s w, Some (Err (GraphInterrupt []), s, w)) three_times (MkLoopOptions 10 "p") 1 ∅ 1 (VStr "") 
    (SetResumeValues [VStr "early"] fresh_istate) [] = LoopReturns (Ok VNil) s2 [].
Proof.
  eapply (interrupt_swallowed (no_reason val) "k" (λ _ _ _ s w, Some (Err (GraphInterrupt []), s, w)) three_times);
    reflexivity.
Defined.

(** The engine saves the state of the loop of node [k] and hands it back encoded. *)
Lemma loop_restarts_through_saver_witness :
  ∃ s' data x, interrupt_during (calm_step canonical_loops 0) "t" 0
      {| allFailed := false; interruptTaskNames := ["k"]; p_completed := ∅; p_last := ""; p_state := VObj ∅ |}
      [MkResult "k" VNil (Some (GraphInterrupt [NewInterrupt (loop_state_val asked_state) "id"]))] after_a =
    Exit x (set_cp (Some s') after_a) ∧
    (∀ e : engine, requested_checkpoint e = "" → load_checkpoint e "t" (Some s') = Ok (Some data)) ∧
    loop_start (no_reason string) (pipeline_ctx data ∅) (VStr "") fresh_istate = Ok (1%Z, VStr "").
Proof.
  destruct (loop_restarts_through_saver (calm_step canonical_loops 0) "t" 0
    {| allFailed := false; interruptTaskNames := ["k"]; p_completed := ∅; p_last := ""; p_state := VObj ∅ |}
    [MkResult "k" VNil (Some (GraphInterrupt [NewInterrupt (loop_state_val asked_state) "id"]))] after_a
    MemorySaver.New asked_state (no_reason string) eq_refl eq_refl) as (s' & data & x & Hi & Hl & Hs).
  exists s', data, x. split; [exact Hi|]. split; [exact Hl|]. by apply Hs.
Defined.
End witnesses.
