(* ===== verification/Parallel.v ===== *)
(** * Fan-out as a node (graph/parallel.go)

    [NewParallelNodeFunc] turns a compiled graph into a node that invokes it
    for every item of a list.  As for loops the graph is an argument.  Its
    invocations are atomic: goroutines run one after the other in the order of
    a schedule, of which only the first item is fixed.  Interrupted items are
    saved in the interrupt of the node; the client passes the JSON text of that
    state back as a resume value.

    The store of item checkpoints travels in the context under a key that
    nothing in the library reads. *)

From Stdlib Require Import Ascii.
From S2P Require Export RawJson Interrupt.

(** ** Options *)
Record parallelOptions : Type := MkParallelOptions { maxConcurrency : Z }.

Definition WithParallelMaxConcurrency (n : Z) (o : parallelOptions) : parallelOptions :=
  if (0 <=? n)%Z then MkParallelOptions n else o.
Definition getParallelOptions (opts : list (parallelOptions → parallelOptions)) : parallelOptions :=
  foldl (λ o opt, opt o) (MkParallelOptions 0) opts.

(** ** Checkpoints of items, by identifier *)
Module itemCheckpointStore.
Definition t : Type := gmap string string.
Definition New (data : gmap string string) : t := data.
Definition get (id : string) (s : t) : option string := s !! id.
Definition set_ (id payload : string) (s : t) : t := <[id := payload]> s.
Definition snapshot (s : t) : gmap string string := s.
End itemCheckpointStore.

(** ** The state of an interrupted fan-out *)
Record parallelInterruptState : Type := MkParallelState {
  OriginalInputsJSON : string;
  CompletedResults : gmap Z val;
  InterruptedIndices : list Z;
  TotalCount : Z;
  ItemCheckpoints : gmap string string
}.

(** Maps with integer keys are written under the decimal texts of the keys. *)
Definition results_val (m : gmap Z val) : val := VObj (kmap pretty m).
Definition checkpoints_val (m : gmap string string) : val := VMap (TSlice (TNum Uint8)) (VBytes <$> m).

(** As the value of an interrupt. *)
Definition parallel_state_val (st : parallelInterruptState) : val :=
  VStruct "graph.parallelInterruptState"
    [("OriginalInputsJSON", TSlice (TNum Uint8), VBytes (OriginalInputsJSON st));
     ("CompletedResults", TOther "map[int]interface {}", results_val (CompletedResults st));
     ("InterruptedIndices", TSlice TInt, VSlice TInt (VInt <$> InterruptedIndices st));
     ("TotalCount", TInt, VInt (TotalCount st));
     ("ItemCheckpoints", TMap (TSlice (TNum Uint8)), checkpoints_val (ItemCheckpoints st))].

(** [json.Marshal]; an empty map of checkpoints is left out. *)
Definition parallel_state_text (st : parallelInterruptState) : option string :=
  results ← marshal (results_val (CompletedResults st));
  checkpoints ← (if decide (ItemCheckpoints st = ∅) then Some []
                 else t ← marshal (checkpoints_val (ItemCheckpoints st)); Some [("item_checkpoints", t)]);
  Some (json_object
    ([("original_inputs_json", quote +:+ base64 (OriginalInputsJSON st) +:+ quote);
      ("completed_results", results);
      ("interrupted_indices", json_list (pretty <$> InterruptedIndices st));
      ("total_count", pretty (TotalCount st))] ++ checkpoints)).

(** A map field adds the members of an object; null empties it. *)
Fixpoint add_members {A K} `{Countable K} (key : string → option K) (value : string → option A)
    (ms : list (string * string)) (acc : gmap K A) : option (gmap K A) :=
  match ms with
  | [] => Some acc
  | (k, t) :: ms => k ← key k; a ← value t; add_members key value ms (<[k := a]> acc)
  end.

Fixpoint map_field {A K} `{Countable K} (key : string → option K) (value : string → option A)
    (acc : gmap K A) (values : list string) : option (gmap K A) :=
  match values with
  | [] => Some acc
  | t :: values =>
      if decide (t = "null") then map_field key value ∅ values
      else ms ← object_members t; acc ← add_members key value ms acc; map_field key value acc values
  end.

Definition bytes_field (t : string) : option string := default "" <$> bytes_literal t.

Definition unmarshal_parallel_state (text : string) : option parallelInterruptState :=
  match object_members text with
  | Some ms =>
      inputs ← last_field bytes_field "" (values_of "original_inputs_json" ms);
      results ← map_field int_key unmarshal ∅ (values_of "completed_results" ms);
      indices ← last_field ints_literal [] (values_of "interrupted_indices" ms);
      total ← int_field 0 (values_of "total_count" ms);
      checkpoints ← map_field Some bytes_field ∅ (values_of "item_checkpoints" ms);
      Some (MkParallelState inputs results indices total checkpoints)
  | None => match unmarshal text with Some VNil => Some (MkParallelState "" ∅ [] 0 ∅) | _ => None end
  end.

(** The first text among the resume values that holds such a state. *)
Fixpoint first_parallel_state (vs : list val) : option parallelInterruptState :=
  match vs with
  | [] => None
  | v :: vs =>
      match (match v with VBytes t | VStr t => unmarshal_parallel_state t | _ => None end) with
      | Some st => if (0 <? TotalCount st)%Z then Some st else first_parallel_state vs
      | None => first_parallel_state vs
      end
  end.

Definition loadParallelSnapshot (s : istate) : option parallelInterruptState :=
  first_parallel_state (GetResumeValues s).

(** ** The fan-out *)
Record parallelItemResult : Type := MkItemResult { r_index : Z; r_output : val; r_err : option error }.

Section parallel.
Context `{Sha256} `{GoRuntime} {W : Type}.

(** A compiled graph invoked with a thread. *)
Definition SubGraph := context → string → val → istate → W → outcome * istate * W.

Context (marshal_error : val → error) (key : string) (sub : SubGraph) (options : parallelOptions).
(** The order in which the goroutines after the first item get to run. *)
Context (schedule : list Z → list Z).

Definition itemCheckpointID (idx : Z) : string := "parallel:" +:+ key +:+ ":item:" +:+ pretty idx.

(** [items[idx]], when the index is in bounds. *)
Definition item (items : list val) (idx : Z) : option val :=
  if decide (0 ≤ idx)%Z then items !! Z.to_nat idx else None.

Definition item_result (idx : Z) (o : outcome) : parallelItemResult :=
  match o with
  | Return out err => MkItemResult idx out err
  | Panics v => MkItemResult idx VNil (Some (Errorf ("parallel item " +:+ pretty idx +:+ " panic: " +:+ fmt_v v)))
  end.

Definition out_of_bounds (items : list val) (idx : Z) : parallelItemResult :=
  MkItemResult idx VNil (Some (Errorf ("parallel item index " +:+ pretty idx +:+ " out of bounds (len(items)=" +:+
                                       pretty (Z.of_nat (length items)) +:+ ")"))).

Definition runOne (ctx : context) (items : list val) (idx : Z) (s : istate) (w : W)
  : parallelItemResult * istate * W :=
  match item items idx with
  | None => (out_of_bounds items idx, s, w)
  | Some x => let '(o, s, w) := sub ctx (itemCheckpointID idx) x s w in (item_result idx o, s, w)
  end.

Fixpoint run_items (ctx : context) (items : list val) (indices : list Z) (s : istate) (w : W)
  : list parallelItemResult * istate * W :=
  match indices with
  | [] => ([], s, w)
  | i :: indices =>
      let '(r, s, w) := runOne ctx items i s w in
      let '(rs, s, w) := run_items ctx items indices s w in (r :: rs, s, w)
  end.

(** The results in the order in which they arrive. *)
Definition fanOutItems (ctx : context) (items : list val) (indices : list Z) (s : istate) (w : W)
  : list parallelItemResult * istate * W :=
  match indices with
  | [] => ([], s, w)
  | i :: rest =>
      run_items ctx items (i :: (if (maxConcurrency options <=? 1)%Z then rest else schedule rest)) s w
  end.

(** ** Collecting *)
Record collected : Type := MkCollected {
  outputs : list val;
  normalErr : option error;
  hasInterrupt : bool;
  completedResults : gmap Z val
}.

Definition collect_one (c : collected) (r : parallelItemResult) : collected :=
  match r_err r with
  | None =>
      MkCollected (if decide (0 ≤ r_index r)%Z then <[Z.to_nat (r_index r) := r_output r]> (outputs c) else outputs c)
        (normalErr c) (hasInterrupt c) (<[r_index r := r_output r]> (completedResults c))
  | Some e =>
      if IsInterrupt e then MkCollected (outputs c) (normalErr c) true (completedResults c)
      else
        match normalErr c with
        | Some _ => c
        | None =>
            MkCollected (outputs c)
              (Some (Wrapf ("graph: parallel item failed: item " +:+ pretty (r_index r)) e))
              (hasInterrupt c) (completedResults c)
        end
  end.

Definition collect (outs : list val) (rs : list parallelItemResult) : collected :=
  foldl collect_one (MkCollected outs None false ∅) rs.

(** What an interrupted fan-out saves. *)
Definition parallel_state (inputs : string) (total : Z) (c : collected) (bridge : itemCheckpointStore.t)
  : parallelInterruptState :=
  MkParallelState inputs (completedResults c)
    (filter (λ i, completedResults c !! i = None) (seqZ 0 total)) total (itemCheckpointStore.snapshot bridge).

Definition replay (total : Z) (results : gmap Z val) : list val := (λ i, default VNil (results !! i)) <$> seqZ 0 total.

Definition runParallel (ctx : context) (items : list val) (s : istate) (w : W) : res val * istate * W :=
  let '(total, outs, indices, bridge) :=
    match loadParallelSnapshot s with
    | Some prev => (TotalCount prev, replay (TotalCount prev) (CompletedResults prev),
                    InterruptedIndices prev, itemCheckpointStore.New (ItemCheckpoints prev))
    | None => let n := Z.of_nat (length items) in (n, replay n ∅, seqZ 0 n, itemCheckpointStore.New ∅)
    end in
  match indices with
  | [] => (Ok (VList outs), s, w)
  | _ =>
      let '(rs, s, w) := fanOutItems ctx items indices s w in
      let c := collect outs rs in
      match normalErr c with
      | Some e => (Err e, s, w)
      | None =>
          if hasInterrupt c then
            match marshal (VList items) with
            | None => (Err (Wrapf "graph: parallel marshal inputs" (marshal_error (VList items))), s, w)
            | Some inputs =>
                match Interrupt (parallel_state_val (parallel_state inputs total c bridge)) s with
                | (Ok _, s) => (Ok VNil, s, w)
                | (Err e, s) => (Err e, s, w)
                end
            end
          else (Ok (VList (outputs c)), s, w)
      end
  end.
End parallel.

(** The items in the state of the node. *)
Definition extract_items (state : val) : res (list val) :=
  match as_list state with
  | Some items => Ok items
  | None =>
      match as_map state with
      | None => Err (Errorf ("graph: parallel node expects []interface{} input, got " +:+ fmt_T state))
      | Some m =>
          let raw := match m !! "__input__" with
                     | Some raw => match as_list raw with Some _ => Some raw | None => m !! "items" end
                     | None => m !! "items"
                     end in
          match raw with
          | Some (VSlice TAny items) => Ok items
          | _ => Err (Errorf ("graph: parallel node cannot extract []interface{} from " +:+ fmt_T state))
          end
      end
  end.

Definition NewParallelNodeFunc `{Sha256} `{GoRuntime} {W} (merr : val → error) (key : string)
    (sub : option (SubGraph (W := W))) (opts : list (parallelOptions → parallelOptions)) (schedule : list Z → list Z)
  : res (context → val → istate → W → res val * istate * W) :=
  if decide (key = "") then Err (Errorf "graph: parallel key is empty")
  else
    match sub with
    | None => Err (Errorf "graph: parallel sub-graph is nil")
    | Some sub =>
        let options := getParallelOptions opts in
        Ok (λ ctx state s w,
              match extract_items state with
              | Err e => (Err e, s, w)
              | Ok items => runParallel merr key sub options schedule ctx items s w
              end)
    end.

(** * Properties *)

(** ** The collected results *)
Section collecting.
Context (f : Z → parallelItemResult).
Hypothesis f_index : ∀ i, r_index (f i) = i.

Definition succeeds (i : Z) : Prop := r_err (f i) = None.
Definition interrupted (i : Z) : Prop := ∃ e, r_err (f i) = Some e ∧ IsInterrupt e = true.
Definition fails (i : Z) : Prop := ∃ e, r_err (f i) = Some e ∧ IsInterrupt e = false.

#[local] Instance succeeds_dec i : Decision (succeeds i).
Proof. unfold succeeds. destruct (r_err (f i)); [right; done|left; done]. Defined.
#[export] Instance interrupted_dec i : Decision (interrupted i).
Proof.
  unfold interrupted. destruct (r_err (f i)) as [e|]; [|right; by intros (? & ? & _)].
  destruct (IsInterrupt e) eqn:E; [left; by exists e|right; intros (? & [= <-] & ?); congruence].
Defined.
#[local] Instance fails_dec i : Decision (fails i).
Proof.
  unfold fails. destruct (r_err (f i)) as [e|]; [|right; by intros (? & ? & _)].
  destruct (IsInterrupt e) eqn:E; [right; intros (? & [= <-] & ?); congruence|left; by exists e].
Defined.

Lemma outcomes i : succeeds i ∨ interrupted i ∨ fails i.
Proof.
  unfold succeeds, interrupted, fails. destruct (r_err (f i)) as [e|]; [|by left].
  right. destruct (IsInterrupt e) eqn:E; [left|right]; by exists e.
Qed.

(** The error of the first item that failed. *)
Definition failure (i : Z) : option error :=
  e ← r_err (f i); Some (Wrapf ("graph: parallel item failed: item " +:+ pretty i) e).

(** What the collected results [c] say of the indices that have arrived. *)
Record summary (outs : list val) (indices : list Z) (c : collected) : Prop := {
  sum_outputs n : outputs c !! n =
    if decide (Z.of_nat n ∈ indices ∧ succeeds (Z.of_nat n) ∧ n < length outs)
    then Some (r_output (f (Z.of_nat n))) else outs !! n;
  sum_length : length (outputs c) = length outs;
  sum_error : normalErr c = head (filter fails indices) ≫= failure;
  sum_interrupt : hasInterrupt c = bool_decide (Exists interrupted indices);
  sum_completed i : completedResults c !! i = if decide (i ∈ indices ∧ succeeds i) then Some (r_output (f i)) else None
}.

(** An item that did not succeed leaves outputs and results alone. *)
Lemma summary_failed outs indices c c' i :
  summary outs indices c → ¬ succeeds i →
  outputs c' = outputs c → completedResults c' = completedResults c →
  hasInterrupt c' = bool_decide (Exists interrupted (indices ++ [i])) →
  normalErr c' = head (filter fails (indices ++ [i])) ≫= failure →
  summary outs (indices ++ [i]) c'.
Proof.
  intros [Ho Hl _ _ Hc] Hi Ho' Hc' Hi' He'. split; rewrite ?Ho', ?Hc', ?Hi', ?He'; try done.
  - intros n. rewrite Ho. apply decide_ext. set_solver.
  - intros j. rewrite Hc. apply decide_ext. set_solver.
Qed.

Lemma summary_interrupted outs indices c i e :
  summary outs indices c → r_err (f i) = Some e → IsInterrupt e = true →
  summary outs (indices ++ [i]) (collect_one c (f i)).
Proof.
  intros Hs E Ee. unfold collect_one. rewrite E, Ee. eapply summary_failed; [exact Hs|..]; try done.
  - unfold succeeds. by rewrite E.
  - symmetry. apply bool_decide_eq_true, Exists_app. right. constructor. by exists e.
  - rewrite filter_app, filter_cons_False, filter_nil, app_nil_r by (intros (e' & ? & ?); congruence).
    by destruct Hs.
Qed.

Lemma failure_head indices k l : filter fails indices = k :: l → is_Some (failure k).
Proof.
  intros Ef. assert (k ∈ filter fails indices) as Hk by (rewrite Ef; left).
  apply list_elem_of_filter in Hk as [(e & Hk & _) _]. unfold failure. rewrite Hk. by eexists.
Qed.

Lemma summary_fails outs indices c i e :
  summary outs indices c → r_err (f i) = Some e → IsInterrupt e = false →
  summary outs (indices ++ [i]) (collect_one c (f i)).
Proof.
  intros Hs E Ee. assert (fails i) as Hf by by exists e.
  assert (Exists interrupted (indices ++ [i]) ↔ Exists interrupted indices) as Hx.
  { rewrite Exists_app, Exists_cons, Exists_nil. split; [|by left].
    intros [?|[(e' & ? & ?)|[]]]; [done|congruence]. }
  pose proof (sum_error _ _ _ Hs) as He. unfold collect_one. rewrite E, Ee.
  destruct (filter fails indices) as [|k l] eqn:Ef; cbn in He.
  - rewrite He. eapply summary_failed; [exact Hs|..]; try done.
    + unfold succeeds. by rewrite E.
    + cbn. rewrite (sum_interrupt _ _ _ Hs). by apply bool_decide_ext.
    + rewrite filter_app, Ef, filter_cons_True by done. cbn. unfold failure. by rewrite E, f_index.
  - destruct (failure_head _ _ _ Ef) as [e0 Hk]. rewrite He, Hk. eapply summary_failed; [exact Hs|..]; try done.
    + unfold succeeds. by rewrite E.
    + rewrite (sum_interrupt _ _ _ Hs). by apply bool_decide_ext.
    + rewrite filter_app, Ef. cbn. by rewrite He.
Qed.

Lemma summary_succeeds outs indices c i :
  summary outs indices c → succeeds i → summary outs (indices ++ [i]) (collect_one c (f i)).
Proof.
  intros [Ho Hl He Hi Hc] Hs. unfold collect_one. rewrite (Hs : r_err (f i) = None), f_index.
  assert (∀ n, Z.of_nat n ≠ i → (Z.of_nat n ∈ indices ++ [i] ↔ Z.of_nat n ∈ indices)) as Hin by set_solver.
  split; cbn.
  - intros n. destruct (decide (Z.of_nat n = i)) as [<-|Hne].
    + rewrite decide_True, Nat2Z.id by lia. destruct (decide (n < length outs)) as [Hlt|Hge].
      * rewrite list_lookup_insert_eq by lia. rewrite decide_True; [done|set_solver].
      * rewrite list_insert_ge by lia. rewrite Ho. apply decide_ext. naive_solver lia.
    + transitivity (outputs c !! n).
      * destruct (decide (0 ≤ i)%Z); [|done]. rewrite list_lookup_insert_ne; [done|]. lia.
      * rewrite Ho. apply decide_ext. by rewrite Hin.
  - destruct (decide _); [|done]. by rewrite length_insert.
  - rewrite filter_app, filter_cons_False, filter_nil, app_nil_r by (intros (e & E & _); unfold succeeds in Hs; congruence).
    done.
  - rewrite Hi. apply bool_decide_ext. rewrite Exists_app, Exists_cons, Exists_nil. split; [by left|].
    intros [?|[(e & E & _)|[]]]; [done|]. unfold succeeds in Hs. congruence.
  - intros j. destruct (decide (i = j)) as [<-|Hne].
    + rewrite lookup_insert_eq, decide_True; [done|set_solver].
    + rewrite lookup_insert_ne by done. rewrite Hc. apply decide_ext. set_solver.
Qed.

Lemma collect_summary outs indices : summary outs indices (collect outs (f <$> indices)).
Proof.
  unfold collect. induction indices as [|i indices IH] using rev_ind.
  { split; cbn; try done; intros; rewrite decide_False by set_solver; first [done|apply lookup_empty]. }
  rewrite fmap_app, foldl_app. cbn [fmap list_fmap foldl]. set (c := foldl _ _ _) in *.
  destruct (r_err (f i)) as [e|] eqn:E; [destruct (IsInterrupt e) eqn:Ee|].
  - by eapply summary_interrupted.
  - by eapply summary_fails.
  - by apply summary_succeeds.
Qed.

(** Of the items at most one may fail; then the order of arrival is no matter. *)
Lemma collect_order outs indices indices' :
  indices ≡ₚ indices' → (∀ i j, i ∈ indices → j ∈ indices → fails i → fails j → i = j) →
  collect outs (f <$> indices) = collect outs (f <$> indices').
Proof.
  intros Hp Hone. destruct (collect_summary outs indices) as [Ho Hl He Hi Hc].
  destruct (collect_summary outs indices') as [Ho' Hl' He' Hi' Hc'].
  assert (filter fails indices = filter fails indices') as Hf.
  { assert (filter fails indices ≡ₚ filter fails indices') as Hpf by by rewrite Hp.
    assert (∀ i j, i ∈ filter fails indices → j ∈ filter fails indices → i = j) as Heq.
    { intros i j [??]%list_elem_of_filter [??]%list_elem_of_filter. by apply Hone. }
    destruct (filter fails indices) as [|i l] eqn:Ef; [by apply Permutation_nil_l in Hpf|].
    assert (replicate (S (length l)) i = i :: l) as El.
    { apply replicate_as_elem_of. split; [done|]. intros j Hj. apply Heq; [done|left]. }
    rewrite <-El in Hpf |- *. by apply replicate_Permutation. }
  destruct (collect outs (f <$> indices)) as [o e h m], (collect outs (f <$> indices')) as [o' e' h' m'].
  cbn in *. f_equal.
  - apply list_eq. intros n. rewrite Ho, Ho'. apply decide_ext. by rewrite Hp.
  - by rewrite He, He', Hf.
  - rewrite Hi, Hi'. apply bool_decide_ext. by rewrite Hp.
  - apply map_eq. intros i. rewrite Hc, Hc'. apply decide_ext. by rewrite Hp.
Qed.
End collecting.

(** ** Reading the state back *)

(** The results as their copies through JSON. *)
Definition copies (m m' : gmap Z val) : Prop := ∀ i, m' !! i = m !! i ≫= json_rt.

Lemma add_members_written (C : Z → val) (T : Z → string) (zs : list Z) acc :
  Forall (λ z, in_int64 z ∧ unmarshal (T z) = Some (C z)) zs →
  add_members int_key unmarshal ((λ z, (pretty z, T z)) <$> zs) acc =
  Some (foldl (λ acc z, <[z := C z]> acc) acc zs).
Proof.
  intros H. revert acc. induction H as [|z zs [Hz Ht] _ IH]; intros acc; [done|]. cbn [fmap list_fmap add_members].
  rewrite int_key_pretty by done. cbn [mbind option_bind]. rewrite Ht. apply IH.
Qed.

Lemma lookup_insert_all (C : Z → val) zs (acc : gmap Z val) i :
  foldl (λ acc z, <[z := C z]> acc) acc zs !! i = if decide (i ∈ zs) then Some (C i) else acc !! i.
Proof.
  revert acc. induction zs as [|z zs IH]; intros acc; [done|]. cbn [foldl]. rewrite IH.
  destruct (decide (i ∈ zs)) as [Hi|Hi]; [rewrite decide_True; [done|by right]|].
  destruct (decide (z = i)) as [->|Hne]; [rewrite lookup_insert_eq, decide_True; [done|left]|].
  rewrite lookup_insert_ne, decide_False; [done| |done]. by intros [?|?]%elem_of_cons.
Qed.

Lemma sanitize_pretty (z : Z) : sanitize (pretty z) = pretty z.
Proof.
  apply plain_valid. assert (∀ s, all_digits s = true → all_plain s = true) as Hd.
  { induction s as [|a s IH]; [done|]. cbn. intros [Ha Hs]%andb_true_iff. rewrite IH, andb_true_r by done.
    unfold is_digit in Ha. apply bool_decide_eq_true in Ha. unfold plain_char.
    rewrite (proj2 (Nat.leb_le _ _)), (proj2 (Nat.leb_le _ _)) by lia. cbn.
    by rewrite (proj2 (Nat.eqb_neq _ _)), (proj2 (Nat.eqb_neq _ _)) by lia. }
  destruct (pretty_Z_sign z) as [->|(neg & p & -> & _)]; [done|]. destruct (pretty_pos p) as [(Ha & _) _].
  apply Hd in Ha. destruct neg; [|by rewrite app_Empty]. by rewrite app_String, app_Empty.
Qed.

(** The keys of a written map of results, in the order of their texts. *)
Lemma result_keys (m : gmap Z val) :
  ∃ zs, sort_strings (map_to_list (kmap pretty m : gmap string val)).*1 = pretty <$> zs ∧ ∀ i, i ∈ zs ↔ is_Some (m !! i).
Proof.
  assert (sort_strings (map_to_list (kmap pretty m : gmap string val)).*1 ≡ₚ pretty <$> (map_to_list m).*1) as Hp.
  { rewrite sort_strings_perm, map_to_list_kmap by apply _. rewrite <-!list_fmap_compose. done. }
  apply (Permutation_map_inv pretty) in Hp as (zs & Hzs & Hp). exists zs. split; [exact Hzs|].
  intros i. rewrite <-Hp, list_elem_of_fmap. split.
  - intros ([j v] & -> & Hj%elem_of_map_to_list). by exists v.
  - intros [v Hv]. exists (i, v). by rewrite elem_of_map_to_list.
Qed.

Lemma results_marshal (m : gmap Z val) :
  map_Forall (λ _ v, is_Some (marshal v)) m → ∃ t, marshal (results_val m) = Some t.
Proof.
  intros Hm. unfold results_val. cbn [marshal]. rewrite decide_True; [by eexists|].
  intros k o. rewrite lookup_fmap. destruct (kmap pretty m !! k) as [v|] eqn:Ev; [|done]. intros [= <-].
  apply lookup_kmap_Some in Ev as (i & -> & Ev); [|apply _]. by apply (Hm i).
Qed.

Lemma results_round_trip (m : gmap Z val) t :
  map_Forall (λ i v, in_int64 i ∧ readable v) m → marshal (results_val m) = Some t →
  ∃ m', map_field int_key unmarshal ∅ [t] = Some m' ∧ copies m m'.
Proof.
  intros Hm Ht. unfold results_val in Ht. cbn [marshal] in Ht.
  destruct (decide (map_Forall _ _)) as [Hall|]; [|done]. injection Ht as <-.
  destruct (result_keys m) as (zs & -> & Hzs).
  set (T := λ z : Z, default "" (m !! z ≫= marshal)). set (C := λ z : Z, default VNil (m !! z ≫= json_rt)).
  assert (∀ z v, m !! z = Some v → ∃ t w, marshal v = Some t ∧ json_rt v = Some w ∧ denotes t w) as Hden.
  { intros z v Hz. destruct (Hm z v Hz) as [_ Hr]. pose proof (marshal_agree v Hr) as Ha. unfold agree in Ha.
    destruct (Hall (pretty z) (marshal v)) as [u Hu].
    { by rewrite lookup_fmap, lookup_kmap, Hz by apply _. }
    rewrite Hu in Ha. destruct (json_rt v) as [w|] eqn:Hw; [|done]. by exists u, w. }
  assert ((λ k, (k, default "" (default None ((marshal <$> (kmap pretty m : gmap string val)) !! k)))) <$> (pretty <$> zs) =
          (λ z, (pretty z, T z)) <$> zs) as ->.
  { rewrite <-list_fmap_compose. apply list_fmap_ext. intros _ z _. cbn. unfold T.
    rewrite lookup_fmap, lookup_kmap by apply _. by destruct (m !! z). }
  exists (foldl (λ acc z, <[z := C z]> acc) ∅ zs). split.
  - cbn [map_field]. rewrite decide_False by (unfold json_object; by rewrite app_String).
    rewrite object_members_seen; [|apply Forall_fmap, Forall_forall; intros z Hz; cbn; unfold T].
    2: { apply Hzs in Hz as [v Hv]. destruct (Hden z v Hv) as (u & w & Hu & _ & Hd). rewrite Hv. cbn. rewrite Hu.
         by eapply denotes_scans. }
    assert (seen ((λ z, (pretty z, T z)) <$> zs) = (λ z, (pretty z, T z)) <$> zs) as ->.
    { unfold seen. rewrite <-list_fmap_compose. apply list_fmap_ext. intros _ z _. cbn. by rewrite sanitize_pretty. }
    cbn [mbind option_bind]. rewrite (add_members_written C T); [done|]. apply Forall_forall. intros z Hz. apply Hzs in Hz as [v Hv].
    split; [by destruct (Hm z v Hv)|]. destruct (Hden z v Hv) as (u & w & Hu & Hw & Hd). unfold T, C. rewrite Hv. cbn.
    rewrite Hu, Hw. cbn. by apply denotes_unmarshal.
  - intros i. rewrite lookup_insert_all. destruct (decide (i ∈ zs)) as [Hi|Hi].
    + apply Hzs in Hi as [v Hv]. destruct (Hden i v Hv) as (u & w & Hu & Hw & Hd). unfold C. rewrite Hv. cbn. by rewrite Hw.
    + rewrite lookup_empty. destruct (m !! i) eqn:E; [|done]. exfalso. apply Hi, Hzs. by rewrite E.
Qed.

(** The state of a fan-out without item checkpoints. *)
Lemma parallel_state_round_trip inputs m indices total t :
  map_Forall (λ i v, in_int64 i ∧ readable v) m → Forall in_int64 indices → in_int64 total →
  parallel_state_text (MkParallelState inputs m indices total ∅) = Some t →
  ∃ m', unmarshal_parallel_state t = Some (MkParallelState inputs m' indices total ∅) ∧ copies m m'.
Proof.
  intros Hm Hi Ht. unfold parallel_state_text. cbn [OriginalInputsJSON CompletedResults InterruptedIndices TotalCount ItemCheckpoints].
  destruct (marshal (results_val m)) as [r|] eqn:Er; [|done]. cbn [mbind option_bind]. rewrite decide_True by done.
  intros [= <-]. destruct (results_round_trip m r Hm Er) as (m' & Hm' & Hc). exists m'. split; [|done].
  assert (scans r) as Hr.
  { eapply marshal_scans; [|exact Er]. cbn [readable results_val]. intros k P HP.
    rewrite lookup_fmap in HP. destruct (kmap pretty m !! k) as [v|] eqn:Ev; [|done]. injection HP as <-.
    apply lookup_kmap_Some in Ev as (i & -> & Ev); [|apply _]. by apply (Hm i v). }
  unfold unmarshal_parallel_state. rewrite object_members_seen.
  2: { cbn [app]. apply Forall_cons; split; [apply scans_bytes|]. apply Forall_cons; split; [exact Hr|].
       apply Forall_cons; split; [apply scans_ints|]. apply Forall_cons; split; [apply scans_int|]. apply Forall_nil_2. }
  cbn [app]. rewrite !values_of_member. change (seen []) with (@nil (string * string)).
  assert (fold_key (sanitize "original_inputs_json") = "original_inputs_json" ∧
          fold_key (sanitize "completed_results") = "completed_results" ∧
          fold_key (sanitize "interrupted_indices") = "interrupted_indices" ∧
          fold_key (sanitize "total_count") = "total_count") as (-> & -> & -> & ->) by by vm_compute.
  repeat first [rewrite decide_True by done | rewrite decide_False by done].
  change (values_of ?n []) with (@nil string).
  cbn [last_field]. unfold bytes_field. rewrite bytes_literal_written. cbn [fmap option_fmap option_map default mbind option_bind].
  rewrite Hm'. cbn [mbind option_bind]. rewrite ints_literal_written by done. cbn [mbind option_bind].
  rewrite int_field_pretty by done. cbn [mbind option_bind map_field]. done.
Qed.

(** ** Runs

    From here on the graph is a function [f] of the thread and the input: its
    invocations do not communicate. *)
Section runs.
Context `{Sha256} `{GoRuntime} {W : Type}.
Context (marshal_error : val → error) (key : string).

Definition independent (sub : SubGraph (W := W)) (f : string → val → outcome) : Prop :=
  ∀ ctx thread x s w, sub ctx thread x s w = (f thread x, s, w).

(** What item [idx] comes to. *)
Definition outcome_of (f : string → val → outcome) (items : list val) (idx : Z) : parallelItemResult :=
  match item items idx with
  | None => out_of_bounds items idx
  | Some x => item_result idx (f (itemCheckpointID key idx) x)
  end.

Lemma outcome_index f items i : r_index (outcome_of f items i) = i.
Proof. unfold outcome_of. destruct (item items i); [|done]. by destruct (f _ _). Qed.

Lemma run_items_independent sub f ctx items indices s w :
  independent sub f → run_items key sub ctx items indices s w = (outcome_of f items <$> indices, s, w).
Proof.
  intros Hf. induction indices as [|i indices IH]; [done|]. cbn [run_items].
  assert (runOne key sub ctx items i s w = (outcome_of f items i, s, w)) as ->; [|by rewrite IH].
  unfold runOne, outcome_of. destruct (item items i); [|done]. by rewrite Hf.
Qed.

(** The items that are run, in the order they are run in. *)
Definition arrivals (options : parallelOptions) (schedule : list Z → list Z) (indices : list Z) : list Z :=
  match indices with
  | [] => []
  | i :: rest => i :: (if (maxConcurrency options <=? 1)%Z then rest else schedule rest)
  end.

Definition fair (schedule : list Z → list Z) : Prop := ∀ l, schedule l ≡ₚ l.

Lemma arrivals_perm options schedule indices : fair schedule → arrivals options schedule indices ≡ₚ indices.
Proof. intros Hs. destruct indices as [|i rest]; [done|]. cbn. by destruct (_ <=? _)%Z; [|rewrite (Hs rest)]. Qed.

Lemma fanOut_independent sub f options schedule ctx items indices s w :
  independent sub f →
  fanOutItems key sub options schedule ctx items indices s w =
  (outcome_of f items <$> arrivals options schedule indices, s, w).
Proof. intros Hf. destruct indices as [|i rest]; [done|]. by apply run_items_independent. Qed.

(** Where a run starts: all items, or those a snapshot lists. *)
Definition run_start (items : list val) (s : istate) : Z * gmap Z val * list Z * gmap string string :=
  match loadParallelSnapshot s with
  | Some prev => (TotalCount prev, CompletedResults prev, InterruptedIndices prev, ItemCheckpoints prev)
  | None => (Z.of_nat (length items), ∅, seqZ 0 (Z.of_nat (length items)), ∅)
  end.


(** The run of the items [indices] when none of them fails. *)
Lemma run_without_failure sub f options schedule ctx items indices s w outs :
  independent sub f → fair schedule → indices ≠ [] → (∀ i, i ∈ indices → ¬ fails (outcome_of f items) i) →
  ∃ c, summary (outcome_of f items) outs indices c ∧ normalErr c = None ∧
    let '(rs, s', w') := fanOutItems key sub options schedule ctx items indices s w in
    collect outs rs = c ∧ s' = s ∧ w' = w.
Proof.
  intros Hf Hs Hne Hno. eexists. split; [|split].
  3: { rewrite (fanOut_independent sub f) by done. split; [|done].
       apply (collect_order (outcome_of f items) (outcome_index f items)); [by apply arrivals_perm|].
       intros i j Hi _ Hfi. exfalso. eapply Hno; [|exact Hfi]. by rewrite arrivals_perm in Hi. }
  - by apply collect_summary, outcome_index.
  - rewrite (sum_error _ _ _ _ (collect_summary _ (outcome_index f items) outs indices)).
    destruct (filter _ indices) as [|i l] eqn:E; [done|]. exfalso.
    assert (i ∈ filter (fails (outcome_of f items)) indices) as Hi by (rewrite E; left).
    apply list_elem_of_filter in Hi as [Hi Hin]. by eapply Hno.
Qed.

Lemma lookup_replay total m n :
  replay total m !! n = if decide (Z.of_nat n < total)%Z then Some (default VNil (m !! Z.of_nat n)) else None.
Proof.
  unfold replay. rewrite list_lookup_fmap. destruct (decide _) as [Hn|Hn].
  - rewrite lookup_seqZ_lt by lia. cbn. by rewrite Z.add_0_l.
  - by rewrite lookup_seqZ_ge by lia.
Qed.

Lemma length_replay total m : length (replay total m) = Z.to_nat total.
Proof. unfold replay. by rewrite length_fmap, length_seqZ. Qed.

(** All of [indices] succeed: their outputs replace what was there. *)
Lemma run_completes sub f options schedule ctx items indices s w total m :
  independent sub f → fair schedule → indices ≠ [] → (∀ i, i ∈ indices → succeeds (outcome_of f items) i) →
  ∃ c, normalErr c = None ∧ hasInterrupt c = false ∧
    outputs c = (λ i, if decide (i ∈ indices) then r_output (outcome_of f items i) else default VNil (m !! i)) <$> seqZ 0 total ∧
    let '(rs, s', w') := fanOutItems key sub options schedule ctx items indices s w in
    collect (replay total m) rs = c ∧ s' = s ∧ w' = w.
Proof.
  intros Hf Hs Hne Hok.
  destruct (run_without_failure sub f options schedule ctx items indices s w (replay total m)) as (c & Hc & He & Hrun);
    [done..|intros i Hi (e & E & _); apply Hok in Hi; unfold succeeds in Hi; congruence|].
  exists c. split; [done|]. split; [|split; [|done]].
  - rewrite (sum_interrupt _ _ _ _ Hc). apply bool_decide_eq_false. intros (i & Hi & e & E & _)%Exists_exists.
    apply Hok in Hi. unfold succeeds in Hi. congruence.
  - apply list_eq. intros n. rewrite (sum_outputs _ _ _ _ Hc), length_replay, lookup_replay, list_lookup_fmap.
    destruct (decide (Z.of_nat n < total)%Z) as [Hn|Hn].
    + rewrite lookup_seqZ_lt by lia. cbn. rewrite Z.add_0_l. destruct (decide (Z.of_nat n ∈ indices)) as [Hi|Hi].
      * rewrite decide_True; [done|]. split; [done|]. split; [by apply Hok|lia].
      * rewrite decide_False; [done|]. by intros [? _].
    + rewrite lookup_seqZ_ge by lia. cbn. rewrite decide_False; [done|]. intros (_ & _ & ?). lia.
Qed.

(** Without a snapshot the node gives the outputs in the order of the items. *)
Theorem parallel_outputs sub f options schedule ctx items s w :
  independent sub f → fair schedule → loadParallelSnapshot s = None →
  (∀ i x, items !! i = Some x → ∃ out, f (itemCheckpointID key (Z.of_nat i)) x = Return out None) →
  runParallel marshal_error key sub options schedule ctx items s w =
  (Ok (VList (imap (λ i x, match f (itemCheckpointID key (Z.of_nat i)) x with Return out _ => out | Panics _ => VNil end) items)),
   s, w).
Proof.
  intros Hf Hs Hsnap Hok. unfold runParallel. rewrite Hsnap.
  destruct items as [|x0 items]; [done|]. set (items' := x0 :: items) in *.
  destruct (seqZ 0 (Z.of_nat (length items'))) as [|i0 rest] eqn:Eseq; [by rewrite seqZ_cons in Eseq by (cbn; lia)|].
  destruct (run_completes sub f options schedule ctx items' (i0 :: rest) s w (Z.of_nat (length items')) ∅)
    as (c & He & Hi & Ho & Hrun); [done..| |].
  { intros i. rewrite <-Eseq, elem_of_seqZ. intros Hr. unfold succeeds, outcome_of, item. rewrite decide_True by lia.
    destruct (lookup_lt_is_Some_2 items' (Z.to_nat i)) as [x Hx]; [lia|]. rewrite Hx.
    destruct (Hok _ _ Hx) as [out Hout]. rewrite Z2Nat.id in Hout by lia. by rewrite Hout. }
  destruct (fanOutItems _ _ _ _ _ _ _ _ _) as [[rs s'] w']. destruct Hrun as (-> & -> & ->).
  rewrite He, Hi, Ho. do 4 f_equal. apply list_eq. intros n. rewrite list_lookup_fmap, list_lookup_imap.
  destruct (items' !! n) as [x|] eqn:Ex.
  - pose proof (lookup_lt_Some _ _ _ Ex) as Hn. rewrite lookup_seqZ_lt by lia. cbn [fmap option_fmap option_map].
    rewrite Z.add_0_l, <-Eseq, decide_True by (apply elem_of_seqZ; lia).
    unfold outcome_of, item. rewrite decide_True, Nat2Z.id, Ex by lia. destruct (Hok _ _ Ex) as [out Hout]. by rewrite Hout.
  - apply lookup_ge_None in Ex. by rewrite lookup_seqZ_ge by lia.
Qed.

(** A run in which items are interrupted and none fails. *)
Lemma run_interrupts sub f options schedule ctx items s w inputs total m indices bridge :
  independent sub f → fair schedule → run_start items s = (total, m, indices, bridge) →
  (∀ i, i ∈ indices → ¬ fails (outcome_of f items) i) → Exists (interrupted (outcome_of f items)) indices →
  marshal (VList items) = Some inputs → no_answer s →
  ∃ c id s', summary (outcome_of f items) (replay total m) indices c ∧
    runParallel marshal_error key sub options schedule ctx items s w =
    (Err (GraphInterrupt [NewInterrupt (parallel_state_val (parallel_state inputs total c bridge)) id]), s', w).
Proof.
  intros Hf Hs Hstart Hno Hint Hm Ha. assert (indices ≠ []) as Hne by (intros ->; by apply Exists_nil in Hint).
  destruct (run_without_failure sub f options schedule ctx items indices s w (replay total m)) as (c & Hc & He & Hrun);
    [done..|]. exists c.
  assert (hasInterrupt c = true) as Hi by (rewrite (sum_interrupt _ _ _ _ Hc); by apply bool_decide_eq_true).
  destruct (interrupt_raised (parallel_state_val (parallel_state inputs total c bridge)) s Ha) as (id & s' & E).
  exists id, s'. split; [done|]. unfold runParallel. unfold run_start in Hstart.
  destruct (loadParallelSnapshot s) as [prev|]; injection Hstart as <- <- <- <-.
  - destruct (InterruptedIndices prev) as [|i rest]; [done|].
    destruct (fanOutItems _ _ _ _ _ _ _ _ _) as [[rs s1] w1]. destruct Hrun as (-> & -> & ->).
    rewrite He, Hi, Hm. unfold itemCheckpointStore.New. by rewrite E.
  - destruct (seqZ _ _) as [|i rest]; [done|].
    destruct (fanOutItems _ _ _ _ _ _ _ _ _) as [[rs s1] w1]. destruct Hrun as (-> & -> & ->).
    rewrite He, Hi, Hm. unfold itemCheckpointStore.New. by rewrite E.
Qed.

Lemma pending_spec inputs total c bridge i :
  i ∈ InterruptedIndices (parallel_state inputs total c bridge) ↔ (0 ≤ i < total)%Z ∧ completedResults c !! i = None.
Proof. cbn. rewrite list_elem_of_filter, elem_of_seqZ. rewrite Z.add_0_l. tauto. Qed.

(** What is saved of a run of all items of which none fails. *)
Lemma saved_state f items inputs n c :
  summary (outcome_of f items) (replay n ∅) (seqZ 0 n) c →
  (∀ i, (0 ≤ i < n)%Z → ¬ fails (outcome_of f items) i) →
  (∀ i, completedResults c !! i =
     if decide ((0 ≤ i < n)%Z ∧ succeeds (outcome_of f items) i) then Some (r_output (outcome_of f items i)) else None) ∧
  ∀ i, i ∈ InterruptedIndices (parallel_state inputs n c ∅) ↔ (0 ≤ i < n)%Z ∧ interrupted (outcome_of f items) i.
Proof.
  intros Hc Hno. assert (∀ i, completedResults c !! i =
    if decide ((0 ≤ i < n)%Z ∧ succeeds (outcome_of f items) i) then Some (r_output (outcome_of f items i)) else None) as Hres.
  { intros i. rewrite (sum_completed _ _ _ _ Hc). apply decide_ext. rewrite elem_of_seqZ, Z.add_0_l. done. }
  split; [done|]. intros i. rewrite pending_spec, Hres. split; intros [Hi Hx]; (split; [done|]).
  - destruct (outcomes (outcome_of f items) i) as [?|[?|Hfi]]; [|done|by destruct (Hno i)].
    by rewrite decide_True in Hx.
  - rewrite decide_False; [done|]. intros [_ Hsi]. destruct Hx as (e & E & _). unfold succeeds in Hsi. congruence.
Qed.

(** Its text, and what a later run reads in it. *)
Lemma saved_text inputs n c :
  in_int64 n → (0 < n)%Z →
  map_Forall (λ i v, (0 ≤ i < n)%Z ∧ readable v ∧ is_Some (marshal v)) (completedResults c) →
  let st := parallel_state inputs n c ∅ in
  ∃ t m', parallel_state_text st = Some t ∧ copies (completedResults c) m' ∧
    ∀ s rest, GetResumeValues s = VStr t :: rest →
      loadParallelSnapshot s = Some (MkParallelState inputs m' (InterruptedIndices st) n ∅).
Proof.
  intros Hn Hpos Hall st.
  destruct (results_marshal (completedResults c)) as [r Hr]; [intros i v Hv; by destruct (Hall i v Hv) as (_ & _ & ?)|].
  assert (∃ t, parallel_state_text st = Some t) as [t Ht].
  { unfold parallel_state_text, st. cbn [CompletedResults parallel_state ItemCheckpoints]. rewrite Hr.
    cbn [mbind option_bind]. rewrite decide_True by done. by eexists. }
  destruct (parallel_state_round_trip inputs (completedResults c) (InterruptedIndices st) n t) as (m' & Hst & Hcopies).
  { intros i v Hi. destruct (Hall i v Hi) as (? & ? & _). split; [unfold in_int64 in *; lia|done]. }
  { apply Forall_forall. intros i Hi%pending_spec. unfold in_int64 in *. lia. }
  { done. }
  { exact Ht. }
  exists t, m'. split; [done|]. split; [done|]. intros s rest Hv.
  unfold loadParallelSnapshot. rewrite Hv. cbn [first_parallel_state]. rewrite Hst. cbn [TotalCount].
  by rewrite (proj2 (Z.ltb_lt _ _)) by lia.
Qed.


(** A second interrupt forgets what was finished before the first one: when an
    item that is run again is interrupted again, the results of the earlier run
    are missing from the new state, whose list of items to run has them all. *)
Theorem second_interrupt_forgets sub f options schedule ctx items s w inputs prev :
  independent sub f → fair schedule → loadParallelSnapshot s = Some prev → no_answer s →
  (∀ i, i ∈ InterruptedIndices prev → ¬ fails (outcome_of f items) i) →
  Exists (interrupted (outcome_of f items)) (InterruptedIndices prev) →
  marshal (VList items) = Some inputs →
  ∃ st id s', runParallel marshal_error key sub options schedule ctx items s w =
      (Err (GraphInterrupt [NewInterrupt (parallel_state_val st) id]), s', w) ∧
    ∀ i, (0 ≤ i < TotalCount prev)%Z → i ∉ InterruptedIndices prev →
      i ∈ InterruptedIndices st ∧ CompletedResults st !! i = None.
Proof.
  intros Hf Hs Hsnap Ha Hno Hint Hm.
  destruct (run_interrupts sub f options schedule ctx items s w inputs (TotalCount prev) (CompletedResults prev)
    (InterruptedIndices prev) (ItemCheckpoints prev)) as (c & id & s' & Hc & E); try done.
  { unfold run_start. by rewrite Hsnap. }
  eexists _, id, s'. split; [exact E|]. intros i Hi Hn. rewrite pending_spec. cbn [CompletedResults parallel_state].
  rewrite (sum_completed _ _ _ _ Hc), decide_False; [done|]. by intros [? _].
Qed.
End runs.

(** ** Witnesses *)
Section witnesses.
#[local] Existing Instance hex_hash.
#[local] Existing Instance fixed_addresses.

Definition no_error (v : val) : error := Errorf "json".

(** A graph that returns its input, but asks about the item "ask". *)
Definition asks : string → val → outcome := λ _ v,
  match v with
  | VStr s => if decide (s = "ask") then Return VNil (Some (GraphInterrupt [NewInterrupt (VStr "which?") "q"])) else Return v None
  | _ => Return v None
  end.
Definition as_graph (f : string → val → outcome) : SubGraph (W := unit) := λ _ thread x s w, (f thread x, s, w).
Definition constant (v : val) : string → val → outcome := λ _ _, Return v None.

Definition fresh : istate := MkIS (Some IC.New) IC.New 0.
Definition sequential : parallelOptions := MkParallelOptions 0.
Definition concurrent : parallelOptions := MkParallelOptions 4.

Definition in_order (l : list Z) : list Z := l.

Lemma fair_rev : fair (@rev Z).
Proof. intros l. symmetry. apply Permutation_rev. Defined.


Lemma parallel_outputs_witness :
  runParallel no_error "k" (as_graph (constant (VInt 7))) concurrent (@rev Z) ∅ [VNil; VNil; VNil] fresh () =
  (Ok (VList [VInt 7; VInt 7; VInt 7]), fresh, ()).
Proof.
  apply (parallel_outputs no_error "k" (as_graph (constant (VInt 7))) (constant (VInt 7))).
  - intros ctx thread x s w. reflexivity.
  - exact fair_rev.
  - reflexivity.
  - intros i x _. exists (VInt 7). reflexivity.
Defined.


Definition two_of_three : parallelInterruptState := MkParallelState "[]" {[0%Z := VInt 7]} [1%Z; 2%Z] 3 ∅.
Definition resumed : istate :=
  Eval vm_compute in
    match parallel_state_text two_of_three with
    | Some t => MkIS (Some (MkIC [VStr t] 1 VNil)) IC.New 0
    | None => fresh
    end.

Lemma second_interrupt_forgets_witness :
  ∃ st id s', runParallel no_error "k" (as_graph asks) sequential in_order ∅ [VStr "a"; VStr "b"; VStr "ask"] resumed () =
      (Err (GraphInterrupt [NewInterrupt (parallel_state_val st) id]), s', ()) ∧
    0%Z ∈ InterruptedIndices st ∧ CompletedResults st !! 0%Z = None.
Proof.
  destruct (second_interrupt_forgets no_error "k" (as_graph asks) asks sequential in_order ∅
    [VStr "a"; VStr "b"; VStr "ask"] resumed ()
    ("[" +:+ quote +:+ "a" +:+ quote +:+ "," +:+ quote +:+ "b" +:+ quote +:+ "," +:+ quote +:+ "ask" +:+ quote +:+ "]")
    (MkParallelState "[]" {[0%Z := VFloat (float_of_int 7)]} [1%Z; 2%Z] 3 ∅)) as (st & id & s' & Hrun & Hst).
  - intros ctx thread x s w. reflexivity.
  - intros l. reflexivity.
  - vm_compute. reflexivity.
  - split; reflexivity.
  - intros i Hi (e & E & Hf). cbn [InterruptedIndices] in Hi. apply elem_of_cons in Hi as [->|Hi]; [discriminate E|].
    apply elem_of_cons in Hi as [->|Hi]; [|by apply elem_of_nil in Hi]. injection E as <-. discriminate Hf.
  - right. left. eexists. split; reflexivity.
  - vm_compute. reflexivity.
  - exists st, id, s'. split; [exact Hrun|]. apply Hst; [cbn; lia|]. cbn. by intros [?|[?|?%elem_of_nil]%elem_of_cons]%elem_of_cons.
Defined.

(** An item asks through the interrupt context the state came in: it is given
    the state of the fan-out as its answer, and the client's answer is left. *)
Definition asking : SubGraph (W := unit) := λ _ _ v s w,
  match v with
  | VStr t =>
      if decide (t = "ask") then
        match Interrupt (VStr "which?") s with
        | (Ok a, s) => (Return a None, s, w)
        | (Err e, s) => (Return VNil (Some e), s, w)
        end
      else (Return v None, s, w)
  | _ => (Return v None, s, w)
  end.

Definition saved_asking : option string :=
  match runParallel no_error "k" asking sequential in_order ∅ [VStr "a"; VStr "ask"] fresh () with
  | (Err (GraphInterrupt [_]), _, _) =>
      parallel_state_text (MkParallelState
        ("[" +:+ quote +:+ "a" +:+ quote +:+ "," +:+ quote +:+ "ask" +:+ quote +:+ "]") {[0%Z := VStr "a"]} [1%Z] 2 ∅)
  | _ => None
  end.

Definition asking_state : string := Eval vm_compute in default "" saved_asking.

Example item_answered_with_state :
  saved_asking = Some asking_state ∧
  (runParallel no_error "k" asking sequential in_order ∅ [VStr "a"; VStr "ask"]
    (SetResumeValues [VStr asking_state; VStr "this one"] fresh) ()).1.1 = Ok (VList [VStr "a"; VStr asking_state]).
Proof. split; vm_compute; reflexivity. Qed.
End witnesses.
