(* ===== verification/ChannelIO.v ===== *)
(** * Readers and writers of channels (pregel/read.go, pregel/write.go)

    Objects for authors of nodes: a reader selects channels, reads and
    transforms their values; triggers say when to read; a writer collects
    entries and applies them one after the other.  The registry is shared and
    passed along; [reg.List()] visits it in an order [names] that is an
    argument.  The interfaces of the code are the types of functions. *)

From Stdlib Require Import Ascii.
From S2P Require Import ReadProps.
From S2P Require Export Writes.

(** ** Selectors *)
Definition ChannelSelector : Type := list string → registry → res (list string).

Definition AllChannelsSelector : ChannelSelector := λ names _, Ok names.
Definition SpecificChannelsSelector (channels : list string) : ChannelSelector := λ _ reg,
  Ok (filter (λ name, registered reg name) channels).
Definition PrefixChannelsSelector (prefix : string) : ChannelSelector := λ names _,
  Ok (filter (λ name, String.prefix prefix name = true) names).
Definition AvailableChannelsSelector : ChannelSelector := λ names reg,
  Ok (filter (λ name, match reg !! name with Some c => IsAvailable c | None => false end = true) names).

(** ** Transformers

    [ord] is the order in which a loop visits the values. *)
Definition ChannelTransformer : Type := gmap string val → res (gmap string val).

Definition IdentityTransformer : ChannelTransformer := λ values, Ok values.
Definition MappingTransformer (mappings : gmap string string) (ord : gmap string val → list (string * val))
  : ChannelTransformer := λ values,
  Ok (foldl (λ result kv, <[default kv.1 (mappings !! kv.1) := kv.2]> result) ∅ (ord values)).
Definition FilterTransformer (keep : list string) : ChannelTransformer := λ values,
  Ok (filter (λ kv, kv.1 ∈ keep) values).
Definition DefaultTransformer (defaults : gmap string val) : ChannelTransformer := λ values, Ok (values ∪ defaults).
Definition MergingTransformer (target : string) (merger : list val → res val)
    (ord : gmap string val → list (string * val)) : ChannelTransformer := λ values,
  match merger (ord values).*2 with Ok merged => Ok {[target := merged]} | Err e => Err e end.

(** ** Readers *)
Module ChannelRead.
Record t : Type := Mk { selector : ChannelSelector; transformer : option ChannelTransformer }.

Definition New (opts : list (t → t)) : t := foldl (λ cr opt, opt cr) (Mk AllChannelsSelector (Some IdentityTransformer)) opts.
Definition WithSelector (s : ChannelSelector) (cr : t) : t := Mk s (transformer cr).
Definition WithTransformer (f : option ChannelTransformer) (cr : t) : t := Mk (selector cr) f.

(** The loop over the selected names; a channel that cannot be read is left out. *)
Fixpoint read_values (names : list string) (reg : registry) (values : gmap string val) : gmap string val * registry :=
  match names with
  | [] => (values, reg)
  | name :: names =>
      match reg !! name with
      | None => read_values names reg values
      | Some c =>
          let '(v, c) := Channels.Get c in
          read_values names (<[name := c]> reg) (match v with Ok v => <[name := v]> values | Err _ => values end)
      end
  end.

Definition Read (names : list string) (cr : t) (reg : registry) : res (gmap string val) * registry :=
  match selector cr names reg with
  | Err e => (Err (Wrapf "channel selection failed" e), reg)
  | Ok selected =>
      let '(values, reg) := read_values selected reg ∅ in
      match transformer cr with
      | None => (Ok values, reg)
      | Some f => (match f values with Ok values => Ok values | Err e => Err (Wrapf "channel transformation failed" e) end, reg)
      end
  end.

Definition ReadChannel (name : string) (reg : registry) : res val * registry :=
  match reg !! name with
  | Some c => let '(v, c) := Channels.Get c in (v, <[name := c]> reg)
  | None => (Err (Errorf ("channel not found: " +:+ name)), reg)
  end.
Definition HasChannel (name : string) (reg : registry) : bool := bool_decide (is_Some (reg !! name)).
Definition ListChannels (names : list string) : list string := names.
End ChannelRead.

(** ** Triggers

    One of them remembers the version it saw last. *)
Inductive Trigger : Type :=
| AlwaysTrigger
| AnyAvailableTrigger (channels : list string)
| AllAvailableTrigger (channels : list string)
| ChannelChangedTrigger (channel : string) (lastVersion : Z).

Definition NewChannelChangedTrigger (channel : string) : Trigger := ChannelChangedTrigger channel (-1).

Definition available (reg : registry) (name : string) : bool :=
  match reg !! name with Some c => IsAvailable c | None => false end.

Definition ShouldTrigger (reg : registry) (t : Trigger) : bool * Trigger :=
  match t with
  | AlwaysTrigger => (true, t)
  | AnyAvailableTrigger channels => (existsb (available reg) channels, t)
  | AllAvailableTrigger channels => (forallb (available reg) channels, t)
  | ChannelChangedTrigger channel lastVersion =>
      match reg !! channel with
      | None => (false, t)
      | Some c =>
          let version := GetVersion c in
          if ((0 <=? version) && negb (version =? lastVersion))%Z then (true, ChannelChangedTrigger channel version)
          else ((version <? 0)%Z && IsAvailable c, t)
      end
  end.

Module ReadContext.
Record t : Type := Mk { Node : string; Step : Z; Triggers : list Trigger; Readers : gmap string ChannelRead.t }.

Definition New (node : string) (step : Z) : t := Mk node step [] ∅.
Definition AddReader (name : string) (reader : ChannelRead.t) (rc : t) : t :=
  Mk (Node rc) (Step rc) (Triggers rc) (<[name := reader]> (Readers rc)).
Definition GetReader (name : string) (rc : t) : option ChannelRead.t := Readers rc !! name.

(** The first trigger that fires; those after it are not asked. *)
Fixpoint any_fires (reg : registry) (ts : list Trigger) : bool * list Trigger :=
  match ts with
  | [] => (false, [])
  | t :: ts =>
      let '(b, t) := ShouldTrigger reg t in
      if b then (true, t :: ts) else let '(b, ts) := any_fires reg ts in (b, t :: ts)
  end.

Definition ShouldExecute (reg : registry) (rc : t) : bool * t :=
  match Triggers rc with
  | [] => (true, rc)
  | ts => let '(b, ts) := any_fires reg ts in (b, Mk (Node rc) (Step rc) ts (Readers rc))
  end.

(** The loop over the readers, in the order [ord]; [ords] are the orders of the
    loops over what they read. *)
Fixpoint read_all (ords : gmap string val → list (string * val)) (names : list string)
    (ord : list (string * ChannelRead.t)) (reg : registry) (combined : gmap string val)
  : res (gmap string val) * registry :=
  match ord with
  | [] => (Ok combined, reg)
  | (name, reader) :: ord =>
      match ChannelRead.Read names reader reg with
      | (Err e, reg) => (Err (Wrapf ("reader " +:+ name +:+ " failed") e), reg)
      | (Ok values, reg) =>
          read_all ords names ord reg
            (foldl (λ combined kv, <[name +:+ "." +:+ kv.1 := kv.2]> combined) combined (ords values))
      end
  end.
End ReadContext.

(** ** Entries to write

    Metadata is a map shared by reference: [EMetadata] is its location in a
    store, [None] the nil map. *)
Record ChannelWriteEntry : Type := MkEntry {
  EChannel : string;
  EValue : val;
  EOverwrite : bool;
  ENode : string;
  EMetadata : option nat
}.

Abbreviation metadata_store := (gmap nat (gmap string val)).

Inductive write_error : Type :=
| WriteSkipError (Channel : string)
| WriteValidationError (Channel Message : string)
| ChannelError (e : error)
| WWrapf (msg : string) (cause : write_error).

Definition IsWriteSkipError (e : write_error) : bool := match e with WriteSkipError _ => true | _ => false end.

Fixpoint write_error_string (e : write_error) : string :=
  match e with
  | WriteSkipError c => "write skipped for channel " +:+ c
  | WriteValidationError c m => "write validation error for channel " +:+ c +:+ ": " +:+ m
  | ChannelError e => Error_string e
  | WWrapf m e => m +:+ ": " +:+ write_error_string e
  end.

(** [None] on the right is no error. *)
Definition WriteTransformer : Type :=
  ChannelWriteEntry → metadata_store → result write_error ChannelWriteEntry * metadata_store.
Definition WriteValidator : Type := ChannelWriteEntry → option write_error.

Definition set_channel (c : string) (e : ChannelWriteEntry) : ChannelWriteEntry :=
  MkEntry c (EValue e) (EOverwrite e) (ENode e) (EMetadata e).

Definition IdentityWriteTransformer : WriteTransformer := λ e h, (Ok e, h).
Definition MappingWriteTransformer (mappings : gmap string string) : WriteTransformer := λ e h,
  (Ok (match mappings !! EChannel e with Some name => set_channel name e | None => e end), h).
Definition PrefixWriteTransformer (prefix : string) : WriteTransformer := λ e h,
  (Ok (set_channel (prefix +:+ EChannel e) e), h).
(** The copy of an entry shares its metadata, which is written in place; an
    entry without metadata gets a new map at a location [fresh h]. *)
Definition MetadataWriteTransformer (fresh : metadata_store → nat) (metadata : gmap string val) : WriteTransformer := λ e h,
  let l := default (fresh h) (EMetadata e) in
  (Ok (MkEntry (EChannel e) (EValue e) (EOverwrite e) (ENode e) (Some l)),
   <[l := metadata ∪ default ∅ (h !! l)]> h).
Definition NodeWriteTransformer (node : string) : WriteTransformer := λ e h,
  (Ok (if decide (ENode e = "") then MkEntry (EChannel e) (EValue e) (EOverwrite e) node (EMetadata e) else e), h).
Definition FilterWriteTransformer (predicate : option (ChannelWriteEntry → bool)) : WriteTransformer := λ e h,
  match predicate with
  | Some p => if p e then (Ok e, h) else (Err (WriteSkipError (EChannel e)), h)
  | None => (Ok e, h)
  end.

Definition NoOpValidator : WriteValidator := λ _, None.
Definition TypeWriteValidator (types : gmap string val) : WriteValidator := λ e,
  match types !! EChannel e with
  | Some expected =>
      if negb (is_nil (EValue e)) && negb (bool_decide (fmt_T (EValue e) = fmt_T expected))
      then Some (WriteValidationError (EChannel e) ("expected type " +:+ fmt_T expected +:+ ", got " +:+ fmt_T (EValue e)))
      else None
  | None => None
  end.
Definition NonNullWriteValidator (whitelist : list string) : WriteValidator := λ e,
  if decide (EChannel e ∈ whitelist) then None
  else if is_nil (EValue e) then Some (WriteValidationError (EChannel e) "value cannot be nil") else None.

(** The length of a []any, a string in bytes, or a map[string]any. *)
Definition value_length (v : val) : option Z :=
  match as_list v with
  | Some l => Some (Z.of_nat (length l))
  | None => match v with
            | VStr s => Some (Z.of_nat (String.length s))
            | _ => Z.of_nat ∘ size <$> as_map v
            end
  end.

Definition LengthWriteValidator (minLengths maxLengths : gmap string Z) : WriteValidator := λ e,
  match value_length (EValue e) with
  | None => None
  | Some n =>
      match minLengths !! EChannel e, maxLengths !! EChannel e with
      | Some min, max =>
          if (n <? min)%Z then
            Some (WriteValidationError (EChannel e) ("length " +:+ pretty n +:+ " is less than minimum " +:+ pretty min))
          else match max with
               | Some max => if (max <? n)%Z then
                   Some (WriteValidationError (EChannel e) ("length " +:+ pretty n +:+ " exceeds maximum " +:+ pretty max)) else None
               | None => None
               end
      | None, Some max =>
          if (max <? n)%Z then
            Some (WriteValidationError (EChannel e) ("length " +:+ pretty n +:+ " exceeds maximum " +:+ pretty max)) else None
      | None, None => None
      end
  end.

(** ** Writers *)
Module ChannelWrite.
Record t : Type := Mk {
  entries : list ChannelWriteEntry;
  transformer : option WriteTransformer;
  validator : option WriteValidator
}.

Definition New (opts : list (t → t)) : t :=
  foldl (λ cw opt, opt cw) (Mk [] (Some IdentityWriteTransformer) (Some NoOpValidator)) opts.
Definition WithWriteTransformer (f : option WriteTransformer) (cw : t) : t := Mk (entries cw) f (validator cw).
Definition WithValidator (v : option WriteValidator) (cw : t) : t := Mk (entries cw) (transformer cw) v.

Definition AddEntries (es : list ChannelWriteEntry) (cw : t) : t := Mk (entries cw ++ es) (transformer cw) (validator cw).
Definition AddEntry (e : ChannelWriteEntry) (cw : t) : t := AddEntries [e] cw.
Definition WriteTo (channel : string) (value : val) (cw : t) : t := AddEntry (MkEntry channel value false "" None) cw.
Definition Overwrite (channel : string) (value : val) (cw : t) : t := AddEntry (MkEntry channel value true "" None) cw.
Definition WriteNode (node channel : string) (value : val) (cw : t) : t :=
  AddEntry (MkEntry channel value false node None) cw.
Definition Clear (cw : t) : t := Mk [] (transformer cw) (validator cw).
Definition EntryCount (cw : t) : nat := length (entries cw).
Definition GetEntries (cw : t) : list ChannelWriteEntry := entries cw.

(** The entry to apply. *)
Definition prepare (cw : t) (e : ChannelWriteEntry) (h : metadata_store)
  : result write_error ChannelWriteEntry * metadata_store :=
  match (match validator cw with Some v => v e | None => None end) with
  | Some err => (Err (WWrapf ("validation failed for channel " +:+ EChannel e) err), h)
  | None =>
      match transformer cw with
      | None => (Ok e, h)
      | Some f =>
          match f e h with
          | (Ok e', h) => (Ok e', h)
          | (Err err, h) => (Err (WWrapf ("transformation failed for channel " +:+ EChannel e) err), h)
          end
      end
  end.

Definition written_value (e : ChannelWriteEntry) : val := if EOverwrite e then NewOverwrite (EValue e) else EValue e.

(** One iteration of [Write]: was the channel updated? *)
Definition write_entry (e : ChannelWriteEntry) (reg : registry) : result write_error bool * registry :=
  match reg !! EChannel e with
  | None => (Err (ChannelError (Errorf ("channel not found: " +:+ EChannel e))), reg)
  | Some c =>
      let '(u, c) := Update [written_value e] c in
      (match u with
       | Ok b => Ok b
       | Err err => Err (ChannelError (Wrapf ("failed to update channel " +:+ EChannel e) err))
       end, <[EChannel e := c]> reg)
  end.

(** [updated] is the set of the channels that said they changed. *)
Fixpoint write_entries (cw : t) (es : list ChannelWriteEntry) (updated : gset string) (reg : registry) (h : metadata_store)
  : result write_error (gset string) * registry * metadata_store :=
  match es with
  | [] => (Ok updated, reg, h)
  | e :: es =>
      match prepare cw e h with
      | (Err err, h) => (Err err, reg, h)
      | (Ok e', h) =>
          match write_entry e' reg with
          | (Err err, reg) => (Err err, reg, h)
          | (Ok b, reg) => write_entries cw es (if b then {[EChannel e']} ∪ updated else updated) reg h
          end
      end
  end.

(** The entries are cleared when all of them were written. *)
Definition Write (cw : t) (reg : registry) (h : metadata_store)
  : result write_error (gset string) * t * registry * metadata_store :=
  match write_entries cw (entries cw) ∅ reg h with
  | (Ok updated, reg, h) => (Ok updated, Clear cw, reg, h)
  | (Err err, reg, h) => (Err err, cw, reg, h)
  end.
End ChannelWrite.

(** ** Batches *)
Module WriteBatch.
Definition t : Type := list ChannelWriteEntry.
Definition New : t := [].
Definition Add (e : ChannelWriteEntry) (b : t) : t := b ++ [e].
Definition WriteTo (channel : string) (value : val) (b : t) : t := Add (MkEntry channel value false "" None) b.
Definition Overwrite (channel : string) (value : val) (b : t) : t := Add (MkEntry channel value true "" None) b.
Definition Entries (b : t) : list ChannelWriteEntry := b.
Definition Size (b : t) : nat := length b.
Definition Clear (b : t) : t := [].
End WriteBatch.

Module WriteContext.
Record t : Type := Mk { Node : string; Step : Z; Writer : ChannelWrite.t; Batches : gmap string WriteBatch.t }.

Definition New (node : string) (step : Z) (writer : ChannelWrite.t) : t := Mk node step writer ∅.
Definition CreateBatch (name : string) (wc : t) : t :=
  Mk (Node wc) (Step wc) (Writer wc) (<[name := WriteBatch.New]> (Batches wc)).
Definition GetBatch (name : string) (wc : t) : option WriteBatch.t := Batches wc !! name.
(** A batch is a pointer: what is added to it is seen through the context. *)
Definition change_batch (name : string) (f : WriteBatch.t → WriteBatch.t) (wc : t) : t :=
  Mk (Node wc) (Step wc) (Writer wc) (alter f name (Batches wc)).

(** [ord] is the order of the loop over the batches, which keep their entries. *)
Definition Flush (ord : list (string * WriteBatch.t)) (wc : t) (reg : registry) (h : metadata_store)
  : result write_error (gset string) * t * registry * metadata_store :=
  let writer := foldl (λ cw nb, ChannelWrite.AddEntries (WriteBatch.Entries nb.2) cw) (Writer wc) ord in
  let '(r, writer, reg, h) := ChannelWrite.Write writer reg h in
  (r, Mk (Node wc) (Step wc) writer (Batches wc), reg, h).
End WriteContext.

(** * Properties *)

(** ** Versions

    No channel changes its version by being updated. *)
Lemma leaf_update_version vs (l : leaf) : GetVersion (Update vs l).2 = GetVersion l.
Proof.
  destruct l as [c|c|c|c|c|c|c|c|c]; destruct c; cbv [Update GetVersion leaf_channel leaf_step leaf_read]; cbn;
    unfold LastValue.Update, AnyValue.Update, EphemeralValue.Update, UntrackedValue.Update, Topic.Update,
      NamedBarrierValue.Update, NamedBarrierValueAfterFinish.Update, LastValueAfterFinish.Update,
      BinaryOperatorAggregate.Update; cbn; case_all; done.
Qed.

Lemma leaf_get_version (l : leaf) : GetVersion (Channels.Get l).2 = GetVersion l.
Proof.
  destruct l as [c|c|c|c|c|c|c|c|c]; destruct c; cbv [Channels.Get GetVersion leaf_channel leaf_step leaf_read]; cbn;
    unfold LastValue.Get, AnyValue.Get, EphemeralValue.Get, UntrackedValue.Get, Topic.Get,
      NamedBarrierValue.Get, NamedBarrierValueAfterFinish.Get, LastValueAfterFinish.Get,
      BinaryOperatorAggregate.Get; cbn; case_all; done.
Qed.

Lemma reducer_update_version rs vs (l : leaf) : GetVersion (reducer_Update rs vs l).2 = GetVersion l.
Proof.
  revert vs l. induction rs as [|f rs IH]; intros vs l; [apply leaf_update_version|]. cbn [reducer_Update].
  destruct vs as [|v vs]; [done|]. pose proof (leaf_get_version l) as Hg.
  destruct (Channels.Get l) as [current l1]. by rewrite IH.
Qed.

Lemma channel_update_version vs (c : channel) : GetVersion (Update vs c).2 = GetVersion c.
Proof.
  destruct c as [l rs]. pose proof (reducer_update_version rs vs l) as Hr.
  change (Update vs (Ch l rs)) with (ch_step (reducer_Update rs vs) (Ch l rs)). unfold ch_step. cbn [ch_leaf ch_reducers].
  by destruct (reducer_Update rs vs l).
Qed.

(** ** Writing *)

(** The state of one channel after a list of values, each an update of its own. *)
Definition updates (vs : list val) (c : channel) : channel := foldl (λ c v, (Update [v] c).2) c vs.

Definition values_for (k : string) (es : list ChannelWriteEntry) : list val :=
  ChannelWrite.written_value <$> filter (λ e, EChannel e = k) es.

Lemma write_entry_lookup e reg k :
  (ChannelWrite.write_entry e reg).2 !! k = updates (values_for k [e]) <$> reg !! k.
Proof.
  unfold ChannelWrite.write_entry, values_for. rewrite filter_cons, filter_nil.
  destruct (reg !! EChannel e) as [c|] eqn:Ec.
  - destruct (Update _ c) as [u c'] eqn:Eu. cbn [snd]. case_decide as Hk.
    + subst k. rewrite lookup_insert_eq, Ec. unfold updates. cbn [fmap list_fmap option_fmap option_map foldl]. by rewrite Eu.
    + rewrite lookup_insert_ne by done. by destruct (reg !! k).
  - cbn [snd]. case_decide as Hk; [subst k; by rewrite Ec|by destruct (reg !! k)].
Qed.

Lemma values_for_cons k e es : values_for k (e :: es) = values_for k [e] ++ values_for k es.
Proof. unfold values_for. rewrite (filter_cons _ e es), (filter_cons _ e []). by case_decide. Qed.

(** The writer turns each entry into [T e], or rejects it, whatever came before. *)
Definition prepares (cw : ChannelWrite.t) (T : ChannelWriteEntry → ChannelWriteEntry) : Prop :=
  ∀ e h, fst (ChannelWrite.prepare cw e h) = Ok (T e) ∨ ∃ err, fst (ChannelWrite.prepare cw e h) = Err err.

Lemma write_entries_spec cw T es updated reg h :
  prepares cw T →
  let '(r, reg', _) := ChannelWrite.write_entries cw es updated reg h in
  ∃ n, n ≤ length es ∧ (is_ok r = true → n = length es) ∧
    ∀ k, reg' !! k = updates (values_for k (take n (T <$> es))) <$> reg !! k.
Proof.
  intros HT. revert updated reg h. induction es as [|e es IH]; intros updated reg h.
  { cbn. exists 0. split_and!; [done..|]. intros k. cbn. by destruct (reg !! k). }
  cbn [ChannelWrite.write_entries]. assert (∀ k, reg !! k = updates (values_for k (take 0 (T <$> e :: es))) <$> reg !! k) as H0.
  { intros k. cbn. by destruct (reg !! k). }
  destruct (HT e h) as [E|[err E]]; destruct (ChannelWrite.prepare cw e h) as [r h'] eqn:Ep; cbn in E; subst r.
  2: { exists 0. split_and!; [lia|done|done]. }
  pose proof (write_entry_lookup (T e) reg) as Hl.
  destruct (ChannelWrite.write_entry (T e) reg) as [[b|err] reg1] eqn:Ew; cbn [snd] in Hl.
  - specialize (IH (if b then {[EChannel (T e)]} ∪ updated else updated) reg1 h').
    destruct (ChannelWrite.write_entries cw es _ reg1 h') as [[r reg'] h'']. destruct IH as (n & Hn & Hok & Hk).
    exists (S n). split; [cbn; lia|]. split; [intros Hr; cbn; by rewrite Hok|].
    intros k. rewrite Hk, Hl, fmap_cons. cbn [take]. rewrite (values_for_cons k (T e) (take _ _)). unfold updates.
    destruct (reg !! k); cbn [fmap option_fmap option_map]; [|done]. by rewrite foldl_app.
  - exists 1. split; [cbn; lia|]. split; [done|]. intros k. rewrite Hl. done.
Qed.

(** Writing is a prefix: every channel gets the values of its entries one after
    the other, each as an update of its own, up to the first entry that is
    rejected or fails; then the entries are kept, although those before it have
    been applied, and otherwise all are applied and the writer is empty. *)
Theorem Write_spec cw T reg h :
  prepares cw T →
  let '(r, cw', reg', _) := ChannelWrite.Write cw reg h in
  ∃ n, n ≤ length (ChannelWrite.entries cw) ∧
    (∀ k, reg' !! k = updates (values_for k (take n (T <$> ChannelWrite.entries cw))) <$> reg !! k) ∧
    match r with
    | Ok _ => n = length (ChannelWrite.entries cw) ∧ cw' = ChannelWrite.Clear cw
    | Err _ => cw' = cw
    end.
Proof.
  intros HT. unfold ChannelWrite.Write.
  pose proof (write_entries_spec cw T (ChannelWrite.entries cw) ∅ reg h HT) as Hs.
  destruct (ChannelWrite.write_entries _ _ _ _ _) as [[[u|err] reg'] h']; destruct Hs as (n & Hn & Hok & Hk); exists n.
  - split; [done|]. split; [done|]. split; [by apply Hok|done].
  - split_and!; done.
Qed.

Lemma updates_version vs c : GetVersion (updates vs c) = GetVersion c.
Proof.
  unfold updates. revert c. induction vs as [|v vs IH]; intros c; [done|]. cbn [foldl]. by rewrite IH, channel_update_version.
Qed.

(** A trigger for changes of a channel does not see the writes of a writer:
    once it has fired, it stays silent however much is written, because only
    the engine advances the versions it compares. *)
Theorem changed_trigger_misses_writes cw T reg h t channel last :
  prepares cw T →
  ShouldTrigger reg (ChannelChangedTrigger channel last) = (true, t) →
  (∃ c, reg !! channel = Some c ∧ (0 ≤ GetVersion c)%Z) →
  let '(_, _, reg', _) := ChannelWrite.Write cw reg h in ShouldTrigger reg' t = (false, t).
Proof.
  intros HT Hfire (c & Hc & Hv). unfold ChannelWrite.Write.
  pose proof (write_entries_spec cw T (ChannelWrite.entries cw) ∅ reg h HT) as Hs.
  assert (t = ChannelChangedTrigger channel (GetVersion c)) as ->.
  { cbn in Hfire. rewrite Hc in Hfire. rewrite (proj2 (Z.leb_le _ _)), (proj2 (Z.ltb_ge _ _)) in Hfire by done. cbn in Hfire.
    destruct (negb _); [by injection Hfire as <-|done]. }
  destruct (ChannelWrite.write_entries _ _ _ _ _) as [[[u|err] reg'] h']; destruct Hs as (n & _ & _ & Hk);
    specialize (Hk channel); rewrite Hc in Hk; cbn [fmap option_fmap option_map] in Hk;
    unfold ShouldTrigger; rewrite Hk, updates_version, Z.eqb_refl, andb_false_r, (proj2 (Z.ltb_ge _ _)) by done; done.
Qed.


(** ** Reading *)
Lemma read_values_stable names reg values :
  stable reg →
  ChannelRead.read_values names reg values = (foldl (see reg) values names, reg).
Proof.
  intros Hst. revert values. induction names as [|name names IH]; intros values; [done|]. cbn [ChannelRead.read_values foldl].
  unfold see at 2. destruct (reg !! name) as [c|] eqn:Hc; [|apply IH]. pose proof (Hst name c Hc) as Ha.
  unfold after_read in Ha. destruct (Channels.Get c) as [v c'] eqn:Hg. cbn in Ha. subst c'.
  rewrite insert_id by done. rewrite IH. cbn. unfold read_value. rewrite Hg. by destruct v.
Qed.

Lemma see_lookup reg names values k :
  foldl (see reg) values names !! k =
  match (if decide (k ∈ names) then reg !! k ≫= read_value else None) with Some v => Some v | None => values !! k end.
Proof.
  revert values. induction names as [|name names IH]; intros values; [done|]. cbn [foldl]. rewrite IH. unfold see.
  destruct (decide (k ∈ names)) as [Hk|Hk].
  - rewrite (decide_True (P := k ∈ name :: names)) by by right.
    destruct (reg !! k ≫= read_value) eqn:E; [done|].
    destruct (decide (name = k)) as [->|Hne]; [by rewrite E|].
    destruct (reg !! name ≫= read_value); [by rewrite lookup_insert_ne|done].
  - destruct (decide (name = k)) as [->|Hne].
    + rewrite decide_True by left. destruct (reg !! k ≫= read_value); [by rewrite lookup_insert_eq|done].
    + rewrite decide_False by (by intros [?|?]%elem_of_cons). destruct (reg !! name ≫= read_value); [by rewrite lookup_insert_ne|done].
Qed.

(** A reader gives its transformer the values of exactly the selected channels
    that can be read, in whatever order they are visited, and leaves channels
    that are not consumed by reading as they are. *)
Theorem Read_spec names cr selected reg :
  stable reg → ChannelRead.selector cr names reg = Ok selected →
  ∃ values, (∀ k, values !! k = if decide (k ∈ selected) then reg !! k ≫= read_value else None) ∧
    ChannelRead.Read names cr reg =
    (match ChannelRead.transformer cr with
     | None => Ok values
     | Some f => match f values with Ok values => Ok values | Err e => Err (Wrapf "channel transformation failed" e) end
     end, reg).
Proof.
  intros Hst Hs. exists (foldl (see reg) ∅ selected). split.
  - intros k. rewrite see_lookup. destruct (decide _); [|done]. by destruct (reg !! k ≫= read_value).
  - unfold ChannelRead.Read. rewrite Hs, read_values_stable by done. by destruct (ChannelRead.transformer cr).
Qed.

(** A filter does not skip entries: an entry it turns down fails the write. *)
Lemma filter_fails cw p e es reg h :
  ChannelWrite.entries cw = e :: es → ChannelWrite.validator cw = None →
  ChannelWrite.transformer cw = Some (FilterWriteTransformer (Some p)) → p e = false →
  ChannelWrite.Write cw reg h =
  (Err (WWrapf ("transformation failed for channel " +:+ EChannel e) (WriteSkipError (EChannel e))), cw, reg, h).
Proof.
  intros He Hv Ht Hp. unfold ChannelWrite.Write. rewrite He. cbn [ChannelWrite.write_entries].
  unfold ChannelWrite.prepare. rewrite Hv, Ht. unfold FilterWriteTransformer. by rewrite Hp.
Qed.

(** ** Examples and witnesses *)
Section witnesses.
Definition io_registry : registry :=
  {["n" := Leaf (LBinaryOperatorAggregate (BinaryOperatorAggregate.New (VInt 0) IntAdd)); "x" := NewLastValue VNil]}.

Definition value_of (k : string) (reg : registry) : option val := reg !! k ≫= read_value.

(** A writer that fails on its second entry, and is asked to write again: the
    first entry counts twice. *)
Definition half_written : ChannelWrite.t :=
  ChannelWrite.WriteTo "missing" VNil (ChannelWrite.WriteTo "n" (VInt 5) (ChannelWrite.New [])).

Example retried_write :
  let '(r, cw, reg, h) := ChannelWrite.Write half_written io_registry ∅ in
  let '(_, _, reg', _) := ChannelWrite.Write cw reg h in
  is_ok r = false ∧ value_of "n" reg = Some (VInt 5) ∧ value_of "n" reg' = Some (VInt 10).
Proof. vm_compute. split_and!; reflexivity. Qed.

(** Flushing twice writes the batches twice. *)
Definition one_batch : WriteContext.t :=
  WriteContext.change_batch "b" (WriteBatch.WriteTo "n" (VInt 5))
    (WriteContext.CreateBatch "b" (WriteContext.New "node" 0 (ChannelWrite.New []))).

Example flushed_twice :
  let flush wc := WriteContext.Flush (map_to_list (WriteContext.Batches wc)) wc in
  let '(_, wc, reg, h) := flush one_batch io_registry ∅ in
  let '(_, _, reg', _) := flush wc reg h in
  value_of "n" reg = Some (VInt 5) ∧ value_of "n" reg' = Some (VInt 10).
Proof. vm_compute. split; reflexivity. Qed.

(** [Overwrite] of a channel that is not an aggregate stores the wrapper. *)
Example overwritten_last_value :
  let '(_, _, reg, _) := ChannelWrite.Write (ChannelWrite.Overwrite "x" (VInt 1) (ChannelWrite.New [])) io_registry ∅ in
  value_of "x" reg = Some (NewOverwrite (VInt 1)).
Proof. vm_compute. reflexivity. Qed.

(** Adding metadata changes the entry it was given, and what shares its map. *)
Example metadata_is_shared :
  let e := MkEntry "x" (VInt 1) false "" (Some 0) in
  snd (MetadataWriteTransformer (λ _, 9) {["k" := VInt 1]} e {[0 := ∅]}) = {[0 := {["k" := VInt 1]}]}.
Proof. vm_compute. reflexivity. Qed.

Lemma counting_prepares : prepares (ChannelWrite.WriteTo "n" (VInt 5) (ChannelWrite.New [])) (λ e, e).
Proof. intros e h. left. reflexivity. Defined.

Lemma Write_spec_witness :
  let '(r, cw', reg', _) := ChannelWrite.Write (ChannelWrite.WriteTo "n" (VInt 5) (ChannelWrite.New [])) io_registry ∅ in
  ∃ n, n ≤ 1 ∧
    (∀ k, reg' !! k = updates (values_for k (take n [MkEntry "n" (VInt 5) false "" None])) <$> io_registry !! k).
Proof.
  pose proof (Write_spec (ChannelWrite.WriteTo "n" (VInt 5) (ChannelWrite.New [])) (λ e, e) io_registry ∅ counting_prepares) as H.
  destruct (ChannelWrite.Write _ _ _) as [[[r cw'] reg'] h']. destruct H as (n & Hn & Hk & _).
  exists n. split; [exact Hn|exact Hk].
Defined.

Lemma changed_trigger_misses_writes_witness :
  let '(_, _, reg', _) := ChannelWrite.Write (ChannelWrite.WriteTo "n" (VInt 5) (ChannelWrite.New [])) io_registry ∅ in
  ShouldTrigger reg' (ChannelChangedTrigger "n" 0) = (false, ChannelChangedTrigger "n" 0).
Proof.
  apply (changed_trigger_misses_writes (ChannelWrite.WriteTo "n" (VInt 5) (ChannelWrite.New [])) (λ e, e) io_registry ∅
           (ChannelChangedTrigger "n" 0) "n" (-1)).
  - exact counting_prepares.
  - reflexivity.
  - eexists. split; [reflexivity|]. discriminate.
Defined.

Lemma Read_spec_witness :
  ∃ values, (∀ k, values !! k = if decide (k ∈ ["n"; "zz"]) then io_registry !! k ≫= read_value else None) ∧
    ChannelRead.Read [] (ChannelRead.WithSelector (λ _ _, Ok ["n"; "zz"]) (ChannelRead.New [])) io_registry =
    (Ok values, io_registry).
Proof.
  destruct (Read_spec [] (ChannelRead.WithSelector (λ _ _, Ok ["n"; "zz"]) (ChannelRead.New [])) ["n"; "zz"] io_registry)
    as (values & Hv & Hr).
  - intros k c Hk. unfold io_registry in Hk. apply lookup_insert_Some in Hk as [[<- <-]|[_ Hk]]; [reflexivity|].
    apply lookup_singleton_Some in Hk as [<- <-]. reflexivity.
  - reflexivity.
  - exists values. split; [exact Hv|exact Hr].
Defined.
End witnesses.
