(* ===== verification/Optimized.v ===== *)
(** * Priorities and dependencies (pregel/optimized.go)

    The structures an optimised engine adds to the engine: orders on tasks,
    a queue ordered by path length, the dependencies of tasks, the bumping of
    steps, and a second version of [applyWrites].  [sort.Slice] is not stable:
    it is an argument, of which the theorems say what they use. *)

From Stdlib Require Import Ascii.
From S2P Require Export Writes.

(** ** Orders

    Byte-wise comparison of strings, and of paths of the same length. *)
Definition int_sub (a b : Z) : Z := wrap64 (a - b).

Definition string_lt (a b : string) : bool := bool_decide (String.le a b ∧ a ≠ b).

Fixpoint compare_paths (p q : list string) : Z :=
  match p, q with
  | a :: p, b :: q => if decide (a = b) then compare_paths p q else if string_lt a b then -1 else 1
  | _, _ => 0
  end.

Definition path_length {A} (p : list A) : Z := Z.of_nat (length p).

Definition compareTaskPriority (t1 t2 : Task) : Z :=
  if decide (length (TPath t1) ≠ length (TPath t2)) then int_sub (path_length (TPath t1)) (path_length (TPath t2))
  else
    let c := compare_paths (TPath t1) (TPath t2) in
    if decide (c ≠ 0%Z) then c
    else if decide (TName t1 = TName t2) then 0 else if string_lt (TName t1) (TName t2) then -1 else 1.

Record TaskPriority : Type := NewTaskPriority { PName : string; PPath : list string; Priority : Z }.

Definition Compare (tp other : TaskPriority) : Z :=
  if decide (Priority tp ≠ Priority other) then int_sub (Priority tp) (Priority other)
  else if decide (length (PPath tp) ≠ length (PPath other)) then int_sub (path_length (PPath tp)) (path_length (PPath other))
  else compare_paths (PPath tp) (PPath other).

(** ** A queue ordered by the length of paths *)
Module PriorityTaskQueue.
Definition t : Type := list Task.
Definition New : t := [].

(** The new task moves in front of longer paths, from the back: on the reversed
    queue it is inserted before the first task whose path is not longer. *)
Fixpoint sift (task : Task) (back : list Task) : list Task :=
  match back with
  | [] => [task]
  | u :: back => if decide (length (TPath task) < length (TPath u)) then u :: sift task back else task :: u :: back
  end.
Definition Push (task : Task) (q : t) : t := rev (sift task (rev q)).
Definition Pop (q : t) : option Task * t := match q with [] => (None, []) | task :: q => (Some task, q) end.
Definition Len (q : t) : nat := length q.
End PriorityTaskQueue.

(** ** The optimised engine *)
Record OptimizedEngineConfig : Type := MkOptConfig { BumpStep_ : bool; FinishNotification_ : bool; TaskPriority_ : bool }.
Definition default_config : OptimizedEngineConfig := MkOptConfig true true true.

Record TaskWithPriority : Type := MkTWP { PTask : Task; TWPriority : Z; TWNamespace : string; TWPath : list string }.

(** [seenChannels] has a task when its map is not nil. *)
Record optimized : Type := MkOpt {
  opt_config : OptimizedEngineConfig;
  taskPriorityQueue : list TaskWithPriority;
  stepQueue : gmap Z (list string);
  seenChannels : gmap string (gset string);
  readyChannels : gset string;
  finishedTasks : gset string;
  taskDependencies : gmap string (list string);
  opt_versions : versions
}.

Definition NewPregelOptimizedEngine (config : option OptimizedEngineConfig) (current : option CP.t) : optimized :=
  MkOpt (default default_config config) [] ∅ ∅ ∅ ∅ ∅ (MkVersions current ∅ ∅).

Definition set_finished (f : gset string) (e : optimized) : optimized :=
  MkOpt (opt_config e) (taskPriorityQueue e) (stepQueue e) (seenChannels e) (readyChannels e) f (taskDependencies e) (opt_versions e).
Definition set_bumped (q : gmap Z (list string)) (s : gmap string (gset string)) (e : optimized) : optimized :=
  MkOpt (opt_config e) (taskPriorityQueue e) q s (readyChannels e) (finishedTasks e) (taskDependencies e) (opt_versions e).
Definition set_queue (q : list TaskWithPriority) (e : optimized) : optimized :=
  MkOpt (opt_config e) q (stepQueue e) (seenChannels e) (readyChannels e) (finishedTasks e) (taskDependencies e) (opt_versions e).
Definition set_channels (r : gset string) (v : versions) (e : optimized) : optimized :=
  MkOpt (opt_config e) (taskPriorityQueue e) (stepQueue e) (seenChannels e) r (finishedTasks e) (taskDependencies e) v.

(** [fromTask] depends on [toTask]. *)
Definition AddTaskDependency (fromTask toTask : string) (e : optimized) : optimized :=
  MkOpt (opt_config e) (taskPriorityQueue e) (stepQueue e) (seenChannels e) (readyChannels e) (finishedTasks e)
    (<[toTask := default [] (taskDependencies e !! toTask) ++ [fromTask]]> (taskDependencies e)) (opt_versions e).
Definition GetTaskDependencies (task : string) (e : optimized) : list string := default [] (taskDependencies e !! task).
Definition IsTaskReady (task : string) (e : optimized) : bool :=
  forallb (λ dep, bool_decide (dep ∈ finishedTasks e)) (GetTaskDependencies task e).
Definition ClearFinishedTasks (e : optimized) : optimized := set_finished ∅ e.
Definition GetFinishedTasks (ord : list string) : list string := ord.
Definition hasSeenChannel (task channel : string) (e : optimized) : bool :=
  match seenChannels e !! task with Some s => bool_decide (channel ∈ s) | None => false end.
Definition Reset (e : optimized) : optimized :=
  MkOpt (opt_config e) [] ∅ ∅ ∅ ∅ (taskDependencies e) (opt_versions e).

(** One dependent task of [BumpStep]. *)
Definition bump_one (completedStep : Z) (updatedChannels : gset string) (e : optimized) (depTask : string) : optimized :=
  let ready := match seenChannels e !! depTask with Some s => bool_decide (updatedChannels ⊆ s) | None => true end in
  if ready then
    let next := int_add completedStep 1 in
    set_bumped (<[next := default [] (stepQueue e !! next) ++ [depTask]]> (stepQueue e))
      (<[depTask := default ∅ (seenChannels e !! depTask) ∪ updatedChannels]> (seenChannels e)) e
  else e.

Definition BumpStep (taskName : string) (completedStep : Z) (updatedChannels : gset string) (e : optimized) : optimized :=
  let e := set_finished ({[taskName]} ∪ finishedTasks e) e in
  foldl (bump_one completedStep updatedChannels) e (GetTaskDependencies taskName e).

(** [ExecuteTaskWithPriority]: the task is queued and run with no input. *)
Definition ExecuteTaskWithPriority (ctx : context) (task : Task) (priority : Z) (ns : string) (e : optimized)
  : outcome * optimized :=
  (call (Func task) ctx 0 VNil,
   set_queue (taskPriorityQueue e ++ [MkTWP task priority ns [ns; TName task]]) e).

Definition queue_priority (t : TaskWithPriority) : TaskPriority := NewTaskPriority (TName (PTask t)) (TWPath t) (TWPriority t).

Definition GetNextPriorityTask (sort_slice : list TaskWithPriority → list TaskWithPriority) (e : optimized)
  : option TaskWithPriority * optimized :=
  match taskPriorityQueue e with
  | [] => (None, e)
  | q => match sort_slice q with
         | [] => (None, e)
         | t :: q => (Some t, set_queue q e)
         end
  end.

(** ** OptimizedApplyWrites *)
Record OptTaskResult : Type := MkOptResult { ORes : TaskResult; OPath : list string }.

Definition collect_output (values : list (string * val)) (acc : gmap string (list val)) : gmap string (list val) :=
  foldl (λ acc kv, if is_nil kv.2 then acc else <[kv.1 := default [] (acc !! kv.1) ++ [kv.2]]> acc) acc values.

(** The first loop; [ord] is the order of the loop over one output. *)
Fixpoint collect_outputs (ord : gmap string val → list (string * val)) (results : list OptTaskResult)
    (acc : gmap string (list val)) : res (gmap string (list val)) :=
  match results with
  | [] => Ok acc
  | r :: results =>
      match RErr (ORes r) with
      | Some _ => collect_outputs ord results acc
      | None =>
          match toMap (ROutput (ORes r)) with
          | Err e => Err (Wrapf "failed to convert output to map" e)
          | Ok m => collect_outputs ord results (collect_output (ord m) acc)
          end
      end
  end.

(** The second loop; a name without channel is passed over. *)
Fixpoint update_written (ord : list (string * list val)) (reg : registry) (updated : gset string) (e : optimized)
  : res (gset string) * registry * optimized :=
  match ord with
  | [] => (Ok updated, reg, e)
  | (name, values) :: ord =>
      match reg !! name with
      | None => update_written ord reg updated e
      | Some c =>
          let '(u, c) := Update values c in
          let reg := <[name := c]> reg in
          match u with
          | Err err => (Err (Wrapf ("failed to update channel " +:+ name) err), reg, e)
          | Ok false => update_written ord reg updated e
          | Ok true =>
              update_written ord reg ({[name]} ∪ updated)
                (set_channels ({[name]} ∪ readyChannels e)
                   (if BumpStep_ (opt_config e) then bump name (opt_versions e) else opt_versions e) e)
          end
      end
  end.

Definition finish_all (reg : registry) : registry := (λ c, (Finish c).2) <$> reg.

Definition OptimizedApplyWrites (sort_slice : list OptTaskResult → list OptTaskResult)
    (ord : gmap string val → list (string * val)) (ordw : gmap string (list val) → list (string * list val))
    (results : list OptTaskResult) (triggers : gset string) (reg : registry) (e : optimized)
  : res (gset string) * registry * optimized :=
  match collect_outputs ord (sort_slice results) ∅ with
  | Err err => (Err err, reg, e)
  | Ok writesByChannel =>
      match update_written (ordw writesByChannel) reg ∅ e with
      | (Err err, reg, e) => (Err err, reg, e)
      | (Ok updated, reg, e) =>
          (Ok updated,
           if FinishNotification_ (opt_config e) && bool_decide (updated ≠ ∅) && bool_decide (triggers ⊆ updated)
           then finish_all reg else reg, e)
      end
  end.

(** ** What the queue promises

    The tasks in the order they came in; the one taken out is, of those with
    the shortest path, the one that came first. *)
Inductive queue_op := OpPush (task : Task) | OpPop.

Definition run_op (o : queue_op) (q : PriorityTaskQueue.t) : option Task * PriorityTaskQueue.t :=
  match o with OpPush t => (None, PriorityTaskQueue.Push t q) | OpPop => PriorityTaskQueue.Pop q end.

Fixpoint shortest (s : list Task) : nat :=
  match s with [] => 0 | [t] => length (TPath t) | t :: s => min (length (TPath t)) (shortest s) end.

Fixpoint take_first (n : nat) (s : list Task) : option Task * list Task :=
  match s with
  | [] => (None, [])
  | t :: s => if decide (length (TPath t) = n) then (Some t, s) else let '(o, s) := take_first n s in (o, t :: s)
  end.

Definition spec_op (o : queue_op) (s : list Task) : option Task * list Task :=
  match o with OpPush t => (None, s ++ [t]) | OpPop => take_first (shortest s) s end.

(** The answers of a session. *)
Fixpoint answers {S} (step : queue_op → S → option Task * S) (ops : list queue_op) (s : S) : list (option Task) :=
  match ops with [] => [] | o :: ops => let '(a, s) := step o s in a :: answers step ops s end.

(** * Properties *)

(** ** The queue *)
Definition before (a b : Task) : Prop := length (TPath a) ≤ length (TPath b).
Definition level (n : nat) (q : list Task) : list Task := filter (λ t, length (TPath t) = n) q.

(** A queue holds shorter paths first. *)
Definition ordered (q : list Task) : Prop := Sorted before q.

Lemma sift_split task back :
  ∃ front rest, back = front ++ rest ∧ PriorityTaskQueue.sift task back = front ++ task :: rest ∧
    Forall (λ u, length (TPath task) < length (TPath u)) front ∧
    match rest with [] => True | u :: _ => length (TPath u) ≤ length (TPath task) end.
Proof.
  induction back as [|u back (front & rest & -> & E & Hf & Hr)]; [by exists [], []|]. cbn [PriorityTaskQueue.sift].
  destruct (decide _) as [Hlt|Hge].
  - exists (u :: front), rest. rewrite E. split_and!; [done..|by constructor|done].
  - exists [], (u :: front ++ rest). split_and!; [done..|constructor|lia].
Qed.

(** Pushing puts a task behind all that are not longer. *)
Lemma Push_split task q :
  ordered q → ∃ front rest, q = front ++ rest ∧ PriorityTaskQueue.Push task q = front ++ task :: rest ∧
    Forall (λ u, length (TPath u) ≤ length (TPath task)) front ∧ Forall (λ u, length (TPath task) < length (TPath u)) rest.
Proof.
  intros Hq. destruct (sift_split task (rev q)) as (back & front & Hrev & E & Hb & Hf).
  exists (rev front), (rev back). assert (q = rev front ++ rev back) as Hsplit.
  { rewrite <-rev_app_distr, <-Hrev. by rewrite rev_involutive. }
  split; [done|]. split; [|split].
  - unfold PriorityTaskQueue.Push. rewrite E, rev_app_distr. cbn. by rewrite <-(assoc_L (++)).
  - destruct front as [|u front]; [constructor|]. cbn [rev] in *. subst q.
    apply Sorted_StronglySorted in Hq; [|intros a b c; unfold before; lia].
    apply StronglySorted_app_1_l in Hq as Hq1. apply Forall_app. split; [|by repeat constructor].
    apply Forall_forall. intros v Hv. rewrite StronglySorted_app in Hq1. destruct Hq1 as (Hall & _).
    specialize (Hall v u Hv ltac:(left)). unfold before in Hall. lia.
  - by apply Forall_rev.
Qed.

Lemma level_app n q q' : level n (q ++ q') = level n q ++ level n q'.
Proof. apply filter_app. Qed.

Lemma level_none n q : Forall (λ t, length (TPath t) ≠ n) q → level n q = [].
Proof. induction 1 as [|t q Ht _ IH]; [done|]. unfold level. by rewrite filter_cons_False. Qed.

Lemma Push_level task q n : ordered q → level n (PriorityTaskQueue.Push task q) = level n (q ++ [task]).
Proof.
  intros Hq. destruct (Push_split task q Hq) as (front & rest & -> & -> & Hf & Hr).
  rewrite !level_app. rewrite <-(assoc_L (++)). f_equal. change (task :: rest) with ([task] ++ rest). rewrite level_app.
  destruct (decide (n = length (TPath task))) as [->|Hn].
  - rewrite (level_none _ rest), app_nil_r; [done|]. eapply Forall_impl; [exact Hr|]. cbn. lia.
  - rewrite (level_none n [task]) by (repeat constructor; congruence). by rewrite app_nil_r.
Qed.

Lemma Push_ordered task q : ordered q → ordered (PriorityTaskQueue.Push task q).
Proof.
  intros Hq. destruct (Push_split task q Hq) as (front & rest & -> & -> & Hf & Hr).
  apply Sorted_StronglySorted in Hq; [|intros a b c; unfold before; lia]. apply StronglySorted_app in Hq as (Hall & H1 & H2).
  apply StronglySorted_Sorted, StronglySorted_app. split; [|split; [done|]].
  - intros x y Hx Hy. rewrite Forall_forall in Hf, Hr. specialize (Hf x Hx). unfold before.
    apply elem_of_cons in Hy as [->|Hy]; [done|]. specialize (Hr y Hy). cbn in *. lia.
  - constructor; [done|]. eapply Forall_impl; [exact Hr|]. intros u Hu. unfold before. cbn in Hu. lia.
Qed.

Lemma shortest_spec s t : t ∈ s → shortest s ≤ length (TPath t) ∧ ∃ u, u ∈ s ∧ length (TPath u) = shortest s.
Proof.
  revert t. induction s as [|v s IH]; intros t Ht; [by apply elem_of_nil in Ht|]. destruct s as [|w s].
  - apply list_elem_of_singleton in Ht as ->. cbn. split; [done|]. exists v. split; [left|done].
  - destruct (IH w ltac:(left)) as (_ & u & Hu & Eu).
    change (shortest (v :: w :: s)) with (min (length (TPath v)) (shortest (w :: s))). split.
    + apply elem_of_cons in Ht as [->|Ht]; [lia|]. destruct (IH t Ht) as [? _]. lia.
    + destruct (decide (length (TPath v) ≤ shortest (w :: s))); [exists v; split; [left|lia]|exists u; split; [by right|lia]].
Qed.

Lemma take_first_spec m s :
  (∃ u, u ∈ s ∧ length (TPath u) = m) →
  ∃ t s', take_first m s = (Some t, s') ∧ level m s = t :: level m s' ∧ ∀ n, n ≠ m → level n s' = level n s.
Proof.
  induction s as [|v s IH]; intros (u & Hu & Eu); [by apply elem_of_nil in Hu|]. cbn [take_first].
  destruct (decide (length (TPath v) = m)) as [Ev|Ev].
  - exists v, s. split; [done|]. unfold level. split; [by rewrite filter_cons_True|].
    intros n Hn. rewrite filter_cons_False; [done|congruence].
  - destruct IH as (t & s' & E & El & Ho). { exists u. split; [|done]. apply elem_of_cons in Hu as [->|?]; [done|done]. }
    rewrite E. exists t, (v :: s'). split; [done|]. unfold level in *. split; [by rewrite !filter_cons_False|].
    intros n Hn. rewrite !filter_cons. by rewrite Ho.
Qed.

(** The queue and the tasks in order of arrival agree on every path length. *)
Definition represents (q s : list Task) : Prop := ordered q ∧ ∀ n, level n q = level n s.

Lemma represents_elem q s t : represents q s → t ∈ q ↔ t ∈ s.
Proof.
  intros [_ H]. specialize (H (length (TPath t))). unfold level in H.
  assert (∀ l : list Task, t ∈ l ↔ t ∈ filter (λ u, length (TPath u) = length (TPath t)) l) as Hl.
  { intros l. rewrite list_elem_of_filter. tauto. }
  by rewrite (Hl q), (Hl s), H.
Qed.

Lemma run_op_refines o q s : represents q s →
  (run_op o q).1 = (spec_op o s).1 ∧ represents (run_op o q).2 (spec_op o s).2.
Proof.
  intros Hrep. pose proof Hrep as [Hq Hl]. destruct o as [t|].
  - split; [done|]. split; [by apply Push_ordered|]. intros n.
    change (level n (PriorityTaskQueue.Push t q) = level n (s ++ [t])). by rewrite Push_level, !level_app, Hl.
  - cbn [run_op spec_op PriorityTaskQueue.Pop]. destruct q as [|t q].
    + assert (s = []) as ->; [|by split]. destruct s as [|u s]; [done|]. exfalso.
      assert (u ∈ []) as Hu by (apply (represents_elem [] (u :: s)); [done|left]). by apply elem_of_nil in Hu.
    + apply Sorted_StronglySorted in Hq as Hss; [|intros a b c; unfold before; lia].
      apply StronglySorted_inv in Hss as [Hss Hmin]. rewrite Forall_forall in Hmin.
      assert (t ∈ s) as Hts by (apply (represents_elem _ _ t Hrep); left).
      destruct (shortest_spec s t Hts) as (Hle & u & Hu & Eu).
      assert (shortest s = length (TPath t)) as Em.
      { apply (represents_elem _ _ u Hrep), elem_of_cons in Hu as [->|Hu]; [done|].
        specialize (Hmin u Hu). unfold before in Hmin. lia. }
      destruct (take_first_spec (shortest s) s) as (t' & s' & E & El & Ho); [by exists u|]. rewrite E. cbn.
      assert (∀ n, level n (t :: q) = if decide (n = length (TPath t)) then t :: level n q else level n q) as Hc.
      { intros n. unfold level. destruct (decide (n = length (TPath t))) as [->|Hn]; [by rewrite filter_cons_True|].
        by rewrite filter_cons_False. }
      pose proof (Hl (shortest s)) as Hm. rewrite Hc, El, decide_True in Hm by done. injection Hm as <- Hm.
      split; [done|]. split; [by apply StronglySorted_Sorted|]. intros n.
      destruct (decide (n = shortest s)) as [->|Hn]; [done|]. rewrite Ho by done. rewrite <-Hl, Hc, decide_False; [done|congruence].
Qed.

(** The queue answers every session of pushes and pops like the list of the
    tasks in order of arrival from which the first of the shortest paths is
    taken: shorter paths first, and first come first served among equals. *)
Theorem queue_refines ops : answers run_op ops PriorityTaskQueue.New = answers spec_op ops [].
Proof.
  assert (represents PriorityTaskQueue.New []) as Hrep by (split; [constructor|done]).
  revert Hrep. generalize PriorityTaskQueue.New ([] : list Task). induction ops as [|o ops IH]; intros q s Hrep; [done|].
  cbn [answers]. destruct (run_op_refines o q s Hrep) as [Ha Hr].
  destruct (run_op o q) as [a q'], (spec_op o s) as [b s']. cbn in Ha, Hr. subst b. by rewrite (IH q' s').
Qed.

(** ** Orders *)
Definition small (z : Z) : Prop := (- (2 ^ 62) ≤ z < 2 ^ 62)%Z.

Lemma int_sub_small a b : small a → small b → int_sub a b = (a - b)%Z.
Proof. unfold small, int_sub. intros Ha Hb. apply wrap64_id. unfold in_int64, int_bound. lia. Qed.

Lemma string_lt_spec a b : string_lt a b = true ↔ String.le a b ∧ a ≠ b.
Proof. apply bool_decide_eq_true. Qed.

Lemma string_lt_trans a b c : string_lt a b = true → string_lt b c = true → string_lt a c = true.
Proof.
  rewrite !string_lt_spec. intros [H1 N1] [H2 N2]. split; [by transitivity b|].
  intros <-. apply N1. by apply (anti_symm String.le).
Qed.

Lemma string_lt_total a b : a ≠ b → string_lt a b = false → string_lt b a = true.
Proof.
  intros Hne Hab. apply string_lt_spec. split; [|done]. destruct (total String.le a b) as [Hle|]; [|done].
  exfalso. assert (string_lt a b = true) as Ht by by apply string_lt_spec. congruence.
Qed.

Lemma compare_paths_zero p q : length p = length q → compare_paths p q = 0%Z ↔ p = q.
Proof.
  revert q. induction p as [|a p IH]; intros [|b q] Hl; try done. cbn [compare_paths]. injection Hl as Hl.
  destruct (decide (a = b)) as [->|Hne]; [rewrite IH by done; split; [by intros ->|by intros [= ->]]|].
  destruct (string_lt a b); split; (lia || congruence).
Qed.

Lemma compare_paths_swap p q : length p = length q → (compare_paths p q < 0 ↔ 0 < compare_paths q p)%Z.
Proof.
  revert q. induction p as [|a p IH]; intros [|b q] Hl; try done. cbn [compare_paths]. injection Hl as Hl.
  destruct (decide (a = b)) as [->|Hne]; [rewrite decide_True by done; by apply IH|].
  rewrite decide_False by congruence. destruct (string_lt a b) eqn:E1, (string_lt b a) eqn:E2; try lia.
  - pose proof (string_lt_trans _ _ _ E1 E2) as H. apply string_lt_spec in H. by destruct H.
  - apply string_lt_total in E1; [congruence|done].
Qed.

Lemma compare_paths_trans p q r : length p = length q → length q = length r →
  (compare_paths p q < 0 → compare_paths q r < 0 → compare_paths p r < 0)%Z.
Proof.
  revert q r. induction p as [|a p IH]; intros [|b q] [|c r] H1 H2; try done. cbn [compare_paths].
  injection H1 as H1. injection H2 as H2.
  destruct (decide (a = b)) as [->|Hab], (decide (b = c)) as [->|Hbc].
  - by apply IH.
  - done.
  - by rewrite decide_False.
  - destruct (string_lt a b) eqn:E1, (string_lt b c) eqn:E2; try lia. intros _ _.
    pose proof (string_lt_trans _ _ _ E1 E2) as H. rewrite decide_False; [by rewrite H|].
    apply string_lt_spec in H. by destruct H.
Qed.

Lemma length_small {A} (p : list A) : (Z.of_nat (length p) < 2 ^ 62)%Z → small (path_length p).
Proof. unfold small, path_length. lia. Qed.

(** Priorities and path lengths whose differences do not overflow. *)
Definition sane (tp : TaskPriority) : Prop := small (Priority tp) ∧ small (path_length (PPath tp)).

Lemma Compare_cases a b : sane a → sane b →
  Compare a b = (if decide (Priority a = Priority b) then
                   if decide (length (PPath a) = length (PPath b)) then compare_paths (PPath a) (PPath b)
                   else path_length (PPath a) - path_length (PPath b)
                 else Priority a - Priority b)%Z.
Proof.
  intros [Ha Ha'] [Hb Hb']. unfold Compare.
  destruct (decide (Priority a = Priority b)); [rewrite decide_False by congruence|rewrite decide_True by done; by apply int_sub_small].
  destruct (decide (length (PPath a) = length (PPath b))); [by rewrite decide_False by congruence|].
  rewrite decide_True by done. by apply int_sub_small.
Qed.

(** Compare orders the tasks of the priority queue by priority, path length
    and path: as long as no difference overflows, being smaller is transitive
    and asymmetric, and zero means the same priority and path. *)
Theorem Compare_orders a b c : sane a → sane b → sane c →
  ((Compare a b < 0 ↔ 0 < Compare b a) ∧ (Compare a b < 0 → Compare b c < 0 → Compare a c < 0))%Z ∧
  (Compare a b = 0%Z ↔ Priority a = Priority b ∧ PPath a = PPath b).
Proof.
  intros Ha Hb Hc. rewrite !Compare_cases by done. unfold path_length. split; [split|].
  - repeat case_decide; try lia; try congruence. by apply compare_paths_swap.
  - repeat case_decide; try lia. by apply compare_paths_trans.
  - destruct (decide (Priority a = Priority b)) as [Hp|Hp]; [|lia].
    destruct (decide (length (PPath a) = length (PPath b))) as [Hl|Hl].
    + rewrite compare_paths_zero by done. naive_solver.
    + split; [lia|]. intros [_ H]. by rewrite H in Hl.
Qed.

(** The difference of far priorities overflows. *)
Example Compare_overflows :
  (0 < Compare (NewTaskPriority "low" [] (- int_bound)) (NewTaskPriority "high" [] 1))%Z.
Proof. vm_compute. reflexivity. Qed.

(** ** Dependencies *)

(** All dependencies added, each "[a] depends on [b]". *)
Definition with_dependencies (ds : list (string * string)) (e : optimized) : optimized :=
  foldl (λ e d, AddTaskDependency d.1 d.2 e) e ds.

Lemma dependencies_spec ds e t :
  GetTaskDependencies t (with_dependencies ds e) = GetTaskDependencies t e ++ (filter (λ d, d.2 = t) ds).*1 ∧
  finishedTasks (with_dependencies ds e) = finishedTasks e.
Proof.
  revert e. induction ds as [|[a b] ds IH]; intros e; [cbn; by rewrite app_nil_r|].
  change (with_dependencies ((a, b) :: ds) e) with (with_dependencies ds (AddTaskDependency a b e)).
  destruct (IH (AddTaskDependency a b e)) as [-> ->]. split; [|done]. rewrite filter_cons. unfold GetTaskDependencies, AddTaskDependency.
  cbn [taskDependencies fst snd]. destruct (decide (b = t)) as [->|Hne].
  - rewrite lookup_insert_eq. cbn. by rewrite <-(assoc_L (++)).
  - by rewrite lookup_insert_ne.
Qed.

(** Readiness is the wrong way round: a task is ready when the tasks that depend
    on it have finished, so of two tasks the one that depends on the other is
    ready at once, and the other only after it. *)
Theorem ready_after_dependents ds finished e t :
  taskDependencies e = ∅ →
  IsTaskReady t (set_finished finished (with_dependencies ds e)) = true ↔ ∀ a, (a, t) ∈ ds → a ∈ finished.
Proof.
  intros He. unfold IsTaskReady, set_finished, GetTaskDependencies. cbn.
  destruct (dependencies_spec ds e t) as [Hd _]. unfold GetTaskDependencies in Hd. rewrite Hd, He, lookup_empty. cbn.
  rewrite forallb_forall. split.
  - intros H a Ha. specialize (H a). apply bool_decide_eq_true in H; [done|].
    apply list_elem_of_In, list_elem_of_fmap. exists (a, t). by rewrite list_elem_of_filter.
  - intros H a Ha. apply bool_decide_eq_true. apply list_elem_of_In, list_elem_of_fmap in Ha as ([a' b] & -> & Ha).
    apply list_elem_of_filter in Ha as [Hb Ha]. cbn in Hb. subst b. by apply H.
Qed.

(** ** Bumping *)
Definition bumpable (U : gset string) (e : optimized) (d : string) : bool :=
  match seenChannels e !! d with Some s => bool_decide (U ⊆ s) | None => true end.

Lemma bump_all_spec step U deps e :
  let e' := foldl (bump_one step U) e deps in
  default [] (stepQueue e' !! int_add step 1) =
    default [] (stepQueue e !! int_add step 1) ++ filter (λ d, bumpable U e d = true) deps ∧
  (∀ d, seenChannels e' !! d =
     if decide (d ∈ deps ∧ bumpable U e d = true) then Some (default ∅ (seenChannels e !! d) ∪ U) else seenChannels e !! d) ∧
  (∀ i, i ≠ int_add step 1 → stepQueue e' !! i = stepQueue e !! i) ∧ finishedTasks e' = finishedTasks e.
Proof.
  revert e. induction deps as [|d deps IH]; intros e.
  { cbn. rewrite app_nil_r. split_and!; [done| |done..]. intros d. rewrite decide_False; [done|]. by intros [?%elem_of_nil _]. }
  cbn [foldl]. specialize (IH (bump_one step U e d)). revert IH.
  assert (bump_one step U e d = if bumpable U e d then
    set_bumped (<[int_add step 1 := default [] (stepQueue e !! int_add step 1) ++ [d]]> (stepQueue e))
      (<[d := default ∅ (seenChannels e !! d) ∪ U]> (seenChannels e)) e else e) as -> by reflexivity.
  destruct (bumpable U e d) eqn:Eb.
  2: { intros (Hq & Hs & Ho & Hf). rewrite filter_cons_False by by rewrite Eb. split_and!; [exact Hq| |exact Ho|exact Hf].
       intros x. rewrite Hs. apply decide_ext. rewrite elem_of_cons. split; [tauto|]. intros [[->|?] ?]; [congruence|tauto]. }
  set (e1 := set_bumped _ _ e). assert (∀ x, bumpable U e1 x = bumpable U e x) as Hsame.
  { intros x. unfold bumpable. cbn. destruct (decide (x = d)) as [->|Hne]; [|by rewrite lookup_insert_ne].
    rewrite lookup_insert_eq. unfold bumpable in Eb. destruct (seenChannels e !! d); rewrite ?Eb; apply bool_decide_eq_true; set_solver. }
  rewrite filter_cons_True by done. intros (Hq & Hs & Ho & Hf). split; [|split; [|split; [|exact Hf]]].
  - rewrite Hq. cbn [stepQueue e1 set_bumped]. rewrite lookup_insert_eq. unfold default, from_option, id.
    rewrite <-(assoc_L (++)). cbn. do 2 f_equal. apply list_filter_iff. intros x. by rewrite Hsame.
  - intros x. rewrite Hs, Hsame. cbn [seenChannels e1 set_bumped]. destruct (decide (x = d)) as [->|Hne].
    + rewrite !lookup_insert_eq, (decide_True (P := d ∈ d :: deps ∧ _)) by (split; [left|done]).
      destruct (decide _); [|done]. cbn. f_equal. set_solver.
    + rewrite !lookup_insert_ne by done. apply decide_ext. rewrite elem_of_cons. naive_solver.
  - intros i Hi. rewrite Ho by done. cbn. by rewrite lookup_insert_ne.
Qed.

(** Bumping puts into the next step exactly the dependents that have seen no
    channel yet or all the updated ones; a dependent that has seen some channels
    but not an updated one - the kind the bump is documented to be for - is left
    out, and does not come to see it either. *)
Theorem BumpStep_spec task step U e :
  let e' := BumpStep task step U e in
  let deps := GetTaskDependencies task e in
  default [] (stepQueue e' !! int_add step 1) =
    default [] (stepQueue e !! int_add step 1) ++ filter (λ d, bumpable U e d = true) deps ∧
  (∀ d, d ∈ deps → bumpable U e d = true → ∀ c, c ∈ U → hasSeenChannel d c e' = true) ∧
  (∀ d, bumpable U e d = false → seenChannels e' !! d = seenChannels e !! d) ∧
  finishedTasks e' = {[task]} ∪ finishedTasks e.
Proof.
  intros e' deps. destruct (bump_all_spec step U deps (set_finished ({[task]} ∪ finishedTasks e) e)) as (Hq & Hs & _ & Hf).
  split; [exact Hq|]. split; [|split; [|exact Hf]].
  - intros d Hd Hb c Hc. unfold hasSeenChannel. unfold e', BumpStep. rewrite Hs, decide_True by done.
    apply bool_decide_eq_true. set_solver.
  - intros d Hb. unfold e', BumpStep. rewrite Hs, decide_False; [done|]. intros [_ Hb']. unfold bumpable in *. cbn in Hb'. congruence.
Qed.

(** ** Writes *)

(** The written channels that are registered get one update each, with all the
    values of the step. *)
Lemma update_written_spec ord reg updated e :
  NoDup ord.*1 →
  let '(r, reg', _) := update_written ord reg updated e in
  is_ok r = true →
  ∀ k, reg' !! k = match (list_to_map ord : gmap string (list val)) !! k with
                   | Some vs => (λ c, (Update vs c).2) <$> reg !! k
                   | None => reg !! k
                   end.
Proof.
  revert reg updated e. induction ord as [|[name vs] ord IH]; intros reg updated e Hnd; [by intros _ k|].
  apply NoDup_cons in Hnd as [Hn Hnd]. cbn [update_written].
  assert (∀ reg0 updated e, (∀ k, k ≠ name → reg0 !! k = reg !! k) → reg0 !! name = (λ c, (Update vs c).2) <$> reg !! name →
    let '(r, reg', _) := update_written ord reg0 updated e in is_ok r = true →
    ∀ k, reg' !! k = match (list_to_map ((name, vs) :: ord) : gmap string (list val)) !! k with
                     | Some vs => (λ c, (Update vs c).2) <$> reg !! k
                     | None => reg !! k
                     end) as Hgo.
  { intros reg0 u0 e0 Ho Hname. specialize (IH reg0 u0 e0 Hnd). destruct (update_written ord reg0 u0 e0) as [[r reg'] e'].
    intros Hr k. rewrite (IH Hr k). cbn [list_to_map foldr]. destruct (decide (k = name)) as [->|Hne].
    - rewrite lookup_insert_eq, not_elem_of_list_to_map_1 by done. exact Hname.
    - by rewrite lookup_insert_ne, Ho by done. }
  destruct (reg !! name) as [c|] eqn:Hc; [|apply Hgo; [done|by rewrite Hc]].
  destruct (Update vs c) as [[[]|err] c'] eqn:Eu; [| |done];
    (apply Hgo; [intros k Hk; by rewrite lookup_insert_ne|rewrite lookup_insert_eq; cbn [fmap option_fmap option_map]; by rewrite Eu]).
Qed.

(** ** Examples and witnesses *)
Section witnesses.
Definition two_writers : list OptTaskResult :=
  [MkOptResult (MkResult "a" (VObj {["x" := VInt 1]}) None) []; MkOptResult (MkResult "b" (VObj {["x" := VInt 2]}) None) []].
Definition last_value_registry : registry := {["x" := NewLastValue VNil]}.

(** Two tasks that write one value channel: the engine keeps the last value,
    the optimised version fails. *)
Example two_writers_fail :
  let '(r, _, _) := OptimizedApplyWrites (λ l, l) map_to_list map_to_list two_writers ∅ last_value_registry
                      (NewPregelOptimizedEngine None None) in
  is_ok r = false.
Proof. vm_compute. reflexivity. Qed.

(** A task without output: the engine passes over it, the optimised version fails. *)
Example nil_output_fails :
  OptimizedApplyWrites (λ l, l) map_to_list map_to_list [MkOptResult (MkResult "a" VNil None) []] ∅ last_value_registry
    (NewPregelOptimizedEngine None None) =
  (Err (Wrapf "failed to convert output to map" (Errorf "nil value")), last_value_registry, NewPregelOptimizedEngine None None).
Proof. vm_compute. reflexivity. Qed.

Lemma Compare_orders_witness :
  (Compare (NewTaskPriority "a" ["n"; "a"] 1) (NewTaskPriority "b" ["n"; "b"] 1) < 0)%Z ∧
  (0 < Compare (NewTaskPriority "b" ["n"; "b"] 1) (NewTaskPriority "a" ["n"; "a"] 1))%Z.
Proof.
  destruct (Compare_orders (NewTaskPriority "a" ["n"; "a"] 1) (NewTaskPriority "b" ["n"; "b"] 1)
    (NewTaskPriority "c" [] 2)) as [[Hs _] _]; [repeat split; cbn; discriminate || reflexivity..|].
  assert (Compare (NewTaskPriority "a" ["n"; "a"] 1) (NewTaskPriority "b" ["n"; "b"] 1) < 0)%Z as Hlt by (vm_compute; reflexivity).
  split; [exact Hlt|]. by apply Hs.
Defined.

(** The second of two dependent tasks is ready first. *)
Lemma ready_after_dependents_witness :
  let e := with_dependencies [("second", "first")] (NewPregelOptimizedEngine None None) in
  IsTaskReady "second" (set_finished ∅ e) = true ∧ IsTaskReady "first" (set_finished {["second"]} e) = true.
Proof.
  split; apply ready_after_dependents; [reflexivity| |reflexivity|].
  - intros a Ha. apply list_elem_of_singleton in Ha. discriminate Ha.
  - intros a Ha. apply list_elem_of_singleton in Ha. injection Ha as ->. by apply elem_of_singleton.
Defined.
End witnesses.
