(* ===== verification/GoStrings.v ===== *)
(** * Searching, splitting and trimming strings

    What the components that work on documents use of the packages strings,
    unicode/utf8 and regexp: slices of strings by byte offsets, the search for
    the leftmost of several literals, the whitespace of Unicode. *)
From S2P Require Import Prelude Format Json JsonText JsonLaw Convert.
From Stdlib Require Import Ascii.

(** ** Slices *)

(** [s[a:b]] for offsets within the string. *)
Definition slice (a b : nat) (s : string) : string := str_take (b - a) (str_drop a s).

Lemma str_drop_0 s : str_drop 0 s = s.
Proof. unfold str_drop. rewrite Nat.sub_0_r. apply substring_full. Qed.

Lemma str_drop_cons n a s : str_drop (S n) (String a s) = str_drop n s.
Proof. reflexivity. Qed.

Lemma str_take_cons n a s : str_take (S n) (String a s) = String a (str_take n s).
Proof. reflexivity. Qed.

Lemma str_take_0 s : str_take 0 s = "".
Proof. by destruct s. Qed.

Lemma str_drop_empty n : str_drop n "" = "".
Proof. by destruct n. Qed.

Lemma str_take_empty n : str_take n "" = "".
Proof. by destruct n. Qed.

Lemma str_drop_drop n m s : str_drop n (str_drop m s) = str_drop (m + n) s.
Proof.
  revert m. induction s as [|a s IH]; intros m; [by rewrite !str_drop_empty|].
  destruct m as [|m]; [by rewrite str_drop_0|]. rewrite !str_drop_cons. apply IH.
Qed.

Lemma str_take_full n s : String.length s ≤ n → str_take n s = s.
Proof.
  revert n. induction s as [|a s IH]; intros n Hn; [by rewrite str_take_empty|].
  destruct n as [|n]; cbn in Hn; [lia|]. rewrite str_take_cons, IH; [done|lia].
Qed.

Lemma str_drop_full n s : String.length s ≤ n → str_drop n s = "".
Proof.
  revert n. induction s as [|a s IH]; intros n Hn; [by rewrite str_drop_empty|].
  destruct n as [|n]; cbn in Hn; [lia|]. rewrite str_drop_cons. apply IH. lia.
Qed.

Lemma str_take_add n m s : str_take (n + m) s = str_take n s +:+ str_take m (str_drop n s).
Proof.
  revert n. induction s as [|a s IH]; intros n.
  { by rewrite str_drop_empty, !str_take_empty. }
  destruct n as [|n].
  - by rewrite str_take_0, str_drop_0, app_Empty.
  - cbn [Nat.add]. rewrite !str_take_cons, str_drop_cons, app_String. by rewrite IH.
Qed.

Lemma str_take_prefix s t : str_take (String.length s) (s +:+ t) = s.
Proof.
  induction s as [|a s IH]; [by rewrite str_take_0|]. cbn [String.length]. rewrite app_String, str_take_cons. by rewrite IH.
Qed.

(** Adjacent slices join. *)
Lemma slice_app a b c s : a ≤ b → b ≤ c → slice a b s +:+ slice b c s = slice a c s.
Proof.
  intros Hab Hbc. unfold slice.
  replace (c - a) with ((b - a) + (c - b)) by lia. rewrite str_take_add, str_drop_drop.
  by replace (a + (b - a)) with b by lia.
Qed.

Lemma slice_tail a s : slice a (String.length s) s = str_drop a s.
Proof. unfold slice. apply str_take_full. rewrite length_str_drop. lia. Qed.

Lemma slice_head b s : slice 0 b s = str_take b s.
Proof. unfold slice. by rewrite Nat.sub_0_r, str_drop_0. Qed.

Lemma slice_nil a s : slice a a s = "".
Proof. unfold slice. by rewrite Nat.sub_diag, str_take_0. Qed.

Lemma length_slice a b s : a ≤ b → b ≤ String.length s → String.length (slice a b s) = b - a.
Proof. intros. unfold slice. apply length_str_take. rewrite length_str_drop. lia. Qed.

(** The parts of a string, put together. *)
Definition str_concat (parts : list string) : string := foldr String.append "" parts.

Lemma str_concat_app l k : str_concat (l ++ k) = str_concat l +:+ str_concat k.
Proof. induction l as [|p l IH]; [done|]. cbn [app str_concat foldr]. fold (str_concat (l ++ k)) (str_concat l). by rewrite IH, (assoc_L String.append). Qed.

Lemma str_concat_snoc l p : str_concat (l ++ [p]) = str_concat l +:+ p.
Proof. rewrite str_concat_app. cbn. by rewrite app_nil_String. Qed.

(** ** Searching *)

Lemma prefix_take p s : String.prefix p s = true → s = p +:+ str_drop (String.length p) s.
Proof.
  revert s. induction p as [|a p IH]; intros s H; [by rewrite app_Empty, str_drop_0|].
  destruct s as [|b s]; [done|]. cbn in H. destruct (ascii_dec a b) as [->|]; [|done].
  rewrite app_String. cbn [String.length]. rewrite str_drop_cons. by rewrite <-IH.
Qed.

Lemma prefix_app p t : String.prefix p (p +:+ t) = true.
Proof. induction p as [|a p IH]; [by destruct t|]. rewrite app_String. cbn. by destruct (ascii_dec a a). Qed.

(** [regexp.FindAllStringIndex(text, -1)] for a pattern whose matches at a
    place [m] finds, all of them of positive length. *)
Fixpoint find_all (m : string → option nat) (skip pos : nat) (s : string) : list (nat * nat) :=
  match s with
  | EmptyString => []
  | String _ s' =>
      match skip with
      | S skip' => find_all m skip' (S pos) s'
      | O => match m s with
             | Some (S n) => (pos, S pos + n) :: find_all m n (S pos) s'
             | _ => find_all m 0 (S pos) s'
             end
      end
  end.

Definition FindAllStringIndex (m : string → option nat) (s : string) : list (nat * nat) := find_all m 0 0 s.

(** The intervals follow each other and end within the first [n] bytes. *)
Fixpoint intervals (from n : nat) (l : list (nat * nat)) : Prop :=
  match l with
  | [] => from ≤ n
  | (a, b) :: l' => from ≤ a ∧ a < b ∧ intervals b n l'
  end.

Lemma intervals_le from n l : intervals from n l → from ≤ n.
Proof. revert from. induction l as [|[a b] l IH]; intros from; [done|]. intros (? & ? & ?%IH). lia. Qed.

Lemma intervals_weaken from from' n l : from' ≤ from → intervals from n l → intervals from' n l.
Proof. destruct l as [|[a b] l]; cbn; [lia|]. intros ? (? & ? & ?). split_and!; [lia|done|done]. Qed.

(** A matcher finds prefixes of the text it looks at. *)
Definition finds_prefixes (m : string → option nat) : Prop := ∀ s n, m s = Some n → n ≤ String.length s.

Lemma find_all_intervals m skip pos s :
  finds_prefixes m → skip ≤ String.length s →
  intervals (pos + skip) (pos + String.length s) (find_all m skip pos s).
Proof.
  intros Hm. revert skip pos. induction s as [|a s IH]; intros skip pos Hs; cbn in Hs |- *; [lia|].
  destruct skip as [|skip].
  - destruct (m (String a s)) as [[|n]|] eqn:E.
    + apply (intervals_weaken (S pos + 0)); [lia|]. replace (pos + S (String.length s)) with (S pos + String.length s) by lia.
      apply IH. lia.
    + apply Hm in E. cbn in E. cbn [intervals]. split_and!; [lia|lia|].
      replace (pos + S (String.length s)) with (S pos + String.length s) by lia. apply (IH n (S pos)). lia.
    + apply (intervals_weaken (S pos + 0)); [lia|]. replace (pos + S (String.length s)) with (S pos + String.length s) by lia.
      apply IH. lia.
  - replace (pos + S skip) with (S pos + skip) by lia.
    replace (pos + S (String.length s)) with (S pos + String.length s) by lia. apply IH. lia.
Qed.

Lemma FindAll_intervals m s : finds_prefixes m → intervals 0 (String.length s) (FindAllStringIndex m s).
Proof. intros H. apply (find_all_intervals m 0 0 s H). lia. Qed.

(** An alternation of literals: the first of them the text starts with. *)
Fixpoint match_literals (ds : list string) (s : string) : option nat :=
  match ds with
  | [] => None
  | d :: ds' => if String.prefix d s then Some (String.length d) else match_literals ds' s
  end.

Lemma match_literals_prefixes ds : finds_prefixes (match_literals ds).
Proof.
  intros s n. induction ds as [|d ds IH]; [done|]. cbn. destruct (String.prefix d s) eqn:E; [|done].
  intros [= <-]. apply prefix_take in E. rewrite E, length_app_String. lia.
Qed.

(** [regexp.Split(text, -1)] *)
Fixpoint split_from (text : string) (beg fin : nat) (idxs : list (nat * nat)) : list string :=
  match idxs with
  | [] => if decide (fin = String.length text) then [] else [str_drop beg text]
  | (a, b) :: idxs' => slice beg a text :: split_from text b a idxs'
  end.

Definition regexp_split (m : string → option nat) (text : string) : list string :=
  if decide (text = "") then [""] else split_from text 0 0 (FindAllStringIndex m text).

(** [strings.Index]. *)
Fixpoint Index (sub s : string) : option nat :=
  if String.prefix sub s then Some 0
  else match s with String _ s' => S <$> Index sub s' | EmptyString => None end.

Lemma Index_Some sub s n : Index sub s = Some n → s = str_take n s +:+ sub +:+ str_drop (n + String.length sub) s.
Proof.
  revert n. induction s as [|a s IH]; intros n; cbn [Index].
  - destruct (String.prefix sub "") eqn:E; [|done]. intros [= <-]. apply prefix_take in E.
    by rewrite str_take_0, app_Empty.
  - destruct (String.prefix sub (String a s)) eqn:E.
    + intros [= <-]. apply prefix_take in E. by rewrite str_take_0, app_Empty.
    + destruct (Index sub s) as [k|] eqn:Ek; [|done]. intros [= <-]. cbn [Nat.add].
      rewrite str_take_cons, str_drop_cons, app_String. f_equal. by apply IH.
Qed.

Lemma prefix_mono p s t : String.prefix p s = true → String.prefix p (s +:+ t) = true.
Proof. intros E%prefix_take. rewrite E, <-(assoc_L String.append). apply prefix_app. Qed.

Lemma Index_app_r sub s t : Index sub (s +:+ t) = None → Index sub t = None.
Proof.
  induction s as [|a s IH]; [done|]. rewrite app_String. cbn [Index].
  destruct (String.prefix sub _); [done|]. destruct (Index sub (s +:+ t)); [done|]. by intros _; apply IH.
Qed.

Lemma Index_app_l sub s t : Index sub (s +:+ t) = None → Index sub s = None.
Proof.
  induction s as [|a s IH].
  - cbn [Index]. destruct (String.prefix sub "") eqn:E; [|done]. destruct sub; [|done]. by destruct t.
  - rewrite app_String. cbn [Index]. destruct (String.prefix sub (String a s)) eqn:E.
    + apply (prefix_mono _ _ t) in E. rewrite app_String in E. by rewrite E.
    + destruct (String.prefix sub (String a (s +:+ t))); [done|]. destruct (Index sub (s +:+ t)); [done|].
      intros _. by rewrite IH.
Qed.

(** ** Whitespace *)

(** [unicode.IsSpace]. *)
Definition IsSpace (r : Z) : bool :=
  bool_decide (r ∈ [9; 10; 11; 12; 13; 32; 133; 160; 5760; 8192; 8193; 8194; 8195; 8196; 8197; 8198; 8199; 8200;
                    8201; 8202; 8232; 8233; 8239; 8287; 12288]%Z).

(** The rune a string starts with; U+FFFD where none is well formed. *)
Definition first_rune (s : string) : Z :=
  match rune_len s with O => 65533%Z | n => rune_of (bytes_of (str_take n s)) end.

(** Trimming the runes [p] holds of, on the left and on the right; [skip] bytes
    of the current rune are left. *)
Fixpoint trim_left_runes (p : Z → bool) (skip : nat) (s : string) : string :=
  match s with
  | EmptyString => ""
  | String a s' =>
      match skip with
      | S skip' => trim_left_runes p skip' s'
      | O => if p (first_rune s) then trim_left_runes p (pred (rune_len s)) s' else s
      end
  end.

Fixpoint all_runes (p : Z → bool) (skip : nat) (s : string) : bool :=
  match s with
  | EmptyString => true
  | String a s' =>
      match skip with
      | S skip' => all_runes p skip' s'
      | O => p (first_rune s) && all_runes p (pred (rune_len s)) s'
      end
  end.

Fixpoint trim_right_runes (p : Z → bool) (skip : nat) (s : string) : string :=
  match s with
  | EmptyString => ""
  | String a s' =>
      match skip with
      | S skip' => String a (trim_right_runes p skip' s')
      | O => if all_runes p 0 s then "" else String a (trim_right_runes p (pred (rune_len s)) s')
      end
  end.

(** [strings.TrimSpace] *)
Definition trim_space (s : string) : string := trim_right_runes IsSpace 0 (trim_left_runes IsSpace 0 s).

(** ** Runes *)

(** [[]rune(s)] and [string(runes)]. *)
Definition runes (s : string) : list Z := runes_from 0 s.
Definition string_of_runes (l : list Z) : string := str_concat (encode_rune <$> l).
Definition RuneCountInString (s : string) : Z := Z.of_nat (length (runes s)).

(** [strings.ReplaceAll(s, old, new)] for an [old] that is not empty. *)
Definition ReplaceAll (old new s : string) : string :=
  (fix go (skip : nat) (s : string) : string :=
     match s with
     | EmptyString => ""
     | String a s' =>
         match skip with
         | S skip' => go skip' s'
         | O => if String.prefix old s then new +:+ go (pred (String.length old)) s' else String a (go 0 s')
         end
     end) 0 s.

(** The text without the matches of [m]; [skip] bytes of a match are left. *)
Fixpoint without_matches (m : string → option nat) (skip : nat) (s : string) : string :=
  match s with
  | EmptyString => ""
  | String a s' =>
      match skip with
      | S skip' => without_matches m skip' s'
      | O => match m s with
             | Some (S n) => without_matches m n s'
             | _ => String a (without_matches m 0 s')
             end
      end
  end.

(** [utf8.Valid]: every byte belongs to a well-formed sequence. *)
Fixpoint valid_utf8 (skip : nat) (s : string) : bool :=
  match s with
  | EmptyString => true
  | String _ s' =>
      match skip with
      | S skip' => valid_utf8 skip' s'
      | O => match rune_len s with O => false | S n => valid_utf8 n s' end
      end
  end.

Lemma trim_space_empty : trim_space "" = "".
Proof. reflexivity. Qed.

Example trim_example : trim_space "  a b " = "a b" ∧ trim_space (utf8 12288 +:+ "日本" +:+ utf8 12288) = "日本".
Proof. split; reflexivity. Qed.

Example runes_example : runes "é。x" = [233; 12290; 120]%Z ∧ string_of_runes [233; 12290; 120]%Z = "é。x".
Proof. split; reflexivity. Qed.

(** ** Case

    The case tables of Unicode are a parameter, an implementation the one that
    knows the letters of ASCII. *)
Class UnicodeCase := { ToLower : string → string }.

Fixpoint ascii_lower (s : string) : string :=
  match s with
  | EmptyString => ""
  | String a s' =>
      let n := nat_of_ascii a in
      String (if bool_decide (65 ≤ n ≤ 90) then ascii_of_nat (n + 32) else a) (ascii_lower s')
  end.

Definition ascii_case : UnicodeCase := {| ToLower := ascii_lower |}.

(** Equality under simple case folding, an equivalence. *)
Class UnicodeFold := { EqualFold : string → string → bool }.
Class UnicodeFoldLaws `{UnicodeFold} := { fold_equivalence : Equivalence (λ s t, EqualFold s t = true) }.

Definition ascii_fold : UnicodeFold := {| EqualFold s t := bool_decide (ascii_lower s = ascii_lower t) |}.
Lemma ascii_fold_laws : @UnicodeFoldLaws ascii_fold.
Proof.
  split. split.
  - intros s. by apply bool_decide_eq_true.
  - intros s t Hst%bool_decide_eq_true. by apply bool_decide_eq_true.
  - intros s t u Hst%bool_decide_eq_true Htu%bool_decide_eq_true. apply bool_decide_eq_true. by rewrite Hst.
Qed.
