(* ===== verification/GoNumbers.v ===== *)
(** * Numbers in strings

    [strconv.ParseFloat] and [strconv.FormatFloat] for 64 bits, as the components
    that compare metadata use them. *)
From S2P Require Import Prelude Values Format Json JsonText GoStrings.
From Stdlib Require Import Ascii.

(** ** FormatFloat(f, 'f', -1, 64) *)
Definition format_f (f : spec_float) : string :=
  match f with
  | S754_nan => "NaN"
  | S754_infinity s => if s then "-Inf" else "+Inf"
  | S754_zero s => if s then "-0" else "0"
  | S754_finite s m e =>
      let '(c, p) := shortest 53 1024 (S754_finite false m e) m e in
      let '(c, p) := strip_zeros 400 c p in
      let ds := pretty c in
      (if s then "-" else "") +:+ fmt_f ds (Z.of_nat (String.length ds) + p)%Z
  end.

(** ** ParseFloat(s, 64)

    The letters in either case; a digit in a base, its value. *)
Definition lower_ch (a : ascii) : nat := let n := ch a in if bool_decide (65 ≤ n ≤ 90) then n + 32 else n.

Definition digit_in (hex : bool) (a : ascii) : option Z :=
  let n := lower_ch a in
  if bool_decide (48 ≤ n ≤ 57) then Some (Z.of_nat n - 48)%Z
  else if hex && bool_decide (97 ≤ n ≤ 102) then Some (Z.of_nat n - 87)%Z
  else None.

Fixpoint equal_fold (s t : string) : bool :=
  match s, t with
  | EmptyString, EmptyString => true
  | String a s', String b t' => bool_decide (lower_ch a = lower_ch b) && equal_fold s' t'
  | _, _ => false
  end.

(** A sign and what follows it. *)
Definition take_sign (s : string) : option bool * string :=
  match s with
  | String a s' => if decide (ch a = 45) then (Some true, s') else if decide (ch a = 43) then (Some false, s') else (None, s)
  | EmptyString => (None, s)
  end.

Definition special (s : string) : option spec_float :=
  let '(sign, r) := take_sign s in
  if equal_fold r "inf" || equal_fold r "infinity" then Some (S754_infinity (default false sign))
  else if decide (sign = None) then (if equal_fold s "nan" then Some S754_nan else None) else None.

(** The scan of the mantissa: its value, the digits after the point if one was
    seen, whether there was a digit and an underscore, and the rest. *)
Record mantissa := MkMantissa { man : Z; fraction : option Z; any_digit : bool; underscores : bool; after : string }.

Fixpoint scan_mantissa (hex : bool) (acc : mantissa) (s : string) : mantissa :=
  let stop := MkMantissa (man acc) (fraction acc) (any_digit acc) (underscores acc) s in
  match s with
  | EmptyString => stop
  | String a s' =>
      if decide (ch a = 95) then scan_mantissa hex (MkMantissa (man acc) (fraction acc) (any_digit acc) true "") s'
      else if decide (ch a = 46) then
        match fraction acc with
        | Some _ => stop
        | None => scan_mantissa hex (MkMantissa (man acc) (Some 0%Z) (any_digit acc) (underscores acc) "") s'
        end
      else match digit_in hex a with
           | Some d => scan_mantissa hex (MkMantissa (man acc * (if hex then 16 else 10) + d)%Z ((λ n, n + 1)%Z <$> fraction acc)
                                            true (underscores acc) "") s'
           | None => stop
           end
  end.

(** The digits of an exponent, which stops growing at 10000. *)
Fixpoint scan_exponent (e : Z) (under : bool) (s : string) : Z * bool * string :=
  match s with
  | String a s' =>
      if decide (ch a = 95) then scan_exponent e true s'
      else match digit_in false a with
           | Some d => scan_exponent (if (e <? 10000)%Z then e * 10 + d else e)%Z under s'
           | None => (e, under, s)
           end
  | EmptyString => (e, under, s)
  end.

(** [underscoreOK] from the character seen before on: underscores only between
    digits. *)
Inductive last_seen := SawStart | SawDigit | SawUnderscore | SawOther.

Fixpoint underscores_ok (hex : bool) (saw : last_seen) (s : string) : bool :=
  match s with
  | EmptyString => match saw with SawUnderscore => false | _ => true end
  | String a s' =>
      match digit_in hex a with
      | Some _ => underscores_ok hex SawDigit s'
      | None =>
          if decide (ch a = 95) then match saw with SawDigit => underscores_ok hex SawUnderscore s' | _ => false end
          else match saw with SawUnderscore => false | _ => underscores_ok hex SawOther s' end
      end
  end.

Definition base_prefix (s : string) : bool :=
  match s with String a (String b _) => bool_decide (ch a = 48) && bool_decide (lower_ch b ∈ [98; 111; 120]) | _ => false end.

Definition underscoreOK (s : string) : bool :=
  let r := (take_sign s).2 in
  if base_prefix r then
    underscores_ok (match r with String _ (String b _) => bool_decide (lower_ch b = 120) | _ => false end)
                   SawDigit (str_drop 2 r)
  else underscores_ok false SawStart r.

(** A hexadecimal number has at least one character after its prefix. *)
Definition hex_prefix (s : string) : bool :=
  match s with String a (String b (String _ _)) => bool_decide (ch a = 48) && bool_decide (lower_ch b = 120) | _ => false end.

Definition finite_only (f : spec_float) : option spec_float := match f with S754_infinity _ => None | _ => Some f end.

(** The value of a number, none where it is malformed or too large. *)
Definition read_float (s : string) : option spec_float :=
  let '(sign, r) := take_sign s in
  let hex := hex_prefix r in
  let m := scan_mantissa hex (MkMantissa 0 None false false "") (if hex then str_drop 2 r else r) in
  if negb (any_digit m) then None
  else
    let marker := match after m with
                  | String a _ => bool_decide (lower_ch a = if hex then 112 else 101)
                  | EmptyString => false
                  end in
    let exponent :=
      if marker then
        let '(esign, er) := take_sign (str_drop 1 (after m)) in
        match er with
        | String a _ =>
            match digit_in false a with
            | Some _ => let '(e, u, rest) := scan_exponent 0 false er in
                        Some (if default false esign then (- e)%Z else e, u, rest)
            | None => None
            end
        | EmptyString => None
        end
      else if hex then None else Some (0%Z, false, after m) in
    match exponent with
    | Some (e, u, EmptyString) =>
        if (underscores m || u) && negb (underscoreOK s) then None
        else
          let frac := default 0%Z (fraction m) in
          let v := if hex then binary_normalize 53 1024 (man m) (e - 4 * frac) false
                   else float_of_dec 53 1024 (man m) (e - frac) in
          finite_only (if default false sign then SFopp v else v)
    | _ => None
    end.

Definition ParseFloat (s : string) : option spec_float :=
  match special s with Some f => Some f | None => read_float s end.

Example parse_examples :
  ParseFloat "12.5" = Some (SFdiv 53 1024 (float_of_int 25) (float_of_int 2)) ∧
  ParseFloat "-3" = Some (float_of_int (-3)) ∧ ParseFloat "+1_000" = Some (float_of_int 1000) ∧
  ParseFloat "0x1p4" = Some (float_of_int 16) ∧ ParseFloat "1e400" = None ∧ ParseFloat "" = None ∧
  ParseFloat "1__0" = None ∧ ParseFloat "Inf" = Some (S754_infinity false) ∧ ParseFloat "nan" = Some S754_nan ∧
  ParseFloat "12 " = None ∧ ParseFloat ".5e1" = Some (float_of_int 5) ∧ ParseFloat "0x10" = None.
Proof. vm_compute. done. Qed.

Example format_examples :
  format_f (float_of_int 1000000) = "1000000" ∧ format_f (float_of_dec 53 1024 1 (-1)) = "0.1" ∧
  format_f (float_of_int (-25)) = "-25".
Proof. vm_compute. done. Qed.
