(* ===== verification/Chunker.v ===== *)
(** * The token chunker of the ingestion pipeline

    Documents are cut into chunks that an embedding model can take
    (internal/ingestion/component/chunker/token.go): texts are split at
    delimiters, oversized pieces at the ends of sentences and then at tokens,
    and neighbours are merged up to a number of tokens, with an overlap.  This
    file holds the operations; ChunkerProps what they guarantee.

    The encoder is a library: [Encoding] is a parameter.  Texts are byte
    strings; those the pipeline passes on come out of JSON and are valid UTF-8. *)
From S2P Require Import Prelude Values Format Json JsonText JsonLaw RawJson Convert GoStrings.
From Stdlib Require Import Ascii.

(** ** Tokens (internal/tokenizer/tokenizer.go) *)
Record Encoding := { Encode : string → list Z; Decode : list Z → string }.

(** [getCL100KEncoder]: none if loading the encoding fails. *)
Class Tokenizer := getCL100KEncoder : option Encoding.

Section chunker.
Context `{Tokenizer, GoFloat, UnicodeCase}.

Definition NumTokensFromString (s : string) : Z :=
  if decide (s = "") then 0%Z
  else match getCL100KEncoder with
       | None => 0%Z
       | Some enc => Z.of_nat (length (Encode enc s))
       end.

(** The longest valid prefix of at most [limit] bytes. *)
Fixpoint valid_prefix (limit : nat) (s : string) : string :=
  match limit with
  | O => ""
  | S limit' => if valid_utf8 0 (str_take limit s) then str_take limit s else valid_prefix limit' s
  end.

Definition TrimContentToTokenLimit (s : string) (limit : Z) : string :=
  let limit := Z.to_nat limit in
  match getCL100KEncoder with
  | None => if decide (limit = 0) then "" else if decide (String.length s ≤ limit) then s else valid_prefix limit s
  | Some enc =>
      let tokens := Encode enc s in
      if decide (length tokens ≤ limit) then s else Decode enc (take limit tokens)
  end.

Definition tokenizeStr (s : string) : Z := NumTokensFromString s.

(** ** Chunks (schema/chunk_types.go)

    The fields this component sets or reads; the others travel together. *)
Record ChunkRest := MkRest {
  LayoutType : string; LayoutNo : string; Questions : string; Keywords : string; Summary : string;
  ChunkOrderInt : option Z; TitleTks : string; TitleSmTks : string; ContentLtks : string; ContentSmLtks : string;
  TagKwd : list string; TopInt : list Z; Extra : gmap string string
}.
Definition no_rest : ChunkRest := MkRest "" "" "" "" "" None "" "" "" "" [] [] ∅.

Record ChunkDoc := MkChunk {
  Text : string; ContentWithWeight : string; DocType : string; CKType : string; TKNums : option Z;
  Mom : string; ImgID : string; Layout : string; Image : string; ContextAbove : string; ContextBelow : string;
  PageNumber : option Z; PDFPositions : string; Positions : string; Rest : ChunkRest
}.

Definition empty_chunk : ChunkDoc := MkChunk "" "" "" "" None "" "" "" "" "" "" None "" "" no_rest.

Definition with_text (t : string) (c : ChunkDoc) : ChunkDoc :=
  MkChunk t (ContentWithWeight c) (DocType c) (CKType c) (TKNums c) (Mom c) (ImgID c) (Layout c) (Image c)
          (ContextAbove c) (ContextBelow c) (PageNumber c) (PDFPositions c) (Positions c) (Rest c).
Definition with_tokens (n : Z) (c : ChunkDoc) : ChunkDoc :=
  MkChunk (Text c) (ContentWithWeight c) (DocType c) (CKType c) (Some n) (Mom c) (ImgID c) (Layout c) (Image c)
          (ContextAbove c) (ContextBelow c) (PageNumber c) (PDFPositions c) (Positions c) (Rest c).
Definition with_count (n : option Z) (c : ChunkDoc) : ChunkDoc :=
  MkChunk (Text c) (ContentWithWeight c) (DocType c) (CKType c) n (Mom c) (ImgID c) (Layout c) (Image c)
          (ContextAbove c) (ContextBelow c) (PageNumber c) (PDFPositions c) (Positions c) (Rest c).
Definition with_cktype (t : string) (c : ChunkDoc) : ChunkDoc :=
  MkChunk (Text c) (ContentWithWeight c) (DocType c) t (TKNums c) (Mom c) (ImgID c) (Layout c) (Image c)
          (ContextAbove c) (ContextBelow c) (PageNumber c) (PDFPositions c) (Positions c) (Rest c).
Definition with_positions (pdf pos : string) (c : ChunkDoc) : ChunkDoc :=
  MkChunk (Text c) (ContentWithWeight c) (DocType c) (CKType c) (TKNums c) (Mom c) (ImgID c) (Layout c) (Image c)
          (ContextAbove c) (ContextBelow c) (PageNumber c) pdf pos (Rest c).
Definition with_context (above below : string) (c : ChunkDoc) : ChunkDoc :=
  MkChunk (Text c) (ContentWithWeight c) (DocType c) (CKType c) (TKNums c) (Mom c) (ImgID c) (Layout c) (Image c)
          above below (PageNumber c) (PDFPositions c) (Positions c) (Rest c).
Definition with_mom (t : string) (c : ChunkDoc) : ChunkDoc :=
  MkChunk (Text c) (ContentWithWeight c) (DocType c) (CKType c) (TKNums c) t (ImgID c) (Layout c) (Image c)
          (ContextAbove c) (ContextBelow c) (PageNumber c) (PDFPositions c) (Positions c) (Rest c).

(** The copy of [cloneChunkDoc] shares nothing with the original, so it is the
    same value. *)
Definition cloneChunkDoc (c : ChunkDoc) : ChunkDoc := c.

Definition intValue (v : option Z) : Z := default 0%Z v.

(** ** Delimiters (internal/parser/chunk/delim.go, common.go) *)
Definition backtick : string := String (ascii_of_nat 96) "".

Definition has_suffix (p s : string) : bool :=
  bool_decide (str_drop (String.length s - String.length p) s = p).

Definition is_wrapped (d : string) : bool :=
  is_prefix backtick d && has_suffix backtick d && (2 <=? String.length d)%nat.

(** The content of the wrapped entries and, with [keepBare], the bare ones, each
    once, in order. *)
Fixpoint delimiter_list (keepBare : bool) (seen : list string) (delims : list string) : list string :=
  match delims with
  | [] => []
  | d :: delims' =>
      if decide (d = "") then delimiter_list keepBare seen delims'
      else
        let entry := if is_wrapped d then Some (slice 1 (String.length d - 1) d)
                     else if keepBare then Some d else None in
        match entry with
        | None => delimiter_list keepBare seen delims'
        | Some i => if decide (i = "") then delimiter_list keepBare seen delims'
                    else if decide (i ∈ seen) then delimiter_list keepBare seen delims'
                    else i :: delimiter_list keepBare (i :: seen) delims'
        end
  end.

(** [sort.SliceStable] by descending number of runes. *)
Fixpoint insert_longer (d : string) (l : list string) : list string :=
  match l with
  | [] => [d]
  | e :: l' => if (RuneCountInString e <? RuneCountInString d)%Z then d :: l else e :: insert_longer d l'
  end.

Definition sort_by_runes (l : list string) : list string := foldl (λ acc d, insert_longer d acc) [] l.

(** A compiled pattern is the alternation of its quoted literals, in order; none
    if there is no active entry. *)
Abbreviation pattern := (list string).

Definition CompileDelimiterPatternList (delims : list string) (keepBare : bool) : option pattern :=
  match delimiter_list keepBare [] delims with
  | [] => None
  | out => Some (sort_by_runes out)
  end.

Definition HasCustomDelimiterList (delims : list string) : bool := existsb is_wrapped delims.

Definition compileDelimPattern (delims : list string) : option pattern := CompileDelimiterPatternList delims true.
Definition compileChildrenPattern (delims : list string) : option pattern := CompileDelimiterPatternList delims true.

Definition FindAll (p : pattern) (text : string) : list (nat * nat) := FindAllStringIndex (match_literals p) text.

(** The loop of [splitDroppingDelim] from [cursor] on. *)
Fixpoint parts_between (text : string) (cursor : nat) (idxs : list (nat * nat)) : list string :=
  match idxs with
  | [] => if decide (cursor < String.length text) then [str_drop cursor text] else []
  | (a, b) :: idxs' =>
      if decide (a = cursor) then parts_between text b idxs'
      else slice cursor a text :: parts_between text b idxs'
  end.

Definition splitDroppingDelim (text : string) (p : option pattern) : list string :=
  match p with
  | None => [text]
  | Some p =>
      match FindAll p text with
      | [] => [text]
      | idxs => parts_between text 0 idxs
      end
  end.

(** ** Position tags (group.go) *)
Definition tag_char (a : ascii) : bool := is_digit a || bool_decide (a ∈ ["009"%char; "."%char; "-"%char]).

Fixpoint tag_run (s : string) : nat :=
  match s with
  | String a s' => if tag_char a then S (tag_run s') else 0
  | EmptyString => 0
  end.

(** The pattern posTagRemove at a place: two at signs, characters of numbers, two
    number signs. *)
Definition match_tag (s : string) : option nat :=
  if is_prefix "@@" s then
    let n := tag_run (str_drop 2 s) in
    if (1 <=? n)%nat && is_prefix "##" (str_drop (2 + n) s) then Some (4 + n) else None
  else None.

Definition removeTag (text : string) : string := without_matches match_tag 0 text.

(** ** Splitting oversized texts *)

(** [sentenceDelimiter] *)
Definition sentenceDelimiter : pattern := ["
"; "!"; "?"; "。"; "；"; "！"; "？"].

(** The loop of [splitSentencesLossless]. *)
Fixpoint sentences_from (text : string) (prev : nat) (idxs : list (nat * nat)) : list string :=
  match idxs with
  | [] => if decide (prev < String.length text) then [str_drop prev text] else []
  | (a, b) :: idxs' =>
      (if decide (prev < a) then slice prev b text else slice a b text) :: sentences_from text b idxs'
  end.

Definition splitSentencesLossless (text : string) : list string :=
  if decide (text = "") then [] else sentences_from text 0 (FindAll sentenceDelimiter text).

(** The loop of [adjustCutPastTag]; each round looks for a tag further on, so the
    length of the text is enough fuel. *)
Fixpoint cut_past_tag (fuel : nat) (text : string) (cut : nat) (target : Z) (searchFrom : nat) : nat :=
  match fuel with
  | O => cut
  | S fuel' =>
      match Index "@@" (str_drop searchFrom text) with
      | None => cut
      | Some s =>
          let s := s + searchFrom in
          match Index "##" (str_drop (s + 2) text) with
          | None => cut
          | Some eRel =>
              let e := s + 2 + eRel + 2 in
              if (s <? cut)%nat && (cut <? e)%nat then
                if (e <=? String.length text)%nat && (tokenizeStr (str_take e text) <=? target)%Z then e
                else if (0 <? s)%nat then s else e
              else cut_past_tag fuel' text cut target e
          end
      end
  end.

Definition adjustCutPastTag (text : string) (cut : nat) (target : Z) : nat :=
  cut_past_tag (S (String.length text)) text cut target 0.

(** A piece of text with its number of tokens. *)
Definition text_piece (docType text : string) : ChunkDoc :=
  with_tokens (tokenizeStr text) (MkChunk text "" docType "text" None "" "" "" "" "" "" None "" "" no_rest).

(** One round of [hardSplitPiece]: where the remaining text is cut, if it is. *)
Definition hard_cut (rest : string) (target : Z) : option nat :=
  if (tokenizeStr rest <=? target)%Z then None
  else
    let head := TrimContentToTokenLimit rest target in
    if decide (head = "") then None
    else if decide (head = rest) then None
    else
      let head := if is_prefix head rest then head else trim_right_runes (Z.eqb 65533) 0 head in
      if decide (head = "") then None
      else
        let cut := adjustCutPastTag rest (String.length head) target in
        if decide (cut = 0) then None
        else if decide (String.length rest ≤ cut) then None
        else Some cut.

(** The loop of [hardSplitPiece]; every round leaves a shorter text. *)
Fixpoint hard_split (fuel : nat) (docType : string) (target : Z) (rest : string) : list ChunkDoc :=
  let last := if decide (rest = "") then [] else [text_piece docType rest] in
  match fuel with
  | O => last
  | S fuel' =>
      match hard_cut rest target with
      | None => last
      | Some cut => text_piece docType (str_take cut rest) :: hard_split fuel' docType target (str_drop cut rest)
      end
  end.

Definition hardSplitPiece (text docType : string) (target : Z) : list ChunkDoc :=
  hard_split (String.length text) docType target text.

(** A piece, split if it has too many tokens. *)
Definition capped (docType : string) (target : Z) (text : string) : list ChunkDoc :=
  if (target <? tokenizeStr text)%Z then hardSplitPiece text docType target else [text_piece docType text].

(** The loop of [splitOversizedText] over the sentences: the pieces and the
    whitespace not yet attached to one. *)
Definition add_sentence (docType : string) (target : Z) (acc : list ChunkDoc * string) (part : string)
  : list ChunkDoc * string :=
  let '(pieces, wsPending) := acc in
  if decide (trim_space part = "") then (pieces, wsPending +:+ part)
  else (pieces ++ capped docType target (wsPending +:+ part), "").

(** Trailing whitespace goes to the last piece. *)
Definition attach_whitespace (docType : string) (target : Z) (pieces : list ChunkDoc) (ws : string) : list ChunkDoc :=
  if decide (ws = "") then pieces
  else match last pieces with
       | Some p => removelast pieces ++
           (let t := Text p +:+ ws in
            if (target <? tokenizeStr t)%Z then hardSplitPiece t docType target
            else [with_tokens (tokenizeStr t) (with_text t p)])
       | None => capped docType target ws
       end.

(** The newline in front of the text goes back to the first piece. *)
Definition attach_lead (docType : string) (target : Z) (lead : string) (pieces : list ChunkDoc) : list ChunkDoc :=
  match pieces with
  | [] => []
  | p :: pieces' =>
      if decide (lead = "") then pieces
      else
        let t := lead +:+ Text p in
        if (target <? tokenizeStr t)%Z then hardSplitPiece t docType target ++ pieces'
        else with_tokens (tokenizeStr t) (with_text t p) :: pieces'
  end.

Definition newline : string := String (ascii_of_nat 10) "".

(** The pieces [splitOversizedText] makes before they inherit. *)
Definition oversized_pieces (ck : ChunkDoc) (target : Z) : string * list ChunkDoc :=
  let '(lead, text) := if is_prefix newline (Text ck) then (newline, str_drop 1 (Text ck)) else ("", Text ck) in
  let '(pieces, ws) := foldl (add_sentence (DocType ck) target) ([], "") (splitSentencesLossless text) in
  (lead, attach_lead (DocType ck) target lead (attach_whitespace (DocType ck) target pieces ws)).

(** *** Positions (positions_slice.go) *)
Definition fsub : spec_float → spec_float → spec_float := SFsub 53 1024.
Definition fdiv : spec_float → spec_float → spec_float := SFdiv 53 1024.
Definition fmul : spec_float → spec_float → spec_float := SFmul 53 1024.
Definition fzero : spec_float := S754_zero false.
Definition fone : spec_float := float_of_int 1.

(** A matrix of JSON values; a row may be null. *)
Definition json_row (v : val) : option (list val) :=
  match v with VNil => Some [] | VList l => Some l | _ => None end.

Definition json_matrix (raw : string) : option (list (list val)) :=
  match unmarshal raw with
  | Some VNil => Some []
  | Some (VList rows) => mapM json_row rows
  | _ => None
  end.

(** The top and the bottom of a well-formed row. *)
Definition row_span (row : list val) : option (spec_float * spec_float) :=
  match row !! 3, row !! 4 with
  | Some (VFloat top), Some (VFloat bottom) =>
      if (5 <=? length row)%nat && negb (SFleb bottom top) then Some (top, bottom) else None
  | _, _ => None
  end.

Definition row_height (ts : spec_float * spec_float) : spec_float := fsub ts.2 ts.1.

(** The loop that cuts the rows: each with its span, [cum] the height of the rows
    before. *)
Fixpoint slice_rows (targetStart targetEnd cum : spec_float) (rows : list (list val * (spec_float * spec_float)))
  : list (list val) :=
  match rows with
  | [] => []
  | (row, span) :: rows' =>
      let h := row_height span in
      if SFleb h fzero then slice_rows targetStart targetEnd cum rows'
      else
        let segEnd := float_add cum h in
        let interStart := if SFltb cum targetStart then targetStart else cum in
        let interEnd := if SFltb targetEnd segEnd then targetEnd else segEnd in
        let rest := slice_rows targetStart targetEnd segEnd rows' in
        if SFleb interEnd interStart then rest
        else
          let oldH := row_height span in
          let newTop := float_add span.1 (fmul (fdiv (fsub interStart cum) h) oldH) in
          let newBottom := float_add span.1 (fmul (fdiv (fsub interEnd cum) h) oldH) in
          <[4 := VFloat newBottom]> (<[3 := VFloat newTop]> row) :: rest
  end.

Definition slicePositionsByTextRatio (raw : string) (startRatio endRatio : spec_float) : string :=
  if decide (raw = "") then ""
  else
    let startRatio := if SFltb startRatio fzero then fzero else startRatio in
    let endRatio := if SFltb fone endRatio then fone else endRatio in
    if SFleb endRatio startRatio then ""
    else
      match json_matrix raw with
      | None | Some [] => ""
      | Some matrix =>
          match mapM row_span matrix with
          | None => ""
          | Some spans =>
              let total := foldl float_add fzero (row_height <$> spans) in
              if SFleb total fzero then ""
              else
                match slice_rows (fmul startRatio total) (fmul endRatio total) fzero (zip matrix spans) with
                | [] => ""
                | out => default "" (marshal (VList ((λ row, VList row) <$> out)))
                end
          end
      end.

(** The positions of a piece between two counts of runes out of [total]; those of
    the whole where cutting gives nothing. *)
Definition piece_positions (raw : string) (from upto total : Z) : string :=
  let cut := slicePositionsByTextRatio raw (fdiv (float_of_int from) (float_of_int total))
               (fdiv (float_of_int upto) (float_of_int total)) in
  if decide (cut = "") then raw else cut.

Definition visible_runes (t : string) : Z := RuneCountInString (removeTag t).

(** A piece with the other fields of the chunk it is a piece of. *)
Definition inherit (ck p : ChunkDoc) : ChunkDoc :=
  with_cktype "text" (with_count (TKNums p) (with_text (Text p) (cloneChunkDoc ck))).

Fixpoint inherit_positions (ck : ChunkDoc) (total cum : Z) (pieces : list (ChunkDoc * Z)) : list ChunkDoc :=
  match pieces with
  | [] => []
  | (p, n) :: pieces' =>
      with_positions (piece_positions (PDFPositions ck) cum (cum + n) total)
                     (piece_positions (Positions ck) cum (cum + n) total) (inherit ck p)
      :: inherit_positions ck total (cum + n) pieces'
  end.

(** The visible runes of each piece, without the newline in front of the first. *)
Definition piece_counts (lead : string) (pieces : list ChunkDoc) : list Z :=
  match (λ p, visible_runes (Text p)) <$> pieces with
  | n :: ns => (if decide (lead = "") then n else Z.max 0 (n - RuneCountInString lead)) :: ns
  | [] => []
  end.

Definition splitOversizedText (ck : ChunkDoc) (target : Z) : list ChunkDoc :=
  let '(lead, pieces) := oversized_pieces ck target in
  if bool_decide (PDFPositions ck = "") && bool_decide (Positions ck = "") then inherit ck <$> pieces
  else
    let counts := piece_counts lead pieces in
    let runCount := foldr Z.add 0%Z counts in
    if decide (runCount = 0%Z) then inherit ck <$> pieces
    else inherit_positions ck runCount 0 (zip pieces counts).

(** Units without a count get one. *)
Definition unit_tokens (ck : ChunkDoc) : Z :=
  let tk := intValue (TKNums ck) in if (tk <=? 0)%Z then tokenizeStr (Text ck) else tk.

Definition expand_unit (target : Z) (ck : ChunkDoc) : list ChunkDoc :=
  if decide (CKType ck = "text") then
    let tk := unit_tokens ck in
    if (tk <=? target)%Z then [match TKNums ck with None => with_tokens tk ck | Some _ => ck end]
    else splitOversizedText ck target
  else [ck].

Definition expandOversizedUnits (units : list ChunkDoc) (target : Z) : list ChunkDoc :=
  if (target <=? 0)%Z then units else units ≫= expand_unit target.

(** ** Lists of positions as JSON *)

(** [json.Marshal] of a raw message: without whitespace, with characters escaped
    as in strings; [skip] bytes of a separator are left. *)
Fixpoint compact (skip : nat) (str esc : bool) (s : string) : string :=
  match s with
  | EmptyString => ""
  | String a s' =>
      match skip with
      | S skip' => compact skip' str false s'
      | O =>
          let quoted := bool_decide (ch a = 34) in
          let str' := if str then negb quoted || esc else quoted in
          let esc' := str && negb esc && bool_decide (ch a = 92) in
          if negb str && bool_decide (ch a ∈ [9; 10; 13; 32]) then compact 0 false false s'
          else if bool_decide (ch a ∈ [38; 60; 62]) then escape_byte (ch a) +:+ compact 0 str' esc' s'
          else if is_prefix line_separator s then "\u2028" +:+ compact 2 str false s'
          else if is_prefix paragraph_separator s then "\u2029" +:+ compact 2 str false s'
          else String a (compact 0 str' esc' s')
      end
  end.

(** A text as a slice of raw messages: null is the nil slice. *)
Definition raw_array (t : string) : option (option (list string)) :=
  let t := skip_ws t in
  match scan_value (2 * S (String.length t)) t with
  | Some r =>
      if decide (skip_ws r = "") then
        if starts_with 91 t then Some <$> array_items t
        else if is_prefix "null" t then Some None else None
      else None
  | None => None
  end.

Definition marshal_raws (a : option (list string)) : string :=
  match a with None => "null" | Some items => json_list (compact 0 false false <$> items) end.

(** Appending to a nil slice nothing leaves it nil. *)
Definition append_raws (a b : option (list string)) : option (list string) :=
  match a, default [] b with
  | None, [] => None
  | _, l => Some (default [] a ++ l)
  end.

Definition extendRawJSONArray (a b : string) : string :=
  if decide (a = "") then b
  else if decide (b = "") then a
  else match raw_array a with
       | None => b
       | Some arrA =>
           match raw_array b with
           | None => a
           | Some arrB => marshal_raws (append_raws arrA arrB)
           end
       end.

(** ** Overlaps *)
Definition hundred : spec_float := float_of_int 100.

Definition overlapCut (prevText : string) (overlappedPct : spec_float) : Z :=
  let n := RuneCountInString (removeTag prevText) in
  let cut := int64_of_float (fdiv (fmul (float_of_int n) (fsub hundred overlappedPct)) hundred) in
  let cut := Z.max 0 cut in
  Z.min n cut.

Definition computeOverlapPrefix (prevText : string) (overlappedPct : spec_float) : string * Z :=
  let visible := removeTag prevText in
  if decide (visible = "") then ("", 0%Z)
  else
    let rs := runes visible in
    let cut := overlapCut prevText overlappedPct in
    if (Z.of_nat (length rs) <=? cut)%Z then ("", 0%Z)
    else let overlap := string_of_runes (drop (Z.to_nat cut) rs) in (overlap, tokenizeStr overlap).

(** The loop of [overlapFitPrefix] from the [c]-th rune on. *)
Fixpoint fit_from (current : string) (target : Z) (c : Z) (rs : list Z) : string * Z :=
  match rs with
  | [] => ("", c)
  | _ :: rs' =>
      let suffix := string_of_runes rs' in
      if (tokenizeStr (suffix +:+ current) <=? target)%Z then (suffix, c + 1)%Z
      else fit_from current target (c + 1)%Z rs'
  end.

Definition overlapFitPrefix (overlap current : string) (target : Z) : string * Z :=
  if (tokenizeStr (overlap +:+ current) <=? target)%Z then (overlap, 0%Z)
  else fit_from current target 0 (runes overlap).

Record mergeItem := MkItem { item_Text : string; item_PDFPositions : string; item_Positions : string }.

(** The loop over the items of [overlapTailPositions]. *)
Fixpoint tail_positions (sep total overlapStart offset : Z) (items : list mergeItem) (acc : string * string)
  : string * string :=
  match items with
  | [] => acc
  | it :: items' =>
      let fin := (offset + visible_runes (item_Text it))%Z in
      let acc := if (offset <? total)%Z && (overlapStart <? fin)%Z
                 then (extendRawJSONArray acc.1 (item_PDFPositions it), extendRawJSONArray acc.2 (item_Positions it))
                 else acc in
      tail_positions sep total overlapStart (fin + sep)%Z items' acc
  end.

Definition overlapTailPositions (prevItems : list mergeItem) (overlapStart : Z) (joinSep : string) : string * string :=
  let sep := RuneCountInString joinSep in
  let total := (foldr (λ it acc, visible_runes (item_Text it) + sep + acc) 0 prevItems - sep)%Z in
  tail_positions sep total overlapStart 0 prevItems ("", "").

(** ** Merging

    [current] is the chunk at [prevIdx], always the last one, with the items it was
    made of; there is none at the start and after a chunk that is no text. *)
Record merging := MkMerging { finished : list ChunkDoc; current : option (ChunkDoc * list mergeItem) }.

Definition merged (st : merging) : list ChunkDoc :=
  finished st ++ match current st with Some (c, _) => [c] | None => [] end.

Definition join_text (joinSep a b : string) : string :=
  if bool_decide (a ≠ "") && bool_decide (b ≠ "") then a +:+ joinSep +:+ b else a +:+ b.

Definition item_of (ck : ChunkDoc) : mergeItem := MkItem (Text ck) (PDFPositions ck) (Positions ck).

(** A chunk started with the tail of the one before. *)
Definition overlapped (target : Z) (overlapPct : spec_float) (joinSep : string)
    (prev : ChunkDoc) (items : list mergeItem) (ck : ChunkDoc) : ChunkDoc :=
  let overlap := (computeOverlapPrefix (Text prev) overlapPct).1 in
  let '(overlap, trimRunes) := overlapFitPrefix overlap (Text ck) target in
  let '(pdfTail, posTail) := overlapTailPositions items (overlapCut (Text prev) overlapPct + trimRunes)%Z joinSep in
  let text := overlap +:+ Text ck in
  with_tokens (tokenizeStr text)
    (with_positions (extendRawJSONArray pdfTail (PDFPositions ck)) (extendRawJSONArray posTail (Positions ck))
       (with_text text (cloneChunkDoc ck))).

Definition starts_new (target : Z) (threshold : spec_float) (joinSep : string) (prev ck : ChunkDoc) (tk : Z) : bool :=
  SFltb threshold (float_of_int (intValue (TKNums prev)))
  || (target <? int_add (intValue (TKNums prev)) tk)%Z
  || (target <? tokenizeStr (join_text joinSep (Text prev) (Text ck)))%Z.

Definition merge_unit (target : Z) (threshold overlapPct : spec_float) (joinSep : string)
    (st : merging) (ck : ChunkDoc) : merging :=
  if decide (CKType ck = "text") then
    let tk := unit_tokens ck in
    match current st with
    | None => MkMerging (finished st) (Some (with_tokens tk (cloneChunkDoc ck), [item_of ck]))
    | Some (prev, items) =>
        if starts_new target threshold joinSep prev ck tk then
          let cp := if SFltb fzero overlapPct && bool_decide (Text prev ≠ "")
                    then (let cp := overlapped target overlapPct joinSep prev items ck in (cp, [item_of cp]))
                    else (with_tokens tk (cloneChunkDoc ck), [item_of ck]) in
          MkMerging (finished st ++ [prev]) (Some cp)
        else
          let prev := with_positions (extendRawJSONArray (PDFPositions prev) (PDFPositions ck))
                                     (extendRawJSONArray (Positions prev) (Positions ck))
                        (with_tokens (int_add (intValue (TKNums prev)) tk)
                           (with_text (join_text joinSep (Text prev) (Text ck)) prev)) in
          MkMerging (finished st) (Some (prev, items ++ [item_of ck]))
    end
  else MkMerging (merged st ++ [cloneChunkDoc ck]) None.

Definition clamp_percent (overlapPct : spec_float) : spec_float :=
  if SFltb overlapPct fzero then fzero else if SFltb hundred overlapPct then hundred else overlapPct.

Definition mergeUnits (units : list ChunkDoc) (target : Z) (overlapPct : spec_float) (joinSep : string) : list ChunkDoc :=
  let overlapPct := clamp_percent overlapPct in
  let units := expandOversizedUnits units target in
  let threshold := fdiv (fmul (float_of_int target) (fsub hundred overlapPct)) hundred in
  merged (foldl (merge_unit target threshold overlapPct joinSep) (MkMerging [] None) units).

Definition mergeByTokenSizeFromJSON (perItem : list (list ChunkDoc)) (chunkTokens : Z) (overlappedPct : spec_float)
  : list (list ChunkDoc) :=
  (λ cs, match cs with [] => [] | _ => mergeUnits cs chunkTokens (clamp_percent overlappedPct) newline end) <$> perItem.

(** ** Context of tables and images *)

(** The smallest tail, and the smallest prefix, with enough tokens. *)
Fixpoint take_from_end (i : nat) (rs : list Z) (tokens : Z) (text : string) : string :=
  match i with
  | O => text
  | S i' => let cand := string_of_runes (drop i rs) in
            if (tokens <=? tokenizeStr cand)%Z then cand else take_from_end i' rs tokens text
  end.

Definition takeFromEnd (text : string) (tokens : Z) : string :=
  take_from_end (length (runes text)) (runes text) tokens text.

Fixpoint take_from_start (todo i : nat) (rs : list Z) (tokens : Z) (text : string) : string :=
  match todo with
  | O => text
  | S todo' => let cand := string_of_runes (take i rs) in
               if (tokens <=? tokenizeStr cand)%Z then cand else take_from_start todo' (S i) rs tokens text
  end.

Definition takeFromStart (text : string) (tokens : Z) : string :=
  take_from_start (length (runes text)) 1 (runes text) tokens text.

(** The loops of [collectContext], over the chunks before in reverse and over those
    after. *)
Fixpoint context_above (before : list ChunkDoc) (remain : Z) (parts : list string) : list string :=
  match before with
  | [] => parts
  | c :: before' =>
      if (remain <=? 0)%Z then parts
      else if decide (CKType c = "text") then
        let tk := intValue (TKNums c) in
        if (remain <=? tk)%Z then takeFromEnd (Text c) remain :: parts
        else context_above before' (remain - tk)%Z (Text c :: parts)
      else context_above before' remain parts
  end.

Fixpoint context_below (after : list ChunkDoc) (remain : Z) (parts : list string) : list string :=
  match after with
  | [] => parts
  | c :: after' =>
      if (remain <=? 0)%Z then parts
      else if decide (CKType c = "text") then
        let tk := intValue (TKNums c) in
        if (remain <=? tk)%Z then parts ++ [takeFromStart (Text c) remain]
        else context_below after' (remain - tk)%Z (parts ++ [Text c])
      else context_below after' remain parts
  end.

Definition collectContext (chunks : list ChunkDoc) (i : nat) (ctxTokens : Z) (above : bool) : string :=
  str_concat (if above then context_above (reverse (take i chunks)) ctxTokens []
              else context_below (drop (S i) chunks) ctxTokens []).

(** The loop changes the contexts of the chunks in place; the texts it collects are
    not changed by it. *)
Definition attach_one (tableCtx imageCtx : Z) (chunks : list ChunkDoc) (i : nat) (ck : ChunkDoc) : ChunkDoc :=
  if bool_decide (CKType ck = "table") || bool_decide (CKType ck = "image") then
    let ctx := if decide (CKType ck = "table") then tableCtx else imageCtx in
    if (ctx <=? 0)%Z then ck
    else with_context (collectContext chunks i ctx true) (collectContext chunks i ctx false) ck
  else ck.

Definition attachMediaContext (perItem : list (list ChunkDoc)) (tableCtx imageCtx : Z) : list (list ChunkDoc) :=
  if (tableCtx <=? 0)%Z && (imageCtx <=? 0)%Z then perItem
  else (λ chunks, imap (attach_one tableCtx imageCtx chunks) chunks) <$> perItem.

(** ** Items of structured input *)
Definition itemDocType (it : ChunkDoc) : string :=
  let t := ToLower (trim_space (DocType it)) in
  if decide (t = "table") then "table" else if decide (t = "image") then "image" else "text".

Definition itemText (it : ChunkDoc) : string * bool :=
  if decide (Text it ≠ "") then (Text it, true)
  else if decide (ContentWithWeight it ≠ "") then (ContentWithWeight it, true) else ("", false).

Definition itemTextOrFallback (it : ChunkDoc) : string := let '(t, ok) := itemText it in if ok : bool then t else "".

Definition buildChunkDoc (it : ChunkDoc) (ckType text ctxAbove ctxBelow : string) : ChunkDoc :=
  MkChunk text "" ckType ckType (Some (tokenizeStr text)) (Mom it) (ImgID it) (Layout it) (Image it)
          ctxAbove ctxBelow (PageNumber it) (PDFPositions it) (Positions it) no_rest.

(** The pieces of an item with positions: [cum] runes are before them. *)
Fixpoint place_pieces (it : ChunkDoc) (total cum : Z) (pieces : list string) : list ChunkDoc :=
  match pieces with
  | [] => []
  | p :: pieces' =>
      let n := visible_runes p in
      with_positions (piece_positions (PDFPositions it) cum (cum + n) total)
                     (piece_positions (Positions it) cum (cum + n) total) (buildChunkDoc it "text" p "" "")
      :: place_pieces it total (cum + n) pieces'
  end.

Definition chunkFromItem (it : ChunkDoc) (p : option pattern) : list ChunkDoc :=
  let ckType := itemDocType it in
  let txt := itemTextOrFallback it in
  let whole := [buildChunkDoc it ckType txt "" ""] in
  if decide (ckType ≠ "text") then whole
  else match p with
       | None => whole
       | Some pat =>
           match FindAll pat txt with
           | [] => whole
           | _ =>
               let kept := filter (λ t, trim_space t ≠ "") (splitDroppingDelim txt p) in
               match kept with
               | [] => whole
               | _ =>
                   let total := foldr (λ t acc, visible_runes t + acc)%Z 0%Z kept in
                   if (bool_decide (PDFPositions it = "") && bool_decide (Positions it = "")) || bool_decide (total = 0%Z)
                   then (λ t, buildChunkDoc it "text" t "" "") <$> kept
                   else place_pieces it total 0 kept
               end
           end
       end.

(** *** The lanes of the goroutines *)
Fixpoint lanes_from (n size rem cursor i todo : nat) : list (nat * nat) :=
  match todo with
  | O => []
  | S todo' =>
      let fin := Nat.min n (cursor + size + (if decide (i < rem) then 1 else 0)) in
      (if decide (cursor < fin) then [(cursor, fin)] else []) ++ lanes_from n size rem fin (S i) todo'
  end.

Definition partition (n parts : nat) : list (nat * nat) :=
  let parts := Nat.min n (Nat.max 1 parts) in
  lanes_from n (n / parts) (n `mod` parts) 0 0 parts.

(** The goroutines write the chunks of their items into a shared slice; [sched] is
    the order in which they come to the items. *)
Definition fan_out (items : list ChunkDoc) (p : option pattern) (sched : list nat) : list (list ChunkDoc) :=
  foldl (λ perItem i, match items !! i with
                      | Some it => <[i := chunkFromItem it p]> perItem
                      | None => perItem
                      end) (replicate (length items) []) sched.

(** The items of a lane in order. *)
Definition lane_items (l : nat * nat) : list nat := seq l.1 (l.2 - l.1).

(** ** The component *)
Record TokenChunkerParam := MkParam {
  ChunkTokenSize : Z; Delimiters : list string; OverlappedPercent : spec_float;
  ChildrenDelimiters : list string; TableContextSize : Z; ImageContextSize : Z
}.

(** The chunks of an output and the error in it. *)
Record outputs := MkOutputs { out_chunks : list ChunkDoc; out_error : option string }.
Definition emptyOutputs : outputs := MkOutputs [] None.
Definition chunkOutputs (cs : list ChunkDoc) : outputs := MkOutputs cs None.

Definition trim_newline (t : string) : string := if is_prefix newline t then str_drop 1 t else t.

Definition child_texts (t : string) (p : pattern) : list string :=
  filter (λ c, trim_space c ≠ "") (splitDroppingDelim t (Some p)).

Definition applyChildrenDelimText (docs : list ChunkDoc) (p : option pattern) : list ChunkDoc :=
  match p with
  | None => docs
  | Some p =>
      docs ≫= λ d,
        if decide (trim_space (Text d) = "") then []
        else (λ c, with_mom (trim_newline (Text d)) (with_text c empty_chunk)) <$> child_texts (Text d) p
  end.

Definition splitByChildren (chunks : list ChunkDoc) (p : option pattern) : list ChunkDoc :=
  match p with
  | None => chunks
  | Some p =>
      chunks ≫= λ ck,
        if decide (DocType ck = "text") then
          (λ c, with_mom (trim_newline (Text ck)) (with_text c (cloneChunkDoc ck))) <$> child_texts (Text ck) p
        else [ck]
  end.

Definition text_doc (s : string) : ChunkDoc := with_cktype "text" (MkChunk s "" "text" "" None "" "" "" "" "" "" None "" "" no_rest).

Definition chunkPerSegment (text : string) (delimPattern childrenPattern : option pattern) : outputs :=
  match filter (λ t, t ≠ "") (trim_space <$> splitDroppingDelim text delimPattern) with
  | [] => emptyOutputs
  | cleaned => chunkOutputs (applyChildrenDelimText (text_doc <$> cleaned) childrenPattern)
  end.

(** A unit of the text path: the text after a newline. *)
Definition text_unit (t : string) : ChunkDoc :=
  let t := newline +:+ t in
  with_tokens (tokenizeStr t) (with_cktype "text" (with_text t empty_chunk)).

Definition normalize_newlines (text : string) : string :=
  let cr := String (ascii_of_nat 13) "" in
  ReplaceAll cr newline (ReplaceAll (cr +:+ newline) newline text).

(** The units of a text without delimiters. *)
Definition section_units (target : Z) (text : string) : list ChunkDoc :=
  let sec := trim_space text in
  if decide (sec = "") then []
  else
    let unit := text_unit sec in
    if (tokenizeStr (Text unit) <=? target)%Z then [unit]
    else match filter (λ t, t ≠ "") (regexp_split (match_literals sentenceDelimiter) sec) with
         | [] => [unit]
         | parts => text_unit <$> parts
         end.

Definition text_units (c : TokenChunkerParam) (text : string) (delimPattern : option pattern) : list ChunkDoc :=
  let text := normalize_newlines text in
  match delimPattern with
  | Some _ =>
      if HasCustomDelimiterList (Delimiters c) then section_units (ChunkTokenSize c) text
      else text_unit <$> filter (λ t, t ≠ "") (splitDroppingDelim text delimPattern)
  | None => section_units (ChunkTokenSize c) text
  end.

(** The text of a chunk as it is emitted. *)
Definition emitted (ck : ChunkDoc) : ChunkDoc := with_text (removeTag (trim_space (Text ck))) ck.

Definition mergeByTokenSize (c : TokenChunkerParam) (text : string) (delimPattern childrenPattern : option pattern)
  : outputs :=
  match text_units c text delimPattern with
  | [] => emptyOutputs
  | units =>
      let merged := mergeUnits units (ChunkTokenSize c) (clamp_percent (OverlappedPercent c)) "" in
      let docs := filter (λ ck, Text ck ≠ "") (emitted <$> merged) in
      chunkOutputs (applyChildrenDelimText docs childrenPattern)
  end.

Definition invokeTextPayload (c : TokenChunkerParam) (text : string) (delimPattern childrenPattern : option pattern)
  : outputs :=
  if decide (text = "") then emptyOutputs
  else match delimPattern with
       | None => mergeByTokenSize c text None childrenPattern
       | Some _ => if HasCustomDelimiterList (Delimiters c) then chunkPerSegment text delimPattern childrenPattern
                   else mergeByTokenSize c text delimPattern childrenPattern
       end.

(** [cancelled] is the error of the context when the goroutines are done; [crop]
    is what the PDF engine makes of the chunks, nothing without one. *)
Definition invokeJSONPayload (c : TokenChunkerParam) (cancelled : option string) (crop : list ChunkDoc → list ChunkDoc)
    (sched : list nat) (items : list ChunkDoc) (delimPattern childrenPattern : option pattern) : outputs :=
  match items with
  | [] => emptyOutputs
  | _ =>
      match cancelled with
      | Some err => MkOutputs [] (Some ("TokenChunker: " +:+ err))
      | None =>
          let attached := attachMediaContext (fan_out items delimPattern sched) (TableContextSize c) (ImageContextSize c) in
          let attached := if HasCustomDelimiterList (Delimiters c) then attached
                          else mergeByTokenSizeFromJSON [mjoin attached] (ChunkTokenSize c) (OverlappedPercent c) in
          let flat := splitByChildren (mjoin attached) childrenPattern in
          let out := filter (λ m, Text m ≠ "") ((λ m, with_text (removeTag (Text m)) m) <$> crop flat) in
          match out with [] => emptyOutputs | _ => chunkOutputs out end
      end
  end.

(** What arrives: a text, or items. *)
Inductive payload :=
| TextPayload (text : option string)
| ItemsPayload (items : list ChunkDoc).

Definition invoke (c : TokenChunkerParam) (cancelled : option string) (crop : list ChunkDoc → list ChunkDoc)
    (sched : list nat) (upstream : payload) : outputs :=
  let delimPattern := compileDelimPattern (Delimiters c) in
  let childrenPattern := compileChildrenPattern (ChildrenDelimiters c) in
  match upstream with
  | TextPayload None => emptyOutputs
  | TextPayload (Some text) => invokeTextPayload c text delimPattern childrenPattern
  | ItemsPayload items => invokeJSONPayload c cancelled crop sched items delimPattern childrenPattern
  end.
End chunker.
