(* ===== verification/ChunkerProps.v ===== *)
(** * What the token chunker guarantees

    Splitting loses nothing; merging keeps the units in order, one after the
    other, and within the limit of tokens for encodings that can be cut; the
    schedule of the goroutines does not matter. *)
From S2P Require Import Prelude Values Format Json JsonText JsonLaw RawJson Convert GoStrings Chunker.
From Stdlib Require Import Ascii.

Definition texts (cs : list ChunkDoc) : string := str_concat (Text <$> cs).

Lemma texts_app l k : texts (l ++ k) = texts l +:+ texts k.
Proof. unfold texts. by rewrite fmap_app, str_concat_app. Qed.

Lemma texts_cons c l : texts (c :: l) = Text c +:+ texts l.
Proof. reflexivity. Qed.

(** ** Encodings that can be cut

    What is relied on of an encoding: decoding undoes encoding and goes token by
    token, no token is empty, and the text of the first [n] tokens has at most
    [n] tokens. *)
Record cuttable (enc : Encoding) : Prop := {
  decode_encode s : Decode enc (Encode enc s) = s;
  decode_app l k : Decode enc (l ++ k) = Decode enc l +:+ Decode enc k;
  token_nonempty s t : t ∈ Encode enc s → Decode enc [t] ≠ "";
  prefix_encodes s n : length (Encode enc (Decode enc (take n (Encode enc s)))) ≤ n
}.

(** Texts without the beginning of a position tag. *)
Definition tag_free (t : string) : Prop := Index "@@" t = None.

Lemma tag_free_factor a b c : tag_free (a +:+ b +:+ c) → tag_free b.
Proof. intros Ht%Index_app_r. by apply Index_app_l in Ht. Qed.

Lemma app_nonempty_r a b : b ≠ "" → a +:+ b ≠ a.
Proof.
  intros Hb Heq. apply (f_equal String.length) in Heq. rewrite length_app_String in Heq. by destruct b; cbn in *; [|lia].
Qed.

Lemma encoded_halves enc s n :
  cuttable enc → 0 < n < length (Encode enc s) →
  ∃ tail, s = Decode enc (take n (Encode enc s)) +:+ tail ∧ Decode enc (take n (Encode enc s)) ≠ "" ∧ tail ≠ "".
Proof.
  intros [Hde Happ Hne _] Hn. exists (Decode enc (drop n (Encode enc s))).
  assert (∀ l, l ≠ [] → l ⊆ Encode enc s → Decode enc l ≠ "") as Hdec.
  { intros [|t l] Hl Hsub; [done|]. change (t :: l) with ([t] ++ l). rewrite Happ.
    assert (Decode enc [t] ≠ "") by (apply (Hne s), Hsub; left). by destruct (Decode enc [t]). }
  split_and!.
  - by rewrite <-Happ, take_drop, Hde.
  - apply Hdec; [|intros x Hx; rewrite <-(take_drop n (Encode enc s)); apply elem_of_app; by left].
    intros E%(f_equal length). rewrite length_take in E. cbn in E. lia.
  - apply Hdec; [|intros x Hx; rewrite <-(take_drop n (Encode enc s)); apply elem_of_app; by right].
    intros E%(f_equal length). rewrite length_drop in E. cbn in E. lia.
Qed.

Section chunker_props.
Context `{Tokenizer, GoFloat, UnicodeCase}.

(** ** Hard splits *)
Lemma hard_cut_range rest target cut : hard_cut rest target = Some cut → 0 < cut < String.length rest.
Proof.
  unfold hard_cut. destruct (_ <=? _)%Z; [done|]. repeat (case_decide; [done|]). intros [= <-]. lia.
Qed.

Lemma hard_split_concat fuel d target rest : texts (hard_split fuel d target rest) = rest.
Proof.
  revert rest. induction fuel as [|fuel IH]; intros rest; cbn [hard_split].
  - case_decide; [by subst|]. cbn. by rewrite app_nil_String.
  - destruct (hard_cut rest target) as [cut|] eqn:E.
    + rewrite texts_cons. cbn [Text text_piece with_tokens]. rewrite IH. apply str_take_drop.
    + case_decide; [by subst|]. cbn. by rewrite app_nil_String.
Qed.

(** Fuel for every byte is as good as any. *)
Lemma hard_split_enough d target rest n m :
  String.length rest ≤ n → String.length rest ≤ m → hard_split n d target rest = hard_split m d target rest.
Proof.
  revert m rest. induction n as [|n IH]; intros m rest Hn Hm.
  - destruct rest as [|a rest]; cbn in Hn; [|lia]. destruct m as [|m]; [done|]. cbn [hard_split].
    destruct (hard_cut "" target) as [cut|] eqn:E; [|done]. apply hard_cut_range in E. cbn in E. lia.
  - destruct m as [|m].
    + destruct rest as [|a rest]; cbn in Hm; [|lia]. cbn [hard_split].
      destruct (hard_cut "" target) as [cut|] eqn:E; [|done]. apply hard_cut_range in E. cbn in E. lia.
    + cbn [hard_split]. destruct (hard_cut rest target) as [cut|] eqn:E; [|done]. f_equal.
      apply hard_cut_range in E. apply IH; rewrite length_str_drop; lia.
Qed.

(** The loop of [hardSplitPiece] as the code has it. *)
Lemma hardSplitPiece_unfold d target rest :
  hardSplitPiece rest d target =
  match hard_cut rest target with
  | None => if decide (rest = "") then [] else [text_piece d rest]
  | Some cut => text_piece d (str_take cut rest) :: hardSplitPiece (str_drop cut rest) d target
  end.
Proof.
  unfold hardSplitPiece at 1. destruct (String.length rest) as [|n] eqn:El.
  - destruct rest; [|done]. cbn [hard_split]. destruct (hard_cut "" target) as [cut|] eqn:E; [|done].
    apply hard_cut_range in E. cbn in E. lia.
  - cbn [hard_split]. destruct (hard_cut rest target) as [cut|] eqn:E; [|done]. f_equal.
    apply hard_cut_range in E. unfold hardSplitPiece. apply hard_split_enough; rewrite length_str_drop; lia.
Qed.

Lemma hardSplitPiece_concat d target t : texts (hardSplitPiece t d target) = t.
Proof. apply hard_split_concat. Qed.

Lemma capped_concat d target t : texts (capped d target t) = t.
Proof.
  unfold capped. destruct (_ <? _)%Z; [apply hardSplitPiece_concat|]. cbn. by rewrite app_nil_String.
Qed.

(** ** Sentences *)
Lemma sentences_concat text prev idxs :
  intervals prev (String.length text) idxs → str_concat (sentences_from text prev idxs) = str_drop prev text.
Proof.
  revert prev. induction idxs as [|[a b] idxs IH]; intros prev; cbn [intervals sentences_from].
  - intros Hle. case_decide; cbn; [by rewrite app_nil_String|]. by rewrite str_drop_full by lia.
  - intros (Ha & Hab & Hi). cbn [str_concat foldr]. fold (str_concat (sentences_from text b idxs)).
    rewrite IH by done. apply intervals_le in Hi. rewrite <-(slice_tail b), <-(slice_tail prev).
    case_decide; [apply slice_app; lia|]. assert (a = prev) as -> by lia. apply slice_app; lia.
Qed.

Lemma splitSentencesLossless_concat text : str_concat (splitSentencesLossless text) = text.
Proof.
  unfold splitSentencesLossless. case_decide; [by subst|].
  rewrite sentences_concat; [apply str_drop_0|]. apply FindAll_intervals, match_literals_prefixes.
Qed.

Lemma add_sentences_concat d target parts acc :
  let r := foldl (add_sentence d target) acc parts in
  texts r.1 +:+ r.2 = texts acc.1 +:+ acc.2 +:+ str_concat parts.
Proof.
  revert acc. induction parts as [|p parts IH]; intros [pieces ws]; cbn zeta.
  - cbn. by rewrite app_nil_String.
  - cbn [foldl]. rewrite IH. cbn [add_sentence fst snd str_concat foldr]. fold (str_concat parts).
    case_decide; cbn [fst snd].
    + by rewrite (assoc_L String.append ws).
    + rewrite texts_app, capped_concat. str_norm. done.
Qed.

Lemma attach_whitespace_concat d target pieces ws : texts (attach_whitespace d target pieces ws) = texts pieces +:+ ws.
Proof.
  unfold attach_whitespace. case_decide; [subst; by rewrite app_nil_String|].
  destruct (last pieces) as [p|] eqn:E.
  - destruct pieces as [|p' pieces _] using rev_ind; [done|]. rewrite last_snoc in E. injection E as ->.
    rewrite removelast_last, texts_app, (texts_app pieces [p]).
    assert (texts [p] = Text p) as -> by (cbn; by rewrite app_nil_String). rewrite <-(assoc_L String.append). f_equal.
    destruct (_ <? _)%Z; [apply hardSplitPiece_concat|]. cbn. by rewrite app_nil_String.
  - apply last_None in E as ->. rewrite capped_concat. done.
Qed.

Lemma attach_lead_concat d target lead pieces :
  pieces ≠ [] → texts (attach_lead d target lead pieces) = lead +:+ texts pieces.
Proof.
  destruct pieces as [|p pieces]; [done|]. intros _. cbn [attach_lead]. case_decide; [by subst|].
  destruct (_ <? _)%Z.
  - rewrite texts_app, hardSplitPiece_concat, texts_cons. by rewrite (assoc_L String.append).
  - rewrite !texts_cons. cbn. by rewrite (assoc_L String.append).
Qed.

Lemma texts_nonempty cs : texts cs ≠ "" → cs ≠ [].
Proof. by intros Hne ->. Qed.

Lemma split_lead t :
  ∃ lead text, (if is_prefix newline t then (newline, str_drop 1 t) else ("", t)) = (lead, text)
    ∧ lead +:+ text = t ∧ (t ≠ "" → t ≠ newline → text ≠ "").
Proof.
  destruct (is_prefix newline t) eqn:E; [|by exists "", t].
  apply prefix_take in E. exists newline, (str_drop 1 t). split_and!; [done|by rewrite E at 2|].
  intros _ Hnl Ht. apply Hnl. rewrite E. change (String.length newline) with 1. by rewrite Ht.
Qed.

Lemma oversized_concat ck target :
  Text ck ≠ "" → Text ck ≠ newline → texts (oversized_pieces ck target).2 = Text ck.
Proof.
  intros Hne Hnl. unfold oversized_pieces.
  destruct (split_lead (Text ck)) as (lead & text & -> & Hcat & Htext). specialize (Htext Hne Hnl).
  pose proof (add_sentences_concat (DocType ck) target (splitSentencesLossless text) ([], "")) as Hp. cbn zeta in Hp.
  destruct (foldl _ _ _) as [pieces ws]. cbn [fst snd] in Hp. rewrite splitSentencesLossless_concat in Hp. cbn [fst snd] in Hp |- *.
  change (texts pieces +:+ ws = text) in Hp.
  rewrite attach_lead_concat.
  - by rewrite attach_whitespace_concat, Hp.
  - apply texts_nonempty. by rewrite attach_whitespace_concat, Hp.
Qed.

Lemma inherit_texts ck (ps : list ChunkDoc) : Text <$> (inherit ck <$> ps) = Text <$> ps.
Proof. rewrite <-list_fmap_compose. by apply list_fmap_ext. Qed.

Lemma inherit_positions_texts ck total cum (ps : list (ChunkDoc * Z)) :
  Text <$> inherit_positions ck total cum ps = Text <$> ps.*1.
Proof. revert cum. induction ps as [|[p n] ps IH]; intros cum; [done|]. cbn. by rewrite IH. Qed.

Lemma piece_counts_length lead ps : length (piece_counts lead ps) = length ps.
Proof. destruct ps; [done|]. cbn. by rewrite length_fmap. Qed.

Lemma splitOversized_texts ck target : Text <$> splitOversizedText ck target = Text <$> (oversized_pieces ck target).2.
Proof.
  unfold splitOversizedText. destruct (oversized_pieces ck target) as [lead pieces]. cbn [snd].
  destruct (_ && _); [apply inherit_texts|]. case_decide; [apply inherit_texts|].
  rewrite inherit_positions_texts, fst_zip; [done|]. by rewrite piece_counts_length.
Qed.

Lemma splitOversized_lossless ck target :
  Text ck ≠ "" → Text ck ≠ newline → texts (splitOversizedText ck target) = Text ck.
Proof. intros. unfold texts. rewrite splitOversized_texts. by apply oversized_concat. Qed.

(** Splitting an oversized text loses nothing: whatever the encoding, the texts
    of the pieces put together are the text. *)
Theorem split_lossless ck target :
  Text ck ≠ "" → Text ck ≠ newline → texts (splitOversizedText ck target) = Text ck.
Proof. apply splitOversized_lossless. Qed.

(** ** The limit *)
Definition within (target : Z) (c : ChunkDoc) : Prop := (tokenizeStr (Text c) ≤ target)%Z.

Section cap.
Context (encoding_cuttable : ∀ enc, getCL100KEncoder = Some enc → cuttable enc).
Context (target : Z) (target_pos : (0 < target)%Z).

Lemma tokens_none s : getCL100KEncoder = None → tokenizeStr s = 0%Z.
Proof. intros E. unfold tokenizeStr, NumTokensFromString. rewrite E. by case_decide. Qed.

Lemma tokens_some enc s : getCL100KEncoder = Some enc → (tokenizeStr s ≤ Z.of_nat (length (Encode enc s)))%Z.
Proof. intros E. unfold tokenizeStr, NumTokensFromString. rewrite E. case_decide; lia. Qed.

Lemma adjust_tag_free rest cut : tag_free rest → adjustCutPastTag rest cut target = cut.
Proof. intros Ht. unfold adjustCutPastTag. cbn [cut_past_tag]. rewrite str_drop_0. by rewrite Ht. Qed.

(** A text over the limit is cut at a piece within it. *)
Lemma hard_cut_fits rest :
  tag_free rest → (target < tokenizeStr rest)%Z →
  ∃ cut, hard_cut rest target = Some cut ∧ (tokenizeStr (str_take cut rest) ≤ target)%Z.
Proof.
  intros Ht Hover. destruct getCL100KEncoder as [enc|] eqn:E; [|rewrite tokens_none in Hover by done; lia].
  pose proof (encoding_cuttable enc eq_refl) as Hc. pose proof (tokens_some enc rest E) as Hn.
  set (n := Z.to_nat target). destruct (encoded_halves enc rest n Hc) as (tail & Hrest & Hh & Htl); [lia|].
  pose proof (prefix_encodes enc Hc rest n) as Hpre. pose proof (tokens_some enc (Decode enc (take n (Encode enc rest))) E) as Hhead.
  assert (TrimContentToTokenLimit rest target = Decode enc (take n (Encode enc rest))) as Htrim.
  { unfold TrimContentToTokenLimit. rewrite E. fold n. rewrite decide_False; [done|]. lia. }
  set (head := Decode enc (take n (Encode enc rest))) in *. clearbody head.
  exists (String.length head). split; [|rewrite Hrest, str_take_prefix; lia].
  unfold hard_cut. rewrite (proj2 (Z.leb_gt _ _)) by done. cbn zeta. rewrite Htrim, decide_False by done.
  assert (head ≠ rest) as Hneq by (rewrite Hrest; by apply not_eq_sym, app_nonempty_r). rewrite decide_False by done.
  assert (is_prefix head rest = true) as -> by (rewrite Hrest; apply prefix_app).
  rewrite decide_False by done. rewrite adjust_tag_free by done.
  assert (String.length rest = String.length head + String.length tail) as Hlen by (by rewrite Hrest, length_app_String).
  assert (0 < String.length head) by (destruct head; [done|cbn; lia]).
  assert (0 < String.length tail) by (destruct tail; [done|cbn; lia]). by rewrite !decide_False by lia.
Qed.

Lemma hardSplitPiece_within d rest : tag_free rest → Forall (within target) (hardSplitPiece rest d target).
Proof.
  induction rest as [rest IH] using (induction_ltof1 _ String.length). intros Ht. rewrite hardSplitPiece_unfold.
  destruct (Z.leb_spec (tokenizeStr rest) target) as [Hle|Hgt].
  - unfold hard_cut. rewrite (proj2 (Z.leb_le _ _)) by done. case_decide; [done|]. by apply Forall_singleton.
  - destruct (hard_cut_fits rest Ht Hgt) as (cut & E & Hfit). rewrite E. constructor; [done|].
    apply hard_cut_range in E. apply IH.
    + unfold ltof. rewrite length_str_drop. lia.
    + unfold tag_free in Ht. rewrite <-(str_take_drop cut rest) in Ht. by apply Index_app_r in Ht.
Qed.

Lemma capped_within d t : tag_free t → Forall (within target) (capped d target t).
Proof.
  intros Ht. unfold capped. destruct (Z.ltb_spec target (tokenizeStr t)); [by apply hardSplitPiece_within|].
  by apply Forall_singleton.
Qed.

Lemma add_sentences_within d parts acc :
  tag_free (texts acc.1 +:+ acc.2 +:+ str_concat parts) → Forall (within target) acc.1 →
  Forall (within target) (foldl (add_sentence d target) acc parts).1.
Proof.
  revert acc. induction parts as [|p parts IH]; intros [pieces ws]; [done|].
  cbn [foldl fst snd str_concat foldr]. fold (str_concat parts). intros Ht Hw. apply IH; cbn [add_sentence]; case_decide; cbn [fst snd].
  - by rewrite <-(assoc_L String.append ws).
  - rewrite texts_app, capped_concat, app_Empty, <-(assoc_L String.append), <-(assoc_L String.append). done.
  - done.
  - apply Forall_app_2; [done|]. apply capped_within. rewrite (assoc_L String.append ws) in Ht. by apply tag_free_factor in Ht.
Qed.

Lemma attach_whitespace_within d pieces ws :
  tag_free (texts pieces +:+ ws) → Forall (within target) pieces →
  Forall (within target) (attach_whitespace d target pieces ws).
Proof.
  intros Ht Hw. unfold attach_whitespace. case_decide; [done|]. destruct (last pieces) as [p|] eqn:E.
  - destruct pieces as [|p' pieces _] using rev_ind; [done|]. rewrite last_snoc in E. injection E as ->.
    apply Forall_app in Hw as [Hw _]. rewrite removelast_last. apply Forall_app_2; [done|].
    rewrite texts_app, <-(assoc_L String.append) in Ht. cbn in Ht. rewrite app_nil_String in Ht. apply Index_app_r in Ht.
    destruct (Z.ltb_spec target (tokenizeStr (Text p +:+ ws))); [by apply hardSplitPiece_within|]. by apply Forall_singleton.
  - apply last_None in E as ->. by apply capped_within.
Qed.

Lemma attach_lead_within d lead pieces :
  tag_free (lead +:+ texts pieces) → Forall (within target) pieces → Forall (within target) (attach_lead d target lead pieces).
Proof.
  intros Ht Hw. destruct pieces as [|p pieces]; [done|]. cbn [attach_lead]. case_decide; [done|].
  apply Forall_cons in Hw as [_ Hw]. rewrite texts_cons, (assoc_L String.append) in Ht. apply Index_app_l in Ht.
  destruct (Z.ltb_spec target (tokenizeStr (lead +:+ Text p))).
  - apply Forall_app_2; [by apply hardSplitPiece_within|done].
  - by constructor.
Qed.

Lemma oversized_within ck : tag_free (Text ck) → Forall (within target) (oversized_pieces ck target).2.
Proof.
  intros Ht. unfold oversized_pieces.
  destruct (split_lead (Text ck)) as (lead & text & -> & Hcat & _).
  rewrite <-Hcat in Ht. pose proof (Index_app_r _ _ _ Ht) as Ht'.
  pose proof (add_sentences_concat (DocType ck) target (splitSentencesLossless text) ([], "")) as Hp.
  pose proof (add_sentences_within (DocType ck) (splitSentencesLossless text) ([], "")) as Hw.
  cbn zeta in Hp. cbn [fst snd] in Hw. rewrite splitSentencesLossless_concat in Hw, Hp. specialize (Hw Ht' (Forall_nil_2 _)).
  destruct (foldl _ _ _) as [pieces ws]. cbn [fst snd] in Hp, Hw |- *. change (texts pieces +:+ ws = text) in Hp.
  apply attach_lead_within; [by rewrite attach_whitespace_concat, Hp|].
  apply attach_whitespace_within; [by rewrite Hp|done].
Qed.

Lemma within_texts cs ds : Text <$> cs = Text <$> ds → Forall (within target) ds → Forall (within target) cs.
Proof.
  assert (∀ l, Forall (within target) l ↔ Forall (λ t, (tokenizeStr t ≤ target)%Z) (Text <$> l)) as Hl.
  { intros l. by rewrite Forall_fmap. }
  rewrite !Hl. by intros ->.
Qed.

(** What is relied on of a unit: no tag in its text and no count below its tokens. *)
Definition counted (u : ChunkDoc) : Prop :=
  CKType u = "text" → tag_free (Text u) ∧ ((0 < intValue (TKNums u))%Z → (tokenizeStr (Text u) ≤ intValue (TKNums u))%Z).

Definition text_within (c : ChunkDoc) : Prop := CKType c = "text" → within target c.

Lemma expand_within units : Forall counted units → Forall text_within (expandOversizedUnits units target).
Proof.
  intros Hu. unfold expandOversizedUnits. rewrite (proj2 (Z.leb_gt _ _)) by done.
  apply Forall_bind. eapply Forall_impl; [exact Hu|]. intros u Hc. unfold compose, expand_unit.
  case_decide as Ht; [|apply Forall_singleton; by intros ?]. destruct (Hc Ht) as [Htag Hcount].
  destruct (Z.leb_spec (unit_tokens u) target) as [Hle|_].
  - assert (tokenizeStr (Text u) ≤ target)%Z.
    { unfold unit_tokens in Hle. destruct (Z.leb_spec (intValue (TKNums u)) 0); [done|]. specialize (Hcount ltac:(done)). lia. }
    apply Forall_singleton. intros _. by destruct (TKNums u).
  - eapply Forall_impl; [|by intros c Hw _].
    apply (within_texts _ (oversized_pieces u target).2); [apply splitOversized_texts|by apply oversized_within].
Qed.

Lemma fit_from_within current c rs :
  (tokenizeStr current ≤ target)%Z → (tokenizeStr ((fit_from current target c rs).1 +:+ current) ≤ target)%Z.
Proof.
  intros Hc. revert c. induction rs as [|r rs IH]; intros c; [done|]. cbn [fit_from].
  destruct (Z.leb_spec (tokenizeStr (string_of_runes rs +:+ current)) target); [done|]. apply IH.
Qed.

Lemma overlapFit_within o current :
  (tokenizeStr current ≤ target)%Z → (tokenizeStr ((overlapFitPrefix o current target).1 +:+ current) ≤ target)%Z.
Proof.
  intros Hc. unfold overlapFitPrefix. destruct (Z.leb_spec (tokenizeStr (o +:+ current)) target); [done|].
  by apply fit_from_within.
Qed.

Lemma overlapped_within pct sep prev items ck : within target ck → within target (overlapped target pct sep prev items ck).
Proof.
  intros Hw. unfold overlapped. pose proof (overlapFit_within (computeOverlapPrefix (Text prev) pct).1 (Text ck) Hw) as Hf.
  destruct (overlapFitPrefix _ _ _) as [o n]. destruct (overlapTailPositions _ _ _) as [p q]. exact Hf.
Qed.

Lemma merge_unit_within threshold pct sep st ck :
  Forall text_within (merged st) → text_within ck → Forall text_within (merged (merge_unit target threshold pct sep st ck)).
Proof.
  intros Hst Hck. unfold merge_unit. case_decide as Ht.
  2: { unfold merged at 1. cbn. rewrite app_nil_r. apply Forall_app_2; [done|]. by apply Forall_singleton. }
  specialize (Hck Ht). unfold merged in *. destruct (current st) as [[prev items]|]; cbn in Hst |- *.
  - apply Forall_app in Hst as [Hf [Hp _]%Forall_cons].
    destruct (starts_new _ _ _ _ _ _) eqn:En; cbn.
    + rewrite <-(assoc_L (++)). apply Forall_app_2; [done|]. constructor; [done|]. destruct (_ && _); apply Forall_singleton; intros _; [|done].
      by apply overlapped_within.
    + apply Forall_app_2; [done|]. apply Forall_singleton. intros _. unfold starts_new in En.
      apply orb_false_iff in En as [_ En%Z.ltb_ge]. exact En.
  - apply Forall_app in Hst as [Hf _]. apply Forall_app_2; [done|]. apply Forall_singleton. by intros _.
Qed.

End cap.

(** ** What merging keeps

    Chunks in order, each made of the next units: a chunk that is no text of one
    unit, a text of consecutive text units joined, after a tail of the text chunk
    before it. *)
Definition tail_of (t p : string) : Prop := ∃ n, p = string_of_runes (drop n (runes t)).

(** Nothing, or a tail of a tail of the visible text of the chunk before. *)
Definition overlap_of (pct : spec_float) (prev : option ChunkDoc) (p : string) : Prop :=
  p = "" ∨ ∃ c o, SFltb fzero pct = true ∧ prev = Some c ∧ tail_of (removeTag (Text c)) o ∧ (p = o ∨ tail_of o p).

Inductive merges (pct : spec_float) (sep : string) : option ChunkDoc → list ChunkDoc → list ChunkDoc → Prop :=
| merges_nil prev : merges pct sep prev [] []
| merges_other prev u us cs :
    CKType u ≠ "text" → merges pct sep None us cs → merges pct sep prev (u :: us) (u :: cs)
| merges_text prev p u g c us cs :
    Forall (λ u, CKType u = "text") (u :: g) → overlap_of pct prev p →
    Text c = foldl (join_text sep) (p +:+ Text u) (Text <$> g) → CKType c = "text" →
    merges pct sep (Some c) us cs → merges pct sep prev (u :: g ++ us) (c :: cs).

Lemma fit_from_tail current target n rs :
  let p := (fit_from current target n rs).1 in p = "" ∨ ∃ k, p = string_of_runes (drop k rs).
Proof.
  revert n. induction rs as [|r rs IH]; intros n; cbn zeta; [by left|]. cbn [fit_from].
  destruct (_ <=? _)%Z; [right; by exists 1|]. destruct (IH (n + 1)%Z) as [Hp|[k Hp]]; [by left|].
  right. by exists (S k).
Qed.

Lemma overlapped_text target pct sep prev items ck :
  ∃ p, (p = "" ∨ ∃ o, tail_of (removeTag (Text prev)) o ∧ (p = o ∨ tail_of o p)) ∧
    Text (overlapped target pct sep prev items ck) = p +:+ Text ck ∧
    CKType (overlapped target pct sep prev items ck) = CKType ck.
Proof.
  unfold overlapped. set (o := (computeOverlapPrefix (Text prev) pct).1).
  assert (o = "" ∨ tail_of (removeTag (Text prev)) o) as Ho.
  { unfold o, computeOverlapPrefix. case_decide; [by left|]. cbn zeta. destruct (_ <=? _)%Z; [by left|]. right. by eexists. }
  assert ((overlapFitPrefix o (Text ck) target).1 = "" ∨ (overlapFitPrefix o (Text ck) target).1 = o ∨
          tail_of o (overlapFitPrefix o (Text ck) target).1) as Hp.
  { unfold overlapFitPrefix. destruct (_ <=? _)%Z; [by right; left|].
    destruct (fit_from_tail (Text ck) target 0 (runes o)) as [Hp|[k Hp]]; [by left|]. right. right. by exists k. }
  destruct (overlapFitPrefix o (Text ck) target) as [p n]. cbn in Hp. destruct (overlapTailPositions _ _ _) as [q r].
  exists p. split; [|done]. destruct Ho as [Ho|Ho].
  - left. destruct Hp as [|[->|[k ->]]]; [done|done|]. rewrite Ho. by destruct k.
  - destruct Hp as [|Hp]; [by left|]. right. by exists o.
Qed.

Section merging.
Context (target : Z) (threshold pct : spec_float) (sep : string).

Abbreviation run := (foldl (merge_unit target threshold pct sep)).

(** The chunk that follows [prev]. *)
Lemma fresh_chunk prev items u :
  let cp := if SFltb fzero pct && bool_decide (Text prev ≠ "")
            then (let cp := overlapped target pct sep prev items u in (cp, [item_of cp]))
            else (with_tokens (unit_tokens u) (cloneChunkDoc u), [item_of u]) in
  ∃ p, overlap_of pct (Some prev) p ∧ Text cp.1 = p +:+ Text u ∧ CKType cp.1 = CKType u.
Proof.
  cbn zeta. destruct (SFltb fzero pct) eqn:Ep; cbn [andb]; [|exists ""; by split_and!; [left|..]].
  case_bool_decide; [|exists ""; by split_and!; [left|..]].
  destruct (overlapped_text target pct sep prev items u) as (p & Hp & Ht & Hc). exists p. split_and!; [|done..].
  destruct Hp as [|(o & Ho & Hp)]; [by left|]. right. by exists prev, o.
Qed.

Lemma merge_run us st :
  match current st with
  | None => ∃ cs, merged (run st us) = finished st ++ cs ∧ merges pct sep None us cs
  | Some (c, _) => CKType c = "text" →
      ∃ g us' c' cs, us = g ++ us' ∧ merged (run st us) = finished st ++ c' :: cs ∧ CKType c' = "text" ∧
        Forall (λ u, CKType u = "text") g ∧
        Text c' = foldl (join_text sep) (Text c) (Text <$> g) ∧ merges pct sep (Some c') us' cs
  end.
Proof.
  revert st. induction us as [|u us IH]; intros st.
  - cbn. unfold merged. destruct (current st) as [[c items]|].
    + intros Hc. exists [], [], c, []. split_and!; [done..|constructor].
    + exists []. split; [done|constructor].
  - cbn [foldl]. specialize (IH (merge_unit target threshold pct sep st u)). revert IH.
    remember (merge_unit target threshold pct sep st u) as st' eqn:E. unfold merge_unit in E.
    destruct (decide (CKType u = "text")) as [Hu|Hu].
    2: { subst st'. cbn [current finished]. intros (cs & -> & Hm). unfold merged. rewrite <-!(assoc_L (++)).
         destruct (current st) as [[c items]|]; [|exists (u :: cs); by split; [|constructor]].
         intros Hc. exists [], (u :: us), c, (u :: cs). split_and!; [done..|by constructor]. }
    destruct (current st) as [[c items]|].
    + destruct (starts_new _ _ _ _ _ _).
      * destruct (fresh_chunk c items u) as (p & Hp & Ht & Hk). cbn zeta in E, Hp, Ht, Hk.
        destruct (if SFltb fzero pct && bool_decide (Text c ≠ "") then _ else _) as [cp its]. subst st'. cbn [current finished fst] in Ht, Hk |- *.
        intros IH Hc. destruct IH as (g & us' & c' & cs & -> & -> & Hc' & Hg & Htc & Hm); [by rewrite Hk|].
        exists [], (u :: g ++ us'), c, (c' :: cs). rewrite <-(assoc_L (++)). split_and!; [done..|].
        eapply merges_text; [by constructor|exact Hp|by rewrite <-Ht|done|done].
      * subst st'. cbn [current finished]. intros IH Hc. destruct (IH Hc) as (g & us' & c' & cs & -> & -> & Hc' & Hg & Htc & Hm).
        exists (u :: g), us', c', cs. split_and!; [done..|by constructor|done|done].
    + subst st'. cbn [current finished]. intros IH. destruct (IH Hu) as (g & us' & c' & cs & -> & -> & Hc' & Hg & Htc & Hm).
      exists (c' :: cs). split; [done|]. apply (merges_text _ _ _ ""); [by constructor|by left|done|done|done].
Qed.
End merging.

Lemma mergeUnits_merges units target pct sep :
  merges (clamp_percent pct) sep None (expandOversizedUnits units target) (mergeUnits units target pct sep).
Proof.
  unfold mergeUnits.
  destruct (merge_run target (fdiv (fmul (float_of_int target) (fsub hundred (clamp_percent pct))) hundred) (clamp_percent pct) sep
              (expandOversizedUnits units target) (MkMerging [] None)) as (cs & Hcs & Hm).
  cbn [finished app] in Hcs. by rewrite Hcs.
Qed.


Lemma merges_texts pct prev us cs :
  SFltb fzero pct = false → merges pct "" prev us cs → texts cs = texts us.
Proof.
  intros Hpct. induction 1 as [|prev u us cs Hu Hm IH|prev p u g c us cs Hg Hp Hc Hk Hm IH]; [done|by rewrite !texts_cons, IH|].
  assert (p = "") as ->.
  { destruct Hp as [|(? & ? & Hlt & _)]; [done|]. by rewrite Hpct in Hlt. }
  rewrite !texts_cons, texts_app, IH, Hc, app_Empty, (assoc_L String.append). f_equal.
  generalize (Text u). clear. induction g as [|v g IH]; intros t; cbn [fmap list_fmap foldl]; [cbn; by rewrite app_nil_String|].
  rewrite IH, texts_cons, (assoc_L String.append). f_equal. unfold join_text. by destruct (_ && _).
Qed.

Lemma expand_texts units target :
  Forall (λ u, Text u ≠ "" ∧ Text u ≠ newline) units → texts (expandOversizedUnits units target) = texts units.
Proof.
  intros Hu. unfold expandOversizedUnits. destruct (_ <=? _)%Z; [done|].
  induction Hu as [|u us [Hne Hnl] Hus IH]; [done|]. rewrite bind_cons, texts_app, texts_cons, IH. f_equal.
  unfold expand_unit. case_decide; [|cbn; by rewrite app_nil_String]. destruct (_ <=? _)%Z; [|by apply splitOversized_lossless].
  destruct (TKNums u); cbn; by rewrite app_nil_String.
Qed.

(** Without an overlap the texts of the chunks of the text path, put together,
    are the texts of the units: nothing is lost, moved or repeated. *)
Theorem merge_lossless units target pct :
  SFltb fzero pct = false → Forall (λ u, Text u ≠ "" ∧ Text u ≠ newline) units →
  texts (mergeUnits units target pct "") = texts units.
Proof.
  intros Hpct Hu. rewrite (merges_texts (clamp_percent pct) None (expandOversizedUnits units target)).
  - by apply expand_texts.
  - unfold clamp_percent. destruct (SFltb pct fzero); [done|]. destruct (SFltb hundred pct) eqn:E; [|done].
    by destruct pct as [| [] | | [] m e].
  - apply mergeUnits_merges.
Qed.

(** ** Goroutines *)
Lemma fan_out_lookup items p sched i :
  NoDup sched → Forall (λ i, i < length items) sched →
  fan_out items p sched !! i =
  if decide (i ∈ sched) then (λ it, chunkFromItem it p) <$> items !! i else replicate (length items) [] !! i.
Proof.
  unfold fan_out. generalize (replicate (length items) ([] : list ChunkDoc)) (length_replicate (length items) ([] : list ChunkDoc)).
  intros acc Hacc Hnd Hlt. revert acc Hacc. induction sched as [|j sched IH]; intros acc Hacc; [done|].
  apply NoDup_cons in Hnd as [Hj Hnd]. apply Forall_cons in Hlt as [Hjl Hlt].
  cbn [foldl]. destruct (items !! j) as [it|] eqn:Ej; [|by apply lookup_ge_None in Ej; lia].
  rewrite IH by (done || by rewrite length_insert). destruct (decide (i ∈ sched)) as [Hi|Hi].
  - by rewrite decide_True by (by right).
  - destruct (decide (i = j)) as [->|Hne].
    + rewrite decide_True by (by left). rewrite list_lookup_insert_eq by (by rewrite Hacc). by rewrite Ej.
    + rewrite decide_False by (by intros [?|?]%elem_of_cons). by rewrite list_lookup_insert_ne.
Qed.

Lemma fan_out_all items p sched :
  sched ≡ₚ seq 0 (length items) → fan_out items p sched = (λ it, chunkFromItem it p) <$> items.
Proof.
  intros Hs. apply list_eq. intros i. rewrite fan_out_lookup.
  - rewrite list_lookup_fmap. destruct (decide (i ∈ sched)) as [Hi|Hi]; [done|].
    rewrite Hs, elem_of_seq in Hi. rewrite !(lookup_ge_None_2 _ i); [done|lia|]. rewrite length_replicate. lia.
  - rewrite Hs. apply NoDup_seq.
  - rewrite Hs. apply Forall_seq. lia.
Qed.

Lemma lanes_cover n size rem cursor i todo :
  cursor ≤ n → rem ≤ i + todo → n ≤ cursor + todo * size + (rem - i) →
  mjoin (lane_items <$> lanes_from n size rem cursor i todo) = seq cursor (n - cursor).
Proof.
  revert cursor i. induction todo as [|todo IH]; intros cursor i Hc Hr Hn; cbn [lanes_from].
  { replace (n - cursor) with 0 by lia. done. }
  set (b := if decide (i < rem) then 1 else 0). assert (rem - i = b + (rem - S i)) as Hb by (unfold b; case_decide; lia).
  set (fin := Nat.min n (cursor + size + b)). rewrite fmap_app, join_app, IH by (unfold fin; lia).
  case_decide.
  - cbn. rewrite app_nil_r. unfold lane_items. cbn. replace (seq fin) with (seq (cursor + (fin - cursor))) by (f_equal; lia).
    rewrite <-seq_app. f_equal. unfold fin. lia.
  - cbn. assert (fin = cursor) as -> by (unfold fin in *; lia). done.
Qed.

(** The lanes partition the items. *)
Lemma partition_covers n parts : mjoin (lane_items <$> partition n parts) = seq 0 n.
Proof.
  unfold partition. set (k := Nat.min n (Nat.max 1 parts)). rewrite lanes_cover; [by rewrite Nat.sub_0_r|lia|..].
  - destruct (decide (k = 0)) as [Hk|Hk]; [unfold k in *; destruct n; [done|lia]|]. pose proof (Nat.mod_upper_bound n k Hk). lia.
  - destruct (decide (k = 0)) as [Hk|Hk]; [unfold k in *; lia|]. pose proof (Nat.div_mod_eq n k). lia.
Qed.

(** The goroutines of a structured payload make of every item its own chunks,
    in the order of the items, however their work on the items interleaves. *)
Theorem fan_out_order items p workers sched :
  sched ≡ₚ mjoin (lane_items <$> partition (length items) workers) →
  fan_out items p sched = (λ it, chunkFromItem it p) <$> items.
Proof. rewrite partition_covers. apply fan_out_all. Qed.

(** ** The context of tables and images *)
Lemma attach_text tableCtx imageCtx chunks i ck : CKType ck = "text" → attach_one tableCtx imageCtx chunks i ck = ck.
Proof. intros Hc. unfold attach_one. by rewrite Hc. Qed.

Lemma place_pieces_text it total cum ps : Forall (λ c, CKType c = "text") (place_pieces it total cum ps).
Proof. revert cum. induction ps as [|p ps IH]; intros cum; by constructor. Qed.

Lemma imap_texts tableCtx imageCtx chunks l :
  Forall (λ c, CKType c = "text") l → imap (attach_one tableCtx imageCtx chunks) l = l.
Proof.
  intros Hl. apply list_eq. intros i. rewrite list_lookup_imap.
  destruct (l !! i) as [c|] eqn:E; [|done]. cbn. rewrite attach_text; [done|].
  exact (Forall_lookup_1 _ _ _ _ Hl E).
Qed.

Lemma attach_item tableCtx imageCtx it p :
  imap (attach_one tableCtx imageCtx (chunkFromItem it p)) (chunkFromItem it p) = chunkFromItem it p.
Proof.
  assert (∀ c, ContextAbove c = "" → ContextBelow c = "" →
            imap (attach_one tableCtx imageCtx [c]) [c] = [c]) as Hone.
  { intros c Ha Hb. cbn. f_equal. unfold attach_one. destruct (_ || _); [|done]. destruct (_ <=? _)%Z; [done|].
    unfold collectContext. cbn. destruct c. cbn in Ha, Hb. by subst. }
  unfold chunkFromItem. case_decide; [by apply Hone|]. destruct p as [pat|]; [|by apply Hone].
  destruct (FindAll pat (itemTextOrFallback it)); [by apply Hone|].
  destruct (filter _ _) as [|t ts]; [by apply Hone|]. destruct (_ || _); apply imap_texts; [|apply place_pieces_text].
  apply Forall_fmap, Forall_true. done.
Qed.

(** The context of tables and images is never attached: each of them is alone
    in the list of its item when the texts around it are looked for. *)
Theorem media_context_never_attached items p sched tableCtx imageCtx :
  sched ≡ₚ seq 0 (length items) →
  attachMediaContext (fan_out items p sched) tableCtx imageCtx = fan_out items p sched.
Proof.
  intros Hs. rewrite (fan_out_all items p sched Hs). unfold attachMediaContext. destruct (_ && _); [done|].
  rewrite <-list_fmap_compose. apply list_fmap_ext. intros i it _. apply attach_item.
Qed.

(** ** Delimiters *)
Abbreviation longer := (λ d e : string, (RuneCountInString e ≤ RuneCountInString d)%Z).

Lemma insert_longer_perm d l : insert_longer d l ≡ₚ d :: l.
Proof.
  induction l as [|e l IH]; [done|]. cbn. destruct (_ <? _)%Z; [done|]. rewrite IH. constructor.
Qed.

Lemma insert_longer_sorted d l : StronglySorted longer l → StronglySorted longer (insert_longer d l).
Proof.
  induction 1 as [|e l Hl IH He]; [by repeat constructor|]. cbn. destruct (Z.ltb_spec (RuneCountInString e) (RuneCountInString d)).
  - constructor; [by constructor|]. constructor; [lia|]. eapply Forall_impl; [exact He|]. cbn. intros. lia.
  - constructor; [done|]. rewrite insert_longer_perm. by constructor.
Qed.

Lemma sort_by_runes_spec l : StronglySorted longer (sort_by_runes l) ∧ sort_by_runes l ≡ₚ l.
Proof.
  unfold sort_by_runes. assert (StronglySorted longer []) as Hnil by constructor. revert Hnil.
  enough (∀ acc, StronglySorted longer acc → StronglySorted longer (foldl (λ acc d, insert_longer d acc) acc l)
            ∧ foldl (λ acc d, insert_longer d acc) acc l ≡ₚ l ++ acc) as Hgo.
  { intros Hnil. destruct (Hgo [] Hnil) as [Hs Hp]. by rewrite app_nil_r in Hp. }
  induction l as [|d l IH]; intros acc Ha; [done|]. cbn [foldl].
  destruct (IH (insert_longer d acc)) as [Hs Hp]; [by apply insert_longer_sorted|]. split; [done|].
  rewrite Hp, insert_longer_perm. by rewrite <-Permutation_middle.
Qed.

Lemma match_literals_Some p s n :
  match_literals p s = Some n → ∃ l d r, p = l ++ d :: r ∧ n = String.length d ∧ String.prefix d s = true ∧
    Forall (λ e, String.prefix e s = false) l.
Proof.
  induction p as [|d p IH]; [done|]. cbn. destruct (String.prefix d s) eqn:E.
  - intros [= <-]. by exists [], d, p.
  - intros (l & e & r & -> & ? & ? & ?)%IH. exists (d :: l), e, r. split_and!; [done..|]. by constructor.
Qed.

(** Where several delimiters match, the text is split at the one with the most
    characters: what a compiled list of delimiters matches is a delimiter of the
    list at that place, and no delimiter that matches there has more runes. *)
Theorem longest_delimiter_wins delims keepBare p s n :
  CompileDelimiterPatternList delims keepBare = Some p → match_literals p s = Some n →
  ∃ d, d ∈ delimiter_list keepBare [] delims ∧ String.prefix d s = true ∧ n = String.length d ∧
    ∀ e, e ∈ delimiter_list keepBare [] delims → String.prefix e s = true →
         (RuneCountInString e ≤ RuneCountInString d)%Z.
Proof.
  unfold CompileDelimiterPatternList. intros Hp Hm.
  assert (p = sort_by_runes (delimiter_list keepBare [] delims)) as -> by (by destruct (delimiter_list _ _ _); simplify_eq).
  destruct (sort_by_runes_spec (delimiter_list keepBare [] delims)) as [Hs Hperm].
  destruct (match_literals_Some _ _ _ Hm) as (l & d & r & Hl & Hn & Hd & Hnone). exists d.
  split_and!; [|done..|].
  - rewrite <-Hperm, Hl. apply elem_of_app. right. left.
  - intros e He Hpre. rewrite <-Hperm, Hl in He. rewrite Hl in Hs. apply elem_of_app in He as [He|He].
    + rewrite Forall_forall in Hnone. by rewrite Hnone in Hpre.
    + apply elem_of_cons in He as [->|He]; [done|]. apply StronglySorted_app_1_r in Hs.
      apply StronglySorted_inv in Hs as [_ Hr]. rewrite Forall_forall in Hr. by apply Hr.
Qed.

Lemma parts_without text m : finds_prefixes m →
  ∀ s skip pos cursor, str_drop pos text = s → pos + String.length s = String.length text → skip ≤ String.length s →
  (skip = 0 → cursor ≤ pos →
   str_concat (parts_between text cursor (find_all m skip pos s)) = slice cursor pos text +:+ without_matches m skip s) ∧
  (cursor = pos + skip → str_concat (parts_between text cursor (find_all m skip pos s)) = without_matches m skip s).
Proof.
  intros Hm s. induction s as [|a s IH]; intros skip pos cursor Hs Hl Hskip; cbn in Hl, Hskip.
  - assert (skip = 0) as -> by lia. assert (pos = String.length text) as -> by lia. cbn. split.
    + intros _ Hc. rewrite app_nil_String, slice_tail. case_decide; cbn; [by rewrite app_nil_String|].
      by rewrite str_drop_full by lia.
    + intros ->. by rewrite decide_False by lia.
  - assert (str_drop (S pos) text = s) as Hs'.
    { replace (S pos) with (pos + 1) by lia. rewrite <-str_drop_drop, Hs, str_drop_cons. apply str_drop_0. }
    assert (∀ c, c ≤ pos → slice c (S pos) text = slice c pos text +:+ String a "") as Hsl.
    { intros c Hc. rewrite <-(slice_app c pos (S pos)) by lia. f_equal. unfold slice.
      replace (S pos - pos) with 1 by lia. rewrite Hs, str_take_cons. by rewrite str_take_0. }
    specialize (λ k c, IH k (S pos) c Hs' ltac:(lia)).
    destruct skip as [|skip]; cbn [find_all without_matches].
    + assert (m (String a s) = None ∨ m (String a s) = Some 0 ∨ ∃ n, m (String a s) = Some (S n)) as [E|[E|[n E]]].
      { destruct (m (String a s)) as [[|n]|]; [by right; left|right; right; by eexists|by left]. }
      1,2: rewrite E; assert (∀ c, c ≤ pos → str_concat (parts_between text c (find_all m 0 (S pos) s)) =
             slice c pos text +:+ String a (without_matches m 0 s)) as Hgo
             by (intros c Hc; destruct (IH 0 c ltac:(lia)) as [-> _]; [|done|lia]; rewrite Hsl by done; by str_norm);
           (split; [intros _; apply Hgo|]); intros ->; rewrite Hgo by lia; rewrite Nat.add_0_r; by rewrite slice_nil, app_Empty.
      rewrite E. pose proof (Hm _ _ E) as Hn. cbn in Hn. cbn [parts_between].
      destruct (IH n (S pos + n) ltac:(lia)) as [_ Hgo]. specialize (Hgo eq_refl). split.
      * intros _ Hc. case_decide as Hd; [by rewrite Hgo, Hd, slice_nil, app_Empty|].
        cbn [str_concat foldr]. fold (str_concat (parts_between text (S pos + n) (find_all m n (S pos) s))). by rewrite Hgo.
      * intros ->. rewrite decide_True by lia. by rewrite Hgo.
    + split; [done|]. intros ->. destruct (IH skip (S pos + skip) ltac:(lia)) as [_ Hgo].
      replace (pos + S skip) with (S pos + skip) by lia. by apply Hgo.
Qed.

(** Splitting at delimiters drops exactly the delimiters: the parts, put
    together, are the text without the matches of the pattern. *)
Theorem split_drops_delimiters text p :
  str_concat (splitDroppingDelim text (Some p)) = without_matches (match_literals p) 0 text.
Proof.
  unfold splitDroppingDelim, FindAll, FindAllStringIndex.
  destruct (parts_without text (match_literals p) (match_literals_prefixes p) text 0 0 0) as [_ Hgo];
    [apply str_drop_0|done|lia|]. rewrite <-Hgo by done.
  destruct (find_all (match_literals p) 0 0 text) as [|ab l]; [|done]. cbn. rewrite str_drop_0.
  case_decide; [done|]. by destruct text; [|cbn in *; lia].
Qed.
End chunker_props.

(** ** Examples and witnesses *)

(** Every byte a token. *)
Definition byte_encoding : Encoding :=
  {| Encode := bytes_of; Decode := foldr (λ z, String (byte_char z)) "" |}.

Lemma byte_encoding_cuttable : cuttable byte_encoding.
Proof.
  assert (∀ s, Decode byte_encoding (bytes_of s) = s) as Hde.
  { induction s as [|a s IH]; [done|]. cbn in *. rewrite IH. f_equal. apply byte_char_byte.
    apply Z.mod_small. unfold byte_of. pose proof (N_ascii_bounded a). lia. }
  split.
  - exact Hde.
  - intros l k. induction l as [|z l IH]; [done|]. cbn in *. rewrite app_String. by f_equal.
  - done.
  - intros s n. cbn. revert n. induction s as [|a s IH]; intros n; [destruct n; cbn; lia|]. destruct n as [|n]; [cbn; lia|].
    cbn. specialize (IH n). lia.
Qed.

Section examples.
Local Instance byte_tokenizer : Tokenizer := Some byte_encoding.
Local Existing Instance amd64.
Local Existing Instance ascii_case.

Definition unit_of (t : string) : ChunkDoc := with_tokens (tokenizeStr t) (text_doc t).

Example merge_example :
  Text <$> mergeUnits [unit_of "abcd"; unit_of "ef"; unit_of "ghi"] 6 fzero "" = ["abcdef"; "ghi"].
Proof. vm_compute. reflexivity. Qed.

Example overlap_example :
  Text <$> mergeUnits [unit_of "abcd"; unit_of "efgh"] 6 (float_of_int 50) "" = ["abcd"; "cdefgh"].
Proof. vm_compute. reflexivity. Qed.

(** A position tag at the start of a piece is kept whole, over the limit. *)
Example tag_over_limit :
  Text <$> mergeUnits [unit_of "@@1##x"] 3 fzero "" = ["@@1##"; "x"] ∧ tokenizeStr "@@1##" = 5%Z.
Proof. split; vm_compute; reflexivity. Qed.

(** With tokens smaller than a character a cut goes through the character. *)
Example cut_inside_character :
  (λ c, valid_utf8 0 (Text c)) <$> mergeUnits [unit_of "日"] 2 fzero "" = [false; false].
Proof. vm_compute. reflexivity. Qed.

(** The marks that end sentences are dropped from an oversized text without
    delimiters, here also a question mark. *)
Example sentence_marks_lost :
  let c := MkParam 9 [] fzero [] 0 0 in
  Text <$> out_chunks (invokeTextPayload c "Why? Because!" None None) = ["Why"; "Because"].
Proof. vm_compute. reflexivity. Qed.

(** Position tags are removed only after texts are split at delimiters: a hyphen as
    a delimiter cuts a tag, whose halves stay in the chunks. *)
Example tag_cut_by_delimiter :
  let c := MkParam 100 ["`-`"] fzero [] 0 0 in
  Text <$> out_chunks (invokeTextPayload c "a @@1-2## b" (compileDelimPattern ["`-`"]) None) = ["a @@1"; "2## b"].
Proof. vm_compute. reflexivity. Qed.

Definition image_item : ChunkDoc := with_text "figure" (MkChunk "" "" "image" "" None "" "" "" "" "" "" None "" "" no_rest).

Lemma split_lossless_witness : texts (splitOversizedText (unit_of "One. Two! Three") 6) = "One. Two! Three".
Proof. apply split_lossless; vm_compute; discriminate. Defined.


Lemma merge_lossless_witness :
  texts (mergeUnits [unit_of "One. Two! Three"; unit_of "x"] 6 fzero "") = "One. Two! Threex".
Proof.
  apply merge_lossless; [reflexivity|]. repeat constructor; vm_compute; discriminate.
Defined.

Lemma fan_out_order_witness :
  fan_out [unit_of "a-b"; image_item] (Some ["-"]) [1; 0] = (λ it, chunkFromItem it (Some ["-"])) <$> [unit_of "a-b"; image_item].
Proof. apply (fan_out_order _ _ 4). apply perm_swap. Defined.

Lemma media_context_never_attached_witness :
  attachMediaContext (fan_out [unit_of "before"; image_item; unit_of "after"] None [0; 1; 2]) 10 10 =
  fan_out [unit_of "before"; image_item; unit_of "after"] None [0; 1; 2].
Proof. apply media_context_never_attached. reflexivity. Defined.

Lemma longest_delimiter_wins_witness :
  ∃ d, d ∈ ["#"; "##"] ∧ String.prefix d "##x" = true ∧ 2 = String.length d ∧
    ∀ e, e ∈ ["#"; "##"] → String.prefix e "##x" = true → (RuneCountInString e ≤ RuneCountInString d)%Z.
Proof. apply (longest_delimiter_wins ["#"; "##"] true ["##"; "#"]); reflexivity. Defined.
End examples.

(** Without an encoder no text has tokens, and everything becomes one chunk. *)
Example no_encoder_no_limit :
  Text <$> @mergeUnits None amd64 [text_doc "one"; text_doc "two"; text_doc "three"] 1 fzero " " = ["one two three"].
Proof. vm_compute. reflexivity. Qed.
