(* ===== verification/MetaFilter.v ===== *)
(** * Filtering documents by their metadata

    Retrieval can be restricted to the documents whose metadata satisfy
    conditions.  The conditions are evaluated over an index from fields to values
    to documents (internal/common/metadata_utils.go); the service layer reads them
    from requests or from the answer of a language model and combines the result
    with the documents a request names (internal/service/metadata_filter.go). *)
From S2P Require Import Prelude Values Format Json JsonText JsonLaw Convert GoStrings GoNumbers.
From Stdlib Require Import Ascii.

(** Field to value to documents. *)
Abbreviation MetaValueDocs := (gmap string (list string)).
Abbreviation MetaData := (gmap string (gmap string (list string))).

Record MetaCondition := MkCondition { Operator : string; Key : string; Value : val }.
Record MetaFilterInput := MkInput { Conditions : list MetaCondition; Logic : string }.

Definition operatorMapping : gmap string string :=
  {["is" := "="; "not is" := "≠"; ">=" := "≥"; "<=" := "≤"; "!=" := "≠"; "==" := "="]}.

Definition convertOperator (op : string) : string := default op (operatorMapping !! op).
Definition NormalizeOperator (op : string) : string := convertOperator op.

(** ** Comparing *)
Section filter.
Context `{UnicodeCase}.

(** [toString] *)
Definition toString (v : val) : string :=
  match v with
  | VStr s => s
  | VFloat f => format_f f
  | VBool true => "true"
  | VBool false => "false"
  | _ => ""
  end.

Definition ascii_digit (a : ascii) : bool := bool_decide (48 ≤ ch a ≤ 57).

(** YYYY-MM-DD *)
Fixpoint date_chars (i : nat) (s : string) : bool :=
  match s with
  | EmptyString => true
  | String a s' => (if decide (i ∈ [4; 7]) then bool_decide (ch a = 45) else ascii_digit a) && date_chars (S i) s'
  end.
Definition isDate (s : string) : bool := bool_decide (String.length s = 10) && date_chars 0 s.

Definition str_ltb (a b : string) : bool := bool_decide (String.le a b) && bool_decide (a ≠ b).

Definition compareFloat (a b : spec_float) (operator : string) : bool :=
  if decide (operator = "=") then SFeqb a b
  else if decide (operator = "≠") then negb (SFeqb a b)
  else if decide (operator = ">") then SFltb b a
  else if decide (operator = "<") then SFltb a b
  else if decide (operator = "≥") then SFleb b a
  else if decide (operator = "≤") then SFleb a b
  else false.

Definition compareString (a b operator : string) : bool :=
  if decide (operator = "=") then bool_decide (a = b)
  else if decide (operator = "≠") then bool_decide (a ≠ b)
  else if decide (operator = ">") then str_ltb b a
  else if decide (operator = "<") then str_ltb a b
  else if decide (operator = "≥") then bool_decide (String.le b a)
  else if decide (operator = "≤") then bool_decide (String.le a b)
  else false.

Definition compareValues (a b operator : string) : bool :=
  if isDate b then if isDate a then compareString a b operator else bool_decide (operator = "≠")
  else match ParseFloat a, ParseFloat b with
       | Some af, Some bf => compareFloat af bf operator
       | _, _ => compareString (ToLower a) (ToLower b) operator
       end.

(** [strings.Contains], [strings.HasSuffix] *)
Definition contains (s sub : string) : bool := match Index sub s with Some _ => true | None => false end.
Definition has_suffix (s suffix : string) : bool :=
  bool_decide (str_drop (String.length s - String.length suffix) s = suffix).

Definition matchValue (input operator : string) (value : val) : bool :=
  if decide (operator = "empty") then bool_decide (input = "")
  else if decide (operator = "not empty") then bool_decide (input ≠ "")
  else
    let valStr := toString value in
    if decide (operator = "contains") then contains (ToLower input) (ToLower valStr)
    else if decide (operator = "not contains") then negb (contains (ToLower input) (ToLower valStr))
    else if decide (operator = "start with") then is_prefix (ToLower valStr) (ToLower input)
    else if decide (operator = "end with") then has_suffix (ToLower input) (ToLower valStr)
    else compareValues input valStr operator.

(** ** Selecting documents

    [ord] is the order in which the loop comes to the values. *)
Definition collect_docs (accepts : string → bool) (ord : list (string * list string)) : list string :=
  ord ≫= λ vd, if accepts vd.1 then vd.2 else [].

Definition filterSet (ord : list (string * list string)) (operator : string) (value : val) : list string :=
  match as_list value with
  | None => []
  | Some items =>
      if decide (operator = "not in") then
        let lookup := (λ item, ToLower (toString item)) <$> items in
        collect_docs (λ input, negb (bool_decide (ToLower input ∈ lookup))) ord
      else
        let lookup := toString <$> items in
        collect_docs (λ input, bool_decide (input ∈ lookup)) ord
  end.

Definition filterOut (ord : list (string * list string)) (operator : string) (value : val) : list string :=
  if decide (operator ∈ ["in"; "not in"]) then filterSet ord operator value
  else collect_docs (λ input, matchValue input operator value) ord.

(** The loop of [MetaFilter] over the conditions: [docIDs] is none before the first
    known field; the result is none where nothing is returned early. *)
Fixpoint filter_conditions (range : MetaValueDocs → list (string * list string)) (metas : MetaData)
    (logic : string) (docIDs : option (gset string)) (conditions : list MetaCondition) : option (gset string) :=
  match conditions with
  | [] => Some (default ∅ docIDs)
  | f :: conditions' =>
      match metas !! Key f with
      | None => if decide (logic = "and") then None else filter_conditions range metas logic docIDs conditions'
      | Some v2docs =>
          let matched := filterOut (range v2docs) (Operator f) (Value f) in
          match docIDs with
          | None => filter_conditions range metas logic (Some (list_to_set matched)) conditions'
          | Some ids =>
              if decide (logic = "and") then
                let s : gset string := list_to_set (filter (λ id, id ∈ ids) matched) in
                if decide (s = ∅) then None else filter_conditions range metas logic (Some s) conditions'
              else filter_conditions range metas logic (Some (ids ∪ list_to_set matched)) conditions'
          end
      end
  end.

(** [order] lists the entries of the resulting set. *)
Definition MetaFilter (range : MetaValueDocs → list (string * list string)) (order : gset string → list string)
    (metas : MetaData) (input : option MetaFilterInput) : list string :=
  match input with
  | None => []
  | Some input =>
      match Conditions input with
      | [] => []
      | conditions =>
          let logic := if decide (Logic input = "") then "and" else Logic input in
          match filter_conditions range metas logic None conditions with
          | None => []
          | Some ids => order ids
          end
      end
  end.

(** ** Conditions of requests *)
Definition field_string (k : string) (m : gmap string val) : string := default "" (m !! k ≫= as_string).

Definition field_list (k : string) (m : gmap string val) : list val := default [] (m !! k ≫= as_list).

Definition parse_condition (raw : val) : option MetaCondition :=
  match as_map raw with
  | None => None
  | Some cond =>
      let name := field_string "name" cond in
      let name := if decide (name = "") then field_string "key" cond else name in
      if decide (name = "") then None
      else
        let op := field_string "comparison_operator" cond in
        let op := if decide (op = "") then field_string "operator" cond else op in
        Some (MkCondition (convertOperator op) name (default VNil (cond !! "value")))
  end.

Definition ParseAndConvert (metadataCondition : option (gmap string val)) : option MetaFilterInput :=
  match metadataCondition with
  | None => None
  | Some m =>
      let logic := field_string "logic" m in
      let logic := if decide (logic = "") then "and" else logic in
      match omap parse_condition (field_list "conditions" m) with
      | [] => None
      | conditions => Some (MkInput conditions logic)
      end
  end.

(** ** Combined values *)

(** A run of the separators of combined values. *)
Definition separators : list string := ["、"; ","; "，"; ";"; "；"; "|"].

Fixpoint separator_run (skip : nat) (s : string) : nat :=
  match s with
  | EmptyString => 0
  | String _ s' =>
      match skip with
      | S skip' => S (separator_run skip' s')
      | O => match match_literals separators s with Some (S n) => S (separator_run n s') | _ => 0 end
      end
  end.

Definition combinedValueDelim (s : string) : option nat :=
  match separator_run 0 s with O => None | n => Some n end.

(** The first of equal entries stays. *)
Fixpoint dedupe (seen : list string) (l : list string) : list string :=
  match l with
  | [] => []
  | s :: l' => if decide (s ∈ seen) then dedupe seen l' else s :: dedupe (s :: seen) l'
  end.
Definition dedupeMetaStrings (l : list string) : list string := dedupe [] l.

Definition split_combined (item : string) : list string :=
  if decide (item = "") then []
  else match filter (λ p, p ≠ "") (trim_space <$> regexp_split combinedValueDelim (trim_space item)) with
       | [] => [item]
       | parts => parts
       end.

Definition splitCombinedStringList (items : list string) : list string := dedupeMetaStrings (items ≫= split_combined).

Definition split_value (v : val) : val :=
  match v with
  | VSlice TString l =>
      match mapM as_string l with Some strs => VSlice TString (VStr <$> splitCombinedStringList strs) | None => v end
  | VList l =>
      match mapM as_string l with Some strs => VSlice TString (VStr <$> splitCombinedStringList strs) | None => v end
  | _ => v
  end.

Definition SplitCombinedMetadataValues (meta : gmap string val) : gmap string val := split_value <$> meta.

(** ** The service layer (service/metadata_filter.go) *)
Record MetaFilterCondition := MkFilterCondition { cond_Key : string; cond_Value : val; cond_Op : string }.
Record MetaFilterResult := MkFilterResult { result_Conditions : list MetaFilterCondition; result_Logic : string }.

Definition comma_parts (s : string) : list string :=
  filter (λ p, p ≠ "") (trim_space <$> split_on (ascii_of_nat 44) s).

Definition convertToMetaCondition (f : MetaFilterCondition) : MetaCondition :=
  MkCondition (NormalizeOperator (cond_Op f)) (cond_Key f)
    (if decide (cond_Op f ∈ ["in"; "not in"])
     then VList (VStr <$> comma_parts (default "" (as_string (cond_Value f)))) else cond_Value f).

Section orders.
Context (range : MetaValueDocs → list (string * list string)) (order : gset string → list string).

Definition ApplyMetaFilter (metaData : MetaData) (filters : list MetaFilterCondition) (logic : string) : list string :=
  match filters with
  | [] => []
  | _ => MetaFilter range order metaData (Some (MkInput (convertToMetaCondition <$> filters) logic))
  end.

Definition MetadataConditionToDocIDs (metaData : MetaData) (metadataCondition : option (gmap string val)) : string :=
  match metadataCondition, ParseAndConvert metadataCondition with
  | Some m, Some input =>
      let filtered := MetaFilter range order metaData (Some input) in
      match field_list "conditions" m, filtered with
      | _ :: _, [] => "-999"
      | _, _ => join_with "," filtered
      end
  | _, _ => ""
  end.

(** [common.Deduplicate] *)
Definition Deduplicate (names : list string) : list string := dedupe [] names.

Definition constrainDocIDs (baseDocIDs filteredDocIDs : list string) : list string :=
  let filteredDocIDs := Deduplicate filteredDocIDs in
  if decide (baseDocIDs = []) then filteredDocIDs
  else Deduplicate (filter (λ d, d ∈ filteredDocIDs) baseDocIDs).

Definition NoMatchDocIDSentinel : string := "-999".

(** The conditions of a manual filter. *)
Definition manual_condition (item : val) : option MetaFilterCondition :=
  cond ← as_map item;
  Some (MkFilterCondition (field_string "key" cond) (default VNil (cond !! "value")) (field_string "op" cond)).

Definition resolve_manual (resolver : option (gmap string val → gmap string val)) (items : list val) : list val :=
  match resolver with
  | None => items
  | Some f => omap (λ item, (λ c, VObj (f c)) <$> as_map item) items
  end.

(** The keys a model may use, with the operators some of them are bound to. *)
Fixpoint semi_auto_keys (items : list val) (keys : list string) (constraints : gmap string string)
  : list string * gmap string string :=
  match items with
  | [] => (keys, constraints)
  | VStr k :: items' => semi_auto_keys items' (keys ++ [k]) constraints
  | v :: items' =>
      match as_map v with
      | Some m =>
          match m !! "key" ≫= as_string with
          | Some k => semi_auto_keys items' (keys ++ [k])
                        (match m !! "op" ≫= as_string with Some op => <[k := op]> constraints | None => constraints end)
          | None => semi_auto_keys items' keys constraints
          end
      | None => semi_auto_keys items' keys constraints
      end
  end.

(** [pushdown] is what the search engine answers to conditions, none if it cannot;
    [chatModel] what the chat model, if there is one, makes of the question and the
    metadata, none if it fails. *)
Context (pushdown : list MetaFilterCondition → string → option (list string)).
Context (chatModel : option (MetaData → option (gmap string string) → option MetaFilterResult)).

Definition runMetadataFilter (metaData : MetaData) (kbIDs : list string) (conditions : list MetaFilterCondition)
    (logic : string) : list string :=
  match (if bool_decide (conditions ≠ []) && bool_decide (kbIDs ≠ []) then pushdown conditions logic else None) with
  | Some ids => ids
  | None => ApplyMetaFilter metaData conditions logic
  end.

(** [GenMetaFilter] before it asks the model. *)
Definition GenMetaFilter (metaData : MetaData) (constraints : option (gmap string string)) : option MetaFilterResult :=
  match chatModel with
  | None => None
  | Some ask => if decide (metaData = ∅) then Some (MkFilterResult [] "and") else ask metaData constraints
  end.

(** What a generated filter makes of the documents: none, and true, if nothing
    matches. *)
Definition apply_generated (all : MetaData) (baseDocIDs kbIDs : list string) (r : option MetaFilterResult)
  : option (list string) * bool :=
  match r with
  | None => (Some baseDocIDs, false)
  | Some f =>
      match constrainDocIDs baseDocIDs (runMetadataFilter all kbIDs (result_Conditions f) (result_Logic f)) with
      | [] => (None, true)
      | docIDs => (Some docIDs, false)
      end
  end.

Definition ApplyMetaDataFilter (metaDataFilter : option (gmap string val)) (metaData : MetaData)
    (baseDocIDs kbIDs : list string) (resolver : option (gmap string val → gmap string val))
  : option (list string) * bool :=
  match metaDataFilter with
  | None => (Some baseDocIDs, false)
  | Some flt =>
      let method := field_string "method" flt in
      if decide (method = "auto") then
        apply_generated metaData baseDocIDs kbIDs (GenMetaFilter metaData None)
      else if decide (method = "semi_auto") then
        let '(selectedKeys, constraints) := semi_auto_keys (field_list "semi_auto" flt) [] ∅ in
        let filteredMeta := filter (λ kv, kv.1 ∈ selectedKeys) metaData in
        if decide (filteredMeta = ∅) then (Some baseDocIDs, false)
        else apply_generated metaData baseDocIDs kbIDs (GenMetaFilter filteredMeta (Some constraints))
      else if decide (method = "manual") then
        match field_list "manual" flt with
        | [] => (Some baseDocIDs, false)
        | items =>
            let logic := default "and" (flt !! "logic" ≫= as_string) in
            let items := resolve_manual resolver items in
            let conditions := omap manual_condition items in
            let docIDs := constrainDocIDs baseDocIDs (runMetadataFilter metaData kbIDs conditions logic) in
            if bool_decide (items ≠ []) && bool_decide (docIDs = []) then (Some [NoMatchDocIDSentinel], false)
            else (Some docIDs, false)
        end
      else (Some baseDocIDs, false)
  end.

(** The documents a retrieval is restricted to, all if there are none: the chunk
    retrieval takes the filtered ones (service/chunk/chunk.go), the chat pipeline
    only if there are some (service/chat_pipeline.go). *)
Definition retrieval_scope (metaDataFilter : option (gmap string val)) (metaData : MetaData) (reqDocIDs datasets : list string)
  : list string :=
  match metaDataFilter with
  | None => reqDocIDs
  | Some _ => default [] (ApplyMetaDataFilter metaDataFilter metaData reqDocIDs datasets None).1
  end.

Definition chat_scope (metaDataFilter : gmap string val) (metaData : MetaData) (docIDs kbIDs : list string) : list string :=
  default docIDs (ApplyMetaDataFilter (Some metaDataFilter) metaData docIDs kbIDs None).1.
End orders.

(** ** What filtering selects *)

(** What a condition asks of a value. *)
Definition accepts (f : MetaCondition) (input : string) : bool :=
  if decide (Operator f = "not in") then
    match as_list (Value f) with
    | Some items => negb (bool_decide (ToLower input ∈ (λ i, ToLower (toString i)) <$> items))
    | None => false
    end
  else if decide (Operator f = "in") then
    match as_list (Value f) with Some items => bool_decide (input ∈ toString <$> items) | None => false end
  else matchValue input (Operator f) (Value f).

(** The document has the field with a value the condition accepts. *)
Definition satisfies (metas : MetaData) (id : string) (f : MetaCondition) : Prop :=
  ∃ vs input ids, metas !! Key f = Some vs ∧ vs !! input = Some ids ∧ id ∈ ids ∧ accepts f input = true.

Definition selected (metas : MetaData) (logic : string) (conditions : list MetaCondition) (id : string) : Prop :=
  if decide (logic = "" ∨ logic = "and") then Forall (satisfies metas id) conditions
  else Exists (satisfies metas id) conditions.

Lemma elem_of_dedupe seen l s : s ∈ dedupe seen l ↔ s ∈ l ∧ s ∉ seen.
Proof.
  revert seen. induction l as [|a l IH]; intros seen; cbn [dedupe]; [set_solver|].
  case_decide as Ha; [rewrite IH; set_solver|]. rewrite elem_of_cons, IH. destruct (decide (s = a)) as [->|]; set_solver.
Qed.

Lemma NoDup_dedupe seen l : NoDup (dedupe seen l).
Proof.
  revert seen. induction l as [|a l IH]; intros seen; cbn [dedupe]; [constructor|].
  case_decide; [done|]. constructor; [|done]. rewrite elem_of_dedupe. set_solver.
Qed.

Section selection.
Context (range : MetaValueDocs → list (string * list string)) (order : gset string → list string).
Context (range_ok : ∀ m, go_range m (range m)) (order_ok : ∀ s, order s ≡ₚ elements s).

Lemma elem_of_collect vs p id :
  id ∈ collect_docs p (range vs) ↔ ∃ input ids, vs !! input = Some ids ∧ id ∈ ids ∧ p input = true.
Proof.
  unfold collect_docs. rewrite list_elem_of_bind. split.
  - intros ([input ids] & Hid & Hin). cbn in Hid. apply (go_range_elem vs) in Hin; [|apply range_ok].
    destruct (p input) eqn:E; [|by apply not_elem_of_nil in Hid]. by exists input, ids.
  - intros (input & ids & Hvs & Hid & Hp). exists (input, ids). cbn. rewrite Hp. split; [done|].
    by apply (go_range_elem vs); [apply range_ok|].
Qed.

Lemma elem_of_filterOut metas vs f id :
  metas !! Key f = Some vs → id ∈ filterOut (range vs) (Operator f) (Value f) ↔ satisfies metas id f.
Proof.
  intros Hk. transitivity (∃ input ids, vs !! input = Some ids ∧ id ∈ ids ∧ accepts f input = true).
  2: { unfold satisfies. split; [intros (i & ids & ?); by exists vs, i, ids|].
       intros (vs' & i & ids & Hvs & ?). rewrite Hk in Hvs. injection Hvs as <-. by exists i, ids. }
  unfold filterOut, filterSet, accepts.
  destruct (decide (Operator f = "not in")) as [->|Hn]; [|destruct (decide (Operator f = "in")) as [->|Hi]].
  - rewrite decide_True by set_solver. destruct (as_list (Value f)) as [items|]; [apply elem_of_collect|].
    split; [by intros ?%not_elem_of_nil|]. by intros (? & ? & _ & _ & ?).
  - rewrite decide_True by set_solver. destruct (as_list (Value f)) as [items|]; [apply elem_of_collect|].
    split; [by intros ?%not_elem_of_nil|]. by intros (? & ? & _ & _ & ?).
  - rewrite decide_False by set_solver. apply elem_of_collect.
Qed.

Definition in_result (r : option (gset string)) (id : string) : Prop := ∃ ids, r = Some ids ∧ id ∈ ids.

Lemma in_result_Some ids id : in_result (Some ids) id ↔ id ∈ ids.
Proof. split; [by intros (? & [= <-] & ?)|by exists ids]. Qed.

Lemma in_result_None id : ¬ in_result None id.
Proof. by intros (? & ? & _). Qed.

Lemma satisfies_unknown metas id f : metas !! Key f = None → ¬ satisfies metas id f.
Proof. intros Hk (vs & ? & ? & Hvs & _). by rewrite Hk in Hvs. Qed.

Lemma filter_and metas ids conditions id :
  in_result (filter_conditions range metas "and" (Some ids) conditions) id ↔ id ∈ ids ∧ Forall (satisfies metas id) conditions.
Proof.
  revert ids. induction conditions as [|f fs IH]; intros ids; cbn [filter_conditions].
  { rewrite in_result_Some, Forall_nil. cbn. tauto. }
  rewrite Forall_cons. destruct (metas !! Key f) as [vs|] eqn:Hk.
  - cbn zeta. rewrite decide_True by done. pose proof (elem_of_filterOut metas vs f id Hk) as Hf.
    set (s := list_to_set _ : gset string). assert (id ∈ s ↔ satisfies metas id f ∧ id ∈ ids) as Hs
      by (unfold s; rewrite elem_of_list_to_set, list_elem_of_filter, Hf; tauto).
    case_decide as He; [|rewrite IH, Hs; tauto]. rewrite He in Hs. split; [by intros ?%in_result_None|].
    intros (Hid & Hsat & _). exfalso. apply (not_elem_of_empty (C := gset string) id). tauto.
  - rewrite decide_True by done. pose proof (satisfies_unknown metas id f Hk). pose proof (in_result_None id). tauto.
Qed.

Lemma filter_or metas logic docIDs conditions id :
  logic ≠ "and" →
  in_result (filter_conditions range metas logic docIDs conditions) id ↔
  id ∈ default ∅ docIDs ∨ Exists (satisfies metas id) conditions.
Proof.
  intros Hl. revert docIDs. induction conditions as [|f fs IH]; intros docIDs; cbn [filter_conditions].
  { rewrite in_result_Some, Exists_nil. tauto. }
  rewrite Exists_cons. destruct (metas !! Key f) as [vs|] eqn:Hk.
  - pose proof (elem_of_filterOut metas vs f id Hk) as Hf. destruct docIDs as [ids|]; [rewrite decide_False by done|]; rewrite IH; cbn;
      [rewrite elem_of_union|]; rewrite elem_of_list_to_set, Hf; [tauto|]. rewrite elem_of_empty. tauto.
  - rewrite decide_False by done. rewrite IH. pose proof (satisfies_unknown metas id f Hk). tauto.
Qed.

Lemma in_result_conditions metas logic f fs id :
  in_result (filter_conditions range metas (if decide (logic = "") then "and" else logic) None (f :: fs)) id ↔
  selected metas logic (f :: fs) id.
Proof.
  unfold selected. destruct (decide (logic = "" ∨ logic = "and")) as [Hl|Hl].
  - replace (if decide (logic = "") then "and" else logic) with "and" by (case_decide; [done|by destruct Hl as [?| ->]]).
    cbn [filter_conditions]. rewrite Forall_cons. destruct (metas !! Key f) as [vs|] eqn:Hk.
    + rewrite filter_and, elem_of_list_to_set, (elem_of_filterOut metas) by done. tauto.
    + rewrite decide_True by done. pose proof (satisfies_unknown metas id f Hk). pose proof (in_result_None id). tauto.
  - rewrite decide_False by tauto. rewrite filter_or by tauto. cbn [default]. rewrite elem_of_empty. tauto.
Qed.

Lemma elem_of_MetaFilter metas conditions logic id :
  conditions ≠ [] → id ∈ MetaFilter range order metas (Some (MkInput conditions logic)) ↔ selected metas logic conditions id.
Proof.
  destruct conditions as [|f fs]; [done|]. intros _. rewrite <-in_result_conditions. unfold MetaFilter.
  cbn [Conditions Logic]. destruct (filter_conditions _ _ _ _ _) as [ids|].
  - by rewrite order_ok, elem_of_elements, in_result_Some.
  - pose proof (in_result_None id). split; [by intros ?%not_elem_of_nil|tauto].
Qed.

Lemma elem_of_ApplyMetaFilter metas conditions logic id :
  conditions ≠ [] → id ∈ ApplyMetaFilter range order metas conditions logic ↔
  selected metas logic (convertToMetaCondition <$> conditions) id.
Proof. unfold ApplyMetaFilter. destruct conditions; [done|]. intros _. by apply elem_of_MetaFilter. Qed.

Lemma NoDup_MetaFilter metas input : NoDup (MetaFilter range order metas input).
Proof.
  unfold MetaFilter. destruct input as [i|]; [|constructor]. destruct (Conditions i); [constructor|].
  destruct (filter_conditions _ _ _ _ _); [rewrite order_ok; apply NoDup_elements|constructor].
Qed.

(** C23: A filter selects, each once, exactly the documents that satisfy all of its
    conditions, or with another logic than and at least one, whatever the order of
    the loops; to satisfy one a document needs the field. *)
Theorem MetaFilter_spec metas conditions logic :
  conditions ≠ [] →
  let r := MetaFilter range order metas (Some (MkInput conditions logic)) in
  NoDup r ∧ ∀ id, id ∈ r ↔ selected metas logic conditions id.
Proof. intros Hne. split; [apply NoDup_MetaFilter|]. intros id. by apply elem_of_MetaFilter. Qed.
End selection.

Lemma elem_of_constrain base filtered id :
  id ∈ constrainDocIDs base filtered ↔ (base = [] ∨ id ∈ base) ∧ id ∈ filtered.
Proof.
  unfold constrainDocIDs, Deduplicate. case_decide as Hb; rewrite elem_of_dedupe.
  - set_solver.
  - rewrite list_elem_of_filter, elem_of_dedupe. set_solver.
Qed.

(** ** The modes of a filter *)
Section modes.
Context (range : MetaValueDocs → list (string * list string)) (order : gset string → list string).
Context (range_ok : ∀ m, go_range m (range m)) (order_ok : ∀ s, order s ≡ₚ elements s).
Context (pushdown : list MetaFilterCondition → string → option (list string)).
Context (chatModel : option (MetaData → option (gmap string string) → option MetaFilterResult)).

(** A search engine that answers, answers from the same metadata. *)
Context (metas : MetaData).
Context (pushdown_sound : ∀ conditions logic ids, pushdown conditions logic = Some ids → conditions ≠ [] →
           ∀ id, id ∈ ids ↔ selected metas logic (convertToMetaCondition <$> conditions) id).

Lemma elem_of_run kbIDs conditions logic id :
  conditions ≠ [] →
  id ∈ runMetadataFilter range order pushdown metas kbIDs conditions logic ↔
  selected metas logic (convertToMetaCondition <$> conditions) id.
Proof.
  intros Hne. unfold runMetadataFilter. rewrite (bool_decide_eq_true_2 _ Hne). cbn [andb].
  destruct (if bool_decide (kbIDs ≠ []) then pushdown conditions logic else None) as [ids|] eqn:E.
  - case_bool_decide; [|done]. by apply pushdown_sound.
  - by apply elem_of_ApplyMetaFilter.
Qed.

Lemma omap_conditions (conds : list (gmap string val)) :
  omap manual_condition ((λ c, VObj c) <$> conds) =
  (λ c, MkFilterCondition (field_string "key" c) (default VNil (c !! "value")) (field_string "op" c)) <$> conds.
Proof. induction conds as [|c cs IH]; [done|]. cbn. by rewrite IH. Qed.

(** A manual filter restricts the documents of a request to those its conditions
    select, or all documents of the index if the request names none; when none is
    left it answers the identifier that matches no document. *)
Theorem manual_filter_spec flt base kbIDs conds :
  flt !! "method" = Some (VStr "manual") → flt !! "manual" = Some (VList ((λ c, VObj c) <$> conds)) → conds ≠ [] →
  let logic := default "and" (flt !! "logic" ≫= as_string) in
  let wanted id := (base = [] ∨ id ∈ base) ∧
    selected metas logic (convertToMetaCondition <$>
      ((λ c, MkFilterCondition (field_string "key" c) (default VNil (c !! "value")) (field_string "op" c)) <$> conds)) id in
  ∃ docs, ApplyMetaDataFilter range order pushdown chatModel (Some flt) metas base kbIDs None = (Some docs, false) ∧
    NoDup docs ∧ ((∀ id, id ∈ docs ↔ wanted id) ∨ docs = [NoMatchDocIDSentinel] ∧ ∀ id, ¬ wanted id).
Proof.
  intros Hmethod Hmanual Hne. cbn zeta. unfold ApplyMetaDataFilter, field_list.
  assert (field_string "method" flt = "manual") as -> by (unfold field_string; by rewrite Hmethod).
  rewrite decide_False, decide_False, decide_True by done. rewrite Hmanual. cbn [mbind option_bind as_list default resolve_manual].
  pose proof (omap_conditions conds) as Ho. set (items := (λ c, VObj c) <$> conds) in *.
  assert (items ≠ []) as Hi by (unfold items; by destruct conds). destruct items as [|i its]; [done|]. clear Hi.
  cbn [id resolve_manual]. rewrite Ho. rewrite bool_decide_eq_true_2 by done. cbn [andb].
  set (logic := default "and" _). set (conditions := _ <$> conds). assert (conditions ≠ []) by (unfold conditions; by destruct conds).
  set (docs := constrainDocIDs _ _).
  assert (∀ id, id ∈ docs ↔ (base = [] ∨ id ∈ base) ∧ selected metas logic (convertToMetaCondition <$> conditions) id) as Hd
    by (intros id; unfold docs; by rewrite elem_of_constrain, elem_of_run).
  case_bool_decide as He.
  - exists [NoMatchDocIDSentinel]. split_and!; [done|apply NoDup_singleton|]. right. split; [done|].
    intros id. rewrite <-Hd, He. apply not_elem_of_nil.
  - exists docs. split_and!; [done| |by left]. unfold docs, constrainDocIDs, Deduplicate. case_decide; apply NoDup_dedupe.
Qed.

(** A generated filter that selects none of the documents of a request does not
    lead to an empty answer: the chunk retrieval, which ignores the flag, then
    searches all documents, the chat pipeline those it had before. *)
Theorem no_match_searches_everything flt reqDocIDs datasets f :
  flt !! "method" = Some (VStr "auto") → metas ≠ ∅ → (∃ ask, chatModel = Some ask ∧ ask metas None = Some f) →
  result_Conditions f ≠ [] →
  (∀ id, reqDocIDs = [] ∨ id ∈ reqDocIDs →
         ¬ selected metas (result_Logic f) (convertToMetaCondition <$> result_Conditions f) id) →
  retrieval_scope range order pushdown chatModel (Some flt) metas reqDocIDs datasets = [] ∧
  chat_scope range order pushdown chatModel flt metas reqDocIDs datasets = reqDocIDs.
Proof.
  intros Hmethod Hm (ask & Hask & Hg) Hne Hnone.
  assert (ApplyMetaDataFilter range order pushdown chatModel (Some flt) metas reqDocIDs datasets None = (None, true)) as E.
  { unfold ApplyMetaDataFilter. assert (field_string "method" flt = "auto") as -> by (unfold field_string; by rewrite Hmethod).
    rewrite decide_True by done. unfold GenMetaFilter. rewrite Hask, decide_False by done. rewrite Hg. cbn [apply_generated].
    destruct (constrainDocIDs _ _) as [|id ids] eqn:Ec; [done|]. exfalso.
    assert (id ∈ constrainDocIDs reqDocIDs (runMetadataFilter range order pushdown metas datasets (result_Conditions f) (result_Logic f)))
      as Hid by (rewrite Ec; left).
    rewrite elem_of_constrain, elem_of_run in Hid by done. by apply (Hnone id); [apply Hid|apply Hid]. }
  unfold retrieval_scope, chat_scope. by rewrite E.
Qed.
End modes.

(** ** Comparisons *)
Lemma SFcompare_swap a b : SFcompare b a = CompOpp <$> SFcompare a b.
Proof.
  destruct a as [[]|[]| |[] m e], b as [[]|[]| |[] m' e']; try done; cbn; rewrite (Z.compare_antisym e e');
    destruct (e ?= e')%Z; cbn; try done; f_equal; rewrite (Pos.compare_cont_antisym m m' Eq) || rewrite (Pos.compare_antisym m m');
    by destruct (m ?= m')%positive.
Qed.

(** What an operator says of a three-way comparison; of values that cannot be
    compared only that they differ. *)
Definition by_order (c : option comparison) (operator : string) : bool :=
  if decide (operator = "=") then bool_decide (c = Some Eq)
  else if decide (operator = "≠") then bool_decide (c ≠ Some Eq)
  else if decide (operator = ">") then bool_decide (c = Some Gt)
  else if decide (operator = "<") then bool_decide (c = Some Lt)
  else if decide (operator = "≥") then bool_decide (c = Some Gt ∨ c = Some Eq)
  else if decide (operator = "≤") then bool_decide (c = Some Lt ∨ c = Some Eq)
  else false.

#[local] Instance comparison_eq_dec : EqDecision comparison.
Proof. solve_decision. Defined.

Lemma compareFloat_order a b op : compareFloat a b op = by_order (SFcompare a b) op.
Proof.
  unfold compareFloat, by_order, SFeqb, SFltb, SFleb. rewrite (SFcompare_swap a b).
  repeat case_decide; try done; by destruct (SFcompare a b) as [[]|].
Qed.

Definition string_order (a b : string) : comparison :=
  if decide (a = b) then Eq else if decide (String.le a b) then Lt else Gt.

Lemma compareString_order a b op : compareString a b op = by_order (Some (string_order a b)) op.
Proof.
  unfold compareString, by_order, str_ltb, string_order.
  destruct (decide (a = b)) as [<-|Hne].
  - assert (String.le a a) as Hr by reflexivity. rewrite !(bool_decide_eq_true_2 (String.le a a) Hr).
    rewrite (bool_decide_eq_true_2 (a = a)), (bool_decide_eq_false_2 (a ≠ a)) by naive_solver. done.
  - rewrite (bool_decide_eq_false_2 (a = b)), (bool_decide_eq_true_2 (a ≠ b)), (bool_decide_eq_true_2 (b ≠ a)) by congruence.
    destruct (decide (String.le a b)) as [Hle|Hle].
    + rewrite (bool_decide_eq_true_2 (String.le a b)) by done.
      rewrite (bool_decide_eq_false_2 (String.le b a)) by (intros ?; apply Hne; by apply (anti_symm String.le)). done.
    + rewrite (bool_decide_eq_false_2 (String.le a b)) by done.
      rewrite (bool_decide_eq_true_2 (String.le b a)) by (by destruct (total String.le a b)). done.
Qed.

(** The comparison operators of conditions agree: for any two texts they are the
    operators of one three-way comparison, of dates, of numbers or of texts, or the
    texts are only different: a text that is no date against a date, or a NaN. *)
Theorem compareValues_order a b :
  ∃ c, (∀ op, compareValues a b op = by_order c op) ∧
    (c = None ↔ isDate b = true ∧ isDate a = false ∨
                isDate b = false ∧ ∃ x y, ParseFloat a = Some x ∧ ParseFloat b = Some y ∧ (x = S754_nan ∨ y = S754_nan)).
Proof.
  unfold compareValues. destruct (isDate b) eqn:Eb.
  - destruct (isDate a) eqn:Ea.
    + eexists. split; [intros op; apply compareString_order|]. naive_solver.
    + exists None. split; [|naive_solver]. intros op. unfold by_order. repeat case_decide; by subst.
  - destruct (ParseFloat a) as [x|] eqn:Ex, (ParseFloat b) as [y|] eqn:Ey;
      try (eexists; split; [intros op; apply compareString_order|naive_solver]).
    eexists. split; [intros op; apply compareFloat_order|].
    assert (SFcompare x y = None ↔ x = S754_nan ∨ y = S754_nan) as Hnan.
    { destruct x as [[]|[]| |[] m e], y as [[]|[]| |[] m' e']; cbn; naive_solver. }
    rewrite Hnan. split; [intros ?; right; by split; [|exists x, y]|]. by intros [[? _]|(_ & ? & ? & [= ->] & [= ->] & ?)].
Qed.

(** ** Lists as values *)

(** A list given for one of these operators is read as no string: nothing is in it. *)
Lemma list_value_ignored k items op :
  op ∈ ["in"; "not in"] → convertToMetaCondition (MkFilterCondition k (VList items) op) = MkCondition op k (VList []).
Proof.
  intros Hop. unfold convertToMetaCondition. cbn [cond_Op cond_Key cond_Value]. rewrite decide_True by done. cbn.
  unfold NormalizeOperator, convertOperator. rewrite !elem_of_cons in Hop. destruct Hop as [ -> | [ -> | Hop ] ]; [done..|]. by apply not_elem_of_nil in Hop.
Qed.

Lemma accepts_in_nothing k input : accepts (MkCondition "in" k (VList [])) input = false.
Proof. reflexivity. Qed.

Lemma accepts_not_in_nothing k input : accepts (MkCondition "not in" k (VList [])) input = true.
Proof. reflexivity. Qed.

(** ** Combined values *)

(** Each entry of the result is a part of an entry or an entry without parts. *)
Lemma splitCombined_spec items :
  NoDup (splitCombinedStringList items) ∧
  (∀ p, p ∈ splitCombinedStringList items ↔ ∃ item, item ∈ items ∧ p ∈ split_combined item) ∧
  Forall (λ p, p ≠ "") (splitCombinedStringList items).
Proof.
  unfold splitCombinedStringList, dedupeMetaStrings.
  assert (∀ p, p ∈ dedupe [] (items ≫= split_combined) ↔ ∃ item, item ∈ items ∧ p ∈ split_combined item) as Hp.
  { intros p. rewrite elem_of_dedupe, list_elem_of_bind. set_solver. }
  split_and!; [apply NoDup_dedupe|done|]. apply Forall_forall. intros p (item & _ & Hi)%Hp. unfold split_combined in Hi.
  case_decide; [by apply not_elem_of_nil in Hi|].
  set (parts := filter _ _) in Hi. assert (∀ q, q ∈ parts → q ≠ "") as Hq by (intros q [? _]%list_elem_of_filter; done).
  destruct parts; [apply list_elem_of_singleton in Hi; by subst|by apply Hq].
Qed.
End filter.

(** ** Examples and witnesses *)
Section examples.
Local Existing Instance ascii_case.

Definition people : MetaData :=
  {["author" := {["Ann" := ["d1"; "d2"]; "Bob" := ["d3"]]}; "year" := {["9" := ["d1"]; "10" := ["d2"; "d3"]]}]}.

Definition condition (k op v : string) : MetaFilterCondition := MkFilterCondition k (VStr v) op.

Example filter_example :
  ApplyMetaFilter map_to_list elements people [condition "author" "==" "ann"; condition "year" ">=" "9.5"] "and" = ["d2"] ∧
  ApplyMetaFilter map_to_list elements people [condition "author" "in" "Bob, Cy"; condition "year" "<" "10"] "or" = ["d3"; "d1"] ∧
  ApplyMetaFilter map_to_list elements people [condition "editor" "≠" "Ann"] "and" = [].
Proof. vm_compute. done. Qed.

(** With a list in place of a string "not in" excludes nothing. *)
Example list_excludes_nothing :
  ApplyMetaFilter map_to_list elements people [MkFilterCondition "author" (VList [VStr "Ann"; VStr "Bob"]) "not in"] "and" =
  ["d3"; "d1"; "d2"].
Proof. vm_compute. done. Qed.

(** A document with several values of a field differs from one of them by the others. *)
Example differs_by_another_value :
  ApplyMetaFilter map_to_list elements {["tag" := {["a" := ["d1"]; "b" := ["d1"]]}]} [condition "tag" "≠" "a"] "and" = ["d1"].
Proof. vm_compute. done. Qed.

(** The conditions of the compatible interface keep the string of "in", which is then
    no list and selects nothing. *)
Example in_with_string_selects_nothing :
  let cond := VObj {["name" := VStr "author"; "comparison_operator" := VStr "in"; "value" := VStr "Ann"]} in
  MetadataConditionToDocIDs map_to_list elements people (Some {["conditions" := VList [cond]]}) = "-999".
Proof. vm_compute. done. Qed.

(** Conditions that are all malformed do not restrict at all. *)
Example malformed_conditions_match_all :
  MetadataConditionToDocIDs map_to_list elements people
    (Some {["conditions" := VList [VObj {["comparison_operator" := VStr "="]}]]}) = "".
Proof. vm_compute. done. Qed.

Example split_example :
  splitCombinedStringList ["a、b ; c"; "b"; " ;; "] = ["a"; "b"; "c"; " ;; "].
Proof. vm_compute. done. Qed.

Lemma people_range : ∀ m : MetaValueDocs, go_range m (map_to_list m).
Proof. intros m. apply go_range_canonical. Qed.

Lemma MetaFilter_spec_witness :
  let cs := [MkCondition "=" "author" (VStr "ann"); MkCondition "≥" "year" (VStr "9.5")] in
  NoDup (MetaFilter map_to_list elements people (Some (MkInput cs "and"))) ∧
  ∀ id, id ∈ MetaFilter map_to_list elements people (Some (MkInput cs "and")) ↔ selected people "and" cs id.
Proof. apply (MetaFilter_spec map_to_list elements people_range (λ _, reflexivity _)). discriminate. Defined.

Definition manual_filter : gmap string val :=
  {["method" := VStr "manual";
    "manual" := VList ((λ c, VObj c) <$> [{["key" := VStr "author"; "op" := VStr "="; "value" := VStr "bob"]} : gmap string val])]}.

(** A search engine that evaluates conditions over the same index. *)
Definition people_engine (conditions : list MetaFilterCondition) (logic : string) : option (list string) :=
  Some (ApplyMetaFilter map_to_list elements people conditions logic).

Lemma people_engine_sound conditions logic ids :
  people_engine conditions logic = Some ids → conditions ≠ [] →
  ∀ id, id ∈ ids ↔ selected people logic (convertToMetaCondition <$> conditions) id.
Proof. intros [= <-] Hne id. apply elem_of_ApplyMetaFilter; [apply people_range|done|done]. Qed.

Lemma manual_filter_spec_witness :
  ∃ docs, ApplyMetaDataFilter map_to_list elements people_engine None (Some manual_filter) people ["d3"; "d1"] ["kb"] None
          = (Some docs, false) ∧ NoDup docs.
Proof.
  destruct (manual_filter_spec map_to_list elements people_range (λ _, reflexivity _) people_engine None
              people people_engine_sound manual_filter ["d3"; "d1"] ["kb"]
              [{["key" := VStr "author"; "op" := VStr "="; "value" := VStr "bob"]} : gmap string val])
    as (docs & Hd & Hnd & _); [reflexivity|reflexivity|discriminate|]. exists docs. by split.
Defined.

Lemma no_match_searches_everything_witness :
  retrieval_scope map_to_list elements (λ _ _, None) (Some (λ _ _, Some (MkFilterResult [condition "editor" "=" "Zoe"] "and")))
    (Some {["method" := VStr "auto"]}) people ["d1"] ["kb"] = [].
Proof.
  apply (no_match_searches_everything map_to_list elements people_range (λ _, reflexivity _) (λ _ _, None) _
           people ltac:(discriminate) {["method" := VStr "auto"]} ["d1"] ["kb"]
           (MkFilterResult [condition "editor" "=" "Zoe"] "and")); [reflexivity|discriminate|by eexists|discriminate|].
  intros id _ Hs. apply Forall_cons in Hs as [(vs & ? & ? & Hvs & _) _]. vm_compute in Hvs. discriminate.
Defined.
End examples.
