(* ===== verification/StructJson.v ===== *)
(** * Structs with typed fields in JSON

    What [json.Marshal] writes for a struct with tags, and how [json.Unmarshal]
    reads one back field by field: a member that does not fit the type of its
    field leaves the field alone and makes the call fail at the end, so callers
    that ignore the error work with the fields that fitted. *)
From Stdlib Require Import Ascii.
From S2P Require Export RawJson.

(** ** Writing

    A member is left out, or has a text, or cannot be written. *)
Abbreviation members := (list (string * option (option string))).

Definition always (name : string) (text : option string) : string * option (option string) := (name, Some text).
Definition unless (empty : bool) (name : string) (text : option string) : string * option (option string) :=
  (name, if empty then None else Some text).

Definition string_member (name s : string) := always name (Some (encode_string s)).
Definition opt_string (name s : string) := unless (bool_decide (s = "")) name (Some (encode_string s)).
Definition opt_int (name : string) (z : Z) := unless (bool_decide (z = 0%Z)) name (Some (pretty z)).
Definition opt_any (name : string) (v : val) := unless (match v with VNil => true | _ => false end) name (marshal v).
Definition opt_list (name : string) (l : list val) := unless (bool_decide (length l = 0)) name (marshal (VList l)).
Definition opt_map (name : string) (m : gmap string val) := unless (bool_decide (size m = 0)) name (marshal (VObj m)).
Definition opt_float (name : string) (f : spec_float) :=
  unless (match f with S754_zero _ => true | _ => false end) name (marshal (VFloat f)).

Fixpoint written_members (ms : members) : option (list (string * string)) :=
  match ms with
  | [] => Some []
  | (_, None) :: ms => written_members ms
  | (k, Some t) :: ms => t ← t; kts ← written_members ms; Some ((k, t) :: kts)
  end.

Definition write_struct (ms : members) : option string := json_object <$> written_members ms.

(** ** Reading

    A reader takes a text and what the field holds; it returns what the field then
    holds and whether the text fitted.  A number too large for a float makes the
    whole text not fit; json.Marshal never writes one. *)
Definition reader (A : Type) : Type := string → A → A * bool.

Definition reads {A} (f : val → option A) : reader A := λ t old,
  match unmarshal t with
  | Some VNil => (old, true)
  | Some v => match f v with Some x => (x, true) | None => (old, false) end
  | None => (old, false)
  end.

Definition read_string : reader string := reads as_string.
Definition read_bool : reader bool := reads (λ v, match v with VBool b => Some b | _ => None end).
Definition read_float : reader spec_float := reads (λ v, match v with VFloat f => Some f | _ => None end).
Definition read_int : reader Z := λ t old,
  if decide (t = "null") then (old, true)
  else match int_literal t with Some z => (z, true) | None => (old, false) end.

(** Interfaces, maps and slices are set to nil by null; a map keeps the keys it has. *)
Definition read_any : reader val := λ t old, match unmarshal t with Some v => (v, true) | None => (old, false) end.
Definition read_map : reader (gmap string val) := λ t old,
  match unmarshal t with
  | Some VNil => (∅, true)
  | Some (VObj m) => (m ∪ old, true)
  | _ => (old, false)
  end.
Definition read_list : reader (list val) := λ t old,
  match unmarshal t with Some VNil => ([], true) | Some (VList l) => (l, true) | _ => (old, false) end.

Fixpoint read_values {A} (read : reader A) (old : A) (ts : list string) : A * bool :=
  match ts with
  | [] => (old, true)
  | t :: ts => let '(x, ok) := read t old in let '(y, ok') := read_values read x ts in (y, ok && ok')
  end.

Definition read_field {A} (read : reader A) (name : string) (ms : list (string * string)) (old : A) : A * bool :=
  read_values read old (values_of name ms).

(** A text into a struct: null leaves it alone, other values fail. *)
Definition read_struct {A} (fields : list (string * string) → A → A * bool) : reader A := λ t old,
  match object_members t with
  | Some ms => fields ms old
  | None => (old, match unmarshal t with Some VNil => true | _ => false end)
  end.

(** ** What was written is read back *)

(** A value JSON keeps as it is. *)
Definition storable (v : val) : Prop := readable v ∧ json_rt v = Some v.

Lemma storable_text v : storable v → ∃ t, marshal v = Some t ∧ denotes t v.
Proof.
  intros [Hr Hv]. pose proof (marshal_agree v Hr) as H. unfold agree in H. rewrite Hv in H.
  destruct (marshal v) as [t|]; [by exists t|done].
Qed.

Lemma denotes_encode s : denotes (encode_string s) (VStr (sanitize s)).
Proof. pose proof (marshal_agree (VStr s) I) as H. exact H. Qed.

(** The names of a struct's members: distinct, and such that no folding merges them. *)
Definition plain_names (ns : list string) : bool :=
  bool_decide (NoDup ns) && forallb (λ n, bool_decide (fold_key (sanitize n) = n)) ns.

(** Every text that is written is one value. *)
Definition texts_scan (ms : members) : Prop := Forall (λ m, ∀ t, m.2 = Some (Some t) → scans t) ms.

Lemma written_scan ms kts : texts_scan ms → written_members ms = Some kts → Forall (λ kt, scans kt.2) kts.
Proof.
  intros H. revert kts. induction H as [|[k o] ms Hk Hms IH]; intros kts E; cbn in E; [injection E as <-; constructor|].
  destruct o as [[t|]|]; cbn in E; [|done|by apply IH].
  destruct (written_members ms) as [kts'|]; [|done]. injection E as <-. constructor; [by apply Hk|by apply IH].
Qed.

Lemma values_absent ms kts name :
  forallb (λ n, bool_decide (fold_key (sanitize n) = n)) ms.*1 = true → written_members ms = Some kts →
  name ∉ ms.*1 → values_of name (seen kts) = [].
Proof.
  revert kts. induction ms as [|[k o] ms IH]; intros kts Hn E Hin; cbn in E; [by injection E as <-|].
  rewrite fmap_cons in Hn. cbn [forallb fst] in Hn. apply andb_true_iff in Hn as [Hk%bool_decide_eq_true Hn]. apply not_elem_of_cons in Hin as [Hne Hin]. cbn in Hne.
  destruct o as [[t|]|]; cbn in E; [|done|by apply IH].
  destruct (written_members ms) as [kts'|]; [|done]. injection E as <-.
  rewrite values_of_member, Hk, decide_False by done. by apply IH.
Qed.

Lemma values_written ms kts name o :
  plain_names ms.*1 = true → written_members ms = Some kts → (name, o) ∈ ms →
  values_of name (seen kts) = match o with Some (Some t) => [t] | _ => [] end.
Proof.
  unfold plain_names. rewrite andb_true_iff, bool_decide_eq_true. intros [Hnd Hn] E Hin. revert kts E.
  induction ms as [|[k o'] ms IH]; intros kts E; [by apply not_elem_of_nil in Hin|].
  rewrite fmap_cons in Hnd, Hn. apply NoDup_cons in Hnd. cbn [forallb fst] in Hn, Hnd. apply andb_true_iff in Hn as [Hk%bool_decide_eq_true Hn].
  cbn in E. apply elem_of_cons in Hin as [[= <- <-]|Hin].
  - destruct o as [[t|]|]; cbn in E; [|done|by eapply values_absent; [..|apply Hnd]].
    destruct (written_members ms) as [kts'|] eqn:E'; [|done]. injection E as <-.
    rewrite values_of_member, Hk, decide_True by done. f_equal. by eapply values_absent; [..|apply Hnd].
  - assert (k ≠ name) as Hne by (intros ->; apply (proj1 Hnd); rewrite list_elem_of_fmap; by exists (name, o)).
    destruct o' as [[t|]|]; cbn in E; [|done|by apply IH; [apply Hnd|..]].
    destruct (written_members ms) as [kts'|] eqn:E'; [|done]. injection E as <-.
    rewrite values_of_member, Hk, decide_False by done. by apply IH; [apply Hnd|..].
Qed.

(** A struct is read back if each of its fields is. *)
Lemma read_written {A} (fields : list (string * string) → A → A * bool) ms t old x :
  write_struct ms = Some t → texts_scan ms →
  (∀ kts, written_members ms = Some kts → fields (seen kts) old = (x, true)) →
  read_struct fields t old = (x, true).
Proof.
  unfold write_struct. destruct (written_members ms) as [kts|] eqn:E; [|done]. intros [= <-] Hs Hf.
  unfold read_struct. rewrite object_members_seen by by eapply written_scan. by apply Hf.
Qed.

Lemma read_member {A} (read : reader A) ms kts name o old x :
  plain_names ms.*1 = true → written_members ms = Some kts → (name, o) ∈ ms →
  match o with Some (Some t) => read t old = (x, true) | _ => x = old end →
  read_field read name (seen kts) old = (x, true).
Proof.
  intros Hn E Hin Hr. unfold read_field. rewrite (values_written _ _ _ _ Hn E Hin).
  destruct o as [[t|]|]; cbn; [by rewrite Hr|by rewrite Hr|by rewrite Hr].
Qed.

Lemma reads_denotes {A} (f : val → option A) t v x old :
  denotes t v → v ≠ VNil → f v = Some x → reads f t old = (x, true).
Proof. intros Ht Hv Hf. unfold reads. rewrite (denotes_unmarshal _ _ Ht), Hf. by destruct v. Qed.

Lemma read_string_written s old : valid s → read_string (encode_string s) old = (s, true).
Proof. intros Hs. eapply reads_denotes; [apply denotes_encode|done|cbn; by rewrite Hs]. Qed.

Lemma read_int_written z old : in_int64 z → read_int (pretty z) old = (z, true).
Proof. intros Hz. unfold read_int. by rewrite decide_False, int_literal_pretty by (done || apply pretty_not_null). Qed.

Lemma read_any_written v t old : storable v → marshal v = Some t → read_any t old = (v, true).
Proof.
  intros Hv E. destruct (storable_text v Hv) as (t' & E' & Ht). rewrite E in E'. injection E' as <-.
  unfold read_any. by rewrite (denotes_unmarshal _ _ Ht).
Qed.

Lemma read_list_written l t old : storable (VList l) → marshal (VList l) = Some t → read_list t old = (l, true).
Proof.
  intros Hv E. destruct (storable_text _ Hv) as (t' & E' & Ht). rewrite E in E'. injection E' as <-.
  unfold read_list. by rewrite (denotes_unmarshal _ _ Ht).
Qed.

Lemma read_map_written m t : storable (VObj m) → marshal (VObj m) = Some t → read_map t ∅ = (m, true).
Proof.
  intros Hv E. destruct (storable_text _ Hv) as (t' & E' & Ht). rewrite E in E'. injection E' as <-.
  unfold read_map. by rewrite (denotes_unmarshal _ _ Ht), (right_id_L ∅ (∪)).
Qed.

Lemma read_float_written f t old : storable (VFloat f) → marshal (VFloat f) = Some t → read_float t old = (f, true).
Proof.
  intros Hv E. destruct (storable_text _ Hv) as (t' & E' & Ht). rewrite E in E'. injection E' as <-.
  by eapply reads_denotes.
Qed.

(** *** The texts of members *)
Lemma scans_encode s : scans (encode_string s).
Proof. eapply denotes_scans, denotes_encode. Qed.

Lemma scans_storable v t : storable v → marshal v = Some t → scans t.
Proof. intros [Hr _] E. by eapply marshal_scans. Qed.

(** *** Fields

    A member whose text the reader of its field takes back to the value it was
    written for; a member left out stands for what the field holds already. *)
Record stored {A} (read : reader A) (o : option (option string)) (old x : A) : Prop := {
  stored_scans t : o = Some (Some t) → scans t;
  stored_read t : o = Some (Some t) → read t old = (x, true);
  stored_absent : o = None → x = old
}.

Lemma written_texts ms kts name o : written_members ms = Some kts → (name, o) ∈ ms → o ≠ Some None.
Proof.
  revert kts. induction ms as [|[k o'] ms IH]; intros kts E Hin; [by apply not_elem_of_nil in Hin|]. cbn in E.
  apply elem_of_cons in Hin as [[= _ <-]|Hin].
  - by destruct o as [[t|]|].
  - destruct o' as [[t|]|]; cbn in E; [|done|by eapply IH]. destruct (written_members ms) as [kts'|]; [|done]. by eapply IH.
Qed.

Lemma read_stored {A} (read : reader A) ms kts m name old x :
  plain_names ms.*1 = true → written_members ms = Some kts → m.1 = name → m ∈ ms → stored read m.2 old x →
  read_field read name (seen kts) old = (x, true).
Proof.
  destruct m as [name' o]. cbn. intros Hn E -> Hin [_ Hr Ha]. eapply read_member; [done|exact E|exact Hin|].
  pose proof (written_texts _ _ _ _ E Hin). destruct o as [[t|]|]; [by apply Hr|done|by apply Ha].
Qed.

Lemma stored_text {A} (read : reader A) o old x :
  (∀ t, o = Some t → scans t ∧ read t old = (x, true)) → stored read (Some o) old x.
Proof. intros H. split; [..|done]; intros t [= ->]; by apply H. Qed.

Section stored.
Context (name : string).

Lemma stored_string s old : valid s → stored read_string (string_member name s).2 old s.
Proof. intros Hs. apply stored_text. intros t [= <-]. split; [apply scans_encode|by apply read_string_written]. Qed.

Lemma stored_opt_string s : valid s → stored read_string (opt_string name s).2 "" s.
Proof. intros Hs. unfold opt_string, unless. case_bool_decide; [by split|]. by apply stored_string. Qed.

Lemma stored_int z old : in_int64 z → stored read_int (always name (Some (pretty z))).2 old z.
Proof. intros Hz. apply stored_text. intros t [= <-]. split; [apply scans_int|by apply read_int_written]. Qed.

Lemma stored_opt_int z : in_int64 z → stored read_int (opt_int name z).2 0%Z z.
Proof. intros Hz. unfold opt_int, unless. case_bool_decide; [by split|]. by apply stored_int. Qed.

Lemma stored_any v old : storable v → stored read_any (always name (marshal v)).2 old v.
Proof. intros Hv. apply stored_text. intros t E. split; [by eapply scans_storable|by apply read_any_written]. Qed.

Lemma stored_opt_any v : storable v → stored read_any (opt_any name v).2 VNil v.
Proof. intros Hv. pose proof (stored_any v VNil Hv) as H. destruct v; try exact H. by split. Qed.

Lemma stored_opt_list l : storable (VList l) → stored read_list (opt_list name l).2 [] l.
Proof.
  intros Hl. unfold opt_list, unless. case_bool_decide as E; [apply length_zero_iff_nil in E as ->; by split|].
  apply stored_text. intros t Et. split; [by eapply scans_storable|by apply read_list_written].
Qed.

Lemma stored_opt_map m : storable (VObj m) → stored read_map (opt_map name m).2 ∅ m.
Proof.
  intros Hm. unfold opt_map, unless. case_bool_decide as E; [apply map_size_empty_iff in E as ->; by split|].
  apply stored_text. intros t Et. split; [by eapply scans_storable|by apply read_map_written].
Qed.

(** A zero is left out whatever its sign, and comes back positive. *)
Lemma stored_opt_float f : storable (VFloat f) → f ≠ S754_zero true → stored read_float (opt_float name f).2 (S754_zero false) f.
Proof.
  intros Hf Hz. assert (stored read_float (Some (marshal (VFloat f))) (S754_zero false) f) as H.
  { apply stored_text. intros t Et. split; [by eapply scans_storable|by apply read_float_written]. }
  destruct f as [[|]| | |]; [done|by split|exact H..].
Qed.

Lemma stored_struct {A} (fields : list (string * string) → A → A * bool) ms old x :
  texts_scan ms → (∀ kts, written_members ms = Some kts → fields (seen kts) old = (x, true)) →
  stored (read_struct fields) (always name (write_struct ms)).2 old x.
Proof.
  intros Hs Hf. apply stored_text. intros t Et. split; [|by eapply read_written].
  unfold write_struct in Et. destruct (written_members ms) as [kts|] eqn:E; [|done]. injection Et as <-.
  apply scans_object. by eapply written_scan.
Qed.
End stored.

Lemma scan_stored {A} (read : reader A) m old x ms : stored read m.2 old x → texts_scan ms → texts_scan (m :: ms).
Proof. intros Hs Hms. constructor; [|done]. intros t Ht. by eapply stored_scans. Qed.

#[export] Hint Resolve stored_string stored_opt_string stored_int stored_opt_int stored_any stored_opt_any
  stored_opt_list stored_opt_map stored_opt_float : stored.

(** Every text is the text of a field, whatever the field held. *)
Ltac texts_scan :=
  match goal with |- texts_scan ?ms => let ms' := eval hnf in ms in change (texts_scan ms') end;
  unshelve (repeat lazymatch goal with |- texts_scan (_ :: _) => eapply scan_stored; [solve [eauto with stored]|] end; constructor);
  repeat constructor.

(** Reads the fields of a struct from the members [ms] it was written with. *)
Ltac read_fields ms E :=
  let rec go l :=
    lazymatch eval hnf in l with
    | [] => idtac
    | ?m :: ?l' =>
        let n := eval cbn in (fst m) in
        erewrite (read_stored _ ms _ m n); [|reflexivity|exact E|reflexivity|repeat constructor|eauto with stored];
        go l'
    end
  in go ms; cbn beta iota.
