(* ===== verification/Events.v ===== *)
(** * The event log of a run (harness/events)

    Everything an agent does is recorded as events in an append-only log: the log
    in memory (memory.go), the filter of reads (store.go), the logical clock
    (clock.go) and the recorder that turns callbacks into events (recorder.go).
    The hash is a library; the two readings of the wall clock an event takes, one
    for its identifier and one for its time, are arguments. *)
From Stdlib Require Import Ascii.
From S2P Require Import Prelude Values Errors Json JsonText JsonLaw Cache.
From S2P Require Export StructJson.

(** ** Events (event.go) *)
Definition EventID := string.
Definition EventType := string.

Definition EventGraphStart : EventType := "graph.start".
Definition EventGraphEnd : EventType := "graph.end".
Definition EventStepStart : EventType := "step.start".
Definition EventStepEnd : EventType := "step.end".
Definition EventNodeStart : EventType := "node.start".
Definition EventNodeEnd : EventType := "node.end".
Definition EventStateRead : EventType := "state.read".
Definition EventStateWrite : EventType := "state.write".
Definition EventToolCallStart : EventType := "tool.call.start".
Definition EventToolCallResult : EventType := "tool.call.result".
Definition EventToolCallError : EventType := "tool.call.error".
Definition EventLLMCallStart : EventType := "llm.call.start".
Definition EventLLMCallChunk : EventType := "llm.call.chunk".
Definition EventLLMCallEnd : EventType := "llm.call.end".
Definition EventMemoryRead : EventType := "memory.read".
Definition EventMemoryWrite : EventType := "memory.write".
Definition EventApprovalRequest : EventType := "approval.request".
Definition EventApprovalGranted : EventType := "approval.granted".
Definition EventApprovalDenied : EventType := "approval.denied".
Definition EventCheckpointCreated : EventType := "checkpoint.created".
Definition EventCheckpointRestored : EventType := "checkpoint.restored".
Definition EventInterrupt : EventType := "interrupt".
Definition EventResume : EventType := "resume".
Definition EventError : EventType := "error".
Definition EventRetry : EventType := "retry".
Definition EventFork : EventType := "fork".
Definition EventSubAgentCallStart : EventType := "subagent.call.start".
Definition EventSubAgentCallEnd : EventType := "subagent.call.end".
Definition EventSessionValueSet : EventType := "session.value.set".
Definition EventSessionTransfer : EventType := "session.transfer".

(** A nil payload and nil metadata are [None]; nobody changes an event once it is
    in a log, so the pointers to it are values. *)
Record Event := MkEvent {
  EvID : EventID; EvType : EventType; EvTimestamp : Z; EvClock : Z;
  EvTraceID : string; EvParentID : EventID; EvCausedBy : list EventID;
  EvThreadID : string; EvStep : Z; EvNode : string; EvTaskID : string;
  EvPayload : option string; EvMetadata : option (gmap string val);
  EvDeterministic : bool; EvHash : string
}.

Definition empty_event : Event := MkEvent "" "" 0 0 "" "" [] "" 0 "" "" None None false "".

Definition with_clock (c : Z) (e : Event) : Event :=
  MkEvent (EvID e) (EvType e) (EvTimestamp e) c (EvTraceID e) (EvParentID e) (EvCausedBy e) (EvThreadID e)
          (EvStep e) (EvNode e) (EvTaskID e) (EvPayload e) (EvMetadata e) (EvDeterministic e) (EvHash e).
Definition with_trace (t : string) (e : Event) : Event :=
  MkEvent (EvID e) (EvType e) (EvTimestamp e) (EvClock e) t (EvParentID e) (EvCausedBy e) (EvThreadID e)
          (EvStep e) (EvNode e) (EvTaskID e) (EvPayload e) (EvMetadata e) (EvDeterministic e) (EvHash e).
Definition with_parent (p : EventID) (cs : list EventID) (e : Event) : Event :=
  MkEvent (EvID e) (EvType e) (EvTimestamp e) (EvClock e) (EvTraceID e) p cs (EvThreadID e)
          (EvStep e) (EvNode e) (EvTaskID e) (EvPayload e) (EvMetadata e) (EvDeterministic e) (EvHash e).
Definition with_thread (t : string) (e : Event) : Event :=
  MkEvent (EvID e) (EvType e) (EvTimestamp e) (EvClock e) (EvTraceID e) (EvParentID e) (EvCausedBy e) t
          (EvStep e) (EvNode e) (EvTaskID e) (EvPayload e) (EvMetadata e) (EvDeterministic e) (EvHash e).
Definition with_step (n : Z) (e : Event) : Event :=
  MkEvent (EvID e) (EvType e) (EvTimestamp e) (EvClock e) (EvTraceID e) (EvParentID e) (EvCausedBy e) (EvThreadID e)
          n (EvNode e) (EvTaskID e) (EvPayload e) (EvMetadata e) (EvDeterministic e) (EvHash e).
Definition with_node (n : string) (e : Event) : Event :=
  MkEvent (EvID e) (EvType e) (EvTimestamp e) (EvClock e) (EvTraceID e) (EvParentID e) (EvCausedBy e) (EvThreadID e)
          (EvStep e) n (EvTaskID e) (EvPayload e) (EvMetadata e) (EvDeterministic e) (EvHash e).
Definition with_payload (p : option string) (e : Event) : Event :=
  MkEvent (EvID e) (EvType e) (EvTimestamp e) (EvClock e) (EvTraceID e) (EvParentID e) (EvCausedBy e) (EvThreadID e)
          (EvStep e) (EvNode e) (EvTaskID e) p (EvMetadata e) (EvDeterministic e) (EvHash e).
Definition with_meta (k : string) (v : val) (e : Event) : Event :=
  MkEvent (EvID e) (EvType e) (EvTimestamp e) (EvClock e) (EvTraceID e) (EvParentID e) (EvCausedBy e) (EvThreadID e)
          (EvStep e) (EvNode e) (EvTaskID e) (EvPayload e) (<[k := v]> <$> EvMetadata e) (EvDeterministic e) (EvHash e).
Definition with_hash (h : string) (e : Event) : Event :=
  MkEvent (EvID e) (EvType e) (EvTimestamp e) (EvClock e) (EvTraceID e) (EvParentID e) (EvCausedBy e) (EvThreadID e)
          (EvStep e) (EvNode e) (EvTaskID e) (EvPayload e) (EvMetadata e) (EvDeterministic e) h.

(** [%x] of an int64. *)
Fixpoint hex_digits (fuel : nat) (z : Z) (acc : string) : string :=
  match fuel with
  | O => acc
  | S fuel' => let acc := String (hex_digit (Z.to_nat (z mod 16))) acc in
               if decide (z / 16 = 0)%Z then acc else hex_digits fuel' (z / 16)%Z acc
  end.
Definition hex (z : Z) : string := if (z <? 0)%Z then "-" +:+ hex_digits 16 (- z) "" else hex_digits 16 z "".

(** The wall clock when the identifier is made, and when the time is taken. *)
Abbreviation moment2 := (Z * Z)%type.

Definition NewEvent (typ : EventType) (clock : Z) (now : moment2) : Event :=
  MkEvent ("evt-" +:+ pretty clock +:+ "-" +:+ hex now.1) typ now.2 clock "" "" [] "" 0 "" "" None (Some ∅) false "".

Section events.
Context `{Sha256Hex}.

(** Metadata that cannot be marshalled contribute nothing. *)
Definition computeHash (e : Event) : string :=
  sha256_hex (default "" (EvPayload e) +:+ default "" (EvMetadata e ≫= λ m, marshal (VObj m))).

Definition Seal (e : Event) : Event := with_hash (computeHash e) e.

(** *** Payloads *)
Record ToolCallPayload := MkToolCall {
  tool_ToolName : string; tool_Arguments : gmap string val; tool_Result : val;
  tool_DurationMs : Z; tool_Error : string; tool_RetryCount : Z
}.
Record TokenUsage := MkTokenUsage { PromptTokens : Z; CompletionTokens : Z; TotalTokens : Z }.
Record LLMCallPayload := MkLLMCall {
  llm_Model : string; llm_Provider : string; llm_Messages : list val; llm_Tokens : TokenUsage;
  llm_Content : string; llm_Chunks : Z; llm_DurationMs : Z; llm_Cost : spec_float
}.
Record StateTransitionPayload := MkStateTransition {
  st_Channel : string; st_OldValue : val; st_NewValue : val; st_Reducer : string
}.
Record MemoryWritePayload := MkMemoryWrite {
  mw_Store : string; mw_Operation : string; mw_Key : string; mw_Value : val; mw_Score : spec_float
}.
Record ApprovalPayload := MkApproval {
  ap_RequestID : string; ap_Action : string; ap_Context : val; ap_Decision : string; ap_LatencyMs : Z
}.
Record SubAgentCallPayload := MkSubAgentCall {
  sub_Name : string; sub_Input : val; sub_Output : val; sub_Depth : Z; sub_DurationMs : Z; sub_Error : string
}.

Definition tool_members (p : ToolCallPayload) : members :=
  [string_member "tool_name" (tool_ToolName p); opt_map "arguments" (tool_Arguments p);
   opt_any "result" (tool_Result p); opt_int "duration_ms" (tool_DurationMs p);
   opt_string "error" (tool_Error p); opt_int "retry_count" (tool_RetryCount p)].

Definition token_members (u : TokenUsage) : members :=
  [always "prompt_tokens" (Some (pretty (PromptTokens u))); always "completion_tokens" (Some (pretty (CompletionTokens u)));
   always "total_tokens" (Some (pretty (TotalTokens u)))].

(** A struct is never empty, so the tokens are always written. *)
Definition llm_members (p : LLMCallPayload) : members :=
  [string_member "model" (llm_Model p); opt_string "provider" (llm_Provider p); opt_list "messages" (llm_Messages p);
   always "tokens" (write_struct (token_members (llm_Tokens p))); opt_string "content" (llm_Content p);
   opt_int "chunks" (llm_Chunks p); opt_int "duration_ms" (llm_DurationMs p); opt_float "cost" (llm_Cost p)].

Definition state_members (p : StateTransitionPayload) : members :=
  [string_member "channel" (st_Channel p); opt_any "old_value" (st_OldValue p); always "new_value" (marshal (st_NewValue p));
   opt_string "reducer" (st_Reducer p)].

Definition memory_members (p : MemoryWritePayload) : members :=
  [string_member "store" (mw_Store p); string_member "operation" (mw_Operation p); opt_string "key" (mw_Key p);
   opt_any "value" (mw_Value p); opt_float "score" (mw_Score p)].

Definition approval_members (p : ApprovalPayload) : members :=
  [string_member "request_id" (ap_RequestID p); string_member "action" (ap_Action p); opt_any "context" (ap_Context p);
   opt_string "decision" (ap_Decision p); opt_int "latency_ms" (ap_LatencyMs p)].

Definition subagent_members (p : SubAgentCallPayload) : members :=
  [string_member "sub_agent_name" (sub_Name p); opt_any "input" (sub_Input p); opt_any "output" (sub_Output p);
   opt_int "depth" (sub_Depth p); opt_int "duration_ms" (sub_DurationMs p); opt_string "error" (sub_Error p)].

Definition session_value_members (key : string) (value : val) : members :=
  [string_member "key" key; opt_any "value" value].

Definition session_transfer_members (fromAgent toAgent reason : string) (input : val) : members :=
  [string_member "from_agent" fromAgent; string_member "to_agent" toAgent; opt_string "reason" reason; opt_any "input" input].

(** Payloads as [json.Unmarshal] reads them. *)
Definition tool_fields (ms : list (string * string)) (p : ToolCallPayload) : ToolCallPayload * bool :=
  let '(name, o1) := read_field read_string "tool_name" ms (tool_ToolName p) in
  let '(args, o2) := read_field read_map "arguments" ms (tool_Arguments p) in
  let '(res, o3) := read_field read_any "result" ms (tool_Result p) in
  let '(dur, o4) := read_field read_int "duration_ms" ms (tool_DurationMs p) in
  let '(err, o5) := read_field read_string "error" ms (tool_Error p) in
  let '(retry, o6) := read_field read_int "retry_count" ms (tool_RetryCount p) in
  (MkToolCall name args res dur err retry, o1 && o2 && o3 && o4 && o5 && o6).

Definition token_fields (ms : list (string * string)) (u : TokenUsage) : TokenUsage * bool :=
  let '(p, o1) := read_field read_int "prompt_tokens" ms (PromptTokens u) in
  let '(c, o2) := read_field read_int "completion_tokens" ms (CompletionTokens u) in
  let '(t, o3) := read_field read_int "total_tokens" ms (TotalTokens u) in
  (MkTokenUsage p c t, o1 && o2 && o3).

Definition llm_fields (ms : list (string * string)) (p : LLMCallPayload) : LLMCallPayload * bool :=
  let '(model, o1) := read_field read_string "model" ms (llm_Model p) in
  let '(provider, o2) := read_field read_string "provider" ms (llm_Provider p) in
  let '(messages, o3) := read_field read_list "messages" ms (llm_Messages p) in
  let '(tokens, o4) := read_field (read_struct token_fields) "tokens" ms (llm_Tokens p) in
  let '(content, o5) := read_field read_string "content" ms (llm_Content p) in
  let '(chunks, o6) := read_field read_int "chunks" ms (llm_Chunks p) in
  let '(dur, o7) := read_field read_int "duration_ms" ms (llm_DurationMs p) in
  let '(cost, o8) := read_field read_float "cost" ms (llm_Cost p) in
  (MkLLMCall model provider messages tokens content chunks dur cost, o1 && o2 && o3 && o4 && o5 && o6 && o7 && o8).

Definition state_fields (ms : list (string * string)) (p : StateTransitionPayload) : StateTransitionPayload * bool :=
  let '(channel, o1) := read_field read_string "channel" ms (st_Channel p) in
  let '(old, o2) := read_field read_any "old_value" ms (st_OldValue p) in
  let '(new, o3) := read_field read_any "new_value" ms (st_NewValue p) in
  let '(reducer, o4) := read_field read_string "reducer" ms (st_Reducer p) in
  (MkStateTransition channel old new reducer, o1 && o2 && o3 && o4).

Definition no_tool_call : ToolCallPayload := MkToolCall "" ∅ VNil 0 "" 0.
Definition no_llm_call : LLMCallPayload := MkLLMCall "" "" [] (MkTokenUsage 0 0 0) "" 0 0 (S754_zero false).
Definition no_state_transition : StateTransitionPayload := MkStateTransition "" VNil VNil "".

(** ** Filters (store.go) *)
Record EventFilter := MkFilter {
  flt_TraceID : string; flt_ThreadID : string; flt_Types : list EventType; flt_Node : string;
  flt_FromClock : Z; flt_ToClock : Z; flt_FromTime : option Z; flt_ToTime : option Z; flt_Limit : Z
}.
Definition no_filter : EventFilter := MkFilter "" "" [] "" 0 0 None None 0.

Definition Matches (f : EventFilter) (e : Event) : bool :=
  negb (bool_decide (flt_TraceID f ≠ "") && bool_decide (EvTraceID e ≠ flt_TraceID f)) &&
  negb (bool_decide (flt_ThreadID f ≠ "") && bool_decide (EvThreadID e ≠ flt_ThreadID f)) &&
  negb (bool_decide (flt_Types f ≠ []) && negb (bool_decide (EvType e ∈ flt_Types f))) &&
  negb (bool_decide (flt_Node f ≠ "") && bool_decide (EvNode e ≠ flt_Node f)) &&
  negb ((0 <? flt_FromClock f)%Z && (EvClock e <? flt_FromClock f)%Z) &&
  negb ((0 <? flt_ToClock f)%Z && (flt_ToClock f <? EvClock e)%Z) &&
  negb (match flt_FromTime f with Some t => (EvTimestamp e <? t)%Z | None => false end) &&
  negb (match flt_ToTime f with Some t => (t <? EvTimestamp e)%Z | None => false end).

(** ** Iterators (memory.go) *)
Record sliceIterator := MkIterator { it_events : list Event; it_pos : nat }.

Definition Next (it : sliceIterator) : option Event * sliceIterator :=
  match it_events it !! it_pos it with
  | Some ev => (Some ev, MkIterator (it_events it) (S (it_pos it)))
  | None => (None, it)
  end.

Definition Close (it : sliceIterator) : sliceIterator := MkIterator [] (it_pos it).

(** The loops that read an iterator to its end; [fuel] bounds their rounds. *)
Fixpoint drain (fuel : nat) (it : sliceIterator) : list Event :=
  match fuel with
  | O => []
  | S fuel' => match Next it with (Some ev, it) => ev :: drain fuel' it | (None, _) => [] end
  end.

Definition read_all (it : sliceIterator) : list Event := drain (S (length (it_events it))) it.
End events.

(** ** Logs (store.go)

    [Append] returns the events as it leaves them, with clock and hash. *)
Class EventLog (S : Type) := {
  Append : list Event → S → res () * list Event * S;
  Stream : EventFilter → S → sliceIterator;
  GetEvent : EventID → S → option Event;
  Range : Z → Z → EventFilter → S → list Event;
  Seek : Z → S → sliceIterator;
  Length : S → Z
}.

(** The clock wraps around at 2^64. *)
Definition uint64_add (a b : Z) : Z := ((a + b) `mod` 2 ^ 64)%Z.
Definition Tick (clock : Z) : Z := uint64_add clock 1.

(** Whether an event is between two clocks; 0 is no upper bound. *)
Definition in_range (from to : Z) (e : Event) : bool :=
  negb (EvClock e <? from)%Z && negb ((0 <? to)%Z && (to <? EvClock e)%Z).

(** The position [Seek] starts at: that of the first event at or after the clock,
    0 if there is none. *)
Definition seek_pos (clock : Z) (events : list Event) : nat :=
  default 0 (fst <$> list_find (λ e, (clock ≤ EvClock e)%Z) events).

(** ** The log in memory (memory.go)

    A subscription is the buffer of its channel. *)
Module MemoryEventStore.
Record t := Mk { events : list Event; byID : gmap EventID Event; clock : Z; subs : gmap Z (list Event); subID : Z }.

Definition New : t := Mk [] ∅ 0 ∅ 0.

Section store.
Context `{Sha256Hex}.

(** A full buffer drops the event. *)
Definition dispatch (ev : Event) (buffer : list Event) : list Event :=
  if decide (length buffer < 256) then buffer ++ [ev] else buffer.

Definition append_one (ev : Event) (s : t) : Event * t :=
  let clock' := if decide (EvClock ev = 0%Z) then uint64_add (clock s) 1 else clock s in
  let ev := Seal (if decide (EvClock ev = 0%Z) then with_clock clock' ev else ev) in
  (ev, Mk (events s ++ [ev]) (<[EvID ev := ev]> (byID s)) clock' (dispatch ev <$> subs s) (subID s)).

Fixpoint append (evs : list Event) (s : t) : list Event * t :=
  match evs with
  | [] => ([], s)
  | ev :: evs => let '(ev, s) := append_one ev s in let '(evs, s) := append evs s in (ev :: evs, s)
  end.

Definition Append_ (evs : list Event) (s : t) : res () * list Event * t :=
  let '(evs, s) := append evs s in (Ok (), evs, s).
Definition Stream_ (f : EventFilter) (s : t) : sliceIterator := MkIterator (filter (λ e, Matches f e = true) (events s)) 0.
Definition Get_ (id : EventID) (s : t) : option Event := byID s !! id.
Definition Range_ (from to : Z) (f : EventFilter) (s : t) : list Event :=
  filter (λ e, in_range from to e && Matches f e = true) (events s).
Definition Seek_ (c : Z) (s : t) : sliceIterator := MkIterator (drop (seek_pos c (events s)) (events s)) 0.
Definition Length_ (s : t) : Z := Z.of_nat (length (events s)).

(** A snapshot is not looked at. *)
Definition RestoreSnapshot (snapshotID : string) (s : t) : sliceIterator := Seek_ 0 s.

(** The subscriber reads [Receive]; when its context is done the channel goes. *)
Definition Subscribe (f : EventFilter) (s : t) : Z * t :=
  let id := int_add (subID s) 1 in (id, Mk (events s) (byID s) (clock s) (<[id := []]> (subs s)) id).
Definition Receive (id : Z) (s : t) : option Event * t :=
  match subs s !! id with
  | Some (ev :: buffer) => (Some ev, Mk (events s) (byID s) (clock s) (<[id := buffer]> (subs s)) (subID s))
  | _ => (None, s)
  end.
Definition Unsubscribe (id : Z) (s : t) : t := Mk (events s) (byID s) (clock s) (delete id (subs s)) (subID s).

(** The loop of [GC]: what is kept, and the identifiers of the rest leave the map. *)
Fixpoint collect (cutoff : Z) (evs : list Event) (ids : gmap EventID Event) : list Event * gmap EventID Event :=
  match evs with
  | [] => ([], ids)
  | ev :: evs =>
      if (cutoff <? EvTimestamp ev)%Z then let '(keep, ids) := collect cutoff evs ids in (ev :: keep, ids)
      else collect cutoff evs (delete (EvID ev) ids)
  end.

Definition GC (now retention : Z) (s : t) : t :=
  let '(keep, ids) := collect (now - retention) (events s) (byID s) in Mk keep ids (clock s) (subs s) (subID s).

#[global] Instance event_log : EventLog t := {
  Append := Append_; Stream := Stream_; GetEvent := Get_; Range := Range_; Seek := Seek_; Length := Length_
}.
End store.
End MemoryEventStore.

(** ** The recorder (recorder.go) *)
Record EventRecorder := MkRecorder { rec_clock : Z; rec_traceID : string; rec_threadID : string }.

Definition NewEventRecorder (traceID threadID : string) : EventRecorder := MkRecorder 0 traceID threadID.

Section recorder.
Context `{Sha256Hex} {S : Type} `{EventLog S}.

(** [record] first takes the next value of the clock for the event, then appends
    it; the two are separate steps for other goroutines. *)
Definition new_event (typ : EventType) (now : moment2) (f : Event → Event) (r : EventRecorder) : Event * EventRecorder :=
  let clock := Tick (rec_clock r) in
  (Seal (f (with_thread (rec_threadID r) (with_trace (rec_traceID r) (NewEvent typ clock now)))),
   MkRecorder clock (rec_traceID r) (rec_threadID r)).

(** The error of [Append] is dropped. *)
Definition record (typ : EventType) (now : moment2) (f : Event → Event) (rs : EventRecorder * S) : EventRecorder * S :=
  let '(ev, r) := new_event typ now f rs.1 in (r, (Append [ev] rs.2).2).

Definition undetermined (e : Event) : Event :=
  MkEvent (EvID e) (EvType e) (EvTimestamp e) (EvClock e) (EvTraceID e) (EvParentID e) (EvCausedBy e) (EvThreadID e)
          (EvStep e) (EvNode e) (EvTaskID e) (EvPayload e) (EvMetadata e) false (EvHash e).
Definition marshalled (ms : members) : Event → Event := with_payload (write_struct ms).
(** Errors make an event undetermined. *)
Definition on_error (errStr : string) (e : Event) : Event := if decide (errStr ≠ "") then undetermined e else e.
Definition error_meta (err : option error) : Event → Event :=
  match err with Some err => with_meta "error" (VStr (Error_string err)) | None => id end.

Definition RecordModelCall (now now' : moment2) (p : LLMCallPayload) (rs : EventRecorder * S) : EventRecorder * S :=
  record EventLLMCallEnd now' (λ e, marshalled (llm_members p) (undetermined e))
    (record EventLLMCallStart now
       (λ e, with_meta "provider" (VStr (llm_Provider p)) (with_meta "model" (VStr (llm_Model p)) (undetermined e))) rs).
Definition RecordLLMChunk (now : moment2) (model chunk : string) : EventRecorder * S → EventRecorder * S :=
  record EventLLMCallChunk now (λ e, with_meta "chunk" (VStr chunk) (with_meta "model" (VStr model) (undetermined e))).
Definition RecordToolCall (now now' : moment2) (p : ToolCallPayload) (rs : EventRecorder * S) : EventRecorder * S :=
  record EventToolCallResult now' (λ e, on_error (tool_Error p) (marshalled (tool_members p) e))
    (record EventToolCallStart now (with_meta "tool" (VStr (tool_ToolName p))) rs).
Definition RecordSubAgentCall (now now' : moment2) (name : string) (input output : val) (depth durationMs : Z) (errStr : string)
    (rs : EventRecorder * S) : EventRecorder * S :=
  record EventSubAgentCallEnd now'
    (λ e, on_error errStr (marshalled (subagent_members (MkSubAgentCall name VNil output depth durationMs errStr)) e))
    (record EventSubAgentCallStart now (marshalled (subagent_members (MkSubAgentCall name input VNil depth 0 ""))) rs).
Definition RecordSessionValue (now : moment2) (key : string) (value : val) : EventRecorder * S → EventRecorder * S :=
  record EventSessionValueSet now (marshalled (session_value_members key value)).
Definition RecordSessionTransfer (now : moment2) (fromAgent toAgent reason : string) (input : val)
  : EventRecorder * S → EventRecorder * S :=
  record EventSessionTransfer now (marshalled (session_transfer_members fromAgent toAgent reason input)).
Definition RecordStateWrite (now : moment2) (p : StateTransitionPayload) : EventRecorder * S → EventRecorder * S :=
  record EventStateWrite now (marshalled (state_members p)).
Definition RecordMemoryWrite (now : moment2) (p : MemoryWritePayload) : EventRecorder * S → EventRecorder * S :=
  record EventMemoryWrite now (marshalled (memory_members p)).
Definition RecordMemoryRead (now : moment2) (store key : string) (score : spec_float) : EventRecorder * S → EventRecorder * S :=
  record EventMemoryRead now (marshalled (memory_members (MkMemoryWrite store "" key VNil score))).
Definition RecordApproval (now : moment2) (p : ApprovalPayload) : EventRecorder * S → EventRecorder * S :=
  record EventApprovalRequest now (marshalled (approval_members p)).
Definition RecordError (now : moment2) (errMsg : string) : EventRecorder * S → EventRecorder * S :=
  record EventError now (with_meta "error" (VStr errMsg)).
Definition RecordRetry (now : moment2) (detail : string) : EventRecorder * S → EventRecorder * S :=
  record EventRetry now (with_meta "detail" (VStr detail)).

(** *** The callbacks of a run *)
Definition OnRunStart (now : moment2) (graphName threadID : string) : EventRecorder * S → EventRecorder * S :=
  record EventGraphStart now (with_meta "graph_name" (VStr graphName)).
Definition OnRunEnd (now : moment2) (graphName threadID : string) (err : option error) : EventRecorder * S → EventRecorder * S :=
  record EventGraphEnd now (λ e, error_meta err (with_meta "graph_name" (VStr graphName) e)).
Definition OnStepStart (now : moment2) (step taskCount : Z) : EventRecorder * S → EventRecorder * S :=
  record EventStepStart now (λ e, with_meta "task_count" (VInt taskCount) (with_step step e)).
Definition OnStepEnd (now : moment2) (step : Z) (err : option error) : EventRecorder * S → EventRecorder * S :=
  record EventStepEnd now (λ e, error_meta err (with_step step e)).
Definition OnNodeStart (now : moment2) (nodeName : string) (step : Z) : EventRecorder * S → EventRecorder * S :=
  record EventNodeStart now (λ e, with_step step (with_node nodeName e)).
Definition OnNodeEnd (now : moment2) (nodeName : string) (step : Z) (output : val) (err : option error)
  : EventRecorder * S → EventRecorder * S :=
  record EventNodeEnd now (λ e, error_meta err (with_step step (with_node nodeName e))).
Definition OnCheckpointSave (now : moment2) (threadID checkpointID : string) (step : Z) : EventRecorder * S → EventRecorder * S :=
  record EventCheckpointCreated now (λ e, with_meta "checkpoint_id" (VStr checkpointID) (with_step step (with_thread threadID e))).
Definition OnCheckpointLoad (now : moment2) (threadID checkpointID : string) (step : Z) : EventRecorder * S → EventRecorder * S :=
  record EventCheckpointRestored now (λ e, with_meta "checkpoint_id" (VStr checkpointID) (with_step step (with_thread threadID e))).
Definition OnCheckpointUpdate (now : moment2) (threadID asNode : string) : EventRecorder * S → EventRecorder * S :=
  record EventStateWrite now (λ e, with_node asNode (with_thread threadID e)).
Definition OnInterrupt (now : moment2) (nodeNames : list string) (step : Z) : EventRecorder * S → EventRecorder * S :=
  record EventInterrupt now (λ e, with_meta "interrupt_nodes" (VSlice TString (VStr <$> nodeNames)) (with_step step e)).
Definition OnResume (now : moment2) (threadID : string) : EventRecorder * S → EventRecorder * S :=
  record EventResume now (with_thread threadID).
End recorder.
