(* ===== verification/EventsProps.v ===== *)
(** * What the event log and the recorder guarantee

    Iterators give what they were made of; the log in memory refines a list of
    events; events recorded through one recorder have a clock of their own in every
    interleaving.  Examples show where the documented order, filters and seeks are
    not what the code does. *)
From Stdlib Require Import Ascii.
From S2P Require Import Prelude Values Errors Json JsonText JsonLaw Cache.
From S2P Require Export Events.

(** ** Iterators *)
Lemma drain_spec fuel it : length (it_events it) < fuel + it_pos it → drain fuel it = drop (it_pos it) (it_events it).
Proof.
  revert it. induction fuel as [|fuel IH]; intros [l pos] Hf; cbn in *; [by rewrite drop_ge by lia|].
  unfold Next. cbn [it_events it_pos]. destruct (l !! pos) as [ev|] eqn:E.
  - rewrite IH by (cbn; lia). cbn. by rewrite (drop_S _ _ _ E).
  - apply lookup_ge_None in E. by rewrite drop_ge.
Qed.

Lemma read_all_spec l pos : read_all (MkIterator l pos) = drop pos l.
Proof. unfold read_all. rewrite drain_spec by (cbn; lia). done. Qed.

Section memory.
Context `{Sha256Hex}.

Lemma read_Stream f (s : MemoryEventStore.t) :
  read_all (Stream f s) = filter (λ e, Matches f e = true) (MemoryEventStore.events s).
Proof. exact (read_all_spec _ 0). Qed.

Lemma read_Seek c (s : MemoryEventStore.t) :
  read_all (Seek c s) = drop (seek_pos c (MemoryEventStore.events s)) (MemoryEventStore.events s).
Proof. exact (read_all_spec _ 0). Qed.
End memory.

(** Closing an iterator ends it. *)
Lemma Next_Close it : (Next (Close it)).1 = None.
Proof. done. Qed.

(** ** The log in memory as a list of events *)
Section refinement.
Context `{Sha256Hex}.

Inductive log_op :=
| OAppend (evs : list Event)
| OGC (now retention : Z)
| OStream (f : EventFilter)
| OGet (id : EventID)
| ORange (from to : Z) (f : EventFilter)
| OSeek (clock : Z)
| OLength.

Inductive answer := Events (evs : list Event) | MaybeEvent (e : option Event) | Number (n : Z).

Definition run_op (s : MemoryEventStore.t) (op : log_op) : answer * MemoryEventStore.t :=
  match op with
  | OAppend evs => let '(_, evs, s) := Append evs s in (Events evs, s)
  | OGC now retention => (Number 0, MemoryEventStore.GC now retention s)
  | OStream f => (Events (read_all (Stream f s)), s)
  | OGet id => (MaybeEvent (GetEvent id s), s)
  | ORange from to f => (Events (Range from to f s), s)
  | OSeek c => (Events (read_all (Seek c s)), s)
  | OLength => (Number (Length s), s)
  end.

(** The specification: the events in order of arrival, and the last clock given
    out; events without a clock get the next one, and every event its hash. *)
Record log_spec := MkSpec { sp_events : list Event; sp_clock : Z }.

Definition spec_append_one (sp : log_spec) (ev : Event) : log_spec :=
  if decide (EvClock ev = 0%Z) then
    let c := uint64_add (sp_clock sp) 1 in MkSpec (sp_events sp ++ [Seal (with_clock c ev)]) c
  else MkSpec (sp_events sp ++ [Seal ev]) (sp_clock sp).

Definition spec_append (evs : list Event) (sp : log_spec) : log_spec := foldl spec_append_one sp evs.

Definition spec_op (sp : log_spec) (op : log_op) : answer * log_spec :=
  match op with
  | OAppend evs => let sp' := spec_append evs sp in (Events (drop (length (sp_events sp)) (sp_events sp')), sp')
  | OGC now retention => (Number 0, MkSpec (filter (λ e, (now - retention < EvTimestamp e)%Z) (sp_events sp)) (sp_clock sp))
  | OStream f => (Events (filter (λ e, Matches f e = true) (sp_events sp)), sp)
  | OGet id => (MaybeEvent (snd <$> list_find (λ e, EvID e = id) (sp_events sp)), sp)
  | ORange from to f => (Events (filter (λ e, in_range from to e && Matches f e = true) (sp_events sp)), sp)
  | OSeek c => (Events (drop (seek_pos c (sp_events sp)) (sp_events sp)), sp)
  | OLength => (Number (Z.of_nat (length (sp_events sp))), sp)
  end.

Fixpoint run_ops {A} (step : A → log_op → answer * A) (a : A) (ops : list log_op) : list answer :=
  match ops with
  | [] => []
  | op :: ops => let '(x, a) := step a op in x :: run_ops step a ops
  end.

(** The identifiers a session appends. *)
Definition appended (op : log_op) : list EventID := match op with OAppend evs => EvID <$> evs | _ => [] end.

Definition finds (l : list Event) (id : EventID) (e : Event) : Prop := e ∈ l ∧ EvID e = id.

Record represents (s : MemoryEventStore.t) (sp : log_spec) : Prop := {
  rep_events : MemoryEventStore.events s = sp_events sp;
  rep_clock : MemoryEventStore.clock s = sp_clock sp;
  rep_ids : NoDup (EvID <$> sp_events sp);
  rep_byID id e : MemoryEventStore.byID s !! id = Some e ↔ finds (sp_events sp) id e
}.

Lemma find_spec l id e : NoDup (EvID <$> l) → snd <$> list_find (λ e, EvID e = id) l = Some e ↔ finds l id e.
Proof.
  intros Hnd. unfold finds. rewrite fmap_Some. split.
  - intros ([i x] & (Hx & Hid & _)%list_find_Some & ->). cbn. split; [by eapply list_elem_of_lookup_2|done].
  - intros [Hin Hid]. destruct (list_find_elem_of (λ e, EvID e = id) l e Hin Hid) as [[i x] Hf]. exists (i, x).
    split; [done|]. apply list_find_Some in Hf as (Hx & Hidx & _). cbn.
    apply list_elem_of_lookup in Hin as [j Hj]. assert (i = j) as ->.
    { eapply NoDup_lookup; [exact Hnd|rewrite list_lookup_fmap, Hx; done|]. rewrite list_lookup_fmap, Hj. cbn. by rewrite Hid, Hidx. }
    congruence.
Qed.

Lemma append_one_represents s sp ev :
  represents s sp → EvID ev ∉ EvID <$> sp_events sp →
  ∃ ev', (MemoryEventStore.append_one ev s).1 = ev' ∧ EvID ev' = EvID ev ∧
    represents (MemoryEventStore.append_one ev s).2 (spec_append_one sp ev) ∧
    sp_events (spec_append_one sp ev) = sp_events sp ++ [ev'].
Proof.
  intros [He Hc Hnd Hid] Hfresh. eexists. split; [done|]. unfold MemoryEventStore.append_one, spec_append_one. rewrite He, Hc.
  set (ev' := Seal _). assert (EvID ev' = EvID ev) as Hev by (unfold ev'; by destruct (decide _)).
  assert (sp_events (if decide (EvClock ev = 0%Z) then MkSpec (sp_events sp ++ [Seal (with_clock (uint64_add (sp_clock sp) 1) ev)])
                       (uint64_add (sp_clock sp) 1) else MkSpec (sp_events sp ++ [Seal ev]) (sp_clock sp)) = sp_events sp ++ [ev'])
    as Hsp by (unfold ev'; by destruct (decide _)).
  split_and!; [done| |done]. cbn [snd]. split; rewrite ?Hsp; cbn; [done|by destruct (decide _)| |].
  - rewrite fmap_app. apply NoDup_app. split_and!; [done| |cbn; apply NoDup_singleton].
    intros x Hx Hx'. apply list_elem_of_singleton in Hx' as ->. by rewrite Hev in Hx.
  - intros id e. unfold finds. rewrite elem_of_app, list_elem_of_singleton. destruct (decide (id = EvID ev')) as [->|Hne].
    + rewrite lookup_insert_eq. split; [intros [= <-]; by auto|]. intros [[Hin| ->] He']; [|done].
      exfalso. apply Hfresh. rewrite <-Hev, <-He'. rewrite list_elem_of_fmap. by exists e.
    + rewrite lookup_insert_ne by done. rewrite Hid. unfold finds. naive_solver.
Qed.

Lemma append_represents s sp evs :
  represents s sp → NoDup (EvID <$> evs) → (∀ id, id ∈ EvID <$> evs → id ∉ EvID <$> sp_events sp) →
  represents (MemoryEventStore.append evs s).2 (spec_append evs sp) ∧
  sp_events (spec_append evs sp) = sp_events sp ++ (MemoryEventStore.append evs s).1 ∧
  EvID <$> (MemoryEventStore.append evs s).1 = EvID <$> evs.
Proof.
  revert s sp. induction evs as [|ev evs IH]; intros s sp Hr Hnd Hfresh; [cbn; by rewrite app_nil_r|].
  rewrite fmap_cons, NoDup_cons in Hnd. destruct Hnd as [Hev Hnd].
  destruct (append_one_represents s sp ev Hr ltac:(apply Hfresh; left)) as (ev' & E1 & Hid & Hr' & Hsp).
  cbn [MemoryEventStore.append spec_append foldl]. destruct (MemoryEventStore.append_one ev s) as [ev1 s1]. cbn in E1, Hr'. subst ev1.
  destruct (IH s1 (spec_append_one sp ev) Hr' Hnd) as (Hr2 & Hsp2 & Hids).
  { intros id Hid'. rewrite Hsp, fmap_app, elem_of_app. intros [Hin|Hin]; [by apply (Hfresh id); [right|]|].
    apply list_elem_of_singleton in Hin as ->. by rewrite Hid in Hid'. }
  destruct (MemoryEventStore.append evs s1) as [evs' s2]. cbn in *. split_and!; [done| |by rewrite Hid, Hids].
  fold (spec_append evs (spec_append_one sp ev)). rewrite Hsp2, Hsp. by rewrite <-(assoc_L (++)).
Qed.

Lemma collect_spec cutoff evs ids :
  (MemoryEventStore.collect cutoff evs ids).1 = filter (λ e, (cutoff < EvTimestamp e)%Z) evs ∧
  ∀ id, (MemoryEventStore.collect cutoff evs ids).2 !! id =
    if decide (Exists (λ e, ¬ (cutoff < EvTimestamp e)%Z ∧ EvID e = id) evs) then None else ids !! id.
Proof.
  revert ids. induction evs as [|e evs IH]; intros ids; cbn [MemoryEventStore.collect].
  { split; [done|]. intros id. by rewrite decide_False by (by intros ?%Exists_nil). }
  rewrite filter_cons. destruct (cutoff <? EvTimestamp e)%Z eqn:E.
  - specialize (IH ids). destruct (MemoryEventStore.collect cutoff evs ids) as [keep ids']. cbn in *. destruct IH as [-> IH].
    rewrite decide_True by lia. split; [done|]. intros id. rewrite IH. apply decide_ext. rewrite Exists_cons. intuition lia.
  - destruct (IH (delete (EvID e) ids)) as [-> IH2]. rewrite decide_False by lia. split; [done|]. intros id. rewrite IH2.
    destruct (decide (Exists _ evs)) as [Hx|Hx].
    + rewrite decide_True; [done|]. by right.
    + destruct (decide (EvID e = id)) as [<-|Hne].
      * rewrite lookup_delete_eq, decide_True; [done|]. left. split; [lia|done].
      * rewrite lookup_delete_ne by done. rewrite decide_False; [done|]. rewrite Exists_cons. naive_solver.
Qed.

Lemma NoDup_fmap_filter (P : Event → Prop) `{∀ e, Decision (P e)} l : NoDup (EvID <$> l) → NoDup (EvID <$> filter P l).
Proof.
  induction l as [|e l IH]; [done|]. rewrite fmap_cons, NoDup_cons, filter_cons. intros [He Hl]. case_decide; [|by apply IH].
  rewrite fmap_cons, NoDup_cons. split; [|by apply IH]. rewrite list_elem_of_fmap. intros (x & Hx & Hin).
  apply He. rewrite Hx. rewrite list_elem_of_fmap. exists x. split; [done|]. by apply list_elem_of_filter in Hin as [_ ?].
Qed.

Lemma GC_represents s sp now retention :
  represents s sp →
  represents (MemoryEventStore.GC now retention s)
    (MkSpec (filter (λ e, (now - retention < EvTimestamp e)%Z) (sp_events sp)) (sp_clock sp)).
Proof.
  intros [He Hc Hnd Hid]. unfold MemoryEventStore.GC.
  destruct (collect_spec (now - retention) (MemoryEventStore.events s) (MemoryEventStore.byID s)) as [H1 H2].
  destruct (MemoryEventStore.collect _ _ _) as [keep ids]. cbn in *. subst keep. rewrite He in *. split; cbn; [done|done| |].
  - by apply NoDup_fmap_filter.
  - intros id e. rewrite H2. unfold finds. rewrite list_elem_of_filter. case_decide as Hx.
    + split; [done|]. intros [[Hkeep Hin] Hide]. exfalso. apply Exists_exists in Hx as (x & Hx & Hdrop & Hidx).
      assert (x = e) as ->; [|done].
      assert (finds (sp_events sp) id x ∧ finds (sp_events sp) id e) as [F1 F2] by (unfold finds; naive_solver).
      apply (find_spec _ _ _ Hnd) in F1, F2. congruence.
    + rewrite Hid. unfold finds. split; [|naive_solver]. intros [Hin Hide]. split_and!; [|done|done].
      destruct (decide (now - retention < EvTimestamp e)%Z); [done|]. exfalso. apply Hx. apply Exists_exists. by exists e.
Qed.

Lemma run_ops_represents s sp ops :
  represents s sp → NoDup (ops ≫= appended) → (∀ id, id ∈ ops ≫= appended → id ∉ EvID <$> sp_events sp) →
  run_ops run_op s ops = run_ops spec_op sp ops.
Proof.
  revert s sp. induction ops as [|op ops IH]; intros s sp Hr Hnd Hfresh; [done|]. cbn [run_ops].
  rewrite bind_cons, NoDup_app in Hnd. destruct Hnd as (Hnd1 & Hdis & Hnd2).
  assert (∀ id, id ∈ ops ≫= appended → id ∉ EvID <$> sp_events sp) as Hrest.
  { intros id Hid. apply Hfresh. rewrite bind_cons, elem_of_app. by right. }
  pose proof (rep_events _ _ Hr) as He. destruct op; cbn [run_op spec_op].
  - cbn [appended] in *. destruct (append_represents s sp evs Hr Hnd1) as (Hr' & Hsp & Hids).
    { intros id Hid. apply Hfresh. rewrite bind_cons, elem_of_app. by left. }
    cbn. unfold MemoryEventStore.Append_. destruct (MemoryEventStore.append evs s) as [evs' s']. cbn in Hr', Hsp, Hids.
    rewrite Hsp, drop_app_length. f_equal. apply IH; [done|done|]. intros id Hid. rewrite Hsp, fmap_app, elem_of_app.
    intros [Hin|Hin]; [by apply (Hrest id)|]. rewrite Hids in Hin. by apply (Hdis id).
  - f_equal. apply IH; [by apply GC_represents|done|]. intros id Hid Hin. apply (Hrest id Hid).
    cbn in Hin. apply list_elem_of_fmap in Hin as (e & -> & Hin). apply list_elem_of_filter in Hin as [_ Hin].
    rewrite list_elem_of_fmap. by exists e.
  - rewrite read_Stream, He. f_equal. by apply IH.
  - cbn. f_equal; [|by apply IH]. f_equal. apply option_eq. intros e. rewrite find_spec by apply Hr. apply Hr.
  - cbn. unfold MemoryEventStore.Range_. rewrite He. f_equal. by apply IH.
  - rewrite read_Seek, He. f_equal. by apply IH.
  - cbn. unfold MemoryEventStore.Length_. rewrite He. f_equal. by apply IH.
Qed.

(** C24: over any session that appends every identifier once, the log in memory
    answers like a list of events in order of arrival: events without a clock get
    the next one, all get their hash, and collecting drops those at or before the
    cutoff from every later answer. *)
Theorem event_log_refines ops :
  NoDup (ops ≫= appended) → run_ops run_op MemoryEventStore.New ops = run_ops spec_op (MkSpec [] 0) ops.
Proof.
  intros Hnd. apply run_ops_represents; [|done|intros id _; apply not_elem_of_nil].
  split; [done|done|constructor|]. intros id e. unfold finds. cbn. split; [done|]. intros [Hin _]. by apply not_elem_of_nil in Hin.
Qed.
End refinement.

(** ** The interface replays are proved against *)
Class EventLogLaws (S : Type) `{Sha256Hex} `{EventLog S} := {
  log_events : S → list Event;
  stream_events f s : read_all (Stream f s) = filter (λ e, Matches f e = true) (log_events s);
  append_events evs s evs' s' : Append evs s = (Ok (), evs', s') → log_events s' = log_events s ++ evs';
  append_same evs s evs' s' :
    Forall (λ e, EvClock e ≠ 0%Z ∧ Seal e = e) evs → Append evs s = (Ok (), evs', s') → evs' = evs
}.

Section laws.
Context `{Sha256Hex}.

Lemma append_log evs s :
  MemoryEventStore.events (MemoryEventStore.append evs s).2 = MemoryEventStore.events s ++ (MemoryEventStore.append evs s).1.
Proof.
  revert s. induction evs as [|ev evs IH]; intros s; [by cbn; rewrite app_nil_r|]. cbn [MemoryEventStore.append].
  destruct (MemoryEventStore.append_one ev s) as [ev' s'] eqn:E. specialize (IH s').
  destruct (MemoryEventStore.append evs s') as [evs' s'']. cbn in *. rewrite IH. unfold MemoryEventStore.append_one in E.
  injection E as <- <-. cbn. by rewrite <-(assoc_L (++)).
Qed.

Lemma append_sealed evs s : Forall (λ e, EvClock e ≠ 0%Z ∧ Seal e = e) evs → (MemoryEventStore.append evs s).1 = evs.
Proof.
  intros Hs. revert s. induction Hs as [|ev evs [Hc Hev] _ IH]; intros s; [done|]. cbn [MemoryEventStore.append].
  unfold MemoryEventStore.append_one. rewrite !decide_False by done. rewrite Hev.
  match goal with |- context [MemoryEventStore.append evs ?s'] => specialize (IH s'); destruct (MemoryEventStore.append evs s') end.
  cbn in *. by rewrite IH.
Qed.

#[global, refine] Instance memory_log_laws : EventLogLaws MemoryEventStore.t := {
  log_events := MemoryEventStore.events
}.
Proof.
  - apply read_Stream.
  - intros evs s evs' s'. cbn. unfold MemoryEventStore.Append_. pose proof (append_log evs s) as Hl.
    destruct (MemoryEventStore.append evs s). by intros [= <- <-].
  - intros evs s evs' s' Hs. cbn. unfold MemoryEventStore.Append_. pose proof (append_sealed evs s Hs) as Hl.
    destruct (MemoryEventStore.append evs s). by intros [= <- _].
Defined.
End laws.

(** ** Clocks

    A recorder is used by several goroutines: one takes a value of the clock for its
    event, and appends the event later.  [pending] are the events in between. *)
Record rec_state := MkRecState { rs_recorder : EventRecorder; rs_pending : list Event; rs_store : MemoryEventStore.t }.

Definition keeps_clock (f : Event → Event) : Prop := ∀ e, EvClock (f e) = EvClock e.

Section clocks.
Context `{Sha256Hex}.

Inductive rec_step : rec_state → rec_state → Prop :=
| take_clock typ now f r p s :
    keeps_clock f →
    rec_step (MkRecState r p s)
      (MkRecState (new_event typ now f r).2 ((new_event typ now f r).1 :: p) s)
| append_event r p1 ev p2 s :
    rec_step (MkRecState r (p1 ++ ev :: p2) s) (MkRecState r (p1 ++ p2) (Append [ev] s).2).

Definition all_clocks (st : rec_state) : list Z :=
  EvClock <$> MemoryEventStore.events (rs_store st) ++ rs_pending st.

Lemma new_event_clock typ now f r : keeps_clock f → EvClock (new_event typ now f r).1 = Tick (rec_clock r).
Proof. intros Hf. exact (Hf (with_thread (rec_threadID r) (with_trace (rec_traceID r) (NewEvent typ (Tick (rec_clock r)) now)))). Qed.

Lemma append_one_clock ev s :
  EvClock ev ≠ 0%Z →
  EvClock <$> MemoryEventStore.events (Append [ev] s).2 = (EvClock <$> MemoryEventStore.events s) ++ [EvClock ev].
Proof.
  intros Hc. cbn. unfold MemoryEventStore.Append_. cbn [MemoryEventStore.append]. unfold MemoryEventStore.append_one.
  rewrite !decide_False by done. cbn. by rewrite fmap_app.
Qed.

Definition clocked (n : Z) (st : rec_state) : Prop :=
  (0 ≤ rec_clock (rs_recorder st) ≤ n)%Z ∧ all_clocks st ≡ₚ seqZ 1 (rec_clock (rs_recorder st)).

Lemma rec_step_clocked n st st' : (0 ≤ n < 2 ^ 64 - 1)%Z → clocked n st → rec_step st st' → clocked (n + 1) st'.
Proof.
  intros Hn [Hc Hp] Hstep. unfold clocked, all_clocks in *. destruct Hstep as [typ now f r p s Hf|r p1 ev p2 s];
    cbn [rs_recorder rs_pending rs_store] in *.
  - assert (Tick (rec_clock r) = rec_clock r + 1)%Z as Ht by (unfold Tick, uint64_add; rewrite Z.mod_small; lia).
    change (rec_clock (new_event typ now f r).2) with (Tick (rec_clock r)).
    rewrite fmap_app, fmap_cons, new_event_clock, Ht by done. split; [lia|].
    rewrite seqZ_app by lia. change (seqZ (1 + rec_clock r) 1) with [0 + (1 + rec_clock r)]%Z.
    rewrite <-Hp, fmap_app. replace (0 + (1 + rec_clock r))%Z with (rec_clock r + 1)%Z by lia.
    by rewrite <-Permutation_middle, Permutation_cons_append.
  - split; [lia|]. rewrite fmap_app, append_one_clock.
    + rewrite <-Hp, <-(assoc_L (++)). rewrite !fmap_app, fmap_cons. cbn. by rewrite Permutation_middle.
    + assert (EvClock ev ∈ seqZ 1 (rec_clock r)) as Hin; [|apply elem_of_seqZ in Hin; lia].
      rewrite <-Hp, fmap_app, fmap_app, fmap_cons, !elem_of_app, elem_of_cons. tauto.
Qed.

(** In every interleaving of goroutines that record through one recorder, the
    events that are logged or still on their way have the clocks 1, 2, ... each
    exactly once, as long as fewer than 2^64 steps are taken. *)
Theorem recorder_clocks traceID threadID k st :
  (Z.of_nat k < 2 ^ 64)%Z →
  nsteps rec_step k (MkRecState (NewEventRecorder traceID threadID) [] MemoryEventStore.New) st →
  all_clocks st ≡ₚ seqZ 1 (rec_clock (rs_recorder st)).
Proof.
  intros Hk Hs. enough (clocked (Z.of_nat k) st) by (by destruct H0).
  revert st Hs. induction k as [|k IH]; intros st Hs; [inversion Hs; subst; split; [cbn; lia|done]|].
  apply nsteps_inv_r in Hs as (st' & Hs & Hstep). replace (Z.of_nat (S k)) with (Z.of_nat k + 1)%Z by lia.
  eapply rec_step_clocked; [lia|apply IH; [lia|done]|done].
Qed.

(** *** One goroutine *)
Lemma seqZ_increasing m n : StronglySorted Z.lt (seqZ m n).
Proof.
  unfold seqZ. generalize (Z.to_nat n) as k. intros k. generalize 0 as i. induction k as [|k IH]; intros i; [constructor|].
  cbn. constructor; [apply IH|]. rewrite Forall_fmap, Forall_seq. cbn. lia.
Qed.

Lemma sorted_filter (R : Z → Z → Prop) (P : Event → Prop) `{∀ e, Decision (P e)} l :
  StronglySorted R (EvClock <$> l) → StronglySorted R (EvClock <$> filter P l).
Proof.
  induction l as [|e l IH]; [done|]. rewrite fmap_cons, filter_cons. intros [Hs Hf]%StronglySorted_inv.
  case_decide; [|by apply IH]. rewrite fmap_cons. constructor; [by apply IH|]. rewrite Forall_fmap, Forall_forall in Hf |- *.
  intros x [_ Hx]%list_elem_of_filter. by apply Hf.
Qed.

Lemma filter_all (P : Event → Prop) `{∀ e, Decision (P e)} l : Forall P l → filter P l = l.
Proof. induction 1 as [|e l He _ IH]; [done|]. by rewrite filter_cons, decide_True, IH. Qed.

Definition record_all (evs : list (EventType * moment2 * (Event → Event))) (rs : EventRecorder * MemoryEventStore.t)
  : EventRecorder * MemoryEventStore.t :=
  foldl (λ rs e, record e.1.1 e.1.2 e.2 rs) rs evs.

(** A recorder used by one goroutine logs its events in the order of their
    clocks, which are 1, 2, ...; every stream of the log is then in this order. *)
Theorem sequential_clocks traceID threadID evs :
  Forall (λ e, keeps_clock e.2) evs → (Z.of_nat (length evs) < 2 ^ 64)%Z →
  let s := (record_all evs (NewEventRecorder traceID threadID, MemoryEventStore.New)).2 in
  EvClock <$> MemoryEventStore.events s = seqZ 1 (Z.of_nat (length evs)) ∧
  ∀ f, StronglySorted Z.lt (EvClock <$> read_all (Stream f s)).
Proof.
  intros Hk Hn. cbn zeta. set (rs := record_all evs _).
  enough (rec_clock rs.1 = Z.of_nat (length evs) ∧
          EvClock <$> MemoryEventStore.events rs.2 = seqZ 1 (Z.of_nat (length evs))) as [_ Hc].
  { split; [done|]. intros f. rewrite read_Stream.
    apply sorted_filter. rewrite Hc. apply seqZ_increasing. }
  unfold rs, record_all. clear rs. induction evs as [|[[typ now] f] evs IH] using rev_ind; [done|].
  apply Forall_app in Hk as [Hk Hf]. apply Forall_inv in Hf. cbn in Hf. rewrite length_app in Hn |- *. cbn [length] in *.
  destruct IH as [IH1 IH2]; [done|lia|]. rewrite foldl_snoc. cbn [fst snd]. set (rs := foldl _ _ _) in *. clearbody rs.
  assert (Tick (rec_clock rs.1) = Z.of_nat (length evs + 1)) as Ht
    by (rewrite IH1; unfold Tick, uint64_add; rewrite Z.mod_small; lia).
  unfold record. pose proof (new_event_clock typ now f rs.1 Hf) as He.
  assert (rec_clock (new_event typ now f rs.1).2 = Tick (rec_clock rs.1)) as Hr by done.
  destruct (new_event typ now f rs.1) as [ev r]. cbn [fst snd] in *. split; [by rewrite Hr|].
  rewrite append_one_clock by (rewrite He, Ht; lia). rewrite He, IH2, Ht. rewrite Nat2Z.inj_add, seqZ_app by lia. f_equal.
  rewrite seqZ_cons by lia. cbn. f_equal. lia.
Qed.

(** *** Seeking *)
Lemma find_first_clock c l :
  StronglySorted Z.le (EvClock <$> l) → Exists (λ e, (c ≤ EvClock e)%Z) l →
  drop (seek_pos c l) l = filter (λ e, (c ≤ EvClock e)%Z) l.
Proof.
  unfold seek_pos. induction l as [|e l IH]; [by intros _ ?%Exists_nil|]. rewrite fmap_cons.
  intros [Hs Hf]%StronglySorted_inv Hex. cbn [list_find]. rewrite filter_cons. destruct (decide (c ≤ EvClock e)%Z) as [He|He].
  - cbn. f_equal. symmetry. apply filter_all. rewrite Forall_fmap in Hf. eapply Forall_impl; [exact Hf|]. cbn. lia.
  - apply Exists_cons in Hex as [?|Hex]; [lia|]. rewrite <-IH by done.
    destruct (list_find _ l) as [[i x]|] eqn:E; [done|]. apply list_find_None in E. exfalso.
    rewrite Forall_forall in E. apply Exists_exists in Hex as (x & Hx & Hc). by apply (E x).
Qed.

(** Seeking a log in clock order gives the events from that clock on, if there
    is one; a clock after all events gives the whole log again. *)
Theorem Seek_spec c (s : MemoryEventStore.t) :
  StronglySorted Z.le (EvClock <$> MemoryEventStore.events s) →
  read_all (Seek c s) =
  if decide (Exists (λ e, (c ≤ EvClock e)%Z) (MemoryEventStore.events s))
  then filter (λ e, (c ≤ EvClock e)%Z) (MemoryEventStore.events s) else MemoryEventStore.events s.
Proof.
  intros Hs. rewrite read_Seek. case_decide as Hex; [by apply find_first_clock|]. unfold seek_pos.
  replace (list_find _ _) with (@None (nat * Event)); [done|]. symmetry. apply list_find_None.
  by apply not_Exists_Forall in Hex; [|intros; apply _].
Qed.
End clocks.

(** ** Examples *)
#[local] Existing Instance plain_keys.

(** An event of a trace at a clock, with a payload. *)
Definition at_clock (id typ : string) (c time : Z) (payload : option string) : Event :=
  MkEvent id typ time c "t" "" [] "" 0 "" "" payload (Some ∅) false "".

Definition session : list log_op :=
  [OAppend [at_clock "a" EventGraphStart 0 10 None; at_clock "b" EventRetry 7 20 None];
   OAppend [at_clock "c" EventGraphEnd 0 90 (Some "{}")]; OLength; OSeek 2; OGet "b"; OGC 100 50; OGet "a";
   OStream no_filter].

Lemma event_log_refines_witness :
  NoDup (session ≫= appended) ∧
  run_ops run_op MemoryEventStore.New session = run_ops spec_op (MkSpec [] 0) session.
Proof.
  assert (NoDup (session ≫= appended)) as Hnd by (apply (bool_decide_unpack _); vm_compute; exact I).
  split; [exact Hnd|]. apply event_log_refines. exact Hnd.
Defined.

(** Two goroutines: the first to take a clock is the last to append. *)
Definition racing : rec_state :=
  let r0 := NewEventRecorder "t" "" in
  let '(e1, r1) := new_event EventRetry (0, 0)%Z id r0 in
  let '(e2, r2) := new_event EventError (0, 0)%Z id r1 in
  MkRecState r2 [] (Append [e1] (Append [e2] MemoryEventStore.New).2).2.

Lemma racing_reached : nsteps rec_step 4 (MkRecState (NewEventRecorder "t" "") [] MemoryEventStore.New) racing.
Proof.
  assert (keeps_clock id) as Hid by (intros e; reflexivity).
  eapply nsteps_l; [apply (take_clock EventRetry (0, 0)%Z id _ _ _ Hid)|].
  eapply nsteps_l; [apply (take_clock EventError (0, 0)%Z id _ _ _ Hid)|].
  eapply nsteps_l; [apply (append_event _ [] _ _)|]. cbn [app].
  eapply nsteps_l; [apply (append_event _ [] _ [])|]. apply nsteps_O.
Defined.

Lemma recorder_clocks_witness :
  nsteps rec_step 4 (MkRecState (NewEventRecorder "t" "") [] MemoryEventStore.New) racing ∧
  all_clocks racing ≡ₚ seqZ 1 2.
Proof. split; [exact racing_reached|]. refine (recorder_clocks "t" "" 4 racing _ racing_reached). lia. Defined.

(** A stream of the log is then not in the order of the clocks, which store.go promises. *)
Example stream_out_of_order :
  EvClock <$> read_all (Stream no_filter (rs_store racing)) = [2%Z; 1%Z].
Proof. vm_compute. reflexivity. Qed.

Lemma sequential_clocks_witness :
  let evs := [(EventGraphStart, (0, 0)%Z, with_meta "graph_name" (VStr "g")); (EventStepStart, (0, 0)%Z, with_step 1)] in
  EvClock <$> MemoryEventStore.events (record_all evs (NewEventRecorder "t" "", MemoryEventStore.New)).2 = seqZ 1 2.
Proof.
  intros evs. refine (proj1 (sequential_clocks "t" "" evs _ _)); [|reflexivity].
  repeat constructor.
Defined.

Definition logged (evs : list Event) : MemoryEventStore.t := (Append evs MemoryEventStore.New).2.
Definition two_events : MemoryEventStore.t :=
  logged [at_clock "a" EventGraphStart 1 10 None; at_clock "b" EventGraphEnd 5 20 None].

Lemma Seek_spec_witness :
  read_all (Seek 2 two_events) = filter (λ e, (2 ≤ EvClock e)%Z) (MemoryEventStore.events two_events) ∧
  read_all (Seek 9 two_events) = MemoryEventStore.events two_events.
Proof.
  assert (StronglySorted Z.le (EvClock <$> MemoryEventStore.events two_events)) as Hs
    by (vm_compute; repeat constructor; discriminate).
  split.
  - rewrite (Seek_spec 2 two_events Hs). rewrite decide_True; [reflexivity|]. apply (bool_decide_unpack _). vm_compute. exact I.
  - rewrite (Seek_spec 9 two_events Hs). rewrite decide_False; [reflexivity|]. apply (bool_decide_unpack _). vm_compute. exact I.
Defined.

(** The limit of a filter is not looked at. *)
Lemma limit_ignored f n e :
  Matches (MkFilter (flt_TraceID f) (flt_ThreadID f) (flt_Types f) (flt_Node f) (flt_FromClock f) (flt_ToClock f)
             (flt_FromTime f) (flt_ToTime f) n) e = Matches f e.
Proof. done. Qed.

(** Nor is the filter of a subscription, and a subscriber that does not keep up
    with 256 events loses the next ones. *)
Example subscription_unfiltered :
  let '(id, s) := MemoryEventStore.Subscribe (MkFilter "other" "" [] "" 0 0 None None 0) MemoryEventStore.New in
  EvTraceID <$> (MemoryEventStore.Receive id (Append [at_clock "a" EventRetry 1 0 None] s).2).1 = Some "t".
Proof. vm_compute. reflexivity. Qed.

Lemma slow_subscriber evs id s :
  (∀ b, MemoryEventStore.subs s !! id = Some b → length b ≤ 256) →
  ∀ b, MemoryEventStore.subs (Append evs s).2 !! id = Some b → length b ≤ 256.
Proof.
  cbn. unfold MemoryEventStore.Append_. revert s. induction evs as [|ev evs IH]; intros s Hs; [done|].
  cbn [MemoryEventStore.append]. destruct (MemoryEventStore.append_one ev s) as [ev' s'] eqn:E. specialize (IH s').
  destruct (MemoryEventStore.append evs s') as [evs' s'']. cbn in *. apply IH. unfold MemoryEventStore.append_one in E.
  injection E as <- <-. cbn [MemoryEventStore.subs]. intros b. rewrite lookup_fmap, fmap_Some. intros (b' & Hb' & ->).
  specialize (Hs b' Hb'). unfold MemoryEventStore.dispatch.
  destruct (decide (length b' < 256)); [rewrite length_app; cbn; lia|done].
Qed.

(** Collecting an old event takes a newer event with its identifier out of the map. *)
Example collected_twice :
  let s := MemoryEventStore.GC 100 50 (logged [at_clock "a" EventRetry 1 10 None; at_clock "a" EventRetry 2 90 None]) in
  EvClock <$> MemoryEventStore.events s = [2%Z] ∧ GetEvent "a" s = None.
Proof. vm_compute. split; reflexivity. Qed.

(** No event is ever marked as deterministic. *)
Lemma never_deterministic typ now f r :
  (∀ e, EvDeterministic e = false → EvDeterministic (f e) = false) → EvDeterministic (new_event typ now f r).1 = false.
Proof. intros Hf. apply Hf. done. Qed.
