(* ===== verification/Replay.v ===== *)
(** * Replaying, comparing and forking recorded runs (harness/replay)

    A replay copies the events of a trace and puts other answers of models and
    tools into them (replay.go); Diff compares two traces by their clocks
    (diff.go); a fork rebuilds a checkpoint from the events before a point
    (checkpoint.go) and starts the graph engine again (fork.go).  Logs are used
    through their interface; the overrides, which do not change the values they are
    asked about, the engine of a fork and the checkpointer the caller gives to it are
    arguments. *)
From Stdlib Require Import Ascii.
From S2P Require Import Prelude Values Errors Types Json JsonText JsonLaw Cache Memory Writes.
From S2P Require Export Events.

(** A nil answer is [None]. *)
Definition ModelOverrideFunc : Type := list val → string → res (option string).
(** The result nil keeps what was recorded. *)
Definition ToolOverrideFunc : Type := string → gmap string val → val → res val.
Definition StateOverrideFunc : Type := gmap string val → res (option (gmap string val)).

(** ** Common overrides (injector.go) *)
Definition ReplayExactTools : ToolOverrideFunc := λ _ _ recorded, Ok recorded.
Definition ReplayLiveTools : ToolOverrideFunc := λ _ _ _, Ok VNil.
Definition ReplaySubstituteModel (fn : string → string) : ModelOverrideFunc := λ _ recorded, Ok (Some (fn recorded)).

(** A copy that shares nothing with the event is the same value. *)
Definition copyEvent (e : Event) : Event := e.

Definition FindEventsOfType (evts : list Event) (typ : EventType) : list Event := filter (λ e, EvType e = typ) evts.
Definition EventsContains (evts : list Event) (typ : EventType) : bool := existsb (λ e, bool_decide (EvType e = typ)) evts.
Definition EventCount (evts : list Event) (typ : EventType) : Z := Z.of_nat (length (FindEventsOfType evts typ)).

(** ** Replaying (replay.go) *)
Record ReplayConfig (S : Type) := MkReplayConfig {
  cfg_Store : option S; cfg_TraceID : string; cfg_Start : Z; cfg_End : Z;
  cfg_ModelOverride : option ModelOverrideFunc; cfg_ToolOverride : option ToolOverrideFunc;
  cfg_StateOverride : option StateOverrideFunc; cfg_DiffEnabled : bool
}.
Arguments MkReplayConfig {S}. Arguments cfg_Store {S}. Arguments cfg_TraceID {S}. Arguments cfg_Start {S}.
Arguments cfg_End {S}. Arguments cfg_ModelOverride {S}. Arguments cfg_ToolOverride {S}.
Arguments cfg_StateOverride {S}. Arguments cfg_DiffEnabled {S}.

Inductive DivergenceType := DivergenceMissing | DivergenceExtra | DivergenceMismatch.

Record EventDivergence := MkDivergence {
  div_Clock : Z; div_OriginalEvent : option Event; div_ReplayEvent : option Event;
  div_Type : DivergenceType; div_Description : string
}.

Record ReplayMetrics := MkMetrics { TotalEvents : Z; DivergenceCount : Z; MatchCount : Z }.

Record ReplayResult := MkReplayResult {
  res_Events : list Event; res_OriginalLen : Z; res_ReplayLen : Z; res_Divergences : list EventDivergence;
  res_Metrics : ReplayMetrics
}.

(** [parsePayload], with what fitted when it fails. *)
Definition parsePayload {A} (fields : list (string * string) → A → A * bool) (ev : Event) (zero : A) : A * bool :=
  match EvPayload ev with None => (zero, true) | Some t => read_struct fields t zero end.

Section replay.
Context `{Sha256Hex}.

(** The loop that changes the first state transition. *)
Fixpoint override_state (f : StateOverrideFunc) (evs : list Event) : res (list Event) :=
  (match evs with
   | [] => Ok []
   | ev :: evs' =>
       if decide (EvType ev = EventStateWrite) then
         let st := (parsePayload state_fields ev no_state_transition).1 in
         let! modified := f {[st_Channel st := st_NewValue st]} in
         Ok (match modified ≫= (λ m, m !! st_Channel st) with
             | Some v => Seal (with_payload (write_struct (state_members
                           (MkStateTransition (st_Channel st) (st_OldValue st) v (st_Reducer st)))) ev) :: evs'
             | None => evs
             end)
       else let! rest := override_state f evs' in Ok (ev :: rest)
   end)%go.

Definition with_content (c : string) (p : LLMCallPayload) : LLMCallPayload :=
  MkLLMCall (llm_Model p) (llm_Provider p) (llm_Messages p) (llm_Tokens p) c (llm_Chunks p) (llm_DurationMs p) (llm_Cost p).
Definition with_result (r : val) (p : ToolCallPayload) : ToolCallPayload :=
  MkToolCall (tool_ToolName p) (tool_Arguments p) r (tool_DurationMs p) (tool_Error p) (tool_RetryCount p).

Definition default_model : ModelOverrideFunc := λ _ recorded, Ok (Some recorded).
Definition default_tool : ToolOverrideFunc := λ _ _ recorded, Ok recorded.

(** One event of the replay; an answer that cannot be marshalled leaves no payload. *)
Definition replay_event (modelOverride : ModelOverrideFunc) (toolOverride : ToolOverrideFunc) (original : Event) : res Event :=
  (let replayEv := copyEvent original in
   if decide (EvType original = EventLLMCallEnd) then
     let p := (parsePayload llm_fields original no_llm_call).1 in
     let! substituted := modelOverride (llm_Messages p) (llm_Content p) in
     Ok (match substituted with
         | Some c => Seal (with_payload (write_struct (llm_members (with_content c p))) replayEv)
         | None => replayEv
         end)
   else if decide (EvType original = EventToolCallResult) then
     let p := (parsePayload tool_fields original no_tool_call).1 in
     let! substituted := toolOverride (tool_ToolName p) (tool_Arguments p) (tool_Result p) in
     Ok (match substituted with
         | VNil => replayEv
         | r => Seal (with_payload (write_struct (tool_members (with_result r p))) replayEv)
         end)
   else Ok replayEv)%go.

Fixpoint replay_events (modelOverride : ModelOverrideFunc) (toolOverride : ToolOverrideFunc) (originals : list Event)
  : res (list Event) :=
  (match originals with
   | [] => Ok []
   | ev :: evs =>
       let! r := replay_event modelOverride toolOverride ev in
       let! rs := replay_events modelOverride toolOverride evs in
       Ok (r :: rs)
   end)%go.

Definition mismatch (orig replay : Event) (what : string) : EventDivergence :=
  MkDivergence (EvClock orig) (Some orig) (Some replay) DivergenceMismatch what.

(** What the loop of [diffEventLists] finds at an index both lists have. *)
Definition compare_events (orig replay : Event) : list EventDivergence :=
  (if decide (EvType orig ≠ EvType replay) then [mismatch orig replay "event type mismatch"] else []) ++
  (if decide (EvHash orig ≠ EvHash replay) then [mismatch orig replay "payload mismatch (hash differs)"] else []).

Fixpoint diffEventLists (original replayed : list Event) : list EventDivergence :=
  match original, replayed with
  | [], _ => (λ r, MkDivergence (EvClock r) None (Some r) DivergenceExtra "replay produced extra event") <$> replayed
  | o :: os, [] => MkDivergence (EvClock o) (Some o) None DivergenceMissing "original event missing in replay" :: diffEventLists os []
  | o :: os, r :: rs => compare_events o r ++ diffEventLists os rs
  end.

(** [Replay] with the log of the engine and the output log, if there is one. *)
Definition Replay {S O} `{EventLog S, EventLog O} (engine_store : S) (cfg : ReplayConfig S) (output : option O)
  : res ReplayResult * option O :=
  let modelOverride := default default_model (cfg_ModelOverride cfg) in
  let toolOverride := default default_tool (cfg_ToolOverride cfg) in
  let store := default engine_store (cfg_Store cfg) in
  let filter := MkFilter (cfg_TraceID cfg) "" [] "" (cfg_Start cfg) (cfg_End cfg) None None 0 in
  let originalEvents := read_all (Stream filter store) in
  match (match cfg_StateOverride cfg with Some f => override_state f originalEvents | None => Ok originalEvents end) with
  | Err err => (Err err, output)
  | Ok originals =>
      match replay_events modelOverride toolOverride originals with
      | Err err => (Err err, output)
      | Ok replayEvents =>
          let divergences := if cfg_DiffEnabled cfg then diffEventLists originals replayEvents else [] in
          let n := Z.of_nat (length replayEvents) in
          let metrics := MkMetrics n (Z.of_nat (length divergences)) (n - Z.of_nat (length divergences)) in
          let result evs := MkReplayResult evs (Z.of_nat (length originalEvents)) n divergences metrics in
          match output with
          | None => (Ok (result []), None)
          | Some o =>
              match Append replayEvents o with
              | (Err err, _, o) => (Err err, Some o)
              | (Ok _, evs, o) => (Ok (result evs), Some o)
              end
          end
      end
  end.

(** ** Comparing (diff.go) *)
Record EventMismatch := MkMismatch {
  mis_Clock : Z; mis_LeftEvent : Event; mis_RightEvent : Event; mis_Field : string; mis_LeftValue : string; mis_RightValue : string
}.
(** The values of a [StateDiff] and the results of a [ToolCallDiff] are never set. *)
Record StateDiff := MkStateDiff { sd_Clock : Z; sd_Key : string }.
Record ToolCallDiff := MkToolCallDiff { tcd_Index : Z; tcd_ToolName : string }.
Record LLMResponseDiff := MkLLMResponseDiff { lrd_Index : Z; lrd_LeftContent : string; lrd_RightContent : string }.

Record DiffResult := MkDiff {
  diff_MissingInRight : list Event; diff_MissingInLeft : list Event; diff_Mismatched : list EventMismatch;
  diff_StateDiff : gmap string StateDiff; diff_ToolCallDiff : list ToolCallDiff; diff_LLMResponseDiff : list LLMResponseDiff
}.
Definition no_diff : DiffResult := MkDiff [] [] [] ∅ [] [].

Definition readAllEvents {S} `{EventLog S} (store : S) (traceID : string) : list Event :=
  read_all (Stream (MkFilter traceID "" [] "" 0 0 None None 0) store).

Definition extractContent (ev : Event) : string :=
  let '(p, ok) := parsePayload llm_fields ev no_llm_call in if ok : bool then llm_Content p else "".
Definition extractToolName (ev : Event) : string :=
  let '(p, ok) := parsePayload tool_fields ev no_tool_call in if ok : bool then tool_ToolName p else "".

(** Later events of a clock replace earlier ones. *)
Definition by_clock (evs : list Event) : gmap Z Event := foldl (λ m e, <[EvClock e := e]> m) ∅ evs.

(** [hash[:16]] panics on a shorter hash. *)
Definition prefix16 (h : string) : option string := if decide (16 ≤ String.length h) then Some (str_take 16 h) else None.

(** The events of one clock in both traces. *)
Definition both_exist (clock : Z) (l r : Event) (d : DiffResult) : option DiffResult :=
  let types := if decide (EvType l ≠ EvType r) then [MkMismatch clock l r "type" (EvType l) (EvType r)] else [] in
  payloads ← (if decide (EvHash l ≠ EvHash r) then
                lh ← prefix16 (EvHash l); rh ← prefix16 (EvHash r); Some [MkMismatch clock l r "payload" lh rh]
              else Some []);
  let d := MkDiff (diff_MissingInRight d) (diff_MissingInLeft d) (diff_Mismatched d ++ types ++ payloads)
             (diff_StateDiff d) (diff_ToolCallDiff d) (diff_LLMResponseDiff d) in
  Some (if decide (EvType l = EventLLMCallEnd) then
          MkDiff (diff_MissingInRight d) (diff_MissingInLeft d) (diff_Mismatched d) (diff_StateDiff d) (diff_ToolCallDiff d)
            (diff_LLMResponseDiff d ++
               [MkLLMResponseDiff (Z.of_nat (length (diff_LLMResponseDiff d))) (extractContent l) (extractContent r)])
        else if decide (EvType l = EventToolCallResult) then
          MkDiff (diff_MissingInRight d) (diff_MissingInLeft d) (diff_Mismatched d) (diff_StateDiff d)
            (diff_ToolCallDiff d ++ [MkToolCallDiff (Z.of_nat (length (diff_ToolCallDiff d))) (extractToolName l)])
            (diff_LLMResponseDiff d)
        else if decide (EvType l = EventStateWrite ∧ EvNode l ≠ "") then
          MkDiff (diff_MissingInRight d) (diff_MissingInLeft d) (diff_Mismatched d)
            (<[EvNode l := MkStateDiff clock (EvNode l)]> (diff_StateDiff d)) (diff_ToolCallDiff d) (diff_LLMResponseDiff d)
        else d).

Definition diff_clock (leftByClock rightByClock : gmap Z Event) (d : option DiffResult) (clock : Z) : option DiffResult :=
  d ← d;
  match leftByClock !! clock, rightByClock !! clock with
  | Some l, None => Some (MkDiff (diff_MissingInRight d ++ [l]) (diff_MissingInLeft d) (diff_Mismatched d)
                            (diff_StateDiff d) (diff_ToolCallDiff d) (diff_LLMResponseDiff d))
  | None, Some r => Some (MkDiff (diff_MissingInRight d) (diff_MissingInLeft d ++ [r]) (diff_Mismatched d)
                            (diff_StateDiff d) (diff_ToolCallDiff d) (diff_LLMResponseDiff d))
  | Some l, Some r => both_exist clock l r d
  | None, None => Some d
  end.

(** [order] is the order of the loop over the clocks; [None] is a panic. *)
Definition Diff {L R} `{EventLog L, EventLog R} (order : gset Z → list Z) (left : L) (right : R)
    (leftTraceID rightTraceID : string) : option DiffResult :=
  let leftEvents := readAllEvents left leftTraceID in
  let rightEvents := readAllEvents right rightTraceID in
  let allClocks := list_to_set (EvClock <$> leftEvents ++ rightEvents) in
  foldl (diff_clock (by_clock leftEvents) (by_clock rightEvents)) (Some no_diff) (order allClocks).

(** ** Checkpoints from events (checkpoint.go) *)
Definition pregel_id_key : string := "__pregel_checkpoint_id".

(** What the loop of [BuildCheckpoint] keeps. *)
Record building := MkBuilding { b_cp : gmap string val; b_completed : list string; b_last : string; b_step : Z }.

Definition build_event (b : building) (ev : Event) : building :=
  if decide (EvType ev = EventStateWrite) then
    let st := (parsePayload state_fields ev no_state_transition).1 in
    if decide (st_Channel st = "") then b
    else MkBuilding (<[st_Channel st := st_NewValue st]> (b_cp b)) (b_completed b) (b_last b) (b_step b)
  else if decide (EvType ev = EventNodeEnd) then
    MkBuilding (b_cp b) (b_completed b ++ [EvNode ev]) (EvNode ev) (b_step b)
  else if decide (EvType ev = EventStepEnd) then
    MkBuilding (b_cp b) (b_completed b) (b_last b) (if (b_step b <? EvStep ev)%Z then EvStep ev else b_step b)
  else b.

(** The state as it is serialised: the map without its identifiers. *)
Definition last_state (cp : gmap string val) : gmap string val :=
  delete pregel_id_key (delete ConfigKeyCheckpointID (delete ConfigKeyThreadID cp)).

Definition BuildCheckpoint `{GoFloat} (originalEvents : list Event) (threadID : string) (now : Z) : gmap string val * string :=
  let checkpointID := "fork-cp-" +:+ threadID +:+ "-" +:+ pretty now in
  let cp := <[pregel_id_key := VStr checkpointID]> (<[ConfigKeyCheckpointID := VStr checkpointID]>
              {[ConfigKeyThreadID := VStr threadID]}) in
  let b := foldl build_event (MkBuilding cp [] "" 0) originalEvents in
  let cp := b_cp b in
  let cp := if decide (2 < size cp) then
              match marshal (VObj (last_state cp)) with
              | Some ls => <["__last_state__" := VStr ls]> cp
              | None => cp
              end
            else cp in
  let cp := if decide (b_completed b = []) then cp
            else <["__completed_tasks__" := VStr (join_with (String nul "") (b_completed b))]> cp in
  let cp := if decide (b_last b = "") then cp else <["__last_completed_node__" := VStr (b_last b)]> cp in
  (<["__step__" := VFloat (float_of_int (b_step b))]> cp, checkpointID).

(** ** Forks (fork.go) *)
Record ForkConfig (S W : Type) := MkForkConfig {
  fork_Store : option S; fork_TraceID : string; fork_Point : EventID;
  fork_Engine : option (W → res val * W);
  fork_Checkpointer : option (config → payload → W → res W)
}.
#[global] Arguments MkForkConfig {S W}.
#[global] Arguments fork_Store {S W}.
#[global] Arguments fork_TraceID {S W}.
#[global] Arguments fork_Point {S W}.
#[global] Arguments fork_Engine {S W}.
#[global] Arguments fork_Checkpointer {S W}.

Record ForkResult := MkForkResult {
  frk_TraceID : string; frk_Events : list Event; frk_ParentTraceID : string; frk_Point : EventID; frk_FinalState : val
}.

(** The times at which a fork looks at the clock: its marker, its checkpoint and its end. *)
Record fork_times := MkForkTimes { ft_marker : moment2; ft_checkpoint : Z; ft_end : moment2 }.

Definition fork_trace (traceID : string) (point : EventID) : string := traceID +:+ "_fork_" +:+ point.

Definition forkMarker (traceID : string) (point : EventID) (now : moment2) : Event :=
  Seal (with_meta "parent_trace" (VStr traceID)
    (with_parent point [point] (with_trace (fork_trace traceID point) (NewEvent EventFork 0 now)))).

Definition fork_end (traceID : string) (point : EventID) (now : moment2) : Event :=
  Seal (with_meta "fork_replay" (VBool true) (with_trace (fork_trace traceID point) (NewEvent EventGraphEnd 0 now))).

Section fork.
Context `{GoFloat} {S O W : Type} `{EventLog S, EventLog O}.

(** The engine runs with its own configuration; without a checkpointer of the
    caller the checkpoint goes into a saver nobody else has.  [W] is what the engine
    and the checkpointer of the caller reach. *)
Definition resumeFromCheckpoint (cfg : ForkConfig S W) (run : W → res val * W) (preForkEvents : list Event)
    (times : fork_times) (output : option O) (w : W) : res val * option O * W :=
  let threadID := if decide (fork_TraceID cfg = "") then "fork-" +:+ fork_Point cfg else fork_TraceID cfg in
  let '(cp, cpID) := BuildCheckpoint preForkEvents threadID (ft_checkpoint times) in
  let put_cfg : config := <[ConfigKeyCheckpointID := VStr cpID]> {[ConfigKeyThreadID := VStr threadID]} in
  match (match fork_Checkpointer cfg with Some put => put put_cfg cp w | None => Ok w end) with
  | Err err => (Err (Wrapf "save fork checkpoint" err), output, w)
  | Ok w =>
      match run w with
      | (Err err, w) => (Err err, output, w)
      | (Ok finalState, w) =>
          (Ok finalState,
           (λ o, (Append [fork_end (fork_TraceID cfg) (fork_Point cfg) (ft_end times)] o).2) <$> output, w)
      end
  end.

Definition Fork (engine_store : S) (cfg : ForkConfig S W) (times : fork_times) (output : option O) (w : W)
  : res ForkResult * option O * W :=
  let store := default engine_store (fork_Store cfg) in
  match GetEvent (fork_Point cfg) store with
  | None => (Err (Errorf ("event not found: " +:+ fork_Point cfg)), output, w)
  | Some forkEvent =>
      let filter := MkFilter (fork_TraceID cfg) "" [] "" 0 (uint64_add (EvClock forkEvent) (-1)) None None 0 in
      let preForkEvents := read_all (Stream filter store) in
      let marker := forkMarker (fork_TraceID cfg) (fork_Point cfg) (ft_marker times) in
      let forkEvents := preForkEvents ++ [marker] in
      let result evs final := MkForkResult (fork_trace (fork_TraceID cfg) (fork_Point cfg)) evs (fork_TraceID cfg)
                                (fork_Point cfg) final in
      match (match output with
             | None => (Ok (), forkEvents, None)
             | Some o => let '(r, evs, o) := Append forkEvents o in (r, evs, Some o)
             end) with
      | (Err err, _, output) => (Err err, output, w)
      | (Ok _, evs, output) =>
          match fork_Engine cfg with
          | None => (Ok (result evs VNil), output, w)
          | Some run =>
              match resumeFromCheckpoint cfg run preForkEvents times output w with
              | (Err err, output, w) => (Err (Wrapf "fork resume" err), output, w)
              | (Ok final, output, w) => (Ok (result evs final), output, w)
              end
          end
      end
  end.
End fork.
End replay.
