(* ===== verification/ReplayProps.v ===== *)
(** * What replays, comparisons and forks guarantee

    Payloads come back from their texts, so a replay without overrides finds no
    divergence; the divergences of other replays and of comparisons are the events
    whose hash changed; the checkpoint of a fork restores in the graph engine.
    Examples show what a fork loses on its way to the engine. *)
From Stdlib Require Import Ascii.
From S2P Require Import Prelude Values Errors Types Json JsonText JsonLaw Cache Memory Writes.
From S2P Require Import Engine ReadProps ResumeProps.
From S2P Require Export Replay EventsProps.

(** ** Payloads come back *)
Record tool_ok (p : ToolCallPayload) : Prop := {
  tok_name : valid (tool_ToolName p); tok_args : storable (VObj (tool_Arguments p)); tok_result : storable (tool_Result p);
  tok_duration : in_int64 (tool_DurationMs p); tok_error : valid (tool_Error p); tok_retries : in_int64 (tool_RetryCount p)
}.
Record tokens_ok (u : TokenUsage) : Prop := {
  uok_prompt : in_int64 (PromptTokens u); uok_completion : in_int64 (CompletionTokens u); uok_total : in_int64 (TotalTokens u)
}.
Record llm_ok (p : LLMCallPayload) : Prop := {
  lok_model : valid (llm_Model p); lok_provider : valid (llm_Provider p); lok_messages : storable (VList (llm_Messages p));
  lok_tokens : tokens_ok (llm_Tokens p); lok_content : valid (llm_Content p); lok_chunks : in_int64 (llm_Chunks p);
  lok_duration : in_int64 (llm_DurationMs p); lok_cost : storable (VFloat (llm_Cost p)); lok_cost_zero : llm_Cost p ≠ S754_zero true
}.
Record state_ok (p : StateTransitionPayload) : Prop := {
  sok_channel : valid (st_Channel p); sok_old : storable (st_OldValue p); sok_new : storable (st_NewValue p);
  sok_reducer : valid (st_Reducer p)
}.

#[local] Hint Resolve tok_name tok_args tok_result tok_duration tok_error tok_retries uok_prompt uok_completion
  uok_total lok_model lok_provider lok_messages lok_tokens lok_content lok_chunks lok_duration lok_cost lok_cost_zero
  sok_channel sok_old sok_new sok_reducer : stored.

Lemma tool_text_back p t : tool_ok p → write_struct (tool_members p) = Some t → read_struct tool_fields t no_tool_call = (p, true).
Proof.
  intros Hp Ht. eapply read_written; [exact Ht|texts_scan|]. intros kts E. unfold tool_fields. read_fields (tool_members p) E.
  by destruct p.
Qed.

Lemma tokens_stored u old :
  tokens_ok u → stored (read_struct token_fields) (always "tokens" (write_struct (token_members u))).2 old u.
Proof.
  intros Hu. apply stored_struct; [texts_scan|]. intros kts E. unfold token_fields. read_fields (token_members u) E. by destruct u.
Qed.
#[local] Hint Resolve tokens_stored : stored.

Lemma llm_text_back p t : llm_ok p → write_struct (llm_members p) = Some t → read_struct llm_fields t no_llm_call = (p, true).
Proof.
  intros Hp Ht. eapply read_written; [exact Ht|texts_scan|]. intros kts E. unfold llm_fields. read_fields (llm_members p) E.
  by destruct p.
Qed.

Lemma state_text_back p t :
  state_ok p → write_struct (state_members p) = Some t → read_struct state_fields t no_state_transition = (p, true).
Proof.
  intros Hp Ht. eapply read_written; [exact Ht|texts_scan|]. intros kts E. unfold state_fields. read_fields (state_members p) E.
  by destruct p.
Qed.

(** ** Replays *)
Section replay.
Context `{Sha256Hex}.

(** An event as the recorder leaves it. *)
Record recorded (e : Event) : Prop := {
  rcd_sealed : Seal e = e;
  rcd_llm : EvType e = EventLLMCallEnd → ∃ p, llm_ok p ∧ is_Some (EvPayload e) ∧ EvPayload e = write_struct (llm_members p);
  rcd_tool : EvType e = EventToolCallResult → ∃ p, tool_ok p ∧ is_Some (EvPayload e) ∧ EvPayload e = write_struct (tool_members p)
}.

(** What a replay makes of an event: the overrides are asked with what was recorded,
    and nil keeps the recording. *)
Inductive replays (model : ModelOverrideFunc) (tool : ToolOverrideFunc) (o : Event) : Event → Prop :=
| replays_other : EvType o ≠ EventLLMCallEnd → EvType o ≠ EventToolCallResult → replays model tool o o
| replays_model p c :
    EvType o = EventLLMCallEnd → EvPayload o = write_struct (llm_members p) →
    model (llm_Messages p) (llm_Content p) = Ok (Some c) →
    replays model tool o (Seal (with_payload (write_struct (llm_members (with_content c p))) o))
| replays_model_kept p :
    EvType o = EventLLMCallEnd → EvPayload o = write_struct (llm_members p) →
    model (llm_Messages p) (llm_Content p) = Ok None → replays model tool o o
| replays_tool p r :
    EvType o = EventToolCallResult → EvPayload o = write_struct (tool_members p) →
    tool (tool_ToolName p) (tool_Arguments p) (tool_Result p) = Ok r → r ≠ VNil →
    replays model tool o (Seal (with_payload (write_struct (tool_members (with_result r p))) o))
| replays_tool_kept p :
    EvType o = EventToolCallResult → EvPayload o = write_struct (tool_members p) →
    tool (tool_ToolName p) (tool_Arguments p) (tool_Result p) = Ok VNil → replays model tool o o.

Definition never_fails (model : ModelOverrideFunc) (tool : ToolOverrideFunc) : Prop :=
  (∀ ms c, ∃ o, model ms c = Ok o) ∧ (∀ n args r, ∃ o, tool n args r = Ok o).

Lemma parse_recorded {A} (fields : list (string * string) → A → A * bool) ms zero p e :
  (∀ t, write_struct ms = Some t → read_struct fields t zero = (p, true)) →
  is_Some (EvPayload e) → EvPayload e = write_struct ms → parsePayload fields e zero = (p, true).
Proof. intros Hb [t Ht] Hp. unfold parsePayload. rewrite Ht. apply Hb. congruence. Qed.

Lemma replay_event_replays model tool o :
  never_fails model tool → recorded o → ∃ r, replay_event model tool o = Ok r ∧ replays model tool o r.
Proof.
  intros [Hm Ht] Ho. unfold replay_event, copyEvent. destruct (decide (EvType o = EventLLMCallEnd)) as [E|E].
  - destruct (rcd_llm o Ho E) as (p & Hp & Hs & Hpay).
    rewrite (parse_recorded llm_fields _ _ p o (λ t, llm_text_back p t Hp) Hs Hpay). cbn [fst].
    destruct (Hm (llm_Messages p) (llm_Content p)) as [[c|] Hc]; rewrite Hc; eexists; (split; [done|]).
    + by eapply replays_model.
    + by eapply replays_model_kept.
  - destruct (decide (EvType o = EventToolCallResult)) as [E'|E'].
    + destruct (rcd_tool o Ho E') as (p & Hp & Hs & Hpay).
      rewrite (parse_recorded tool_fields _ _ p o (λ t, tool_text_back p t Hp) Hs Hpay). cbn [fst].
      destruct (Ht (tool_ToolName p) (tool_Arguments p) (tool_Result p)) as [r Hr]. rewrite Hr.
      destruct r; eexists; (split; [done|]);
        first [by eapply replays_tool_kept | by eapply replays_tool].
    + eexists. split; [done|]. by apply replays_other.
Qed.

Lemma replay_events_replays model tool os :
  never_fails model tool → Forall recorded os → ∃ rs, replay_events model tool os = Ok rs ∧ Forall2 (replays model tool) os rs.
Proof.
  intros Hf. induction 1 as [|o os Ho _ (rs & IH1 & IH2)]; [by exists []|].
  destruct (replay_event_replays model tool o Hf Ho) as (r & Hr & Hrep). exists (r :: rs). split; [|by constructor].
  cbn [replay_events]. rewrite Hr. by rewrite IH1.
Qed.

(** The events whose hash changed. *)
Definition changed (os rs : list Event) : list EventDivergence :=
  omap (λ p, if decide (EvHash p.1 ≠ EvHash p.2) then Some (mismatch p.1 p.2 "payload mismatch (hash differs)") else None)
    (zip os rs).

Lemma replays_type model tool o r : replays model tool o r → EvType r = EvType o.
Proof. by destruct 1. Qed.

Lemma diff_replays model tool os rs : Forall2 (replays model tool) os rs → diffEventLists os rs = changed os rs.
Proof.
  induction 1 as [|o r os rs Hr _ IH]; [done|]. cbn [diffEventLists changed zip_with omap list_omap fst snd]. rewrite IH.
  unfold compare_events. rewrite (replays_type _ _ _ _ Hr), decide_False by (intros Hn; by apply Hn). by case_decide.
Qed.

Lemma same_replays o r : recorded o → replays default_model default_tool o r → r = o.
Proof.
  intros Ho Hr. destruct Hr as [| p c Ht Hp Hc | | p r Ht Hp Hc Hn |]; try done.
  - injection Hc as <-. replace (with_content _ p) with p by by destruct p. rewrite <-Hp.
    replace (with_payload (EvPayload o) o) with o by by destruct o. by apply rcd_sealed.
  - injection Hc as <-. replace (with_result _ p) with p by by destruct p. rewrite <-Hp.
    replace (with_payload (EvPayload o) o) with o by by destruct o. by apply rcd_sealed.
Qed.

Lemma changed_same os : changed os os = [].
Proof. induction os as [|o os IH]; [done|]. cbn. rewrite decide_False by (intros Hn; by apply Hn). exact IH. Qed.

(** A state override keeps the recording of the others. *)
Lemma override_recorded f os :
  (∀ m, ∃ r, f m = Ok r) → Forall recorded os →
  ∃ os', override_state f os = Ok os' ∧ Forall recorded os' ∧ EvClock <$> os' = EvClock <$> os.
Proof.
  intros Hf. induction 1 as [|o os Ho Hos (os1 & IH1 & IH2 & IH3)]; [by exists []|]. cbn [override_state].
  destruct (decide (EvType o = EventStateWrite)) as [E|E].
  - set (st := (parsePayload state_fields o no_state_transition).1). destruct (Hf {[st_Channel st := st_NewValue st]}) as [m Hm].
    rewrite Hm. eexists. split; [done|]. destruct (m ≫= _) as [v|]; [|by split; [constructor|]].
    split; [|done]. constructor; [|done]. split; [done|cbn; by rewrite E..].
  - rewrite IH1. eexists. split; [done|]. split; [by constructor|]. cbn. by rewrite IH3.
Qed.

(** The events a replay reads. *)
Definition replay_filter {S} (cfg : ReplayConfig S) : EventFilter :=
  MkFilter (cfg_TraceID cfg) "" [] "" (cfg_Start cfg) (cfg_End cfg) None None 0.
Definition originals {S} `{L : EventLog S} `{@EventLogLaws S _ L} (store : S) (cfg : ReplayConfig S) : list Event :=
  filter (λ e, Matches (replay_filter cfg) e = true) (log_events (default store (cfg_Store cfg))).

(** The report on [n] events with these divergences. *)
Definition report (evs : list Event) (n : nat) (ds : list EventDivergence) : ReplayResult :=
  MkReplayResult evs (Z.of_nat n) (Z.of_nat n) ds
    (MkMetrics (Z.of_nat n) (Z.of_nat (length ds)) (Z.of_nat n - Z.of_nat (length ds))).

Context {S O : Type} {LS : EventLog S} {LO : EventLog O} `{!EventLogLaws S} `{!EventLogLaws O}.

Lemma Replay_overridden (store : S) (cfg : ReplayConfig S) (output : option O) os rs :
  match cfg_StateOverride cfg with Some f => override_state f (originals store cfg) | None => Ok (originals store cfg) end = Ok os →
  length os = length (originals store cfg) →
  replay_events (default default_model (cfg_ModelOverride cfg)) (default default_tool (cfg_ToolOverride cfg)) os = Ok rs →
  length rs = length os →
  let ds := if cfg_DiffEnabled cfg then diffEventLists os rs else [] in
  Replay store cfg output =
  match output with
  | None => (Ok (report [] (length os) ds), None)
  | Some o => match Append rs o with
              | (Err err, _, o) => (Err err, Some o)
              | (Ok _, evs, o) => (Ok (report evs (length os) ds), Some o)
              end
  end.
Proof.
  intros Hos Hlos Hrs Hlen. unfold Replay. rewrite stream_events. fold (replay_filter cfg). fold (originals store cfg).
  rewrite Hos, Hrs, Hlen, <-Hlos. done.
Qed.

(** A replay that fails leaves the output log as it was. *)
Lemma Replay_error_keeps_output (store : S) (cfg : ReplayConfig S) (o : O) err out :
  (∀ evs, (Append evs o).1.1 = Ok ()) → Replay store cfg (Some o) = (Err err, out) → out = Some o.
Proof.
  intros Hok. unfold Replay. destruct (match cfg_StateOverride cfg with Some _ => _ | None => _ end) as [os|e]; [|by intros [= _ <-]].
  destruct (replay_events _ _ os) as [rs|e]; [|by intros [= _ <-]].
  pose proof (Hok rs) as Hrs. destruct (Append rs o) as [[a evs] o']. cbn in Hrs. by rewrite Hrs.
Qed.

(** A replay asks its overrides once for every recorded answer of a model or a
    tool, with what was recorded; it reports as divergences exactly the events whose
    hash changed, all of them mismatches. *)
Theorem Replay_spec (store : S) (cfg : ReplayConfig S) :
  let model := default default_model (cfg_ModelOverride cfg) in
  let tool := default default_tool (cfg_ToolOverride cfg) in
  never_fails model tool → cfg_StateOverride cfg = None → Forall recorded (originals store cfg) →
  ∃ rs, Forall2 (replays model tool) (originals store cfg) rs ∧
    Replay store cfg (@None O) =
      (Ok (report [] (length rs) (if cfg_DiffEnabled cfg then changed (originals store cfg) rs else [])), None).
Proof.
  intros model tool Hf Hst Hrec. destruct (replay_events_replays model tool _ Hf Hrec) as (rs & Hrs & H2).
  exists rs. split; [done|]. pose proof (Forall2_length _ _ _ H2) as Hlen.
  rewrite (Replay_overridden store cfg None (originals store cfg) rs) by (by rewrite ?Hst).
  rewrite Hlen. by rewrite (diff_replays _ _ _ _ H2).
Qed.

(** A trace recorded with values JSON keeps replays without a divergence, even when
    its state writes are overridden. *)
Lemma exact_replay (store : S) (cfg : ReplayConfig S) (o : O) :
  cfg_ModelOverride cfg = None → cfg_ToolOverride cfg = None →
  (∀ f, cfg_StateOverride cfg = Some f → ∀ m, ∃ r, f m = Ok r) →
  Forall (λ e, recorded e ∧ EvClock e ≠ 0%Z) (originals store cfg) →
  (∀ evs, (Append evs o).1.1 = Ok ()) →
  ∃ evs o', Replay store cfg (Some o) = (Ok (report evs (length evs) []), Some o') ∧
    log_events o' = log_events o ++ evs ∧ EvClock <$> evs = EvClock <$> originals store cfg ∧
    (cfg_StateOverride cfg = None → evs = originals store cfg).
Proof.
  intros Hm Ht Hf Hrec Hok.
  assert (Forall recorded (originals store cfg)) as Hr by (eapply Forall_impl; [exact Hrec|by intros e [? _]]).
  assert (∃ os, match cfg_StateOverride cfg with Some f => override_state f (originals store cfg)
                | None => Ok (originals store cfg) end = Ok os ∧ Forall recorded os ∧
              EvClock <$> os = EvClock <$> originals store cfg ∧ (cfg_StateOverride cfg = None → os = originals store cfg))
    as (os & Hos & Hros & Hclocks & Hnone).
  { destruct (cfg_StateOverride cfg) as [f|]; [|by exists (originals store cfg)].
    destruct (override_recorded f _ (Hf f eq_refl) Hr) as (os & ? & ? & ?). by exists os. }
  destruct (replay_events_replays default_model default_tool os) as (rs & Hrs & H2);
    [by split; eauto|done|]. assert (rs = os) as ->.
  { clear Hrs Hos Hclocks Hnone. induction H2 as [|x y os rs Hxy H2 IH]; [done|]. apply Forall_cons in Hros as [Hx Hros].
    f_equal; [by eapply same_replays|by apply IH]. }
  destruct (Append os o) as [[a evs] o'] eqn:Ha. pose proof (Hok os) as Hoko. rewrite Ha in Hoko. cbn in Hoko. subst a.
  assert (evs = os) as ->.
  { eapply append_same; [|exact Ha]. apply Forall_forall. intros e He. split; [|apply rcd_sealed; by eapply Forall_forall].
    assert (EvClock e ∈ EvClock <$> originals store cfg) as Hin by (rewrite <-Hclocks; rewrite list_elem_of_fmap; by exists e).
    apply list_elem_of_fmap in Hin as (e' & -> & He'). by eapply Forall_forall in Hrec as [_ ?]. }
  exists os, o'. split_and!; [|by eapply append_events|done..].
  rewrite (Replay_overridden store cfg (Some o) os os); rewrite ?Hm, ?Ht; cbn [default]; [|done| |done|done].
  - rewrite Ha, (diff_replays _ _ _ _ H2), changed_same. by destruct (cfg_DiffEnabled cfg).
  - apply (f_equal length) in Hclocks. by rewrite !length_fmap in Hclocks.
Qed.
End replay.

(** ** From the recorder to the replay *)
Section session.
Context `{Sha256Hex}.

(** What a run records: calls of models and tools, and events of other kinds. *)
Inductive call :=
| CModel (now now' : moment2) (p : LLMCallPayload)
| CTool (now now' : moment2) (p : ToolCallPayload)
| COther (typ : EventType) (now : moment2) (f : Event → Event).

Definition run_call (rs : EventRecorder * MemoryEventStore.t) (c : call) : EventRecorder * MemoryEventStore.t :=
  match c with
  | CModel now now' p => RecordModelCall now now' p rs
  | CTool now now' p => RecordToolCall now now' p rs
  | COther typ now f => record typ now f rs
  end.

(** An edit of an event that leaves its type, clock and trace alone. *)
Definition keeps (f : Event → Event) : Prop :=
  ∀ e, EvType (f e) = EvType e ∧ EvClock (f e) = EvClock e ∧ EvTraceID (f e) = EvTraceID e.

Definition call_ok (c : call) : Prop :=
  match c with
  | CModel _ _ p => llm_ok p ∧ is_Some (write_struct (llm_members p))
  | CTool _ _ p => tool_ok p ∧ is_Some (write_struct (tool_members p))
  | COther typ _ f => typ ≠ EventLLMCallEnd ∧ typ ≠ EventToolCallResult ∧ keeps f
  end.

Record session_ok (n : nat) (t : string) (rs : EventRecorder * MemoryEventStore.t) : Prop := {
  ses_clock : rec_clock rs.1 = Z.of_nat n;
  ses_trace : rec_traceID rs.1 = t;
  ses_length : length (MemoryEventStore.events rs.2) = n;
  ses_events : Forall (λ e, recorded e ∧ EvClock e ≠ 0%Z ∧ EvTraceID e = t) (MemoryEventStore.events rs.2)
}.

Lemma log_sealed ev s :
  EvClock ev ≠ 0%Z → Seal ev = ev → MemoryEventStore.events (Append [ev] s).2 = MemoryEventStore.events s ++ [ev].
Proof.
  intros Hc Hs. pose proof (append_log [ev] s) as Hl. rewrite (append_sealed [ev] s) in Hl by (constructor; [done|constructor]).
  rewrite <-Hl. change (Append [ev] s) with (MemoryEventStore.Append_ [ev] s). unfold MemoryEventStore.Append_.
  by destruct (MemoryEventStore.append [ev] s).
Qed.

Lemma record_session n t typ now f rs :
  session_ok n t rs → (Z.of_nat n + 1 < 2 ^ 64)%Z → keeps f → recorded (new_event typ now f rs.1).1 →
  session_ok (S n) t (record typ now f rs).
Proof.
  intros [Hc Ht Hl He] Hn Hf Hrec. unfold record.
  destruct (Hf (with_thread (rec_threadID rs.1) (with_trace (rec_traceID rs.1) (NewEvent typ (Tick (rec_clock rs.1)) now))))
    as (_ & Hclock & Htrace).
  assert (Tick (rec_clock rs.1) = Z.of_nat (S n)) as Htick by (rewrite Hc; unfold Tick, uint64_add; rewrite Z.mod_small; lia).
  assert (EvClock (new_event typ now f rs.1).1 = Z.of_nat (S n)) as Hclock' by (cbn [new_event fst]; unfold Seal; cbn; by rewrite Hclock).
  assert (EvTraceID (new_event typ now f rs.1).1 = t) as Htrace' by (cbn [new_event fst]; unfold Seal; cbn; by rewrite Htrace).
  assert (rec_clock (new_event typ now f rs.1).2 = Z.of_nat (S n) ∧ rec_traceID (new_event typ now f rs.1).2 = t) as [H1 H2] by done.
  destruct (new_event typ now f rs.1) as [ev r]. cbn [fst snd] in *.
  assert (MemoryEventStore.events (Append [ev] rs.2).2 = MemoryEventStore.events rs.2 ++ [ev]) as Hlog
    by (apply log_sealed; [lia|apply Hrec]).
  split; cbn [fst snd]; [done|done|rewrite Hlog, length_app; cbn; lia|].
  rewrite Hlog. apply Forall_app. split; [done|]. constructor; [|constructor]. split_and!; [done|lia|done].
Qed.

Lemma recorded_other typ now f r :
  typ ≠ EventLLMCallEnd → typ ≠ EventToolCallResult → keeps f → recorded (new_event typ now f r).1.
Proof.
  intros H1 H2 Hf.
  destruct (Hf (with_thread (rec_threadID r) (with_trace (rec_traceID r) (NewEvent typ (Tick (rec_clock r)) now)))) as (Ht & _).
  assert (EvType (new_event typ now f r).1 = typ) as Htyp by (cbn [new_event fst]; unfold Seal; cbn; by rewrite Ht).
  split; [done|rewrite Htyp..]; done.
Qed.

Lemma call_session n t rs c :
  session_ok n t rs → (Z.of_nat n + 2 < 2 ^ 64)%Z → call_ok c →
  ∃ k, k ≤ 2 ∧ session_ok (k + n) t (run_call rs c).
Proof.
  intros Hs Hn Hc. destruct c as [now now' p|now now' p|typ now f]; cbn [run_call call_ok] in *.
  - exists 2. split; [lia|]. destruct Hc as [Hp Hw]. apply record_session; [|lia|by intros e|].
    + apply record_session; [done|lia|by intros e|]. by apply recorded_other.
    + split; [done|intros _|done]. by exists p.
  - exists 2. split; [lia|]. destruct Hc as [Hp Hw]. apply record_session; [|lia| |].
    + apply record_session; [done|lia|by intros e|]. by apply recorded_other.
    + intros e. unfold on_error. by case_decide.
    + split; [done| |intros _; exists p; split; [done|]].
      all: cbn [new_event fst]; unfold Seal, on_error; by destruct (decide (tool_Error p ≠ "")).
  - exists 1. split; [lia|]. destruct Hc as (H1 & H2 & H3). apply record_session; [done|lia|done|]. by apply recorded_other.
Qed.

Definition run_calls (traceID threadID : string) (calls : list call) : MemoryEventStore.t :=
  (foldl run_call (NewEventRecorder traceID threadID, MemoryEventStore.New) calls).2.

Lemma calls_session traceID threadID calls :
  Forall call_ok calls → (Z.of_nat (2 * length calls) + 2 < 2 ^ 64)%Z →
  ∃ n, n ≤ 2 * length calls ∧ session_ok n traceID (foldl run_call (NewEventRecorder traceID threadID, MemoryEventStore.New) calls).
Proof.
  induction calls as [|c calls IH] using rev_ind; intros Hc Hn; [by exists 0|].
  apply Forall_app in Hc as [Hcs Hc]. apply Forall_inv in Hc. rewrite length_app in *. cbn [length] in *.
  destruct IH as (n & Hle & Hs); [done|lia|]. rewrite foldl_snoc.
  destruct (call_session n traceID _ c Hs) as (k & Hk & Hs'); [lia|done|]. exists (k + n). split; [lia|done].
Qed.

Lemma session_recorded traceID threadID calls (cfg : ReplayConfig MemoryEventStore.t) :
  Forall call_ok calls → (Z.of_nat (2 * length calls) + 2 < 2 ^ 64)%Z → cfg_Store cfg = None →
  Forall (λ e, recorded e ∧ EvClock e ≠ 0%Z) (originals (run_calls traceID threadID calls) cfg).
Proof.
  intros Hc Hn Hst. destruct (calls_session traceID threadID calls Hc Hn) as (n & _ & Hs).
  unfold originals. rewrite Hst. cbn [default]. apply Forall_forall. intros e He. apply list_elem_of_filter in He as [_ He].
  destruct (proj1 (Forall_forall _ _) (ses_events _ _ _ Hs) e He) as (? & ? & _). done.
Qed.

End session.

(** ** Comparisons *)
Section diff.
Context `{Sha256Hex}.

(** The last event of a trace with a clock. *)
Definition last_at (c : Z) (evs : list Event) : option Event := last (filter (λ e, EvClock e = c) evs).

Lemma by_clock_snoc evs e : by_clock (evs ++ [e]) = <[EvClock e := e]> (by_clock evs).
Proof. unfold by_clock. by rewrite foldl_snoc. Qed.

Lemma by_clock_lookup evs c : by_clock evs !! c = last_at c evs.
Proof.
  induction evs as [|e evs IH] using rev_ind; [done|]. rewrite by_clock_snoc. unfold last_at in *.
  rewrite filter_app, filter_cons, filter_nil. destruct (decide (EvClock e = c)) as [<-|Hne].
  - rewrite lookup_insert_eq. by rewrite last_snoc.
  - by rewrite lookup_insert_ne, app_nil_r.
Qed.

Lemma last_at_elem c evs e : last_at c evs = Some e → e ∈ evs ∧ EvClock e = c.
Proof.
  intros Hl. apply last_Some_elem_of in Hl. by apply list_elem_of_filter in Hl as [? ?].
Qed.

Lemma last_at_Some c evs : c ∈ EvClock <$> evs → is_Some (last_at c evs).
Proof.
  intros (e & -> & He)%list_elem_of_fmap. unfold last_at. apply last_is_Some. intros Hn.
  assert (e ∈ filter (λ e', EvClock e' = EvClock e) evs) as Hin by (by apply list_elem_of_filter). rewrite Hn in Hin.
  by apply not_elem_of_nil in Hin.
Qed.

(** What the comparison finds at one clock. *)
Definition missing (m m' : gmap Z Event) (c : Z) : option Event := match m' !! c with None => m !! c | Some _ => None end.
Definition mismatches (lm rm : gmap Z Event) (c : Z) : list EventMismatch :=
  match lm !! c, rm !! c with
  | Some l, Some r =>
      (if decide (EvType l ≠ EvType r) then [MkMismatch c l r "type" (EvType l) (EvType r)] else []) ++
      (if decide (EvHash l ≠ EvHash r) then [MkMismatch c l r "payload" (str_take 16 (EvHash l)) (str_take 16 (EvHash r))] else [])
  | _, _ => []
  end.

Definition long_hashes (m : gmap Z Event) : Prop := map_Forall (λ _ e, 16 ≤ String.length (EvHash e)) m.

(** The lists a result has grown by. *)
Record grown (d : DiffResult) (right left : list Event) (mism : list EventMismatch) (d' : DiffResult) : Prop := {
  grown_right : diff_MissingInRight d' = diff_MissingInRight d ++ right;
  grown_left : diff_MissingInLeft d' = diff_MissingInLeft d ++ left;
  grown_mismatched : diff_Mismatched d' = diff_Mismatched d ++ mism
}.

Lemma diff_clock_grows lm rm d c :
  long_hashes lm → long_hashes rm →
  ∃ d', diff_clock lm rm (Some d) c = Some d' ∧
    grown d (option_list (missing lm rm c)) (option_list (missing rm lm c)) (mismatches lm rm c) d'.
Proof.
  intros Hl Hr. unfold diff_clock, missing, mismatches. cbn [mbind option_bind].
  destruct (lm !! c) as [l|] eqn:El, (rm !! c) as [r|] eqn:Er.
  2-4: eexists; (split; [done|]); split; cbn; by rewrite ?app_nil_r.
  unfold both_exist. assert (∀ h, 16 ≤ String.length h → prefix16 h = Some (str_take 16 h)) as Hp
    by (intros h Hh; unfold prefix16; by rewrite decide_True).
  rewrite (Hp (EvHash l)) by by eapply Hl. rewrite (Hp (EvHash r)) by by eapply Hr.
  destruct (decide (EvHash l ≠ EvHash r)); cbn [mbind option_bind].
  all: eexists; (split; [done|]).
  all: destruct (decide (EvType l = EventLLMCallEnd)); [by split; cbn; rewrite ?app_nil_r|].
  all: destruct (decide (EvType l = EventToolCallResult)); [by split; cbn; rewrite ?app_nil_r|].
  all: destruct (decide (EvType l = EventStateWrite ∧ EvNode l ≠ "")); by split; cbn; rewrite ?app_nil_r.
Qed.

Lemma diff_clocks_grow lm rm d cs :
  long_hashes lm → long_hashes rm →
  ∃ d', foldl (diff_clock lm rm) (Some d) cs = Some d' ∧
    grown d (omap (missing lm rm) cs) (omap (missing rm lm) cs) (cs ≫= mismatches lm rm) d'.
Proof.
  intros Hl Hr. revert d. induction cs as [|c cs IH]; intros d; [exists d; split; [done|]; split; by rewrite app_nil_r|].
  destruct (diff_clock_grows lm rm d c Hl Hr) as (d1 & E1 & [G1 G2 G3]).
  destruct (IH d1) as (d2 & E2 & [G4 G5 G6]). exists d2. cbn [foldl]. rewrite E1. split; [done|].
  split; [rewrite G4, G1|rewrite G5, G2|rewrite G6, G3]; rewrite <-(assoc_L (++)); f_equal;
    cbn [omap list_omap]; [by destruct (missing lm rm c)|by destruct (missing rm lm c)].
Qed.

Context {L R : Type} {LL : EventLog L} {LR : EventLog R} `{!EventLogLaws L} `{!EventLogLaws R}.

Definition trace_events {S} `{LS : EventLog S} `{!EventLogLaws S} (store : S) (traceID : string) : list Event :=
  filter (λ e, Matches (MkFilter traceID "" [] "" 0 0 None None 0) e = true) (log_events store).

Lemma readAllEvents_trace {S} `{LS : EventLog S} `{!EventLogLaws S} (store : S) traceID :
  readAllEvents store traceID = trace_events store traceID.
Proof. apply stream_events. Qed.

(** What a comparison looks at: type and hash. *)
Definition signature (e : Event) : EventType * string := (EvType e, EvHash e).

Lemma long_by_clock evs :
  (∀ s, 16 ≤ String.length (sha256_hex s)) → Forall (λ e, Seal e = e) evs → long_hashes (by_clock evs).
Proof.
  intros Hh Hs c e Hc. rewrite by_clock_lookup in Hc. apply last_at_elem in Hc as [Hin _].
  rewrite Forall_forall in Hs. rewrite <-(Hs e Hin). apply Hh.
Qed.

Lemma omap_nil {A B} (f : A → option B) l : omap f l = [] ↔ ∀ x, x ∈ l → f x = None.
Proof.
  induction l as [|x l IH]; [by split; [intros _ x ?%not_elem_of_nil|]|]. cbn. split.
  - destruct (f x) eqn:E; [done|]. intros Hn y [->|Hy]%elem_of_cons; [done|]. by apply IH.
  - intros Hn. rewrite (Hn x) by left. apply IH. intros y Hy. apply Hn. by right.
Qed.

Lemma bind_nil {A B} (f : A → list B) l : l ≫= f = [] ↔ ∀ x, x ∈ l → f x = [].
Proof.
  induction l as [|x l IH]; [by split; [intros _ x ?%not_elem_of_nil|]|]. rewrite bind_cons, app_nil, IH. split.
  - intros [Hx Hl] y [->|Hy]%elem_of_cons; [done|by apply Hl].
  - intros Hn. split; [apply Hn; left|]. intros y Hy. apply Hn. by right.
Qed.

Lemma no_findings lm rm (cs : list Z) :
  (∀ c, is_Some (lm !! c) ∨ is_Some (rm !! c) → c ∈ cs) →
  omap (missing lm rm) cs = [] ∧ omap (missing rm lm) cs = [] ∧ cs ≫= mismatches lm rm = [] ↔
  ∀ c, signature <$> lm !! c = signature <$> rm !! c.
Proof.
  intros Hcs. rewrite !omap_nil, bind_nil. unfold missing, mismatches, signature. split.
  - intros (H1 & H2 & H3) c. specialize (H1 c). specialize (H2 c). specialize (H3 c). specialize (Hcs c).
    destruct (lm !! c) as [l|], (rm !! c) as [r|]; cbn in *; [|naive_solver..].
    specialize (H3 (Hcs (or_introl (ex_intro _ l eq_refl)))). apply app_nil in H3 as [Ht Hh]. repeat case_decide; try done. congruence.
  - intros Hs. split_and!; intros c _; specialize (Hs c); destruct (lm !! c), (rm !! c); try done.
    injection Hs as Ht Hh. by rewrite Ht, Hh, !decide_False by (intros Hn; by apply Hn).
Qed.

(** Comparing two sealed traces never fails.  Whatever the order of its loop,
    it finds up to order the last events of the clocks only one trace has and the
    differences of the others, and it finds nothing exactly when at every clock the
    last events of the two traces have the same type and hash. *)
Theorem Diff_spec order (left : L) (right : R) lt rt :
  (∀ s, 16 ≤ String.length (sha256_hex s)) → (∀ cs, order cs ≡ₚ elements cs) →
  Forall (λ e, Seal e = e) (trace_events left lt) → Forall (λ e, Seal e = e) (trace_events right rt) →
  let lm := by_clock (trace_events left lt) in
  let rm := by_clock (trace_events right rt) in
  let clocks := elements (list_to_set (EvClock <$> trace_events left lt ++ trace_events right rt) : gset Z) in
  ∃ d, Diff order left right lt rt = Some d ∧
    diff_MissingInRight d ≡ₚ omap (missing lm rm) clocks ∧ diff_MissingInLeft d ≡ₚ omap (missing rm lm) clocks ∧
    diff_Mismatched d ≡ₚ clocks ≫= mismatches lm rm ∧
    (diff_MissingInRight d = [] ∧ diff_MissingInLeft d = [] ∧ diff_Mismatched d = [] ↔
     ∀ c, signature <$> last_at c (trace_events left lt) = signature <$> last_at c (trace_events right rt)).
Proof.
  intros Hh Ho Hl Hr lm rm clocks. unfold Diff. rewrite !readAllEvents_trace. cbn zeta.
  set (cs := order _). assert (cs ≡ₚ clocks) as Hcs by apply Ho.
  destruct (diff_clocks_grow lm rm no_diff cs) as (d & Hd & [G1 G2 G3]); [by apply long_by_clock..|].
  exists d. split; [exact Hd|]. cbn in G1, G2, G3. rewrite G1, G2, G3. split_and!; [by rewrite Hcs..|].
  rewrite no_findings.
  - unfold lm, rm. by setoid_rewrite by_clock_lookup.
  - intros c Hc. rewrite Hcs. unfold clocks. rewrite elem_of_elements, elem_of_list_to_set, fmap_app, elem_of_app.
    unfold lm, rm in Hc. rewrite !by_clock_lookup in Hc.
    destruct Hc as [[e [Hin <-]%last_at_elem]|[e [Hin <-]%last_at_elem]]; [left|right]; rewrite list_elem_of_fmap; by exists e.
Qed.
End diff.

(** ** Checkpoints of forks *)
Section checkpoint.
Context `{Sha256Hex}.

(** The channel and the value of a state write. *)
Definition state_write_of (e : Event) : option (string * val) :=
  let st := (parsePayload state_fields e no_state_transition).1 in
  if decide (EvType e = EventStateWrite ∧ st_Channel st ≠ "") then Some (st_Channel st, st_NewValue st) else None.

Definition last_written (k : string) (evs : list Event) : option val :=
  snd <$> last (filter (λ w, w.1 = k) (omap state_write_of evs)).

Definition nodes_ended (evs : list Event) : list string := EvNode <$> filter (λ e, EvType e = EventNodeEnd) evs.

Lemma recorded_write e p :
  EvType e = EventStateWrite → EvPayload e = write_struct (state_members p) → is_Some (EvPayload e) →
  state_ok p → st_Channel p ≠ "" → state_write_of e = Some (st_Channel p, st_NewValue p).
Proof.
  intros Ht Hp Hs Hok Hc. unfold state_write_of.
  rewrite (parse_recorded state_fields _ _ p e (λ t, state_text_back p t Hok) Hs Hp). cbn [fst]. by rewrite decide_True.
Qed.

Definition build (b : building) (evs : list Event) : building := foldl build_event b evs.

Lemma build_snoc b evs e : build b (evs ++ [e]) = build_event (build b evs) e.
Proof. unfold build. by rewrite foldl_snoc. Qed.

Lemma build_cp_lookup b evs k :
  b_cp (build b evs) !! k = match last_written k evs with Some v => Some v | None => b_cp b !! k end.
Proof.
  induction evs as [|e evs IH] using rev_ind; [done|]. rewrite build_snoc. unfold last_written in *.
  rewrite omap_app, filter_app. cbn [omap list_omap]. unfold build_event, state_write_of at 2.
  set (st := (parsePayload state_fields e no_state_transition).1). destruct (decide (EvType e = EventStateWrite)) as [Et|Et].
  - destruct (decide (st_Channel st = "")) as [Ec|Ec].
    + rewrite (decide_False (P := EvType e = EventStateWrite ∧ _)) by tauto. by rewrite filter_nil, app_nil_r.
    + rewrite (decide_True (P := EvType e = EventStateWrite ∧ _)) by done. rewrite filter_cons, filter_nil. cbn [b_cp fst].
      destruct (decide (st_Channel st = k)) as [<-|Hne]; [by rewrite lookup_insert_eq, last_snoc|].
      by rewrite lookup_insert_ne, app_nil_r.
  - rewrite (decide_False (P := EvType e = EventStateWrite ∧ _)) by tauto. rewrite filter_nil, app_nil_r. destruct (decide (EvType e = EventNodeEnd)); [done|].
    by destruct (decide (EvType e = EventStepEnd)).
Qed.

Lemma build_completed b evs : b_completed (build b evs) = b_completed b ++ nodes_ended evs.
Proof.
  induction evs as [|e evs IH] using rev_ind; [by rewrite app_nil_r|]. rewrite build_snoc. unfold nodes_ended in *.
  rewrite filter_app, fmap_app, filter_cons, filter_nil. unfold build_event.
  destruct (decide (EvType e = EventStateWrite)) as [Et|Et].
  - rewrite (decide_False (P := EvType e = EventNodeEnd)) by (by rewrite Et).
    cbn. rewrite app_nil_r. by case_decide.
  - destruct (decide (EvType e = EventNodeEnd)); [cbn; by rewrite IH, (assoc_L (++))|]. cbn. rewrite app_nil_r. by case_decide.
Qed.

Lemma build_last b evs : b_last (build b evs) = default (b_last b) (last (nodes_ended evs)).
Proof.
  induction evs as [|e evs IH] using rev_ind; [done|]. rewrite build_snoc. unfold nodes_ended in *.
  rewrite filter_app, fmap_app, filter_cons, filter_nil. unfold build_event.
  destruct (decide (EvType e = EventStateWrite)) as [Et|Et].
  - rewrite (decide_False (P := EvType e = EventNodeEnd)) by (by rewrite Et).
    cbn. rewrite app_nil_r. by case_decide.
  - destruct (decide (EvType e = EventNodeEnd)); [cbn; by rewrite last_snoc|]. cbn. rewrite app_nil_r. by case_decide.
Qed.

(** The keys [BuildCheckpoint] and the engine use themselves. *)
Definition fork_keys : list string := [ConfigKeyThreadID; ConfigKeyCheckpointID; pregel_id_key] ++ reserved_keys.

Definition free_writes (evs : list Event) : Prop := ∀ k, k ∈ fork_keys → last_written k evs = None.

Lemma BuildCheckpoint_lookup `{GoFloat} evs threadID now :
  free_writes evs →
  let cp := (BuildCheckpoint evs threadID now).1 in
  cp !! "__completed_tasks__" =
    (if decide (nodes_ended evs = []) then None else Some (VStr (join_with (String nul "") (nodes_ended evs)))) ∧
  cp !! "__last_completed_node__" =
    (if decide (default "" (last (nodes_ended evs)) = "") then None else Some (VStr (default "" (last (nodes_ended evs))))) ∧
  ∀ k, k ∉ fork_keys → cp !! k = last_written k evs.
Proof.
  intros Hfree. unfold BuildCheckpoint. cbn [fst]. set (b0 := MkBuilding _ _ _ _). fold (build b0 evs).
  pose proof (build_completed b0 evs) as Hc. pose proof (build_last b0 evs) as Hl.
  pose proof (λ k, build_cp_lookup b0 evs k) as Hk. cbn [b_completed b_last b0 app] in Hc, Hl.
  rewrite Hc, Hl.
  set (cp1 := if decide (2 < size (b_cp (build b0 evs))) then _ else _).
  assert (∀ k, k ≠ "__last_state__" → cp1 !! k = b_cp (build b0 evs) !! k) as H1.
  { intros k Hne. unfold cp1. case_decide; [|done]. destruct (marshal _); [by rewrite lookup_insert_ne|done]. }
  set (last := default "" (last (nodes_ended evs))).
  assert (b_cp (build b0 evs) !! "__completed_tasks__" = None) as Hn1.
  { rewrite Hk, Hfree; [reflexivity|]. apply (bool_decide_unpack _). vm_compute. exact I. }
  assert (b_cp (build b0 evs) !! "__last_completed_node__" = None) as Hn2.
  { rewrite Hk, Hfree; [reflexivity|]. apply (bool_decide_unpack _). vm_compute. exact I. }
  split_and!.
  - rewrite lookup_insert_ne by done. destruct (decide (last = "")), (decide (nodes_ended evs = []));
      simplify_map_eq; by rewrite ?H1.
  - rewrite lookup_insert_ne by done. destruct (decide (last = "")), (decide (nodes_ended evs = []));
      simplify_map_eq; by rewrite ?H1.
  - intros k Hnk. unfold fork_keys, reserved_keys in Hnk. rewrite !not_elem_of_app, !not_elem_of_cons in Hnk.
    destruct Hnk as [(Ha & Hb & Hcc & _) (Hd & He & Hf & Hg & _)].
    rewrite lookup_insert_ne by done.
    assert (cp1 !! k = last_written k evs) as Hcp1.
    { rewrite H1, Hk by done. destruct (last_written k evs); [done|]. unfold b0. cbn [b_cp].
      rewrite !lookup_insert_ne by done. apply lookup_singleton_ne. done. }
    destruct (decide (last = "")), (decide (nodes_ended evs = [])); rewrite ?lookup_insert_ne by done; done.
Qed.

(** ** Forks *)
Section fork.
Context `{R : GoRuntime} `{F : GoFloat} `{U : GoUnsigned} `{T : GoTime} `{J : JsonText}.
Context {S O : Type} {LS : EventLog S} {LO : EventLog O} `{!EventLogLaws S}.

(** The events of a trace before a clock. *)
Definition before (store : S) (traceID : string) (c : Z) : list Event :=
  filter (λ e, EvTraceID e = traceID ∧ (EvClock e < c)%Z) (log_events store).

Lemma read_before store traceID c :
  traceID ≠ "" → (2 ≤ c < 2 ^ 64)%Z →
  read_all (Stream (MkFilter traceID "" [] "" 0 (uint64_add c (-1)) None None 0) store) = before store traceID c.
Proof.
  intros Ht Hc. rewrite stream_events. unfold before. apply list_filter_iff. intros e. unfold Matches. cbn.
  assert (uint64_add c (-1) = c - 1)%Z as -> by (unfold uint64_add; rewrite Z.mod_small; lia).
  rewrite (bool_decide_eq_true_2 _ Ht). cbn. assert ((0 <? c - 1)%Z = true) as -> by lia. cbn.
  destruct (bool_decide_reflect (EvTraceID e ≠ traceID)) as [Hn|Hn]; cbn; [split; [done|tauto]|].
  assert (EvTraceID e = traceID) by by apply dec_stable. rewrite (bool_decide_eq_false_2 ("" ≠ "")) by (intros Hx; by apply Hx). cbn.
  destruct (Z.ltb_spec (c - 1) (EvClock e)); cbn; split; try done; [intros [_ ?]; lia|intros _; split; [done|lia]].
Qed.

Lemma restored_set ns :
  Forall (λ n, n ≠ "" ∧ str_mem nul n = false) ns → ns ≠ [] →
  deserializeStringSet (join_with (String nul "") ns) = Some (list_to_set ns).
Proof.
  intros Hns Hne. unfold deserializeStringSet. rewrite decide_False.
  - rewrite split_join; [done|done|]. eapply Forall_impl; [exact Hns|by intros n [_ ?]].
  - intros [->|Hn]%join_with_empty; [done| |done]. rewrite Hn in Hns. by apply Forall_inv in Hns as [? _].
Qed.

(** What is read back of the nodes of a checkpoint in a saver. *)
Lemma restored_checkpoint evs threadID now :
  free_writes evs → Forall (λ n, n ≠ "" ∧ str_mem nul n = false ∧ valid n) (nodes_ended evs) →
  valid (join_with (String nul "") (nodes_ended evs)) →
  let data := memory_norm (BuildCheckpoint evs threadID now).1 in
  restored_completed data = list_to_set (nodes_ended evs) ∧ restored_last data = default "" (last (nodes_ended evs)) ∧
  ∀ k, k ∉ fork_keys → data !! k = deepCopy ∘ deepCopy <$> last_written k evs.
Proof.
  intros Hfree Hns Hv. destruct (BuildCheckpoint_lookup evs threadID now Hfree) as (Hc & Hl & Hk). cbn zeta.
  split_and!; [| |by intros k Hnk; rewrite memory_norm_lookup, Hk].
  - unfold restored_completed. destruct (decide (nodes_ended evs = [])) as [Hn|Hn].
    + by rewrite memory_norm_lookup, Hc, Hn.
    + rewrite (memory_norm_text _ _ _ Hc Hv). cbn [mbind option_bind as_string].
      rewrite restored_set; [done| |done]. eapply Forall_impl; [exact Hns|by intros n (? & ? & _)].
  - unfold restored_last. destruct (decide (default "" (last (nodes_ended evs)) = "")) as [Hn|Hn].
    + by rewrite memory_norm_lookup, Hl, Hn.
    + rewrite (memory_norm_text _ _ _ Hl); [done|]. destruct (last (nodes_ended evs)) as [n|] eqn:E; [|done]. cbn.
      apply last_Some_elem_of in E. rewrite Forall_forall in Hns. apply (Hns n E).
Qed.

(** C26: a fork whose caller gives it the saver of its engine restores the run: the
    engine starts with a store in which every engine of the thread finds the nodes
    that ended before the fork as completed, the last of them as the last node, and
    for every channel the last value written before the fork. *)
Theorem fork_restores (store : S) (cfg : ForkConfig S MemorySaver.t) times s run uuid now ev :
  let pre := before (default store (fork_Store cfg)) (fork_TraceID cfg) (EvClock ev) in
  fork_TraceID cfg ≠ "" → GetEvent (fork_Point cfg) (default store (fork_Store cfg)) = Some ev → (2 ≤ EvClock ev < 2 ^ 64)%Z →
  fork_Engine cfg = Some run → fork_Checkpointer cfg = Some (λ c cp, MemorySaver.Put c cp uuid now) →
  free_writes pre → Forall (λ n, n ≠ "" ∧ str_mem nul n = false ∧ valid n) (nodes_ended pre) →
  valid (join_with (String nul "") (nodes_ended pre)) →
  ∃ s' data,
    (Fork store cfg times (@None O) s).2 = (run s').2 ∧
    (∀ r, (run s').1 = Ok r → ∃ f, (Fork store cfg times (@None O) s).1.1 = Ok f ∧ frk_FinalState f = r) ∧
    (∀ e, requested_checkpoint e = "" → load_checkpoint e (fork_TraceID cfg) (Some s') = Ok (Some data)) ∧
    restored_completed data = list_to_set (nodes_ended pre) ∧ restored_last data = default "" (last (nodes_ended pre)) ∧
    ∀ k, k ∉ fork_keys → data !! k = deepCopy ∘ deepCopy <$> last_written k pre.
Proof.
  intros pre Ht Hget Hc Hrun Hput Hfree Hns Hv.
  destruct (BuildCheckpoint pre (fork_TraceID cfg) (ft_checkpoint times)) as [cp cpID] eqn:Hcp.
  set (put_cfg := <[ConfigKeyCheckpointID := VStr cpID]> {[ConfigKeyThreadID := VStr (fork_TraceID cfg)]} : config).
  assert (thread_of put_cfg = Some (fork_TraceID cfg)) as Hthread by reflexivity.
  destruct (MemorySaver.Put put_cfg cp uuid now s) as [s'|err] eqn:Hs'.
  2: { exfalso. pose proof (proj1 (put_total (norm := memory_norm) put_cfg cp uuid now s) (mk_is_Some _ _ Hthread)) as Hok.
       cbn [cp_put memory_checkpointer] in Hok. by rewrite Hs' in Hok. }
  exists s', (memory_norm cp).
  assert (Fork store cfg times (@None O) s =
          match run s' with
          | (Ok final, s) => (Ok (MkForkResult (fork_trace (fork_TraceID cfg) (fork_Point cfg))
                                    (pre ++ [forkMarker (fork_TraceID cfg) (fork_Point cfg) (ft_marker times)])
                                    (fork_TraceID cfg) (fork_Point cfg) final), None, s)
          | (Err err, s) => (Err (Wrapf "fork resume" err), None, s)
          end) as Hfork.
  { unfold Fork. rewrite Hget, Hrun, read_before by done. fold pre. unfold resumeFromCheckpoint. rewrite decide_False by done.
    rewrite Hcp, Hput. fold put_cfg. rewrite Hs'. by destruct (run s') as [[final|err] s2]. }
  pose proof (restored_checkpoint pre (fork_TraceID cfg) (ft_checkpoint times) Hfree Hns Hv) as Hr. rewrite Hcp in Hr.
  split_and!; [..|apply Hr|apply Hr|apply Hr].
  - rewrite Hfork. by destruct (run s') as [[final|err] s2].
  - intros r Hr'. rewrite Hfork. destruct (run s') as [[final|err] s2]; [|done]. injection Hr' as ->. by eexists.
  - intros e He. unfold load_checkpoint. rewrite He, decide_True by done.
    pose proof (get_put (norm := memory_norm) put_cfg cp uuid now s s' _ Hthread Hs') as Hg. by rewrite Hg.
Qed.

(** A fork without a saver of its caller runs the engine as if there had been no
    run before: the checkpoint goes into a saver nobody reads. *)
Theorem fork_without_saver {W} (store : S) (cfg : ForkConfig S W) times (o : option O) w run ev :
  GetEvent (fork_Point cfg) (default store (fork_Store cfg)) = Some ev →
  fork_Engine cfg = Some run → fork_Checkpointer cfg = None →
  (∀ evs o, (Append evs o).1.1 = Ok ()) →
  (Fork store cfg times o w).2 = (run w).2 ∧
  ∀ r, (run w).1 = Ok r ↔ ∃ f, (Fork store cfg times o w).1.1 = Ok f ∧ frk_FinalState f = r.
Proof.
  intros Hget Hrun Hput Hok. unfold Fork. rewrite Hget, Hrun.
  set (evs := read_all _ ++ _). destruct o as [o|].
  - specialize (Hok evs o). destruct (Append evs o) as [[a evs'] o']. cbn in Hok. subst a.
    unfold resumeFromCheckpoint. destruct (BuildCheckpoint _ _ _) as [cp cpID]. rewrite Hput.
    destruct (run w) as [[final|err] w']; cbn; (split; [done|]); naive_solver.
  - unfold resumeFromCheckpoint. destruct (BuildCheckpoint _ _ _) as [cp cpID]. rewrite Hput.
    destruct (run w) as [[final|err] w']; cbn; (split; [done|]); naive_solver.
Qed.
End fork.
End checkpoint.

(** ** Examples *)
Definition padded_keys : Sha256Hex := {| sha256_hex s := s +:+ "0123456789abcdef" |}.
#[local] Existing Instance padded_keys.
#[local] Existing Instance amd64.
#[local] Existing Instance amd64_unsigned.
#[local] Existing Instance tally_clock.
#[local] Existing Instance go_json.

Lemma padded_long s : 16 ≤ String.length (sha256_hex s).
Proof.
  cbn [sha256_hex padded_keys]. induction s as [|a s IH]; [reflexivity|]. rewrite app_String. cbn [String.length]. lia.
Qed.

Definition a_question : LLMCallPayload :=
  MkLLMCall "m" "p" [VObj {["role" := VStr "user"]}] (MkTokenUsage 3 4 7) "hello" 0 12 (S754_zero false).
Definition a_search (result : val) : ToolCallPayload := MkToolCall "search" {["q" := VStr "go"]} result 5 "" 0.

Lemma readable_field k v : readable v → readable (VObj {[k := v]}).
Proof.
  intros Hv. cbn [readable]. rewrite map_fmap_singleton. intros i P. by intros [_ <-]%lookup_singleton_Some.
Qed.

Ltac readable := repeat first [exact I | apply readable_field | constructor | hnf].
Ltac concrete :=
  first [reflexivity | split; [discriminate|reflexivity] | split; [solve [readable]|vm_compute; reflexivity] | discriminate].

Lemma a_question_ok : llm_ok a_question.
Proof.
  split; try concrete.
  split; concrete.
Qed.

Lemma a_search_ok : tool_ok (a_search (VStr "found")).
Proof. split; concrete. Qed.

Definition a_session : list call :=
  [COther EventGraphStart (0, 0)%Z (with_meta "graph_name" (VStr "g")); CModel (0, 1)%Z (0, 2)%Z a_question;
   CTool (0, 3)%Z (0, 4)%Z (a_search (VStr "found"))].

Lemma a_session_ok : Forall call_ok a_session.
Proof.
  constructor; [split_and!; [discriminate|discriminate|by intros e]|].
  constructor; [split; [exact a_question_ok|vm_compute; by eexists]|].
  constructor; [split; [exact a_search_ok|vm_compute; by eexists]|constructor].
Qed.

Definition replay_all (model : option ModelOverrideFunc) (tool : option ToolOverrideFunc) (state : option StateOverrideFunc)
  : ReplayConfig MemoryEventStore.t := MkReplayConfig None "t" 0 0 model tool state true.


(** A shouting model changes the one answer of the model: one divergence. *)
Definition shout : ModelOverrideFunc := ReplaySubstituteModel (λ s, s +:+ "!").

Definition shouting : ReplayConfig MemoryEventStore.t := replay_all (Some shout) None None.

Lemma Replay_spec_witness :
  let store := run_calls "t" "" a_session in
  let model := default default_model (cfg_ModelOverride shouting) in
  let tool := default default_tool (cfg_ToolOverride shouting) in
  ∃ rs, Forall2 (replays model tool) (originals store shouting) rs ∧
    Replay store shouting (@None MemoryEventStore.t) =
      (Ok (report [] (length rs) (if cfg_DiffEnabled shouting then changed (originals store shouting) rs else [])), None).
Proof.
  intros store model tool. apply (Replay_spec store shouting).
  - split; intros; eexists; reflexivity.
  - reflexivity.
  - eapply Forall_impl; [apply (session_recorded "t" "" a_session shouting a_session_ok); reflexivity|by intros e [? _]].
Defined.

Example one_divergence :
  res_Metrics <$> (match (Replay (run_calls "t" "" a_session) shouting (@None MemoryEventStore.t)).1 with
                   | Ok r => Some r | Err _ => None end) = Some (MkMetrics 5 1 4).
Proof. vm_compute. reflexivity. Qed.

(** An integer a float does not hold: the recorded result is replayed as another one. *)
Example large_result_diverges :
  (λ r, length (res_Divergences r)) <$>
  (match (Replay (run_calls "t" "" [CTool (0, 3)%Z (0, 4)%Z (a_search (VInt 9007199254740993))])
            (replay_all None None None) (@None MemoryEventStore.t)).1 with Ok r => Some r | Err _ => None end) = Some 1.
Proof. vm_compute. reflexivity. Qed.

(** Live tools keep what was recorded. *)
Lemma live_tools_keep model o : recorded o → EvType o = EventToolCallResult → replay_event model ReplayLiveTools o = Ok o.
Proof.
  intros Ho Ht. unfold replay_event. rewrite Ht. cbn. done.
Qed.

Lemma session_sealed traceID threadID calls t' :
  Forall call_ok calls → (Z.of_nat (2 * length calls) + 2 < 2 ^ 64)%Z →
  Forall (λ e, Seal e = e) (trace_events (run_calls traceID threadID calls) t').
Proof.
  intros Hc Hn. destruct (calls_session traceID threadID calls Hc Hn) as (n & _ & Hs).
  apply Forall_forall. intros e He. apply list_elem_of_filter in He as [_ He].
  destruct (proj1 (Forall_forall _ _) (ses_events _ _ _ Hs) e He) as (Hr & _). apply Hr.
Qed.

Lemma Diff_spec_witness :
  let left := run_calls "t" "" a_session in
  ∃ d, Diff (L := MemoryEventStore.t) (R := MemoryEventStore.t) elements left left "t" "t" = Some d ∧
    diff_MissingInRight d = [] ∧ diff_MissingInLeft d = [] ∧ diff_Mismatched d = [].
Proof.
  intros left. assert (Forall (λ e, Seal e = e) (trace_events left "t")) as Hs
    by (apply session_sealed; [exact a_session_ok|reflexivity]).
  destruct (Diff_spec (L := MemoryEventStore.t) (R := MemoryEventStore.t) elements left left "t" "t" padded_long (λ cs, reflexivity _) Hs Hs)
    as (d & Hd & _ & _ & _ & Hiff).
  exists d. split; [exact Hd|]. apply Hiff. intros c. reflexivity.
Defined.

(** Calls of models are listed as differences even when there is none. *)
Example same_response_listed :
  diff_LLMResponseDiff <$> Diff (L := MemoryEventStore.t) (R := MemoryEventStore.t) elements
    (run_calls "t" "" a_session) (run_calls "t" "" a_session) "t" "t" = Some [MkLLMResponseDiff 0 "hello" "hello"].
Proof. vm_compute. reflexivity. Qed.

(** Of two writes of one node the difference of states keeps the one its loop meets last. *)
Definition write_event (node : string) (c : Z) (p : StateTransitionPayload) : Event :=
  MkEvent (pretty c) EventStateWrite 0 c "t" "" [] "" 0 node "" (write_struct (state_members p)) (Some ∅) false "".
Definition x_is (v : val) : StateTransitionPayload := MkStateTransition "x" VNil v "".
Definition log_of (evs : list Event) : MemoryEventStore.t := (Append evs MemoryEventStore.New).2.
Definition two_writes : MemoryEventStore.t := log_of [write_event "n" 1 (x_is (VStr "a")); write_event "n" 2 (x_is (VStr "b"))].

Example state_diff_depends_on_order :
  diff_StateDiff <$> Diff (L := MemoryEventStore.t) (R := MemoryEventStore.t) elements two_writes two_writes "t" "t" ≠
  diff_StateDiff <$> Diff (L := MemoryEventStore.t) (R := MemoryEventStore.t) (λ cs, reverse (elements cs)) two_writes two_writes "t" "t".
Proof. vm_compute. discriminate. Qed.

(** *** Forks *)
Definition node_end (node : string) (c : Z) (failure : option error) : Event :=
  error_meta failure (MkEvent (pretty c) EventNodeEnd 0 c "t" "" [] "" 0 node "" None (Some ∅) false "").

Definition a_run : MemoryEventStore.t :=
  log_of [write_event "a" 1 (x_is (VStr "v")); node_end "a" 2 None; at_clock "3" EventStepEnd 3 0 None;
          write_event "b" 4 (x_is (VStr "w"))].

(** The engine of the fork leaves the saver as it finds it. *)
Definition a_fork (point : EventID) : ForkConfig MemoryEventStore.t MemorySaver.t :=
  MkForkConfig None "t" point (Some (λ s, (Ok (VInt (Z.of_nat (size (MemorySaver.checkpoints s)))), s)))
    (Some (λ c cp, MemorySaver.Put c cp "u" 7)).
Definition no_times : fork_times := MkForkTimes (0, 0)%Z 5 (0, 0)%Z.

Lemma fork_restores_witness :
  ∃ s' data,
    (Fork a_run (a_fork "4") no_times (@None MemoryEventStore.t) MemorySaver.New).2 = s' ∧
    (∀ e, requested_checkpoint e = "" → load_checkpoint e "t" (Some s') = Ok (Some data)) ∧
    restored_completed data = {["a"]} ∧ restored_last data = "a" ∧ data !! "x" = Some (VStr "v").
Proof.
  destruct (fork_restores (O := MemoryEventStore.t) a_run (a_fork "4") no_times MemorySaver.New
              (λ s, (Ok (VInt (Z.of_nat (size (MemorySaver.checkpoints s)))), s)) "u" 7
              (Seal (write_event "b" 4 (x_is (VStr "w"))))) as (s' & data & H1 & _ & H3 & H4 & H5 & H6).
  - discriminate.
  - vm_compute. reflexivity.
  - split; [discriminate|reflexivity].
  - reflexivity.
  - reflexivity.
  - unfold free_writes. rewrite <-Forall_forall. repeat (constructor; [vm_compute; reflexivity|]). constructor.
  - constructor; [|constructor]. split_and!; [discriminate|reflexivity|reflexivity].
  - vm_compute. reflexivity.
  - exists s', data. split; [exact H1|]. split; [exact H3|]. split; [rewrite H4; vm_compute; reflexivity|].
    split; [rewrite H5; vm_compute; reflexivity|]. rewrite H6; [vm_compute; reflexivity|].
    apply (bool_decide_unpack _). vm_compute. exact I.
Defined.

Definition quiet_engine (s : MemorySaver.t) : res val * MemorySaver.t := (Ok VNil, s).

Lemma fork_without_saver_witness :
  let cfg := MkForkConfig None "t" "4" (Some quiet_engine) None in
  (Fork a_run cfg no_times (@None MemoryEventStore.t) MemorySaver.New).2 = MemorySaver.New ∧
  ∃ f, (Fork a_run cfg no_times (@None MemoryEventStore.t) MemorySaver.New).1.1 = Ok f ∧ frk_FinalState f = VNil.
Proof.
  intros cfg.
  destruct (fork_without_saver (O := MemoryEventStore.t) a_run cfg no_times None MemorySaver.New quiet_engine
              (Seal (write_event "b" 4 (x_is (VStr "w"))))) as [H1 H2].
  - vm_compute. reflexivity.
  - reflexivity.
  - reflexivity.
  - intros evs o. cbn. unfold MemoryEventStore.Append_. destruct (MemoryEventStore.append evs o). reflexivity.
  - split; [exact H1|]. apply H2. reflexivity.
Defined.

(** A fork at the first event has no bound below it: the whole trace comes before it. *)
Example fork_at_the_first_event :
  match (Fork a_run (a_fork "1") no_times (@None MemoryEventStore.t) MemorySaver.New).1.1 with
  | Ok f => EvID <$> frk_Events f | Err _ => [] end = ["1"; "2"; "3"; "4"; "evt-0-0"].
Proof. vm_compute. reflexivity. Qed.

(** In an output log the marker of the fork gets a clock the trace has already used. *)
Example fork_marker_clock :
  match (Fork a_run (a_fork "4") no_times (Some MemoryEventStore.New) MemorySaver.New).1.1 with
  | Ok f => EvClock <$> frk_Events f | Err _ => [] end = [1; 2; 3; 1]%Z.
Proof. vm_compute. reflexivity. Qed.

(** A node that failed counts as completed. *)
Example failed_node_completed :
  (BuildCheckpoint [node_end "a" 1 (Some (Errorf "boom"))] "t" 5).1 !! "__completed_tasks__" = Some (VStr "a").
Proof. vm_compute. reflexivity. Qed.
