(* ===== verification/Canvas.v ===== *)
(** * The state of an agent canvas (internal/agent/runtime)

    The variables all components of a canvas read and write (state.go) and the
    templates that refer to them (template.go).  Components move references to
    nested maps and lists between variables and write through them, so maps and the
    arrays behind lists live in a heap.  How far an array grows when a list runs
    over it is up to the runtime: a class with its law. *)
From Stdlib Require Import Ascii.
From S2P Require Import Prelude Values Format Json JsonText.
From S2P Require Export GoStrings.

(** ** The heap

    A reference to a [map[string]any], a [[]any] with the array it views, or any
    other value.  Arrays have a fixed length; a list that starts at [off] can grow to
    the end of its array. *)
Inductive cell :=
| CVal (v : val)
| CMap (l : nat)
| CList (a off len : nat).

Abbreviation CNil := (CVal VNil).

Record heap := MkHeap { h_maps : gmap nat (gmap string cell); h_arrays : gmap nat (list cell); h_next : nat }.
Definition empty_heap : heap := MkHeap ∅ ∅ 0.

Definition obj (h : heap) (l : nat) : gmap string cell := default ∅ (h_maps h !! l).
Definition array (h : heap) (a : nat) : list cell := default [] (h_arrays h !! a).
Definition elems (h : heap) (a off len : nat) : list cell := take len (drop off (array h a)).

Definition new_map (m : gmap string cell) (h : heap) : nat * heap :=
  (h_next h, MkHeap (<[h_next h := m]> (h_maps h)) (h_arrays h) (S (h_next h))).
Definition new_array (l : list cell) (h : heap) : nat * heap :=
  (h_next h, MkHeap (h_maps h) (<[h_next h := l]> (h_arrays h)) (S (h_next h))).
Definition put (l : nat) (k : string) (c : cell) (h : heap) : heap :=
  MkHeap (<[l := <[k := c]> (obj h l)]> (h_maps h)) (h_arrays h) (h_next h).
Definition put_elem (a i : nat) (c : cell) (h : heap) : heap :=
  MkHeap (h_maps h) (<[a := <[i := c]> (array h a)]> (h_arrays h)) (h_next h).

(** The capacity of the array a list moves to when it runs over its own. *)
Class SliceGrowth := { grow : nat → nat → nat }.
Class GrowthLaws `{SliceGrowth} := { grow_enough old needed : needed ≤ grow old needed }.

Definition doubling : SliceGrowth := {| grow old needed := if decide (2 * old < needed) then needed else 2 * old |}.
Lemma doubling_laws : @GrowthLaws doubling.
Proof. split. intros old needed. cbn [grow doubling]. case_decide; lia. Qed.

Section growth.
Context `{SliceGrowth}.

(** [append(list, items...)]: in place while the array has room. *)
Fixpoint write_items (a i : nat) (items : list cell) (h : heap) : heap :=
  match items with [] => h | c :: items => write_items a (S i) items (put_elem a i c h) end.

Definition append (a off len : nat) (items : list cell) (h : heap) : cell * heap :=
  let cap := length (array h a) - off in
  let needed := len + length items in
  if decide (needed ≤ cap) then (CList a off needed, write_items a (off + len) items h)
  else
    let l := elems h a off len ++ items in
    let '(a, h) := new_array (l ++ replicate (grow cap needed - needed) CNil) h in
    (CList a 0 needed, h).

Definition new_list (l : list cell) (h : heap) : cell * heap :=
  let '(a, h) := new_array l h in (CList a 0 (length l), h).

(** Putting a tree of values on the heap, each container once; a list that was
    decoded has the array that appending its items one by one leaves. *)
Fixpoint cap_after (n : nat) : nat :=
  match n with O => 0 | S n' => let cap := cap_after n' in if decide (S n' ≤ cap) then cap else grow cap (S n') end.

Fixpoint alloc_items (fs : list (heap → cell * heap)) (h : heap) : list cell * heap :=
  match fs with
  | [] => ([], h)
  | f :: fs => let '(c, h) := f h in let '(cs, h) := alloc_items fs h in (c :: cs, h)
  end.

Fixpoint alloc (v : val) : heap → cell * heap :=
  match v with
  | VMap TAny m =>
      let fs := alloc <$> m in
      λ h, let '(cs, h) := alloc_items (map_to_list fs).*2 h in
           let '(l, h) := new_map (list_to_map (zip (map_to_list fs).*1 cs)) h in (CMap l, h)
  | VSlice TAny l =>
      let fs := alloc <$> l in
      λ h, let '(cs, h) := alloc_items fs h in
           let '(a, h) := new_array (cs ++ replicate (cap_after (length cs) - length cs) CNil) h in (CList a 0 (length cs), h)
  | v => λ h, (CVal v, h)
  end.
End growth.

(** The value a cell denotes.  [None]: nested deeper than [fuel]; a value that
    contains itself is that for every [fuel], and printing it overflows the stack. *)
Fixpoint value_of (fuel : nat) (h : heap) (c : cell) : option val :=
  match c with
  | CVal v => Some v
  | CMap l => match fuel with O => None | S fuel' => VMap TAny <$> sequence_map (value_of fuel' h <$> obj h l) end
  | CList a off len =>
      match fuel with O => None | S fuel' => VSlice TAny <$> sequence (value_of fuel' h <$> elems h a off len) end
  end.

(** Without cycles a value is nested no deeper than there are objects. *)
Definition value (h : heap) (c : cell) : option val := value_of (S (h_next h)) h c.

(** ** Variables (state.go) *)

(** [fmt.Sscanf(s, "%d", &n)]: what is read, if anything is. *)
Definition skip_spaces (s : string) : string := trim_left_runes (λ r, IsSpace r && negb (r =? 10)%Z) 0 s.
Definition scan_int (s : string) : option Z :=
  let s := skip_spaces s in
  let neg := starts_with 45 s in
  let '(n, k, _) := digits 0 0 (if neg || starts_with 43 s then tl s else s) in
  let z := if neg then (- n)%Z else n in
  if decide (k ≠ 0 ∧ in_int64 z) then Some z else None.

Definition nth_cell (l : list cell) (i : Z) : cell :=
  if decide (0 ≤ i)%Z then default CNil (l !! Z.to_nat i) else CNil.

(** [step] on what [json.Unmarshal] gives; a string may hold JSON again. *)
Fixpoint step_val (fuel : nat) (cur : val) (key : string) : val :=
  match cur with
  | VMap TAny m => default VNil (m !! key)
  | VSlice TAny l =>
      match scan_int key with
      | Some i => if decide (0 ≤ i)%Z then default VNil (l !! Z.to_nat i) else VNil
      | None => VNil
      end
  | VStr s =>
      match fuel with
      | O => VNil
      | S fuel' => match unmarshal s with Some v => step_val fuel' v key | None => VNil end
      end
  | _ => VNil
  end.

Definition step_fuel (s : string) : nat := S (String.length s).

Section canvas.
Context `{SliceGrowth}.

Definition step (h : heap) (cur : cell) (key : string) : cell * heap :=
  match cur with
  | CMap l => (default CNil (obj h l !! key), h)
  | CList a off len =>
      (match scan_int key with Some i => nth_cell (elems h a off len) i | None => CNil end, h)
  | CVal (VStr s) => alloc (step_val (step_fuel s) (VStr s) key) h
  | CVal _ => (CNil, h)
  end.

Fixpoint walk (h : heap) (cur : cell) (parts : list string) : cell * heap :=
  match parts with
  | [] => (cur, h)
  | p :: parts => match step h cur p with (CVal VNil, h) => (CNil, h) | (c, h) => walk h c parts end
  end.

Definition dotTraverse (h : heap) (root : cell) (path : string) : cell * heap :=
  if decide (path = "") then (root, h) else walk h root (split_on "."%char path).

Record CanvasState := MkState {
  cs_heap : heap; cs_outputs : gmap string nat; cs_sys : nat; cs_env : nat; cs_globals : nat;
  cs_path : list string; cs_history : list (gmap string val); cs_active : Z; cs_memory : list (gmap string val);
  cs_retrieval : gmap string val; cs_cancel : bool; cs_run : string; cs_session : string
}.

Definition with_heap (h : heap) (s : CanvasState) : CanvasState :=
  MkState h (cs_outputs s) (cs_sys s) (cs_env s) (cs_globals s) (cs_path s) (cs_history s) (cs_active s) (cs_memory s)
          (cs_retrieval s) (cs_cancel s) (cs_run s) (cs_session s).
Definition with_outputs (o : gmap string nat) (s : CanvasState) : CanvasState :=
  MkState (cs_heap s) o (cs_sys s) (cs_env s) (cs_globals s) (cs_path s) (cs_history s) (cs_active s) (cs_memory s)
          (cs_retrieval s) (cs_cancel s) (cs_run s) (cs_session s).
Definition with_history (l : list (gmap string val)) (active : Z) (s : CanvasState) : CanvasState :=
  MkState (cs_heap s) (cs_outputs s) (cs_sys s) (cs_env s) (cs_globals s) (cs_path s) l active (cs_memory s)
          (cs_retrieval s) (cs_cancel s) (cs_run s) (cs_session s).
Definition with_memory (l : list (gmap string val)) (s : CanvasState) : CanvasState :=
  MkState (cs_heap s) (cs_outputs s) (cs_sys s) (cs_env s) (cs_globals s) (cs_path s) (cs_history s) (cs_active s) l
          (cs_retrieval s) (cs_cancel s) (cs_run s) (cs_session s).
Definition with_retrieval (r : gmap string val) (s : CanvasState) : CanvasState :=
  MkState (cs_heap s) (cs_outputs s) (cs_sys s) (cs_env s) (cs_globals s) (cs_path s) (cs_history s) (cs_active s) (cs_memory s)
          r (cs_cancel s) (cs_run s) (cs_session s).

(** Writing an entry of one of the maps of the state. *)
Definition put_entry (l : nat) (k : string) (c : cell) (s : CanvasState) : CanvasState := with_heap (put l k c (cs_heap s)) s.

(** *** Reading *)
Inductive ref_error := EmptyReference | InvalidReference (ref : string) | UnresolvedReference (ref : string).

Definition sys_prefix (ref : string) : bool := is_prefix "sys." ref.
Definition env_prefix (ref : string) : bool := is_prefix "env." ref.

(** The component and the path of a reference: what is before and after the first "@". *)
Definition split_ref (ref : string) : option (string * string) :=
  (λ i, (str_take i ref, str_drop (S i) ref)) <$> Index "@" ref.

Definition getVarLocked (s : CanvasState) (ref : string) : result ref_error cell * heap :=
  let h := cs_heap s in
  let found r := let '(c, h) := r : cell * heap in (Ok c, h) in
  if decide (ref = "item") then (Ok (default CNil (obj h (cs_globals s) !! "__item__")), h)
  else if decide (ref = "index") then (Ok (default CNil (obj h (cs_globals s) !! "__index__")), h)
  else if sys_prefix ref then found (dotTraverse h (CMap (cs_sys s)) (str_drop 4 ref))
  else if env_prefix ref then found (dotTraverse h (CMap (cs_env s)) (str_drop 4 ref))
  else
    match split_ref ref with
    | Some (cpnID, path) =>
        match cs_outputs s !! cpnID with
        | None => (Ok CNil, h)
        | Some l => found (dotTraverse h (CMap l) path)
        end
    | None => (Err (InvalidReference ref), h)
    end.

(** What is parsed on the way stays on the heap of the result. *)
Definition GetVar (s : CanvasState) (ref : string) : result ref_error cell * CanvasState :=
  if decide (ref = "") then (Err EmptyReference, s)
  else let '(r, h) := getVarLocked s ref in (r, with_heap h s).

Fixpoint ReadVars (refs : list string) (s : CanvasState) : result ref_error (gmap string cell) * CanvasState :=
  match refs with
  | [] => (Ok ∅, s)
  | ref :: refs =>
      match getVarLocked s ref with
      | (Err err, h) => (Err err, with_heap h s)
      | (Ok c, h) =>
          match ReadVars refs (with_heap h s) with
          | (Ok m, s) => (Ok (if decide (ref ∈ refs) then m else <[ref := c]> m), s)
          | (Err err, s) => (Err err, s)
          end
      end
  end.

(** *** Writing

    [None]: the program panics with an assignment to an entry of a nil map. *)
Fixpoint set_parts (h : heap) (cur : nat) (parts : list string) (v : cell) : option heap :=
  match parts with
  | [] => Some h
  | [p] => Some (put cur p v h)
  | p :: parts =>
      match obj h cur !! p with
      | Some (CMap l) => set_parts h l parts v
      | Some (CVal (VTypedNil (TMap TAny))) => None
      | _ => let '(l, h) := new_map ∅ h in set_parts (put cur p (CMap l) h) l parts v
      end
  end.

(** The outputs of a component, made if there are none. *)
Definition bucket (cpnID : string) (s : CanvasState) : nat * CanvasState :=
  match cs_outputs s !! cpnID with
  | Some l => (l, s)
  | None => let '(l, h) := new_map ∅ (cs_heap s) in (l, with_outputs (<[cpnID := l]> (cs_outputs s)) (with_heap h s))
  end.

Definition SetVar (cpnID param : string) (v : cell) (s : CanvasState) : option CanvasState :=
  let '(l, s) := bucket cpnID s in
  (λ h, with_heap h s) <$> set_parts (cs_heap s) l (split_on "."%char param) v.

Definition RecordOutput (cpnID buck : string) (payload : cell) (s : CanvasState) : CanvasState :=
  if decide (cpnID = "") then s else let '(l, s) := bucket cpnID s in put_entry l buck payload s.

Definition GetGlobal (key : string) (s : CanvasState) : option cell := obj (cs_heap s) (cs_globals s) !! key.
Definition SetGlobal (key : string) (c : cell) (s : CanvasState) : CanvasState := put_entry (cs_globals s) key c s.

(** Shallow copies, each a new map. *)
Definition Snapshot (s : CanvasState) : gmap string (gmap string cell) := obj (cs_heap s) <$> cs_outputs s.
Definition SnapshotNamespaces (s : CanvasState) : gmap string cell * gmap string cell * gmap string cell :=
  (obj (cs_heap s) (cs_sys s), obj (cs_heap s) (cs_env s), obj (cs_heap s) (cs_globals s)).
End canvas.

(** ** The date and the counters of sys *)
Section namespaces.
Context `{GoRuntime} `{SliceGrowth}.

(** [fmt.Sprint] of what a cell holds; [None] is a stack overflow. *)
Definition sprint (h : heap) (c : cell) : option string := fmt_v <$> value h c.

(** [today] is the current time in the layout of the wire format. *)
Definition EnsureSysDate (today : string) (s : CanvasState) : option CanvasState :=
  match obj (cs_heap s) (cs_sys s) !! "date" with
  | None => Some (put_entry (cs_sys s) "date" (CVal (VStr today)) s)
  | Some c =>
      t ← sprint (cs_heap s) c;
      Some (if decide (trim_space t = "") then put_entry (cs_sys s) "date" (CVal (VStr today)) s else s)
  end.

Definition NewCanvasState (runID sessionID today : string) : option CanvasState :=
  let '(sys, h) := new_map ∅ empty_heap in
  let '(env, h) := new_map ∅ h in
  let '(globals, h) := new_map ∅ h in
  EnsureSysDate today (MkState h ∅ sys env globals [] [] (-1) [] ∅ false runID sessionID).

(** The next number of turns: integers keep their width and wrap around. *)
Definition wrap32 (z : Z) : Z := ((z + 2 ^ 31) mod 2 ^ 32 - 2 ^ 31)%Z.
Definition next_turn (v : option cell) : val :=
  match v with
  | Some (CVal (VInt z)) => VInt (int_add z 1)
  | Some (CVal (VNum Int32 z)) => VNum Int32 (wrap32 (z + 1))
  | Some (CVal (VNum Int64 z)) => VNum Int64 (int_add z 1)
  | Some (CVal (VFloat32 f)) => VFloat32 (SFadd 24 128 f (binary_normalize 24 128 1 0 false))
  | Some (CVal (VFloat f)) => VFloat (float_add f (float_of_int 1))
  | _ => VInt 1
  end.
Definition IncrementConversationTurns (s : CanvasState) : CanvasState :=
  put_entry (cs_sys s) "conversation_turns" (CVal (next_turn (obj (cs_heap s) (cs_sys s) !! "conversation_turns"))) s.

(** sys.history as a list of its own; values that are no list count as none. *)
Definition history_items (h : heap) (c : option cell) : list cell :=
  match c with
  | Some (CList a off len) => elems h a off len
  | Some (CVal (VSlice TString l)) => CVal <$> l
  | _ => []
  end.
Definition set_sys_list (l : list cell) (s : CanvasState) : CanvasState :=
  let '(c, h) := new_list l (cs_heap s) in put_entry (cs_sys s) "history" c (with_heap h s).
Definition AppendSysHistory (entry : string) (s : CanvasState) : CanvasState :=
  set_sys_list (history_items (cs_heap s) (obj (cs_heap s) (cs_sys s) !! "history") ++ [CVal (VStr entry)]) s.
Definition SetSysHistory (history : list cell) (s : CanvasState) : CanvasState := set_sys_list history s.
Definition SnapshotSysHistory (s : CanvasState) : list cell :=
  history_items (cs_heap s) (obj (cs_heap s) (cs_sys s) !! "history").

(** ** Conversations

    What goes into the history and comes out of it is cloned, so its turns are plain
    values.  [clone] is [cloneJSONValue]. *)
Fixpoint clone (v : val) : val :=
  match v with
  | VPtr v => clone v
  | VMap _ m => VObj (clone <$> m)
  | VSlice _ l => VList (clone <$> l)
  | VBytes s => VList ((λ a, VNum Uint8 (Z.of_nat (nat_of_ascii a))) <$> String.list_ascii_of_string s)
  | VStruct _ _ => match marshal v ≫= unmarshal with Some w => w | None => v end
  | VTypedNil (TPtr _) => VNil
  | VTypedNil (TMap _) => VTypedNil (TMap TAny)
  | VTypedNil (TSlice _) => VTypedNil (TSlice TAny)
  | _ => v
  end.
Definition clone_turn (m : gmap string val) : gmap string val := clone <$> m.

Definition historyContent (payload : val) : string :=
  match payload with
  | VNil => ""
  | VStr s => s
  | VMap TAny m => match m !! "content" with Some (VStr s) => s | _ => "" end
  | VTypedNil (TMap TAny) => ""
  | v => fmt_v v
  end.

Definition turn (role : string) (payload : val) : gmap string val :=
  {["role" := VStr role; "content" := VStr (historyContent payload); "payload" := payload]}.
Definition appendHistory (role : string) (payload : val) (s : CanvasState) : Z * CanvasState :=
  (Z.of_nat (length (cs_history s)), with_history (cs_history s ++ [turn role (clone payload)]) (cs_active s) s).
Definition AppendHistory (role : string) (payload : val) (s : CanvasState) : CanvasState :=
  if decide (role = "") then s
  else let s := (appendHistory role payload s).2 in with_history (cs_history s) (-1) s.
Definition AppendCurrentUser (payload : val) (s : CanvasState) : CanvasState :=
  let '(i, s) := appendHistory "user" payload s in with_history (cs_history s) i s.
Definition SetHistory (history : list (gmap string val)) (s : CanvasState) : CanvasState :=
  with_history (clone_turn <$> history) (-1) s.
Definition SnapshotHistory (s : CanvasState) : list (gmap string val) := clone_turn <$> cs_history s.
Definition SnapshotPriorHistory (s : CanvasState) : list (gmap string val) :=
  let history := clone_turn <$> cs_history s in
  if decide (0 ≤ cs_active s ∧ cs_active s = Z.of_nat (length history) - 1)%Z
  then take (Z.to_nat (cs_active s)) history else history.

Definition SetMemory (memory : list (gmap string val)) (s : CanvasState) : CanvasState := with_memory (clone_turn <$> memory) s.
Definition AppendMemory (user assistant summary : string) (s : CanvasState) : CanvasState :=
  if decide (summary = "") then s
  else with_memory (cs_memory s ++ [{["user" := VStr user; "assistant" := VStr assistant; "summary" := VStr summary]}]) s.
Definition SnapshotMemory (s : CanvasState) : list (gmap string val) := clone_turn <$> cs_memory s.

(** ** References of a retrieval *)
Definition objects (l : list val) : list (gmap string val) := omap as_map l.

Definition GetRetrievalChunks (s : CanvasState) : option (list (gmap string val)) :=
  match cs_retrieval s !! "chunks" with Some (VSlice TAny l) => Some (objects l) | _ => None end.

Definition copyRetrievalList (v : option val) : list val :=
  match v with
  | Some (VSlice TAny l) => l
  | Some (VSlice (TMap TAny) l) => l
  | _ => []
  end.
Definition copyRetrievalDocAggs (v : option val) : list val :=
  match v with
  | Some (VMap TAny m) => (λ k, map_get m k) <$> sort_strings (map_to_list m).*1
  | v => copyRetrievalList v
  end.
Definition GetRetrievalReference (s : CanvasState) : option (gmap string val) :=
  let chunks := copyRetrievalList (cs_retrieval s !! "chunks") in
  let docAggs := copyRetrievalDocAggs (cs_retrieval s !! "doc_aggs") in
  if decide (length chunks = 0 ∧ length docAggs = 0) then None
  else Some {["chunks" := VList chunks; "doc_aggs" := VList docAggs; "total" := VInt (Z.of_nat (length chunks))]}.

Definition SetRetrievalChunks (chunks : list (gmap string val)) (s : CanvasState) : CanvasState :=
  with_retrieval (<["chunks" := VList ((λ m, VObj m) <$> chunks)]> (cs_retrieval s)) s.

Definition retrievalReferenceID (chunk : gmap string val) : option string :=
  match chunk !! "id" with
  | None | Some VNil => None
  | Some v => if decide (fmt_v v = "") then None else Some (fmt_v v)
  end.

(** The loop over new chunks: those whose identifier was seen are skipped. *)
Fixpoint add_chunks (seen : gset string) (chunks : list (gmap string val)) : list val :=
  match chunks with
  | [] => []
  | c :: chunks =>
      match retrievalReferenceID c with
      | Some id => if decide (id ∈ seen) then add_chunks seen chunks else VObj c :: add_chunks ({[id]} ∪ seen) chunks
      | None => VObj c :: add_chunks seen chunks
      end
  end.

(** The first aggregate of a document stays. *)
Fixpoint add_aggs (aggs : list (gmap string val)) (m : gmap string val) : gmap string val :=
  match aggs with
  | [] => m
  | a :: aggs =>
      let name := default "" (as_string (map_get a "doc_name")) in
      add_aggs aggs (if decide (name = "") then m else match m !! name with Some _ => m | None => <[name := VObj a]> m end)
  end.

Definition SetRetrievalReferences (chunks docAggs : list (gmap string val)) (s : CanvasState) : CanvasState :=
  let old := match cs_retrieval s !! "chunks" with Some (VSlice TAny l) => l | _ => [] end in
  let seen := list_to_set (omap retrievalReferenceID (objects old)) : gset string in
  let aggs := match cs_retrieval s !! "doc_aggs" with Some (VMap TAny m) => m | _ => ∅ end in
  with_retrieval (<["doc_aggs" := VObj (add_aggs docAggs aggs)]>
                   (<["chunks" := VList (old ++ add_chunks seen chunks)]> (cs_retrieval s))) s.

Definition GetRetrievalDocAggs (s : CanvasState) : option (gmap string (gmap string val)) :=
  match cs_retrieval s !! "doc_aggs" with Some (VMap TAny m) => Some (omap as_map m) | _ => None end.
End namespaces.

(** ** Templates (template.go)

    [match_ref s] is the match of VarRefPattern at the start of [s]: the reference
    and the rest of the text.  No repetition of the pattern can give way to what
    follows it, so each takes all it can. *)
Fixpoint span (p : ascii → bool) (s : string) : string * string :=
  match s with
  | String a s' => if p a then let '(t, r) := span p s' in (String a t, r) else ("", s)
  | EmptyString => ("", "")
  end.

Definition is_letter (a : ascii) : bool := bool_decide (65 ≤ ch a ≤ 90) || bool_decide (97 ≤ ch a ≤ 122).
Definition is_alnum (a : ascii) : bool := is_letter a || is_digit a.
Definition id_char (a : ascii) : bool := is_alnum a || bool_decide (ch a = 58) || bool_decide (ch a = 95).
Definition name_char (a : ascii) : bool := is_alnum a || bool_decide (ch a = 95) || bool_decide (ch a = 46).
Definition param_char (a : ascii) : bool := name_char a || bool_decide (ch a = 45).
Definition blank_char (a : ascii) : bool := bool_decide (ch a ∈ [9; 10; 12; 13; 32]).
Definition open_brace (a : ascii) : bool := bool_decide (ch a = 123).
Definition close_brace (a : ascii) : bool := bool_decide (ch a = 125).

(** The alternatives of the pattern. *)
Definition match_output (s : string) : option (string * string) :=
  let '(id, r) := span id_char s in
  if negb (starts_with 64 r) then None
  else let '(param, r) := span param_char (tl r) in
       if decide (id = "" ∨ param = "") then None else Some (id +:+ "@" +:+ param, r).
Definition match_space (prefix : string) (s : string) : option (string * string) :=
  if is_prefix prefix s then
    let '(name, r) := span name_char (str_drop (String.length prefix) s) in
    if decide (name = "") then None else Some (prefix +:+ name, r)
  else None.
Definition match_word (w : string) (s : string) : option (string * string) :=
  if is_prefix w s then Some (w, str_drop (String.length w) s) else None.

(** What must follow the reference. *)
Definition closing (r : string * string) : option (string * string) :=
  let '(braces, rest) := span close_brace (span blank_char r.2).2 in
  if decide (braces = "") then None else Some (r.1, rest).

Fixpoint first_match (ms : list (string → option (string * string))) (s : string) : option (string * string) :=
  match ms with
  | [] => None
  | m :: ms => match m s ≫= closing with Some r => Some r | None => first_match ms s end
  end.

Definition match_ref (s : string) : option (string * string) :=
  let '(braces, r) := span open_brace s in
  if decide (braces = "") then None
  else first_match [match_output; match_space "sys."; match_space "env."; match_word "item"; match_word "index"]
         (span blank_char r).2.

(** The text cut into its references and the characters around them. *)
Inductive segment := Lit (a : ascii) | Ref (ref : string).

Fixpoint segments (skip : nat) (s : string) : list segment :=
  match s with
  | EmptyString => []
  | String a s' =>
      match skip with
      | S skip' => segments skip' s'
      | O => match match_ref s with
             | Some (ref, rest) => Ref ref :: segments (String.length s' - String.length rest) s'
             | None => Lit a :: segments 0 s'
             end
      end
  end.

Definition refs (s : string) : list string := omap (λ g, match g with Ref r => Some r | Lit _ => None end) (segments 0 s).
Definition has_refs (s : string) : bool := bool_decide (refs s ≠ []).

(** First occurrences, in order. *)
Fixpoint first_occurrences (seen : gset string) (l : list string) : list string :=
  match l with
  | [] => []
  | r :: l => if decide (r ∈ seen) then first_occurrences seen l else r :: first_occurrences ({[r]} ∪ seen) l
  end.
Definition ExtractRefs (s : string) : list string := first_occurrences ∅ (refs s).

Section templates.
Context `{GoRuntime} `{SliceGrowth}.

(** The replacement of one reference: text, error, state. *)
Definition resolve_ref (ref : string) (s : CanvasState) : option (string * option ref_error * CanvasState) :=
  match GetVar s ref with
  | (Err err, s) => Some ("", Some err, s)
  | (Ok (CVal VNil), s) => Some ("", Some (UnresolvedReference ref), s)
  | (Ok c, s) => t ← sprint (cs_heap s) c; Some (t, None, s)
  end.

Definition or_first (a b : option ref_error) : option ref_error := match a with Some e => Some e | None => b end.

Fixpoint resolve_segments (gs : list segment) (s : CanvasState) : option (string * option ref_error * CanvasState) :=
  match gs with
  | [] => Some ("", None, s)
  | Lit a :: gs => '(t, e, s) ← resolve_segments gs s; Some (String a t, e, s)
  | Ref ref :: gs =>
      '(t, e, s) ← resolve_ref ref s;
      '(t', e', s) ← resolve_segments gs s;
      Some (t +:+ t', or_first e e', s)
  end.

(** [ResolveTemplate]: the text, which is also returned with an error. *)
Definition ResolveTemplate (t : string) (s : CanvasState) : option (string * option ref_error * CanvasState) :=
  if has_refs t then resolve_segments (segments 0 t) s else Some (t, None, s).

(** An encoder that leaves <, > and & alone. *)
Fixpoint unescape_html (s : string) : string :=
  match s with
  | EmptyString => ""
  | String a s' =>
      if decide (ch a ≠ 92) then String a (unescape_html s')
      else
        match s' with
        | String b s2 =>
            match s2 with
            | String c (String d (String e (String f r))) =>
                match str_take 5 s' with
                | "u003c" => "<" +:+ unescape_html r
                | "u003e" => ">" +:+ unescape_html r
                | "u0026" => "&" +:+ unescape_html r
                | _ => String a (String b (unescape_html s2))
                end
            | _ => s
            end
        | EmptyString => s
        end
  end.

Definition stringifyDisplayValue (v : val) : string :=
  match v with
  | VStr s => s
  | v => match marshal v with Some t => unescape_html t | None => fmt_v v end
  end.

(** Missing and erroneous references are left out. *)
Fixpoint display_segments (gs : list segment) (s : CanvasState) : option (string * CanvasState) :=
  match gs with
  | [] => Some ("", s)
  | Lit a :: gs => '(t, s) ← display_segments gs s; Some (String a t, s)
  | Ref ref :: gs =>
      '(t, s) ← match GetVar s ref with
                | (Ok (CVal VNil), s) | (Err _, s) => Some ("", s)
                | (Ok c, s) => v ← value (cs_heap s) c; Some (stringifyDisplayValue v, s)
                end;
      '(t', s) ← display_segments gs s;
      Some (t +:+ t', s)
  end.

Definition ResolveTemplateForDisplay (t : string) (s : CanvasState) : option (string * CanvasState) :=
  if has_refs t then display_segments (segments 0 t) s else Some (t, s).
End templates.
