(* ===== verification/CanvasProps.v ===== *)
(** * What the state of a canvas guarantees

    A variable that was set is read back and no value from which the written map
    cannot be reached changes, as long as no value contains itself; templates made
    of texts and references are read back as such; the conversation before the
    current question; chunks of a retrieval are referenced once.  Examples show
    where sharing and self-containment break what components expect. *)
From Stdlib Require Import Ascii.
From S2P Require Import Prelude Values Format Json JsonText JsonLaw.
From S2P Require Export Canvas.

(** ** Reading JSON inside strings ends *)
Fixpoint ascii_count (s : string) : nat :=
  match s with EmptyString => 0 | String a s' => (if decide (ch a < 128) then 1 else 0) + ascii_count s' end.

Lemma ascii_count_app s t : ascii_count (s +:+ t) = ascii_count s + ascii_count t.
Proof. induction s as [|a s IH]; [done|]. rewrite app_String. cbn. lia. Qed.

Lemma ascii_count_length s : ascii_count s ≤ String.length s.
Proof. induction s as [|a s IH]; [done|]. cbn. case_decide; lia. Qed.

Lemma rune_len_bad a s : rune_len (String a s) = 0 → 128 ≤ ch a.
Proof.
  unfold rune_len, between. intros H. destruct (decide (128 ≤ ch a)); [done|].
  replace ((0 <=? byte_of a) && (byte_of a <=? 127))%Z with true in H; [done|].
  rewrite byte_of_ch. symmetry. apply andb_true_iff. rewrite !Z.leb_le. lia.
Qed.

Lemma sanitize_count k s : ascii_count (sanitize_from k s) = ascii_count s.
Proof.
  revert k. induction s as [|a s IH]; intros k; [done|]. cbn [sanitize_from]. destruct k as [|k]; [|cbn; by rewrite IH].
  destruct (rune_len (String a s)) as [|n] eqn:E; [|cbn; by rewrite IH].
  apply rune_len_bad in E. rewrite ascii_count_app, IH. change (ascii_count replacement) with 0.
  cbn [ascii_count]. rewrite decide_False by lia. done.
Qed.

Lemma skip_ws_count s : ascii_count (skip_ws s) ≤ ascii_count s.
Proof. induction s as [|a s IH]; [done|]. cbn. case_decide; [lia|]. cbn. lia. Qed.

Lemma hex_value_ascii a z : hex_value a = Some z → ch a < 128.
Proof. unfold hex_value. repeat case_decide; try done; lia. Qed.

Lemma hex4_count a b c d z s :
  hex4 a b c d = Some z → ascii_count (String a (String b (String c (String d s)))) = 4 + ascii_count s.
Proof.
  unfold hex4. destruct (hex_value a) eqn:Ea, (hex_value b) eqn:Eb, (hex_value c) eqn:Ec, (hex_value d) eqn:Ed; try done.
  intros _. apply hex_value_ascii in Ea, Eb, Ec, Ed. cbn. rewrite !decide_True by done. lia.
Qed.

Lemma utf8_count z : ascii_count (utf8 z) ≤ 4.
Proof. etrans; [apply ascii_count_length|]. unfold utf8. repeat case_match; rewrite ?length_app_String; cbn; lia. Qed.

(** A string literal has more ASCII characters than the string it stands for. *)
Lemma parse_chars_count fuel s t r : parse_chars fuel s = Some (t, r) → S (ascii_count t + ascii_count r) ≤ ascii_count s.
Proof.
  revert s t r. induction fuel as [|fuel IH]; intros s t r H; [done|]. cbn [parse_chars] in H. destruct s as [|a s']; [done|].
  assert (∀ u r0 c, (match parse_chars fuel r0 with Some (rest, r') => Some (u +:+ rest, r') | None => None end) = Some (t, r) →
            ascii_count u ≤ c → S (ascii_count t + ascii_count r) ≤ c + ascii_count r0) as Hmore.
  { intros u r0 c Hm Hu. destruct (parse_chars fuel r0) as [[rest r']|] eqn:E; [|done]. injection Hm as <- <-.
    apply IH in E. rewrite ascii_count_app. lia. }
  destruct (decide (ch a = 34)) as [Ha|Ha]; [injection H as <- <-; cbn; rewrite decide_True; lia|].
  destruct (decide (ch a < 32)); [done|]. destruct (decide (ch a ≠ 92)) as [_|Hb].
  { apply (Hmore _ _ (if decide (ch a < 128) then 1 else 0)) in H; [cbn; lia|]. cbn. lia. }
  destruct s' as [|e r0]; [done|]. assert (ascii_count (String a (String e r0)) ≥ 1 + ascii_count r0) as Hc
    by (cbn; rewrite (decide_True (P := ch a < 128)) by lia; lia).
  destruct (decide (ch e ≠ 117)) as [_|He].
  { destruct (simple_escape e) as [x|] eqn:Ee; [|done]. apply (Hmore _ _ 1) in H; [lia|]. cbn. case_decide; lia. }
  destruct r0 as [|h1 [|h2 [|h3 [|h4 r1]]]]; try done. destruct (hex4 h1 h2 h3 h4) as [hi|] eqn:Eh; [|done].
  apply (hex4_count _ _ _ _ _ r1) in Eh.
  assert (∀ z, match parse_chars fuel r1 with Some (rest, r') => Some (utf8 z +:+ rest, r') | None => None end = Some (t, r) →
            S (ascii_count t + ascii_count r) ≤ ascii_count (String a (String e (String h1 (String h2 (String h3 (String h4 r1)))))))
    as Hone by (intros z Hz; apply (Hmore _ _ 4) in Hz; [lia|apply utf8_count]).
  destruct r1 as [|b [|u [|l1 [|l2 [|l3 [|l4 r2]]]]]]; try by eapply Hone.
  destruct (hex4 l1 l2 l3 l4) as [lo|] eqn:El; [|by eapply Hone]. case_decide as Hd; [|by eapply Hone].
  apply (hex4_count _ _ _ _ _ r2) in El. apply (Hmore _ _ 4) in H; [|apply utf8_count].
  assert (ascii_count (String b (String u (String l1 (String l2 (String l3 (String l4 r2)))))) ≥ 4 + ascii_count r2)
    by (cbn [ascii_count] in *; lia). lia.
Qed.

Lemma parse_items_list fuel first acc s v r : parse_items fuel first acc s = Some (v, r) → ∃ l, v = VList l.
Proof.
  revert first acc s. induction fuel as [|fuel IH]; intros first acc s H; [done|]. cbn [parse_items] in H.
  destruct (first && _); [injection H as <- _; by eexists|]. destruct (parse_value fuel s) as [[w r']|]; [|done].
  destruct (starts_with 44 _); [by eapply IH|]. destruct (starts_with 93 _); [|done]. injection H as <- _. by eexists.
Qed.

Lemma parse_members_map fuel first acc s v r : parse_members fuel first acc s = Some (v, r) → ∃ m, v = VObj m.
Proof.
  revert first acc s. induction fuel as [|fuel IH]; intros first acc s H; [done|]. cbn [parse_members] in H.
  destruct (first && _); [injection H as <- _; by eexists|]. destruct (negb _); [done|].
  destruct (parse_chars _ _) as [[k r0]|]; [|done]. destruct (negb _); [done|].
  destruct (parse_value fuel _) as [[w r']|]; [|done]. destruct (starts_with 44 _); [by eapply IH|].
  destruct (starts_with 125 _); [|done]. injection H as <- _. by eexists.
Qed.

Lemma unmarshal_count s t : unmarshal s = Some (VStr t) → S (ascii_count t) ≤ ascii_count s.
Proof.
  unfold unmarshal. replace (2 * S (String.length s)) with (S (S (2 * String.length s))) by lia. intros H.
  assert (∃ r, parse_value (S (S (2 * String.length s))) s = Some (VStr t, r)) as [r Hp].
  { destruct (parse_value _ s) as [[v r]|]; [|done]. case_decide; [|done]. injection H as ->. by exists r. }
  clear H. cbn [parse_value] in Hp. pose proof (skip_ws_count s) as Hw. set (s' := skip_ws s) in *. clearbody s'.
  destruct (starts_with 34 s') eqn:Eq.
  - destruct (parse_chars _ _) as [[t' r']|] eqn:E; [|done]. injection Hp as <- <-. apply parse_chars_count in E.
    unfold sanitize. rewrite sanitize_count. destruct s' as [|a s']; [done|]. cbn in *. lia.
  - exfalso. destruct (starts_with 91 s'); [by apply parse_items_list in Hp as [l ?]|].
    destruct (starts_with 123 s'); [by apply parse_members_map in Hp as [m ?]|].
    repeat case_match; congruence.
Qed.

(** Once a string cannot hold more strings, more fuel changes nothing. *)
Lemma step_val_enough v key f f' :
  (∀ s, v = VStr s → ascii_count s < f ∧ ascii_count s < f') → step_val f v key = step_val f' v key.
Proof.
  revert v f'. induction f as [|f IH]; intros v f' Hf.
  { destruct v, f'; try done. destruct (Hf s eq_refl) as [? _]; lia. }
  destruct f' as [|f']; [destruct v; try done; destruct (Hf s eq_refl) as [_ ?]; lia|].
  destruct v as [| | | | | |s| | | | | | |]; try done. cbn. destruct (unmarshal s) as [w|] eqn:E; [|done].
  apply IH. intros t ->. apply unmarshal_count in E. destruct (Hf s eq_refl). lia.
Qed.

(** Looking into a string that holds JSON, however often it is quoted, ends with
    the answer: no fuel above [step_fuel] gives another. *)
Lemma step_string_ends s key f : String.length s < f → step_val f (VStr s) key = step_val (step_fuel s) (VStr s) key.
Proof.
  intros Hf. apply step_val_enough. intros t [= <-]. pose proof (ascii_count_length s). unfold step_fuel. lia.
Qed.

(** ** Writing a variable *)

(** One object refers to another. *)
Definition refers (h : heap) (a b : nat) : Prop :=
  (∃ k, obj h a !! k = Some (CMap b)) ∨ (∃ k off len, obj h a !! k = Some (CList b off len)) ∨
  CMap b ∈ array h a ∨ ∃ off len, CList b off len ∈ array h a.
Definition map_refers (h : heap) (a b : nat) : Prop := ∃ k, obj h a !! k = Some (CMap b).

(** No map contains itself, and every reference is to an object there is. *)
Record sound (h : heap) : Prop := {
  sound_acyclic a b : map_refers h a b → ¬ rtc (map_refers h) b a;
  sound_closed a b : refers h a b → b < h_next h;
  sound_fresh m : h_next h ≤ m → h_maps h !! m = None ∧ h_arrays h !! m = None
}.

Lemma obj_put l k c h m : obj (put l k c h) m = if decide (m = l) then <[k := c]> (obj h l) else obj h m.
Proof.
  unfold obj, put. cbn. case_decide as E; [subst; by rewrite lookup_insert_eq|by rewrite lookup_insert_ne].
Qed.

Lemma obj_new_map h m : obj (new_map ∅ h).2 m = if decide (m = h_next h) then ∅ else obj h m.
Proof.
  unfold obj, new_map. cbn. case_decide as E; [subst; by rewrite lookup_insert_eq|by rewrite lookup_insert_ne].
Qed.

(** The heap after a new map was linked into [cur]. *)
Definition linked (h : heap) (cur : nat) (p : string) : heap := put cur p (CMap (h_next h)) (new_map ∅ h).2.

Lemma obj_linked h cur p m :
  cur < h_next h →
  obj (linked h cur p) m =
    if decide (m = cur) then <[p := CMap (h_next h)]> (obj h cur) else if decide (m = h_next h) then ∅ else obj h m.
Proof.
  intros Hc. unfold linked. rewrite obj_put, !obj_new_map. repeat case_decide; subst; done || lia.
Qed.

Lemma obj_new_map_same h m : sound h → obj (new_map ∅ h).2 m = obj h m.
Proof.
  intros [_ _ Hf]. rewrite obj_new_map. case_decide as E; [|done]. subst. unfold obj. by rewrite (proj1 (Hf _ (le_n _))).
Qed.

Lemma new_map_refers h a b : sound h → map_refers (new_map ∅ h).2 a b ↔ map_refers h a b.
Proof. intros Hs. unfold map_refers. by setoid_rewrite obj_new_map_same. Qed.

Lemma new_map_paths h a b : sound h → rtc (map_refers (new_map ∅ h).2) a b → rtc (map_refers h) a b.
Proof. intros Hs. apply (rtc_congruence id). intros x y. by apply new_map_refers. Qed.

Lemma sound_new_map h : sound h → sound (new_map ∅ h).2.
Proof.
  intros Hs. pose proof (λ a, obj_new_map_same h a Hs) as Ho. pose proof Hs as [Ha Hcl Hf]. split.
  - intros a b Hab Hr. apply (Ha a b); [by apply (new_map_refers h)|].
    by apply new_map_paths.
  - intros a b Hr. cbn. assert (refers h a b) as Hr'; [|apply Hcl in Hr'; lia].
    unfold refers in *. by rewrite Ho in Hr.
  - intros m Hm. cbn in *. rewrite lookup_insert_ne by lia. apply Hf. lia.
Qed.

Definition in_heap (h : heap) (c : cell) : Prop :=
  match c with CVal _ => True | CMap l => l < h_next h | CList a _ _ => a < h_next h end.

Lemma put_entries h l p c x k d : obj (put l p c h) x !! k = Some d → obj h x !! k = Some d ∨ x = l ∧ c = d.
Proof.
  rewrite obj_put. case_decide as E; [subst|by left]. intros [[_ ->]|[_ Hk]]%lookup_insert_Some; [by right|by left].
Qed.

(** A path after a write was there before or uses the written reference. *)
Lemma put_path h l p c x y :
  rtc (map_refers (put l p c h)) x y → rtc (map_refers h) x y ∨ ∃ b, c = CMap b ∧ rtc (map_refers h) x l ∧ rtc (map_refers h) b y.
Proof.
  induction 1 as [x|x z y [k Hk] _ IH]; [by left; constructor|]. apply put_entries in Hk as [Hk|[-> ->]].
  - assert (map_refers h x z) by (by exists k). destruct IH as [?|(b & ? & ? & ?)]; [left|right; exists b; split_and!; [done| |done]]; by eapply rtc_l.
  - right. exists z. split_and!; [done|constructor|]. by destruct IH as [?|(b & [= <-] & ? & ?)].
Qed.

Lemma sound_put h l p c :
  sound h → l < h_next h → in_heap h c → (∀ b, c = CMap b → ¬ rtc (map_refers h) b l) → sound (put l p c h).
Proof.
  intros [Ha Hcl Hf] Hl Hc Hb. split.
  - intros x y [k Hk] Hr. apply put_path in Hr. apply put_entries in Hk as [Hk|[-> ->]].
    + assert (map_refers h x y) by (by exists k). destruct Hr as [Hr|(b & -> & H1 & H2)]; [by apply (Ha x y)|]. apply (Hb b eq_refl). etrans; [|exact H1].
      etrans; [exact H2|]. by apply rtc_once.
    + apply (Hb y eq_refl). by destruct Hr as [Hr|(b & [= <-] & _ & Hr)].
  - intros x y Hr. change (h_next (put l p c h)) with (h_next h).
    destruct Hr as [[k Hk]|[(k & off & len & Hk)|Harr]]; [..|by apply (Hcl x); right; right].
    + apply put_entries in Hk as [Hk|[-> ->]]; [apply (Hcl x); left; by exists k|done].
    + apply put_entries in Hk as [Hk|[-> ->]]; [apply (Hcl x); right; left; by exists k, off, len|done].
  - intros m Hm. cbn in *. rewrite lookup_insert_ne by lia. by apply Hf.
Qed.

Lemma sound_linked h cur p : sound h → cur < h_next h → sound (linked h cur p).
Proof.
  intros Hs Hc. apply sound_put; [by apply sound_new_map|cbn; lia|cbn; lia|]. intros b Eb Hr. injection Eb as Eb. subst b.
  apply rtc_inv in Hr as [E|(z & [k Hk] & _)]; [lia|]. by rewrite obj_new_map, decide_True in Hk.
Qed.

(** The map a write ends in, if it is there before. *)
Fixpoint target (h : heap) (cur : nat) (parts : list string) : nat :=
  match parts with
  | [] | [_] => cur
  | p :: parts => match obj h cur !! p with Some (CMap l) => target h l parts | _ => cur end
  end.

Lemma target_reached h cur parts : rtc (map_refers h) cur (target h cur parts).
Proof.
  revert cur. induction parts as [|p parts IH]; intros cur; [constructor|]. cbn. destruct parts as [|q parts]; [constructor|].
  destruct (obj h cur !! p) as [[v|l|a off len]|] eqn:E; try constructor.
  eapply rtc_l; [by exists p|apply IH].
Qed.

Lemma target_linked h cur p parts : cur < h_next h → target (linked h cur p) (h_next h) parts = h_next h.
Proof.
  intros Hc. destruct parts as [|q [|r parts]]; [done..|]. cbn [target]. rewrite obj_linked, decide_False, decide_True by lia. done.
Qed.

(** Only the target changes among the objects there are. *)
Lemma set_parts_frame h cur parts v h' :
  sound h → cur < h_next h → set_parts h cur parts v = Some h' →
  h_arrays h' = h_arrays h ∧ h_next h ≤ h_next h' ∧
  ∀ m, m < h_next h → m ≠ target h cur parts → h_maps h' !! m = h_maps h !! m.
Proof.
  revert h cur. induction parts as [|p parts IH]; intros h cur Hs Hc H; [by injection H as <-|].
  cbn [set_parts target] in *. destruct parts as [|q parts].
  { injection H as <-. cbn. split_and!; [done|done|]. intros m _ Hm. by rewrite lookup_insert_ne. }
  assert (∀ l, obj h cur !! p = Some (CMap l) → set_parts h l (q :: parts) v = Some h' →
    h_arrays h' = h_arrays h ∧ h_next h ≤ h_next h' ∧
    (∀ m, m < h_next h → m ≠ target h l (q :: parts) → h_maps h' !! m = h_maps h !! m)) as Hold.
  { intros l El Hl. apply IH; [done| |done]. apply (sound_closed h Hs cur). left. by exists p. }
  assert (set_parts (linked h cur p) (h_next h) (q :: parts) v = Some h' →
    h_arrays h' = h_arrays h ∧ h_next h ≤ h_next h' ∧
    (∀ m, m < h_next h → m ≠ cur → h_maps h' !! m = h_maps h !! m)) as Hnew.
  { intros Hl. destruct (IH (linked h cur p) (h_next h)) as (E1 & E2 & E3); [by apply sound_linked|cbn; lia|done|].
    cbn [linked put new_map snd h_next h_arrays] in *. split_and!; [done|lia|]. intros m Hm Hne. rewrite E3; [|lia|].
    - cbn. by rewrite !lookup_insert_ne by lia.
    - rewrite target_linked by done. lia. }
  destruct (obj h cur !! p) as [[w|l|a off len]|] eqn:E; [..|by apply Hnew].
  - destruct w; try by apply Hnew. destruct t; try by apply Hnew. by destruct t; try by apply Hnew.
  - by apply Hold.
  - by apply Hnew.
Qed.

(** What is written is found again along the same path. *)
Lemma set_parts_walk `{SliceGrowth} h cur parts v h' :
  sound h → cur < h_next h → parts ≠ [] → set_parts h cur parts v = Some h' → walk h' (CMap cur) parts = (v, h').
Proof.
  revert h cur. induction parts as [|p parts IH]; intros h cur Hs Hc Hne Hset; [done|]. clear Hne.
  assert (∀ c, obj h' cur !! p = Some c →
    walk h' (CMap cur) (p :: parts) = match c with CVal VNil => (CNil, h') | c => walk h' c parts end) as Hstep.
  { intros c Hp. cbn. rewrite Hp. cbn. by destruct c as [[]| |]. }
  cbn [set_parts] in Hset. destruct parts as [|q parts].
  { injection Hset as <-. rewrite (Hstep v); [by destruct v as [[]| |]|]. by rewrite obj_put, decide_True, lookup_insert_eq. }
  assert (∀ l, obj h cur !! p = Some (CMap l) → set_parts h l (q :: parts) v = Some h' → obj h' cur !! p = Some (CMap l) ∧
            walk h' (CMap l) (q :: parts) = (v, h')) as Hold.
  { intros l El Hl. assert (l < h_next h) as Hln by (apply (sound_closed h Hs cur); left; by exists p).
    split; [|by apply (IH h)]. destruct (set_parts_frame h l (q :: parts) v h' Hs Hln Hl) as (_ & _ & Hfr).
    unfold obj in *. rewrite Hfr; [done|done|]. intros Ht. apply (sound_acyclic h Hs cur l); [by exists p|].
    rewrite Ht. apply target_reached. }
  assert (set_parts (linked h cur p) (h_next h) (q :: parts) v = Some h' → obj h' cur !! p = Some (CMap (h_next h)) ∧
            walk h' (CMap (h_next h)) (q :: parts) = (v, h')) as Hnew.
  { intros Hl. assert (sound (linked h cur p)) as Hs' by by apply sound_linked. split; [|apply (IH (linked h cur p)); [done|cbn; lia|done|done]].
    destruct (set_parts_frame (linked h cur p) (h_next h) (q :: parts) v h' Hs' ltac:(cbn; lia) Hl) as (_ & _ & Hfr).
    assert (obj h' cur = obj (linked h cur p) cur) as ->; [|by rewrite obj_linked, decide_True, lookup_insert_eq].
    unfold obj. rewrite Hfr; [done|cbn; lia|].
    rewrite target_linked by done. lia. }
  destruct (obj h cur !! p) as [[w|l|a off len]|] eqn:E.
  - assert (set_parts (linked h cur p) (h_next h) (q :: parts) v = Some h') as Hl
      by (destruct w; try done; destruct t; try done; by destruct t).
    destruct (Hnew Hl) as [H1 H2]. by rewrite (Hstep _ H1).
  - destruct (Hold l eq_refl Hset) as [H1 H2]. by rewrite (Hstep _ H1).
  - destruct (Hnew Hset) as [H1 H2]. by rewrite (Hstep _ H1).
  - destruct (Hnew Hset) as [H1 H2]. by rewrite (Hstep _ H1).
Qed.

(** A new map is reached from no other. *)
Lemma linked_path h cur p b :
  sound h → b < h_next h → rtc (map_refers (linked h cur p)) b (h_next h) → rtc (map_refers h) b cur.
Proof.
  intros Hs Hb [Hr|(b' & _ & Hr & _)]%put_path; [|by apply new_map_paths]. apply new_map_paths in Hr; [|done].
  apply rtc_inv_r in Hr as [E|(x & _ & Hx)]; [lia|]. assert (h_next h < h_next h); [|lia].
  apply (sound_closed h Hs x). by left.
Qed.

(** Writing keeps the heap sound unless the written map can be reached from what is written. *)
Lemma set_parts_sound h cur parts v h' :
  sound h → cur < h_next h → in_heap h v → (∀ b, v = CMap b → ¬ rtc (map_refers h) b (target h cur parts)) →
  set_parts h cur parts v = Some h' → sound h'.
Proof.
  revert h cur. induction parts as [|p parts IH]; intros h cur Hs Hc Hv Hb H; [by injection H as <-|].
  cbn [set_parts target] in *. destruct parts as [|q parts]; [injection H as <-; by apply sound_put|].
  assert ((∀ b, v = CMap b → ¬ rtc (map_refers h) b cur) → set_parts (linked h cur p) (h_next h) (q :: parts) v = Some h' → sound h') as Hnew.
  { intros Hbc. apply IH; [by apply sound_linked|cbn; lia|by destruct v; cbn in *; lia|].
    rewrite target_linked by done.
    intros b -> Hr. by apply (Hbc b eq_refl), (linked_path h cur p). }
  destruct (obj h cur !! p) as [[w|l|a off len]|] eqn:E; [|..|by apply Hnew|by apply Hnew].
  - specialize (Hnew Hb). destruct w; try by apply Hnew. destruct t; try by apply Hnew. by destruct t; try by apply Hnew.
  - apply (IH h l); [done| |done..]. apply (sound_closed h Hs cur). left. by exists p.
Qed.

(** What a value is made of. *)
Definition reaches (h : heap) (c : cell) (m : nat) : Prop :=
  match c with CVal _ => False | CMap l => rtc (refers h) l m | CList a _ _ => rtc (refers h) a m end.

Lemma reaches_child h l c m :
  (∃ k, obj h l !! k = Some c) ∨ c ∈ array h l → reaches h c m → rtc (refers h) l m.
Proof.
  intros Hc Hm. destruct c as [v|b|b off len]; [done| |]; cbn in Hm; (eapply rtc_l; [|exact Hm]); unfold refers;
    destruct Hc as [[k Hk]|Hk]; eauto 6.
Qed.

Lemma value_of_frame n h h' c :
  (∀ m, reaches h c m → h_maps h' !! m = h_maps h !! m ∧ h_arrays h' !! m = h_arrays h !! m) →
  value_of n h' c = value_of n h c.
Proof.
  revert c. induction n as [|n IH]; intros c Hm; [done|]. destruct c as [v|l|a off len]; cbn; [done| |].
  - assert (obj h' l = obj h l) as -> by (unfold obj; by rewrite (proj1 (Hm l (rtc_refl _ _)))). do 2 f_equal.
    apply map_fmap_ext. intros k c Hk. apply IH. intros m Hr. apply Hm. eapply reaches_child; [by left; exists k|done].
  - assert (elems h' a off len = elems h a off len) as -> by (unfold elems, array; by rewrite (proj2 (Hm a (rtc_refl _ _)))). do 2 f_equal.
    apply list_fmap_ext. intros i c Hi. apply IH. intros m Hr. apply Hm. eapply reaches_child; [right|done].
    apply lookup_take_Some in Hi as [Hi _]. rewrite lookup_drop in Hi. by eapply list_elem_of_lookup_2.
Qed.

Lemma reaches_below h c m : sound h → in_heap h c → reaches h c m → m < h_next h.
Proof.
  intros Hs Hc Hm. destruct c as [w|b|b off len]; cbn in *; [done| |].
  all: induction Hm as [b|b b' m Hb' Hm IH]; [done|apply IH; by eapply sound_closed].
Qed.

Record sound_state (s : CanvasState) : Prop := {
  state_sound : sound (cs_heap s);
  state_outputs k l : cs_outputs s !! k = Some l → l < h_next (cs_heap s)
}.

(** A component's name as references carry it. *)
Definition plain_ref (cpnID param : string) : Prop :=
  split_ref (cpnID +:+ "@" +:+ param) = Some (cpnID, param) ∧ sys_prefix (cpnID +:+ "@" +:+ param) = false ∧
  env_prefix (cpnID +:+ "@" +:+ param) = false.

(** The map [SetVar] writes to, if there is one before. *)
Definition written_map (cpnID param : string) (s : CanvasState) : option nat :=
  (λ l, target (cs_heap s) l (split_on "."%char param)) <$> cs_outputs s !! cpnID.

Lemma bucket_spec cpnID s l s1 :
  sound_state s → bucket cpnID s = (l, s1) →
  sound_state s1 ∧ (∀ a b, map_refers (cs_heap s1) a b → map_refers (cs_heap s) a b) ∧ l < h_next (cs_heap s1) ∧ cs_outputs s1 !! cpnID = Some l ∧ h_next (cs_heap s) ≤ h_next (cs_heap s1) ∧
  h_arrays (cs_heap s1) = h_arrays (cs_heap s) ∧
  (∀ m, m < h_next (cs_heap s) → h_maps (cs_heap s1) !! m = h_maps (cs_heap s) !! m) ∧
  match cs_outputs s !! cpnID with Some l' => l' = l ∧ s1 = s | None => l = h_next (cs_heap s) end.
Proof.
  intros [Hs Ho]. unfold bucket. destruct (cs_outputs s !! cpnID) as [l'|] eqn:E; intros [= <- <-].
  - split_and!; try done. by eapply Ho.
  - cbn. split_and!; [|intros a b; by apply (new_map_refers (cs_heap s))|lia|by rewrite lookup_insert_eq|lia|done| |done].
    + split; [by apply (sound_new_map (cs_heap s))|]. cbn. intros k l [[_ <-]|[_ Hk]]%lookup_insert_Some; [lia|].
      apply Ho in Hk. lia.
    + intros m Hm. by rewrite lookup_insert_ne by lia.
Qed.

(** What [SetVar] does; the property below states it. *)
Lemma SetVar_holds `{SliceGrowth} s cpnID param v s' :
  sound_state s → plain_ref cpnID param → param ≠ "" → SetVar cpnID param v s = Some s' →
  GetVar s' (cpnID +:+ "@" +:+ param) = (Ok v, s') ∧
  (∀ n c, in_heap (cs_heap s) c → (∀ m, written_map cpnID param s = Some m → ¬ reaches (cs_heap s) c m) →
    value_of n (cs_heap s') c = value_of n (cs_heap s) c) ∧
  (in_heap (cs_heap s) v →
   (∀ b m, v = CMap b → written_map cpnID param s = Some m → ¬ rtc (map_refers (cs_heap s)) b m) → sound_state s').
Proof.
  intros Hs (Hsplit & Hsys & Henv) Hne. unfold SetVar. destruct (bucket cpnID s) as [l s1] eqn:Hb.
  destruct (bucket_spec _ _ _ _ Hs Hb) as (Hss & Hrefs & Hl & Ho & Hnext & Harr & Hmaps & Hold).
  pose proof (state_sound _ Hss) as Hs1. intros (h' & Hset & ->)%fmap_Some. pose proof (split_on_nonempty "."%char param) as Hparts.
  destruct (set_parts_frame _ _ _ _ _ Hs1 Hl Hset) as (Ha & Hn & Hfr).
  assert (written_map cpnID param s = None → target (cs_heap s1) l (split_on "."%char param) = h_next (cs_heap s)) as Hnone.
  { unfold written_map. destruct (cs_outputs s !! cpnID) as [l'|] eqn:E; [done|]. subst l. intros _.
    assert (obj (cs_heap s1) (h_next (cs_heap s)) = ∅) as Hemp.
    { unfold bucket in Hb. rewrite E in Hb. injection Hb as <-. unfold obj. cbn. by rewrite lookup_insert_eq. }
    destruct (split_on "."%char param) as [|p [|q ps]]; [done|done|]. cbn. by rewrite Hemp. }
  assert (∀ m, written_map cpnID param s = Some m → target (cs_heap s1) l (split_on "."%char param) = m ∧ s1 = s) as Hsome.
  { unfold written_map. intros m. destruct (cs_outputs s !! cpnID) as [l'|]; [|done]. destruct Hold as [-> ->]. by intros [= <-]. }
  split_and!.
  - unfold GetVar. rewrite decide_False by (intros E; rewrite E in Hsplit; by vm_compute in Hsplit).
    unfold getVarLocked. rewrite !decide_False by (intros E; rewrite E in Hsplit; by vm_compute in Hsplit).
    rewrite Hsys, Henv, Hsplit. cbn [cs_outputs with_heap]. rewrite Ho. unfold dotTraverse. rewrite decide_False by done.
    cbn [cs_heap with_heap]. by rewrite (set_parts_walk _ _ _ _ _ Hs1 Hl Hparts Hset).
  - intros n c Hc Hnr. cbn [cs_heap with_heap].
    apply value_of_frame. intros m Hm. split; [|by rewrite Ha, Harr].
    assert (m < h_next (cs_heap s)) as Hmn by (eapply reaches_below; [apply Hs|done..]).
    rewrite Hfr; [by apply Hmaps|lia|]. destruct (written_map cpnID param s) as [m'|] eqn:E.
    + destruct (Hsome _ eq_refl) as [-> _]. intros ->. by eapply Hnr.
    + rewrite Hnone by done. lia.
  - intros Hv Hnr. split; cbn [cs_heap cs_outputs with_heap].
    + eapply set_parts_sound, Hset; [done|done|by destruct v; cbn in *; lia|]. intros b ->.
      destruct (written_map cpnID param s) as [m'|] eqn:E; [destruct (Hsome _ eq_refl) as [-> ->]; by eapply Hnr|].
      rewrite Hnone by done. intros [Eb|(x & _ & Hx)]%rtc_inv_r; [cbn in Hv; lia|].
      assert (h_next (cs_heap s) < h_next (cs_heap s)); [|lia]. apply (sound_closed _ (state_sound _ Hs) x). left. by apply Hrefs.
    + intros k m Hk. apply (state_outputs _ Hss) in Hk. lia.
Qed.

(** C27: A variable that was set is read back; every value from which the written map
    cannot be reached stays what it was; and the maps stay free of cycles unless
    the written map can be reached from what was written. *)
Theorem SetVar_spec `{SliceGrowth} s cpnID param v s' :
  sound_state s → plain_ref cpnID param → param ≠ "" → SetVar cpnID param v s = Some s' →
  GetVar s' (cpnID +:+ "@" +:+ param) = (Ok v, s') ∧
  (∀ n c, in_heap (cs_heap s) c → (∀ m, written_map cpnID param s = Some m → ¬ reaches (cs_heap s) c m) →
    value_of n (cs_heap s') c = value_of n (cs_heap s) c) ∧
  (in_heap (cs_heap s) v →
   (∀ b m, v = CMap b → written_map cpnID param s = Some m → ¬ rtc (map_refers (cs_heap s)) b m) → sound_state s').
Proof. apply SetVar_holds. Qed.

(** ** Templates

    A template as a writer means it: texts without braces and references. *)
Inductive piece := Text (t : string) | Reference (ref : string).
Definition render_piece (p : piece) : string := match p with Text t => t | Reference r => "{{" +:+ r +:+ "}}" end.
Definition render (ps : list piece) : string := foldr (λ p t, render_piece p +:+ t) "" ps.

(** The references of the pattern. *)
Definition all_chars (p : ascii → bool) (s : string) : Prop := forallb p (String.list_ascii_of_string s) = true ∧ s ≠ "".
Inductive valid_ref : string → Prop :=
| ref_output id param : all_chars id_char id → all_chars param_char param → valid_ref (id +:+ "@" +:+ param)
| ref_sys name : all_chars name_char name → valid_ref ("sys." +:+ name)
| ref_env name : all_chars name_char name → valid_ref ("env." +:+ name)
| ref_item : valid_ref "item"
| ref_index : valid_ref "index".

Definition no_brace (t : string) : Prop := forallb (λ a, negb (open_brace a) && negb (close_brace a)) (String.list_ascii_of_string t) = true.
Definition piece_ok (p : piece) : Prop := match p with Text t => no_brace t | Reference r => valid_ref r end.

Definition pieces_of (p : piece) : list segment :=
  match p with Text t => Lit <$> String.list_ascii_of_string t | Reference r => [Ref r] end.

Lemma span_all p s a r :
  forallb p (String.list_ascii_of_string s) = true → p a = false → span p (s +:+ String a r) = (s, String a r).
Proof.
  intros Hs Ha. induction s as [|b s IH].
  - rewrite app_Empty. cbn [span]. by rewrite Ha.
  - rewrite app_String. cbn in Hs |- *. apply andb_true_iff in Hs as [-> Hs]. by rewrite (IH Hs).
Qed.

Lemma span_end p s : starts_with 125 s = false → (∀ a, p a = true → ch a = 125) → span p s = ("", s).
Proof.
  intros Hs Hp. destruct s as [|a s]; [done|]. cbn in *. destruct (p a) eqn:E; [|done]. apply Hp in E.
  by rewrite E in Hs.
Qed.

Lemma span_cons p a s : p a = true → span p (String a s) = (String a (span p s).1, (span p s).2).
Proof. intros Ha. cbn [span]. rewrite Ha. by destruct (span p s). Qed.

Lemma span_stop p a s : p a = false → span p (String a s) = ("", String a s).
Proof. intros Ha. cbn [span]. by rewrite Ha. Qed.

Lemma str_drop_app p r : str_drop (String.length p) (p +:+ r) = r.
Proof. induction p as [|a p IH]; [by rewrite app_Empty, str_drop_0|]. by rewrite app_String. Qed.

Lemma closing_braces r rest : starts_with 125 rest = false → closing (r, "}}" +:+ rest) = Some (r, rest).
Proof.
  intros Hr. unfold closing. cbn [fst snd]. rewrite !app_String, app_Empty, span_stop by done. cbn [snd].
  rewrite !span_cons, (span_end close_brace rest Hr) by (done || intros a Ha; by apply bool_decide_eq_true in Ha).
  cbn [fst snd]. by rewrite decide_False.
Qed.

Lemma match_output_eq id param rest :
  all_chars id_char id → all_chars param_char param →
  match_output ((id +:+ "@" +:+ param) +:+ "}}" +:+ rest) = Some (id +:+ "@" +:+ param, "}}" +:+ rest).
Proof.
  intros [Hi Hi'] [Hp Hp']. unfold match_output. rewrite <-!(assoc_L String.append).
  change ("@" +:+ (param +:+ "}}" +:+ rest)) with (String "@" (param +:+ String "}" (String "}" rest))).
  rewrite span_all by done. cbn [starts_with negb tl]. rewrite !app_String, app_Empty, span_all by done.
  rewrite decide_False by naive_solver. done.
Qed.

Lemma match_space_eq prefix name rest :
  all_chars name_char name → match_space prefix ((prefix +:+ name) +:+ "}}" +:+ rest) = Some (prefix +:+ name, "}}" +:+ rest).
Proof.
  intros [Hn Hn']. unfold match_space. rewrite <-!(assoc_L String.append).
  unfold is_prefix. rewrite prefix_app, str_drop_app. rewrite !app_String, app_Empty, span_all by done.
  by rewrite decide_False.
Qed.

Lemma match_word_eq w rest : match_word w (w +:+ rest) = Some (w, rest).
Proof. unfold match_word, is_prefix. by rewrite prefix_app, str_drop_app. Qed.

Lemma match_ref_eq r rest : valid_ref r → starts_with 125 rest = false → match_ref ("{{" +:+ r +:+ "}}" +:+ rest) = Some (r, rest).
Proof.
  intros Hr Hrest. unfold match_ref. assert (∃ a t, r = String a t ∧ open_brace a = false ∧ blank_char a = false) as (a & t & Er & Ho & Hb).
  { destruct Hr as [id param [Hi Hi'] _| | | |]; [|by do 2 eexists..]. destruct id as [|a id]; [done|].
    exists a, (id +:+ "@" +:+ param). split; [done|]. cbn in Hi. apply andb_true_iff in Hi as [Hi _].
    unfold id_char, is_alnum, is_letter, is_digit, open_brace, blank_char in *. rewrite !orb_true_iff, !bool_decide_eq_true in Hi.
    rewrite !bool_decide_eq_false. set_solver by lia. }
  rewrite (app_String "{" "{"), (app_String "{" ""), app_Empty. cbn [span open_brace].
  change (open_brace "{") with true. cbn iota. rewrite Er, app_String at 1. rewrite (span_stop open_brace) by done. cbn [snd]. rewrite span_stop by done. cbn [snd].
  rewrite decide_False by done. rewrite <-app_String, <-Er. clear Er Ho Hb a t. cbn [first_match].
  destruct Hr as [id param Hi Hp|name Hn|name Hn| |].
  - rewrite match_output_eq by done. cbn [mbind option_bind]. by rewrite closing_braces.
  - rewrite (match_space_eq "sys.") by done. cbn [mbind option_bind]. rewrite closing_braces by done. by rewrite !app_String.
  - rewrite (match_space_eq "env.") by done. cbn [mbind option_bind]. rewrite closing_braces by done. by rewrite !app_String.
  - rewrite (match_word_eq "item"). cbn [mbind option_bind]. rewrite closing_braces by done. by rewrite !app_String, !app_Empty.
  - rewrite (match_word_eq "index"). cbn [mbind option_bind]. rewrite closing_braces by done. by rewrite !app_String, !app_Empty.
Qed.

Lemma match_ref_text a s : open_brace a = false → match_ref (String a s) = None.
Proof. intros Ha. unfold match_ref. by rewrite span_stop. Qed.

Lemma segments_skip t rest : segments (String.length t) (t +:+ rest) = segments 0 rest.
Proof. induction t as [|a t IH]; [by rewrite app_Empty|]. by rewrite app_String. Qed.

Lemma segments_text t rest : no_brace t → segments 0 (t +:+ rest) = (Lit <$> String.list_ascii_of_string t) ++ segments 0 rest.
Proof.
  unfold no_brace. induction t as [|a t IH]; intros Ht; [by rewrite app_Empty|]. cbn in Ht.
  apply andb_true_iff in Ht as [Ha Ht]. apply andb_true_iff in Ha as [Ha _]. apply negb_true_iff in Ha.
  rewrite app_String. cbn [segments]. rewrite match_ref_text by done. by rewrite IH.
Qed.

Lemma segments_ref r rest : valid_ref r → starts_with 125 rest = false → segments 0 (("{{" +:+ r +:+ "}}") +:+ rest) = Ref r :: segments 0 rest.
Proof.
  intros Hr Hrest. pose proof (match_ref_eq r rest Hr Hrest) as Hm. set (t := String "{" (r +:+ "}}")).
  assert ("{{" +:+ r +:+ "}}" +:+ rest = String "{" (t +:+ rest)) as E
    by (unfold t; by rewrite !app_String, <-(assoc_L String.append), !app_String, app_Empty).
  rewrite <-!(assoc_L String.append), E in *. cbn [segments]. rewrite Hm. f_equal.
  rewrite length_app_String. replace (_ + _ - _) with (String.length t) by lia. apply segments_skip.
Qed.

Lemma render_start ps : Forall piece_ok ps → starts_with 125 (render ps) = false.
Proof.
  induction 1 as [|p ps Hp _ IH]; [done|]. cbn [render foldr]. destruct p as [t|r]; [|done].
  destruct t as [|a t]; [done|]. unfold piece_ok, no_brace in Hp. cbn [String.list_ascii_of_string forallb] in Hp.
  apply andb_true_iff in Hp as [[_ Hp]%andb_true_iff _]. cbn [render_piece]. rewrite app_String. by apply negb_true_iff in Hp.
Qed.

(** A rendered template is cut into the pieces it was made of. *)
Lemma segments_render ps : Forall piece_ok ps → segments 0 (render ps) = ps ≫= pieces_of.
Proof.
  induction 1 as [|p ps Hp Hps IH]; [done|]. cbn [render foldr]. change (foldr _ "" ps) with (render ps).
  destruct p as [t|r]; cbn [render_piece].
  - rewrite segments_text by done. by rewrite IH.
  - rewrite segments_ref by (done || by apply render_start). by rewrite IH.
Qed.

(** What a template stands for: each text as it is, each reference as its value; the
    first reference without one is the error. *)
Fixpoint fill `{GoRuntime} `{SliceGrowth} (ps : list piece) (s : CanvasState) : option (string * option ref_error * CanvasState) :=
  match ps with
  | [] => Some ("", None, s)
  | Text t :: ps => '(t', e, s) ← fill ps s; Some (t +:+ t', e, s)
  | Reference ref :: ps =>
      '(t, e, s) ← resolve_ref ref s;
      '(t', e', s) ← fill ps s;
      Some (t +:+ t', or_first e e', s)
  end.

Definition references (ps : list piece) : list string :=
  omap (λ p, match p with Reference r => Some r | Text _ => None end) ps.

Lemma refs_pieces ps : omap (λ g, match g with Ref r => Some r | Lit _ => None end) (ps ≫= pieces_of) = references ps.
Proof.
  induction ps as [|[t|r] ps IH]; [done| |]; unfold references in *; cbn [mbind list_bind pieces_of]; rewrite omap_app, IH; [|done].
  assert (omap (λ g, match g with Ref r => Some r | Lit _ => None end) (Lit <$> String.list_ascii_of_string t) = []) as ->; [|done].
  by induction (String.list_ascii_of_string t).
Qed.

Lemma first_occurrences_elem seen l r : r ∈ first_occurrences seen l ↔ r ∈ l ∧ r ∉ seen.
Proof.
  revert seen. induction l as [|x l IH]; intros seen; cbn; [set_solver|]. case_decide; [rewrite IH; set_solver|].
  rewrite !elem_of_cons, IH. destruct (decide (r = x)); set_solver.
Qed.

Lemma first_occurrences_nodup seen l : NoDup (first_occurrences seen l).
Proof.
  revert seen. induction l as [|x l IH]; intros seen; cbn; [constructor|]. case_decide; [done|]. constructor; [|done].
  rewrite first_occurrences_elem. set_solver.
Qed.

Lemma first_occurrences_sublist seen l : first_occurrences seen l `sublist_of` l.
Proof. revert seen. induction l as [|x l IH]; intros seen; cbn; [constructor|]. case_decide; constructor; apply IH. Qed.

Lemma fill_texts `{GoRuntime} `{SliceGrowth} ps s : references ps = [] → fill ps s = Some (render ps, None, s).
Proof. induction ps as [|[t|r] ps IH]; intros Hr; [done| |done]. cbn. by rewrite IH. Qed.

Lemma resolve_texts `{GoRuntime} `{SliceGrowth} t gs s :
  resolve_segments ((Lit <$> String.list_ascii_of_string t) ++ gs) s = '(t', e, s) ← resolve_segments gs s; Some (t +:+ t', e, s).
Proof.
  induction t as [|a t IH]; [change (_ ++ gs) with gs; by destruct (resolve_segments gs s) as [[[]]|]|].
  change (Lit <$> String.list_ascii_of_string (String a t)) with (Lit a :: (Lit <$> String.list_ascii_of_string t)).
  cbn [app resolve_segments]. rewrite IH. by destruct (resolve_segments gs s) as [[[]]|].
Qed.

Lemma resolve_pieces `{GoRuntime} `{SliceGrowth} ps s : resolve_segments (ps ≫= pieces_of) s = fill ps s.
Proof.
  revert s. induction ps as [|[t|r] ps IH]; intros s; [done| |]; cbn [mbind list_bind pieces_of fill].
  - rewrite resolve_texts. by rewrite IH.
  - cbn [app resolve_segments]. destruct (resolve_ref r s) as [[[t e] s1]|]; [|done]. cbn. by rewrite IH.
Qed.


(** ** The conversation *)

(** While the question of the user is the current turn, the prior history is the
    history before it, and the whole history ends with the question; once something
    else has been said the prior history is the whole history again. *)
Theorem current_user_turn `{GoRuntime} `{SliceGrowth} payload s :
  SnapshotPriorHistory (AppendCurrentUser payload s) = SnapshotHistory s ∧
  SnapshotHistory (AppendCurrentUser payload s) = SnapshotHistory s ++ [clone_turn (turn "user" (clone payload))] ∧
  ∀ role answer s', s' = AppendHistory role answer (AppendCurrentUser payload s) → role ≠ "" →
    SnapshotPriorHistory s' = SnapshotHistory s' ∧
    SnapshotHistory s' = SnapshotHistory (AppendCurrentUser payload s) ++ [clone_turn (turn role (clone answer))].
Proof.
  unfold SnapshotPriorHistory, SnapshotHistory, AppendHistory, AppendCurrentUser, appendHistory.
  cbn [cs_history cs_active with_history snd]. rewrite !fmap_app, length_app, !length_fmap. cbn [length].
  split_and!; [|done|].
  - rewrite decide_True by lia. rewrite Nat2Z.id, take_app_length'; [done|by rewrite length_fmap].
  - intros role answer s' -> Hrole. rewrite (decide_False (P := role = "")) by done. cbn [cs_history cs_active with_history].
    rewrite decide_False by lia. by rewrite !fmap_app.
Qed.

(** ** References *)
Definition chunk_ids `{GoRuntime} (l : list val) : list string := omap retrievalReferenceID (objects l).
Definition old_chunks (s : CanvasState) : list val :=
  match cs_retrieval s !! "chunks" with Some (VSlice TAny l) => l | _ => [] end.
Definition old_aggs (s : CanvasState) : gmap string val :=
  match cs_retrieval s !! "doc_aggs" with Some (VMap TAny m) => m | _ => ∅ end.

Lemma chunk_ids_cons `{GoRuntime} c l :
  chunk_ids (VObj c :: l) = match retrievalReferenceID c with Some id => id :: chunk_ids l | None => chunk_ids l end.
Proof. done. Qed.

Lemma add_chunks_ids `{GoRuntime} seen cs :
  NoDup (chunk_ids (add_chunks seen cs)) ∧
  (∀ i, i ∈ chunk_ids (add_chunks seen cs) ↔ i ∈ omap retrievalReferenceID cs ∧ i ∉ seen) ∧
  add_chunks seen cs `sublist_of` ((λ m, VObj m) <$> cs).
Proof.
  revert seen. induction cs as [|c cs IH]; intros seen; [split_and!; [constructor|set_solver|constructor]|]. cbn [add_chunks].
  change (omap retrievalReferenceID (c :: cs)) with
    (match retrievalReferenceID c with Some id => id :: omap retrievalReferenceID cs | None => omap retrievalReferenceID cs end).
  destruct (retrievalReferenceID c) as [id|] eqn:E.
  - case_decide as Hid.
    + destruct (IH seen) as (H1 & H2 & H3). split_and!; [done| |by constructor]. intros i. rewrite H2. set_solver.
    + destruct (IH ({[id]} ∪ seen)) as (H1 & H2 & H3). rewrite chunk_ids_cons, E. split_and!; [constructor; [|done]| |by constructor].
      * rewrite H2. set_solver.
      * intros i. rewrite !elem_of_cons, H2. destruct (decide (i = id)); set_solver.
  - destruct (IH seen) as (H1 & H2 & H3). rewrite chunk_ids_cons, E. split_and!; [done|done|by constructor].
Qed.

Lemma add_aggs_lookup aggs m name :
  add_aggs aggs m !! name =
    match m !! name with
    | Some v => Some v
    | None => if decide (name = "") then None
              else (λ m, VObj m) <$> head (filter (λ a, default "" (as_string (map_get a "doc_name")) = name) aggs)
    end.
Proof.
  revert m. induction aggs as [|a aggs IH]; intros m; cbn [add_aggs].
  - destruct (m !! name); [done|]. by case_decide.
  - rewrite IH. rewrite filter_cons. set (n := default "" _). destruct (decide (n = "")) as [->|Hn].
    + destruct (m !! name); [done|]. case_decide; [done|]. by rewrite (decide_False (P := "" = name)).
    + destruct (decide (n = name)) as [->|Hne].
      * destruct (m !! name) eqn:E; rewrite ?E; [done|]. by rewrite lookup_insert_eq, decide_False.
      * assert ((match m !! n with Some _ => m | None => <[n:=VObj a]> m end) !! name = m !! name) as ->; [|done].
        destruct (m !! n); [done|]. by rewrite lookup_insert_ne.
Qed.

(** Adding references keeps what was there, in its place, adds the new chunks in
    their order but none whose identifier is there already, so every identifier is
    referenced exactly once; of the aggregates of a document the first one stays. *)
Theorem references_once `{GoRuntime} chunks docAggs s s' :
  s' = SetRetrievalReferences chunks docAggs s → NoDup (chunk_ids (old_chunks s)) →
  (∃ added, old_chunks s' = old_chunks s ++ added ∧ added `sublist_of` ((λ m, VObj m) <$> chunks)) ∧
  NoDup (chunk_ids (old_chunks s')) ∧
  (∀ i, i ∈ chunk_ids (old_chunks s') ↔ i ∈ chunk_ids (old_chunks s) ∨ i ∈ omap retrievalReferenceID chunks) ∧
  ∀ name, old_aggs s' !! name =
    match old_aggs s !! name with
    | Some v => Some v
    | None => if decide (name = "") then None
              else (λ m, VObj m) <$> head (filter (λ a, default "" (as_string (map_get a "doc_name")) = name) docAggs)
    end.
Proof.
  intros -> Hold. unfold SetRetrievalReferences. fold (old_chunks s) (old_aggs s). fold (chunk_ids (old_chunks s)).
  set (seen := list_to_set (chunk_ids (old_chunks s)) : gset string).
  destruct (add_chunks_ids seen chunks) as (H1 & H2 & H3).
  assert (old_chunks (with_retrieval (<["doc_aggs":=VObj (add_aggs docAggs (old_aggs s))]>
    (<["chunks":=VList (old_chunks s ++ add_chunks seen chunks)]> (cs_retrieval s))) s) = old_chunks s ++ add_chunks seen chunks) as ->.
  { unfold old_chunks at 1. cbn [cs_retrieval with_retrieval]. by rewrite lookup_insert_ne, lookup_insert_eq. }
  assert (∀ l1 l2, chunk_ids (l1 ++ l2) = chunk_ids l1 ++ chunk_ids l2) as Happ
    by (intros l1 l2; unfold chunk_ids, objects; by rewrite !omap_app).
  rewrite Happ. split_and!.
  - by eexists.
  - apply NoDup_app. split_and!; [done| |done]. intros i Hi. rewrite H2. unfold seen. rewrite elem_of_list_to_set. tauto.
  - intros i. rewrite elem_of_app, H2. unfold seen. rewrite elem_of_list_to_set. destruct (decide (i ∈ chunk_ids (old_chunks s))); tauto.
  - intros name. unfold old_aggs at 1. cbn [cs_retrieval with_retrieval]. rewrite lookup_insert_eq. apply add_aggs_lookup.
Qed.


(** ** Examples *)
Definition new_state : CanvasState :=
  MkState (new_map ∅ (new_map ∅ (new_map ∅ empty_heap).2).2).2 ∅ 0 1 2 [] [] (-1) [] ∅ false "" "".

Lemma new_state_sound : sound_state new_state.
Proof.
  split; [|done]. do 3 apply sound_new_map. split.
  - intros a b [k Hk]. done.
  - intros a b [[k Hk]|[(k & off & len & Hk)|[H|(off & len & H)]]]; [done|done|by apply elem_of_nil in H..].
  - done.
Qed.

Definition set (cpnID param : string) (v : cell) (s : CanvasState) : CanvasState :=
  default s (@SetVar cpnID param v s).
Definition get (ref : string) (s : CanvasState) : cell :=
  match (@GetVar doubling s ref).1 with Ok c => c | Err _ => CNil end.

Definition begun_state : CanvasState := (bucket "begin" new_state).2.
Lemma begun_state_sound : sound_state begun_state.
Proof. by apply (bucket_spec "begin" new_state _ _ new_state_sound eq_refl). Qed.

Lemma SetVar_spec_witness :
  let s' := set "begin" "result.text" (CVal (VStr "hello")) begun_state in
  @GetVar doubling s' "begin@result.text" = (Ok (CVal (VStr "hello")), s') ∧ sound_state s'.
Proof.
  intros s'. destruct (@SetVar_spec doubling begun_state "begin" "result.text" (CVal (VStr "hello")) s') as (H1 & _ & H2).
  - exact begun_state_sound.
  - split_and!; by vm_compute.
  - done.
  - by vm_compute.
  - split; [exact H1|]. apply H2; done.
Defined.


Lemma references_once_witness :
  let chunk id := {["id" := VStr id]} : gmap string val in
  let s := SetRetrievalChunks [chunk "c1"] new_state in
  @chunk_ids fixed_addresses (old_chunks (@SetRetrievalReferences fixed_addresses [chunk "c2"; chunk "c1"; chunk "c2"] [] s)) = ["c1"; "c2"] ∧
  NoDup ["c1"; "c2"].
Proof.
  intros chunk s.
  destruct (@references_once fixed_addresses [chunk "c2"; chunk "c1"; chunk "c2"] [] s _ eq_refl) as (_ & H & _).
  - assert (@chunk_ids fixed_addresses (old_chunks s) = ["c1"]) as -> by by vm_compute. apply NoDup_singleton.
  - split; [by vm_compute|]. revert H.
    assert (@chunk_ids fixed_addresses (old_chunks (@SetRetrievalReferences fixed_addresses [chunk "c2"; chunk "c1"; chunk "c2"] [] s))
      = ["c1"; "c2"]) as -> by by vm_compute. done.
Defined.

(** Assigning a variable from another shares its map: writing through one changes the other. *)
Example shared_variables :
  let s := set "a" "m.k" (CVal (VInt 1)) new_state in
  let s := set "b" "m" (get "a@m" s) s in
  get "a@m.k" (set "b" "m.k" (CVal (VInt 2)) s) = CVal (VInt 2).
Proof. by vm_compute. Qed.

(** A reference without a path is the map of all outputs of its component; stored
    among them it contains itself, and printing it does not end. *)
Definition cyclic_state : CanvasState := set "begin" "self" (get "begin@" begun_state) begun_state.
Example cyclic_value : get "begin@self" cyclic_state = CMap 3 ∧ ∀ n, value_of n (cs_heap cyclic_state) (CMap 3) = None.
Proof.
  split; [by vm_compute|]. induction n as [|n IH]; [done|]. cbn [value_of].
  assert (obj (cs_heap cyclic_state) 3 = {["self" := CMap 3]}) as -> by by vm_compute.
  by rewrite map_fmap_singleton, IH.
Qed.

Example cyclic_template : @ResolveTemplate fixed_addresses doubling "{{begin@self}}" cyclic_state = None.
Proof. by vm_compute. Qed.

(** Setting a variable with an empty path writes the entry of the empty name, which
    no reference reads. *)
Example empty_path :
  let s := set "begin" "" (CVal (VInt 1)) begun_state in
  get "begin@" s = CMap 3 ∧ obj (cs_heap s) 3 = {["" := CVal (VInt 1)]}.
Proof. by vm_compute. Qed.
