(* ===== verification/CanvasReads.v ===== *)
(** * Reading a canvas

    Reading a variable or resolving a template only adds to the heap of a canvas, what
    a string holds when it is decoded on the way: every value that was there stays. *)
From Stdlib Require Import Ascii.
From S2P Require Import Prelude Values Format Json.
From S2P Require Export CanvasProps.

(** ** Heaps that only grow *)
Definition extends (h h' : heap) : Prop :=
  h_next h ≤ h_next h' ∧
  ∀ m, m < h_next h → h_maps h' !! m = h_maps h !! m ∧ h_arrays h' !! m = h_arrays h !! m.

#[export] Instance extends_preorder : PreOrder extends.
Proof.
  split; [by intros h; split|]. intros h1 h2 h3 [L1 F1] [L2 F2]. split; [lia|]. intros m Hm.
  destruct (F1 m Hm) as [<- <-]. apply F2. lia.
Qed.

Lemma in_heap_mono h h' c : h_next h ≤ h_next h' → in_heap h c → in_heap h' c.
Proof. destruct c; cbn; lia. Qed.

Lemma extends_new_map m h : extends h (new_map m h).2.
Proof. split; [cbn; lia|]. intros x Hx. cbn. by rewrite lookup_insert_ne by lia. Qed.

Lemma extends_new_array l h : extends h (new_array l h).2.
Proof. split; [cbn; lia|]. intros x Hx. cbn. by rewrite lookup_insert_ne by lia. Qed.

(** What is there keeps its value. *)
Lemma extends_value n h h' c : sound h → extends h h' → in_heap h c → value_of n h' c = value_of n h c.
Proof. intros Hs [_ Hf] Hc. apply value_of_frame. intros m Hm. apply Hf. by eapply reaches_below. Qed.

Lemma obj_new m h x : obj (new_map m h).2 x = if decide (x = h_next h) then m else obj h x.
Proof. unfold obj. cbn. case_decide; [subst; by rewrite lookup_insert_eq|by rewrite lookup_insert_ne]. Qed.

Lemma refers_below h a b : sound h → refers h a b → a < h_next h.
Proof.
  intros Hs Hr. destruct (decide (a < h_next h)) as [?|Ha]; [done|]. destruct (sound_fresh h Hs a) as [E1 E2]; [lia|].
  unfold refers, obj, array in Hr. rewrite E1, E2 in Hr. cbn in Hr.
  destruct Hr as [[? ?]|[(? & ? & ? & ?)|[H|(? & ? & H)]]]; [done|done|by apply elem_of_nil in H..].
Qed.

Lemma new_map_cells_path m h a b : sound h → a < h_next h → rtc (map_refers (new_map m h).2) a b → rtc (map_refers h) a b.
Proof.
  intros Hs Ha Hr. revert Ha. induction Hr as [a|a x b [k Hk] _ IH]; intros Ha; [constructor|].
  rewrite obj_new, decide_False in Hk by lia. eapply rtc_l; [by exists k|]. apply IH. apply (sound_closed h Hs a). left. by exists k.
Qed.

Lemma sound_new_map_cells m h : sound h → (∀ k c, m !! k = Some c → in_heap h c) → sound (new_map m h).2.
Proof.
  intros Hs Hm. pose proof Hs as [Ha Hc Hf]. split.
  - intros a b [k Hk] Hr. rewrite obj_new in Hk. case_decide as E.
    + subst. apply Hm in Hk. cbn in Hk. apply new_map_cells_path in Hr; [|done..]. apply rtc_inv_r in Hr as [?|(x & _ & Hx)]; [lia|].
      assert (h_next h < h_next h); [|lia]. apply (Hc x). by left.
    + assert (b < h_next h) by (apply (Hc a); left; by exists k). apply new_map_cells_path in Hr; [|done..].
      eapply (Ha a b); [by exists k|done].
  - intros a b Hr. cbn [new_map snd h_next]. destruct Hr as [[k Hk]|[(k & off & len & Hk)|Hr]].
    + rewrite obj_new in Hk. case_decide; [apply Hm in Hk; cbn in Hk; lia|]. assert (b < h_next h); [|lia]. apply (Hc a). left. by exists k.
    + rewrite obj_new in Hk. case_decide; [apply Hm in Hk; cbn in Hk; lia|]. assert (b < h_next h); [|lia].
      apply (Hc a). right; left. by exists k, off, len.
    + assert (b < h_next h); [|lia]. apply (Hc a). by right; right.
  - intros x Hx. cbn in *. rewrite lookup_insert_ne by lia. apply Hf. lia.
Qed.

Lemma sound_new_array l h : sound h → Forall (in_heap h) l → sound (new_array l h).2.
Proof.
  intros Hs Hl. pose proof Hs as [Ha Hc Hf]. rewrite Forall_forall in Hl. split.
  - intros a b Hab Hr. by apply (Ha a b).
  - intros a b Hr. cbn [new_array snd h_next].
    assert (∀ c, c ∈ array (new_array l h).2 a → in_heap h c ∨ c ∈ array h a) as Harr.
    { intros c. unfold array. cbn. destruct (decide (h_next h = a)) as [->|Hne]; [rewrite lookup_insert_eq|rewrite lookup_insert_ne by done; by right].
      cbn. left. by apply Hl. }
    assert (b < h_next h); [|lia]. destruct Hr as [Hr|[Hr|[Hr|(off & len & Hr)]]].
    + apply (Hc a). by left.
    + apply (Hc a). by right; left.
    + destruct (Harr _ Hr) as [?|?]; [done|]. apply (Hc a). by right; right; left.
    + destruct (Harr _ Hr) as [?|?]; [done|]. apply (Hc a). right; right; right. by exists off, len.
  - intros x Hx. cbn in *. rewrite lookup_insert_ne by lia. apply Hf. lia.
Qed.

(** What puts a value on a heap leaves what is there. *)
Definition allocates (f : heap → cell * heap) : Prop :=
  ∀ h, sound h → sound (f h).2 ∧ extends h (f h).2 ∧ in_heap (f h).2 (f h).1.

Section reading.
Context `{SliceGrowth}.

Lemma alloc_items_allocates fs h :
  Forall allocates fs → sound h →
  sound (alloc_items fs h).2 ∧ extends h (alloc_items fs h).2 ∧ Forall (in_heap (alloc_items fs h).2) (alloc_items fs h).1 ∧
  length (alloc_items fs h).1 = length fs.
Proof.
  intros Hfs. revert h. induction Hfs as [|f fs Hf _ IH]; intros h Hs; [by split_and!; [|constructor..|]|]. cbn [alloc_items].
  destruct (f h) as [c h1] eqn:E1. destruct (Hf h Hs) as (S1 & X1 & C1). rewrite E1 in S1, X1, C1. cbn in S1, X1, C1.
  destruct (IH h1 S1) as (S2 & X2 & C2 & L2). destruct (alloc_items fs h1) as [cs h2]. cbn in *.
  split_and!; [done|by etrans|constructor; [|done]|by rewrite L2]. eapply in_heap_mono, C1. apply X2.
Qed.

Lemma alloc_allocates v : allocates (alloc v).
Proof.
  induction v as [v IH] using val_size_ind. intros h Hs.
  assert (∀ c, in_heap h (CVal c)) as Hval by done.
  destruct v as [| | | | | | | |e l|e m| | | |]; try (by split_and!); destruct e; try (by split_and!); cbn [alloc].
  - destruct (alloc_items_allocates (alloc <$> l) h) as (S1 & X1 & C1 & _); [|done|].
    { apply Forall_fmap, Forall_forall. intros v Hv. by apply IH, vsize_list. }
    destruct (alloc_items (alloc <$> l) h) as [cs h1]. cbn in S1, X1, C1.
    assert (Forall (in_heap h1) (cs ++ replicate (cap_after (length cs) - length cs) CNil)) as Hall
      by (apply Forall_app; split; [done|by apply Forall_replicate]).
    split_and!; [by apply (sound_new_array _ h1)|etrans; [exact X1|apply extends_new_array]|cbn; lia].
  - set (fs := alloc <$> m).
    destruct (alloc_items_allocates (map_to_list fs).*2 h) as (S1 & X1 & C1 & _); [|done|].
    { apply Forall_forall. intros f Hf. apply list_elem_of_fmap in Hf as ([k f'] & -> & Hf). cbn.
      apply elem_of_map_to_list in Hf. unfold fs in Hf. rewrite lookup_fmap in Hf. apply fmap_Some in Hf as (v & Hv & ->).
      by eapply IH, vsize_map. }
    destruct (alloc_items (map_to_list fs).*2 h) as [cs h1]. cbn in S1, X1, C1.
    split_and!; [|etrans; [exact X1|apply extends_new_map]|cbn; lia].
    apply (sound_new_map_cells _ h1); [done|]. intros k c Hk. rewrite Forall_forall in C1. apply C1.
    apply elem_of_list_to_map_2 in Hk. by apply elem_of_zip_r in Hk.
Qed.

Lemma sound_entry h m k c : sound h → obj h m !! k = Some c → in_heap h c.
Proof.
  intros Hs Hk. destruct c as [v|l|a off len]; [done|..]; apply (sound_closed h Hs m); [left; by exists k|right; left; by exists k, off, len].
Qed.

Lemma sound_elem h a c : sound h → c ∈ array h a → in_heap h c.
Proof.
  intros Hs Hk. destruct c as [v|l|b off len]; [done|..]; apply (sound_closed h Hs a); right; right; [by left|right; by exists off, len].
Qed.

Lemma elem_of_elems h a off len c : c ∈ elems h a off len → c ∈ array h a.
Proof. intros Hc%elem_of_take. destruct Hc as (i & Hi & _). rewrite lookup_drop in Hi. by eapply list_elem_of_lookup_2. Qed.

Lemma step_allocates key cur : ∀ h, sound h → in_heap h cur →
  sound (step h cur key).2 ∧ extends h (step h cur key).2 ∧ in_heap (step h cur key).2 (step h cur key).1.
Proof.
  intros h Hs Hc. destruct cur as [v|l|a off len]; cbn [step].
  - destruct v; try by split_and!. by apply alloc_allocates.
  - split_and!; [done|done|]. cbn. destruct (obj h l !! key) as [c|] eqn:E; [|done]. by eapply sound_entry.
  - split_and!; [done|done|]. cbn. destruct (scan_int key) as [i|]; [|done]. unfold nth_cell. case_decide; [|done].
    destruct (elems h a off len !! Z.to_nat i) as [c|] eqn:E; [|done]. cbn. eapply sound_elem; [done|].
    by eapply elem_of_elems, list_elem_of_lookup_2.
Qed.

Lemma walk_allocates parts h cur : sound h → in_heap h cur →
  sound (walk h cur parts).2 ∧ extends h (walk h cur parts).2 ∧ in_heap (walk h cur parts).2 (walk h cur parts).1.
Proof.
  revert h cur. induction parts as [|p parts IH]; intros h cur Hs Hc; [by split_and!|]. cbn [walk].
  destruct (step h cur p) as [c h1] eqn:E. destruct (step_allocates p cur h Hs Hc) as (S1 & X1 & C1). rewrite E in S1, X1, C1.
  cbn in S1, X1, C1. destruct (IH h1 c S1 C1) as (S2 & X2 & C2). destruct c as [[]| |]; try (split_and!; [done|by etrans|done]).
Qed.

(** States whose heap only grew. *)
Record canvas_ok (s : CanvasState) : Prop := {
  ok_state : sound_state s;
  ok_maps : cs_sys s < h_next (cs_heap s) ∧ cs_env s < h_next (cs_heap s) ∧ cs_globals s < h_next (cs_heap s)
}.
Definition later (s s' : CanvasState) : Prop :=
  s' = with_heap (cs_heap s') s ∧ sound (cs_heap s') ∧ extends (cs_heap s) (cs_heap s').

Lemma later_intro s h : sound h → extends (cs_heap s) h → later s (with_heap h s).
Proof. by intros Hs Hx. Qed.

Lemma later_refl s : canvas_ok s → later s s.
Proof. intros [[Hs _] _]. split_and!; [by destruct s|done|done]. Qed.

Lemma later_trans s1 s2 s3 : later s1 s2 → later s2 s3 → later s1 s3.
Proof. intros (E1 & _ & X1) (E2 & S2 & X2). split_and!; [|done|by etrans]. rewrite E2 at 1. by rewrite E1. Qed.

Lemma later_ok s s' : canvas_ok s → later s s' → canvas_ok s'.
Proof.
  intros [[Hs Ho] Hm] (E & S & X). rewrite E. destruct X as [Hn _]. split; [split; [done|]|cbn; lia].
  intros k l Hk. apply Ho in Hk. cbn. lia.
Qed.

Lemma later_value n s s' c : canvas_ok s → later s s' → in_heap (cs_heap s) c → value_of n (cs_heap s') c = value_of n (cs_heap s) c.
Proof. intros Hok (_ & _ & Hx) Hc. apply extends_value; [apply Hok|done|done]. Qed.

Lemma later_in_heap s s' c : later s s' → in_heap (cs_heap s) c → in_heap (cs_heap s') c.
Proof. intros (_ & _ & [Hn _]). by apply in_heap_mono. Qed.

Lemma dotTraverse_allocates h cur path : sound h → in_heap h cur →
  sound (dotTraverse h cur path).2 ∧ extends h (dotTraverse h cur path).2 ∧
  in_heap (dotTraverse h cur path).2 (dotTraverse h cur path).1.
Proof. intros Hs Hc. unfold dotTraverse. case_decide; [by split_and!|by apply walk_allocates]. Qed.

Lemma GetVar_later s ref : canvas_ok s →
  later s (GetVar s ref).2 ∧ ∀ c, (GetVar s ref).1 = Ok c → in_heap (cs_heap (GetVar s ref).2) c.
Proof.
  intros Hok. pose proof Hok as [[Hs Ho] (H1 & H2 & H3)]. unfold GetVar. case_decide; [split; [by apply later_refl|done]|].
  enough (sound (getVarLocked s ref).2 ∧ extends (cs_heap s) (getVarLocked s ref).2 ∧
            ∀ c, (getVarLocked s ref).1 = Ok c → in_heap (getVarLocked s ref).2 c) as (S & X & C).
  { destruct (getVarLocked s ref) as [r h]. cbn in *. split; [by apply later_intro|done]. }
  assert (∀ m k c, Ok (E := ref_error) (default CNil (obj (cs_heap s) m !! k)) = Ok c → in_heap (cs_heap s) c) as Hentry.
  { intros m k c [= <-]. destruct (obj (cs_heap s) m !! k) as [c|] eqn:E; [by eapply sound_entry|done]. }
  assert (∀ m path, m < h_next (cs_heap s) →
    let r := (let '(c, h) := dotTraverse (cs_heap s) (CMap m) path in (Ok c, h)) : result ref_error cell * heap in
    sound r.2 ∧ extends (cs_heap s) r.2 ∧ ∀ c, r.1 = Ok c → in_heap r.2 c) as Hwalk.
  { intros m path Hm r. destruct (dotTraverse_allocates (cs_heap s) (CMap m) path Hs Hm) as (S & X & C). unfold r.
    destruct (dotTraverse _ _ _) as [c h]. cbn in *. split_and!; [done|done|by intros ? [= <-]]. }
  unfold getVarLocked. repeat (case_decide; [split_and!; [done|done|apply Hentry]|]).
  destruct (sys_prefix ref); [by apply Hwalk|]. destruct (env_prefix ref); [by apply Hwalk|].
  destruct (split_ref ref) as [[cpnID path]|]; [|by split_and!]. destruct (cs_outputs s !! cpnID) as [l|] eqn:E; [|split_and!; [done..|by intros ? [= <-]]].
  apply Hwalk. by eapply Ho.
Qed.

Context `{GoRuntime}.

Lemma resolve_ref_later ref s t e s' : canvas_ok s → resolve_ref ref s = Some (t, e, s') → later s s'.
Proof.
  intros Hok. unfold resolve_ref. destruct (GetVar_later s ref Hok) as [L _]. destruct (GetVar s ref) as [[c|] s1]; [|by intros [= _ _ <-]].
  assert (∀ c', (t0 ← sprint (cs_heap s1) c'; Some (t0, None, s1)) = Some (t, e, s') → s' = s1) as Hp
    by (intros c'; destruct (sprint _ c'); cbn; congruence).
  destruct c as [[]| |]; try (by intros [= _ _ <-]); by intros ->%Hp.
Qed.

Lemma resolve_segments_later gs s t e s' : canvas_ok s → resolve_segments gs s = Some (t, e, s') → later s s'.
Proof.
  revert s t e. induction gs as [|[a|ref] gs IH]; intros s t e Hok; cbn [resolve_segments].
  - intros [= _ _ <-]. by apply later_refl.
  - destruct (resolve_segments gs s) as [[[t1 e1] s1]|] eqn:E; [|done]. intros [= _ _ <-]. by eapply IH.
  - destruct (resolve_ref ref s) as [[[t1 e1] s1]|] eqn:E1; [|done]. cbn. apply resolve_ref_later in E1; [|done].
    destruct (resolve_segments gs s1) as [[[t2 e2] s2]|] eqn:E2; [|done]. intros [= _ _ <-].
    apply IH in E2; [by eapply later_trans|by eapply later_ok].
Qed.

Lemma ResolveTemplate_later t0 s t e s' : canvas_ok s → ResolveTemplate t0 s = Some (t, e, s') → later s s'.
Proof.
  intros Hok. unfold ResolveTemplate. destruct (has_refs t0); [by apply resolve_segments_later|]. intros [= _ _ <-]. by apply later_refl.
Qed.
End reading.

(** ** Examples *)
Lemma begun_state_ok : canvas_ok begun_state.
Proof. split; [exact begun_state_sound|split_and!; apply Nat.ltb_lt; by vm_compute]. Qed.

Lemma set_ok `{SliceGrowth} param v s :
  canvas_ok s → plain_ref "begin" param → param ≠ "" → in_heap (cs_heap s) v → (∀ b, v ≠ CMap b) →
  is_Some (SetVar "begin" param v s) → cs_sys (set "begin" param v s) < h_next (cs_heap (set "begin" param v s)) →
  cs_env (set "begin" param v s) < h_next (cs_heap (set "begin" param v s)) →
  cs_globals (set "begin" param v s) < h_next (cs_heap (set "begin" param v s)) → canvas_ok (set "begin" param v s).
Proof.
  intros Hok Hp Hne Hv Hm [s' Hset] H1 H2 H3. split; [|done]. unfold set in *. rewrite Hset in *. cbn in *.
  apply (SetVar_holds s "begin" param v s'); [apply Hok|done..|]. intros b m ->. by destruct (Hm b).
Qed.
