(* ===== verification/VariableAssigner.v ===== *)
(** * Assigning canvas variables (internal/agent/component/variable_assigner.go)

    An ordered list of assignments, each a variable, an operator and a parameter.
    The assignments are maps on the heap of the canvas: their parameters end up in
    variables by reference.  [None] stands for the end of the program: a stack
    overflow while a value that contains itself is printed, or an assignment to an
    entry of a nil map. *)
From Stdlib Require Import Ascii.
From S2P Require Import Prelude Values Format Convert.
From S2P Require Export Canvas.

Section assigner.
Context `{GoRuntime} `{SliceGrowth}.

(** *** References in parameters *)
Definition asRefString (param : cell) : string := match param with CVal (VStr s) => s | _ => "" end.

(** One layer of braces. *)
Definition in_braces (s : string) : bool :=
  bool_decide (2 ≤ String.length s) && starts_with 123 s && starts_with 125 (str_drop (String.length s - 1) s).
Definition strip_layer (s : string) : string := trim_space (slice 1 (String.length s - 1) s).
Definition stripVarBraces (s : string) : string :=
  let s := trim_space s in
  if in_braces s then let s := strip_layer s in if in_braces s then strip_layer s else s else s.

Definition resolveParamValue (param : cell) (s : CanvasState) : cell * CanvasState :=
  match param with
  | CVal (VStr t) =>
      if decide (t = "") then (param, s)
      else match GetVar s (stripVarBraces t) with
           | (Ok (CVal VNil), s) | (Err _, s) => (param, s)
           | (Ok c, s) => (c, s)
           end
  | _ => (param, s)
  end.

(** *** Kinds *)
Definition goKind (c : cell) : string :=
  match c with
  | CVal (VInt _) | CVal (VNum Int64 _) | CVal (VNum Int32 _) => "int"
  | CVal (VFloat _) | CVal (VFloat32 _) => "float"
  | CVal (VStr _) => "string"
  | CVal (VBool _) => "bool"
  | CMap _ | CVal (VTypedNil (TMap TAny)) => "map"
  | CList _ _ _ | CVal (VTypedNil (TSlice TAny)) => "list"
  | _ => "unknown"
  end.
Definition compatibleElemType (a b : cell) : bool := bool_decide (goKind a = goKind b).

Definition isNumberish (c : cell) : bool :=
  match c with CVal (VInt _ | VNum _ _ | VFloat32 _ | VFloat _) => true | _ => false end.

Definition float_zero : spec_float := S754_zero false.
Definition toFloat64 (c : cell) : spec_float :=
  match c with
  | CVal (VInt z) | CVal (VNum Int64 z) | CVal (VNum Int32 z) => float_of_int z
  | CVal (VFloat f) => f
  | CVal (VFloat32 f) => round_to 53 1024 f
  | _ => float_zero
  end.

(** *** Lists

    [c.([]any)]: the array, the place and the length of a list; none for a nil one. *)
Definition as_slice (c : cell) : option (option (nat * nat * nat)) :=
  match c with
  | CList a off len => Some (Some (a, off, len))
  | CVal (VTypedNil (TSlice TAny)) => Some None
  | _ => None
  end.
Definition items_of (h : heap) (l : option (nat * nat * nat)) : list cell :=
  match l with Some (a, off, len) => elems h a off len | None => [] end.
Definition append_to (l : option (nat * nat * nat)) (items : list cell) (h : heap) : cell * heap :=
  match l, items with
  | Some (a, off, len), _ => append a off len items h
  | None, [] => (CVal (VTypedNil (TSlice TAny)), h)
  | None, _ => let '(a, h) := new_array [] h in append a 0 0 items h
  end.

(** A new empty list in place of nothing. *)
Definition or_empty (c : cell) (h : heap) : cell * heap := match c with CVal VNil => new_list [] h | _ => (c, h) end.

(** *** The operators *)
Definition clear_value (oldVal : cell) (h : heap) : cell * heap :=
  match oldVal with
  | CList _ _ _ | CVal (VTypedNil (TSlice TAny)) => new_list [] h
  | CMap _ | CVal (VTypedNil (TMap TAny)) => let '(l, h) := new_map ∅ h in (CMap l, h)
  | CVal (VStr _) => (CVal (VStr ""), h)
  | CVal (VBool _) => (CVal (VBool false), h)
  | CVal (VInt _ | VNum Int64 _ | VFloat _ | VFloat32 _) => (CVal (VInt 0), h)
  | _ => (CNil, h)
  end.

Definition set_value (oldVal param : cell) (s : CanvasState) : option (cell * CanvasState) :=
  match oldVal with
  | CVal (VNil | VStr _) =>
      match param with
      | CVal (VStr t) =>
          if decide (t = "") then Some (param, s)
          else match GetVar s t with
               | (Ok (CVal VNil), s) | (Err _, s) =>
                   if Index "{{" t then
                     '(out, err, s) ← ResolveTemplate t s;
                     Some (match err with None => CVal (VStr out) | Some _ => param end, s)
                   else Some (param, s)
               | (Ok c, s) => Some (c, s)
               end
      | _ => Some (param, s)
      end
  | _ => Some (param, s)
  end.

(** [append] and [extend], once the parameter is known: [more] are its items. *)
Definition add_items (oldVal : cell) (more : result string (list cell)) (s : CanvasState) : result string cell * CanvasState :=
  let '(oldVal, h) := or_empty oldVal (cs_heap s) in
  let s := with_heap h s in
  match as_slice oldVal, more with
  | None, _ => (Err "ERROR:VARIABLE_NOT_LIST", s)
  | Some _, Err e => (Err e, s)
  | Some l, Ok more =>
      match items_of h l, more with
      | x :: _, p :: _ =>
          if compatibleElemType x p then let '(c, h) := append_to l more h in (Ok c, with_heap h s)
          else (Err "ERROR:PARAMETER_NOT_LIST_ELEMENT_TYPE", s)
      | _, _ => let '(c, h) := append_to l more h in (Ok c, with_heap h s)
      end
  end.

Definition remove_item (first : bool) (oldVal : cell) : result string cell :=
  match as_slice oldVal with
  | None => Err "ERROR:VARIABLE_NOT_LIST"
  | Some (Some (a, off, S len)) => Ok (if first then CList a (S off) len else CList a off len)
  | Some _ => Ok oldVal
  end.

Definition arithmetic (op : string) (oldVal pv : cell) : result string cell :=
  if negb (isNumberish oldVal) || negb (isNumberish pv) then Err "ERROR:VARIABLE_NOT_NUMBER or PARAMETER_NOT_NUMBER"
  else
    let x := toFloat64 oldVal in
    let y := toFloat64 pv in
    match op with
    | "+=" => Ok (CVal (VFloat (float_add x y)))
    | "-=" => Ok (CVal (VFloat (SFsub 53 1024 x y)))
    | "*=" => Ok (CVal (VFloat (SFmul 53 1024 x y)))
    | _ => if SFeqb y float_zero then Err "ERROR:DIVIDE_BY_ZERO" else Ok (CVal (VFloat (SFdiv 53 1024 x y)))
    end.

Definition operate (oldVal : cell) (op : string) (param : cell) (s : CanvasState) : option (result string cell * CanvasState) :=
  match op with
  | "overwrite" =>
      Some (match param with
            | CVal (VStr t) =>
                match GetVar s (stripVarBraces t) with
                | (Ok c, s) => (Ok c, s)
                | (Err _, s) => (Err "ERROR:PARAMETER_UNRESOLVED", s)
                end
            | _ => (Ok param, s)
            end)
  | "clear" => let '(c, h) := clear_value oldVal (cs_heap s) in Some (Ok c, with_heap h s)
  | "set" => '(c, s) ← set_value oldVal param s; Some (Ok c, s)
  | "append" =>
      let s := (GetVar s (asRefString param)).2 in
      let '(p, s) := resolveParamValue param s in
      Some (add_items oldVal (Ok [p]) s)
  | "extend" =>
      let '(p, s) := resolveParamValue param s in
      Some (add_items oldVal (match as_slice p with Some l => Ok (items_of (cs_heap s) l) | None => Err "ERROR:PARAMETER_NOT_LIST" end) s)
  | "remove_first" => Some (remove_item true oldVal, s)
  | "remove_last" => Some (remove_item false oldVal, s)
  | "+=" | "-=" | "*=" | "/=" => let '(pv, s) := resolveParamValue param s in Some (arithmetic op oldVal pv, s)
  | _ => Some (Err "ERROR:UNKNOWN_OPERATOR", s)
  end.

(** *** Writing back

    An entry of sys, env or the globals has the whole rest of the reference as its name. *)
Definition writeVar (ref : string) (v : cell) (s : CanvasState) : option (result string CanvasState) :=
  if decide (ref = "item") then Some (Ok (put_entry (cs_globals s) "__item__" v s))
  else if decide (ref = "index") then Some (Ok (put_entry (cs_globals s) "__index__" v s))
  else if sys_prefix ref then Some (Ok (put_entry (cs_sys s) (str_drop 4 ref) v s))
  else if env_prefix ref then Some (Ok (put_entry (cs_env s) (str_drop 4 ref) v s))
  else
    match split_ref ref with
    | Some (String a cpnID, param) => Ok <$> SetVar (String a cpnID) param v s
    | _ => Some (Err ref)
    end.

(** *** The component *)
Inductive assign_error :=
| BadAssignment (i : nat)
| GetFailed (i : nat) (ref : string) (err : ref_error)
| WriteFailed (i : nat) (ref : string).

(** An assignment: its map, or the nil map. *)
Definition assignment : Type := option nat.
Definition entries (h : heap) (l : assignment) : gmap string cell := match l with Some m => obj h m | None => ∅ end.
Definition as_assignment (c : cell) : option assignment :=
  match c with CMap m => Some (Some m) | CVal (VTypedNil (TMap TAny)) => Some None | _ => None end.

Definition string_entry (m : gmap string cell) (k : string) : string := match m !! k with Some (CVal (VStr s)) => s | _ => "" end.
Definition op_error (i : nat) (ref err : string) : string := "variables[" +:+ pretty i +:+ "] " +:+ ref +:+ ": " +:+ err.

(** The outcome of a run: what was assigned and the errors of operators, or an error. *)
Definition assigned : Type := result assign_error (list string * list string).

(** One assignment: done, or the error of its operator, or the error that ends the run. *)
Definition assign_one (i : nat) (ref op : string) (param : cell) (s : CanvasState) :
    option (result assign_error (option string) * CanvasState) :=
  match GetVar s ref with
  | (Err err, s) => Some (Err (GetFailed i ref err), s)
  | (Ok oldVal, s) =>
      '(r, s) ← operate oldVal op param s;
      match r with
      | Err err => Some (Ok (Some err), s)
      | Ok newVal =>
          w ← writeVar ref newVal s;
          match w with
          | Err _ => Some (Err (WriteFailed i ref), s)
          | Ok s => Some (Ok None, s)
          end
      end
  end.

Fixpoint assign_items (i : nat) (items : list assignment) (done errs : list string) (s : CanvasState) : option (assigned * CanvasState) :=
  match items with
  | [] => Some (Ok (done, errs), s)
  | l :: items =>
      let item := entries (cs_heap s) l in
      let ref := string_entry item "variable" in
      let op := string_entry item "operator" in
      if decide (ref = "" ∨ op = "") then Some (Err (BadAssignment i), s)
      else
        '(r, s) ← assign_one i ref op (default CNil (item !! "parameter")) s;
        match r with
        | Err err => Some (Err err, s)
        | Ok (Some err) => assign_items (S i) items done (errs ++ [op_error i ref err]) s
        | Ok None => assign_items (S i) items (done ++ [ref]) errs s
        end
  end.

(** [Update]: the assignments of the configuration, maps on the heap. *)
Inductive param_error := NotAList | NotAMap (i : nat).
Fixpoint as_maps (i : nat) (l : list cell) : result param_error (list assignment) :=
  match l with
  | [] => Ok []
  | c :: l =>
      match as_assignment c with
      | Some m => match as_maps (S i) l with Ok ms => Ok (m :: ms) | Err e => Err e end
      | None => Err (NotAMap i)
      end
  end.
Definition Update (conf : option (gmap string cell)) (h : heap) : result param_error (list assignment) * heap :=
  match conf ≫= (λ m, m !! "variables") with
  | None => (Ok [], h)
  | Some (CList a off len) => (as_maps 0 (elems h a off len), h)
  | Some (CVal (VTypedNil (TSlice TAny | TSlice (TMap TAny)))) => (Ok [], h)
  | Some (CVal (VSlice (TMap TAny) l)) => let '(cs, h) := alloc_items (alloc <$> l) h in (as_maps 0 cs, h)
  | Some _ => (Err NotAList, h)
  end.

(** The assignments of a run and what it leaves of the component's own: an override
    is appended to the empty start of the component's array. *)
Definition override (inputs : gmap string cell) (own : list assignment) (h : heap) : list assignment * list assignment :=
  match inputs !! "variables" with
  | Some (CList a off (S len)) =>
      let ms := omap as_assignment (elems h a off (S len)) in
      (ms, take (length own) (ms ++ drop (length ms) own))
  | _ => (own, own)
  end.

(** A run: its outcome, the component's own assignments and the state after it. *)
Definition Invoke (inputs : gmap string cell) (own : list assignment) (s : CanvasState) : option (assigned * list assignment * CanvasState) :=
  let '(items, own) := override inputs own (cs_heap s) in
  '(r, s) ← assign_items 0 items [] [] s;
  Some (r, own, s).
End assigner.
