(* ===== verification/AssignerProps.v ===== *)
(** * What assigning canvas variables guarantees

    What a successful operator gives is read back; a failed one changes nothing; a
    variable that is a list behaves like a list under the list operators.  Examples
    show what sharing does to that. *)
From Stdlib Require Import Ascii.
From S2P Require Import Prelude Values Format Json Convert.
From S2P Require Export CanvasReads VariableAssigner.

(** ** Parameters *)
Lemma resolveParamValue_later `{SliceGrowth} param s : canvas_ok s → in_heap (cs_heap s) param →
  later s (resolveParamValue param s).2 ∧ in_heap (cs_heap (resolveParamValue param s).2) (resolveParamValue param s).1.
Proof.
  intros Hok Hp. pose proof (later_refl s Hok). unfold resolveParamValue. destruct param as [[]| |]; try done.
  case_decide; [done|]. destruct (GetVar_later s (stripVarBraces s0) Hok) as [L C].
  destruct (GetVar s (stripVarBraces s0)) as [[[[]| |]|] s']; cbn in *; split; try done; by apply (C _ eq_refl).
Qed.

(** ** Appending *)
Lemma array_put_elem a i c h b : array (put_elem a i c h) b = if decide (b = a) then <[i := c]> (array h a) else array h b.
Proof. unfold array. cbn. case_decide; [subst; by rewrite lookup_insert_eq|by rewrite lookup_insert_ne]. Qed.

Lemma write_items_frame a i items h :
  h_maps (write_items a i items h) = h_maps h ∧ h_next (write_items a i items h) = h_next h ∧
  ∀ b, b ≠ a → h_arrays (write_items a i items h) !! b = h_arrays h !! b.
Proof.
  revert i h. induction items as [|c items IH]; intros i h; [done|]. cbn [write_items].
  destruct (IH (S i) (put_elem a i c h)) as (E1 & E2 & E3). split_and!; [done|done|]. intros b Hb. rewrite E3 by done.
  cbn. by rewrite lookup_insert_ne.
Qed.

Lemma write_items_array a i items h :
  i + length items ≤ length (array h a) →
  array (write_items a i items h) a = take i (array h a) ++ items ++ drop (i + length items) (array h a).
Proof.
  revert i h. induction items as [|c items IH]; intros i h Hi; cbn in *; [by rewrite Nat.add_0_r, take_drop|].
  rewrite IH; rewrite array_put_elem, decide_True by done; [|rewrite length_insert; lia].
  rewrite drop_insert_lt by lia. rewrite Nat.add_succ_r. cbn [Nat.add]. rewrite (take_S_r _ _ c).
  - rewrite take_insert_ge by lia. by rewrite <-app_assoc.
  - apply list_lookup_insert_eq. lia.
Qed.

Record appended (a off len : nat) (items : list cell) (h : heap) (c : cell) (h' : heap) : Prop := {
  app_list : ∃ a' off' len', c = CList a' off' len' ∧ elems h' a' off' len' = elems h a off len ++ items ∧
               off' + len' ≤ length (array h' a') ∧ (a' = a ∨ a' = h_next h) ∧ a' < h_next h';
  app_maps : h_maps h' = h_maps h;
  app_next : h_next h ≤ h_next h';
  app_others b : b ≠ a → b < h_next h → h_arrays h' !! b = h_arrays h !! b;
  app_before : take (off + len) (array h' a) = take (off + len) (array h a)
}.

Lemma elems_drop h a off len : elems h a off len = drop off (take (off + len) (array h a)).
Proof. unfold elems. apply take_drop_commute. Qed.

Lemma append_spec `{GrowthLaws} a off len items h :
  a < h_next h → off + len ≤ length (array h a) →
  appended a off len items h (append a off len items h).1 (append a off len items h).2.
Proof.
  intros Ha Hl. assert (length (elems h a off len) = len) as Hlen by (unfold elems; rewrite length_take, length_drop; lia).
  unfold append. case_decide as Hc.
  - destruct (write_items_frame a (off + len) items h) as (E1 & E2 & E3).
    assert (array (write_items a (off + len) items h) a =
      take (off + len) (array h a) ++ items ++ drop (off + len + length items) (array h a)) as Harr
      by (apply write_items_array; lia).
    cbn [fst snd]. split; [|by rewrite E1|by rewrite E2|by intros b ? ?; rewrite E3|].
    + exists a, off, (len + length items). split_and!; [done| |rewrite Harr, !length_app, length_take, length_drop; lia|by left|by rewrite E2].
      rewrite !elems_drop, Harr. replace (off + (len + length items)) with (off + len + length items) by lia.
      rewrite app_assoc, take_app_length' by (rewrite length_app, length_take; lia). apply drop_app_le. rewrite length_take. lia.
    + rewrite Harr, take_app_length'; [done|]. rewrite length_take. lia.
  - set (l := elems h a off len ++ items). set (cap := grow _ _). pose proof (grow_enough (length (array h a) - off) (len + length items)) as Hg.
    fold cap in Hg. cbn [new_array fst snd]. set (arr := l ++ replicate (cap - (len + length items)) CNil).
    assert (array (MkHeap (h_maps h) (<[h_next h := arr]> (h_arrays h)) (S (h_next h))) (h_next h) = arr) as Harr
      by (unfold array; cbn; by rewrite lookup_insert_eq).
    assert (length l = len + length items) as Hll by (unfold l; rewrite length_app; lia).
    split; [|done|cbn; lia|intros b ? ?; cbn; by rewrite lookup_insert_ne by lia|].
    + exists (h_next h), 0, (len + length items). split_and!; [done| |rewrite Harr; unfold arr; rewrite length_app; lia|by right|cbn; lia].
      unfold elems at 1. rewrite Harr, drop_0. unfold arr. by rewrite <-Hll, take_app_length.
    + unfold array. cbn. by rewrite lookup_insert_ne by lia.
Qed.

Lemma sound_put_elem a i c h : sound h → a < h_next h → in_heap h c → sound (put_elem a i c h).
Proof.
  intros Hs Ha Hc. pose proof Hs as [Hac Hcl Hf].
  assert (∀ x d, d ∈ array (put_elem a i c h) x → d = c ∨ d ∈ array h x) as Harr.
  { intros x d. rewrite array_put_elem. case_decide; [subst|by right]. intros Hd. apply list_elem_of_lookup in Hd as [j Hd].
    apply list_lookup_insert_Some in Hd as [(_ & -> & _)|[_ Hd]]; [by left|right]. by eapply list_elem_of_lookup_2. }
  split; [done| |].
  - intros x y [Hr|[Hr|[Hr|(off & len & Hr)]]].
    + apply (Hcl x). by left.
    + apply (Hcl x). by right; left.
    + apply Harr in Hr as [<-|Hr]; [done|]. apply (Hcl x). by right; right; left.
    + apply Harr in Hr as [<-|Hr]; [done|]. apply (Hcl x). right; right; right. by exists off, len.
  - intros x Hx. cbn in *. rewrite lookup_insert_ne by lia. by apply Hf.
Qed.

Lemma sound_write_items a i items h : sound h → a < h_next h → Forall (in_heap h) items → sound (write_items a i items h).
Proof.
  intros Hs Ha Hi. revert i h Hs Ha Hi. induction items as [|c items IH]; intros i h Hs Ha Hi; [done|]. cbn [write_items].
  apply Forall_cons in Hi as [Hc Hi]. apply IH; [by apply sound_put_elem|done|]. eapply Forall_impl; [exact Hi|]. by intros [].
Qed.

Lemma sound_append `{SliceGrowth} a off len items h :
  sound h → a < h_next h → Forall (in_heap h) items → sound (append a off len items h).2.
Proof.
  intros Hs Ha Hi. unfold append. case_decide; [by apply sound_write_items|]. cbn.
  apply (sound_new_array _ h); [done|]. apply Forall_app. split; [apply Forall_app; split; [|done]|by apply Forall_replicate].
  apply Forall_forall. intros c Hc. eapply sound_elem; [done|]. by eapply elem_of_elems.
Qed.

(** ** A list variable under the list operators

    The operators on the items of a list: adding items of another kind than the
    first one is refused. *)
Inductive list_op := OpAppend (p : cell) | OpExtend (a off len : nat) | OpRemoveFirst | OpRemoveLast.

Definition operator (o : list_op) : string * cell :=
  match o with
  | OpAppend p => ("append", p)
  | OpExtend a off len => ("extend", CList a off len)
  | OpRemoveFirst => ("remove_first", CNil)
  | OpRemoveLast => ("remove_last", CNil)
  end.

Definition add_more (more l : list cell) : list cell :=
  match l, more with x :: _, p :: _ => if compatibleElemType x p then l ++ more else l | _, _ => l ++ more end.

Definition list_spec (h : heap) (o : list_op) (l : list cell) : list cell :=
  match o with
  | OpAppend p => add_more [p] l
  | OpExtend a off len => add_more (elems h a off len) l
  | OpRemoveFirst => drop 1 l
  | OpRemoveLast => take (length l - 1) l
  end.

Definition literal (c : cell) : Prop := match c with CVal (VStr _) => False | _ => True end.

(** What an operator needs of the heap: its parameter is there, and is no string and no
    part of the array of the variable. *)
Definition op_ok (h : heap) (own : nat) (o : list_op) : Prop :=
  match o with
  | OpAppend p => literal p ∧ in_heap h p
  | OpExtend a off len => a < h_next h ∧ a ≠ own
  | _ => True
  end.

Section list_variable.
Context `{GoRuntime} `{SliceGrowth} `{!GrowthLaws}.

Fixpoint run_ops (ref : string) (os : list list_op) (s : CanvasState) : option CanvasState :=
  match os with
  | [] => Some s
  | o :: os =>
      '(r, s) ← assign_one 0 ref (operator o).1 (operator o).2 s;
      match r with Ok _ => run_ops ref os s | Err _ => None end
  end.

(** What [operate] does for a list operator. *)
Record list_result (a off len : nat) (o : list_op) (s s' : CanvasState) (c : cell) : Prop := {
  res_list : ∃ a' off' len', c = CList a' off' len' ∧ elems (cs_heap s') a' off' len' = list_spec (cs_heap s) o (elems (cs_heap s) a off len) ∧
               off' + len' ≤ length (array (cs_heap s') a') ∧ (a' = a ∨ a' = h_next (cs_heap s)) ∧ a' < h_next (cs_heap s');
  res_heap : s' = with_heap (cs_heap s') s;
  res_sound : sound (cs_heap s');
  res_maps : h_maps (cs_heap s') = h_maps (cs_heap s);
  res_next : h_next (cs_heap s) ≤ h_next (cs_heap s');
  res_others b : b ≠ a → b < h_next (cs_heap s) → h_arrays (cs_heap s') !! b = h_arrays (cs_heap s) !! b
}.

Lemma with_heap_same s : with_heap (cs_heap s) s = s.
Proof. by destruct s. Qed.

Lemma add_items_list a off len more s :
  sound (cs_heap s) → a < h_next (cs_heap s) → off + len ≤ length (array (cs_heap s) a) → Forall (in_heap (cs_heap s)) more →
  let l := elems (cs_heap s) a off len in
  match add_items (CList a off len) (Ok more) s with
  | (Ok c, s') =>
      add_more more l = l ++ more ∧
      s' = with_heap (cs_heap s') s ∧ appended a off len more (cs_heap s) c (cs_heap s') ∧ sound (cs_heap s')
  | (Err _, s') => s' = s ∧ add_more more l = l
  end.
Proof.
  intros Hs Ha Hl Hmore l. unfold add_items. cbn [or_empty as_slice items_of]. fold l. rewrite with_heap_same.
  pose proof (append_spec a off len more (cs_heap s) Ha Hl) as Happ. pose proof (sound_append a off len more _ Hs Ha Hmore) as Hsa.
  cbn [append_to]. destruct (append a off len more (cs_heap s)) as [c h]. cbn [fst snd] in *.
  destruct l as [|x l], more as [|p more]; try (by split_and!). unfold add_more. by destruct (compatibleElemType x p); split_and!.
Qed.

Lemma operate_list a off len o s :
  sound (cs_heap s) → a < h_next (cs_heap s) → off + len ≤ length (array (cs_heap s) a) → op_ok (cs_heap s) a o →
  ∃ r s', operate (CList a off len) (operator o).1 (operator o).2 s = Some (r, s') ∧
  match r with
  | Ok c => list_result a off len o s s' c
  | Err _ => s' = s ∧ list_spec (cs_heap s) o (elems (cs_heap s) a off len) = elems (cs_heap s) a off len
  end.
Proof.
  intros Hs Ha Hl Ho.
  assert (∀ more, Forall (in_heap (cs_heap s)) more → list_spec (cs_heap s) o (elems (cs_heap s) a off len) = add_more more (elems (cs_heap s) a off len) →
    ∃ r s', Some (add_items (CList a off len) (Ok more) s) = Some (r, s') ∧
    match r with Ok c => list_result a off len o s s' c | Err _ => s' = s ∧ list_spec (cs_heap s) o (elems (cs_heap s) a off len) = elems (cs_heap s) a off len end)
    as Hadd.
  { intros more Hmore Hspec. pose proof (add_items_list a off len more s Hs Ha Hl Hmore) as Hadd.
    destruct (add_items _ _ s) as [r s']. exists r, s'. split; [done|]. destruct r as [c|e]; [|by rewrite Hspec].
    destruct Hadd as (E & Es & [Hlist Hmaps Hnext Hoth _] & Hs'). split; [|done..]. by rewrite Hspec, E. }
  assert (∀ c, (∃ off' len', c = CList a off' len' ∧ off' + len' ≤ length (array (cs_heap s) a) ∧
            elems (cs_heap s) a off' len' = list_spec (cs_heap s) o (elems (cs_heap s) a off len)) →
    ∃ r s', Some (Ok (E := string) c, s) = Some (r, s') ∧
    match r with Ok c => list_result a off len o s s' c | Err _ => s' = s ∧ list_spec (cs_heap s) o (elems (cs_heap s) a off len) = elems (cs_heap s) a off len end)
    as Hrem.
  { intros c (off' & len' & -> & Hb & He). do 2 eexists. split; [done|]. cbn. split; [|by rewrite with_heap_same|done..].
    exists a, off', len'. split_and!; [done|done|done|by left|done]. }
  destruct o as [p|b boff blen| |]; cbn [operator fst snd operate].
  - destruct Ho as [Hlit Hp]. assert ((GetVar s (asRefString p)).2 = s) as ->.
    { destruct p as [[]| |]; done. }
    assert (resolveParamValue p s = (p, s)) as ->; [by destruct p as [[]| |]|]. apply Hadd; [by constructor|done].
  - apply (Hadd (elems (cs_heap s) b boff blen)); [|done]. apply Forall_forall. intros c Hc. by eapply sound_elem, elem_of_elems.
  - cbn. destruct len as [|len]; apply Hrem; [exists off, 0|exists (S off), len]; (split_and!; [done|lia|]).
    + by rewrite !elems_drop, Nat.add_0_r, drop_ge by (rewrite length_take; lia).
    + cbn [list_spec]. rewrite !elems_drop, drop_drop. f_equal; [lia|]. f_equal. lia.
  - cbn. destruct len as [|len]; apply Hrem; [exists off, 0|exists off, len]; (split_and!; [done|lia|]).
    + by rewrite !elems_drop, Nat.add_0_r, drop_ge by (rewrite length_take; lia).
    + cbn [list_spec]. unfold elems. rewrite length_take, length_drop, take_take. f_equal. lia.
Qed.

(** *** Writing the list back *)
Lemma set_parts_arrays h cur parts v h' : set_parts h cur parts v = Some h' → h_arrays h' = h_arrays h ∧ h_next h ≤ h_next h'.
Proof.
  revert h cur. induction parts as [|p parts IH]; intros h cur Hset; [by injection Hset as <-|]. cbn [set_parts] in Hset.
  destruct parts as [|q parts]; [by injection Hset as <-|].
  assert (set_parts (linked h cur p) (h_next h) (q :: parts) v = Some h' → h_arrays h' = h_arrays h ∧ h_next h ≤ h_next h') as Hnew
    by (intros [E1 E2]%IH; cbn in E1, E2; split; [done|lia]).
  destruct (obj h cur !! p) as [[w|l|a off len]|]; [|by eapply IH|by apply Hnew..].
  destruct w; try by apply Hnew. destruct t; try by apply Hnew. by destruct t; try by apply Hnew.
Qed.

Lemma set_parts_new h cur parts v : obj h cur = ∅ → cur < h_next h → is_Some (set_parts h cur parts v).
Proof.
  revert h cur. induction parts as [|p parts IH]; intros h cur Ho Hc; [by eexists|]. cbn [set_parts].
  destruct parts as [|q parts]; [by eexists|]. rewrite Ho, lookup_empty.
  apply (IH (linked h cur p)); [by rewrite obj_linked, decide_False, decide_True by lia|cbn; lia].
Qed.

Lemma set_parts_total h h' cur parts v a off len h1 :
  sound h → h_maps h' = h_maps h → h_next h ≤ h_next h' → cur < h_next h →
  walk h (CMap cur) parts = (CList a off len, h1) → is_Some (set_parts h' cur parts v).
Proof.
  intros Hs Hm Hn. revert cur. induction parts as [|p parts IH]; intros cur Hc Hw; [by eexists|]. cbn [set_parts].
  destruct parts as [|q parts]; [by eexists|]. assert (obj h' cur = obj h cur) as -> by (unfold obj; by rewrite Hm).
  assert (is_Some (set_parts (linked h' cur p) (h_next h') (q :: parts) v)) as Hnew.
  { apply set_parts_new; [by rewrite obj_linked, decide_False, decide_True by lia|cbn; lia]. }
  cbn [walk step] in Hw. destruct (obj h cur !! p) as [[w|l|b boff blen]|] eqn:E; [|..|done|done].
  - by destruct w.
  - cbn [default] in Hw. apply (IH l); [|done]. apply (sound_closed h Hs cur). left. by exists p.
Qed.

(** A variable that holds a list. *)
Record list_at (ref : string) (s : CanvasState) (a off len : nat) : Prop := {
  at_get : GetVar s ref = (Ok (CList a off len), s);
  at_heap : a < h_next (cs_heap s);
  at_bounds : off + len ≤ length (array (cs_heap s) a)
}.

Lemma SetVar_list s s1 cpnID param a off len v :
  sound_state s → plain_ref cpnID param → GetVar s (cpnID +:+ "@" +:+ param) = (Ok (CList a off len), s) →
  s1 = with_heap (cs_heap s1) s → h_maps (cs_heap s1) = h_maps (cs_heap s) → h_next (cs_heap s) ≤ h_next (cs_heap s1) →
  ∃ s2, SetVar cpnID param v s1 = Some s2 ∧ h_arrays (cs_heap s2) = h_arrays (cs_heap s1) ∧ h_next (cs_heap s1) ≤ h_next (cs_heap s2).
Proof.
  intros [Hs Ho] (Hsplit & Hsys & Henv) Hget E Hm Hn. unfold GetVar in Hget.
  rewrite decide_False in Hget by (intros E0; rewrite E0 in Hsplit; by vm_compute in Hsplit).
  unfold getVarLocked in Hget. rewrite !decide_False in Hget by (intros E0; rewrite E0 in Hsplit; by vm_compute in Hsplit).
  rewrite Hsys, Henv, Hsplit in Hget. destruct (cs_outputs s !! cpnID) as [l|] eqn:El; [|done].
  unfold SetVar, bucket. assert (cs_outputs s1 = cs_outputs s) as -> by by rewrite E. rewrite El.
  unfold dotTraverse in Hget. case_decide; [done|]. destruct (walk _ _ _) as [c h1] eqn:Ew. injection Hget as -> _.
  destruct (set_parts_total (cs_heap s) (cs_heap s1) l (split_on "."%char param) v a off len h1) as [h2 Hset]; [done..|by eapply Ho|done|].
  exists (with_heap h2 s1). rewrite Hset. split; [done|]. by apply set_parts_arrays in Hset.
Qed.

Lemma assign_list cpnID param a off len o s :
  sound_state s → plain_ref cpnID param → cpnID ≠ "" → param ≠ "" → list_at (cpnID +:+ "@" +:+ param) s a off len → op_ok (cs_heap s) a o →
  ∃ r s' a' off' len',
    assign_one 0 (cpnID +:+ "@" +:+ param) (operator o).1 (operator o).2 s = Some (Ok r, s') ∧
    sound_state s' ∧ list_at (cpnID +:+ "@" +:+ param) s' a' off' len' ∧
    elems (cs_heap s') a' off' len' = list_spec (cs_heap s) o (elems (cs_heap s) a off len) ∧
    (a' = a ∨ a' = h_next (cs_heap s)) ∧ h_next (cs_heap s) ≤ h_next (cs_heap s') ∧
    ∀ b, b ≠ a → b < h_next (cs_heap s) → array (cs_heap s') b = array (cs_heap s) b.
Proof.
  intros Hs Hplain Hcpn Hparam [Hget Ha Hb] Ho. unfold assign_one. rewrite Hget.
  destruct (operate_list a off len o s (state_sound _ Hs) Ha Hb Ho) as (r & s1 & -> & Hr). cbn [mbind option_bind].
  destruct r as [c|e].
  - destruct Hr as [(a' & off' & len' & -> & He & Hb' & Ha' & Han) Hheap Hsound Hmaps Hnext Hoth].
    assert (sound_state s1) as Hs1.
    { split; [done|]. intros k l Hk. rewrite Hheap in Hk. apply (state_outputs _ Hs) in Hk. lia. }
    destruct (SetVar_list s s1 cpnID param a off len (CList a' off' len')) as (s2 & Hset & Harr & Hn2); [done..|].
    destruct (SetVar_holds s1 cpnID param (CList a' off' len') s2) as (Hget2 & _ & Hs2); [done..|].
    assert (∀ b, array (cs_heap s2) b = array (cs_heap s1) b) as Harr' by (intros b; unfold array; by rewrite Harr).
    exists None, s2, a', off', len'. split_and!.
    + destruct Hplain as (Hsplit & Hsys & Henv). unfold writeVar.
      rewrite !decide_False by (intros E0; rewrite E0 in Hsplit; by vm_compute in Hsplit). rewrite Hsys, Henv, Hsplit.
      destruct cpnID as [|x cpnID]; [done|]. by rewrite Hset.
    + apply Hs2; [done|]. by intros b m [=].
    + split; [done|lia|by rewrite Harr'].
    + unfold elems in He |- *. by rewrite Harr'.
    + done.
    + lia.
    + intros b Hba Hbn. rewrite Harr'. unfold array. by rewrite Hoth.
  - destruct Hr as [-> Hspec]. exists (Some e), s, a, off, len. split_and!; try done; by left.
Qed.

End list_variable.

(** ** One assignment *)
Section assignment.
Context `{GoRuntime} `{SliceGrowth}.

Lemma add_items_error old more s e s' :
  canvas_ok s → add_items old more s = (Err e, s') → later s s'.
Proof.
  intros Hok. unfold add_items. assert (later s (with_heap (or_empty old (cs_heap s)).2 s)) as Hl.
  { apply later_intro; destruct old as [[]| |]; try apply Hok; try done; [by apply sound_new_array; [apply Hok|]|apply extends_new_array]. }
  destruct (or_empty old (cs_heap s)) as [c h]. cbn [snd] in Hl. destruct (as_slice c) as [l|], more as [more|e']; try by intros [= _ <-].
  destruct (items_of _ l) as [|x ?], more as [|p more]; try (by destruct (append_to _ _ _)).
  destruct (compatibleElemType x p); [by destruct (append_to _ _ _)|by intros [= _ <-]].
Qed.

(** The branches of [operate]. *)
Lemma operate_cases (P : option (result string cell * CanvasState) → Prop) old op p s :
  P (Some (match p with
           | CVal (VStr t) =>
               match GetVar s (stripVarBraces t) with
               | (Ok c, s) => (Ok c, s)
               | (Err _, s) => (Err "ERROR:PARAMETER_UNRESOLVED", s)
               end
           | _ => (Ok p, s)
           end)) →
  P (let '(c, h) := clear_value old (cs_heap s) in Some (Ok c, with_heap h s)) →
  P ('(c, s) ← set_value old p s; Some (Ok c, s)) →
  P (let '(c, s) := resolveParamValue p (GetVar s (asRefString p)).2 in Some (add_items old (Ok [c]) s)) →
  P (let '(c, s) := resolveParamValue p s in
     Some (add_items old (match as_slice c with Some l => Ok (items_of (cs_heap s) l) | None => Err "ERROR:PARAMETER_NOT_LIST" end) s)) →
  P (Some (remove_item true old, s)) → P (Some (remove_item false old, s)) →
  (∀ op', P (let '(pv, s) := resolveParamValue p s in Some (arithmetic op' old pv, s))) →
  P (Some (Err "ERROR:UNKNOWN_OPERATOR", s)) →
  P (operate old op p s).
Proof.
  intros. unfold operate.
  repeat first [assumption | match goal with H : ∀ _, P _ |- _ => apply H end
               | match goal with |- P (match ?x with _ => _ end) => is_var x; destruct x end].
Qed.

Lemma operate_error old op p s e s' :
  canvas_ok s → operate old op p s = Some (Err e, s') → later s s'.
Proof.
  intros Hok. pose proof (later_refl s Hok) as Hrefl.
  assert (∀ q, canvas_ok q → later q (resolveParamValue p q).2) as Hres.
  { intros q Hq. destruct p as [[]| |]; cbn; try by apply later_refl. case_decide; [by apply later_refl|].
    destruct (GetVar_later q (stripVarBraces s0) Hq) as [L _]. by destruct (GetVar q _) as [[[[]| |]|] ?]. }
  assert (∀ more s1, later s s1 → Some (add_items old more s1) = Some (Err e, s') → later s s') as Hadd.
  { intros more s1 Hl [= Ha]. eapply later_trans; [exact Hl|]. eapply add_items_error; [by eapply later_ok|done]. }
  apply operate_cases.
  - destruct p as [[]| |]; try done. destruct (GetVar_later s (stripVarBraces s0) Hok) as [L _].
    destruct (GetVar s _) as [[?|?] ?]; [done|by intros [= _ <-]].
  - by destruct (clear_value _ _).
  - by destruct (set_value _ _ _) as [[]|].
  - destruct (GetVar_later s (asRefString p) Hok) as [L _]. pose proof (Hres _ (later_ok _ _ Hok L)) as L'.
    destruct (resolveParamValue _ _) as [c s1]. apply Hadd. by eapply later_trans.
  - pose proof (Hres s Hok) as L. destruct (resolveParamValue _ _) as [c s1]. by apply Hadd.
  - by intros [= _ <-].
  - by intros [= _ <-].
  - intros op'. pose proof (Hres s Hok) as L. destruct (resolveParamValue _ _) as [pv s1]. by intros [= _ <-].
  - by intros [= _ <-].
Qed.

(** An operator may write into an array but keeps the state sound. *)
Definition kept (s s' : CanvasState) : Prop :=
  s' = with_heap (cs_heap s') s ∧ sound (cs_heap s') ∧ h_next (cs_heap s) ≤ h_next (cs_heap s').

Lemma later_kept s s' : later s s' → kept s s'.
Proof. by intros (? & ? & [? _]). Qed.

Lemma kept_ok s s' : canvas_ok s → kept s s' → canvas_ok s'.
Proof.
  intros [[Hs Ho] Hm] (E & S & Hn). rewrite E. split; [split; [done|]|cbn; lia]. intros k l Hk. apply Ho in Hk. cbn. lia.
Qed.

Lemma kept_trans s1 s2 s3 : kept s1 s2 → kept s2 s3 → kept s1 s3.
Proof. intros (E1 & _ & L1) (E2 & S2 & L2). split_and!; [|done|lia]. rewrite E2 at 1. by rewrite E1. Qed.

Lemma append_to_kept l more s :
  sound (cs_heap s) → match l with Some (a, _, _) => a < h_next (cs_heap s) | None => True end → Forall (in_heap (cs_heap s)) more →
  kept s (with_heap (append_to l more (cs_heap s)).2 s).
Proof.
  intros Hs Hl Hmore.
  assert (∀ a off len h, sound h → a < h_next h → Forall (in_heap h) more → h_next h ≤ h_next (append a off len more h).2) as Hnext.
  { intros a off len h _ _ _. unfold append. case_decide; [|cbn; lia]. cbn. by rewrite (proj1 (proj2 (write_items_frame _ _ _ _))). }
  unfold append_to. destruct l as [[[a off] len]|].
  - split_and!; [done|by apply sound_append|by apply Hnext].
  - destruct more as [|x more]; [by split_and!|].
    assert (sound (new_array [] (cs_heap s)).2) as Hn by (by apply sound_new_array).
    assert (Forall (in_heap (new_array [] (cs_heap s)).2) (x :: more)) as Hf
      by (eapply Forall_impl; [exact Hmore|]; intros c; apply in_heap_mono; cbn; lia).
    change (let '(a, h) := new_array [] (cs_heap s) in append a 0 0 (x :: more) h) with
      (append (h_next (cs_heap s)) 0 0 (x :: more) (new_array [] (cs_heap s)).2).
    split_and!; [done|apply sound_append; [done|cbn; lia|done]|].
    etrans; [|apply Hnext; [done|cbn; lia|done]]. cbn. lia.
Qed.

Lemma add_items_kept old more s :
  canvas_ok s → in_heap (cs_heap s) old → (∀ l, more = Ok l → Forall (in_heap (cs_heap s)) l) → kept s (add_items old more s).2.
Proof.
  intros Hok Hold Hmore. unfold add_items.
  assert (later s (with_heap (or_empty old (cs_heap s)).2 s) ∧ in_heap (or_empty old (cs_heap s)).2 (or_empty old (cs_heap s)).1) as [Hl Hc].
  { destruct old as [[]| |]; cbn [or_empty fst snd]; split; try (by rewrite with_heap_same; apply later_refl); try done.
    - apply later_intro; [by apply sound_new_array; [apply Hok|]|apply extends_new_array].
    - cbn. lia. }
  destruct (or_empty old (cs_heap s)) as [c h]. cbn [fst snd] in *. set (s1 := with_heap h s) in *.
  assert (∀ l more', more = Ok more' → as_slice c = Some l → kept s (with_heap (append_to l more' (cs_heap s1)).2 s1)) as Happ.
  { intros l more' -> Hl'. eapply kept_trans; [by apply later_kept|]. apply append_to_kept; [apply Hl| |].
    - destruct c as [[]| |]; try done; [|by injection Hl' as <-]. destruct t; try done. destruct t; try done. by injection Hl' as <-.
    - eapply Forall_impl; [by apply Hmore|]. intros x. by apply later_in_heap. }
  pose proof (later_kept _ _ Hl) as Hk. destruct (as_slice c) as [l|] eqn:El; [|done]. destruct more as [more|e]; [|done].
  specialize (Happ l more eq_refl eq_refl). change (cs_heap s1) with h in *. destruct (append_to l more h) as [c' h'].
  destruct (items_of h l) as [|x ?], more as [|p more]; [exact Happ..|]. by destruct (compatibleElemType x p).
Qed.

Lemma items_in_heap h c l : sound h → as_slice c = Some l → Forall (in_heap h) (items_of h l).
Proof.
  intros Hs Hc. destruct l as [[[a off] len]|]; [|constructor]. apply Forall_forall. intros x Hx. by eapply sound_elem, elem_of_elems.
Qed.

Lemma set_value_later old p s c s' : canvas_ok s → set_value old p s = Some (c, s') → later s s'.
Proof.
  intros Hok. pose proof (later_refl s Hok) as Hrefl.
  assert (∀ s1 t, later s s1 →
    (if Index "{{" t then '(out, err, s) ← ResolveTemplate t s1; Some (match err with None => CVal (VStr out) | Some _ => p end, s)
     else Some (p, s1)) = Some (c, s') → later s s') as Htemplate.
  { intros s1 t Hl. destruct (Index "{{" t); [|by intros [= _ <-]]. destruct (ResolveTemplate t s1) as [[[out err] s2]|] eqn:E; [|done].
    intros [= _ <-]. eapply later_trans; [exact Hl|]. eapply ResolveTemplate_later, E. by eapply later_ok. }
  assert ((match p with
      | CVal (VStr t) =>
          if decide (t = "") then Some (p, s)
          else match GetVar s t with
               | (Ok (CVal VNil), s) | (Err _, s) =>
                   if Index "{{" t then '(out, err, s) ← ResolveTemplate t s; Some (match err with None => CVal (VStr out) | Some _ => p end, s)
                   else Some (p, s)
               | (Ok c, s) => Some (c, s)
               end
      | _ => Some (p, s)
      end) = Some (c, s') → later s s') as Hstring.
  { destruct p as [[]| |]; try by intros [= _ <-]. case_decide; [by intros [= _ <-]|]. destruct (GetVar_later s s0 Hok) as [L _].
    destruct (GetVar s s0) as [[[[]| |]|] s1]; cbn [snd] in L; try (by intros [= _ <-]); by apply Htemplate. }
  destruct old as [[]| |]; try exact Hstring; by intros [= _ <-].
Qed.

Lemma operate_kept old op p s r s' :
  canvas_ok s → in_heap (cs_heap s) old → in_heap (cs_heap s) p → operate old op p s = Some (r, s') → kept s s'.
Proof.
  intros Hok Hold Hp. pose proof (later_kept _ _ (later_refl s Hok)) as Hrefl. pose proof (resolveParamValue_later p s Hok Hp) as [L C].
  apply operate_cases.
  - intros [= Ho]. destruct p as [[]| |]; try (by injection Ho as _ <-).
    destruct (GetVar_later s (stripVarBraces s0) Hok) as [L' _]. destruct (GetVar s _) as [[?|?] ?]; injection Ho as _ <-; by apply later_kept.
  - assert (later s (with_heap (clear_value old (cs_heap s)).2 s)) as Hl.
    { pose proof (state_sound _ (ok_state _ Hok)) as Hs.
      assert (later s (with_heap (cs_heap s) s)) by (by rewrite with_heap_same; apply later_refl).
      assert (later s (with_heap (new_list [] (cs_heap s)).2 s)) by (apply later_intro; [by apply sound_new_array|apply extends_new_array]).
      assert (later s (with_heap (new_map ∅ (cs_heap s)).2 s)) by (apply later_intro; [by apply sound_new_map|apply extends_new_map]).
      destruct old as [[]| |]; try done; [by destruct k|]. destruct t; try done; by destruct t. }
    destruct (clear_value _ _) as [c h]. intros [= _ <-]. by apply later_kept.
  - intros Hset. destruct (set_value old p s) as [[c s1]|] eqn:E; [|done]. injection Hset as _ <-.
    by eapply later_kept, set_value_later.
  - destruct (GetVar_later s (asRefString p) Hok) as [L1 _]. pose proof (later_ok _ _ Hok L1) as Hok1.
    destruct (resolveParamValue_later p (GetVar s (asRefString p)).2 Hok1) as [L2 C2]; [by eapply later_in_heap|].
    destruct (resolveParamValue p (GetVar s (asRefString p)).2) as [c s1]. cbn in L2, C2. intros [= Ha]. pose proof (later_trans _ _ _ L1 L2) as L3.
    eapply kept_trans; [by apply later_kept, L3|]. replace s' with (add_items old (Ok [c]) s1).2 by by rewrite Ha.
    apply add_items_kept; [by eapply later_ok|by eapply later_in_heap|]. intros l [= <-]. by constructor.
  - destruct (resolveParamValue p s) as [c s1]. cbn in L, C. intros [= Ha]. eapply kept_trans; [by apply later_kept, L|].
    pose proof (later_ok _ _ Hok L) as Hok1.
    match type of Ha with add_items _ ?more _ = _ => replace s' with (add_items old more s1).2 by (by rewrite Ha) end.
    apply add_items_kept; [done|by eapply later_in_heap|]. intros l Hl. destruct (as_slice c) as [l'|] eqn:E; [|done]. injection Hl as <-.
    eapply items_in_heap; [apply Hok1|exact E].
  - by intros [= _ <-].
  - by intros [= _ <-].
  - intros op'. destruct (resolveParamValue p s) as [c s1]. intros [= _ <-]. by apply later_kept.
  - by intros [= _ <-].
Qed.

End assignment.

(** ** Examples *)
(** An assignment on the heap. *)
Definition tuple (variable operator : string) (parameter : cell) : gmap string cell :=
  {["variable" := CVal (VStr variable); "operator" := CVal (VStr operator); "parameter" := parameter]}.
Definition with_item (m : gmap string cell) (s : CanvasState) : CanvasState := with_heap (new_map m (cs_heap s)).2 s.

Definition counting_state : CanvasState :=
  with_item (tuple "begin@x" "+=" (CVal (VFloat (float_of_int 2)))) (set "begin" "x" (CVal (VInt 5)) begun_state).

Lemma counting_state_ok : canvas_ok counting_state.
Proof.
  assert (canvas_ok (set "begin" "x" (CVal (VInt 5)) begun_state)) as Hok.
  { apply (set_ok (H := doubling)); [exact begun_state_ok|split_and!; by vm_compute|done|done|done|by eexists|by apply Nat.ltb_lt; vm_compute..]. }
  eapply later_ok; [exact Hok|]. apply later_intro; [|apply extends_new_map]. apply sound_new_map_cells; [apply Hok|].
  intros k c. unfold tuple. rewrite !lookup_insert_Some, lookup_singleton_Some. naive_solver.
Qed.


Definition list_state : CanvasState :=
  let '(c, h) := new_list [] (cs_heap begun_state) in set "begin" "x" c (with_heap h begun_state).

Lemma list_state_ok : canvas_ok list_state.
Proof.
  assert (canvas_ok (with_heap (new_array [] (cs_heap begun_state)).2 begun_state)) as Hok.
  { eapply later_ok; [exact begun_state_ok|]. apply later_intro; [|apply extends_new_array]. apply sound_new_array; [apply begun_state_ok|done]. }
  apply (set_ok (H := doubling) "x" (CList 4 0 0)); [exact Hok|split_and!; by vm_compute|done|by apply Nat.ltb_lt; vm_compute|done|by eexists|by apply Nat.ltb_lt; vm_compute..].
Qed.


Definition assign (ref op : string) (p : cell) (s : CanvasState) : CanvasState :=
  match @assign_one fixed_addresses doubling 0 ref op p s with Some (_, s) => s | None => s end.

(** Two variables that share a list: dropping the last item of one and appending to it
    changes the item of the other. *)
Example shared_list :
  let s := assign "begin@x" "append" (CVal (VInt 2)) (assign "begin@x" "append" (CVal (VInt 1)) list_state) in
  let s := assign "begin@y" "overwrite" (CVal (VStr "begin@x")) s in
  let s := assign "begin@y" "append" (CVal (VInt 9)) (assign "begin@y" "remove_last" CNil s) in
  value (cs_heap s) (get "begin@x" s) = Some (VList [VInt 1; VInt 9]).
Proof. by vm_compute. Qed.

(** Numbers of other widths pass the check but count as zero. *)
Example narrow_numbers_are_zero :
  @operate fixed_addresses doubling (CVal (VNum Uint8 200)) "+=" (CVal (VInt 1)) begun_state =
  Some (Ok (CVal (VFloat (float_of_int 1))), begun_state).
Proof. by vm_compute. Qed.

(** A nested variable of sys is written under its whole name and not read back. *)
Example nested_sys_lost :
  get "sys.user.name" (assign "sys.user.name" "set" (CVal (VStr "Ada")) begun_state) = CNil ∧
  obj (cs_heap (assign "sys.user.name" "set" (CVal (VStr "Ada")) begun_state)) 0 = {["user.name" := CVal (VStr "Ada")]}.
Proof. split; by vm_compute. Qed.

(** The assignments of a run replace those of the component. *)
Example override_stays :
  override {["variables" := CList 4 0 1]} [Some 7; Some 8] (new_array [CMap 9] (cs_heap begun_state)).2 = ([Some 9], [Some 9; Some 8]).
Proof. by vm_compute. Qed.

(** Clearing a float leaves an integer, which a float cannot be appended next to. *)
Example clear_changes_kind :
  goKind (clear_value (CVal (VFloat (float_of_int 3))) empty_heap).1 = "int" ∧ goKind (CVal (VFloat (float_of_int 3))) = "float".
Proof. done. Qed.
