(* ===== verification/ListOperations.v ===== *)
(** * Transforming lists of a canvas (internal/agent/component/list_operations.go)

    A component that takes a list from a variable and picks, filters, sorts or
    deduplicates its items.  The result holds the same cells; what is printed or
    compared is the value of a cell.  [sort.SliceStable] is a parameter with what its
    documentation promises. *)
From Stdlib Require Import Ascii.
From S2P Require Import Prelude Values Format Json JsonText GoStrings.
From S2P Require MetaFilter.
From S2P Require Export Canvas.

(** ** Stable sorting

    [sort.SliceStable] gives the items in ascending order, equal ones in the order
    they had, if [less] is an order on them; a permutation of them in any case. *)
Class SliceStable := { slice_stable : ∀ {A : Type}, (A → A → bool) → list A → list A }.

(** A strict weak order on the values with a property. *)
Record weak_order {A} (less : A → A → bool) (P : A → Prop) : Prop := {
  wo_asym x y : P x → P y → less x y = true → less y x = false;
  wo_between x y z : P x → P y → P z → less x z = true → less x y = true ∨ less y z = true
}.
Definition ties {A} (less : A → A → bool) (x y : A) : bool := negb (less x y) && negb (less y x).

Class SliceStableLaws `{SliceStable} := {
  stable_perm {A} (less : A → A → bool) l : slice_stable less l ≡ₚ l;
  stable_sorted {A} (less : A → A → bool) l :
    weak_order less (λ x, x ∈ l) → StronglySorted (λ x y, less y x = false) (slice_stable less l);
  stable_ties {A} (less : A → A → bool) l x :
    weak_order less (λ x, x ∈ l) → x ∈ l → filter (λ y, ties less x y = true) (slice_stable less l) = filter (λ y, ties less x y = true) l
}.

Section operations.
Context `{GoRuntime} `{GoFloat} `{SliceGrowth} `{SliceStable} `{UnicodeCase} `{UnicodeFold}.

(** ** Parameters *)
Definition coerceBool (v : val) : bool :=
  match v with
  | VBool b => b
  | VStr s => bool_decide (ToLower (trim_space s) ∈ ["1"; "true"; "yes"; "on"])
  | _ => false
  end.

Record listOperationsParam := MkParam {
  Query : string; Operations : string; N : Z; Strict : bool; SortMethod : string; SortBy : list string; Filter : gmap string val
}.

Definition normalizeListOperationName (op : string) : string :=
  if decide (ToLower (trim_space op) = "topn") then "head" else op.

Definition trimmed (l : list string) : list string := filter (λ s, s ≠ "") (trim_space <$> l).
Definition parseSortByFieldList (v : val) : list string :=
  match v with
  | VStr s => trimmed (split_on ","%char s)
  | VSlice TAny l => trimmed (omap as_string l)
  | VSlice TString l => trimmed (omap as_string l)
  | _ => []
  end.

Definition toInt (v : val) : Z :=
  match v with
  | VInt z | VNum Int64 z => z
  | VFloat f => int64_of_float f
  | VStr s => default 0%Z (scan_int s)
  | VBool b => if b then 1%Z else 0%Z
  | _ => 0%Z
  end.

Definition string_or (m : gmap string val) (k d : string) : string :=
  let s := default "" (as_string (map_get m k)) in if decide (s = "") then d else s.

(** [strict] keeps its value if there is none in the configuration. *)
Definition Update (conf : gmap string val) (p : listOperationsParam) : listOperationsParam :=
  MkParam (string_or conf "query" "") (normalizeListOperationName (string_or conf "operations" "nth")) (toInt (map_get conf "n"))
          (match conf !! "strict" with Some v => coerceBool v | None => Strict p end) (string_or conf "sort_method" "asc")
          (parseSortByFieldList (map_get conf "sort_by")) (default ∅ (as_map (map_get conf "filter"))).

Definition no_param : listOperationsParam := MkParam "" "" 0 false "" [] ∅.
Definition operations : list string := ["nth"; "head"; "tail"; "filter"; "sort"; "drop_duplicates"].

(** The name of the parameter that is wrong. *)
Definition Check_ (p : listOperationsParam) : option string :=
  if decide (Query p = "") then Some "query"
  else if decide (Operations p ∈ operations) then None else Some "operations".
Definition NewListOperationsComponent (conf : gmap string val) : result string listOperationsParam :=
  let p := Update conf no_param in match Check_ p with Some f => Err f | None => Ok p end.

(** ** Picking

    A pick is a list, the error of strict mode or an index that ends the program:
    only the former is recovered. *)
Inductive pick (A : Type) := Items (l : list A) | RangeError | IndexOutOfRange.
#[global] Arguments Items {A} _.
#[global] Arguments RangeError {A}.
#[global] Arguments IndexOutOfRange {A}.

Section picking.
Context {A : Type} (p : listOperationsParam).

Definition strict_or_empty : pick A := if Strict p then RangeError else Items [].

Definition opNth (items : list A) : pick A :=
  let len := Z.of_nat (length items) in
  if decide (N p = 0)%Z then strict_or_empty
  else if decide (0 < N p)%Z then
    if decide (N p <= len)%Z then
      match items !! Z.to_nat (N p - 1) with Some x => Items [x] | None => IndexOutOfRange end
    else strict_or_empty
  else if decide (wrap64 (- N p) <= len)%Z then IndexOutOfRange
  else strict_or_empty.

Definition opHead (items : list A) : pick A :=
  let len := Z.of_nat (length items) in
  if Strict p then if decide (N p < 1 ∨ len < N p)%Z then RangeError else Items (take (Z.to_nat (N p)) items)
  else if decide (N p < 1)%Z then Items [] else Items (take (Z.to_nat (Z.min (N p) len)) items).

Definition opTail (items : list A) : pick A :=
  let len := Z.of_nat (length items) in
  if Strict p then if decide (N p < 1 ∨ len < N p)%Z then RangeError else Items (drop (Z.to_nat (len - N p)) items)
  else if decide (N p < 1)%Z then Items [] else Items (drop (Z.to_nat (len - Z.min (N p) len)) items).
End picking.

(** ** Filtering *)
Definition normValue (v : val) : string :=
  match v with VNil => "" | VBool b => if b then "True" else "False" | v => fmt_v v end.

Definition evalFilter (v op target : string) : bool :=
  if decide (op = "=") then bool_decide (v = target)
  else if decide (op = "≠") then bool_decide (v ≠ target)
  else if decide (op = "contains") then MetaFilter.contains v target
  else if decide (op = "start with") then is_prefix target v
  else if decide (op = "end with") then MetaFilter.has_suffix v target
  else false.

Section comparing.
Context {A : Type} (val_of : A → val) (p : listOperationsParam).

Definition opFilter (items : list A) : list A :=
  let op := string_or (Filter p) "operator" "" in
  let target := string_or (Filter p) "value" "" in
  filter (λ x, evalFilter (normValue (val_of x)) op target = true) items.
End comparing.

(** ** Keys *)
Fixpoint hashableKey (v : val) : val :=
  match v with
  | VMap TAny m =>
      let keyed := hashableKey <$> m in
      VList (sort_strings (map_to_list m).*1 ≫= λ k, [VStr k; default VNil (keyed !! k)])
  | VSlice TAny l => VList (hashableKey <$> l)
  | VTypedNil (TMap TAny | TSlice TAny) => VList []
  | v => v
  end.
Definition dedupKey (v : val) : string := match marshal (hashableKey v) with Some t => t | None => fmt_v v end.

(** Numbers that are compared as such. *)
Definition toFloat64OK (v : val) : option spec_float :=
  match v with VInt z | VNum Int64 z => Some (float_of_int z) | VFloat f => Some f | _ => None end.
Definition lessScalar (a b : val) : bool :=
  match toFloat64OK a, toFloat64OK b with
  | Some x, Some y => SFltb x y
  | _, _ => MetaFilter.str_ltb (fmt_v a) (fmt_v b)
  end.

Fixpoint less_items (l k : list val) : bool :=
  match l, k with
  | x :: l, y :: k => if lessScalar x y then true else if lessScalar y x then false else less_items l k
  | [], _ :: _ => true
  | _, [] => false
  end.
Definition lessKey (a b : val) : bool :=
  match as_list a, as_list b with Some l, Some k => less_items l k | _, _ => lessScalar a b end.

Section sorting.
Context {A : Type} (val_of : A → val) (p : listOperationsParam).

(** The key of an item that is compared as a map. *)
Definition sort_key (v : val) : val :=
  match SortBy p with
  | [] => hashableKey v
  | fields => VList ((λ k, map_get (default ∅ (as_map v)) k) <$> fields)
  end.

Definition is_map (v : val) : bool := match as_map v with Some _ => true | None => false end.

(** The order of the items in ascending direction: by key if the first one is a map. *)
Definition item_less (first : val) (a b : val) : bool :=
  if is_map first then lessKey (sort_key a) (sort_key b) else lessScalar a b.
Definition descending : bool := EqualFold (SortMethod p) "desc".

Definition opSort (items : list A) : list A :=
  match items with
  | [] => []
  | x :: _ =>
      slice_stable (λ a b, if descending then item_less (val_of x) (val_of b) (val_of a)
                           else item_less (val_of x) (val_of a) (val_of b)) items
  end.

Fixpoint dedup (seen : gset string) (items : list A) : list A :=
  match items with
  | [] => []
  | x :: items =>
      let k := dedupKey (val_of x) in
      if decide (k ∈ seen) then dedup seen items else x :: dedup ({[k]} ∪ seen) items
  end.
Definition opDropDuplicates (items : list A) : list A := dedup ∅ items.
End sorting.

(** ** The component *)
Inductive list_error := QueryFailed (err : ref_error) | NotList | Unsupported (op : string) | OutOfStrictRange (op : string) (n : Z).

(** The result with its first and last item, an error, or an index that ends the
    program. *)
Inductive list_outcome := Done (result : list cell) (first last : cell) | Failed (e : list_error) | Crash.

Definition finish (p : listOperationsParam) (r : pick cell) : list_outcome :=
  match r with
  | Items l => Done l (default CNil (head l)) (default CNil (last l))
  | RangeError => Failed (OutOfStrictRange (Operations p) (N p))
  | IndexOutOfRange => Crash
  end.

(** An operation that looks at values; [None] if an item contains itself. *)
Definition on_values (h : heap) (f : list (cell * val) → list (cell * val)) (items : list cell) : option (pick cell) :=
  vs ← sequence (value h <$> items); Some (Items (f (zip items vs)).*1).

Definition apply_operation (h : heap) (p : listOperationsParam) (items : list cell) : option (pick cell) :=
  match Operations p with
  | "nth" => Some (opNth p items)
  | "head" => Some (opHead p items)
  | "tail" => Some (opTail p items)
  | "filter" => on_values h (opFilter snd p) items
  | "sort" => on_values h (opSort snd p) items
  | _ => on_values h (opDropDuplicates snd) items
  end.

(** [c.([]any)]. *)
Definition list_items (h : heap) (c : cell) : option (list cell) :=
  match c with
  | CList a off len => Some (elems h a off len)
  | CVal (VTypedNil (TSlice TAny)) => Some []
  | _ => None
  end.

Definition Invoke (p : listOperationsParam) (s : CanvasState) : option (list_outcome * CanvasState) :=
  match GetVar s (Query p) with
  | (Err e, s) => Some (Failed (QueryFailed e), s)
  | (Ok c, s) =>
      match list_items (cs_heap s) c with
      | None => Some (Failed NotList, s)
      | Some items =>
          if decide (Operations p ∉ operations) then Some (Failed (Unsupported (Operations p)), s)
          else r ← apply_operation (cs_heap s) p items; Some (finish p r, s)
      end
  end.
End operations.
