(* ===== verification/ListOpsProps.v ===== *)
(** * What the list operations guarantee

    The result holds items of the list; sorting orders them, stably, when their keys
    can be compared; deduplication keeps the first item of every key.  Examples show
    the index from the end that crashes, keys that are no order and different items
    with one key. *)
From Stdlib Require Import Ascii.
From S2P Require Import Prelude Values Format Json JsonText.
From S2P Require MetaFilter.
From S2P Require Export CanvasReads ListOperations.

(** ** Orders *)
Lemma flip_order {A} (less : A → A → bool) P : weak_order less P → weak_order (λ x y, less y x) P.
Proof.
  intros [Ha Hb]. split; [intros x y Hx Hy; by apply Ha|]. intros x y z Hx Hy Hz Hzx. destruct (Hb z y x Hz Hy Hx Hzx); auto.
Qed.

Lemma sub_order {A} (less : A → A → bool) (P Q : A → Prop) : (∀ x, Q x → P x) → weak_order less P → weak_order less Q.
Proof. intros HQ [Ha Hb]. split; eauto. Qed.

Lemma map_order {A B} (f : B → A) less (P : A → Prop) : weak_order less P → weak_order (λ x y, less (f x) (f y)) (λ x, P (f x)).
Proof. intros [Ha Hb]. split; eauto. Qed.

Lemma ext_order {A} (less less' : A → A → bool) P :
  (∀ x y, P x → P y → less' x y = less x y) → weak_order less P → weak_order less' P.
Proof.
  intros He [Ha Hb]. split.
  - intros x y Hx Hy. rewrite !He by done. auto.
  - intros x y z Hx Hy Hz. rewrite !He by done. eauto.
Qed.

Lemma float_order : weak_order SFltb (λ f, f ≠ S754_nan).
Proof.
  split.
  - intros x y _ _. unfold SFltb. rewrite (MetaFilter.SFcompare_swap x y). by destruct (SFcompare x y) as [[]|].
  - intros x y z Hx Hy Hz. unfold SFltb.
    destruct x as [[]|[]| |[] mx ex], y as [[]|[]| |[] my ey], z as [[]|[]| |[] mz ez]; try done; cbn; try (by auto).
    all: change (PosDef.Pos.compare_cont Eq ?m ?n) with (Pos.compare m n).
    all: destruct (Z.compare_spec ex ez), (Z.compare_spec ex ey), (Z.compare_spec ey ez); try lia; auto.
    all: destruct (Pos.compare_spec mx mz), (Pos.compare_spec mx my), (Pos.compare_spec my mz); try lia; auto.
Qed.

Lemma string_less_order : weak_order MetaFilter.str_ltb (λ _, True).
Proof.
  unfold MetaFilter.str_ltb. split.
  - intros x y _ _. rewrite andb_true_iff, andb_false_iff, !bool_decide_eq_true, !bool_decide_eq_false.
    intros [Hle Hne]. left. intros Hle'. apply Hne. by apply (anti_symm String.le).
  - intros x y z _ _ _. rewrite !andb_true_iff, !bool_decide_eq_true. intros [Hle Hne].
    destruct (total String.le x y) as [Hxy|Hyx].
    + destruct (decide (x = y)) as [<-|]; [by right|by left].
    + right. split; [by etrans|]. intros ->. apply Hne. by apply (anti_symm String.le).
Qed.

(** Values that are compared in one way: as numbers, or as texts. *)
Definition comparable (P : val → Prop) : Prop :=
  (∀ v, P v → ∃ f, toFloat64OK v = Some f ∧ f ≠ S754_nan) ∨ (∀ v, P v → toFloat64OK v = None).

(** *** Sorting by insertion is stable *)
Section insertion.
Context {A : Type} (less : A → A → bool).

Fixpoint insert_by (x : A) (l : list A) : list A :=
  match l with [] => [x] | y :: l' => if less y x then y :: insert_by x l' else x :: l end.
Definition insertion_sort (l : list A) : list A := foldr insert_by [] l.

Lemma insert_by_perm x l : insert_by x l ≡ₚ x :: l.
Proof. induction l as [|y l IH]; [done|]. cbn. destruct (less y x); [|done]. rewrite IH. by apply perm_swap. Qed.

Lemma insertion_sort_perm l : insertion_sort l ≡ₚ l.
Proof. induction l as [|x l IH]; [done|]. cbn. by rewrite insert_by_perm, IH. Qed.

Context (P : A → Prop) (Ho : weak_order less P).

Lemma insert_by_sorted x l :
  P x → Forall P l → StronglySorted (λ a b, less b a = false) l → StronglySorted (λ a b, less b a = false) (insert_by x l).
Proof.
  intros Hx Hl Hs. induction Hs as [|y l Hs IH Hy]; [by repeat constructor|]. apply Forall_cons in Hl as [HPy Hl]. cbn.
  destruct (less y x) eqn:E.
  - constructor; [by apply IH|]. rewrite insert_by_perm. constructor; [by apply (wo_asym _ _ Ho)|done].
  - constructor; [by constructor|]. constructor; [done|]. rewrite Forall_forall in Hy, Hl |- *. intros z Hz.
    destruct (less z x) eqn:Ez; [|done]. destruct (wo_between _ _ Ho z y x) as [?|?]; [by apply Hl|done|done|done| |congruence].
    specialize (Hy z Hz). cbn in Hy. congruence.
Qed.

Lemma insertion_sort_sorted l : Forall P l → StronglySorted (λ a b, less b a = false) (insertion_sort l).
Proof.
  induction 1 as [|x l Hx Hl IH]; [constructor|]. cbn. apply insert_by_sorted; [done| |done]. by rewrite insertion_sort_perm.
Qed.

Lemma insert_by_ties x y l :
  P x → P y → Forall P l → filter (λ z, ties less x z = true) (insert_by y l) = filter (λ z, ties less x z = true) (y :: l).
Proof.
  intros Hx Hy Hl. induction Hl as [|z l Hz Hl IH]; [done|]. cbn [insert_by]. destruct (less z y) eqn:E; [|done].
  rewrite (filter_cons _ z), IH, (filter_cons _ y), (filter_cons _ y), (filter_cons _ z).
  destruct (decide (ties less x z = true)) as [Tz|], (decide (ties less x y = true)) as [Ty|]; try done.
  exfalso. unfold ties in Tz, Ty. rewrite andb_true_iff, !negb_true_iff in Tz, Ty.
  destruct Tz, Ty, (wo_between _ _ Ho z x y); [done..| |]; congruence.
Qed.

Lemma insertion_sort_ties l x :
  P x → Forall P l → filter (λ z, ties less x z = true) (insertion_sort l) = filter (λ z, ties less x z = true) l.
Proof.
  intros Hx Hl. induction Hl as [|y l Hy Hl IH]; [done|]. cbn. change (foldr insert_by [] l) with (insertion_sort l).
  rewrite insert_by_ties by (done || by rewrite insertion_sort_perm). by rewrite !filter_cons, IH.
Qed.
End insertion.

Definition by_insertion : SliceStable := {| slice_stable A less l := insertion_sort less l |}.
Lemma by_insertion_laws : @SliceStableLaws by_insertion.
Proof.
  split.
  - intros A less l. apply insertion_sort_perm.
  - intros A less l Ho. apply (insertion_sort_sorted less _ Ho). by apply Forall_forall.
  - intros A less l x Ho Hx. apply (insertion_sort_ties less _ Ho); [done|]. by apply Forall_forall.
Qed.

Section list_ops.
Context `{GoRuntime}.

Lemma scalar_order P : comparable P → weak_order lessScalar P.
Proof.
  intros [Hn|Hn].
  - apply (ext_order (λ a b, SFltb (default (S754_zero false) (toFloat64OK a)) (default (S754_zero false) (toFloat64OK b)))).
    + intros x y Hx Hy. unfold lessScalar. destruct (Hn x Hx) as (f & -> & _), (Hn y Hy) as (g & -> & _). done.
    + eapply sub_order, (map_order (λ v, default (S754_zero false) (toFloat64OK v)) SFltb _ float_order).
      intros v Hv. cbn. by destruct (Hn v Hv) as (f & -> & ?).
  - apply (ext_order (λ a b, MetaFilter.str_ltb (fmt_v a) (fmt_v b))).
    + intros x y Hx Hy. unfold lessScalar. by rewrite (Hn x Hx).
    + eapply sub_order, (map_order fmt_v _ _ string_less_order). done.
Qed.

(** Lists whose items at each place can be compared. *)
Definition columns (P : nat → val → Prop) (l : list val) : Prop := ∀ j v, l !! j = Some v → P j v.

Lemma columns_cons P x l : columns P (x :: l) → P 0 x ∧ columns (λ j, P (S j)) l.
Proof. intros Hl. split; [by apply (Hl 0)|]. intros j v Hv. by apply (Hl (S j)). Qed.

Lemma items_order P : (∀ j, comparable (P j)) → weak_order less_items (columns P).
Proof.
  intros HP. split.
  - intros l. revert P HP. induction l as [|x l IH]; intros P HP [|y k]; try done. intros [Hx Hl]%columns_cons [Hy Hk]%columns_cons.
    pose proof (scalar_order _ (HP 0)) as [Ha _]. cbn. destruct (lessScalar x y) eqn:E.
    + intros _. by rewrite (Ha x y).
    + destruct (lessScalar y x); [done|]. apply (IH (λ j, P (S j))); eauto.
  - intros l. revert P HP. induction l as [|x l IH]; intros P HP k m Hl Hk Hm Hlm.
    { destruct m; [done|]. destruct k; [by right|by left]. }
    destruct m as [|z m]; [done|]. destruct k as [|y k]; [by right|].
    apply columns_cons in Hl as [Hx Hl], Hk as [Hy Hk], Hm as [Hz Hm]. pose proof (scalar_order _ (HP 0)) as [Ha Hb].
    cbn in *. destruct (lessScalar x y) eqn:Exy; [by left|]. destruct (lessScalar y z) eqn:Eyz; [by right|].
    destruct (lessScalar x z) eqn:Exz; [destruct (Hb x y z); [done..| |]; congruence|].
    destruct (lessScalar z x) eqn:Ezx; [done|].
    assert (lessScalar y x = false) as ->.
    { destruct (lessScalar y x) eqn:E; [|done]. destruct (Hb y z x); [done..| |]; congruence. }
    assert (lessScalar z y = false) as ->.
    { destruct (lessScalar z y) eqn:E; [|done]. destruct (Hb z x y); [done..| |]; congruence. }
    apply (IH (λ j, P (S j))); eauto.
Qed.

Context `{UnicodeCase} `{UnicodeFold}.

(** Items that can be sorted: the scalars in one way, or maps whose keys have
    columns that can be compared. *)
Definition keys (p : listOperationsParam) (v : val) : list val := default [] (as_list (sort_key p v)).
Definition sortable (p : listOperationsParam) (vs : list val) : Prop :=
  match vs with
  | [] => True
  | v :: _ =>
      if is_map v then
        (∀ w, w ∈ vs → is_map w = true) ∧ ∃ P, (∀ j, comparable (P j)) ∧ ∀ w, w ∈ vs → columns P (keys p w)
      else comparable (λ w, w ∈ vs)
  end.

Lemma map_key_list p v : is_map v = true → as_list (sort_key p v) = Some (keys p v).
Proof.
  unfold is_map, keys, sort_key. intros Hv. destruct (SortBy p); [|done].
  destruct v as [| | | | | | | |e l|e m| | | |t]; try done; [by destruct e|]. destruct t; try done. by destruct t.
Qed.

Lemma sortable_order p v vs : sortable p (v :: vs) → weak_order (item_less p v) (λ w, w ∈ v :: vs).
Proof.
  unfold sortable, item_less. destruct (is_map v); [|by apply scalar_order]. intros [Hmap (P & HP & Hcol)].
  apply (ext_order (λ a b, less_items (keys p a) (keys p b))).
  - intros x y Hx Hy. unfold lessKey. by rewrite !map_key_list by auto.
  - eapply sub_order, (map_order (keys p) less_items _ (items_order P HP)). exact Hcol.
Qed.

(** The direction of a sort. *)
Definition directed (p : listOperationsParam) (first a b : val) : bool :=
  if descending p then item_less p first b a else item_less p first a b.

(** C32: Sorting gives a permutation of the items; if their keys can be compared, as
    numbers or as texts in every column, the result is in order, ascending or
    descending, and items that compare equal stay in the order they had. *)
Theorem opSort_spec `{SliceStableLaws} {A} (val_of : A → val) p (x : A) items :
  let less a b := directed p (val_of x) (val_of a) (val_of b) in
  let sorted := opSort val_of p (x :: items) in
  sorted ≡ₚ x :: items ∧
  (sortable p (val_of <$> x :: items) →
   StronglySorted (λ a b, less b a = false) sorted ∧
   ∀ y, y ∈ x :: items → filter (λ z, ties less y z = true) sorted = filter (λ z, ties less y z = true) (x :: items)).
Proof.
  intros less sorted. split; [apply stable_perm|]. intros Hok.
  assert (weak_order less (λ y, y ∈ x :: items)) as Ho.
  { apply (sub_order _ (λ y, val_of y ∈ val_of <$> x :: items)); [intros y Hy; by apply list_elem_of_fmap_2|].
    apply (map_order val_of (directed p (val_of x)) (λ w, w ∈ val_of <$> x :: items)). unfold directed. pose proof (sortable_order p _ _ Hok) as Hs.
    destruct (descending p); [by apply flip_order|done]. }
  split; [by apply stable_sorted|]. intros y Hy. by apply stable_ties.
Qed.
End list_ops.

(** ** Deduplication *)
Section dedup.
Context `{GoRuntime} {A : Type} (val_of : A → val).

Lemma dedup_spec seen items :
  let kept := dedup val_of seen items in
  let key x := dedupKey (val_of x) in
  kept `sublist_of` items ∧ NoDup (key <$> kept) ∧ (∀ k, k ∈ key <$> kept ↔ k ∈ key <$> items ∧ k ∉ seen) ∧
  ∀ i x, items !! i = Some x → key x ∉ seen → (∀ j y, j < i → items !! j = Some y → key y ≠ key x) → x ∈ kept.
Proof.
  intros kept key. unfold kept. clear kept. revert seen. induction items as [|x items IH]; intros seen; cbn [dedup].
  { split_and!; [done|constructor|set_solver|done]. }
  fold (key x). case_decide as Hx.
  - destruct (IH seen) as (H1 & H2 & H3 & H4). split_and!; [by constructor|done| |].
    + intros k. rewrite H3, fmap_cons. set_solver.
    + intros [|i] y Hi Hy Hfirst; [by injection Hi as ->|]. apply (H4 i); [done|done|]. intros j z Hj Hz.
      apply (Hfirst (S j)); [lia|done].
  - destruct (IH ({[key x]} ∪ seen)) as (H1 & H2 & H3 & H4). split_and!; [by constructor| | |].
    + rewrite fmap_cons. constructor; [|done]. rewrite H3. set_solver.
    + intros k. rewrite !fmap_cons, !elem_of_cons, H3. destruct (decide (k = key x)); set_solver.
    + intros [|i] y Hi Hy Hfirst; [injection Hi as ->; by left|]. right. apply (H4 i); [done| |].
      * rewrite not_elem_of_union, not_elem_of_singleton. split; [|done]. intros E. by apply (Hfirst 0 x); [lia|done|].
      * intros j z Hj Hz. apply (Hfirst (S j)); [lia|done].
Qed.

(** Dropping duplicates leaves the items in their order, one of each key, the
    first one, and drops no key. *)
Theorem opDropDuplicates_spec items :
  let kept := opDropDuplicates val_of items in
  let key x := dedupKey (val_of x) in
  kept `sublist_of` items ∧ NoDup (key <$> kept) ∧ (∀ k, k ∈ key <$> kept ↔ k ∈ key <$> items) ∧
  ∀ i x, items !! i = Some x → (∀ j y, j < i → items !! j = Some y → key y ≠ key x) → x ∈ kept.
Proof.
  intros kept key. destruct (dedup_spec ∅ items) as (H1 & H2 & H3 & H4). fold (opDropDuplicates val_of items) in *.
  split_and!; [done|done| |].
  - intros k. specialize (H3 k). set_solver.
  - intros i x Hi Hfirst. apply (H4 i); [done|set_solver|done].
Qed.
End dedup.

(** ** The component *)
Lemma sequence_length {A} (l : list (option A)) r : sequence l = Some r → length r = length l.
Proof.
  revert r. induction l as [|[x|] l IH]; intros r; cbn; [by intros [= <-]| |done].
  destruct (sequence l) as [r'|]; [|done]. intros [= <-]. cbn. by rewrite (IH r').
Qed.

Section component.
Context `{GoRuntime} `{SliceGrowth} `{SliceStableLaws} `{UnicodeCase} `{UnicodeFold}.

Lemma apply_operation_items h p items l : apply_operation h p items = Some (Items l) → l ⊆+ items.
Proof.
  assert (∀ f, (∀ pairs, f pairs ⊆+ pairs) → on_values h f items = Some (Items l) → l ⊆+ items) as Hvals.
  { intros f Hf. unfold on_values. destruct (sequence _) as [vs|] eqn:E; [|done]. intros [= <-].
    etrans; [apply fmap_submseteq, Hf|]. rewrite fst_zip; [done|]. apply sequence_length in E. rewrite length_fmap in E. lia. }
  assert (∀ b : bool, (if b then RangeError else Items []) = Items l → l ⊆+ items) as Hempty
    by (intros []; [done|]; intros [= <-]; apply submseteq_nil_l).
  assert (∀ n, Items (take n items) = Items l → l ⊆+ items) as Htake by (intros n [= <-]; apply sublist_submseteq, sublist_take).
  assert (∀ n, Items (drop n items) = Items l → l ⊆+ items) as Hdrop by (intros n [= <-]; apply sublist_submseteq, sublist_drop).
  assert (Some (opNth p items) = Some (Items l) → l ⊆+ items) as Hnth.
  { unfold opNth, strict_or_empty. intros [= Hl]. repeat case_decide; try done; try by eapply Hempty.
    destruct (items !! _) as [x|] eqn:E; [|done]. injection Hl as <-. apply singleton_submseteq_l. by eapply list_elem_of_lookup_2. }
  assert (Some (opHead p items) = Some (Items l) → l ⊆+ items) as Hhead.
  { unfold opHead. intros [= Hl]. destruct (Strict p); case_decide; try done; try (by eapply Htake). injection Hl as <-. apply submseteq_nil_l. }
  assert (Some (opTail p items) = Some (Items l) → l ⊆+ items) as Htail.
  { unfold opTail. intros [= Hl]. destruct (Strict p); case_decide; try done; try (by eapply Hdrop). injection Hl as <-. apply submseteq_nil_l. }
  assert (on_values h (opFilter snd p) items = Some (Items l) → l ⊆+ items) as Hfilter
    by (apply Hvals; intros pairs; apply sublist_submseteq, sublist_filter).
  assert (on_values h (opSort snd p) items = Some (Items l) → l ⊆+ items) as Hsort.
  { apply Hvals. intros [|x pairs]; [done|]. cbn [opSort]. by rewrite stable_perm. }
  assert (on_values h (opDropDuplicates snd) items = Some (Items l) → l ⊆+ items) as Hdedup
    by (apply Hvals; intros pairs; apply sublist_submseteq, (dedup_spec snd ∅ pairs)).
  clear Hvals Hempty Htake Hdrop. unfold apply_operation. generalize (Operations p). intros op.
  repeat first [assumption | match goal with |- match ?x with _ => _ end = _ → _ => is_var x; destruct x end].
Qed.

(** Whatever the operation, a result holds items of the list, none more often than
    the list, its first and last item are exposed as such, and no variable has
    changed. *)
Theorem Invoke_result p s l x y s' :
  canvas_ok s → Invoke p s = Some (Done l x y, s') →
  ∃ c items, GetVar s (Query p) = (Ok c, s') ∧ list_items (cs_heap s') c = Some items ∧ l ⊆+ items ∧
    x = default CNil (head l) ∧ y = default CNil (last l) ∧ later s s'.
Proof.
  intros Hok. unfold Invoke. destruct (GetVar_later s (Query p) Hok) as [L _].
  destruct (GetVar s (Query p)) as [[c|e] s1]; [|done]. cbn [fst snd] in *.
  destruct (list_items (cs_heap s1) c) as [items|] eqn:E; [|done]. case_decide; [done|].
  destruct (apply_operation (cs_heap s1) p items) as [r|] eqn:Er; [|done]. cbn. destruct r as [l'| |]; try done.
  intros [= <- <- <- <-]. exists c, items. split_and!; try done. by eapply apply_operation_items.
Qed.
End component.

(** ** Examples *)
#[local] Instance example_runtime : GoRuntime := fixed_addresses.

(** An index from the end is used as it is and ends the program. *)
Example nth_from_the_end :
  opNth (MkParam "begin@x" "nth" (-1) false "asc" [] ∅) [1; 2; 3] = IndexOutOfRange ∧
  opNth (MkParam "begin@x" "nth" (-1) true "asc" [] ∅) [1; 2; 3] = IndexOutOfRange ∧
  opNth (MkParam "begin@x" "nth" (-4) false "asc" [] ∅) [1; 2; 3] = Items [].
Proof. by vm_compute. Qed.

(** Numbers and texts together are in no order. *)
Example mixed_order_cycles :
  lessScalar (VInt 2) (VInt 10) = true ∧ lessScalar (VInt 10) (VStr "1z") = true ∧ lessScalar (VStr "1z") (VInt 2) = true.
Proof. by vm_compute. Qed.

(** A map and the list of its entries have one key. *)
Example key_collision :
  dedupKey (VObj {["a" := VInt 1]}) = dedupKey (VList [VStr "a"; VInt 1]).
Proof. by vm_compute. Qed.

#[local] Instance example_fold : UnicodeFold := ascii_fold.
#[local] Instance example_sort : SliceStable := by_insertion.
#[local] Instance example_sort_laws : SliceStableLaws := by_insertion_laws.

Lemma opSort_spec_witness :
  let p := MkParam "begin@x" "sort" 0 false "desc" [] ∅ in
  opSort id p [VInt 10; VInt 9; VInt 10; VInt 2] = [VInt 10; VInt 10; VInt 9; VInt 2] ∧
  StronglySorted (λ a b, directed p (VInt 10) b a = false) (opSort id p [VInt 10; VInt 9; VInt 10; VInt 2]).
Proof.
  intros p. destruct (opSort_spec id p (VInt 10) [VInt 9; VInt 10; VInt 2]) as [_ Hsorted].
  split; [by vm_compute|]. apply Hsorted. left. intros v Hv.
  repeat (apply elem_of_cons in Hv as [->|Hv]; [by eexists|]). by apply elem_of_nil in Hv.
Defined.

(** Maps by the fields of the configuration, the second one where the first ties. *)
Example sort_by_fields :
  let book title score := VObj {["title" := VStr title; "score" := VInt score]} in
  opSort id (MkParam "begin@x" "sort" 0 false "asc" ["score"; "title"] ∅) [book "b" 2%Z; book "c" 1%Z; book "a" 2%Z] =
  [book "c" 1%Z; book "a" 2%Z; book "b" 2%Z].
Proof. by vm_compute. Qed.

Definition list_param (op : string) (n : Z) : listOperationsParam := MkParam "begin@x" op n false "asc" [] ∅.
Definition numbers_state : CanvasState :=
  let '(c, h) := new_list [CVal (VInt 3); CVal (VInt 1); CVal (VInt 3)] (cs_heap begun_state) in set "begin" "x" c (with_heap h begun_state).

Lemma numbers_state_ok : canvas_ok numbers_state.
Proof.
  assert (canvas_ok (with_heap (new_list [CVal (VInt 3); CVal (VInt 1); CVal (VInt 3)] (cs_heap begun_state)).2 begun_state)) as Hok.
  { eapply later_ok; [exact begun_state_ok|]. apply later_intro; [|apply extends_new_array]. apply sound_new_array; [apply begun_state_ok|].
    by repeat constructor. }
  apply (set_ok (H := doubling) "x" (CList 4 0 3)); [exact Hok|split_and!; by vm_compute|done|by apply Nat.ltb_lt; vm_compute|done|by eexists|by apply Nat.ltb_lt; vm_compute..].
Qed.

#[local] Instance example_growth : SliceGrowth := doubling.
#[local] Instance example_case : UnicodeCase := ascii_case.

Lemma Invoke_result_witness :
  Invoke (list_param "drop_duplicates" 0) numbers_state =
    Some (Done [CVal (VInt 3); CVal (VInt 1)] (CVal (VInt 3)) (CVal (VInt 1)), numbers_state) ∧
  ∃ items, [CVal (VInt 3); CVal (VInt 1)] ⊆+ items ∧ list_items (cs_heap numbers_state) (CList 4 0 3) = Some items.
Proof.
  assert (Invoke (list_param "drop_duplicates" 0) numbers_state =
    Some (Done [CVal (VInt 3); CVal (VInt 1)] (CVal (VInt 3)) (CVal (VInt 1)), numbers_state)) as E by by vm_compute.
  split; [exact E|]. destruct (Invoke_result _ _ _ _ _ _ numbers_state_ok E) as (c & items & Hget & Hitems & Hsub & _).
  assert (GetVar numbers_state (Query (list_param "drop_duplicates" 0)) = (Ok (CList 4 0 3), numbers_state)) as Hc by by vm_compute.
  rewrite Hc in Hget. injection Hget as <-. by exists items.
Defined.
