(* ===== verification/Switch.v ===== *)
(** * Routing of a canvas (internal/agent/component/switch.go, canvas/multibranch.go)

    A Switch evaluates groups of conditions over the variables of a canvas and names
    the components to run next; the condition of the branch behind it keeps those
    that are connected.  [None] is a stack overflow while a value that contains
    itself is printed. *)
From Stdlib Require Import Ascii.
From S2P Require Import Prelude Values Format Convert GoStrings GoNumbers.
From S2P Require MetaFilter.
From S2P Require Export Canvas.

Section switch.
Context `{GoRuntime} `{SliceGrowth} `{UnicodeCase} `{UnicodeFold}.

(** ** Values *)
Definition numericize (v : val) : option spec_float :=
  match v with
  | VInt z | VNum Int64 z => Some (float_of_int z)
  | VFloat f => Some f
  | VFloat32 f => Some (round_to 53 1024 f)
  | VStr s => ParseFloat s
  | _ => None
  end.

Definition equalFoldValues (a b : val) : bool :=
  if is_nil a || is_nil b then is_nil a && is_nil b
  else
    match numericize (VStr (fmt_v a)), numericize (VStr (fmt_v b)) with
    | Some x, Some y => SFeqb x y
    | _, _ => EqualFold (fmt_v a) (fmt_v b)
    end.

Definition isEmptyValue (v : val) : bool :=
  match v with
  | VNil => true
  | VStr s => bool_decide (s = "")
  | VSlice TAny l => bool_decide (l = [])
  | VMap TAny m => bool_decide (m = ∅)
  | VTypedNil (TSlice TAny | TMap TAny) => true
  | _ => false
  end.

(** ** Clauses *)
Inductive clause_error := NotNumeric (op : string) | UnknownOperator (op : string).

(** The left side: a text with references, which stays as it is if one of them has no
    value. *)
Definition leftValue (left : string) (s : CanvasState) : option (val * CanvasState) :=
  if decide (left = "") then Some (VStr "", s)
  else if negb (has_refs left) then Some (VStr left, s)
  else '(t, err, s) ← ResolveTemplate left s; Some (VStr (match err with Some _ => left | None => t end), s).

Definition text_operators : list string := ["contains"; "not contains"; "start with"; "end with"].
Definition nil_as_empty (v : val) : val := if is_nil v then VStr "" else v.

(** The operators on the two values. *)
Definition apply_operator (op : string) (lv right : val) : result clause_error bool :=
  let lv := if decide (op ∈ text_operators) then nil_as_empty lv else lv in
  let right := if decide (op ∈ text_operators) then nil_as_empty right else right in
  let ls := ToLower (fmt_v lv) in
  let rs := ToLower (fmt_v right) in
  let numeric f := match numericize lv, numericize right with Some x, Some y => Ok (f x y) | _, _ => Err (NotNumeric op) end in
  if decide (op = "==") then Ok (equalFoldValues lv right)
  else if decide (op = "!=") then Ok (negb (equalFoldValues lv right))
  else if decide (op = "contains") then Ok (MetaFilter.contains ls rs)
  else if decide (op = "not contains") then Ok (negb (MetaFilter.contains ls rs))
  else if decide (op = "start with") then Ok (is_prefix rs ls)
  else if decide (op = "end with") then Ok (MetaFilter.has_suffix ls rs)
  else if decide (op = ">") then numeric (λ x y, SFltb y x)
  else if decide (op = "<") then numeric (λ x y, SFltb x y)
  else if decide (op = ">=") then numeric (λ x y, SFleb y x)
  else if decide (op = "<=") then numeric (λ x y, SFleb x y)
  else Err (UnknownOperator op).

Definition string_field (m : gmap string val) (k : string) : string := default "" (as_string (map_get m k)).

Definition evaluateClause (clause : gmap string val) (s : CanvasState) : option (result clause_error bool * CanvasState) :=
  let op := if decide (string_field clause "op" = "") then "==" else string_field clause "op" in
  '(lv, s) ← leftValue (string_field clause "left") s;
  Some (if decide (op = "empty") then Ok (isEmptyValue lv)
        else if decide (op = "not empty") then Ok (negb (isEmptyValue lv))
        else apply_operator op lv (map_get clause "right"), s).

(** ** Groups *)
Definition normalizeLegacySwitchOperator (op : string) : string :=
  if decide (op = "" ∨ op = "=") then "==" else if decide (op = "<>") then "!=" else op.

Definition legacySwitchLeft (item : gmap string val) : string :=
  let left := string_field item "left" in
  let ref := string_field item "cpn_id" in
  if decide (left ≠ "") then left
  else if decide (ref = "") then ""
  else if has_refs ref then "{{" +:+ ref +:+ "}}"
  else if MetaFilter.contains ref "@" || sys_prefix ref || env_prefix ref then "{{" +:+ ref +:+ "}}"
  else ref.

Definition legacy_clause (item : gmap string val) : gmap string val :=
  let clause := {["left" := VStr (legacySwitchLeft item);
                  "op" := VStr (normalizeLegacySwitchOperator (string_field item "operator"))]} : gmap string val in
  match item !! "value" with Some v => <["right" := v]> clause | None => clause end.

(** A map that is not nil. *)
Definition live_map (v : val) : option (gmap string val) := match v with VMap TAny m => Some m | _ => None end.

(** The operator and the clauses of a group, those of the older format converted. *)
Definition normalizeLegacyGroup (group : gmap string val) : string * list val :=
  match as_list (map_get group "clauses") with
  | Some clauses => (string_field group "op", clauses)
  | None =>
      (string_field group "logical_operator",
       (λ item, VObj (legacy_clause item)) <$> omap live_map (default [] (as_list (map_get group "items"))))
  end.

Inductive group_error := NotAMapClause (i : nat) | ClauseFailed (i : nat) (err : clause_error).

Fixpoint evaluate_clauses (op : string) (i : nat) (clauses : list val) (s : CanvasState) : option (result group_error bool * CanvasState) :=
  match clauses with
  | [] => Some (Ok (bool_decide (op = "and")), s)
  | raw :: clauses =>
      match as_map raw with
      | None => Some (Err (NotAMapClause i), s)
      | Some c =>
          '(r, s) ← evaluateClause c s;
          match r with
          | Err e => Some (Err (ClauseFailed i e), s)
          | Ok matched =>
              if decide (op = "or" ∧ matched = true) then Some (Ok true, s)
              else if decide (op = "and" ∧ matched = false) then Some (Ok false, s)
              else evaluate_clauses op (S i) clauses s
          end
      end
  end.

Definition evaluateGroup (group : gmap string val) (s : CanvasState) : option (result group_error bool * CanvasState) :=
  let '(op, clauses) := normalizeLegacyGroup group in
  match clauses with
  | [] => Some (Ok false, s)
  | _ => evaluate_clauses (if decide (op = "") then "and" else op) 0 clauses s
  end.

(** ** Targets *)
Definition named (l : list val) : list string := filter (λ t, t ≠ "") (omap as_string l).

Definition switchGroupTargets (group : gmap string val) : list string :=
  match map_get group "to" with
  | VStr t => if decide (t = "") then [] else [t]
  | VSlice TAny l | VSlice TString l => named l
  | _ => []
  end.
Definition switchGroupTarget (group : gmap string val) : option string := head (switchGroupTargets group).

Definition legacySwitchDefaultTarget (merged : gmap string val) : string :=
  match map_get merged "end_cpn_ids" with
  | VSlice TAny l | VSlice TString l => default "" (head (named l))
  | _ => ""
  end.

(** ** The component

    [walk_groups] is the loop over the conditions: the targets of the first group
    that matches. *)
Inductive switch_error := ConditionFailed (i : nat) (err : group_error).

Fixpoint walk_groups (i : nat) (groups : list val) (s : CanvasState) : option (result switch_error (option (list string)) * CanvasState) :=
  match groups with
  | [] => Some (Ok None, s)
  | raw :: groups =>
      match as_map raw with
      | None => walk_groups (S i) groups s
      | Some group =>
          '(r, s) ← evaluateGroup group s;
          match r with
          | Err e => Some (Err (ConditionFailed i e), s)
          | Ok false => walk_groups (S i) groups s
          | Ok true =>
              let targets := switchGroupTargets group in
              Some (Ok (Some (if decide (targets = []) then ["matched_" +:+ pretty i] else targets)), s)
          end
      end
  end.

Definition Invoke (params inputs : gmap string val) (s : CanvasState) : option (result switch_error (list string) * CanvasState) :=
  let merged := inputs ∪ params in
  let defaultNext := if decide (string_field merged "default" = "") then legacySwitchDefaultTarget merged
                     else string_field merged "default" in
  '(r, s) ← walk_groups 0 (default [] (as_list (map_get merged "conditions"))) s;
  Some (match r with
        | Err e => Err e
        | Ok None => Ok [defaultNext]
        | Ok (Some targets) => Ok targets
        end, s).

(** ** The branch behind it (canvas/multibranch.go)

    The components that run next: those of [_next] among the connected ones. *)
Definition isBranchableControl (name : string) : bool := bool_decide (ToLower name ∈ ["switch"; "categorize"]).

Definition makeSwitchBranchCondition (endNodes : gset string) (output : gmap string val) : gset string :=
  match output !! "_next" with
  | None => ∅
  | Some v =>
      let names := match v with VStr t => [t] | VSlice TString l | VSlice TAny l => omap as_string l | _ => [] end in
      list_to_set (filter (λ t, t ≠ "" ∧ t ∈ endNodes) names)
  end.
End switch.

(** ** What a Switch decides *)
Section decisions.
Context `{GoRuntime} `{SliceGrowth} `{UnicodeCase} `{UnicodeFold} (s : CanvasState).

(** A clause that can be evaluated and reads no text that holds JSON. *)
Definition settled (clause : val) (b : bool) : Prop := ∃ m, as_map clause = Some m ∧ evaluateClause m s = Some (Ok b, s).
Definition holds (clause : val) : bool :=
  match as_map clause ≫= λ m, evaluateClause m s with Some (Ok b, _) => b | _ => false end.

(** A group matches if it has clauses and all of them hold, or one under "or". *)
Definition group_matches (v : val) : bool :=
  match as_map v with
  | None => false
  | Some group =>
      let '(op, clauses) := normalizeLegacyGroup group in
      negb (bool_decide (clauses = [])) &&
      if decide (op = "or") then existsb holds clauses
      else if decide (op = "and" ∨ op = "") then forallb holds clauses
      else false
  end.
Definition group_settled (v : val) : Prop :=
  ∀ group, as_map v = Some group → ∀ c, c ∈ (normalizeLegacyGroup group).2 → ∃ b, settled c b.

Definition group_targets (i : nat) (v : val) : list string :=
  let targets := switchGroupTargets (default ∅ (as_map v)) in if decide (targets = []) then ["matched_" +:+ pretty i] else targets.

Lemma evaluate_clauses_settled op i clauses :
  (∀ c, c ∈ clauses → ∃ b, settled c b) →
  evaluate_clauses op i clauses s =
    Some (Ok (if decide (op = "or") then existsb holds clauses
              else if decide (op = "and") then forallb holds clauses else false), s).
Proof.
  revert i. induction clauses as [|c clauses IH]; intros i Hc; cbn [evaluate_clauses existsb forallb].
  { repeat case_decide; subst; by repeat case_bool_decide. }
  destruct (Hc c) as (b & m & Hm & Hb); [by left|]. rewrite Hm, Hb. cbn [mbind option_bind].
  assert (holds c = b) as -> by (unfold holds; rewrite Hm; cbn; by rewrite Hb).
  rewrite IH by (intros d Hd; apply Hc; by right). destruct b; repeat case_decide; naive_solver.
Qed.

Lemma evaluateGroup_settled v group :
  as_map v = Some group → group_settled v → evaluateGroup group s = Some (Ok (group_matches v), s).
Proof.
  intros Hv Hs. unfold evaluateGroup, group_matches. rewrite Hv. specialize (Hs group Hv).
  destruct (normalizeLegacyGroup group) as [op clauses]. cbn [snd] in Hs. destruct clauses as [|c clauses]; [done|].
  rewrite evaluate_clauses_settled by done. rewrite bool_decide_eq_false_2 by done. cbn [negb andb].
  do 3 f_equal. repeat case_decide; subst; naive_solver.
Qed.

Lemma walk_groups_settled i groups :
  Forall group_settled groups →
  walk_groups i groups s =
    Some (Ok (match list_find (λ v, group_matches v = true) groups with
              | Some (j, v) => Some (group_targets (i + j) v)
              | None => None
              end), s).
Proof.
  intros Hg. revert i. induction Hg as [|v groups Hv _ IH]; intros i; [done|]. cbn [walk_groups list_find].
  destruct (as_map v) as [group|] eqn:Em.
  - rewrite (evaluateGroup_settled v) by done. cbn [mbind option_bind]. destruct (group_matches v) eqn:E.
    + rewrite (decide_True (P := true = true)) by done. rewrite Nat.add_0_r. unfold group_targets. by rewrite Em.
    + rewrite decide_False by done. rewrite IH. destruct (list_find _ groups) as [[j w]|]; [|done]. cbn. by rewrite Nat.add_succ_r.
  - rewrite decide_False by (unfold group_matches; by rewrite Em). rewrite IH.
    destruct (list_find _ groups) as [[j w]|]; [|done]. cbn. by rewrite Nat.add_succ_r.
Qed.

End decisions.

(** ** Examples *)
#[local] Instance switch_runtime : GoRuntime := fixed_addresses.
#[local] Instance switch_growth : SliceGrowth := doubling.
#[local] Instance switch_case : UnicodeCase := ascii_case.
#[local] Instance switch_fold : UnicodeFold := ascii_fold.

Definition clause (left op : string) (right : val) : val := VObj {["left" := VStr left; "op" := VStr op; "right" := right]}.
Definition group (op : string) (clauses : list val) (to : string) : val :=
  VObj {["op" := VStr op; "clauses" := VList clauses; "to" := VStr to]}.

(** A state with sys.score = 7, sys.items an empty list and nothing else. *)
Definition scored_state : CanvasState :=
  let '(sys, h) := new_map {["score" := CVal (VInt 7); "items" := CList 1 0 0]} empty_heap in
  let '(_, h) := new_array [] h in
  MkState h ∅ sys 2 3 [] [] (-1) [] ∅ false "" "".

Definition route (groups : list val) : gmap string val := {["conditions" := VList groups; "default" := VStr "fallback"]}.
Definition scored_groups : list val :=
  [group "and" [] "never"; group "and" [clause "{{sys.score}}" ">" (VInt 5); clause "{{sys.score}}" "<" (VInt 7)] "low";
   group "or" [clause "{{sys.score}}" "==" (VStr "7.0"); clause "x" "==" (VStr "y")] "seven"].


(** A label that reads as "not a number" does not equal itself. *)
Example nan_is_not_nan : equalFoldValues (VStr "NaN") (VStr "NaN") = false.
Proof. by vm_compute. Qed.

(** "empty" looks at the text of a value: an empty list is not empty, and neither is a
    variable that does not exist, whose reference stays as it is. *)
Example empty_is_textual :
  evaluateClause {["left" := VStr "{{sys.items}}"; "op" := VStr "empty"]} scored_state = Some (Ok false, scored_state) ∧
  evaluateClause {["left" := VStr "{{sys.missing}}"; "op" := VStr "empty"]} scored_state = Some (Ok false, scored_state).
Proof. by vm_compute. Qed.

(** The operator of a group is compared as it is written. *)
Example upper_case_operator_never_matches :
  evaluateGroup {["op" := VStr "AND"; "clauses" := VList [clause "x" "==" (VStr "x")]]} scored_state = Some (Ok false, scored_state).
Proof. by vm_compute. Qed.

(** Order comparisons with a text that is no number end the run. *)
Example no_number_fails :
  evaluateClause {["left" := VStr "{{sys.missing}}"; "op" := VStr ">"; "right" := VInt 1]} scored_state =
  Some (Err (NotNumeric ">"), scored_state).
Proof. by vm_compute. Qed.
