(* ===== verification/TurnBuffer.v ===== *)
(** * The buffer of an agent loop (internal/harness/core/agent_loop_buffer.go)

    A blocking queue: callers push, the loop receives.  Every method holds the mutex
    from its first to its last line, except that [Receive] lets go of it while it
    waits, so a history of the buffer is a sequence of whole methods, of waits and of
    woken receivers that get the mutex back.  The condition variable is the list of
    the goroutines that wait on it, oldest first, and the list of those it woke that
    do not hold the mutex again yet. *)
From S2P Require Import Prelude.

Record turnBuffer (T : Type) := TB {
  buf : list T; closed : bool; woken : bool;
  notEmpty : list nat;  (** goroutines that wait *)
  awake : list nat      (** goroutines that were woken and compete for the mutex *)
}.
Arguments TB {T} _ _ _ _ _.
Arguments buf {T} _.
Arguments closed {T} _.
Arguments woken {T} _.
Arguments notEmpty {T} _.
Arguments awake {T} _.

Section buffer.
Context {T : Type}.
Implicit Types (tb : turnBuffer T) (v : T) (vs : list T) (r : nat).

Definition newTurnBuffer : turnBuffer T := TB [] false false [] [].

(** ** The condition variable *)
Definition Signal tb : turnBuffer T :=
  match notEmpty tb with
  | [] => tb
  | r :: rs => TB (buf tb) (closed tb) (woken tb) rs (awake tb ++ [r])
  end.

Definition Broadcast tb : turnBuffer T :=
  TB (buf tb) (closed tb) (woken tb) [] (awake tb ++ notEmpty tb).

(** ** The methods *)
Definition TrySend v tb : bool * turnBuffer T :=
  if closed tb then (false, tb)
  else (true, Signal (TB (buf tb ++ [v]) (closed tb) (woken tb) (notEmpty tb) (awake tb))).

Definition must_wait tb : bool := bool_decide (buf tb = []) && negb (closed tb) && negb (woken tb).

(** What [Receive] does once it need not wait: the value and whether there is one. *)
Definition take_front tb : option T * turnBuffer T :=
  match buf tb with
  | [] => (None, TB [] (closed tb) false (notEmpty tb) (awake tb))
  | v :: rest => (Some v, TB rest (closed tb) false (notEmpty tb) (awake tb))
  end.

(** One pass of goroutine [r] through the loop of [Receive]: [None] when it waits. *)
Definition Receive r tb : option (option T) * turnBuffer T :=
  if must_wait tb then (None, TB (buf tb) (closed tb) (woken tb) (notEmpty tb ++ [r]) (awake tb))
  else let '(v, tb) := take_front tb in (Some v, tb).

(** A woken goroutine gets the mutex back and tests the condition again. *)
Definition resume_Receive r tb : option (option T) * turnBuffer T :=
  Receive r (TB (buf tb) (closed tb) (woken tb) (notEmpty tb) (filter (λ x, x ≠ r) (awake tb))).

Definition Close tb : turnBuffer T :=
  if closed tb then tb else Broadcast (TB (buf tb) true (woken tb) (notEmpty tb) (awake tb)).

Definition IsClosed tb : bool := closed tb.

Definition TakeAll tb : list T * turnBuffer T :=
  match buf tb with
  | [] => ([], tb)
  | vs => (vs, TB [] (closed tb) (woken tb) (notEmpty tb) (awake tb))
  end.

Definition PushFront vs tb : turnBuffer T :=
  match vs with
  | [] => tb
  | _ => Signal (TB (vs ++ buf tb) (closed tb) (woken tb) (notEmpty tb) (awake tb))
  end.

Definition Wakeup tb : turnBuffer T :=
  Broadcast (TB (buf tb) (closed tb) true (notEmpty tb) (awake tb)).

Definition ClearWakeup tb : turnBuffer T := TB (buf tb) (closed tb) false (notEmpty tb) (awake tb).

(** ** Histories *)
Inductive buffer_event :=
  | EvSend v | EvReceive r | EvResume r | EvClose | EvTakeAll | EvPushFront vs | EvWakeup | EvClearWakeup.

(** What an event accepts and what it hands out.  A goroutine that waits or competes
    for the mutex is in no other call, and only a woken one can resume. *)
Definition buffer_step (e : buffer_event) tb : option (list T * list T * turnBuffer T) :=
  match e with
  | EvSend v => let '(ok, tb') := TrySend v tb in Some (if ok then [v] else [], [], tb')
  | EvReceive r =>
      if decide (r ∈ notEmpty tb ++ awake tb) then None
      else let '(res, tb') := Receive r tb in Some ([], option_list (mjoin res), tb')
  | EvResume r =>
      if decide (r ∈ awake tb)
      then let '(res, tb') := resume_Receive r tb in Some ([], option_list (mjoin res), tb')
      else None
  | EvClose => Some ([], [], Close tb)
  | EvTakeAll => let '(vs, tb') := TakeAll tb in Some ([], vs, tb')
  | EvPushFront vs => Some (vs, [], PushFront vs tb)
  | EvWakeup => Some ([], [], Wakeup tb)
  | EvClearWakeup => Some ([], [], ClearWakeup tb)
  end.

Fixpoint buffer_run (es : list buffer_event) tb : option (list T * list T * turnBuffer T) :=
  match es with
  | [] => Some ([], [], tb)
  | e :: es =>
      '(i, o, tb') ← buffer_step e tb;
      '(i', o', tb'') ← buffer_run es tb';
      Some (i ++ i', o ++ o', tb'')
  end.

(** A history in which nothing is put back at the front. *)
Definition no_put_back (e : buffer_event) : Prop := match e with EvPushFront _ => False | _ => True end.

(** One goroutine only receives, as in the loop. *)
Definition only_receiver r (e : buffer_event) : Prop :=
  match e with EvReceive r' | EvResume r' => r' = r | _ => True end.

(** ** What the methods do to the contents *)
Lemma Signal_buf tb : buf (Signal tb) = buf tb ∧ closed (Signal tb) = closed tb ∧ woken (Signal tb) = woken tb.
Proof. unfold Signal. by destruct (notEmpty tb). Qed.

Lemma TrySend_buf v tb :
  TrySend v tb = (negb (closed tb), (TrySend v tb).2) ∧
  buf (TrySend v tb).2 = buf tb ++ (if closed tb then [] else [v]).
Proof.
  unfold TrySend. destruct (closed tb); cbn; [by rewrite app_nil_r|]. split; [done|].
  by apply Signal_buf.
Qed.

Lemma Receive_buf r tb :
  buf tb = option_list (mjoin (Receive r tb).1) ++ buf (Receive r tb).2.
Proof. unfold Receive, take_front. destruct (must_wait tb); cbn; [done|]. by destruct (buf tb) eqn:E. Qed.

Lemma TakeAll_buf tb : (TakeAll tb).1 = buf tb ∧ buf (TakeAll tb).2 = [].
Proof. unfold TakeAll. by destruct (buf tb) eqn:E. Qed.

Lemma TakeAll_pair tb : TakeAll tb = (buf tb, TB [] (closed tb) (woken tb) (notEmpty tb) (awake tb)).
Proof. destruct tb as [[]]; reflexivity. Qed.

Lemma PushFront_buf vs tb : buf (PushFront vs tb) = vs ++ buf tb.
Proof. unfold PushFront. destruct vs; [done|]. apply Signal_buf. Qed.

Lemma Close_buf tb : buf (Close tb) = buf tb ∧ closed (Close tb) = true.
Proof. unfold Close. by destruct (closed tb) eqn:E. Qed.

(** One step: without putting back, what went in follows what was there; in general
    nothing appears or disappears. *)
Lemma buffer_step_fifo e tb i o tb' :
  no_put_back e → buffer_step e tb = Some (i, o, tb') → buf tb ++ i = o ++ buf tb'.
Proof.
  intros Hn. destruct e; cbn [buffer_step].
  - pose proof (TrySend_buf v tb) as [E ?]. rewrite E.
    intros [= <- <- <-]. destruct (closed tb); cbn in *; by symmetry.
  - case_decide; [done|]. pose proof (Receive_buf r tb). destruct (Receive r tb) as [res tb''].
    intros [= <- <- <-]. by rewrite app_nil_r.
  - case_decide; [|done]. unfold resume_Receive. match goal with |- context [Receive r ?b] => pose proof (Receive_buf r b) as E; destruct (Receive r b) end.
    intros [= <- <- <-]. by rewrite app_nil_r.
  - intros [= <- <- <-]. rewrite app_nil_r. symmetry. apply Close_buf.
  - rewrite TakeAll_pair. intros [= <- <- <-]. done.
  - done.
  - intros [= <- <- <-]. by rewrite app_nil_r.
  - intros [= <- <- <-]. by rewrite app_nil_r.
Qed.

Lemma buffer_step_lossless e tb i o tb' :
  buffer_step e tb = Some (i, o, tb') → buf tb ++ i ≡ₚ o ++ buf tb'.
Proof.
  intros E. assert (no_put_back e ∨ ∃ vs, e = EvPushFront vs) as [Hn | [vs ->] ]
    by (destruct e; eauto; by left).
  - by rewrite (buffer_step_fifo _ _ _ _ _ Hn E).
  - injection E as <- <- <-. rewrite PushFront_buf. by rewrite Permutation_app_comm.
Qed.

(** (history) First in, first out: as long as nothing is put back, the values handed
    out and those that are left are the accepted ones, in the order they came. *)
Lemma buffer_run_fifo es tb i o tb' :
  Forall no_put_back es → buffer_run es tb = Some (i, o, tb') → buf tb ++ i = o ++ buf tb'.
Proof.
  intros Hn. revert tb i o. induction Hn as [|e es He _ IH]; cbn [buffer_run]; intros tb i o.
  - intros [= <- <- <-]. by rewrite app_nil_r.
  - destruct (buffer_step e tb) as [ [ [i1 o1] tb1]|] eqn:E1; [|done].
    cbn. destruct (buffer_run es tb1) as [ [ [i2 o2] tb2]|] eqn:E2; [|done]. cbn.
    intros [= <- <- <-]. rewrite (assoc_L (++)), (buffer_step_fifo _ _ _ _ _ He E1), <- !(assoc_L (++)).
    by rewrite (IH _ _ _ E2).
Qed.

Lemma buffer_run_lossless es tb i o tb' :
  buffer_run es tb = Some (i, o, tb') → buf tb ++ i ≡ₚ o ++ buf tb'.
Proof.
  revert tb i o. induction es as [|e es IH]; cbn [buffer_run]; intros tb i o.
  - intros [= <- <- <-]. by rewrite app_nil_r.
  - destruct (buffer_step e tb) as [ [ [i1 o1] tb1]|] eqn:E1; [|done].
    cbn. destruct (buffer_run es tb1) as [ [ [i2 o2] tb2]|] eqn:E2; [|done]. cbn.
    intros [= <- <- <-]. rewrite (assoc (++)), (buffer_step_lossless _ _ _ _ _ E1), <- !(assoc (++)).
    by rewrite (IH _ _ _ E2).
Qed.

(** ** No wakeup is lost

    While a goroutine waits, the buffer is open, no wakeup is pending, and every value
    has a woken receiver that will come for it. *)
Definition attended tb : Prop :=
  notEmpty tb ≠ [] →
  closed tb = false ∧ woken tb = false ∧ length (buf tb) ≤ length (awake tb).

(** A history in which at most one value at a time is put back. *)
Definition puts_back_one (e : buffer_event) : Prop :=
  match e with EvPushFront vs => length vs ≤ 1 | _ => True end.

Lemma Signal_attended tb vs :
  length vs ≤ 1 ∨ length (notEmpty tb) ≤ 1 → attended tb → ∀ l, length l = length vs + length (buf tb) →
  attended (Signal (TB l (closed tb) (woken tb) (notEmpty tb) (awake tb))).
Proof.
  unfold attended, Signal. destruct tb as [b c w [|r rs] a]; cbn; intros Hl Ha l El; [done|]. rewrite length_app.
  destruct (Ha ltac:(done)) as (-> & -> & ?). intros Hrs. destruct Hl as [?|Hl]; [split_and!; [done..|]; cbn; lia|].
  destruct rs; [done|]. cbn in Hl. lia.
Qed.

Lemma Receive_attended r tb : attended tb → attended (Receive r tb).2.
Proof.
  unfold attended, Receive, must_wait, take_front.
  destruct tb as [b c w n a]; cbn. intros Ha.
  destruct b as [|v b], c, w; cbn in *; try (intros Hn; destruct (Ha Hn) as (?&?&?); try done; split_and!; try done; lia).
  intros _. split_and!; [done..|lia].
Qed.

(** The count for a woken receiver: it leaves the woken ones, and takes a value if
    there is one. *)
Lemma resume_attended r tb : r ∈ awake tb → NoDup (awake tb) → attended tb → attended (resume_Receive r tb).2.
Proof.
  intros Hr Hnd Ha.
  assert (length (awake tb) = S (length (filter (λ x, x ≠ r) (awake tb)))) as El.
  { clear Ha. induction (awake tb) as [|x l IH]; [by apply elem_of_nil in Hr|].
    apply NoDup_cons in Hnd as [Hx Hnd]. rewrite filter_cons. case_decide as Hd; cbn.
    - apply elem_of_cons in Hr as [->|Hr]; [done|]. f_equal. by apply IH.
    - assert (x = r) as -> by lia. f_equal. f_equal. symmetry. clear -Hx.
      induction l as [|y l IH]; [done|]. rewrite filter_cons_True by set_solver. f_equal. apply IH. set_solver. }
  revert Ha. unfold attended, resume_Receive, Receive, must_wait, take_front.
  destruct tb as [b c w n a]; cbn in *. intros Ha.
  destruct b as [|v b], c, w; cbn in *; intros Hn; try (destruct (Ha Hn) as (?&?&?); try done; split_and!; try done; lia).
  split_and!; [done..|lia].
Qed.

(** Goroutines wait or compete at most once. *)
Definition receivers_distinct tb : Prop := NoDup (notEmpty tb ++ awake tb).

Lemma Signal_distinct tb : receivers_distinct tb → receivers_distinct (Signal tb).
Proof.
  unfold receivers_distinct, Signal. destruct tb as [b c w [|r rs] a]; cbn; [done|].
  intros Hn. rewrite (assoc (++)). by rewrite <- Permutation_cons_append.
Qed.

Lemma Receive_distinct r tb : r ∉ notEmpty tb ++ awake tb → receivers_distinct tb → receivers_distinct (Receive r tb).2.
Proof.
  unfold receivers_distinct, Receive, take_front. intros Hr Hn. destruct (must_wait tb); cbn.
  - rewrite <- (assoc (++)), (comm (++) [r]), (assoc (++)), <- Permutation_cons_append. by apply NoDup_cons.
  - by destruct (buf tb).
Qed.

Lemma Broadcast_distinct tb : receivers_distinct tb → receivers_distinct (Broadcast tb).
Proof. unfold receivers_distinct, Broadcast. cbn. by rewrite (comm (++)). Qed.

Lemma buffer_step_distinct e tb i o tb' :
  receivers_distinct tb → buffer_step e tb = Some (i, o, tb') → receivers_distinct tb'.
Proof.
  intros Hd. destruct e; cbn [buffer_step].
  - unfold TrySend. destruct (closed tb); intros [= <- <- <-]; [done|]. by apply Signal_distinct.
  - case_decide; [done|]. pose proof (Receive_distinct r tb ltac:(done) Hd).
    destruct (Receive r tb). intros [= <- <- <-]. done.
  - case_decide as Hr; [|done]. unfold resume_Receive.
    match goal with |- context [Receive r ?b] => pose proof (Receive_distinct r b) as Hx; destruct (Receive r b) end.
    intros [= <- <- <-]. cbn in Hx. apply Hx; clear Hx.
    + apply NoDup_app in Hd as (_ & Hd & _). intros [Hin|Hin]%elem_of_app.
      * by apply (Hd r).
      * by apply list_elem_of_filter in Hin as [? _].
    + unfold receivers_distinct in *; cbn. apply NoDup_app in Hd as (H1 & H2 & H3). apply NoDup_app. split_and!; [done| |by apply NoDup_filter].
      intros x Hx [_ ?]%list_elem_of_filter. by eapply H2.
  - unfold Close. destruct (closed tb); intros [= <- <- <-]; [done|]. by apply Broadcast_distinct.
  - rewrite TakeAll_pair. intros [= <- <- <-]. done.
  - unfold PushFront. destruct vs; intros [= <- <- <-]; [done|]. by apply Signal_distinct.
  - intros [= <- <- <-]. by apply Broadcast_distinct.
  - intros [= <- <- <-]. done.
Qed.

Lemma buffer_step_attended e tb i o tb' :
  puts_back_one e ∨ length (notEmpty tb) ≤ 1 → receivers_distinct tb →
  attended tb → buffer_step e tb = Some (i, o, tb') → attended tb'.
Proof.
  intros Hp Hd Ha. destruct e; cbn [buffer_step].
  - unfold TrySend. destruct (closed tb) eqn:Ec; intros [= <- <- <-]; [done|]. rewrite <- Ec.
    apply (Signal_attended tb [v]); [by left; cbn|done|]. by rewrite length_app, Nat.add_comm.
  - case_decide; [done|]. pose proof (Receive_attended r tb Ha). by destruct (Receive r tb); intros [= <- <- <-].
  - case_decide as Hr; [|done]. apply NoDup_app in Hd as (_ & _ & Hd).
    pose proof (resume_attended r tb Hr Hd Ha). by destruct (resume_Receive r tb); intros [= <- <- <-].
  - unfold Close. destruct (closed tb) eqn:Ec; intros [= <- <- <-]; done.
  - rewrite TakeAll_pair. intros [= <- <- <-] Hn. destruct (Ha Hn) as (?&?&?). split_and!; [done..|]. cbn. lia.
  - unfold PushFront. destruct vs as [|v vs]; intros [= <- <- <-]; [done|].
    apply (Signal_attended tb (v :: vs)); [|done|cbn; rewrite length_app; lia].
    cbn in Hp |- *. destruct Hp; [left|right]; done.
  - intros [= <- <- <-]. done.
  - intros [= <- <- <-] Hn. destruct (Ha Hn) as (?&?&?). split_and!; done.
Qed.

(** With one receiver at most one goroutine waits. *)
Lemma only_receiver_step r e tb i o tb' :
  only_receiver r e → notEmpty tb ++ awake tb ⊆ [r] → buffer_step e tb = Some (i, o, tb') →
  notEmpty tb' ++ awake tb' ⊆ [r].
Proof.
  intros He Hs. destruct e; cbn [buffer_step] in *; subst.
  - unfold TrySend, Signal. destruct (closed tb); [by intros [= <- <- <-]|]. cbn.
    destruct (notEmpty tb); intros [= <- <- <-]; cbn in *; set_solver.
  - case_decide; [done|]. unfold Receive, take_front. destruct (must_wait tb), (buf tb); intros [= <- <- <-]; cbn; set_solver.
  - case_decide; [|done]. unfold resume_Receive, Receive, take_front, must_wait. cbn.
    destruct (buf tb); [cbn; destruct (negb _ && negb _)|]; intros [= <- <- <-]; cbn;
      intros x; rewrite ?elem_of_app, list_elem_of_filter; set_solver.
  - unfold Close. destruct (closed tb); intros [= <- <- <-]; cbn; set_solver.
  - rewrite TakeAll_pair. by intros [= <- <- <-].
  - unfold PushFront, Signal. destruct vs; [by intros [= <- <- <-]|]. cbn.
    destruct (notEmpty tb); intros [= <- <- <-]; cbn in *; set_solver.
  - intros [= <- <- <-]. cbn. set_solver.
  - by intros [= <- <- <-].
Qed.

Lemma one_waits r tb : receivers_distinct tb → notEmpty tb ++ awake tb ⊆ [r] → length (notEmpty tb) ≤ 1.
Proof.
  unfold receivers_distinct. intros Hd Hs. destruct (notEmpty tb) as [|x [|y l] ]; cbn in *; [lia..|].
  assert (x = r ∧ y = r) as [-> ->] by (split; apply list_elem_of_singleton, Hs; set_solver).
  apply NoDup_cons in Hd as [Hd _]. destruct Hd. by left.
Qed.

Lemma buffer_run_attended r es tb i o tb' :
  Forall (only_receiver r) es → notEmpty tb ++ awake tb ⊆ [r] → receivers_distinct tb → attended tb →
  buffer_run es tb = Some (i, o, tb') → attended tb' ∧ receivers_distinct tb' ∧ notEmpty tb' ++ awake tb' ⊆ [r].
Proof.
  intros Hf. revert tb i o. induction Hf as [|e es He _ IH]; cbn [buffer_run]; intros tb i o Hs Hd Ha.
  - by intros [= <- <- <-].
  - destruct (buffer_step e tb) as [ [ [i1 o1] tb1]|] eqn:E1; [|done].
    cbn. destruct (buffer_run es tb1) as [ [ [i2 o2] tb2]|] eqn:E2; [|done]. cbn. intros [= <- <- <-].
    eapply IH; [| | |done].
    + by eapply only_receiver_step.
    + by eapply buffer_step_distinct.
    + eapply buffer_step_attended; [| | |done]; [right; by eapply one_waits|done..].
Qed.

(** Who waits when the only receiver waits. *)
Lemma waits_alone r tb :
  receivers_distinct tb → notEmpty tb ++ awake tb ⊆ [r] → notEmpty tb ≠ [] → notEmpty tb = [r] ∧ awake tb = [].
Proof.
  unfold receivers_distinct. intros Hd Hs Hn. destruct (notEmpty tb) as [|x l]; [done|]. cbn in *.
  assert (∀ y, y ∈ x :: l ++ awake tb → y = r) as Hall by (intros y Hy; by apply list_elem_of_singleton, Hs).
  assert (x = r) as -> by (apply Hall; by left). apply NoDup_cons in Hd as [Hd _].
  assert (l ++ awake tb = []) as [-> ->]%app_eq_nil; [|done].
  destruct (l ++ awake tb) as [|y k]; [done|]. destruct Hd. rewrite (Hall y) by (right; by left). by left.
Qed.

(** C39: (queue) The buffer is a blocking queue that loses nothing.  After any history
    of a new buffer in which one goroutine receives, the values handed out and those
    left in the buffer are the accepted ones, and they are in the order of acceptance
    as long as none is put back.  If the receiver waits then, there is nothing for it
    to do: the buffer is empty, not closed, and no wakeup is pending - no signal was
    lost. *)
Theorem turn_buffer_queue r es i o tb :
  Forall (only_receiver r) es → buffer_run es newTurnBuffer = Some (i, o, tb) →
  i ≡ₚ o ++ buf tb ∧
  (Forall no_put_back es → i = o ++ buf tb) ∧
  (notEmpty tb ≠ [] → notEmpty tb = [r] ∧ buf tb = [] ∧ closed tb = false ∧ woken tb = false).
Proof.
  intros Hr Hrun. split_and!.
  - by apply buffer_run_lossless in Hrun.
  - intros Hn. by apply (buffer_run_fifo _ _ _ _ _ Hn) in Hrun.
  - intros Hw. destruct (buffer_run_attended r es newTurnBuffer i o tb) as (Ha & Hd & Hs); [done|set_solver|by constructor|done|done|].
    destruct (waits_alone r tb Hd Hs Hw) as [-> Hawake]. destruct (Ha Hw) as (-> & -> & Hl).
    rewrite Hawake in Hl. split_and!; [done| |done..]. destruct (buf tb); [done|cbn in Hl; lia].
Qed.
End buffer.
Arguments buffer_event T : clear implicits.

(** A receiver waits, two values come, it takes them and waits again. *)
Lemma turn_buffer_queue_witness :
  let es := [EvReceive 0; EvSend 1; EvSend 2; EvResume 0; EvReceive 0; EvReceive 0] in
  let tb := TB [] false false [0] [] in
  buffer_run es newTurnBuffer = Some ([1; 2], [1; 2], tb) ∧ (Forall no_put_back es → [1; 2] = [1; 2] ++ buf tb) ∧ buf tb = [].
Proof.
  cbn zeta. split; [vm_compute; reflexivity|].
  destruct (turn_buffer_queue 0 [EvReceive 0; EvSend 1; EvSend 2; EvResume 0; EvReceive 0; EvReceive 0] [1; 2] [1; 2] (TB [] false false [0] []))
    as (_ & Ho & Hw); [repeat constructor|vm_compute; reflexivity|]. split; [exact Ho|apply Hw; discriminate].
Defined.
