(* ===== verification/AgentCancel.v ===== *)
(** * Cancellation of an agent (internal/harness/core/cancel.go, agent_loop_config.go)

    What a caller asks for ([CancelOption]), how an agent loop keeps a request that
    waits for a turn ([cancelRequestState]), and the state machine of a run that can be
    cancelled ([cancelContext]).  Moments and durations are nanoseconds, and the time a
    method reads is an argument of it.  A method of the context is one step, except that
    the cancel function lets another goroutine in between its look at the state and its
    attempt to change it.  [None] stands for a panic. *)
From S2P Require Import Prelude.
#[local] Open Scope Z_scope.

(** ** Modes and options *)
Definition CancelImmediate : Z := 0.
Definition CancelAfterChatModel : Z := 2.
Definition CancelAfterToolCalls : Z := 4.

Record cancelConfig := MkCancelConfig { Mode : Z; Recursive : bool; Timeout : option Z }.

Inductive CancelOption := WithCancelMode (mode : Z) | WithCancelTimeout (d : Z) | WithRecursiveCancel.

Definition apply_cancel_option (c : cancelConfig) (o : CancelOption) : cancelConfig :=
  match o with
  | WithCancelMode m => MkCancelConfig m (Recursive c) (Timeout c)
  | WithCancelTimeout d => MkCancelConfig (Mode c) (Recursive c) (Some d)
  | WithRecursiveCancel => MkCancelConfig (Mode c) true (Timeout c)
  end.

Definition parseCancelOptions (opts : list CancelOption) : cancelConfig :=
  foldl apply_cancel_option (MkCancelConfig CancelImmediate false None) opts.

(** Points at which a preempted agent may stop. *)
Definition AfterChatModel : Z := 1.
Definition AfterToolCalls : Z := 2.
Definition AnySafePoint : Z := Z.lor AfterChatModel AfterToolCalls.

Definition toCancelMode (sp : Z) : Z :=
  let mode := 0 in
  let mode := if decide (Z.land sp AfterToolCalls ≠ 0) then Z.lor mode CancelAfterToolCalls else mode in
  if decide (Z.land sp AfterChatModel ≠ 0) then Z.lor mode CancelAfterChatModel else mode.

(** ** Requests that wait for a turn *)
Record cancelRequestState := MkRequest { cfg : cancelConfig; timeoutDeadline : option Z }.

Definition newCancelRequestState (opts : list CancelOption) (now : Z) : cancelRequestState :=
  let c := parseCancelOptions opts in
  MkRequest (MkCancelConfig (Mode c) (Recursive c) None)
    (match Timeout c with
     | Some d => if decide (0 < d ∧ Mode c ≠ CancelImmediate) then Some (now + d) else None
     | None => None
     end).

(** The earlier of two deadlines; the first one when they are equal. *)
Definition earlier (d next : option Z) : option Z :=
  match next, d with
  | Some n, Some s => if decide (n < s) then Some n else Some s
  | Some n, None => Some n
  | None, _ => d
  end.

(** A nil slice of options ([None]) is no request. *)
Definition merge (s : cancelRequestState) (opts : option (list CancelOption)) (now : Z) : cancelRequestState :=
  match opts with
  | None => s
  | Some opts =>
      let next := newCancelRequestState opts now in
      let rec := Recursive (cfg s) || Recursive (cfg next) in
      if decide (Mode (cfg s) = CancelImmediate ∨ Mode (cfg next) = CancelImmediate)
      then MkRequest (MkCancelConfig CancelImmediate rec (Timeout (cfg s))) None
      else MkRequest (MkCancelConfig (Z.lor (Mode (cfg s)) (Mode (cfg next))) rec (Timeout (cfg s)))
             (earlier (timeoutDeadline s) (timeoutDeadline next))
  end.

(** [deadline.Sub(now)], which saturates. *)
Definition time_Sub (d now : Z) : Z := (- int_bound) `max` ((int_bound - 1) `min` (d - now)).

(** The request as it stands at a moment: past its deadline it is immediate. *)
Definition current_config (s : cancelRequestState) (now : Z) : cancelConfig :=
  let c := cfg s in
  match timeoutDeadline s with
  | Some d =>
      if decide (Mode c ≠ CancelImmediate)
      then let remaining := time_Sub d now in
           if decide (remaining ≤ 0)
           then MkCancelConfig CancelImmediate (Recursive c) None
           else MkCancelConfig (Mode c) (Recursive c) (Some remaining)
      else c
  | None => c
  end.

Definition cancelOptions (s : cancelRequestState) (now : Z) : list CancelOption :=
  let c := current_config s now in
  [WithCancelMode (Mode c)]
  ++ (if Recursive c then [WithRecursiveCancel] else [])
  ++ (match Timeout c with Some d => [WithCancelTimeout d] | None => [] end).

(** ** The cancel context of a run *)
Inductive cancel_state := stRunning | stCancelling | stDone | stCancelHandled.
#[export] Instance cancel_state_eq : EqDecision cancel_state.
Proof. solve_decision. Defined.

(** A channel that is only ever closed is the flag that says so. *)
Record cancelContext := MkCancelContext {
  mode : Z; cancelChan : bool; immediateChan : bool; doneChan : bool;
  state : cancel_state; interruptSent : bool; escalated : bool; timeoutEscalated : bool;
  startedMode : Z; deadlineUnixNano : Z; recursive : bool; recursiveChan : bool;
  timeoutStarted : bool  (** the goroutine of [startTimeout] runs or ran *)
}.
Add Printing Constructor cancelContext.

Definition newCancelContext : cancelContext :=
  MkCancelContext 0 false false false stRunning false false false 0 0 false false false.

(** Closing a closed channel panics. *)
Definition close_chan (closed : bool) : option bool := if closed then None else Some true.

Definition int32 (z : Z) : Z := (z + 2 ^ 31) mod 2 ^ 32 - 2 ^ 31.

Definition shouldCancel (cc : cancelContext) : bool := cancelChan cc.
Definition isImmediate (cc : cancelContext) : bool := immediateChan cc.
Definition getMode (cc : cancelContext) : Z := mode cc.

Definition with_state (s : cancel_state) (cc : cancelContext) : cancelContext :=
  MkCancelContext (mode cc) (cancelChan cc) (immediateChan cc) (doneChan cc) s (interruptSent cc) (escalated cc)
    (timeoutEscalated cc) (startedMode cc) (deadlineUnixNano cc) (recursive cc) (recursiveChan cc) (timeoutStarted cc).

Definition setMode (m : Z) (cc : cancelContext) : cancelContext :=
  MkCancelContext (int32 m) (cancelChan cc) (immediateChan cc) (doneChan cc) (state cc) (interruptSent cc) (escalated cc)
    (timeoutEscalated cc) (startedMode cc) (deadlineUnixNano cc) (recursive cc) (recursiveChan cc) (timeoutStarted cc).

Definition setRecursive (v : bool) (cc : cancelContext) : option cancelContext :=
  if v && negb (recursive cc) then
    rc ← close_chan (recursiveChan cc);
    Some (MkCancelContext (mode cc) (cancelChan cc) (immediateChan cc) (doneChan cc) (state cc) (interruptSent cc)
      (escalated cc) (timeoutEscalated cc) (startedMode cc) (deadlineUnixNano cc) true rc (timeoutStarted cc))
  else Some cc.

(** [doneOnce]: the channel is closed the first time only. *)
Definition close_done (cc : cancelContext) : cancelContext :=
  MkCancelContext (mode cc) (cancelChan cc) (immediateChan cc) true (state cc) (interruptSent cc) (escalated cc)
    (timeoutEscalated cc) (startedMode cc) (deadlineUnixNano cc) (recursive cc) (recursiveChan cc) (timeoutStarted cc).

Definition close_cancel (cc : cancelContext) : option cancelContext :=
  c ← close_chan (cancelChan cc);
  Some (MkCancelContext (mode cc) c (immediateChan cc) (doneChan cc) (state cc) (interruptSent cc) (escalated cc)
    (timeoutEscalated cc) (startedMode cc) (deadlineUnixNano cc) (recursive cc) (recursiveChan cc) (timeoutStarted cc)).

Definition with_flags (esc tesc : bool) (cc : cancelContext) : cancelContext :=
  MkCancelContext (mode cc) (cancelChan cc) (immediateChan cc) (doneChan cc) (state cc) (interruptSent cc) esc
    tesc (startedMode cc) (deadlineUnixNano cc) (recursive cc) (recursiveChan cc) (timeoutStarted cc).

Definition with_started (m : Z) (cc : cancelContext) : cancelContext :=
  MkCancelContext (mode cc) (cancelChan cc) (immediateChan cc) (doneChan cc) (state cc) (interruptSent cc) (escalated cc)
    (timeoutEscalated cc) (int32 m) (deadlineUnixNano cc) (recursive cc) (recursiveChan cc) (timeoutStarted cc).

Definition setDeadlineUnixNano (t : Z) (cc : cancelContext) : cancelContext :=
  MkCancelContext (mode cc) (cancelChan cc) (immediateChan cc) (doneChan cc) (state cc) (interruptSent cc) (escalated cc)
    (timeoutEscalated cc) (startedMode cc) t (recursive cc) (recursiveChan cc) (timeoutStarted cc).

Definition setDeadlineMinUnixNano (next : Z) (cc : cancelContext) : cancelContext :=
  let cur := deadlineUnixNano cc in
  if decide (cur ≠ 0 ∧ cur ≤ next) then cc else setDeadlineUnixNano next cc.

(** [timeoutOnce]. *)
Definition startTimeout (cc : cancelContext) : cancelContext :=
  MkCancelContext (mode cc) (cancelChan cc) (immediateChan cc) (doneChan cc) (state cc) (interruptSent cc) (escalated cc)
    (timeoutEscalated cc) (startedMode cc) (deadlineUnixNano cc) (recursive cc) (recursiveChan cc) true.

Definition markDone (cc : cancelContext) : cancelContext :=
  match state cc with
  | stRunning | stCancelling => close_done (with_state stDone cc)
  | _ => cc
  end.

Definition markHandled (cc : cancelContext) : bool * cancelContext :=
  match state cc with
  | stCancelling => (true, close_done (with_state stCancelHandled cc))
  | _ => (false, cc)
  end.

Record AgentCancelInfo := MkCancelInfo { info_Mode : Z; info_Escalated : bool; info_Timeout : bool }.

Definition createError (cc : cancelContext) : AgentCancelInfo :=
  if escalated cc then MkCancelInfo (getMode cc) true (timeoutEscalated cc) else MkCancelInfo (getMode cc) false false.

Definition createAndMarkHandled (cc : cancelContext) : AgentCancelInfo * bool * cancelContext :=
  let err := createError cc in
  let '(ok, cc) := markHandled cc in (err, ok, cc).

Definition sendInterrupt (cc : cancelContext) : option (bool * cancelContext) :=
  if interruptSent cc then Some (false, cc)
  else
    ic ← close_chan (immediateChan cc);
    Some (true, MkCancelContext (mode cc) (cancelChan cc) ic (doneChan cc) (state cc) true (escalated cc)
      (timeoutEscalated cc) (startedMode cc) (deadlineUnixNano cc) (recursive cc) (recursiveChan cc) (timeoutStarted cc)).

(** The attempt to leave [stRunning], with the channel that announces it. *)
Definition begin_cancelling (cc : cancelContext) : option cancelContext :=
  match state cc with
  | stRunning => close_cancel (with_state stCancelling cc)
  | _ => Some cc
  end.

Definition triggerCancel (m : Z) (cc : cancelContext) : option cancelContext := begin_cancelling (setMode m cc).

Definition triggerImmediate (cc : cancelContext) : option cancelContext :=
  let cc := with_flags true (timeoutEscalated cc) cc in
  let cc := setMode CancelImmediate cc in
  cc ← begin_cancelling cc;
  '(_, cc) ← sendInterrupt cc;
  Some cc.

(** *** The cancel function *)
Inductive CancelHandle := HandleNil | HandleEnded | HandleWait.

Definition join (a b : Z) : Z :=
  if decide (a = CancelImmediate ∨ b = CancelImmediate) then CancelImmediate else Z.lor a b.

(** What [waitDone] returns once the run is done. *)
Inductive wait_result := WaitOk | ErrExecutionEnded | ErrCancelTimeout.
Definition waitDone (cc : cancelContext) : wait_result :=
  match state cc with
  | stDone => ErrExecutionEnded
  | _ => if timeoutEscalated cc then ErrCancelTimeout else WaitOk
  end.

(** What follows the change of the state: an immediate request interrupts, another one
    with a timeout sets the earliest deadline. *)
Definition submit_request (c : cancelConfig) (now : Z) (cc : cancelContext) : option cancelContext :=
  if decide (getMode cc = CancelImmediate) then triggerImmediate cc
  else match Timeout c with
       | Some d => if decide (0 < d)
                   then Some (startTimeout (setDeadlineMinUnixNano (wrap64 (now + d)) cc))
                   else Some cc
       | None => Some cc
       end.

(** [others] is what other goroutines do between the look at the state and the attempt
    to change it. *)
Definition cancelFunc (others : cancelContext → cancelContext) (opts : list CancelOption) (now : Z) (cc : cancelContext)
    : option (CancelHandle * bool * cancelContext) :=
  let req := parseCancelOptions opts in
  match state cc with
  | stCancelHandled => Some (HandleNil, false, cc)
  | stDone => Some (HandleEnded, false, cc)
  | stRunning =>
      let cc := others cc in
      match state cc with
      | stRunning =>
          let cc := with_started (Mode req) (setMode (Mode req) (with_state stCancelling cc)) in
          cc ← setRecursive (Recursive req) cc;
          cc ← close_cancel cc;
          cc ← submit_request req now cc;
          Some (HandleWait, true, cc)
      | stDone => Some (HandleEnded, false, cc)
      | _ => Some (HandleWait, true, cc)
      end
  | stCancelling =>
      let cc := setMode (join (getMode cc) (Mode req)) cc in
      cc ← (if Recursive req then setRecursive true cc else Some cc);
      cc ← submit_request req now cc;
      Some (HandleWait, true, cc)
  end.

(** One pass of the goroutine of [startTimeout] at a moment; [true] when it ends. *)
Definition timeout_pass (now : Z) (cc : cancelContext) : option (bool * cancelContext) :=
  if doneChan cc then Some (true, cc)
  else if decide (deadlineUnixNano cc = 0) then Some (true, cc)
  else if decide (wrap64 (deadlineUnixNano cc - now) ≤ 0)
       then cc ← triggerImmediate (with_flags true true cc); Some (true, cc)
       else Some (false, cc).

(** A graph reports an interrupt. *)
Definition InterruptFromGraph (m : Z) (timeout : Z) (rec : bool) (now : Z) (cc : cancelContext)
    : option (bool * cancelContext) :=
  match state cc with
  | stRunning =>
      let cc := setMode m (with_state stCancelling cc) in
      cc ← setRecursive rec cc;
      cc ← close_cancel cc;
      if decide (m = CancelImmediate) then cc ← triggerImmediate cc; Some (true, cc)
      else if decide (0 < timeout)
           then Some (true, startTimeout (setDeadlineUnixNano (wrap64 (now + timeout)) cc))
           else Some (true, cc)
  | _ => Some (false, cc)
  end.

(** *** Contexts of nested agents

    The two goroutines that pass a cancellation on: each waits for its channel of the
    parent and for the parent to be recursive, and acts once. *)
Definition deriveAgentToolCancelContext : cancelContext := newCancelContext.

Definition passes_on (parent : cancelContext) : bool := recursive parent || recursiveChan parent.

Definition propagate_cancel (parent child : cancelContext) : option cancelContext :=
  if cancelChan parent && passes_on parent
  then child ← setRecursive true child; triggerCancel (getMode parent) child
  else Some child.

Definition propagate_immediate (parent child : cancelContext) : option cancelContext :=
  if immediateChan parent && passes_on parent
  then child ← setRecursive true child; triggerImmediate child
  else Some child.

(** ** Histories of a context *)
Inductive cancel_event :=
  | CEvCancel (opts : list CancelOption) (now : Z) (ends : bool)  (** the run may end meanwhile *)
  | CEvDone | CEvHandled | CEvTimeout (now : Z)
  | CEvGraph (m timeout : Z) (rec : bool) (now : Z)
  | CEvParent (parent : cancelContext) (immediate : bool).

Definition cancel_step (e : cancel_event) (cc : cancelContext) : option cancelContext :=
  match e with
  | CEvCancel opts now ends => '(_, _, cc) ← cancelFunc (if ends then markDone else id) opts now cc; Some cc
  | CEvDone => Some (markDone cc)
  | CEvHandled => let '(_, _, cc) := createAndMarkHandled cc in Some cc
  | CEvTimeout now => '(_, cc) ← (if timeoutStarted cc then timeout_pass now cc else Some (true, cc)); Some cc
  | CEvGraph m timeout rec now => '(_, cc) ← InterruptFromGraph m timeout rec now cc; Some cc
  | CEvParent parent immediate => (if immediate then propagate_immediate else propagate_cancel) parent cc
  end.

Fixpoint cancel_run (es : list cancel_event) (cc : cancelContext) : option cancelContext :=
  match es with
  | [] => Some cc
  | e :: es => cc ← cancel_step e cc; cancel_run es cc
  end.
