(* ===== verification/AgentCancelProps.v ===== *)
(** * What cancellation guarantees

    Requests that wait for a turn can be merged in any order and looked at at any
    moment; a run that can be cancelled goes through its states once and closes no
    channel twice. *)
From S2P Require Import Prelude.
From S2P Require Export AgentCancel.
#[local] Open Scope Z_scope.

(** ** Requests *)

(** The request two callers make together. *)
Definition config_join (a b : cancelConfig) : cancelConfig :=
  let rec := Recursive a || Recursive b in
  if decide (Mode a = CancelImmediate ∨ Mode b = CancelImmediate)
  then MkCancelConfig CancelImmediate rec None
  else MkCancelConfig (Z.lor (Mode a) (Mode b)) rec (earlier (Timeout a) (Timeout b)).

(** A request as [newCancelRequestState] makes it: the timeout became a deadline, which
    an immediate request does not have. *)
Definition request_wf (s : cancelRequestState) : Prop :=
  Timeout (cfg s) = None ∧ (Mode (cfg s) = CancelImmediate → timeoutDeadline s = None).

Lemma new_request_wf opts now : request_wf (newCancelRequestState opts now).
Proof.
  split; [done|]. cbn. intros ->. destruct (Timeout _); [|done]. case_decide as H; [|done]. by destruct H as [_ [] ].
Qed.

Lemma lor_mode_0 a b : Z.lor a b = CancelImmediate ↔ a = CancelImmediate ∧ b = CancelImmediate.
Proof. apply Z.lor_eq_0_iff. Qed.

Lemma merge_wf s opts now : request_wf s → request_wf (merge s opts now).
Proof.
  intros [Ht Hd]. destruct opts as [opts|]; [|done]. unfold merge. case_decide as Hm; [done|].
  split; [done|]. cbn. rewrite lor_mode_0. intros [? ?]. destruct Hm. by left.
Qed.

Lemma time_Sub_le d d' now : d ≤ d' → time_Sub d now ≤ time_Sub d' now.
Proof. unfold time_Sub. lia. Qed.

(** The earlier deadline is the smaller remaining time. *)
Lemma earlier_remaining d d' now :
  earlier (Some (time_Sub d now)) (Some (time_Sub d' now)) = (λ x, time_Sub x now) <$> earlier (Some d) (Some d').
Proof.
  cbn. pose proof (time_Sub_le d d' now). pose proof (time_Sub_le d' d now).
  destruct (decide (d' < d)), (decide (time_Sub d' now < time_Sub d now)); cbn; f_equal; lia.
Qed.

(** Merging and the passing of time commute: at any moment the merged request is what
    the two requests are together at that moment. *)
Lemma merge_current_config s opts t now :
  request_wf s →
  current_config (merge s (Some opts) t) now
  = config_join (current_config s now) (current_config (newCancelRequestState opts t) now).
Proof.
  intros [Ht Hd]. pose proof (new_request_wf opts t) as [Ht' Hd'].
  unfold merge. cbn zeta. revert Ht' Hd'. generalize (newCancelRequestState opts t). clear opts t. intros n Ht' Hd'.
  destruct s as [ [m r tm] d], n as [ [m' r' tm'] d']; cbn in *; subst.
  unfold current_config, config_join; cbn -[earlier].
  destruct (decide (m = CancelImmediate)) as [->|Hm].
  { rewrite (Hd eq_refl). rewrite !decide_True by (by left). cbn.
    by destruct d' as [d'|]; [|]; repeat case_decide. }
  destruct (decide (m' = CancelImmediate)) as [->|Hm'].
  { rewrite (Hd' eq_refl). rewrite !decide_True by (by right). cbn. destruct d; by repeat case_decide. }
  rewrite !(decide_False (P := m = _ ∨ _)) by tauto. cbn -[earlier].
  assert (Z.lor m m' ≠ CancelImmediate) as Hl by (rewrite lor_mode_0; tauto).
  destruct d as [d|], d' as [d'|]; cbn -[earlier time_Sub].
  - cbn [earlier]. rewrite !(decide_True (P := m ≠ _)), !(decide_True (P := m' ≠ _)) by done.
    pose proof (earlier_remaining d d' now) as He. cbn in He. cbn -[time_Sub].
    pose proof (time_Sub_le d d' now). pose proof (time_Sub_le d' d now).
    destruct (decide (d' < d)) as [Hlt|Hlt]; cbn -[time_Sub] in *; rewrite (decide_True (P := Z.lor m m' ≠ _)) by done;
      (destruct (decide (time_Sub d now ≤ 0)), (decide (time_Sub d' now ≤ 0)); cbn -[time_Sub];
       rewrite ?(decide_True (P := _ ∨ _)) by tauto; rewrite ?(decide_False (P := _ ∨ _)) by tauto; rewrite ?He; try done; try lia).
  - cbn [earlier]. rewrite !(decide_True (P := m ≠ _)), (decide_True (P := Z.lor m m' ≠ _)) by done.
    destruct (decide (time_Sub d now ≤ 0)); cbn -[time_Sub];
      rewrite ?(decide_True (P := _ ∨ _)) by tauto; rewrite ?(decide_False (P := _ ∨ _)) by tauto; done.
  - cbn [earlier]. rewrite !(decide_True (P := m' ≠ _)), (decide_True (P := Z.lor m m' ≠ _)) by done.
    destruct (decide (time_Sub d' now ≤ 0)); cbn -[time_Sub];
      rewrite ?(decide_True (P := _ ∨ _)) by tauto; rewrite ?(decide_False (P := _ ∨ _)) by tauto; done.
  - rewrite (decide_False (P := _ ∨ _)) by tauto. done.
Qed.

Lemma earlier_comm a b : earlier a b = earlier b a.
Proof. destruct a as [a|], b as [b|]; cbn; try done. repeat case_decide; f_equal; lia. Qed.

Lemma earlier_assoc a b c : earlier a (earlier b c) = earlier (earlier a b) c.
Proof. destruct a as [a|], b as [b|], c as [c|]; cbn; repeat (case_decide; cbn); try done; f_equal; lia. Qed.

#[export] Instance config_join_comm : Comm (=) config_join.
Proof.
  intros a b. unfold config_join. rewrite (orb_comm (Recursive b)), (Z.lor_comm (Mode b)), (earlier_comm (Timeout b)).
  by destruct (decide (Mode a = _ ∨ _)), (decide (Mode b = _ ∨ _)); try tauto.
Qed.

#[export] Instance config_join_assoc : Assoc (=) config_join.
Proof.
  intros a b c. unfold config_join.
  destruct (decide (Mode b = CancelImmediate ∨ Mode c = CancelImmediate)) as [Hbc|Hbc];
    destruct (decide (Mode a = CancelImmediate ∨ Mode b = CancelImmediate)) as [Hab|Hab];
    cbn -[earlier]; rewrite ?orb_assoc, ?Z.lor_assoc, ?earlier_assoc;
    repeat (case_decide; cbn; rewrite ?lor_mode_0 in *; try tauto); try done; tauto.
Qed.

(** Requests, each with the moment it was made. *)
Definition merge_all (r : list CancelOption * Z) (rs : list (list CancelOption * Z)) : cancelRequestState :=
  foldl (λ s r, merge s (Some r.1) r.2) (newCancelRequestState r.1 r.2) rs.

Definition request_at (now : Z) (r : list CancelOption * Z) : cancelConfig :=
  current_config (newCancelRequestState r.1 r.2) now.

Lemma merge_all_current now r rs :
  current_config (merge_all r rs) now = foldl config_join (request_at now r) (request_at now <$> rs).
Proof.
  unfold merge_all, request_at at 1. pose proof (new_request_wf r.1 r.2) as Hwf.
  revert Hwf. generalize (newCancelRequestState r.1 r.2). clear r.
  induction rs as [|r rs IH]; cbn [foldl fmap list_fmap]; intros s Hwf; [done|].
  rewrite IH by (by apply merge_wf). by rewrite merge_current_config by done.
Qed.

(** The join of the requests of a non-empty list does not depend on their order. *)
Definition join_next (c : cancelConfig) (acc : option cancelConfig) : option cancelConfig :=
  Some (match acc with None => c | Some d => config_join c d end).

Lemma foldl_join_foldr a l : Some (foldl config_join a l) = foldr join_next None (a :: l).
Proof.
  revert a. induction l as [|b l IH]; cbn [foldl]; intros a; [done|]. rewrite IH. cbn.
  destruct (foldr join_next None l); cbn; unfold join_next; [by rewrite (assoc_L config_join)|done].
Qed.

Lemma foldl_join_perm a l b k : a :: l ≡ₚ b :: k → foldl config_join a l = foldl config_join b k.
Proof.
  intros Hp. apply (inj Some). rewrite !foldl_join_foldr.
  apply (foldr_permutation (=) join_next None); [|done].
  intros _ x _ y [z|] _ _ _; unfold join_next; f_equal.
  - by rewrite !(assoc_L config_join), (comm_L config_join x).
  - apply (comm_L config_join).
Qed.

(** Callers that stop or preempt the same turn need not agree on an order: whatever
    order their requests are merged in, the request that reaches the agent at any moment
    is the same, since it is the join of what each of them asks for at that moment - the
    union of the modes, immediate as soon as one of them is or is past its deadline, and
    otherwise the earliest deadline. *)
Theorem merge_order_irrelevant r rs r' rs' now :
  r :: rs ≡ₚ r' :: rs' →
  parseCancelOptions (cancelOptions (merge_all r rs) now)
  = parseCancelOptions (cancelOptions (merge_all r' rs') now) ∧
  parseCancelOptions (cancelOptions (merge_all r rs) now)
  = foldl config_join (request_at now r) (request_at now <$> rs).
Proof.
  assert (∀ s, parseCancelOptions (cancelOptions s now) = current_config s now) as Hrt.
  { intros s. unfold cancelOptions. destruct (current_config s now) as [m [] [d|] ]; reflexivity. }
  intros Hp. rewrite !Hrt, !merge_all_current. split; [|done]. apply foldl_join_perm.
  change (request_at now <$> r :: rs ≡ₚ request_at now <$> r' :: rs'). by f_equiv.
Qed.

Definition graceful : list CancelOption := [WithCancelMode CancelAfterChatModel; WithCancelTimeout 10].
Definition patient : list CancelOption := [WithCancelMode CancelAfterToolCalls; WithRecursiveCancel; WithCancelTimeout 30].

Lemma merge_order_irrelevant_witness :
  parseCancelOptions (cancelOptions (merge_all (graceful, 5) [(patient, 0)]) 9)
  = parseCancelOptions (cancelOptions (merge_all (patient, 0) [(graceful, 5)]) 9) ∧
  parseCancelOptions (cancelOptions (merge_all (graceful, 5) [(patient, 0)]) 9) = MkCancelConfig 6 true (Some 6) ∧
  parseCancelOptions (cancelOptions (merge_all (graceful, 5) [(patient, 0)]) 15) = MkCancelConfig 0 true None.
Proof.
  destruct (merge_order_irrelevant (graceful, 5) [(patient, 0)] (patient, 0) [(graceful, 5)] 9) as [H1 H2];
    [apply perm_swap|].
  split; [exact H1|]. split; vm_compute; reflexivity.
Defined.

(** ** The states of a context *)
Definition over (s : cancel_state) : bool := match s with stDone | stCancelHandled => true | _ => false end.

(** The channels tell the state, and each was closed by the one change it announces. *)
Record context_wf (cc : cancelContext) : Prop := MkContextWf {
  wf_running : state cc = stRunning → cancelChan cc = false;
  wf_cancelling : state cc = stCancelling ∨ state cc = stCancelHandled → cancelChan cc = true;
  wf_done : doneChan cc = over (state cc);
  wf_immediate : immediateChan cc = interruptSent cc;
  wf_recursive : recursiveChan cc = recursive cc;
  wf_escalated : immediateChan cc = true → escalated cc = true;
  wf_timeout : timeoutEscalated cc = true → escalated cc = true
}.

Lemma new_context_wf : context_wf newCancelContext.
Proof. by split; intros [] || intros. Qed.

(** How the state of a run moves: it is cancelled, then over; nothing follows. *)
Definition state_le (s t : cancel_state) : bool :=
  match s, t with
  | stRunning, _ => true
  | stCancelling, stRunning => false
  | stCancelling, _ => true
  | stDone, stDone | stCancelHandled, stCancelHandled => true
  | _, _ => false
  end.

Lemma state_le_refl s : state_le s s = true.
Proof. by destruct s. Qed.

Lemma state_le_trans s t u : state_le s t = true → state_le t u = true → state_le s u = true.
Proof. by destruct s, t, u. Qed.
#[local] Hint Resolve state_le_refl state_le_trans : core.

(** A method keeps a context well formed and moves its state forward. *)
Definition moves (cc : cancelContext) (r : option cancelContext) : Prop :=
  ∃ cc', r = Some cc' ∧ context_wf cc' ∧ state_le (state cc) (state cc') = true.

Ltac open_context cc H :=
  destruct cc as [cm cch ich dch st snt esc tesc sm dl rec rch ts], H as [H1 H2 H3 H4 H5 H6 H7]; cbn in *.

Ltac close_moves := eexists; split; [reflexivity|split; [split; cbn; intros; naive_solver|try reflexivity]].

Lemma setMode_moves m cc : context_wf cc → context_wf (setMode m cc) ∧ state (setMode m cc) = state cc.
Proof. intros H. open_context cc H. split; [split|]; cbn; naive_solver. Qed.

Lemma flags_wf t cc : context_wf cc → context_wf (with_flags true t cc).
Proof. intros H. open_context cc H. split; cbn; naive_solver. Qed.

Lemma setRecursive_moves v cc : context_wf cc → moves cc (setRecursive v cc).
Proof. intros H. open_context cc H. unfold setRecursive; cbn. destruct v, rec; cbn; subst; close_moves; by destruct st. Qed.

Lemma begin_cancelling_moves cc : context_wf cc → moves cc (begin_cancelling cc).
Proof. intros H. open_context cc H. unfold begin_cancelling, close_cancel; cbn. destruct st; cbn; rewrite ?H1 by done; cbn; close_moves. Qed.

Lemma sendInterrupt_moves cc :
  context_wf cc → escalated cc = true →
  ∃ b cc', sendInterrupt cc = Some (b, cc') ∧ context_wf cc' ∧ state cc' = state cc.
Proof.
  intros H He. open_context cc H. unfold sendInterrupt; cbn. destruct snt; subst; cbn; do 2 eexists; (split; [reflexivity|]); (split; [split; cbn; naive_solver|done]).
Qed.

Lemma moves_trans cc cc1 r : state_le (state cc) (state cc1) = true → moves cc1 r → moves cc r.
Proof. intros Hle (cc' & -> & Hw & Hle'). exists cc'. eauto. Qed.

Lemma moves_bind cc r f : moves cc r → (∀ cc1, context_wf cc1 → moves cc1 (f cc1)) → moves cc (r ≫= f).
Proof. intros (cc1 & -> & Hw & Hle) Hf. cbn. by eapply moves_trans, Hf. Qed.

Lemma moves_ret cc cc' : context_wf cc' → state_le (state cc) (state cc') = true → moves cc (Some cc').
Proof. intros. by exists cc'. Qed.

Lemma triggerImmediate_moves cc : context_wf cc → moves cc (triggerImmediate cc).
Proof.
  intros H. unfold triggerImmediate. cbn zeta.
  destruct (setMode_moves CancelImmediate _ (flags_wf (timeoutEscalated cc) _ H)) as [Hw _].
  destruct (begin_cancelling_moves _ Hw) as (cc1 & E & Hw1 & Hle).
  assert (escalated cc1 = true) as He.
  { revert E. unfold begin_cancelling, close_cancel. cbn. destruct (state cc); [destruct (cancelChan cc); [done|]|..]; by intros [= <-]. }
  rewrite E. cbn. destruct (sendInterrupt_moves _ Hw1 He) as (b & cc2 & -> & Hw2 & Hs). cbn.
  apply moves_ret; [done|]. by rewrite Hs.
Qed.

Lemma triggerCancel_moves m cc : context_wf cc → moves cc (triggerCancel m cc).
Proof.
  intros H. unfold triggerCancel. destruct (setMode_moves m _ H) as [Hw Hs].
  eapply moves_trans, begin_cancelling_moves; [|done]. by rewrite Hs.
Qed.

Lemma markDone_moves cc : context_wf cc → moves cc (Some (markDone cc)).
Proof. intros H. open_context cc H. unfold markDone; cbn. destruct st; cbn; close_moves. Qed.

Lemma deadline_wf t cc : context_wf cc → context_wf (setDeadlineUnixNano t cc).
Proof. intros H. open_context cc H. split; cbn; naive_solver. Qed.

Lemma startTimeout_wf cc : context_wf cc → context_wf (startTimeout cc).
Proof. intros H. open_context cc H. split; cbn; naive_solver. Qed.

Lemma deadline_min_wf t cc : context_wf cc → context_wf (setDeadlineMinUnixNano t cc) ∧ state (setDeadlineMinUnixNano t cc) = state cc.
Proof. intros H. unfold setDeadlineMinUnixNano. case_decide; [done|]. split; [by apply deadline_wf|done]. Qed.

Lemma submit_request_moves c now cc : context_wf cc → moves cc (submit_request c now cc).
Proof.
  intros H. unfold submit_request. case_decide; [by apply triggerImmediate_moves|].
  destruct (Timeout c) as [d|]; [case_decide|]; [|by apply moves_ret..].
  destruct (deadline_min_wf (wrap64 (now + d)) _ H) as [Hw Hs]. apply moves_ret; [by apply startTimeout_wf|].
  cbn. by rewrite Hs.
Qed.

(** The step out of [stRunning]: the channel is closed before anyone can see it, since
    only the goroutine that changed the state closes it. *)
Lemma leave_running_moves f rec rest cc :
  context_wf cc → state cc = stRunning →
  (∀ c, state (f c) = state c ∧ cancelChan (f c) = cancelChan c ∧ doneChan (f c) = doneChan c ∧
        immediateChan (f c) = immediateChan c ∧ interruptSent (f c) = interruptSent c ∧
        recursive (f c) = recursive c ∧ recursiveChan (f c) = recursiveChan c ∧
        escalated (f c) = escalated c ∧ timeoutEscalated (f c) = timeoutEscalated c) →
  (∀ cc1, context_wf cc1 → moves cc1 (rest cc1)) →
  moves cc (cc1 ← setRecursive rec (f (with_state stCancelling cc)); cc2 ← close_cancel cc1; rest cc2).
Proof.
  intros H Hs Hf Hr. destruct (Hf (with_state stCancelling cc)) as (E1&E2&E3&E4&E5&E6&E7&E8&E9).
  destruct (f (with_state stCancelling cc)) as [cm cch ich dch st snt esc tesc sm dl rcs rch ts].
  destruct H as [H1 H2 H3 H4 H5 H6 H7]; cbn in *. subst. rewrite (H1 Hs), Hs in *.
  unfold setRecursive, close_cancel; cbn. destruct rec, (recursive cc) eqn:Er; rewrite ?H5; cbn;
    (eapply moves_trans; [|apply Hr; split; cbn; naive_solver]; rewrite Hs; done).
Qed.

Lemma cancelFunc_moves (ends : bool) opts now cc :
  context_wf cc →
  ∃ h b cc', cancelFunc (if ends then markDone else id) opts now cc = Some (h, b, cc') ∧
             context_wf cc' ∧ state_le (state cc) (state cc') = true.
Proof.
  intros H. unfold cancelFunc. destruct (state cc) eqn:Es; [| |by do 3 eexists; rewrite Es..].
  - set (cc1 := (if ends then markDone else id) cc).
    assert (context_wf cc1 ∧ (state cc1 = stRunning ∨ state cc1 = stDone)) as [Hw [Hs|Hs] ].
    { subst cc1. destruct ends; cbn; [|by split; [|left] ]. destruct (markDone_moves _ H) as (? & [= <-] & ? & _).
      split; [done|]. right. unfold markDone. by rewrite Es. }
    + rewrite Hs. destruct (leave_running_moves (λ c, with_started (Mode (parseCancelOptions opts)) (setMode (Mode (parseCancelOptions opts)) c))
        (Recursive (parseCancelOptions opts)) (submit_request (parseCancelOptions opts) now) cc1 Hw Hs
        ltac:(done) (submit_request_moves _ now)) as (cc' & E & Hw' & Hle).
      apply bind_Some in E as (c1 & E1 & (c2 & E2 & E3)%bind_Some).
      cbn zeta. rewrite E1. cbn. rewrite E2. cbn. rewrite E3. cbn. by do 3 eexists.
    + rewrite Hs. do 3 eexists. split; [reflexivity|]. split; [done|]. by rewrite Hs.
  - cbn zeta. destruct (setMode_moves (join (getMode cc) (Mode (parseCancelOptions opts))) _ H) as [Hw Hs].
    assert (moves (setMode (join (getMode cc) (Mode (parseCancelOptions opts))) cc)
      (cc ← (if Recursive (parseCancelOptions opts) then setRecursive true (setMode (join (getMode cc) (Mode (parseCancelOptions opts))) cc)
             else Some (setMode (join (getMode cc) (Mode (parseCancelOptions opts))) cc));
       submit_request (parseCancelOptions opts) now cc)) as (cc' & E & Hw' & Hle).
    { apply moves_bind; [|apply submit_request_moves]. destruct (Recursive _); [by apply setRecursive_moves|by apply moves_ret]. }
    apply bind_Some in E as (c1 & E1 & E2). rewrite E1. cbn. rewrite E2. cbn. do 3 eexists. split; [done|]. split; [done|].
    by rewrite Hs, Es in Hle.
Qed.

Lemma InterruptFromGraph_moves m timeout rec now cc :
  context_wf cc →
  ∃ b cc', InterruptFromGraph m timeout rec now cc = Some (b, cc') ∧ context_wf cc' ∧ state_le (state cc) (state cc') = true.
Proof.
  intros H. unfold InterruptFromGraph. destruct (state cc) eqn:Es; [|by do 2 eexists; rewrite Es..].
  destruct (leave_running_moves (setMode m) rec
    (λ cc, if decide (m = CancelImmediate) then triggerImmediate cc
           else if decide (0 < timeout) then Some (startTimeout (setDeadlineUnixNano (wrap64 (now + timeout)) cc)) else Some cc)
    cc H Es ltac:(done)) as (cc' & E & Hw' & Hle).
  { intros cc1 H1. repeat case_decide; [by apply triggerImmediate_moves| |by apply moves_ret].
    apply moves_ret; [by apply startTimeout_wf, deadline_wf|done]. }
  apply bind_Some in E as (c1 & E1 & (c2 & E2 & E3)%bind_Some). cbn zeta. rewrite E1. cbn. rewrite E2. cbn.
  repeat case_decide; [rewrite E3|injection E3 as <-..]; cbn; by do 2 eexists.
Qed.

Lemma cancel_step_moves e cc : context_wf cc → moves cc (cancel_step e cc).
Proof.
  intros H. destruct e; cbn [cancel_step].
  - destruct (cancelFunc_moves ends opts now cc H) as (h & b & cc' & -> & ? & ?). by apply moves_ret.
  - by apply markDone_moves.
  - unfold createAndMarkHandled, markHandled. open_context cc H. destruct st; cbn; close_moves.
  - destruct (timeoutStarted cc); [|by apply moves_ret]. unfold timeout_pass. repeat case_decide; try (destruct (doneChan cc); by apply moves_ret).
    destruct (doneChan cc); [by apply moves_ret|].
    destruct (triggerImmediate_moves _ (flags_wf true _ H)) as (cc' & -> & ? & ?). by apply moves_ret.
  - destruct (InterruptFromGraph_moves m timeout rec now cc H) as (b & cc' & -> & ? & ?). by apply moves_ret.
  - destruct immediate; unfold propagate_immediate, propagate_cancel; destruct (_ && _); try by apply moves_ret.
    all: apply moves_bind; [by apply setRecursive_moves|].
    + apply triggerImmediate_moves.
    + intros. by apply triggerCancel_moves.
Qed.

Lemma cancel_run_moves es cc : context_wf cc → moves cc (cancel_run es cc).
Proof.
  revert cc. induction es as [|e es IH]; cbn [cancel_run]; intros cc H; [by apply moves_ret|].
  apply moves_bind; [by apply cancel_step_moves|done].
Qed.

(** However requests, the end of the run, its timeout, a parent's cancellation and a
    graph's interrupt follow each other, no method of a cancel context panics (no channel
    is closed twice), the channels tell what state the run is in, and the state only
    moves forward: a run that is done or whose cancellation was handled stays so. *)
Theorem context_never_panics es es' :
  ∃ cc cc', cancel_run es newCancelContext = Some cc ∧ cancel_run (es ++ es') newCancelContext = Some cc' ∧
    context_wf cc ∧ state_le (state cc) (state cc') = true ∧
    (over (state cc) = true → state cc' = state cc).
Proof.
  destruct (cancel_run_moves es _ new_context_wf) as (cc & E & Hw & _).
  destruct (cancel_run_moves es' _ Hw) as (cc' & E' & _ & Hle).
  exists cc, cc'. split_and!; [done| |done..|].
  - rewrite <- E'. clear Hw Hle. revert E. generalize newCancelContext. induction es as [|e es IH]; cbn; [by intros ? [= ->]|].
    intros c0 (c1 & -> & E1)%bind_Some. cbn. by apply IH.
  - destruct (state cc), (state cc'); done.
Qed.

(** ** One after another, or merged first

    Requests that reach the agent one after another leave it in the mode and with the
    deadline that the merged request has. *)
Definition plain_request (r : list CancelOption * Z) : Prop :=
  0 ≤ Mode (parseCancelOptions r.1) < 2 ^ 31 ∧
  match Timeout (parseCancelOptions r.1) with Some d => 0 < d → 0 < r.2 + d < int_bound | None => True end.

Fixpoint cancel_all (rs : list (list CancelOption * Z)) (cc : cancelContext) : option cancelContext :=
  match rs with
  | [] => Some cc
  | r :: rs => '(h, ok, cc) ← cancelFunc id r.1 r.2 cc; if ok : bool then cancel_all rs cc else None
  end.

Lemma int32_small m : 0 ≤ m < 2 ^ 31 → int32 m = m.
Proof. intros. unfold int32. rewrite Z.mod_small; lia. Qed.

Lemma lor_small a b n : 0 ≤ n → 0 ≤ a < 2 ^ n → 0 ≤ b < 2 ^ n → 0 ≤ Z.lor a b < 2 ^ n.
Proof.
  intros Hn Ha Hb. split; [apply Z.lor_nonneg; lia|].
  destruct (decide (Z.lor a b = 0)) as [->|Hz]; [lia|].
  assert (0 < Z.lor a b) by (pose proof (proj2 (Z.lor_nonneg a b) (conj (proj1 Ha) (proj1 Hb))); lia).
  apply Z.log2_lt_pow2; [done|]. rewrite Z.log2_lor by lia.
  assert (∀ x, 0 ≤ x < 2 ^ n → x ≠ 0 → Z.log2 x < n) as Hlog by (intros; apply Z.log2_lt_pow2; lia).
  assert (0 < n) by (destruct (decide (n = 0)) as [->|]; [|lia]; rewrite Z.pow_0_r in *; assert (a = 0) as -> by lia; assert (b = 0) as -> by lia; done).
  assert (Z.log2 a < n) by (destruct (decide (a = 0)) as [->|]; [done|by apply Hlog]).
  assert (Z.log2 b < n) by (destruct (decide (b = 0)) as [->|]; [done|by apply Hlog]).
  lia.
Qed.

(** The context that stands for a request. *)
Record stands_for (cc : cancelContext) (s : cancelRequestState) : Prop := MkStandsFor {
  sf_state : state cc = stCancelling;
  sf_mode : mode cc = Mode (cfg s);
  sf_small : 0 ≤ mode cc < 2 ^ 31;
  sf_deadline : mode cc ≠ CancelImmediate → deadlineUnixNano cc = default 0 (timeoutDeadline s);
  sf_positive : ∀ d, timeoutDeadline s = Some d → 0 < d < int_bound;
  sf_recursive : recursive cc = Recursive (cfg s);
  sf_immediate : immediateChan cc = bool_decide (mode cc = CancelImmediate)
}.

Lemma plain_new r :
  plain_request r → Mode (parseCancelOptions r.1) ≠ CancelImmediate →
  timeoutDeadline (newCancelRequestState r.1 r.2)
  = (match Timeout (parseCancelOptions r.1) with Some d => if decide (0 < d) then Some (wrap64 (r.2 + d)) else None | None => None end) ∧
  (∀ d, timeoutDeadline (newCancelRequestState r.1 r.2) = Some d → 0 < d < int_bound).
Proof.
  intros [_ Ht] Hm. cbn. destruct (Timeout _) as [d|]; [|done].
  destruct (decide (0 < d)) as [Hd|Hd]; [rewrite decide_True by done|by rewrite decide_False by tauto].
  specialize (Ht Hd). rewrite wrap64_id by (unfold in_int64; lia). split; [done|]. by intros ? [= <-].
Qed.

Lemma triggerImmediate_stands cc :
  context_wf cc → state cc = stCancelling →
  ∃ cc', triggerImmediate cc = Some cc' ∧ state cc' = stCancelling ∧ mode cc' = 0 ∧
    recursive cc' = recursive cc ∧ immediateChan cc' = true.
Proof.
  intros H Hs. open_context cc H. subst. unfold triggerImmediate, sendInterrupt; cbn.
  destruct snt; cbn; eexists; (split; [reflexivity|done]).
Qed.

(** What [submit_request] makes of the mode that was just set. *)
Lemma submit_stands c now cc s :
  context_wf cc → state cc = stCancelling → 0 ≤ mode cc < 2 ^ 31 →
  immediateChan cc = bool_decide (mode cc = CancelImmediate) ∨ immediateChan cc = false →
  mode cc = Mode (cfg s) → recursive cc = Recursive (cfg s) →
  (mode cc ≠ CancelImmediate → match Timeout c with
    | Some d => default 0 (timeoutDeadline s) = if decide (0 < d) then deadlineUnixNano (setDeadlineMinUnixNano (wrap64 (now + d)) cc) else deadlineUnixNano cc
    | None => default 0 (timeoutDeadline s) = deadlineUnixNano cc end) →
  (∀ d, timeoutDeadline s = Some d → 0 < d < int_bound) →
  ∃ cc', submit_request c now cc = Some cc' ∧ stands_for cc' s.
Proof.
  intros Hw Hs Hsm Hi Hm Hr Hd Hp. unfold submit_request.
  destruct (decide (getMode cc = CancelImmediate)) as [H0|H0]; unfold getMode in H0.
  - destruct (triggerImmediate_stands cc Hw Hs) as (cc' & -> & ? & E & ? & ?).
    exists cc'. split; [done|].
    split; [done|by rewrite E, <- Hm, H0|rewrite E; lia|by rewrite E|done|congruence|by rewrite E].
  - assert (immediateChan cc = bool_decide (mode cc = CancelImmediate)) as Hi'
      by (destruct Hi as [|Hi]; [done|]; rewrite Hi; symmetry; by apply bool_decide_eq_false).
    specialize (Hd H0).
    destruct (Timeout c) as [d|]; [|eexists; split; [done|]; by split].
    destruct (decide (0 < d)); [|eexists; split; [done|]; by split].
    eexists. split; [done|]. unfold setDeadlineMinUnixNano in *. destruct (decide _); cbn in *; by split.
Qed.

Lemma first_request_stands r :
  plain_request r →
  ∃ cc, cancelFunc id r.1 r.2 newCancelContext = Some (HandleWait, true, cc) ∧ context_wf cc ∧
    stands_for cc (newCancelRequestState r.1 r.2).
Proof.
  intros Hr. destruct (cancelFunc_moves false r.1 r.2 _ new_context_wf) as (h & b & cc & E & Hw & _).
  revert E. unfold cancelFunc. cbn [state newCancelContext id]. cbn zeta.
  pose proof (plain_new r Hr) as Hp. destruct Hr as [Hm _].
  set (c := parseCancelOptions r.1) in *.
  assert (∃ cc1, setRecursive (Recursive c) (with_started (Mode c) (setMode (Mode c) (with_state stCancelling newCancelContext))) ≫= close_cancel
    = Some cc1 ∧ context_wf cc1 ∧ state cc1 = stCancelling ∧ mode cc1 = Mode c ∧ recursive cc1 = Recursive c ∧
    immediateChan cc1 = false ∧ deadlineUnixNano cc1 = 0) as (cc1 & E1 & Hw1 & Hs1 & Hm1 & Hr1 & Hi1 & Hd1).
  { destruct (Recursive c); cbn; rewrite int32_small by done; eexists; (split; [reflexivity|]); (split; [split; cbn; naive_solver|done]). }
  apply bind_Some in E1 as (c0 & E0 & E1). cbn in E0 |- *. rewrite E0. cbn. rewrite E1. cbn.
  destruct (submit_stands c r.2 cc1 (newCancelRequestState r.1 r.2)) as (cc2 & -> & Hs2); try done.
  - by rewrite Hm1.
  - by right.
  - rewrite Hm1. intros Hne. destruct (Hp Hne) as [-> _]. unfold setDeadlineMinUnixNano. rewrite Hd1. cbn.
    destruct (Timeout c) as [d|]; [|done]. by destruct (decide (0 < d)).
  - destruct (decide (Mode c = CancelImmediate)) as [Hz|Hz]; [|by apply Hp].
    intros d Hd. pose proof (proj2 (new_request_wf r.1 r.2)) as Hwf. cbn in Hwf. specialize (Hwf Hz). cbn in Hd. congruence.
  - cbn. intros [= <- <- <-]. eauto.
Qed.

Lemma merged_deadline r cc cc1 s :
  plain_request r → stands_for cc s → deadlineUnixNano cc1 = deadlineUnixNano cc →
  Mode (cfg (merge s (Some r.1) r.2)) ≠ CancelImmediate →
  match Timeout (parseCancelOptions r.1) with
  | Some d => default 0 (timeoutDeadline (merge s (Some r.1) r.2))
              = if decide (0 < d) then deadlineUnixNano (setDeadlineMinUnixNano (wrap64 (r.2 + d)) cc1) else deadlineUnixNano cc1
  | None => default 0 (timeoutDeadline (merge s (Some r.1) r.2)) = deadlineUnixNano cc1
  end.
Proof.
  intros Hr [Ss Sm Ssm Sd Sp Sr Si] Hd. unfold merge. cbn zeta. destruct (decide (Mode (cfg s) = _ ∨ _)) as [Hm|Hm]; [by intros []|]. intros _.
  assert (Mode (parseCancelOptions r.1) ≠ CancelImmediate) as Hmr by (intros ?; apply Hm; by right).
  destruct (plain_new r Hr Hmr) as [Et Hp]. rewrite <- Sm in Hm. specialize (Sd ltac:(tauto)). revert Hp.
  rewrite Sd in Hd. cbn [timeoutDeadline]. rewrite Et. clear Et Sd.
  destruct (Timeout (parseCancelOptions r.1)) as [d|]; [destruct (decide (0 < d))|]; [|by rewrite Hd..].
  intros Hp. specialize (Hp _ eq_refl). unfold setDeadlineMinUnixNano.
  destruct (timeoutDeadline s) as [e|]; cbn in *; [specialize (Sp _ eq_refl)|];
    repeat case_decide; cbn; lia.
Qed.

Lemma merged_positive r cc s :
  plain_request r → stands_for cc s →
  ∀ d, timeoutDeadline (merge s (Some r.1) r.2) = Some d → 0 < d < int_bound.
Proof.
  intros Hr [Ss Sm Ssm Sd Sp Sr Si] d. unfold merge. cbn zeta. destruct (decide (Mode (cfg s) = _ ∨ _)) as [Hm|Hm]; [done|]. cbn [timeoutDeadline].
  assert (Mode (parseCancelOptions r.1) ≠ CancelImmediate) as Hmr by (intros ?; apply Hm; by right).
  destruct (plain_new r Hr Hmr) as [_ Hp].
  destruct (timeoutDeadline s) as [e|], (timeoutDeadline (newCancelRequestState r.1 r.2)) as [e'|]; cbn;
    repeat case_decide; intros [= <-]; auto.
Qed.

Lemma next_request_stands r cc s :
  plain_request r → context_wf cc → stands_for cc s →
  ∃ cc', cancelFunc id r.1 r.2 cc = Some (HandleWait, true, cc') ∧ context_wf cc' ∧
    stands_for cc' (merge s (Some r.1) r.2).
Proof.
  intros Hr H Hst. pose proof Hst as [Ss Sm Ssm Sd Sp Sr Si]. destruct (cancelFunc_moves false r.1 r.2 _ H) as (h & b & cc' & E & Hw & _).
  revert E. unfold cancelFunc. rewrite Ss. cbn zeta.
  pose proof (plain_new r Hr) as Hp. pose proof (proj1 Hr) as Hm.
  set (c := parseCancelOptions r.1) in *. set (n := newCancelRequestState r.1 r.2) in *.
  set (cc0 := setMode (join (getMode cc) (Mode c)) cc).
  assert (0 ≤ join (mode cc) (Mode c) < 2 ^ 31) as Hj.
  { unfold join. destruct (decide (_ ∨ _)); [done|]. by apply lor_small. }
  assert (∃ cc1, (if Recursive c then setRecursive true cc0 else Some cc0) = Some cc1 ∧ context_wf cc1 ∧
    state cc1 = stCancelling ∧ mode cc1 = join (mode cc) (Mode c) ∧ recursive cc1 = recursive cc || Recursive c ∧
    immediateChan cc1 = immediateChan cc ∧ deadlineUnixNano cc1 = deadlineUnixNano cc)
    as (cc1 & E1 & Hw1 & Hs1 & Hm1 & Hr1 & Hi1 & Hd1).
  { destruct (setMode_moves (join (getMode cc) (Mode c)) _ H) as [Hw0 Hs0]. fold cc0 in Hw0, Hs0.
    destruct (setRecursive_moves true cc0 Hw0) as (cc1 & E1 & Hw1 & _). revert E1. unfold setRecursive, close_chan.
    destruct (Recursive c); intros E1.
    - eexists. split; [exact E1|]. split; [done|]. cbn in E1. destruct (recursive cc) eqn:Er; cbn in E1;
        [|destruct (recursiveChan cc); [done|]; cbn in E1]; injection E1 as <-; cbn; rewrite int32_small by done; by rewrite ?Er.
    - exists cc0. cbn. rewrite int32_small, orb_false_r by done. by split_and!. }
  rewrite E1. cbn [mbind option_bind].
  assert (Mode (cfg (merge s (Some r.1) r.2)) = join (mode cc) (Mode c) ∧
          Recursive (cfg (merge s (Some r.1) r.2)) = Recursive (cfg s) || Recursive c) as [Emm Emr].
  { unfold merge, join. cbn zeta. change (Mode (cfg (newCancelRequestState r.1 r.2))) with (Mode c). rewrite <- Sm. by destruct (decide (_ ∨ _)). }
  destruct (submit_stands c r.2 cc1 (merge s (Some r.1) r.2)) as (cc2 & -> & Hs2); try done.
  - by rewrite Hm1.
  - rewrite Hi1, Si, Hm1. unfold join. destruct (decide (mode cc = CancelImmediate)) as [Hz|Hz].
    + left. rewrite decide_True by tauto. by rewrite !bool_decide_true.
    + right. by apply bool_decide_eq_false.
  - by rewrite Hm1.
  - by rewrite Hr1, Sr.
  - rewrite Hm1, <- Emm. by apply (merged_deadline r cc).
  - by apply (merged_positive r cc).
  - cbn. intros [= <- <- <-]. eauto.
Qed.

Lemma cancel_all_stands rs cc s :
  Forall plain_request rs → context_wf cc → stands_for cc s →
  ∃ cc', cancel_all rs cc = Some cc' ∧ stands_for cc' (foldl (λ s r, merge s (Some r.1) r.2) s rs).
Proof.
  intros Hf. revert cc s. induction Hf as [|r rs Hr _ IH]; intros cc s Hw Hs; cbn [cancel_all foldl]; [eauto|].
  destruct (next_request_stands r cc s Hr Hw Hs) as (cc' & -> & Hw' & Hs'). cbn. by apply IH.
Qed.

(** C38: Requests that arrive one after another at a running agent leave its context in
    the mode, with the deadline and as recursive as the request that the loop makes by
    merging them before the turn starts; the agent is interrupted at once exactly if that
    request is immediate.  So it makes no difference to the agent when the loop passes the
    requests on. *)
Theorem merged_or_one_by_one r rs :
  Forall plain_request (r :: rs) →
  ∃ cc, cancel_all (r :: rs) newCancelContext = Some cc ∧
    state cc = stCancelling ∧ mode cc = Mode (cfg (merge_all r rs)) ∧
    recursive cc = Recursive (cfg (merge_all r rs)) ∧
    immediateChan cc = bool_decide (mode cc = CancelImmediate) ∧
    (mode cc ≠ CancelImmediate → deadlineUnixNano cc = default 0 (timeoutDeadline (merge_all r rs))).
Proof.
  intros [Hr Hrs]%Forall_cons. destruct (first_request_stands r Hr) as (cc & E & Hw & Hs).
  destruct (cancel_all_stands rs cc _ Hrs Hw Hs) as (cc' & E' & [? ? ? ? ? ? ?]).
  exists cc'. cbn [cancel_all]. rewrite E. cbn. by split_and!.
Qed.

Lemma merged_or_one_by_one_witness :
  ∃ cc, cancel_all [(graceful, 5); (patient, 0)] newCancelContext = Some cc ∧
    mode cc = 6 ∧ recursive cc = true ∧ immediateChan cc = false ∧ deadlineUnixNano cc = 15.
Proof.
  destruct (merged_or_one_by_one (graceful, 5) [(patient, 0)]) as (cc & E & _ & Hm & Hr & Hi & Hd).
  { repeat constructor; vm_compute; congruence. }
  exists cc. rewrite E. split; [reflexivity|].
  change (mode cc = 6) in Hm. rewrite Hi, Hr, Hd, Hm by (rewrite Hm; discriminate). split_and!; vm_compute; reflexivity.
Defined.
