(* ===== verification/AgentControl.v ===== *)
(** * The controllers of an agent loop (internal/harness/core/agent_loop_stop.go,
    agent_loop_preempt.go, agent_loop_config.go)

    [stopController] decides when a loop ends and keeps the cancel request for the turn
    that runs; [preemptController] knows which turn runs and keeps the requests to
    preempt it.  Every method holds the mutex of its controller and is one step; a
    channel of capacity one is whether it holds its token, and a channel that callers
    wait on to be closed is a number.  [None] stands for a panic. *)
From S2P Require Import Prelude.
From S2P Require Export AgentCancel.
#[local] Open Scope Z_scope.

(** ** Stopping *)
Inductive stopPhase := stopOpen | stopIdleWaiting | stopCommitted.
#[export] Instance stopPhase_eq : EqDecision stopPhase.
Proof. solve_decision. Defined.

Record stopConfig := MkStopConfig {
  stop_agentCancelOpts : option (list CancelOption);
  stop_skipCheckpoint : bool;
  stop_stopCause : string;
  stop_idleFor : Z;
  stop_timeout : option Z
}.

Definition emptyStopConfig : stopConfig := MkStopConfig None false "" 0 None.

(** The options of [Stop]; two of them panic on a duration that is not positive. *)
Inductive StopOption :=
  | StopCancel (opts : list CancelOption) | StopTimeout (d : Z) | StopSkipCheckpoint
  | StopCause (cause : string) | StopIdle (d : Z).

Definition WithGraceful : StopOption :=
  StopCancel [WithCancelMode (Z.lor CancelAfterChatModel CancelAfterToolCalls); WithRecursiveCancel].
Definition WithImmediate : StopOption := StopCancel [WithRecursiveCancel].
Definition WithGracefulTimeout (gracePeriod : Z) : option StopOption :=
  if decide (gracePeriod ≤ 0) then None
  else Some (StopCancel [WithCancelMode (Z.lor CancelAfterChatModel CancelAfterToolCalls); WithRecursiveCancel;
                         WithCancelTimeout gracePeriod]).
Definition WithStopTimeout (d : Z) : StopOption := StopTimeout d.
Definition WithSkipCheckpoint : StopOption := StopSkipCheckpoint.
Definition WithStopCause (cause : string) : StopOption := StopCause cause.
Definition UntilIdleFor (duration : Z) : option StopOption :=
  if decide (duration ≤ 0) then None else Some (StopIdle duration).

Definition apply_stop_option (c : stopConfig) (o : StopOption) : stopConfig :=
  match o with
  | StopCancel opts => MkStopConfig (Some opts) (stop_skipCheckpoint c) (stop_stopCause c) (stop_idleFor c) (stop_timeout c)
  | StopTimeout d => MkStopConfig (stop_agentCancelOpts c) (stop_skipCheckpoint c) (stop_stopCause c) (stop_idleFor c) (Some d)
  | StopSkipCheckpoint => MkStopConfig (stop_agentCancelOpts c) true (stop_stopCause c) (stop_idleFor c) (stop_timeout c)
  | StopCause s => MkStopConfig (stop_agentCancelOpts c) (stop_skipCheckpoint c) s (stop_idleFor c) (stop_timeout c)
  | StopIdle d => MkStopConfig (stop_agentCancelOpts c) (stop_skipCheckpoint c) (stop_stopCause c) d (stop_timeout c)
  end.

(** The options of a call of [Stop], without a cancel request when it waits for the loop
    to be idle. *)
Definition stop_options (opts : list StopOption) : stopConfig :=
  let c := foldl apply_stop_option emptyStopConfig opts in
  if decide (0 < stop_idleFor c)
  then MkStopConfig None (stop_skipCheckpoint c) (stop_stopCause c) (stop_idleFor c) (stop_timeout c)
  else c.

Record stopController := MkStop {
  phase : stopPhase;
  hasActiveCancelTarget : bool;
  stop_pending : option cancelRequestState;
  stop_notify : bool;
  idleFor : Z;
  skipCheckpoint : bool;
  stopCause : string;
  stop_closed : bool
}.
Add Printing Constructor stopController.

Definition newStopController : stopController := MkStop stopOpen false None false 0 false "" false.

Record stopDecision := MkDecision { commit_now : bool; wakeIdle : bool }.

Definition commitLocked (c : stopController) : bool * stopController :=
  if stop_closed c || bool_decide (phase c = stopCommitted) then (false, c)
  else (true, MkStop stopCommitted (hasActiveCancelTarget c) (stop_pending c) (stop_notify c) 0 (skipCheckpoint c)
                (stopCause c) (stop_closed c)).

Definition commit (c : stopController) : bool * stopController := commitLocked c.

(** The skip flag sticks and so does the first cause. *)
Definition note_options (cfg : stopConfig) (c : stopController) : stopController :=
  MkStop (phase c) (hasActiveCancelTarget c) (stop_pending c) (stop_notify c) (idleFor c)
    (stop_skipCheckpoint cfg || skipCheckpoint c)
    (if decide (stop_stopCause cfg ≠ "" ∧ stopCause c = "") then stop_stopCause cfg else stopCause c)
    (stop_closed c).

Definition requestStop (cfg : stopConfig) (now : Z) (c : stopController) : stopDecision * stopController :=
  if stop_closed c then (MkDecision false false, c)
  else
    let c := note_options cfg c in
    if decide (0 < stop_idleFor cfg) then
      let c := if decide (phase c ≠ stopCommitted ∧ idleFor c = 0)
               then MkStop stopIdleWaiting (hasActiveCancelTarget c) (stop_pending c) (stop_notify c) (stop_idleFor cfg)
                      (skipCheckpoint c) (stopCause c) (stop_closed c)
               else c in
      (MkDecision false (bool_decide (phase c = stopIdleWaiting)), c)
    else
      let '(committed, c) := commitLocked c in
      match stop_agentCancelOpts cfg with
      | None => (MkDecision committed false, c)
      | Some opts =>
          let p := match stop_pending c with
                   | None => newCancelRequestState opts now
                   | Some p => merge p (Some opts) now
                   end in
          (MkDecision committed false,
           MkStop (phase c) (hasActiveCancelTarget c) (Some p) (stop_notify c || hasActiveCancelTarget c) (idleFor c)
             (skipCheckpoint c) (stopCause c) (stop_closed c))
      end.

Definition isCommitted (c : stopController) : bool := bool_decide (phase c = stopCommitted).
Definition idleDuration (c : stopController) : Z := if decide (phase c = stopIdleWaiting) then idleFor c else 0.
Definition skipCheckpointEnabled (c : stopController) : bool := skipCheckpoint c.
Definition cause (c : stopController) : string := stopCause c.

Definition stop_beginActiveTurn (c : stopController) : stopController :=
  if stop_closed c then c
  else MkStop (phase c) true (stop_pending c) (stop_notify c || bool_decide (is_Some (stop_pending c))) (idleFor c)
         (skipCheckpoint c) (stopCause c) (stop_closed c).

Definition stop_endActiveTurn (c : stopController) : option cancelRequestState * stopController :=
  (stop_pending c, MkStop (phase c) false None (stop_notify c) (idleFor c) (skipCheckpoint c) (stopCause c) (stop_closed c)).

Definition receiveCancel (c : stopController) : option cancelRequestState * stopController :=
  if hasActiveCancelTarget c
  then (stop_pending c, MkStop (phase c) true None (stop_notify c) (idleFor c) (skipCheckpoint c) (stopCause c) (stop_closed c))
  else (None, c).

Definition stop_closeForLoopExit (c : stopController) : stopController :=
  MkStop (phase c) false None false (idleFor c) (skipCheckpoint c) (stopCause c) true.

(** The watcher takes the token of the channel. *)
Definition take_stop_notify (c : stopController) : option stopController :=
  if stop_notify c
  then Some (MkStop (phase c) (hasActiveCancelTarget c) (stop_pending c) false (idleFor c) (skipCheckpoint c) (stopCause c) (stop_closed c))
  else None.

(** ** Preempting *)
Inductive preemptTurnPhase := preemptTurnIdle | preemptTurnPlanning | preemptTurnActive.
#[export] Instance preemptTurnPhase_eq : EqDecision preemptTurnPhase.
Proof. solve_decision. Defined.

(** Requests to preempt a turn, merged, with the channels to close once it is done. *)
Record preemptRequest := MkPreempt { preempt_cancel : cancelRequestState; ackChans : list nat }.

Definition newPreemptRequest (ack : option nat) (opts : option (list CancelOption)) (now : Z) : preemptRequest :=
  MkPreempt (newCancelRequestState (default [] opts) now) (option_list ack).

Definition merge_preempt (r : preemptRequest) (ack : option nat) (opts : option (list CancelOption)) (now : Z) : preemptRequest :=
  MkPreempt (merge (preempt_cancel r) opts now) (ackChans r ++ option_list ack).

(** The channels that [ack] closes; none for a nil request. *)
Definition ack (r : option preemptRequest) : list nat := match r with Some r => ackChans r | None => [] end.

Section preempt.
Context {Ctx TC : Type}.

Record preemptTurnSnapshot := MkSnapshot {
  hasTargetTurn : bool; snap_turnID : Z; snap_ctx : option Ctx; snap_tc : option TC }.

Record preemptController := MkPreemptCtrl {
  turnPhase : preemptTurnPhase;
  turnID : Z;
  currentTC : option TC;
  currentRunCtx : option Ctx;
  pushInFlight : Z;
  preempt_pending : option preemptRequest;
  preempt_notify : bool;
  preempt_closed : bool
}.

Definition newPreemptController : preemptController := MkPreemptCtrl preemptTurnIdle 0 None None 0 None false false.

Definition requirePhaseLocked (expected : preemptTurnPhase) (c : preemptController) : option () :=
  if decide (turnPhase c = expected) then Some () else None.
Definition requireNoPendingLocked (c : preemptController) : option () :=
  match preempt_pending c with None => Some () | Some _ => None end.

Definition beginPlanningTurn (c : preemptController) : option preemptController :=
  _ ← requirePhaseLocked preemptTurnIdle c;
  _ ← requireNoPendingLocked c;
  Some (MkPreemptCtrl preemptTurnPlanning ((turnID c + 1) mod 2 ^ 64) None None (pushInFlight c) (preempt_pending c)
    (preempt_notify c) (preempt_closed c)).

Definition abortPlanningTurn (c : preemptController) : option (option preemptRequest * preemptController) :=
  _ ← requirePhaseLocked preemptTurnPlanning c;
  Some (preempt_pending c, MkPreemptCtrl preemptTurnIdle (turnID c) None None (pushInFlight c) None
    (preempt_notify c) (preempt_closed c)).

Definition beginActiveTurn (ctx : Ctx) (tc : TC) (c : preemptController) : option preemptController :=
  _ ← requirePhaseLocked preemptTurnPlanning c;
  Some (MkPreemptCtrl preemptTurnActive (turnID c) (Some tc) (Some ctx) (pushInFlight c) (preempt_pending c)
    (preempt_notify c || bool_decide (is_Some (preempt_pending c))) (preempt_closed c)).

Definition endActiveTurn (c : preemptController) : option (option preemptRequest * preemptController) :=
  _ ← requirePhaseLocked preemptTurnActive c;
  Some (preempt_pending c, MkPreemptCtrl preemptTurnIdle (turnID c) None None (pushInFlight c) None
    (preempt_notify c) (preempt_closed c)).

Definition beginPush (c : preemptController) : preemptTurnSnapshot * preemptController :=
  (MkSnapshot (bool_decide (turnPhase c = preemptTurnPlanning ∨ turnPhase c = preemptTurnActive)) (turnID c)
     (currentRunCtx c) (currentTC c),
   MkPreemptCtrl (turnPhase c) (turnID c) (currentTC c) (currentRunCtx c) (pushInFlight c + 1) (preempt_pending c)
     (preempt_notify c) (preempt_closed c)).

Definition endPush (c : preemptController) : option preemptController :=
  if decide (pushInFlight c - 1 < 0) then None
  else Some (MkPreemptCtrl (turnPhase c) (turnID c) (currentTC c) (currentRunCtx c) (pushInFlight c - 1) (preempt_pending c)
         (preempt_notify c) (preempt_closed c)).

(** [waitForPushes] returns. *)
Definition no_pushes (c : preemptController) : bool := negb (bool_decide (0 < pushInFlight c)).

(** The channels it closes at once, and the controller. *)
Definition requestPreempt (target : preemptTurnSnapshot) (ackc : option nat) (opts : option (list CancelOption)) (now : Z)
    (c : preemptController) : list nat * preemptController :=
  if preempt_closed c || negb (hasTargetTurn target) || bool_decide (turnPhase c = preemptTurnIdle)
     || bool_decide (turnID c ≠ snap_turnID target)
  then (option_list ackc, c)
  else
    let p := match preempt_pending c with
             | None => newPreemptRequest ackc opts now
             | Some p => merge_preempt p ackc opts now
             end in
    ([], MkPreemptCtrl (turnPhase c) (turnID c) (currentTC c) (currentRunCtx c) (pushInFlight c) (Some p)
           (preempt_notify c || bool_decide (turnPhase c = preemptTurnActive)) (preempt_closed c)).

Definition receivePreempt (c : preemptController) : option preemptRequest * preemptController :=
  if decide (turnPhase c = preemptTurnActive)
  then (preempt_pending c, MkPreemptCtrl (turnPhase c) (turnID c) (currentTC c) (currentRunCtx c) (pushInFlight c) None
         (preempt_notify c) (preempt_closed c))
  else (None, c).

Definition preempt_closeForLoopExit (c : preemptController) : list nat * preemptController :=
  (ack (preempt_pending c),
   MkPreemptCtrl preemptTurnIdle (turnID c) None None (pushInFlight c) None false true).

Definition take_preempt_notify (c : preemptController) : option preemptController :=
  if preempt_notify c
  then Some (MkPreemptCtrl (turnPhase c) (turnID c) (currentTC c) (currentRunCtx c) (pushInFlight c) (preempt_pending c)
         false (preempt_closed c))
  else None.
End preempt.
Arguments preemptTurnSnapshot : clear implicits.
Arguments preemptController : clear implicits.
Arguments MkPreemptCtrl {Ctx TC} _ _ _ _ _ _ _ _.
Arguments newPreemptController {Ctx TC}.
Add Printing Constructor preemptController.
