(* ===== verification/AgentLoop.v ===== *)
(** * The agent loop (internal/harness/core/agent_loop.go, agent_loop_run.go,
    agent_loop_agent.go, agent_loop_push.go, agent_loop_checkpoint.go,
    agent_loop_bridge.go)

    A loop owns a buffer of items; callers push items and stop the loop while one
    goroutine takes them, plans turns and runs an agent on each.  The system is the loop
    with all the goroutines that use it; [step] lets one of them do its next action,
    which is a method of the buffer or of a controller, an access to an atomic variable
    or a call out of the loop.  What comes back from outside (the callbacks of the
    configuration, the agent, the clock) is part of the label of a step, and time itself
    does not pass: a timer may fire whenever it runs. *)
From S2P Require Import Prelude.
From S2P Require Export TurnBuffer AgentControl.
#[local] Open Scope Z_scope.

(** ** Errors *)
Inductive loop_error :=
  | EMsg (msg : string)
  | ECancel (info : AgentCancelInfo)
  | EInterrupt (contexts : nat)
  | EWrap (msg : string) (e : loop_error)
  | EBoth (e1 e2 : loop_error).

(** [errors.As] for the two types the loop asks for. *)
Fixpoint as_cancel (e : loop_error) : bool :=
  match e with
  | ECancel _ => true
  | EWrap _ e => as_cancel e
  | EBoth e1 e2 => as_cancel e1 || as_cancel e2
  | _ => false
  end.
Fixpoint as_interrupt (e : loop_error) : bool :=
  match e with
  | EInterrupt _ => true
  | EWrap _ e => as_interrupt e
  | EBoth e1 e2 => as_interrupt e1 || as_interrupt e2
  | _ => false
  end.

(** ** Checkpoints *)
Notation bytes := (list Z).

Record agentLoopCheckpoint (T : Type) := MkLoopCheckpoint {
  RunnerCheckpoint : bytes; HasRunnerState : bool; UnhandledItems : list T; CanceledItems : list T }.
Arguments MkLoopCheckpoint {T} _ _ _ _.
Arguments RunnerCheckpoint {T} _.
Arguments HasRunnerState {T} _.
Arguments UnhandledItems {T} _.
Arguments CanceledItems {T} _.

Record agentLoopPendingResume (T : Type) := MkPendingResume {
  interrupted : list T; unhandled : list T; newItems : list T; resumeBytes : bytes }.
Arguments MkPendingResume {T} _ _ _ _.
Arguments interrupted {T} _.
Arguments unhandled {T} _.
Arguments newItems {T} _.
Arguments resumeBytes {T} _.

(** encoding/gob on checkpoints: it may refuse a value, and what it encoded it decodes. *)
Class GobCodec (T : Type) := {
  gob_encode : agentLoopCheckpoint T → result loop_error bytes;
  gob_decode : bytes → result loop_error (agentLoopCheckpoint T);
  gob_law c data : gob_encode c = Ok data → data ≠ [] ∧ gob_decode data = Ok c
}.

(** The store of the caller: deleting is optional. *)
Class CheckPointStore (St : Type) := {
  store_Get : St → string → result loop_error (bytes * bool);
  store_Set : St → string → bytes → St * option loop_error;
  store_Delete : option (St → string → St * option loop_error)
}.

(** What was stored without an error is found again. *)
Class CheckPointStoreLaws (St : Type) `{CheckPointStore St} :=
  store_set_get st id data st' : store_Set st id data = (st', None) → store_Get st' id = Ok (data, true).

(** *** The store between a turn and the runner *)
Definition bridgeCheckpointID : string := "__adk_turnloop_bridge_cp__".

Record bridgeStore := MkBridge { cpID : string; bridge_data : bytes }.
Definition newBridgeStore : bridgeStore := MkBridge bridgeCheckpointID [].
Definition newResumeBridgeStore (id : string) (data : bytes) : bridgeStore := MkBridge id data.

Definition bridge_Get (s : bridgeStore) (key : string) : bytes * bool :=
  if decide (key ≠ cpID s) then ([], false)
  else match bridge_data s with [] => ([], false) | data => (data, true) end.
Definition bridge_Set (s : bridgeStore) (key : string) (data : bytes) : bridgeStore :=
  if decide (key = cpID s) then MkBridge (cpID s) data else s.
Definition bridge_Delete (s : bridgeStore) (key : string) : bridgeStore :=
  if decide (key = cpID s) then MkBridge (cpID s) [] else s.

Section loop.
Context {T Ctx ICtx St : Type} `{GobCodec T} `{CheckPointStore St}.

Definition marshalTurnLoopCheckpoint (c : agentLoopCheckpoint T) : result loop_error bytes := gob_encode c.
Definition unmarshalTurnLoopCheckpoint (data : bytes) : result loop_error (agentLoopCheckpoint T) := gob_decode data.

Definition saveTurnLoopCheckpoint (store : option St) (id : string) (c : agentLoopCheckpoint T)
    : option St * option loop_error :=
  match store with
  | None => (None, Some (EMsg "checkpoint store is nil"))
  | Some st =>
      match marshalTurnLoopCheckpoint c with
      | Err e => (Some st, Some e)
      | Ok data => let '(st, e) := store_Set st id data in (Some st, e)
      end
  end.

Definition deleteTurnLoopCheckpoint (store : option St) (id : string) : option St * option loop_error :=
  match store, store_Delete with
  | Some st, Some del => let '(st, e) := del st id in (Some st, e)
  | _, _ => (store, None)
  end.

(** ** What the callbacks return *)
Record GenResult := MkGen {
  RunCtx : option Ctx;
  Input : bool;  (** there is an input (for [GenInput]) *)
  Consumed : list T;
  Remaining : list T
}.

Record turnRunSpec := MkSpec { isResume : bool; consumed : list T; spec_resumeBytes : bytes }.
Record turnPlan := MkPlan { turnCtx : Ctx; remaining : list T; spec : turnRunSpec }.

(** A callback returns an error, nil, or a result. *)
Notation callback := (result loop_error (option GenResult)).

Definition planTurn (ctx : Ctx) (hasGenResume : bool) (pr : option (agentLoopPendingResume T)) (answer : callback)
    : result loop_error turnPlan :=
  match pr with
  | None =>
      match answer with
      | Err e => Err e
      | Ok None => Err (EMsg "GenInputResult is nil")
      | Ok (Some r) =>
          if Input r
          then Ok (MkPlan (default ctx (RunCtx r)) (Remaining r) (MkSpec false (Consumed r) []))
          else Err (EMsg "agent input is nil")
      end
  | Some pr =>
      if hasGenResume
      then match answer with
           | Err e => Err e
           | Ok None => Err (EMsg "GenResumeResult is nil")
           | Ok (Some r) => Ok (MkPlan (default ctx (RunCtx r)) (Remaining r) (MkSpec true (Consumed r) (resumeBytes pr)))
           end
      else Err (EMsg "GenResume is required for resume")
  end.

(** The store of a turn; the run options it adds are not modelled. *)
Definition setupBridgeStore (store : option St) (sp : turnRunSpec) : result loop_error (option bridgeStore) :=
  match store with
  | None => if isResume sp then Err (EMsg "failed to resume agent: checkpoint store is nil") else Ok None
  | Some _ =>
      if isResume sp
      then match spec_resumeBytes sp with
           | [] => Err (EMsg "resume checkpoint is empty")
           | data => Ok (Some (newResumeBridgeStore bridgeCheckpointID data))
           end
      else Ok (Some newBridgeStore)
  end.

(** ** The state *)
Record TurnContext := MkTurnContext { tc_Consumed : list T }.

Notation preemptCtl := (preemptController Ctx TurnContext).
Notation snapshot := (preemptTurnSnapshot Ctx TurnContext).

(** What several goroutines use. *)
Record shared := MkShared {
  buffer : turnBuffer T;
  stopped : bool;
  started : bool;
  done : bool;
  stopCtrl : stopController;
  preemptCtrl : preemptCtl;
  lateItems : list T;
  lateSealed : bool
}.

Record AgentLoopState := MkResult {
  ExitReason : option loop_error;
  res_UnhandledItems : list T;
  InterruptedItems : list T;
  res_StopCause : string;
  CheckpointAttempted : bool;
  CheckpointErr : option loop_error
}.

(** What only the goroutine of the loop uses, with the configuration. *)
Record owned := MkOwned {
  CheckpointID : string;
  hasGenResume : bool;
  store : option St;
  runErr : option loop_error;
  interruptedItems : list T;
  checkPointRunnerBytes : bytes;
  interruptContexts : option (list ICtx);
  capturedCancelErr : option AgentCancelInfo;
  pendingResume : option (agentLoopPendingResume T);
  loadCheckpointID : string;
  loop_result : option AgentLoopState
}.

(** *** Pushing *)
Record pushConfig := MkPushConfig { preempt : bool; preemptDelay : Z; push_agentCancelOpts : option (list CancelOption) }.

(** Its options: a preemption at a safe point, which must not be none, a delay of it, and
    a strategy that decides instead. *)
Inductive PushOption := PushPreempt (opts : list CancelOption) | WithPreemptDelay (delay : Z) | WithPushStrategy.
Definition WithPreempt (safePoint : Z) : option PushOption :=
  if decide (safePoint = 0) then None else Some (PushPreempt [WithCancelMode (toCancelMode safePoint); WithRecursiveCancel]).
Definition WithPreemptTimeout (safePoint timeout : Z) : option PushOption :=
  if decide (safePoint = 0) then None
  else Some (PushPreempt [WithCancelMode (toCancelMode safePoint); WithCancelTimeout timeout; WithRecursiveCancel]).

Definition apply_push_option (c : pushConfig * bool) (o : PushOption) : pushConfig * bool :=
  let '(cfg, strat) := c in
  match o with
  | PushPreempt opts => (MkPushConfig true (preemptDelay cfg) (Some opts), strat)
  | WithPreemptDelay d => (MkPushConfig (preempt cfg) d (push_agentCancelOpts cfg), strat)
  | WithPushStrategy => (cfg, true)
  end.

(** The configuration of a call, and whether a strategy decides. *)
Definition push_options (opts : list PushOption) : pushConfig * bool :=
  foldl apply_push_option (MkPushConfig false 0 None, false) opts.

(** Where a call of [Push] is. *)
Inductive push_stage :=
  | PStopped              (** the check of [stopped] that [pushWithConfig] starts with *)
  | PBegin                (** [beginPush] *)
  | PStrategy             (** the strategy decides *)
  | PStopped2             (** the check of [stopped] of [pushWithStrategy] *)
  | PSend                 (** [TrySend] *)
  | PStarted (ack : nat)  (** the check of [started] *)
  | PRequest (ack : nat)  (** [requestPreempt] *)
  | PLate                 (** [appendLate] *)
  | PEnd (ok : bool)      (** [endPush], deferred *)
  | PPanic.               (** the same, on the way out of a panic *)

Record push := MkPush { item : T; pcfg : pushConfig; strategy : bool; snap : option snapshot; stage : push_stage }.

(** *** The goroutine of the loop *)
Inductive turn_branch := OnDone | OnPreempted | OnStopped.

(** What a turn leaves behind: what its events carried, the error of the handler, what
    the runner saved, and the case of the final [select]. *)
Record turn_outcome := MkOutcome {
  out_cancel : option AgentCancelInfo;
  out_interrupts : option (list ICtx);
  handleErr : option loop_error;
  saved : option bytes;
  branch : turn_branch
}.

(** Where the items of a turn come from. *)
Inductive turn_source := FromBuffer (first : T) | FromResume (pr : agentLoopPendingResume T).

(** A turn about to be planned: what is planned, and what goes back if it is not. *)
Record planning := MkPlanning { plan_items : list T; plan_resume : option (agentLoopPendingResume T); pushBack : list T }.

Inductive run_pc :=
  | RunIdle                                      (** not started *)
  | RunLoad                                      (** [tryLoadCheckpoint] *)
  | RunLoaded (items : list T) (err : option loop_error)
  | RunHead                                      (** [isCommitted] at the top of the loop *)
  | RunDuration                                  (** [idleDuration] *)
  | RunClear                                     (** [ClearWakeup] *)
  | RunReceive (idle : bool)                     (** [Receive] *)
  | RunMissed                                    (** nothing received while idle: [IsClosed] *)
  | RunStopped (first : option T)                (** the check of [stopped] of the idle case *)
  | RunRecheck                                   (** nothing received: [idleDuration] again *)
  | RunReceived (first : option T)               (** the checks of the context *)
  | RunCommitted (first : T)                     (** [isCommitted] *)
  | RunWait (src : turn_source)                  (** [waitForPushes] *)
  | RunTake (src : turn_source)                  (** [TakeAll] *)
  | RunBegin (p : planning)                      (** [beginPlanningTurn] *)
  | RunPlan (p : planning)                       (** [planTurn] *)
  | RunPlanned (p : planning) (plan : turnPlan)  (** [isCommitted] *)
  | RunPrepare (p : planning) (plan : turnPlan)  (** [PrepareAgent] *)
  | RunPrepared (p : planning) (plan : turnPlan) (** [isCommitted] *)
  | RunRemaining (plan : turnPlan)               (** [PushFront] of what remains *)
  | RunSetup (plan : turnPlan)                   (** [setupBridgeStore] *)
  | RunSetupFailed (plan : turnPlan) (err : loop_error)
  | RunActivate (plan : turnPlan) (ms : option bridgeStore)
  | RunActivateStop (plan : turnPlan) (ms : option bridgeStore)
  | RunRunner (plan : turnPlan) (ms : option bridgeStore)  (** the runner starts or resumes *)
  | RunActive (plan : turnPlan) (ms : option bridgeStore)
  | RunEndStop (plan : turnPlan) (err : option loop_error)
  | RunEndPreempt (plan : turnPlan) (err : option loop_error)
  | RunOutcome (plan : turnPlan) (err : option loop_error)
  | RunAbort (items : list T)                    (** [abortPlanning] *)
  | RunPutBack (items : list T)                  (** [PushFront] before the exit *)
  | RunExit                                      (** [cleanup]: [stopped] is set *)
  | RunUnhandled                                 (** [TakeAll] *)
  | RunSkip (items : list T)                     (** [skipCheckpointEnabled] *)
  | RunSave (items : list T) (skip : bool)       (** [isCommitted], and the checkpoint *)
  | RunResult (items : list T) (attempted : bool) (err : option loop_error)
  | RunCloseStop | RunClosePreempt | RunCloseBuffer | RunCloseDone
  | RunEnded.

(** The two watchers of a turn; [WToken] and [SReceive] are about to take the request. *)
Inductive watcher :=
  | WWait (turn : Z) | WToken (turn : Z) | WSubmit (turn : Z) (r : preemptRequest)
  | SReceive (turn : Z) | SSubmit (turn : Z) (r : cancelRequestState) | SWait (turn : Z).

(** What is left of a call of [Stop] or [commitStop]. *)
Inductive stopping := StWake (commit : bool) | StFlag | StClose.

(** A delayed preemption. *)
Record delayed := MkDelayed { d_snap : snapshot; d_ack : nat; d_opts : option (list CancelOption) }.

(** The system, with what it is observed by: the acknowledgements created and closed, and
    the items accepted, loaded from a checkpoint, given to turns, and dropped. *)
Record sys := MkSys {
  sh : shared;
  own : owned;
  pc : run_pc;
  pushes : list push;
  stops : list stopping;
  timers : list delayed;
  watchers : list watcher;
  preemptDone : bool;   (** the channels of the turn that runs *)
  stoppedDone : bool;
  ctx_err : option loop_error;
  acks : nat;
  acks_closed : list nat;
  accepted : list T;
  loaded : list T;
  turns : list T;
  dropped : list T
}.

(** ** Changes of one part of the state *)
Definition set_buffer (b : turnBuffer T) (x : shared) : shared :=
  MkShared b (stopped x) (started x) (done x) (stopCtrl x) (preemptCtrl x) (lateItems x) (lateSealed x).
Definition set_stopped (x : shared) : shared :=
  MkShared (buffer x) true (started x) (done x) (stopCtrl x) (preemptCtrl x) (lateItems x) (lateSealed x).
Definition set_started (x : shared) : shared :=
  MkShared (buffer x) (stopped x) true (done x) (stopCtrl x) (preemptCtrl x) (lateItems x) (lateSealed x).
Definition set_done (x : shared) : shared :=
  MkShared (buffer x) (stopped x) (started x) true (stopCtrl x) (preemptCtrl x) (lateItems x) (lateSealed x).
Definition set_stopCtrl (c : stopController) (x : shared) : shared :=
  MkShared (buffer x) (stopped x) (started x) (done x) c (preemptCtrl x) (lateItems x) (lateSealed x).
Definition set_preemptCtrl (c : preemptCtl) (x : shared) : shared :=
  MkShared (buffer x) (stopped x) (started x) (done x) (stopCtrl x) c (lateItems x) (lateSealed x).
Definition set_late (l : list T) (sealed : bool) (x : shared) : shared :=
  MkShared (buffer x) (stopped x) (started x) (done x) (stopCtrl x) (preemptCtrl x) l sealed.

Definition set_runErr (e : option loop_error) (x : owned) : owned :=
  MkOwned (CheckpointID x) (hasGenResume x) (store x) e (interruptedItems x) (checkPointRunnerBytes x) (interruptContexts x)
    (capturedCancelErr x) (pendingResume x) (loadCheckpointID x) (loop_result x).
Definition set_interrupted (l : list T) (x : owned) : owned :=
  MkOwned (CheckpointID x) (hasGenResume x) (store x) (runErr x) l (checkPointRunnerBytes x) (interruptContexts x)
    (capturedCancelErr x) (pendingResume x) (loadCheckpointID x) (loop_result x).
Definition set_captured (b : bytes) (ics : option (list ICtx)) (ce : option AgentCancelInfo) (x : owned) : owned :=
  MkOwned (CheckpointID x) (hasGenResume x) (store x) (runErr x) (interruptedItems x) b ics ce (pendingResume x)
    (loadCheckpointID x) (loop_result x).
Definition set_pendingResume (pr : option (agentLoopPendingResume T)) (x : owned) : owned :=
  MkOwned (CheckpointID x) (hasGenResume x) (store x) (runErr x) (interruptedItems x) (checkPointRunnerBytes x)
    (interruptContexts x) (capturedCancelErr x) pr (loadCheckpointID x) (loop_result x).
Definition set_loadID (id : string) (x : owned) : owned :=
  MkOwned (CheckpointID x) (hasGenResume x) (store x) (runErr x) (interruptedItems x) (checkPointRunnerBytes x)
    (interruptContexts x) (capturedCancelErr x) (pendingResume x) id (loop_result x).
Definition set_store (st : option St) (x : owned) : owned :=
  MkOwned (CheckpointID x) (hasGenResume x) st (runErr x) (interruptedItems x) (checkPointRunnerBytes x)
    (interruptContexts x) (capturedCancelErr x) (pendingResume x) (loadCheckpointID x) (loop_result x).
Definition set_result (r : AgentLoopState) (x : owned) : owned :=
  MkOwned (CheckpointID x) (hasGenResume x) (store x) (runErr x) (interruptedItems x) (checkPointRunnerBytes x)
    (interruptContexts x) (capturedCancelErr x) (pendingResume x) (loadCheckpointID x) (Some r).

Definition goto (p : run_pc) (s : sys) : sys :=
  MkSys (sh s) (own s) p (pushes s) (stops s) (timers s) (watchers s) (preemptDone s) (stoppedDone s) (ctx_err s)
    (acks s) (acks_closed s) (accepted s) (loaded s) (turns s) (dropped s).
Definition with_sh (f : shared → shared) (s : sys) : sys :=
  MkSys (f (sh s)) (own s) (pc s) (pushes s) (stops s) (timers s) (watchers s) (preemptDone s) (stoppedDone s) (ctx_err s)
    (acks s) (acks_closed s) (accepted s) (loaded s) (turns s) (dropped s).
Definition with_own (f : owned → owned) (s : sys) : sys :=
  MkSys (sh s) (f (own s)) (pc s) (pushes s) (stops s) (timers s) (watchers s) (preemptDone s) (stoppedDone s) (ctx_err s)
    (acks s) (acks_closed s) (accepted s) (loaded s) (turns s) (dropped s).
Definition with_pushes (l : list push) (s : sys) : sys :=
  MkSys (sh s) (own s) (pc s) l (stops s) (timers s) (watchers s) (preemptDone s) (stoppedDone s) (ctx_err s)
    (acks s) (acks_closed s) (accepted s) (loaded s) (turns s) (dropped s).
Definition with_stops (l : list stopping) (s : sys) : sys :=
  MkSys (sh s) (own s) (pc s) (pushes s) l (timers s) (watchers s) (preemptDone s) (stoppedDone s) (ctx_err s)
    (acks s) (acks_closed s) (accepted s) (loaded s) (turns s) (dropped s).
Definition with_timers (l : list delayed) (s : sys) : sys :=
  MkSys (sh s) (own s) (pc s) (pushes s) (stops s) l (watchers s) (preemptDone s) (stoppedDone s) (ctx_err s)
    (acks s) (acks_closed s) (accepted s) (loaded s) (turns s) (dropped s).
Definition with_watchers (l : list watcher) (pd sd : bool) (s : sys) : sys :=
  MkSys (sh s) (own s) (pc s) (pushes s) (stops s) (timers s) l pd sd (ctx_err s)
    (acks s) (acks_closed s) (accepted s) (loaded s) (turns s) (dropped s).
Definition with_ctx (e : option loop_error) (s : sys) : sys :=
  MkSys (sh s) (own s) (pc s) (pushes s) (stops s) (timers s) (watchers s) (preemptDone s) (stoppedDone s) e
    (acks s) (acks_closed s) (accepted s) (loaded s) (turns s) (dropped s).
Definition with_acks (n : nat) (cl : list nat) (s : sys) : sys :=
  MkSys (sh s) (own s) (pc s) (pushes s) (stops s) (timers s) (watchers s) (preemptDone s) (stoppedDone s) (ctx_err s)
    n cl (accepted s) (loaded s) (turns s) (dropped s).
Definition note_accepted (l : list T) (s : sys) : sys :=
  MkSys (sh s) (own s) (pc s) (pushes s) (stops s) (timers s) (watchers s) (preemptDone s) (stoppedDone s) (ctx_err s)
    (acks s) (acks_closed s) (accepted s ++ l) (loaded s) (turns s) (dropped s).
Definition note_loaded (l : list T) (s : sys) : sys :=
  MkSys (sh s) (own s) (pc s) (pushes s) (stops s) (timers s) (watchers s) (preemptDone s) (stoppedDone s) (ctx_err s)
    (acks s) (acks_closed s) (accepted s) (loaded s ++ l) (turns s) (dropped s).
Definition note_turn (l : list T) (s : sys) : sys :=
  MkSys (sh s) (own s) (pc s) (pushes s) (stops s) (timers s) (watchers s) (preemptDone s) (stoppedDone s) (ctx_err s)
    (acks s) (acks_closed s) (accepted s) (loaded s) (turns s ++ l) (dropped s).
Definition note_dropped (l : list T) (s : sys) : sys :=
  MkSys (sh s) (own s) (pc s) (pushes s) (stops s) (timers s) (watchers s) (preemptDone s) (stoppedDone s) (ctx_err s)
    (acks s) (acks_closed s) (accepted s) (loaded s) (turns s) (dropped s ++ l).

(** ** Steps *)
Inductive outcome := Blocked | Panics | Goes (s : sys).

(** [close] on channels, in order. *)
Fixpoint close_all (l closed : list nat) : option (list nat) :=
  match l with
  | [] => Some closed
  | a :: l => if decide (a ∈ closed) then None else close_all l (closed ++ [a])
  end.

Definition closing (l : list nat) (s : sys) : outcome :=
  match close_all l (acks_closed s) with
  | Some cl => Goes (with_acks (acks s) cl s)
  | None => Panics
  end.

Definition or_panic {A} (r : option A) (f : A → outcome) : outcome :=
  match r with Some a => f a | None => Panics end.

(** *** The end of a turn *)
Definition applyFrameworkCapturedError (ce : option AgentCancelInfo) (handle : option loop_error) : option loop_error :=
  match handle with
  | Some e => Some e
  | None => ECancel <$> ce
  end.

(** What [finalizeCheckpoint] finds: the bridge store after the turn. *)
Definition finalizeCheckpoint (st : option St) (ms : option bridgeStore) (saved : option bytes) : option bytes :=
  match st, ms with
  | Some _, Some ms =>
      let ms := match saved with Some d => bridge_Set ms bridgeCheckpointID d | None => ms end in
      let '(data, ok) := bridge_Get ms bridgeCheckpointID in
      if ok : bool then Some data else None
  | _, _ => None
  end.

(** The select at the end of [runAgentAndHandleEvents]: the error it returns and the
    state of the loop. *)
Definition turn_result (pd : bool) (ms : option bridgeStore) (o : turn_outcome) (x : owned) : option loop_error * owned :=
  let x := set_captured (checkPointRunnerBytes x) (out_interrupts o) (out_cancel o) x in
  let finish :=
    let b := default (checkPointRunnerBytes x) (finalizeCheckpoint (store x) ms (saved o)) in
    (applyFrameworkCapturedError (out_cancel o) (handleErr o), set_captured b (out_interrupts o) (out_cancel o) x) in
  match branch o with
  | OnDone => if pd then (None, x) else finish
  | OnPreempted => (None, x)
  | OnStopped => finish
  end.

(** The case of the select is one that is ready. *)
Definition branch_ready (pd sd : bool) (b : turn_branch) : bool :=
  match b with OnDone => true | OnPreempted => pd | OnStopped => sd end.

(** *** Loading and saving a checkpoint *)
Inductive load_result :=
  | LoadNothing (id : string)
  | LoadFailed (id : string) (e : loop_error)
  | LoadEmptyBytes (id : string) (e : loop_error)  (** after the buffer was taken *)
  | LoadItems (id : string) (items : list T)
  | LoadResume (id : string) (c : agentLoopCheckpoint T).

Definition tryLoadCheckpoint (st : option St) (id : string) : load_result :=
  match st with
  | None => LoadNothing ""
  | Some st =>
      if decide (id = "") then LoadNothing ""
      else match store_Get st id with
           | Err e => LoadFailed id (EWrap ("failed to load checkpoint[" +:+ id +:+ "]: ") e)
           | Ok (data, existed) =>
               if negb existed then LoadNothing id
               else match data with
                    | [] => LoadNothing id
                    | _ =>
                        match unmarshalTurnLoopCheckpoint data with
                        | Err e => LoadFailed id (EWrap ("failed to unmarshal checkpoint[" +:+ id +:+ "]: ") e)
                        | Ok cp =>
                            if HasRunnerState cp
                            then match RunnerCheckpoint cp with
                                 | [] => LoadEmptyBytes id (EMsg ("checkpoint[" +:+ id +:+ "] has runner state but bytes are empty"))
                                 | _ => LoadResume id cp
                                 end
                            else LoadItems id (UnhandledItems cp)
                        end
                    end
           end
  end.

Definition shouldSaveCheckpoint (skip committed : bool) (x : owned) : bool :=
  if bool_decide (store x = None) || bool_decide (CheckpointID x = "") then false
  else if skip then false
  else if bool_decide (checkPointRunnerBytes x = []) && bool_decide (interruptedItems x = []) then false
  else
    let exitCausedByStop :=
      match runErr x with None => true | Some e => as_cancel e end || bool_decide (is_Some (capturedCancelErr x)) in
    let businessInterrupt :=
      match runErr x with None => false | Some e => as_interrupt e end || bool_decide (is_Some (interruptContexts x)) in
    (committed && exitCausedByStop) || businessInterrupt.

(** *** The goroutine of the loop

    What comes back to it from outside. *)
Inductive answer :=
  | NoAnswer
  | APlan (r : callback)                  (** [GenInput] or [GenResume] *)
  | AAgent (err : option loop_error)      (** [PrepareAgent] *)
  | ARunner (err : option loop_error)     (** [runner.Resume]; [runner.Run] has no error *)
  | ATurn (o : turn_outcome).

(** The context of the loop, an argument of [Run]. *)
Variable ctx0 : Ctx.

Definition has_committed (s : sys) : bool := isCommitted (stopCtrl (sh s)).

(** [Receive] by the goroutine of the loop, which is the goroutine 0 of the buffer: it
    starts the call, or goes on with it after it was woken. *)
Definition run_receive (b : turnBuffer T) : option (option (option T) * turnBuffer T) :=
  if decide (0%nat ∈ notEmpty b) then None
  else if decide (0%nat ∈ awake b) then Some (resume_Receive 0%nat b)
  else Some (Receive 0%nat b).

(** The items that go back to the buffer if the turn is not run. *)
Definition abandon (items : list T) (err : option loop_error) (s : sys) : outcome :=
  Goes (goto (RunAbort items) (match err with Some e => with_own (set_runErr (Some e)) s | None => s end)).

Definition source_items (src : turn_source) (rest : list T) : planning :=
  match src with
  | FromBuffer first => MkPlanning (first :: rest) None (first :: rest)
  | FromResume pr =>
      let pr := MkPendingResume (interrupted pr) (unhandled pr) (newItems pr ++ rest) (resumeBytes pr) in
      MkPlanning [] (Some pr) (interrupted pr ++ unhandled pr ++ newItems pr)
  end.

(** [run], before the goroutine has items. *)
Definition run_receiving (s : sys) : outcome :=
  let b := buffer (sh s) in
  match pc s with
  | RunLoad =>
      match tryLoadCheckpoint (store (own s)) (CheckpointID (own s)) with
      | LoadNothing id => Goes (goto RunHead (with_own (set_loadID id) s))
      | LoadFailed id e => Goes (goto RunExit (with_own (λ x, set_runErr (Some e) (set_loadID id x)) s))
      | LoadEmptyBytes id e =>
          let '(items, b) := TakeAll b in
          Goes (goto (RunLoaded items (Some e)) (with_sh (set_buffer b) (with_own (set_loadID id) s)))
      | LoadItems id unhandled =>
          let '(items, b) := TakeAll b in
          Goes (goto (RunLoaded (unhandled ++ items) None)
                 (note_loaded unhandled (with_sh (set_buffer b) (with_own (set_loadID id) s))))
      | LoadResume id cp =>
          let '(items, b) := TakeAll b in
          let pr := MkPendingResume (CanceledItems cp) (UnhandledItems cp) items (RunnerCheckpoint cp) in
          Goes (goto RunHead
                 (note_loaded (CanceledItems cp ++ UnhandledItems cp)
                   (with_sh (set_buffer b) (with_own (λ x, set_pendingResume (Some pr) (set_loadID id x)) s))))
      end
  | RunLoaded items err =>
      let s := with_sh (set_buffer (PushFront items b)) s in
      match err with
      | None => Goes (goto RunHead s)
      | Some e => Goes (goto RunExit (with_own (set_runErr (Some e)) s))
      end
  | RunHead =>
      if has_committed s then Goes (goto RunExit s)
      else match pendingResume (own s) with
           | Some pr => Goes (goto (RunWait (FromResume pr)) (with_own (set_pendingResume None) s))
           | None => Goes (goto RunDuration s)
           end
  | RunDuration => Goes (goto (if decide (0 < idleDuration (stopCtrl (sh s))) then RunClear else RunReceive false) s)
  | RunClear => Goes (goto (RunReceive true) (with_sh (set_buffer (ClearWakeup b)) s))
  | RunReceive idle =>
      match run_receive b with
      | None => Blocked
      | Some (None, b) => Goes (with_sh (set_buffer b) s)
      | Some (Some first, b) =>
          let s := with_sh (set_buffer b) s in
          Goes (goto (match idle, first with
                      | true, None => RunMissed
                      | true, Some _ => RunStopped first
                      | false, None => RunRecheck
                      | false, Some _ => RunReceived first
                      end) s)
      end
  | RunMissed =>
      if IsClosed b then Goes (goto (RunStopped None) s)
      else match ctx_err s with
           | Some e => Goes (goto RunExit (with_own (set_runErr (Some e)) s))
           | None => Goes (goto RunHead s)
           end
  | RunStopped first =>
      if stopped (sh s) then Goes (goto RunExit (note_dropped (option_list first) s))
      else Goes (goto (RunReceived first) s)
  | RunRecheck =>
      if decide (0 < idleDuration (stopCtrl (sh s))) then Goes (goto RunHead s) else Goes (goto (RunReceived None) s)
  | RunReceived first =>
      match ctx_err s, first with
      | Some e, None => Goes (goto RunExit (with_own (set_runErr (Some e)) s))
      | None, None => Goes (goto RunExit s)
      | Some e, Some first => Goes (goto (RunPutBack [first]) (with_own (set_runErr (Some e)) s))
      | None, Some first => Goes (goto (RunCommitted first) s)
      end
  | RunCommitted first =>
      if has_committed s then Goes (goto (RunPutBack [first]) s) else Goes (goto (RunWait (FromBuffer first)) s)
  | RunWait src => if no_pushes (preemptCtrl (sh s)) then Goes (goto (RunTake src) s) else Blocked
  | RunTake src =>
      let '(rest, b) := TakeAll b in
      Goes (goto (RunBegin (source_items src rest)) (with_sh (set_buffer b) s))
  | _ => Blocked
  end.

(** [run], while it plans a turn. *)
Definition run_planning (a : answer) (s : sys) : outcome :=
  match pc s, a with
  | RunBegin p, _ =>
      or_panic (beginPlanningTurn (preemptCtrl (sh s))) (λ c, Goes (goto (RunPlan p) (with_sh (set_preemptCtrl c) s)))
  | RunPlan p, APlan r =>
      match planTurn ctx0 (hasGenResume (own s)) (plan_resume p) r with
      | Err e => abandon (pushBack p) (Some e) s
      | Ok plan => Goes (goto (RunPlanned p plan) s)
      end
  | RunPlanned p plan, _ => if has_committed s then abandon (pushBack p) None s else Goes (goto (RunPrepare p plan) s)
  | RunPrepare p plan, AAgent err =>
      match err with
      | Some e => abandon (pushBack p) (Some e) s
      | None => Goes (goto (RunPrepared p plan) s)
      end
  | RunPrepared p plan, _ => if has_committed s then abandon (pushBack p) None s else Goes (goto (RunRemaining plan) s)
  | RunRemaining plan, _ =>
      Goes (goto (RunSetup plan) (with_sh (set_buffer (PushFront (remaining plan) (buffer (sh s)))) s))
  | RunAbort items, _ =>
      or_panic (abortPlanningTurn (preemptCtrl (sh s))) (λ '(req, c),
        closing (ack req) (goto (match items with [] => RunExit | _ => RunPutBack items end) (with_sh (set_preemptCtrl c) s)))
  | RunPutBack items, _ => Goes (goto RunExit (with_sh (set_buffer (PushFront items (buffer (sh s)))) s))
  | _, _ => Blocked
  end.

(** [runAgentAndHandleEvents] and what [run] makes of its error. *)
Definition run_turn (a : answer) (s : sys) : outcome :=
  match pc s, a with
  | RunSetup plan, _ =>
      let s := with_own (set_captured [] None None) s in
      match setupBridgeStore (store (own s)) (spec plan) with
      | Err e => Goes (goto (RunSetupFailed plan e) s)
      | Ok ms => Goes (goto (RunActivate plan ms) s)
      end
  | RunSetupFailed plan e, _ =>
      or_panic (abortPlanningTurn (preemptCtrl (sh s))) (λ '(req, c),
        closing (ack req) (goto (RunOutcome plan (Some e)) (with_sh (set_preemptCtrl c) s)))
  | RunActivate plan ms, _ =>
      or_panic (beginActiveTurn (turnCtx plan) (MkTurnContext (consumed (spec plan))) (preemptCtrl (sh s))) (λ c,
        Goes (goto (RunActivateStop plan ms) (with_watchers (watchers s) false false (with_sh (set_preemptCtrl c) s))))
  | RunActivateStop plan ms, _ =>
      Goes (goto (RunRunner plan ms) (with_sh (set_stopCtrl (stop_beginActiveTurn (stopCtrl (sh s)))) s))
  | RunRunner plan ms, ARunner err =>
      match (if isResume (spec plan) then err else None) with
      | Some e => Goes (goto (RunEndStop plan (Some (EWrap "failed to resume agent: " e))) s)
      | None =>
          let t := turnID (preemptCtrl (sh s)) in
          Goes (goto (RunActive plan ms) (with_watchers (WWait t :: SReceive t :: watchers s) false false s))
      end
  | RunActive plan ms, ATurn o =>
      if branch_ready (preemptDone s) (stoppedDone s) (branch o)
      then let '(err, x) := turn_result (preemptDone s) ms o (own s) in
           Goes (goto (RunEndStop plan err) (with_own (λ _, x) s))
      else Blocked
  | RunEndStop plan err, _ =>
      let '(_, c) := stop_endActiveTurn (stopCtrl (sh s)) in
      Goes (goto (RunEndPreempt plan err) (with_sh (set_stopCtrl c) s))
  | RunEndPreempt plan err, _ =>
      or_panic (endActiveTurn (preemptCtrl (sh s))) (λ '(req, c),
        closing (ack req) (goto (RunOutcome plan err) (with_sh (set_preemptCtrl c) s)))
  | RunOutcome plan err, _ =>
      let s := note_turn (consumed (spec plan)) s in
      match err with
      | Some e =>
          let keep := bool_decide (is_Some (capturedCancelErr (own s))) || bool_decide (is_Some (interruptContexts (own s))) in
          Goes (goto RunExit (with_own (λ x, set_runErr (Some e) (if keep then set_interrupted (consumed (spec plan)) x else x)) s))
      | None =>
          match interruptContexts (own s) with
          | Some ics =>
              Goes (goto RunExit (with_own (λ x, set_runErr (Some (EInterrupt (length ics)))
                                                   (set_interrupted (consumed (spec plan)) x)) s))
          | None => Goes (goto RunHead s)
          end
      end
  | _, _ => Blocked
  end.

(** [cleanup]. *)
Definition run_cleanup (s : sys) : outcome :=
  match pc s with
  | RunExit => Goes (goto RunUnhandled (with_sh set_stopped s))
  | RunUnhandled =>
      let '(items, b) := TakeAll (buffer (sh s)) in Goes (goto (RunSkip items) (with_sh (set_buffer b) s))
  | RunSkip items => Goes (goto (RunSave items (skipCheckpointEnabled (stopCtrl (sh s)))) s)
  | RunSave items skip =>
      let x := own s in
      if shouldSaveCheckpoint skip (has_committed s) x then
        let cp := MkLoopCheckpoint (checkPointRunnerBytes x) (negb (bool_decide (checkPointRunnerBytes x = []))) items
                    (interruptedItems x) in
        let '(st, err) := saveTurnLoopCheckpoint (store x) (CheckpointID x) cp in
        Goes (goto (RunResult items true err) (with_own (set_store st) s))
      else if decide (loadCheckpointID x ≠ "") then
        let '(st, _) := deleteTurnLoopCheckpoint (store x) (loadCheckpointID x) in
        Goes (goto (RunResult items false None) (with_own (set_store st) s))
      else Goes (goto (RunResult items false None) s)
  | RunResult items attempted err =>
      let x := own s in
      Goes (goto RunCloseStop (with_own (set_result (MkResult (runErr x) items (interruptedItems x)
        (cause (stopCtrl (sh s))) attempted err)) s))
  | RunCloseStop => Goes (goto RunClosePreempt (with_sh (set_stopCtrl (stop_closeForLoopExit (stopCtrl (sh s)))) s))
  | RunClosePreempt =>
      let '(chans, c) := preempt_closeForLoopExit (preemptCtrl (sh s)) in
      closing chans (goto RunCloseBuffer (with_sh (set_preemptCtrl c) s))
  | RunCloseBuffer => Goes (goto RunCloseDone (with_sh (set_buffer (Close (buffer (sh s)))) s))
  | RunCloseDone => Goes (goto RunEnded (with_sh set_done s))
  | _ => Blocked
  end.

Definition run_step (a : answer) (s : sys) : outcome :=
  match pc s with
  | RunIdle | RunEnded => Blocked
  | RunLoad | RunLoaded _ _ | RunHead | RunDuration | RunClear | RunReceive _ | RunMissed | RunStopped _ | RunRecheck
  | RunReceived _ | RunCommitted _ | RunWait _ | RunTake _ => run_receiving s
  | RunBegin _ | RunPlan _ | RunPlanned _ _ | RunPrepare _ _ | RunPrepared _ _ | RunRemaining _ | RunAbort _
  | RunPutBack _ => run_planning a s
  | RunSetup _ | RunSetupFailed _ _ | RunActivate _ _ | RunActivateStop _ _ | RunRunner _ _ | RunActive _ _
  | RunEndStop _ _ | RunEndPreempt _ _ | RunOutcome _ _ => run_turn a s
  | RunExit | RunUnhandled | RunSkip _ | RunSave _ _ | RunResult _ _ _ | RunCloseStop | RunClosePreempt | RunCloseBuffer
  | RunCloseDone => run_cleanup s
  end.

(** *** Pushing *)
Definition at_stage (st : push_stage) (p : push) : push := MkPush (item p) (pcfg p) (strategy p) (snap p) st.

(** [appendLate], which panics once the late items were taken. *)
Definition appendLate (p : push) (s : sys) : push * sys :=
  if lateSealed (sh s) then (at_stage PPanic p, s)
  else (at_stage (PEnd false) p, with_sh (set_late (lateItems (sh s) ++ [item p]) false) s).

(** The next action of a call of [Push]: the call with what is left of it, or [None] when
    it returns.  [cfg] is what its strategy decides and [now] the time. *)
Definition push_action (cfg : pushConfig) (now : Z) (p : push) (s : sys) : option (list nat * option push * sys) :=
  match stage p with
  | PStopped =>
      Some ([], Some (at_stage (if stopped (sh s) then PLate else if preempt (pcfg p) then PBegin else PSend) p), s)
  | PBegin =>
      let '(sn, c) := beginPush (preemptCtrl (sh s)) in
      Some ([], Some (MkPush (item p) (pcfg p) (strategy p) (Some sn) (if strategy p then PStrategy else PSend)),
            with_sh (set_preemptCtrl c) s)
  | PStrategy =>
      Some ([], Some (MkPush (item p) cfg (strategy p) (snap p) (if preempt cfg then PStopped2 else PSend)), s)
  | PStopped2 => Some ([], Some (at_stage (if stopped (sh s) then PLate else PSend) p), s)
  | PSend =>
      let '(ok, b) := TrySend (item p) (buffer (sh s)) in
      let s := with_sh (set_buffer b) s in
      if ok then
        let s := note_accepted [item p] s in
        if preempt (pcfg p)
        then Some ([], Some (at_stage (PStarted (acks s)) p), with_acks (S (acks s)) (acks_closed s) s)
        else Some ([], Some (at_stage (PEnd true) p), s)
      else Some ([], Some (at_stage PLate p), s)
  | PStarted a =>
      if negb (started (sh s)) then Some ([a], Some (at_stage (PEnd true) p), s)
      else if decide (0 < preemptDelay (pcfg p))
      then match snap p with
           | Some sn => Some ([], Some (at_stage (PEnd true) p),
                              with_timers (MkDelayed sn a (push_agentCancelOpts (pcfg p)) :: timers s) s)
           | None => None
           end
      else Some ([], Some (at_stage (PRequest a) p), s)
  | PRequest a =>
      match snap p with
      | Some sn =>
          let '(cl, c) := requestPreempt sn (Some a) (push_agentCancelOpts (pcfg p)) now (preemptCtrl (sh s)) in
          Some (cl, Some (at_stage (PEnd true) p), with_sh (set_preemptCtrl c) s)
      | None => None
      end
  | PLate => let '(p, s) := appendLate p s in Some ([], Some p, s)
  | PEnd _ | PPanic =>
      match snap p with
      | None => Some ([], None, s)
      | Some _ => c ← endPush (preemptCtrl (sh s)); Some ([], None, with_sh (set_preemptCtrl c) s)
      end
  end.

Definition push_step (i : nat) (cfg : pushConfig) (now : Z) (s : sys) : outcome :=
  match pushes s !! i with
  | None => Blocked
  | Some p =>
      or_panic (push_action cfg now p (with_pushes (delete i (pushes s)) s)) (λ '(cl, p, s),
        closing cl (with_pushes (option_list p ++ pushes s) s))
  end.

(** [Push] starts. *)
Definition Push (x : T) (cfg : pushConfig) (strat : bool) (s : sys) : sys :=
  with_pushes (MkPush x cfg strat None (if strat then PBegin else PStopped) :: pushes s) s.

(** The goroutine of a delayed preemption: its timer fires, or the loop is done. *)
Definition timer_step (i : nat) (fires : bool) (now : Z) (s : sys) : outcome :=
  match timers s !! i with
  | None => Blocked
  | Some d =>
      let s := with_timers (delete i (timers s)) s in
      if fires then
        let '(cl, c) := requestPreempt (d_snap d) (Some (d_ack d)) (d_opts d) now (preemptCtrl (sh s)) in
        closing cl (with_sh (set_preemptCtrl c) s)
      else if done (sh s) then closing [d_ack d] s else Blocked
  end.

(** *** Stopping *)
Definition Stop (opts : list StopOption) (now : Z) (s : sys) : sys :=
  let '(d, c) := requestStop (stop_options opts) now (stopCtrl (sh s)) in
  let rest := if wakeIdle d then [StWake (commit_now d)] else if commit_now d then [StFlag] else [] in
  with_stops (rest ++ stops s) (with_sh (set_stopCtrl c) s).

(** A timer of the loop or of [Stop] commits the stop. *)
Definition commitStop (s : sys) : sys :=
  let '(ok, c) := commit (stopCtrl (sh s)) in
  with_stops ((if ok then [StFlag] else []) ++ stops s) (with_sh (set_stopCtrl c) s).

Definition stop_step (i : nat) (s : sys) : outcome :=
  match stops s !! i with
  | None => Blocked
  | Some st =>
      let rest := delete i (stops s) in
      match st with
      | StWake c => Goes (with_stops ((if c then [StFlag] else []) ++ rest) (with_sh (set_buffer (Wakeup (buffer (sh s)))) s))
      | StFlag => Goes (with_stops (StClose :: rest) (with_sh set_stopped s))
      | StClose => Goes (with_stops rest (with_sh (set_buffer (Close (buffer (sh s)))) s))
      end
  end.

(** *** Watching a turn

    [contributed] is the answer of the agent's cancel function.  The channels of a turn
    are seen while it is the turn that runs. *)
Definition turn_watched (t : Z) (s : sys) : bool :=
  match pc s with RunActive _ _ => bool_decide (turnID (preemptCtrl (sh s)) = t) | _ => false end.

Definition watch_action (contributed : bool) (w : watcher) (s : sys) : option (list nat * watcher * sys) :=
  match w with
  | WWait t =>
      c ← take_preempt_notify (preemptCtrl (sh s)); Some ([], WToken t, with_sh (set_preemptCtrl c) s)
  | WToken t =>
      let '(req, c) := receivePreempt (preemptCtrl (sh s)) in
      Some ([], match req with Some r => WSubmit t r | None => WWait t end, with_sh (set_preemptCtrl c) s)
  | WSubmit t r =>
      let pd := if turn_watched t s then preemptDone s || contributed else preemptDone s in
      Some (ackChans r, WWait t, with_watchers (watchers s) pd (stoppedDone s) s)
  | SReceive t =>
      let '(req, c) := receiveCancel (stopCtrl (sh s)) in
      Some ([], match req with Some r => SSubmit t r | None => SWait t end, with_sh (set_stopCtrl c) s)
  | SSubmit t r =>
      let sd := if turn_watched t s then stoppedDone s || contributed else stoppedDone s in
      Some ([], SWait t, with_watchers (watchers s) (preemptDone s) sd s)
  | SWait t =>
      c ← take_stop_notify (stopCtrl (sh s)); Some ([], SReceive t, with_sh (set_stopCtrl c) s)
  end.

Definition watch_step (i : nat) (contributed : bool) (s : sys) : outcome :=
  match watchers s !! i with
  | None => Blocked
  | Some w =>
      match watch_action contributed w (with_watchers (delete i (watchers s)) (preemptDone s) (stoppedDone s) s) with
      | None => Blocked
      | Some (cl, w, s) => closing cl (with_watchers (w :: watchers s) (preemptDone s) (stoppedDone s) s)
      end
  end.

(** A watcher that waits ends once the events of its turn are handled. *)
Definition watch_exit (i : nat) (s : sys) : outcome :=
  match watchers s !! i with
  | Some (WWait _ | SWait _) => Goes (with_watchers (delete i (watchers s)) (preemptDone s) (stoppedDone s) s)
  | _ => Blocked
  end.

(** *** All goroutines *)
Inductive label :=
  | LRun (a : answer)
  | LStart
  | LPush (x : T) (opts : list PushOption)
  | LPushStep (i : nat) (cfg : pushConfig) (now : Z)
  | LTimer (i : nat) (fires : bool) (now : Z)
  | LStop (opts : list StopOption) (now : Z)
  | LCommit
  | LStopStep (i : nat)
  | LWatch (i : nat) (contributed : bool)
  | LWatchExit (i : nat)
  | LCancelContext (e : loop_error)
  | LMonitor
  | LTakeLateItems.

(** The goroutine that watches the context runs from the end of the loading on. *)
Definition monitor_runs (s : sys) : bool :=
  match pc s with RunIdle | RunLoad | RunLoaded _ _ | RunEnded => false | _ => true end.

Definition step (l : label) (s : sys) : outcome :=
  match l with
  | LRun a => run_step a s
  | LStart => if started (sh s) then Blocked else Goes (goto RunLoad (with_sh set_started s))
  | LPush x opts => let '(cfg, strat) := push_options opts in Goes (Push x cfg strat s)
  | LPushStep i cfg now => push_step i cfg now s
  | LTimer i fires now => timer_step i fires now s
  | LStop opts now => Goes (Stop opts now s)
  | LCommit => Goes (commitStop s)
  | LStopStep i => stop_step i s
  | LWatch i contributed => watch_step i contributed s
  | LWatchExit i => watch_exit i s
  | LCancelContext e => Goes (with_ctx (Some (default e (ctx_err s))) s)
  | LMonitor =>
      if bool_decide (is_Some (ctx_err s)) && monitor_runs s
      then Goes (with_sh (set_buffer (Close (buffer (sh s)))) s) else Blocked
  | LTakeLateItems =>
      if done (sh s) then Goes (with_sh (set_late (lateItems (sh s)) true) s) else Blocked
  end.

Fixpoint steps (ls : list label) (s : sys) : outcome :=
  match ls with
  | [] => Goes s
  | l :: ls => match step l s with Goes s => steps ls s | r => r end
  end.

(** [NewAgentLoop], with the store, the identifier and whether [GenResume] is given. *)
Definition NewAgentLoop (st : option St) (id : string) (genResume : bool) : sys :=
  MkSys (MkShared newTurnBuffer false false false newStopController newPreemptController [] false)
    (MkOwned id genResume st None [] [] None None None "" None)
    RunIdle [] [] [] [] false false None 0%nat [] [] [] [] [].
End loop.
Add Printing Constructor sys.
Add Printing Constructor shared.
Add Printing Constructor owned.
Arguments sys : clear implicits.
Arguments shared : clear implicits.
Arguments owned : clear implicits.
Arguments outcome : clear implicits.
Arguments label : clear implicits.
Arguments answer : clear implicits.
Arguments push : clear implicits.
Arguments delayed : clear implicits.
Arguments run_pc : clear implicits.
Arguments turnPlan : clear implicits.
Arguments GenResult : clear implicits.
Arguments planning : clear implicits.
Arguments turn_source : clear implicits.
Arguments turn_outcome : clear implicits.
Arguments AgentLoopState : clear implicits.
