(* ===== verification/AgentLoopInv.v ===== *)
(** * Invariants of the agent loop

    What holds in every state of the system of AgentLoop, whatever the order in which its
    goroutines move: the phases of the preempt controller follow the goroutine of the
    loop, the calls of [Push] in their critical section are counted, every
    acknowledgement channel is in one place only, and a waiting loop has nothing to
    receive. *)
From S2P Require Import Prelude.
From S2P Require Export AgentLoop.

(** ** Lists as multisets of goroutines *)
Lemma delete_perm {A} (l : list A) i x : l !! i = Some x → l ≡ₚ x :: delete i l.
Proof. apply delete_Permutation. Qed.

Lemma bind_perm {A B} (f : A → list B) l k : l ≡ₚ k → l ≫= f ≡ₚ k ≫= f.
Proof. intros Hp. by rewrite Hp. Qed.

Lemma close_all_nodup l closed : NoDup (closed ++ l) → close_all l closed = Some (closed ++ l).
Proof.
  revert closed. induction l as [|a l IH]; cbn; intros closed Hn; [by rewrite app_nil_r|].
  rewrite decide_False.
  - rewrite IH; by rewrite <- (assoc_L (++)).
  - intros Hin. apply NoDup_app in Hn as (_ & Hd & _). apply (Hd a Hin). by left.
Qed.

Section invariants.
Context {T Ctx ICtx St : Type} `{GobCodec T} `{CheckPointStore St}.
Variable ctx0 : Ctx.
Notation sys := (sys T Ctx ICtx St).
Notation push := (push T Ctx).
Implicit Types (s : sys) (p : push).

(** A property of what a step leads to: it may be blocked, and it never panics. *)
Definition goes (P : sys → Prop) (o : outcome T Ctx ICtx St) : Prop :=
  match o with Goes s => P s | Blocked => True | Panics => False end.

Lemma goes_mono (P Q : sys → Prop) o : (∀ s, P s → Q s) → goes P o → goes Q o.
Proof. destruct o; cbn; auto. Qed.

(** ** Acknowledgements *)
Definition push_acks p : list nat := match stage p with PStarted a | PRequest a => [a] | _ => [] end.
Definition watch_acks (w : watcher) : list nat := match w with WSubmit _ r => ackChans r | _ => [] end.

(** The channels that some goroutine, or the controller, is still going to close. *)
Definition acks_held s : list nat :=
  ack (preempt_pending (preemptCtrl (sh s))) ++ (pushes s ≫= push_acks) ++ (d_ack <$> timers s)
  ++ (watchers s ≫= watch_acks).

Definition acks_placed s : Prop := acks_closed s ++ acks_held s ≡ₚ seq 0 (acks s).

(** ** Calls of Push *)
Definition in_section p : bool := bool_decide (is_Some (snap p)).

Definition push_wf p : Prop :=
  match stage p with
  | PStrategy | PStopped2 | PStarted _ | PRequest _ => is_Some (snap p)
  | PStopped | PBegin => snap p = None
  | PSend => preempt (pcfg p) = true → is_Some (snap p)
  | _ => True
  end.

Definition in_flight (l : list push) : Z := Z.of_nat (length (filter in_section l)).

(** ** Phases *)
Definition pc_phase (c : run_pc T Ctx) : preemptTurnPhase :=
  match c with
  | RunPlan _ | RunPlanned _ _ | RunPrepare _ _ | RunPrepared _ _ | RunRemaining _ | RunSetup _ | RunSetupFailed _ _
  | RunActivate _ _ | RunAbort _ => preemptTurnPlanning
  | RunActivateStop _ _ | RunRunner _ _ | RunActive _ _ | RunEndStop _ _ | RunEndPreempt _ _ => preemptTurnActive
  | _ => preemptTurnIdle
  end.

Definition at_start (c : run_pc T Ctx) : bool := match c with RunIdle => true | _ => false end.

Record loop_inv s : Prop := MkLoopInv {
  inv_acks : acks_placed s;
  inv_pushes : Forall push_wf (pushes s);
  inv_flight : pushInFlight (preemptCtrl (sh s)) = in_flight (pushes s);
  inv_phase : turnPhase (preemptCtrl (sh s)) = pc_phase (pc s);
  inv_pending : turnPhase (preemptCtrl (sh s)) = preemptTurnIdle → preempt_pending (preemptCtrl (sh s)) = None;
  inv_started : started (sh s) = false → at_start (pc s) = true
}.

Lemma new_loop_inv st id gr : loop_inv (NewAgentLoop st id gr).
Proof. split; try done. constructor. Qed.

(** Everything the invariant speaks about. *)
Definition core s :=
  (preemptCtrl (sh s), pushes s, timers s, watchers s, acks s, acks_closed s, pc_phase (pc s),
   started (sh s), at_start (pc s)).

Lemma core_inv s s' : core s' = core s → loop_inv s → loop_inv s'.
Proof.
  unfold core. intros [= E1 E2 E3 E4 E5 E6 E7 E8 E9] [H1 H2 H3 H4 H5 H6].
  split; unfold acks_placed, acks_held in *; rewrite ?E1, ?E2, ?E3, ?E4, ?E5, ?E6, ?E7, ?E8, ?E9; assumption.
Qed.

Ltac frame := first [exact I | cbn; apply (core_inv _ _ eq_refl); by assumption | cbn; eapply core_inv; [|eassumption]; unfold core; cbn;
  repeat match goal with E : pc _ = _ |- _ => rewrite E; clear E end; reflexivity].

(** ** Closing channels *)
Lemma closing_placed l s :
  acks_closed s ++ l ++ acks_held s ≡ₚ seq 0 (acks s) →
  closing l s = Goes (with_acks (acks s) (acks_closed s ++ l) s) ∧
  acks_placed (with_acks (acks s) (acks_closed s ++ l) s).
Proof.
  intros Hp. unfold closing. rewrite close_all_nodup.
  - split; [done|]. unfold acks_placed. cbn. by rewrite <- (assoc_L (++)).
  - assert (NoDup (acks_closed s ++ l ++ acks_held s)) as Hn by (rewrite Hp; apply NoDup_seq).
    rewrite (assoc_L (++)) in Hn. by apply NoDup_app in Hn as [? _].
Qed.

(** A step that closes the channels [l], in a state where the rest of the invariant holds. *)
Lemma closing_inv l s :
  acks_closed s ++ l ++ acks_held s ≡ₚ seq 0 (acks s) → Forall push_wf (pushes s) →
  pushInFlight (preemptCtrl (sh s)) = in_flight (pushes s) →
  turnPhase (preemptCtrl (sh s)) = pc_phase (pc s) →
  (turnPhase (preemptCtrl (sh s)) = preemptTurnIdle → preempt_pending (preemptCtrl (sh s)) = None) →
  (started (sh s) = false → at_start (pc s) = true) →
  goes loop_inv (closing l s).
Proof. intros Hp ?????. destruct (closing_placed l s Hp) as [-> Hpl]. by split. Qed.

(** ** The goroutine of the loop *)
Lemma run_receiving_inv s : loop_inv s → goes loop_inv (run_receiving s).
Proof.
  intros Hi. unfold run_receiving. destruct (pc s) eqn:Ep; try exact I.
  all: repeat (case_match || case_decide); frame.
Qed.

(** The controller of the state, opened. *)
Ltac open_ctrl s Hi :=
  destruct Hi as [Ha Hp Hf Hph Hpd Hst]; unfold acks_placed, acks_held in Ha;
  destruct (preemptCtrl (sh s)) as [ph id tc rc fl pd nt cl] eqn:Ec; cbn in Ha, Hf, Hph, Hpd, Hst.

Lemma run_planning_inv a s : loop_inv s → goes loop_inv (run_planning ctx0 a s).
Proof.
  intros Hi. unfold run_planning, abandon. destruct (pc s) eqn:Ep; try exact I.
  - open_ctrl s Hi. rewrite Ep in Hph, Hst. cbn in Hph, Hst. subst ph. unfold beginPlanningTurn. rewrite Hpd in * by done. cbn.
    split; unfold acks_placed, acks_held; cbn; done.
  - destruct a; try exact I. repeat case_match; frame.
  - repeat case_match; frame.
  - destruct a; try exact I. repeat case_match; frame.
  - repeat case_match; frame.
  - frame.
  - open_ctrl s Hi. rewrite Ep in Hph, Hst. cbn in Hph, Hst. subst ph. unfold abortPlanningTurn. cbn.
    apply closing_inv; cbn; try done; by destruct items.
  - frame.
Qed.

Lemma run_turn_inv a s : loop_inv s → goes loop_inv (run_turn a s).
Proof.
  intros Hi. unfold run_turn. destruct (pc s) eqn:Ep; try exact I.
  - repeat case_match; frame.
  - open_ctrl s Hi. rewrite Ep in Hph, Hst. cbn in Hph, Hst. subst ph. unfold abortPlanningTurn. cbn.
    by apply closing_inv.
  - open_ctrl s Hi. rewrite Ep in Hph, Hst. cbn in Hph, Hst. subst ph. unfold beginActiveTurn. cbn. split; unfold acks_placed, acks_held; cbn; done.
  - frame.
  - destruct a; try exact I. case_match; [frame|]. cbn. destruct Hi as [Ha Hp Hf Hph Hpd Hst].
    split; cbn; try done; [by rewrite Hph, Ep|by rewrite Ep in Hst].
  - destruct a; try exact I. case_match; [|exact I]. destruct (turn_result _ _ _ _). frame.
  - frame.
  - open_ctrl s Hi. rewrite Ep in Hph, Hst. cbn in Hph, Hst. subst ph. unfold endActiveTurn. cbn.
    by apply closing_inv.
  - repeat case_match; frame.
Qed.

Lemma run_cleanup_inv s : loop_inv s → goes loop_inv (run_cleanup s).
Proof.
  intros Hi. unfold run_cleanup. destruct (pc s) eqn:Ep; try exact I.
  all: try (repeat (case_match || case_decide); frame).
  open_ctrl s Hi. rewrite Ep in Hph, Hst. cbn in Hph, Hst. subst ph. cbn. by apply closing_inv.
Qed.

Lemma run_step_inv a s : loop_inv s → goes loop_inv (run_step ctx0 a s).
Proof.
  intros Hi. unfold run_step.
  destruct (pc s); eauto using run_receiving_inv, run_planning_inv, run_turn_inv, run_cleanup_inv; exact I.
Qed.

(** ** Calls of Push *)

(** The state around one call. *)
Record around_push (i : nat) p s : Prop := MkAround {
  ap_acks : acks_closed s ++ ack (preempt_pending (preemptCtrl (sh s))) ++ push_acks p
            ++ (delete i (pushes s) ≫= push_acks) ++ (d_ack <$> timers s) ++ (watchers s ≫= watch_acks) ≡ₚ seq 0 (acks s);
  ap_wf : push_wf p;
  ap_rest : Forall push_wf (delete i (pushes s));
  ap_flight : pushInFlight (preemptCtrl (sh s)) = ((if in_section p then 1 else 0) + in_flight (delete i (pushes s)))%Z
}.

Lemma flight_cons p l : in_flight (p :: l) = ((if in_section p then 1 else 0) + in_flight l)%Z.
Proof.
  unfold in_flight. rewrite filter_cons.
  case_decide as Hd; destruct (in_section p); cbn [length]; try lia; [by destruct Hd|by destruct Hd].
Qed.

Lemma flight_perm l k : l ≡ₚ k → in_flight l = in_flight k.
Proof. intros Hp. unfold in_flight. by rewrite Hp. Qed.

Lemma around i p s : loop_inv s → pushes s !! i = Some p → around_push i p s.
Proof.
  intros [Ha Hp Hf _ _ _] Hi. pose proof (delete_perm _ _ _ Hi) as Hd. split.
  - unfold acks_placed, acks_held in Ha. rewrite <- Ha. rewrite (bind_perm push_acks _ _ Hd). cbn. solve_Permutation.
  - by eapply Forall_lookup_1.
  - by apply Forall_delete.
  - by rewrite Hf, (flight_perm _ _ Hd), flight_cons.
Qed.

(** What remains of a call is [q]: the invariant holds again if the channels are where
    they were, and [q] is counted. *)
Lemma push_result l (q : option push) s :
  acks_closed s ++ l ++ ack (preempt_pending (preemptCtrl (sh s))) ++ (option_list q ≫= push_acks)
    ++ (pushes s ≫= push_acks) ++ (d_ack <$> timers s) ++ (watchers s ≫= watch_acks) ≡ₚ seq 0 (acks s) →
  Forall push_wf (option_list q) → Forall push_wf (pushes s) →
  pushInFlight (preemptCtrl (sh s)) = in_flight (option_list q ++ pushes s) →
  turnPhase (preemptCtrl (sh s)) = pc_phase (pc s) →
  (turnPhase (preemptCtrl (sh s)) = preemptTurnIdle → preempt_pending (preemptCtrl (sh s)) = None) →
  (started (sh s) = false → at_start (pc s) = true) →
  goes loop_inv (closing l (with_pushes (option_list q ++ pushes s) s)).
Proof.
  intros Ha Hq Hr Hf Hph Hpd Hst. apply closing_inv; cbn; try done; [|by apply Forall_app].
  rewrite <- Ha. unfold acks_held. cbn. rewrite bind_app. solve_Permutation.
Qed.

(** A request either leaves its channel with the controller or closes it. *)
Lemma requestPreempt_placed (sn : preemptTurnSnapshot Ctx TurnContext) a opts now (c : preemptController Ctx (@TurnContext T)) :
  let r := requestPreempt sn (Some a) opts now c in
  r.1 ++ ack (preempt_pending r.2) ≡ₚ a :: ack (preempt_pending c) ∧
  pushInFlight r.2 = pushInFlight c ∧ turnPhase r.2 = turnPhase c ∧
  ((turnPhase c = preemptTurnIdle → preempt_pending c = None) →
   turnPhase r.2 = preemptTurnIdle → preempt_pending r.2 = None).
Proof.
  unfold requestPreempt. destruct (_ || _) eqn:E; cbn; [done|].
  split_and!; [|done..|].
  - destruct (preempt_pending c); cbn; [|done]. solve_Permutation.
  - intros _ Hph. apply orb_false_iff in E as [E _]. apply orb_false_iff in E as [_ E].
    by apply bool_decide_eq_false in E.
Qed.

(** The call goes on as [q]; the rest of the state keeps what the invariant is about. *)
Lemma push_goes_on i p q s s1 :
  around_push i p s → loop_inv s →
  core s1 = core (with_pushes (delete i (pushes s)) s) →
  push_acks q = push_acks p → in_section q = in_section p → push_wf q →
  goes loop_inv (closing [] (with_pushes (option_list (Some q) ++ pushes s1) s1)).
Proof.
  intros [Ha Hw Hr Hf] [_ _ _ Hph Hpd Hst]. unfold core. cbn. intros [= E1 E2 E3 E4 E5 E6 E7 E8 E9] Hq Hs Hwq.
  apply (push_result [] (Some q)); rewrite ?E1, ?E2, ?E3, ?E4, ?E5, ?E6, ?E7, ?E8, ?E9; try done.
  - rewrite <- Ha, <- Hq. cbn. solve_Permutation.
  - by constructor.
  - rewrite Hf. change (option_list (Some q) ++ ?l) with (q :: l). by rewrite flight_cons, Hs.
Qed.

(** The deferred end of a call. *)
Lemma push_end i p s :
  around_push i p s → loop_inv s → push_acks p = [] →
  let s0 := with_pushes (delete i (pushes s)) s in
  goes loop_inv (or_panic
    (match snap p with
     | None => Some ([], None, s0)
     | Some _ => c ← endPush (preemptCtrl (sh s0)); Some ([], None, with_sh (set_preemptCtrl c) s0)
     end) (λ '(cl, q, s), closing cl (with_pushes (option_list q ++ pushes s) s))).
Proof.
  intros [Ha _ Hr Hf] [_ _ _ Hph Hpd Hst] Hpa s0. rewrite Hpa in Ha. unfold in_section in Hf.
  destruct (snap p); cbn.
  - unfold endPush. rewrite decide_False by (cbn in Hf; rewrite Hf; unfold in_flight; lia). cbn.
    apply (push_result [] None); cbn; try done. rewrite Hf. cbn. lia.
  - by apply (push_result [] None).
Qed.

Lemma push_step_inv i cfg now s : loop_inv s → goes loop_inv (push_step i cfg now s).
Proof.
  intros Hinv. unfold push_step. destruct (pushes s !! i) as [p|] eqn:Hi; [|exact I].
  pose proof (around i p s Hinv Hi) as Har. pose proof (ap_wf _ _ _ Har) as Hw.
  set (s0 := with_pushes (delete i (pushes s)) s).
  assert (∀ q s1, core s1 = core s0 → push_acks q = push_acks p → in_section q = in_section p → push_wf q →
    goes loop_inv (closing [] (with_pushes (option_list (Some q) ++ pushes s1) s1))) as Hon
    by (intros; by eapply push_goes_on).
  unfold push_action. unfold push_wf in Hw. unfold push_acks at 2 in Hon.
  destruct (stage p) eqn:Es.
  - (* stopped? *)
    destruct (stopped (sh s0)), (preempt (pcfg p)) eqn:E; apply Hon; try done; unfold push_wf; cbn; by rewrite ?E.
  - (* beginPush *)
    destruct Har as [Ha _ Hr Hf]. destruct Hinv as [_ _ _ Hph Hpd Hst]. cbn [beginPush or_panic].
    unfold push_acks at 1 in Ha. rewrite Es in Ha.
    apply (push_result [] (Some _)); cbn; try done.
    + rewrite <- Ha. unfold push_acks at 1; cbn. destruct (strategy p); cbn; solve_Permutation.
    + constructor; [|constructor]. unfold push_wf; cbn. by destruct (strategy p).
    + rewrite flight_cons. unfold in_section; cbn. rewrite Hf. unfold in_section. rewrite Hw. cbn. lia.
  - (* the strategy decides *)
    destruct (preempt cfg) eqn:E; apply Hon; try done; unfold push_wf; cbn; by rewrite ?E.
  - destruct (stopped (sh s0)); apply Hon; try done. by intros _.
  - (* TrySend *)
    destruct (TrySend (item p) (buffer (sh s0))) as [ok b]. destruct ok; [|by apply Hon].
    destruct (preempt (pcfg p)) eqn:E; [|by apply Hon].
    destruct Har as [Ha _ Hr Hf]. destruct Hinv as [_ _ _ Hph Hpd Hst]. cbn [or_panic].
    unfold push_acks at 1 in Ha. rewrite Es in Ha.
    apply (push_result [] (Some _)); cbn; try done.
    + change (0 :: seq 1 (acks s)) with (seq 0 (S (acks s))). rewrite seq_S, <- Ha. cbn. solve_Permutation.
    + constructor; [|constructor]. by apply Hw.
    + rewrite flight_cons, Hf. done.
  - (* started? *)
    destruct Har as [Ha _ Hr Hf]. destruct Hinv as [Hinv1 Hinv2 Hinv3 Hph Hpd Hst]. pose proof Ha as Ha'.
    unfold push_acks at 1 in Ha. rewrite Es in Ha.
    destruct (started (sh s0)); cbn [negb].
    + case_decide; [destruct (snap p) as [sn|] eqn:Esn; [|by destruct Hw]|]; cbn [or_panic].
      * apply (push_result [] (Some _)); cbn; try done.
        -- rewrite <- Ha. cbn. solve_Permutation.
        -- by repeat constructor.
        -- by rewrite flight_cons, Hf.
      * apply Hon; try done.
    + cbn [or_panic]. apply (push_result [ack] (Some _)); cbn; try done.
      * rewrite <- Ha. cbn. solve_Permutation.
      * by repeat constructor.
      * by rewrite flight_cons, Hf.
  - (* requestPreempt *)
    destruct Har as [Ha _ Hr Hf]. destruct Hinv as [Hinv1 Hinv2 Hinv3 Hph Hpd Hst].
    unfold push_acks at 1 in Ha. rewrite Es in Ha.
    destruct (snap p) as [sn|] eqn:Esn; [|by destruct Hw].
    pose proof (requestPreempt_placed sn ack (push_agentCancelOpts (pcfg p)) now (preemptCtrl (sh s0))) as (R1 & R2 & R3 & R4).
    destruct (requestPreempt _ _ _ _ _) as [cl c]. cbn in R1, R2, R3, R4 |- *.
    apply (push_result cl (Some _)); cbn; try done.
    + rewrite <- Ha. cbn. rewrite (assoc (++) cl), R1. solve_Permutation.
    + by repeat constructor.
    + rewrite R2, Hf. rewrite flight_cons. done.
    + by rewrite R3.
    + by apply R4.
  - (* appendLate *)
    unfold appendLate. destruct (lateSealed (sh s0)); by apply Hon.
  - apply push_end; [done..|]. unfold push_acks. by rewrite Es.
  - apply push_end; [done..|]. unfold push_acks. by rewrite Es.
Qed.

(** ** The other goroutines *)
Lemma timer_step_inv i fires now s : loop_inv s → goes loop_inv (timer_step i fires now s).
Proof.
  intros [Ha Hp Hf Hph Hpd Hst]. unfold timer_step. destruct (timers s !! i) as [d|] eqn:Hi; [|exact I].
  pose proof (delete_perm _ _ _ Hi) as Hd. unfold acks_placed, acks_held in Ha. rewrite Hd in Ha. cbn in Ha.
  destruct fires.
  - cbn. pose proof (requestPreempt_placed (d_snap d) (d_ack d) (d_opts d) now (preemptCtrl (sh s))) as (R1 & R2 & R3 & R4).
    destruct (requestPreempt _ _ _ _ _) as [cl c]. cbn in R1, R2, R3, R4 |- *.
    apply closing_inv; cbn; try done; [|by rewrite R2|by rewrite R3|by apply R4].
    rewrite <- Ha. unfold acks_held. cbn. rewrite (assoc (++) cl), R1. solve_Permutation.
  - cbn. case_match; [|exact I]. apply closing_inv; cbn; try done. rewrite <- Ha. unfold acks_held. cbn. solve_Permutation.
Qed.

Lemma stop_step_inv i s : loop_inv s → goes loop_inv (stop_step i s).
Proof. intros Hi. unfold stop_step. repeat case_match; frame. Qed.

Lemma Stop_inv opts now s : loop_inv s → loop_inv (Stop opts now s).
Proof. intros Hi. unfold Stop. destruct (requestStop _ _ _). by apply (core_inv s). Qed.

Lemma commitStop_inv s : loop_inv s → loop_inv (commitStop s).
Proof. intros Hi. unfold commitStop. destruct (commit _). by apply (core_inv s). Qed.

Ltac placed Ha :=
  split; cbn; try done; unfold acks_placed, acks_held; cbn; rewrite <- Ha; cbn; solve_Permutation.

Lemma watch_step_inv i contributed s : loop_inv s → goes loop_inv (watch_step i contributed s).
Proof.
  intros Hinv. pose proof Hinv as [Ha Hp Hf Hph Hpd Hst]. unfold watch_step.
  destruct (watchers s !! i) as [w|] eqn:Hi; [|exact I].
  pose proof (delete_perm _ _ _ Hi) as Hd. unfold acks_placed, acks_held in Ha.
  rewrite (bind_perm watch_acks _ _ Hd) in Ha. cbn in Ha.
  destruct w; unfold watch_action, take_preempt_notify, receivePreempt, receiveCancel, take_stop_notify; cbn in Ha |- *.
  - destruct (preempt_notify _); [|exact I]. placed Ha.
  - case_decide as E; [|placed Ha]. destruct (preempt_pending _) eqn:E'; placed Ha.
  - apply closing_inv; cbn; try done. rewrite <- Ha. unfold acks_held. cbn. solve_Permutation.
  - destruct (hasActiveCancelTarget _); [destruct (stop_pending _)|]; placed Ha.
  - placed Ha.
  - destruct (stop_notify _); [|exact I]. placed Ha.
Qed.

Lemma watch_exit_inv i s : loop_inv s → goes loop_inv (watch_exit i s).
Proof.
  intros [Ha Hp Hf Hph Hpd Hst]. unfold watch_exit. destruct (watchers s !! i) as [w|] eqn:Hi; [|exact I].
  pose proof (delete_perm _ _ _ Hi) as Hd. unfold acks_placed, acks_held in Ha.
  rewrite (bind_perm watch_acks _ _ Hd) in Ha.
  destruct w; try exact I; (split; cbn; try done; by unfold acks_placed, acks_held).
Qed.

Lemma Push_inv x cfg strat s : loop_inv s → loop_inv (Push x cfg strat s).
Proof.
  intros [Ha Hp Hf Hph Hpd Hst]. unfold Push. split; cbn; try done.
  - unfold acks_placed, acks_held in *; cbn. by destruct strat.
  - constructor; [|done]. unfold push_wf; cbn. by destruct strat.
Qed.

Lemma step_inv l s : loop_inv s → goes loop_inv (step ctx0 l s).
Proof.
  intros Hi. destruct l; cbn [step].
  - by apply run_step_inv.
  - destruct (started (sh s)) eqn:Es; [exact I|]. destruct Hi as [Ha Hp Hf Hph Hpd Hst]. specialize (Hst Es).
    destruct (pc s) eqn:Ep; done.
  - destruct (push_options opts). by apply Push_inv.
  - by apply push_step_inv.
  - by apply timer_step_inv.
  - by apply Stop_inv.
  - by apply commitStop_inv.
  - by apply stop_step_inv.
  - by apply watch_step_inv.
  - by apply watch_exit_inv.
  - by apply (core_inv s).
  - case_match; [frame|exact I].
  - case_match; [frame|exact I].
Qed.

Lemma steps_inv ls s : loop_inv s → goes loop_inv (steps ctx0 ls s).
Proof.
  revert s. induction ls as [|l ls IH]; cbn [steps]; intros s Hi; [done|].
  pose proof (step_inv l s Hi) as Hs. destruct (step ctx0 l s); [exact I|done|]. by apply IH.
Qed.

(** ** The buffer *)

(** Only the goroutine of the loop receives, and it does not wait for what is there. *)
Definition buffer_ok (b : turnBuffer T) : Prop :=
  attended b ∧ receivers_distinct b ∧ notEmpty b ++ awake b ⊆ [0].

Lemma new_buffer_ok : buffer_ok newTurnBuffer.
Proof. split_and!; [done|constructor|set_solver]. Qed.

Lemma buffer_ok_step e b i o b' :
  only_receiver 0 e → buffer_step e b = Some (i, o, b') → buffer_ok b → buffer_ok b'.
Proof.
  intros He Hs (Ha & Hd & Hr). split_and!.
  - eapply buffer_step_attended; [right; by eapply one_waits|done..].
  - by eapply buffer_step_distinct.
  - by eapply only_receiver_step.
Qed.

(** The methods, as events. *)
Lemma TrySend_ok v b : buffer_ok b → buffer_ok (TrySend v b).2.
Proof. apply (buffer_ok_step (EvSend v) b (if (TrySend v b).1 then [v] else []) []); [done|]. cbn. by destruct (TrySend v b). Qed.
Lemma TakeAll_ok b : buffer_ok b → buffer_ok (TakeAll b).2.
Proof. apply (buffer_ok_step EvTakeAll b [] (TakeAll b).1); [done|]. cbn. by destruct (TakeAll b). Qed.
Lemma PushFront_ok vs b : buffer_ok b → buffer_ok (PushFront vs b).
Proof. by apply (buffer_ok_step (EvPushFront vs) b vs []). Qed.
Lemma Close_ok b : buffer_ok b → buffer_ok (Close b).
Proof. by apply (buffer_ok_step EvClose b [] []). Qed.
Lemma Wakeup_ok b : buffer_ok b → buffer_ok (Wakeup b).
Proof. by apply (buffer_ok_step EvWakeup b [] []). Qed.
Lemma ClearWakeup_ok b : buffer_ok b → buffer_ok (ClearWakeup b).
Proof. by apply (buffer_ok_step EvClearWakeup b [] []). Qed.

Lemma run_receive_ok b (r : option (option T)) b' : run_receive b = Some (r, b') → buffer_ok b → buffer_ok b'.
Proof.
  unfold run_receive. intros E. case_decide as H1; [done|]. case_decide as H2; injection E as E.
  - apply (buffer_ok_step (EvResume 0) b [] (option_list (mjoin r))); [done|]. cbn. rewrite decide_True by done. by rewrite E.
  - apply (buffer_ok_step (EvReceive 0) b [] (option_list (mjoin r))); [done|]. cbn. rewrite decide_False by set_solver. by rewrite E.
Qed.

(** What [Receive] takes is what the buffer loses. *)
Lemma run_receive_items b (r : option (option T)) b' : run_receive b = Some (r, b') → buf b = option_list (mjoin r) ++ buf b'.
Proof.
  unfold run_receive. intros E. case_decide as H1; [done|]. case_decide as H2; injection E as E.
  - unfold resume_Receive in E. match type of E with Receive _ ?x = _ => pose proof (Receive_buf 0 x) as Hb end. by rewrite E in Hb.
  - pose proof (Receive_buf 0 b) as Hb. by rewrite E in Hb.
Qed.

Lemma run_receive_waits b : buffer_ok b → run_receive b = None → buf b = [] ∧ closed b = false ∧ woken b = false.
Proof.
  intros (Ha & Hd & Hr). unfold run_receive. case_decide as H1; [intros _|by case_decide].
  destruct (notEmpty b) as [|x l] eqn:E; [by apply elem_of_nil in H1|].
  destruct (Ha ltac:(by rewrite E)) as (Hc & Hw & Hl). split_and!; [|done..].
  assert (awake b = []) as Hawk.
  { destruct (awake b) as [|y k] eqn:Ea; [done|]. unfold receivers_distinct in Hd. rewrite E, Ea in Hd.
    assert (x = 0 ∧ y = 0) as [-> ->] by (split; apply list_elem_of_singleton, Hr; set_solver).
    apply NoDup_cons in Hd as [Hd _]. destruct Hd. apply elem_of_app. right. left. }
  rewrite Hawk in Hl. destruct (buf b); [done|cbn in Hl; lia].
Qed.

Definition sys_buffer_ok s : Prop := buffer_ok (buffer (sh s)).

(** What holds of the state a step leads to, if it leads to one. *)
Definition leads (P : sys → Prop) (o : outcome T Ctx ICtx St) : Prop := match o with Goes s => P s | _ => True end.

Lemma leads_closing (P : sys → Prop) ch s : (∀ n cl, P (with_acks n cl s)) → leads P (closing ch s).
Proof. intros Hp. unfold closing. destruct (close_all _ _); cbn; auto. Qed.

Lemma leads_or_panic {A} (P : sys → Prop) (r : option A) f :
  (∀ a, r = Some a → leads P (f a)) → leads P (or_panic r f).
Proof. intros Hf. destruct r; cbn; auto. Qed.

Lemma steps_leads (P : sys → Prop) :
  (∀ l s, P s → leads P (step ctx0 l s)) → ∀ ls s, P s → leads P (steps ctx0 ls s).
Proof.
  intros Hstep ls. induction ls as [|l ls IH]; cbn [steps]; intros s Hp; [done|].
  pose proof (Hstep l s Hp). destruct (step ctx0 l s); [exact I..|]. by apply IH.
Qed.
End invariants.

(** One case of a step after another. *)
Ltac step_cases :=
  repeat match goal with
  | |- True => exact I
  | |- leads _ Blocked => exact I
  | |- leads _ (or_panic _ _) => apply leads_or_panic; intros
  | |- leads _ (closing _ _) => apply leads_closing; intros
  | |- leads _ (let '(_, _) := ?x in _) => destruct x eqn:?
  | |- leads _ (match ?x with _ => _ end) => destruct x eqn:?
  | |- leads _ (if ?x then _ else _) => destruct x eqn:?
  | |- leads _ (Goes _) => cbn [leads]
  end.

(** The cases of an equation between options. *)
Ltac solve_some :=
  repeat match goal with
  | E : Some _ = Some _ |- _ => injection E as ?; subst
  | E : None = Some _ |- _ => discriminate E
  | E : (match ?x with _ => _ end) = Some _ |- _ => destruct x eqn:?
  | E : (if ?x then _ else _) = Some _ |- _ => destruct x eqn:?
  | E : mbind _ _ = Some _ |- _ => apply bind_Some in E as (? & ? & ?)
  | E : (if ?x then _ else _) = (_, _) |- _ => destruct x eqn:?
  | E : (_, _) = (_, _) |- _ => injection E as ? ?; subst
  end.
