(* ===== verification/AgentLoopItems.v ===== *)
(** * Where the items of an agent loop are

    Every item a loop accepted, or loaded from a checkpoint, is in one place: the buffer,
    the hands of the goroutine, a turn, the result - or it was dropped by the check that
    ends an idle loop.  The executions at the end show what can be lost. *)
From S2P Require Import Prelude.
From S2P Require Export AgentLoopProps.

Section items.
Context {T Ctx ICtx St : Type} `{GobCodec T} `{CheckPointStore St}.
Variable ctx0 : Ctx.
Notation sys := (sys T Ctx ICtx St).
Implicit Types (s : sys) (l : label T Ctx ICtx).

(** ** The places of an item *)
Definition resume_items (pr : agentLoopPendingResume T) : list T := interrupted pr ++ unhandled pr ++ newItems pr.

Definition src_items (src : turn_source T) : list T :=
  match src with FromBuffer first => [first] | FromResume pr => resume_items pr end.

Definition pc_items (c : run_pc T Ctx) : list T :=
  match c with
  | RunLoaded items _ | RunAbort items | RunPutBack items | RunSkip items | RunSave items _ | RunResult items _ _ => items
  | RunStopped first | RunReceived first => option_list first
  | RunCommitted first => [first]
  | RunWait src | RunTake src => src_items src
  | RunBegin p | RunPlan p | RunPlanned p _ | RunPrepare p _ | RunPrepared p _ => pushBack p
  | RunRemaining plan => consumed (spec plan) ++ remaining plan
  | RunSetup plan | RunSetupFailed plan _ | RunActivate plan _ | RunActivateStop plan _ | RunRunner plan _ | RunActive plan _
  | RunEndStop plan _ | RunEndPreempt plan _ | RunOutcome plan _ => consumed (spec plan)
  | _ => []
  end.

Definition pending_items (x : owned T ICtx St) : list T :=
  match pendingResume x with Some pr => resume_items pr | None => [] end.
Definition result_items (x : owned T ICtx St) : list T :=
  match loop_result x with Some r => res_UnhandledItems r | None => [] end.

Definition everywhere s : list T :=
  turns s ++ dropped s ++ buf (buffer (sh s)) ++ pc_items (pc s) ++ pending_items (own s) ++ result_items (own s).

(** A plan splits the items it was made for. *)
Definition plan_ok (c : run_pc T Ctx) : Prop :=
  match c with
  | RunPlanned p plan | RunPrepare p plan | RunPrepared p plan => consumed (spec plan) ++ remaining plan ≡ₚ pushBack p
  | _ => True
  end.

Definition before_result (c : run_pc T Ctx) : bool :=
  match c with RunCloseStop | RunClosePreempt | RunCloseBuffer | RunCloseDone | RunEnded => false | _ => true end.
Definition before_load (c : run_pc T Ctx) : bool := match c with RunIdle | RunLoad => true | _ => false end.

Definition exiting (c : run_pc T Ctx) : bool :=
  match c with
  | RunExit | RunUnhandled | RunSkip _ | RunSave _ _ | RunResult _ _ _ | RunCloseStop | RunClosePreempt | RunCloseBuffer
  | RunCloseDone | RunEnded => true
  | _ => false
  end.

Record item_inv s : Prop := MkItemInv {
  ii_items : accepted s ++ loaded s ≡ₚ everywhere s;
  ii_plan : plan_ok (pc s);
  ii_result : before_result (pc s) = true → loop_result (own s) = None;
  ii_load : before_load (pc s) = true → pendingResume (own s) = None;
  ii_dropped : exiting (pc s) = false → dropped s = [];
  ii_one : length (dropped s) ≤ 1;
  ii_done : before_result (pc s) = false → is_Some (loop_result (own s))
}.

(** The contract of the callbacks: what they consume and what they leave for later are
    the items they were given. *)
Definition honest s l : Prop :=
  match pc s, l with
  | RunPlan p, LRun (APlan (Ok (Some r))) => Consumed r ++ Remaining r ≡ₚ pushBack p
  | _, _ => True
  end.

Fixpoint honest_run ls s : Prop :=
  match ls with
  | [] => True
  | l :: ls => honest s l ∧ match step ctx0 l s with Goes s => honest_run ls s | _ => True end
  end.

Lemma new_item_inv st id gr : item_inv (NewAgentLoop st id gr).
Proof. split; cbn; try done; lia. Qed.

(** *** What the methods of the buffer do to its contents *)
Lemma TakeAll_items (b : turnBuffer T) vs b' : TakeAll b = (vs, b') → buf b = vs ∧ buf b' = [].
Proof. rewrite TakeAll_pair. by intros [= <- <-]. Qed.

Lemma TrySend_items x (b : turnBuffer T) ok b' : TrySend x b = (ok, b') → buf b' = buf b ++ (if ok then [x] else []).
Proof.
  pose proof (TrySend_buf x b) as [E1 E2]. intros E. rewrite E in E1, E2. cbn in *. injection E1 as ->.
  rewrite E2. by destruct (closed b).
Qed.

Lemma plan_splits ctx gr pr r (plan : turnPlan T Ctx) :
  planTurn ctx gr pr r = Ok plan →
  ∃ g, r = Ok (Some g) ∧ consumed (spec plan) = Consumed g ∧ remaining plan = Remaining g.
Proof. unfold planTurn. intros E. repeat case_match; simplify_eq; eauto. Qed.

Lemma source_items_all src rest : pushBack (source_items src rest) ≡ₚ src_items src ++ rest.
Proof. destruct src as [first|pr]; cbn; [done|]. unfold resume_items. by rewrite <- !(assoc_L (++)). Qed.

Lemma turn_result_own pd ms (o : turn_outcome ICtx) (x : owned T ICtx St) :
  loop_result (turn_result pd ms o x).2 = loop_result x ∧ pendingResume (turn_result pd ms o x).2 = pendingResume x.
Proof. unfold turn_result. destruct (branch o); cbn; [destruct pd|..]; done. Qed.

(** The items are where they were, up to order. *)
Ltac items_done Hi :=
  split; cbn; try match goal with E : pc ?s = _ |- context [pc ?s] => rewrite E; cbn end; try done; unfold everywhere, pending_items, result_items in *; cbn;
  try match goal with E : pc ?s = _ |- context [pc ?s] => rewrite E; cbn end; rewrite ?PushFront_buf;
  repeat match goal with
  | E : TakeAll _ = _ |- _ => apply TakeAll_items in E as [? ->]
  | E : run_receive _ = _ |- _ => apply run_receive_items in E; cbn in E
  | E : pendingResume _ = _ |- _ => rewrite E in *; clear E
  | E : loop_result _ = _ |- _ => rewrite E in *; clear E
  | E : buf ?b = ?l, H : context [buf ?b] |- _ => rewrite E in H; clear E
  end; try (rewrite Hi; cbn; unfold resume_items; cbn; solve_Permutation).

Lemma run_receiving_items s : item_inv s → leads item_inv (run_receiving s).
Proof.
  intros [Hi Hp Hr Hl Hx Hone Hdn]. unfold run_receiving. destruct (pc s) eqn:Ep; try exact I; cbn in Hp, Hr, Hl, Hx, Hdn.
  all: unfold everywhere in Hi; rewrite Ep in Hi; cbn in Hi.
  - specialize (Hr eq_refl). specialize (Hl eq_refl). unfold pending_items, result_items in Hi. rewrite Hr, Hl in Hi.
    step_cases; (split; cbn; try done); unfold everywhere, pending_items, result_items; cbn; rewrite ?Hr, ?Hl;
      try match goal with E : TakeAll _ = _ |- _ => apply TakeAll_items in E as [E1 E2]; rewrite E1 in Hi; rewrite E2 end.
    all: try (rewrite Hi; solve_Permutation).
    all: rewrite (assoc_L (++)), Hi; unfold resume_items; cbn; solve_Permutation.
  - step_cases; items_done Hi.
  - step_cases; items_done Hi.
  - destruct (decide _); items_done Hi.
  - items_done Hi.
  - destruct (run_receive _) as [ [ [first|] b]|] eqn:?; [destruct idle, first| |exact I]; cbn [leads]; items_done Hi.
  - step_cases; items_done Hi.
  - step_cases; items_done Hi. rewrite (Hx eq_refl). destruct first; cbn; lia.
  - destruct (decide _); items_done Hi.
  - step_cases; items_done Hi.
  - step_cases; items_done Hi.
  - step_cases; items_done Hi.
  - step_cases. items_done Hi. rewrite source_items_all. rewrite Hi; solve_Permutation.
Qed.

Lemma run_planning_items a s :
  honest s (LRun a) → item_inv s → leads item_inv (run_planning ctx0 a s).
Proof.
  intros Hh [Hi Hp Hr Hl Hx Hone Hdn]. unfold run_planning, abandon, honest in *. destruct (pc s) eqn:Ep; try exact I; cbn in Hp, Hr, Hl, Hx, Hdn.
  all: unfold everywhere in Hi; rewrite Ep in Hi; cbn in Hi.
  - step_cases; items_done Hi.
  - destruct a; try exact I. destruct (planTurn _ _ _ _) as [plan|e] eqn:E; cbn [leads].
    + apply plan_splits in E as (g & -> & E1 & E2). items_done Hi. by rewrite E1, E2.
    + items_done Hi.
  - step_cases; items_done Hi.
  - destruct a; try exact I. step_cases; items_done Hi.
  - step_cases; items_done Hi. rewrite Hi, <- Hp. solve_Permutation.
  - items_done Hi.
  - step_cases. destruct items; items_done Hi.
  - items_done Hi.
Qed.

Lemma run_turn_items a s : item_inv s → leads item_inv (run_turn a s).
Proof.
  intros [Hi Hp Hr Hl Hx Hone Hdn]. unfold run_turn. destruct (pc s) eqn:Ep; try exact I; cbn in Hp, Hr, Hl, Hx, Hdn.
  all: unfold everywhere in Hi; rewrite Ep in Hi; cbn in Hi.
  - step_cases; items_done Hi.
  - step_cases; items_done Hi.
  - step_cases; items_done Hi.
  - items_done Hi.
  - destruct a; try exact I. step_cases; items_done Hi.
  - destruct a; try exact I. destruct (branch_ready _ _ _); [|exact I].
    destruct (turn_result _ _ _ _) as [err x] eqn:E. cbn [leads].
    destruct (turn_result_own (preemptDone s) ms o (own s)) as [E1 E2]. rewrite E in E1, E2. cbn in E1, E2.
    split; cbn; rewrite ?E1, ?E2; try done. unfold everywhere, pending_items, result_items in *; cbn. by rewrite E1, E2.
  - step_cases; items_done Hi.
  - step_cases; items_done Hi.
  - step_cases; try (destruct (bool_decide _ || bool_decide _)); items_done Hi.
Qed.

Lemma run_cleanup_items s : item_inv s → leads item_inv (run_cleanup s).
Proof.
  intros [Hi Hp Hr Hl Hx Hone Hdn]. unfold run_cleanup. destruct (pc s) eqn:Ep; try exact I; cbn in Hp, Hr, Hl, Hx, Hdn.
  all: unfold everywhere in Hi; rewrite Ep in Hi; cbn in Hi.
  5: { specialize (Hr eq_refl). cbn [leads]. unfold result_items in Hi. rewrite Hr in Hi.
       split; cbn; try done. unfold everywhere, pending_items, result_items in *; cbn. rewrite Hi. solve_Permutation. }
  all: step_cases; items_done Hi; by rewrite ?(proj1 (Close_buf _)).
Qed.

Lemma run_step_items a s : honest s (LRun a) → item_inv s → leads item_inv (run_step ctx0 a s).
Proof.
  intros Hh Hi. unfold run_step.
  destruct (pc s) eqn:Ep; eauto using run_receiving_items, run_planning_items, run_turn_items, run_cleanup_items; exact I.
Qed.

(** ** The other goroutines *)

(** All that the invariant speaks about. *)
Definition items_core s :=
  (turns s, dropped s, accepted s, loaded s, buf (buffer (sh s)), pc s, own s).

Lemma items_core_inv s s' : items_core s' = items_core s → item_inv s → item_inv s'.
Proof.
  unfold items_core. intros [= E1 E2 E3 E4 E5 E6 E7] [H1 H2 H3 H4 H5 H6 H7].
  split; unfold everywhere in *; rewrite ?E1, ?E2, ?E3, ?E4, ?E5, ?E6, ?E7; assumption.
Qed.

(** An item enters at the end of the buffer. *)
Lemma accept_inv x b s :
  buf b = buf (buffer (sh s)) ++ [x] → item_inv s → item_inv (note_accepted [x] (with_sh (set_buffer b) s)).
Proof.
  intros Eb [H1 H2 H3 H4 H5 H6 H7]. split; cbn; try done. unfold everywhere in *; cbn. rewrite Eb.
  transitivity ((accepted s ++ loaded s) ++ [x]); [solve_Permutation|]. rewrite H1. solve_Permutation.
Qed.

Lemma push_action_items cfg now p s cl q s1 :
  item_inv s → push_action cfg now p s = Some (cl, q, s1) → item_inv s1.
Proof.
  intros Hi. unfold push_action, appendLate. intros E. solve_some; try (eapply items_core_inv; [|exact Hi]; reflexivity).
  all: match goal with E : TrySend _ _ = _ |- _ => apply TrySend_items in E end.
  - eapply items_core_inv, accept_inv; [|done|exact Hi]. done.
  - by apply accept_inv.
  - eapply items_core_inv; [|exact Hi]. unfold items_core. cbn. rewrite app_nil_r in *. congruence.
Qed.

Lemma watch_action_items ct w s cl q s1 : item_inv s → watch_action ct w s = Some (cl, q, s1) → item_inv s1.
Proof. intros Hi. unfold watch_action. intros E. solve_some; (eapply items_core_inv; [|exact Hi]); reflexivity. Qed.

Ltac same Hi := cbn [leads]; eapply items_core_inv; [|exact Hi]; unfold items_core; cbn; reflexivity.

Lemma step_items l s : loop_inv s → honest s l → item_inv s → leads item_inv (step ctx0 l s).
Proof.
  intros Hinv Hh Hi. destruct l; cbn [step].
  - by apply run_step_items.
  - destruct (started (sh s)) eqn:Es; [exact I|]. pose proof (inv_started _ Hinv Es) as Hst.
    destruct (pc s) eqn:Ep; try discriminate Hst. destruct Hi as [H1 H2 H3 H4 H5 H6 H7]. rewrite Ep in *.
    split; cbn; try done. unfold everywhere in *. by rewrite Ep in H1.
  - destruct (push_options opts). same Hi.
  - unfold push_step. destruct (pushes s !! i); [|exact I]. apply leads_or_panic. intros [ [cl q] s1] E.
    apply leads_closing. intros. apply push_action_items in E; [same E|same Hi].
  - unfold timer_step. step_cases; same Hi.
  - unfold Stop. destruct (requestStop _ _ _). same Hi.
  - unfold commitStop. destruct (commit _). same Hi.
  - unfold stop_step. step_cases; try same Hi.
    cbn [leads]. eapply items_core_inv; [|exact Hi]. unfold items_core; cbn. by rewrite (proj1 (Close_buf _)).
  - unfold watch_step. destruct (watchers s !! i); [|exact I]. destruct (watch_action _ _ _) as [ [ [cl q] s1]|] eqn:E; [|exact I].
    apply leads_closing. intros. apply watch_action_items in E; [same E|same Hi].
  - unfold watch_exit. step_cases; same Hi.
  - same Hi.
  - step_cases. cbn [leads]. eapply items_core_inv; [|exact Hi]. unfold items_core; cbn. by rewrite (proj1 (Close_buf _)).
  - step_cases. same Hi.
Qed.

Lemma honest_run_items ls s :
  loop_inv s → item_inv s → honest_run ls s →
  match steps ctx0 ls s with Goes s' => loop_inv s' ∧ item_inv s' | _ => True end.
Proof.
  revert s. induction ls as [|l ls IH]; cbn [steps honest_run]; intros s Hinv Hi Hh; [done|]. destruct Hh as [Hl Hh].
  pose proof (step_items l s Hinv Hl Hi) as Hs. pose proof (step_inv ctx0 l s Hinv) as Hs'.
  destruct (step ctx0 l s); [exact I|done|]. by apply IH.
Qed.

(** C34: If the callbacks split the items they are given, then in every state of every
    execution the items that calls of [Push] were told are accepted, and those loaded from
    a checkpoint, are - each exactly as often - with the turns, in the buffer, in the hands
    of the goroutine, in a resumption still to come, among the unhandled items of the
    result, or dropped.  At most one item is dropped, by a loop that is on its way out. *)
Theorem items_conserved st id gr ls s :
  honest_run ls (NewAgentLoop st id gr) → steps ctx0 ls (NewAgentLoop st id gr) = Goes s →
  accepted s ++ loaded s
  ≡ₚ turns s ++ dropped s ++ buf (buffer (sh s)) ++ pc_items (pc s) ++ pending_items (own s) ++ result_items (own s) ∧
  length (dropped s) ≤ 1 ∧ (exiting (pc s) = false → dropped s = []).
Proof.
  intros Hh E. pose proof (honest_run_items ls _ (new_loop_inv st id gr) (new_item_inv st id gr) Hh) as Hi.
  rewrite E in Hi. destruct Hi as [_ [H1 _ _ _ H5 H6 _] ]. by split_and!.
Qed.

(** ** When nothing is lost *)

(** No stop waits for the loop to be idle. *)
Definition no_idle_stop l : Prop :=
  match l with LStop opts _ => (stop_idleFor (stop_options opts) ≤ 0)%Z | _ => True end.

Definition idle_pc (c : run_pc T Ctx) : bool :=
  match c with RunClear | RunReceive true | RunMissed | RunStopped _ => true | _ => false end.

Record never_idle s : Prop := MkNeverIdle {
  ni_phase : phase (stopCtrl (sh s)) ≠ stopIdleWaiting;
  ni_pc : idle_pc (pc s) = false;
  ni_dropped : dropped s = []
}.

Lemma requestStop_phase cfg now (c : stopController) :
  (stop_idleFor cfg ≤ 0)%Z → phase c ≠ stopIdleWaiting → phase (requestStop cfg now c).2 ≠ stopIdleWaiting.
Proof.
  intros Hc Hp. unfold requestStop, commitLocked. destruct (stop_closed c); [done|].
  destruct (decide (0 < stop_idleFor cfg)%Z); [lia|]. cbn zeta.
  destruct (_ || _); destruct (stop_agentCancelOpts cfg); done.
Qed.

(** Pushing and watching leave the stop phase and the goroutine of the loop alone. *)
Lemma push_action_keeps cfg now p s cl q s1 :
  push_action cfg now p s = Some (cl, q, s1) →
  pc s1 = pc s ∧ own s1 = own s ∧ stopCtrl (sh s1) = stopCtrl (sh s) ∧ dropped s1 = dropped s ∧
  length (accepted s) ≤ length (accepted s1) ∧
  (length (accepted s1) = length (accepted s) → buf (buffer (sh s1)) = buf (buffer (sh s))).
Proof.
  unfold push_action, appendLate. intros E. solve_some; cbn; try (by split_and!); split_and!; try done; rewrite ?length_app; cbn; try lia.
  match goal with E : TrySend _ _ = _ |- _ => apply TrySend_items in E; by rewrite app_nil_r in E end.
Qed.

Lemma watch_action_keeps ct w s cl q s1 :
  watch_action ct w s = Some (cl, q, s1) →
  pc s1 = pc s ∧ own s1 = own s ∧ phase (stopCtrl (sh s1)) = phase (stopCtrl (sh s)) ∧ dropped s1 = dropped s ∧
  accepted s1 = accepted s ∧ buffer (sh s1) = buffer (sh s).
Proof.
  unfold watch_action. intros E. solve_some; cbn; try (by split_and!).
  all: unfold receiveCancel, take_stop_notify in *; repeat case_match; simplify_eq; by split_and!.
Qed.

Lemma idle_duration_0 (c : stopController) : phase c ≠ stopIdleWaiting → idleDuration c = 0%Z.
Proof. intros. unfold idleDuration. by rewrite decide_False. Qed.

Lemma run_step_never_idle a s : never_idle s → leads never_idle (run_step ctx0 a s).
Proof.
  intros [Hp Hc Hd]. unfold run_step. destruct (pc s) eqn:Ep; try exact I; try discriminate Hc.
  all: unfold run_receiving, run_planning, run_turn, run_cleanup, abandon; rewrite Ep; rewrite ?(idle_duration_0 _ Hp); cbn in Hc.
  all: step_cases; (split; cbn; rewrite ?Ep; try done).
  all: try (repeat case_match; done).
  - unfold stop_beginActiveTurn. by destruct (stop_closed _).
  - unfold stop_endActiveTurn in *. by simplify_eq.
Qed.

Lemma step_never_idle l s : no_idle_stop l → never_idle s → leads never_idle (step ctx0 l s).
Proof.
  intros Hl Hn. destruct l; cbn [step].
  - by apply run_step_never_idle.
  - destruct Hn. by step_cases.
  - destruct (push_options opts). by destruct Hn.
  - unfold push_step. destruct (pushes s !! i); [|exact I]. apply leads_or_panic. intros [ [cl q] s1] E.
    apply leads_closing. intros. apply push_action_keeps in E as (E1&_&E2&E3&_). cbn in E1, E2, E3.
    destruct Hn. split; cbn; congruence.
  - destruct Hn. unfold timer_step. by step_cases.
  - unfold Stop. destruct Hn. pose proof (requestStop_phase (stop_options opts) now (stopCtrl (sh s)) Hl ltac:(done)).
    destruct (requestStop _ _ _). by split.
  - unfold commitStop, commit, commitLocked. destruct Hn. destruct (_ || _); by split.
  - destruct Hn. unfold stop_step. by step_cases.
  - unfold watch_step. destruct (watchers s !! i); [|exact I]. destruct (watch_action _ _ _) as [ [ [cl q] s1]|] eqn:E; [|exact I].
    apply leads_closing. intros. apply watch_action_keeps in E as (E1&_&E2&E3&_). cbn in E1, E2, E3.
    destruct Hn. split; cbn; congruence.
  - destruct Hn. unfold watch_exit. by step_cases.
  - by destruct Hn.
  - destruct Hn. by step_cases.
  - destruct Hn. by step_cases.
Qed.

(** *** The end of the loop *)
Definition after_take (c : run_pc T Ctx) : bool :=
  match c with
  | RunSkip _ | RunSave _ _ | RunResult _ _ _ | RunCloseStop | RunClosePreempt | RunCloseBuffer | RunCloseDone | RunEnded => true
  | _ => false
  end.

(** Since the unhandled items are taken, only calls of [Push] that are accepted fill the
    buffer.  [n] is the number of items accepted before. *)
Definition winding_up (n : nat) s : Prop :=
  n ≤ length (accepted s) ∧
  (pc s = RunUnhandled ∨ after_take (pc s) = true ∧ (length (accepted s) = n → buf (buffer (sh s)) = [])).

Lemma winding_up_frame n s s' :
  pc s' = pc s → length (accepted s) ≤ length (accepted s') →
  (length (accepted s') = length (accepted s) → buf (buffer (sh s')) = buf (buffer (sh s))) →
  winding_up n s → winding_up n s'.
Proof.
  intros Ep Ha Hb [Hn Hw]. split; [lia|]. rewrite Ep. destruct Hw as [?|[? Hw] ]; [by left|right]. split; [done|].
  intros Hl. rewrite Hb by lia. apply Hw. lia.
Qed.

Lemma run_step_winding_up n a s : winding_up n s → leads (winding_up n) (run_step ctx0 a s).
Proof.
  intros [Hn Hw]. unfold run_step. destruct (pc s) eqn:Ep; destruct Hw as [Hw|[Hw Hb] ]; try discriminate Hw; try exact I.
  all: unfold run_cleanup; rewrite Ep.
  1: { step_cases. split; [done|]. right. split; [done|]. intros _. cbn. by match goal with E : TakeAll _ = _ |- _ => apply TakeAll_items in E as [_ ?] end. }
  all: step_cases; (split; cbn; [done|]); right; (split; [done|]); cbn; rewrite ?(proj1 (Close_buf _)); done.
Qed.

Lemma step_winding_up n l s : started (sh s) = true → winding_up n s → leads (winding_up n) (step ctx0 l s).
Proof.
  intros Hst Hn. destruct l; cbn [step].
  - by apply run_step_winding_up.
  - by rewrite Hst.
  - destruct (push_options opts). by apply (winding_up_frame n s).
  - unfold push_step. destruct (pushes s !! i); [|exact I]. apply leads_or_panic. intros [ [cl q] s1] E.
    apply leads_closing. intros. apply push_action_keeps in E as (E1&_&_&_&E2&E3). by apply (winding_up_frame n s).
  - unfold timer_step. step_cases; by apply (winding_up_frame n s).
  - unfold Stop. destruct (requestStop _ _ _). by apply (winding_up_frame n s).
  - unfold commitStop. destruct (commit _). by apply (winding_up_frame n s).
  - unfold stop_step. step_cases; apply (winding_up_frame n s); try done. intros _. cbn. apply Close_buf.
  - unfold watch_step. destruct (watchers s !! i); [|exact I]. destruct (watch_action _ _ _) as [ [ [cl q] s1]|] eqn:E; [|exact I].
    apply leads_closing. intros. apply watch_action_keeps in E as (E1&_&_&_&E2&E3). cbn in E1, E2, E3.
    apply (winding_up_frame n s); cbn; rewrite ?E1, ?E2, ?E3; done.
  - unfold watch_exit. step_cases; by apply (winding_up_frame n s).
  - by apply (winding_up_frame n s).
  - step_cases. apply (winding_up_frame n s); try done. intros _. cbn. apply Close_buf.
  - step_cases. by apply (winding_up_frame n s).
Qed.

Lemma steps_app ls1 ls2 s :
  steps ctx0 (ls1 ++ ls2) s = match steps ctx0 ls1 s with Goes s' => steps ctx0 ls2 s' | r => r end.
Proof. revert s. induction ls1 as [|l ls IH]; cbn [steps app]; intros s; [done|]. by destruct (step ctx0 l s). Qed.

Lemma steps_winding_up n ls s :
  loop_inv s → winding_up n s → match steps ctx0 ls s with Goes s' => winding_up n s' | _ => True end.
Proof.
  revert s. induction ls as [|l ls IH]; cbn [steps]; intros s Hi Hw; [done|].
  assert (started (sh s) = true) as Hst.
  { destruct (started (sh s)) eqn:Es; [done|]. pose proof (inv_started _ Hi Es) as Ha. destruct Hw as [_ [Hw|[Hw _] ] ]; destruct (pc s); discriminate. }
  pose proof (step_winding_up n l s Hst Hw) as Hs. pose proof (step_inv ctx0 l s Hi) as Hi'.
  destruct (step ctx0 l s); [exact I..|]. by apply IH.
Qed.

Lemma steps_never_idle ls s :
  Forall no_idle_stop ls → never_idle s → match steps ctx0 ls s with Goes s' => never_idle s' | _ => True end.
Proof.
  intros Hf. revert s. induction Hf as [|l ls Hl _ IH]; cbn [steps]; intros s Hn; [done|].
  pose proof (step_never_idle l s Hl Hn) as Hs. destruct (step ctx0 l s); [exact I..|]. by apply IH.
Qed.


(** ** Checkpoints *)
Lemma save_load `{!CheckPointStoreLaws St} (st st' : option St) id (c : agentLoopCheckpoint T) :
  id ≠ "" → saveTurnLoopCheckpoint st id c = (st', None) →
  tryLoadCheckpoint st' id
  = if HasRunnerState c
    then match RunnerCheckpoint c with
         | [] => LoadEmptyBytes id (EMsg ("checkpoint[" +:+ id +:+ "] has runner state but bytes are empty"))
         | _ => LoadResume id c
         end
    else LoadItems id (UnhandledItems c).
Proof.
  intros Hid. unfold saveTurnLoopCheckpoint, tryLoadCheckpoint. destruct st as [st|]; [|done].
  destruct (marshalTurnLoopCheckpoint c) as [data|e] eqn:E; [|done].
  destruct (store_Set st id data) as [st1 err] eqn:Es. intros [= <- ->]. apply store_set_get in Es.
  rewrite decide_False by done. rewrite Es. cbn. apply gob_law in E as [Hne E].
  unfold unmarshalTurnLoopCheckpoint. rewrite E. by destruct data.
Qed.

End items.
