(* ===== verification/AgentLoopRuns.v ===== *)
(** * Executions of the agent loop

    Concrete executions of the system of AgentLoop, for the theorems about all of them
    and for what can go wrong: an item that is dropped or stranded, a checkpoint that is
    deleted before it was used or written although its turn is over, and a preemption
    that reaches the wrong turn. *)
From S2P Require Import Prelude.
From S2P Require Export AgentLoopItems.
#[local] Open Scope nat_scope.

(** ** A store and an encoding *)
#[export] Instance memory_store : CheckPointStore (gmap string (list Z)) := {
  store_Get st id := Ok (match st !! id with Some d => (d, true) | None => ([], false) end);
  store_Set st id data := (<[id:=data]> st, None);
  store_Delete := Some (λ st id, (delete id st, None))
}.

#[export] Instance memory_store_laws : CheckPointStoreLaws (gmap string (list Z)).
Proof. intros st id data st' [= <-]. cbn. by rewrite lookup_insert_eq. Qed.

(** A checkpoint as a list: whether it has the state of a runner, and its parts behind
    their lengths. *)
Definition list_encode (c : agentLoopCheckpoint nat) : list Z :=
  [if HasRunnerState c then 1%Z else 0%Z; Z.of_nat (length (RunnerCheckpoint c)); Z.of_nat (length (UnhandledItems c))]
  ++ RunnerCheckpoint c ++ (Z.of_nat <$> UnhandledItems c) ++ (Z.of_nat <$> CanceledItems c).

Definition list_decode (data : list Z) : result loop_error (agentLoopCheckpoint nat) :=
  match data with
  | h :: n :: m :: rest =>
      let '(n, m) := (Z.to_nat n, Z.to_nat m) in
      Ok (MkLoopCheckpoint (take n rest) (bool_decide (h = 1%Z)) (Z.to_nat <$> take m (drop n rest)) (Z.to_nat <$> drop m (drop n rest)))
  | _ => Err (EMsg "unexpected EOF")
  end.

Lemma to_of_nat (l : list nat) : Z.to_nat <$> (Z.of_nat <$> l) = l.
Proof. induction l as [|x l IH]; cbn; [done|]. by rewrite Nat2Z.id, IH. Qed.

#[export, refine] Instance nat_codec : GobCodec nat := {
  gob_encode c := Ok (list_encode c);
  gob_decode := list_decode
}.
Proof.
  intros [b h u c] data [= <-]. split; [done|]. unfold list_decode, list_encode. cbn -[Z.of_nat Z.to_nat].
  rewrite !Nat2Z.id, !take_app_length, !drop_app_length.
  rewrite (take_app_length' (Z.of_nat <$> u)), (drop_app_length' (Z.of_nat <$> u)) by (by rewrite length_fmap).
  rewrite !to_of_nat. by destruct h.
Defined.

(** ** Building executions *)
Notation run_label := (label nat () ()).
Notation run_sys := (sys nat () () (gmap string (list Z))).

Definition plain : pushConfig := MkPushConfig false 0 None.
Definition preempting : list PushOption := option_list (WithPreempt AfterChatModel).

Definition go : run_label := LRun NoAnswer.
Definition gos (n : nat) : list run_label := repeat go n.

(** A whole call of [Push], of [Stop], and of the loop up to the callbacks. *)
Definition push_call (x : nat) (steps : nat) (opts : list PushOption) : list run_label :=
  LPush x opts :: repeat (LPushStep 0 plain 0) steps.
Definition stop_call (opts : list StopOption) : list run_label := [LStop opts 0; LStopStep 0; LStopStep 0].

Definition plan_all (items : list nat) : run_label := LRun (APlan (Ok (Some (MkGen None true items [])))).
Definition plan_first (x : nat) (rest : list nat) : run_label := LRun (APlan (Ok (Some (MkGen None true [x] rest)))).

(** From the plan to the running turn. *)
Definition to_turn : list run_label := [go; LRun (AAgent None)] ++ gos 5 ++ [LRun (ARunner None)].
Definition turn_ends (o : turn_outcome ()) : list run_label := LRun (ATurn o) :: gos 3.
Definition fine : turn_outcome () := MkOutcome None None None None OnDone.

Definition new_loop : run_sys := NewAgentLoop None "" false.

Definition final (ls : list run_label) (s : run_sys) : option run_sys :=
  match steps () ls s with Goes s => Some s | _ => None end.

(** Two items; the first turn takes one of them and is preempted by a third item while it
    runs; the second turn takes the rest; then the loop is stopped. *)
Definition to_first_turn : list run_label :=
  push_call 1 3 [] ++ push_call 2 3 [] ++ [LStart] ++ gos 9 ++ [plan_first 1 [2] ] ++ to_turn.

Definition preempted_turn : list run_label :=
  push_call 3 6 preempting ++ [LWatch 0 false; LWatch 0 false; LWatch 0 true]
  ++ turn_ends (MkOutcome None None None None OnPreempted).
Definition second_turn : list run_label := gos 8 ++ [plan_all [2; 3] ] ++ to_turn ++ turn_ends fine.
Definition to_unhandled : list run_label :=
  to_first_turn ++ preempted_turn ++ second_turn ++ push_call 4 3 [] ++ stop_call [] ++ gos 2.
Definition wind_up : list run_label := gos 8.

(** The state an execution of the new loop ends in. *)
Definition state_after (ls : list run_label) : run_sys :=
  match steps () ls new_loop with Goes s => s | _ => new_loop end.

Lemma run_ok (ls : list run_label) (s : run_sys) : match steps () ls s with Goes _ => True | _ => False end → ∃ s', steps () ls s = Goes s'.
Proof. destruct (steps () ls s); [done..|eauto]. Qed.

Lemma items_conserved_witness :
  ∃ s, steps () (to_unhandled ++ wind_up) new_loop = Goes s ∧
    accepted s ++ loaded s
    ≡ₚ turns s ++ dropped s ++ buf (buffer (sh s)) ++ pc_items (pc s) ++ pending_items (own s) ++ result_items (own s) ∧
    accepted s = [1; 2; 3; 4] ∧ turns s = [1; 2; 3] ∧ result_items (own s) = [4].
Proof.
  destruct (run_ok (to_unhandled ++ wind_up) new_loop) as [s E]; [by vm_compute|]. exists s. split; [exact E|].
  split; [apply (items_conserved () None "" false (to_unhandled ++ wind_up) s); [|exact E]|].
  - vm_compute. repeat split; reflexivity.
  - revert E. vm_compute. intros [= <-]. repeat split.
Defined.

Lemma loop_never_hangs_witness :
  reachable () (state_after to_first_turn) ∧
  (over_or_not_started (state_after to_first_turn) ∨ can_run () (state_after to_first_turn) ∨
   waits_for_items (state_after to_first_turn) ∨ waits_for_pushes (state_after to_first_turn)).
Proof.
  assert (reachable () (state_after to_first_turn)) as Hr by (exists None, "", false, to_first_turn; vm_compute; reflexivity).
  split; [exact Hr|]. apply (loop_never_hangs () (state_after to_first_turn) Hr).
Defined.


(** An interrupted turn that left two items, and the loop that continues it with a third. *)
Definition interrupted_run : list run_label :=
  to_first_turn ++ stop_call [WithImmediate]
  ++ turn_ends (MkOutcome (Some (MkCancelInfo CancelImmediate true false)) None None (Some [11%Z]) OnDone) ++ gos 3.
Definition store_loop (st : option (gmap string (list Z))) : run_sys := NewAgentLoop st "turn" true.
Definition next_loop (s : run_sys) : run_sys :=
  match steps () (push_call 5 3 [] ++ [LStart]) (store_loop (store (own s))) with Goes n => n | _ => s end.
Definition before_save : run_sys := match steps () interrupted_run (store_loop (Some ∅)) with Goes s => s | _ => new_loop end.
Definition after_save : run_sys := match step () go before_save with Goes s => s | _ => new_loop end.


(** ** What can be lost *)
Definition run_from (s : run_sys) (ls : list run_label) : option run_sys :=
  match steps () ls s with Goes s => Some s | _ => None end.

(** What a loop that is over tells its caller. *)
Definition told (s : run_sys) : list nat * option (list nat) * list nat :=
  (accepted s, res_UnhandledItems <$> loop_result (own s), lateItems (sh s)).

(** A loop that waits to be idle receives an item; the timer commits the stop before the
    loop looks at it: the item was accepted, and is neither handled nor reported. *)
Definition idle_stop : list run_label :=
  push_call 7 3 [] ++ [LStop [StopIdle 5] 0; LStopStep 0; LStart] ++ gos 5 ++ [LCommit; LStopStep 0] ++ gos 10.

Lemma idle_stop_drops :
  ∃ s, run_from new_loop idle_stop = Some s ∧ pc s = RunEnded ∧ told s = ([7], Some [], []) ∧ turns s = [] ∧ dropped s = [7].
Proof. eexists. split; [vm_compute; reflexivity|]. vm_compute. repeat split. Qed.

(** A call of [Push] that looks at [stopped] before the loop fails, and sends after the
    loop has taken what is left, returns true; its item stays in the buffer. *)
Definition stranded_push : list run_label :=
  push_call 1 3 [] ++ [LStart] ++ gos 9 ++ [LPush 2 []; LPushStep 0 plain 0]
  ++ [LRun (APlan (Err (EMsg "no input")))] ++ gos 4 ++ repeat (LPushStep 0 plain 0) 2 ++ gos 7.

Lemma stranded_push_lost :
  ∃ s, run_from new_loop stranded_push = Some s ∧ pc s = RunEnded ∧ told s = ([1; 2], Some [1], []) ∧ buf (buffer (sh s)) = [2].
Proof. eexists. split; [vm_compute; reflexivity|]. vm_compute. repeat split. Qed.

(** *** Checkpoints *)
Definition cp_id : string := "turn".
Definition interrupted_turn : agentLoopCheckpoint nat := MkLoopCheckpoint [11%Z] true [2] [1].
Definition store_with (c : agentLoopCheckpoint nat) : gmap string (list Z) :=
  match gob_encode c with Ok data => {[ cp_id := data ]} | Err _ => ∅ end.
Definition resuming : run_sys := NewAgentLoop (Some (store_with interrupted_turn)) cp_id true.

(** A loop that is stopped before it resumes deletes the checkpoint and reports neither
    its items nor those it accepted. *)
Definition stopped_early : list run_label := push_call 3 3 [] ++ stop_call [] ++ [LStart] ++ gos 11.

Lemma stopped_early_deletes :
  ∃ s, run_from resuming stopped_early = Some s ∧ pc s = RunEnded ∧ told s = ([3], Some [], []) ∧
    pending_items (own s) = [1; 2; 3] ∧ store (own s) = Some ∅.
Proof. eexists. split; [vm_compute; reflexivity|]. vm_compute. repeat split. Qed.

(** A resumed turn ends well and the loop is stopped afterwards: the bytes of the turn
    that is over are saved again, and the next loop would resume it once more. *)
Definition resumed_turn : list run_label :=
  [LStart] ++ gos 5 ++ [LRun (APlan (Ok (Some (MkGen None true [1; 2] []))))] ++ to_turn ++ turn_ends fine
  ++ stop_call [] ++ gos 10.

Lemma resumed_turn_saved_again :
  ∃ s, run_from resuming resumed_turn = Some s ∧ pc s = RunEnded ∧ turns s = [1; 2] ∧
    (CheckpointAttempted <$> loop_result (own s)) = Some true ∧
    tryLoadCheckpoint (store (own s)) cp_id = LoadResume cp_id (MkLoopCheckpoint [11%Z] true [] []).
Proof. eexists. split; [vm_compute; reflexivity|]. vm_compute. repeat split. Qed.

(** A turn that is cancelled before the runner saved anything: its items are written to
    the checkpoint, and the next loop does not read them. *)
Definition info : AgentCancelInfo := MkCancelInfo CancelImmediate true false.
Definition cancelled_turn : list run_label :=
  push_call 1 3 [] ++ [LStart] ++ gos 9 ++ [plan_all [1] ] ++ to_turn
  ++ stop_call [WithImmediate] ++ turn_ends (MkOutcome (Some info) None (Some (ECancel info)) None OnDone) ++ gos 9.

Lemma cancelled_items_unread :
  ∃ s, run_from (NewAgentLoop (Some ∅) cp_id true) cancelled_turn = Some s ∧ pc s = RunEnded ∧
    (InterruptedItems <$> loop_result (own s)) = Some [1] ∧
    store (own s) = Some (store_with (MkLoopCheckpoint [] false [] [1])) ∧
    ∃ s', run_from (NewAgentLoop (store (own s)) cp_id true) ([LStart] ++ gos 2) = Some s' ∧
      loaded s' = [] ∧ buf (buffer (sh s')) = [] ∧ pendingResume (own s') = None.
Proof.
  eexists. split; [vm_compute; reflexivity|]. split; [vm_compute; reflexivity|]. split; [vm_compute; reflexivity|].
  split; [vm_compute; reflexivity|]. eexists. split; [vm_compute; reflexivity|]. vm_compute. repeat split.
Qed.

(** *** Watchers of a turn that is over *)

(** The watcher of the first turn has not noticed its end when the second one is
    preempted: it takes the request, its agent is done, and the acknowledgement is closed
    while the second turn goes on undisturbed. *)
Definition misdirected : list run_label :=
  to_first_turn ++ turn_ends fine ++ gos 8 ++ [plan_all [2] ] ++ to_turn
  ++ push_call 3 6 preempting ++ [LWatch 2 false; LWatch 0 false; LWatch 0 false].

Lemma misdirected_preemption :
  ∃ s, run_from new_loop misdirected = Some s ∧ (∃ plan ms, pc s = RunActive plan ms) ∧
    acks_closed s = [0] ∧ preemptDone s = false ∧ preempt_pending (preemptCtrl (sh s)) = None ∧
    preempt_notify (preemptCtrl (sh s)) = false.
Proof. eexists. split; [vm_compute; reflexivity|]. split; [do 2 eexists; reflexivity|]. repeat split. Qed.
