(* ===== verification/MessageFit.v ===== *)
(** * Fitting messages into a token budget (internal/component/messagefit/messagefit.go)

    Before a conversation is sent to a model it is cut to the size of its context: all
    system messages and the last other one are kept, and trimmed if they are too long.
    Tokens are those of the encoder of Chunker. *)
From S2P Require Import Prelude Values Format Json JsonText JsonLaw RawJson Convert GoStrings.
From S2P Require Export Chunker ChunkerProps.
#[local] Open Scope Z_scope.

Record Message := MkMessage { Role : string; Content : string }.

Section fit.
Context `{Tokenizer, GoFloat}.

Definition with_content (t : string) (m : Message) : Message := MkMessage (Role m) t.
Definition is_system (m : Message) : bool := bool_decide (Role m = "system").
Definition tokens (m : Message) : Z := NumTokensFromString (Content m).

Definition countTokens (msgs : list Message) : Z := foldl (λ total m, total + tokens m) 0 msgs.

(** The loop of [trimSystems]: each message gets its share of the budget, the last one
    what remains. *)
Fixpoint trim_shares (budget total remaining : Z) (sys : list Message) : list Message :=
  match sys with
  | [] => []
  | m :: rest =>
      let limit :=
        match rest with
        | [] => remaining
        | _ =>
            let share := int64_of_float (fdiv (fmul (float_of_int budget) (float_of_int (tokens m))) (float_of_int total)) in
            if decide (remaining < share) then remaining else share
        end in
      let m := with_content (TrimContentToTokenLimit (Content m) limit) m in
      m :: trim_shares budget total (remaining - tokens m) rest
  end.

Definition trimSystems (sys : list Message) (budget : Z) : list Message :=
  match sys with
  | [] => []
  | _ =>
      if decide (budget ≤ 0) then with_content "" <$> sys
      else
        let total := countTokens sys in
        if decide (total ≤ 0) then sys else trim_shares budget total budget sys
  end.

(** The messages with their indices. *)
Definition indexed (msgs : list Message) : list (Message * nat) := zip msgs (seq 0 (length msgs)).

(** All system messages, in order, and the last other message. *)
Definition kept_systems (msgs : list Message) : list (Message * nat) := filter (λ mi, is_system mi.1) (indexed msgs).
Definition lastNonSystem (msgs : list Message) : option (Message * nat) :=
  last (filter (λ mi, negb (is_system mi.1)) (indexed msgs)).

Definition default_budget : Z := 8192.
Definition most : spec_float := float_of_dec 53 1024 8 (-1).  (** 0.8 *)

(** The last step: systems and one other message that do not fit together. *)
Definition trim_both (sys : list Message) (m : Message) (budget : Z) : list Message * Z :=
  let ll := countTokens sys in
  let ll2 := tokens m in
  let total := ll + ll2 in
  if decide (total ≤ 0) then (sys ++ [m], 0)
  else
    let kept :=
      if SFltb most (fdiv (float_of_int ll) (float_of_int total)) then
        let preserved := ll2 `min` budget in
        let m := with_content (TrimContentToTokenLimit (Content m) preserved) m in
        trimSystems sys (0 `max` (budget - preserved)) ++ [m]
      else
        let preserved := ll `min` budget in
        trimSystems sys preserved ++ [with_content (TrimContentToTokenLimit (Content m) (0 `max` (budget - preserved))) m] in
    (kept, countTokens kept).

(** Step 3: what was kept does not fit. *)
Definition trim_kept (sys : list (Message * nat)) (last : option (Message * nat)) (budget : Z) : list Message * Z :=
  match sys, last with
  | [m], None | [], Some m =>
      let kept := [with_content (TrimContentToTokenLimit (Content m.1) budget) m.1] in (kept, countTokens kept)
  | _, None => let kept := trimSystems (fst <$> sys) budget in (kept, countTokens kept)
  | _, Some m => trim_both (fst <$> sys) m.1 budget
  end.

Definition Fit (msgs : list Message) (budget : Z) : list Message * list nat * Z :=
  let budget := if decide (budget ≤ 0) then default_budget else budget in
  match msgs with
  | [] => ([], [], 0)
  | _ =>
      let total := countTokens msgs in
      if decide (total ≤ budget) then (msgs, seq 0 (length msgs), total)
      else
        let sys := kept_systems msgs in
        let last := lastNonSystem msgs in
        let idx := snd <$> (sys ++ option_list last) in
        let kept := fst <$> (sys ++ option_list last) in
        let total := countTokens kept in
        if decide (total ≤ budget) then (kept, idx, total)
        else
          let '(kept, count) := trim_kept sys last budget in (kept, idx, count)
  end.

(** ** Counting *)
Lemma countTokens_from t l : foldl (λ total m, total + tokens m) t l = t + countTokens l.
Proof.
  unfold countTokens. revert t. induction l as [|m l IH]; intros t; cbn [foldl]; [lia|].
  rewrite (IH (t + tokens m)), (IH (0 + tokens m)). lia.
Qed.

Lemma countTokens_cons m l : countTokens (m :: l) = tokens m + countTokens l.
Proof. unfold countTokens at 1. cbn [foldl]. rewrite countTokens_from. lia. Qed.

Lemma countTokens_app l k : countTokens (l ++ k) = countTokens l + countTokens k.
Proof. induction l as [|m l IH]; cbn [app]; [done|]. rewrite !countTokens_cons, IH. lia. Qed.

Lemma tokens_nonneg m : 0 ≤ tokens m.
Proof. unfold tokens, NumTokensFromString. case_decide; [lia|]. destruct getCL100KEncoder; lia. Qed.

Lemma countTokens_nonneg l : 0 ≤ countTokens l.
Proof. induction l as [|m l IH]; [done|]. rewrite countTokens_cons. pose proof (tokens_nonneg m). lia. Qed.

(** ** Trimming *)

(** A message that was cut: same role, a beginning of the text. *)
Definition cut_of (m orig : Message) : Prop := Role m = Role orig ∧ ∃ tail, Content orig = Content m +:+ tail.

Lemma cut_refl m : cut_of m m.
Proof. split; [done|]. exists "". by rewrite app_nil_String. Qed.

Section cuttable_encoding.
Context (encoding_cuttable : ∀ enc, getCL100KEncoder = Some enc → cuttable enc).

Lemma trim_tokens s limit : NumTokensFromString (TrimContentToTokenLimit s limit) ≤ 0 `max` limit.
Proof.
  unfold TrimContentToTokenLimit, NumTokensFromString. destruct getCL100KEncoder as [enc|] eqn:E; [|repeat case_decide; lia].
  pose proof (encoding_cuttable enc eq_refl) as Hc.
  destruct (decide (length (Encode enc s) ≤ Z.to_nat limit)%nat); case_decide; try lia.
  pose proof (prefix_encodes enc Hc s (Z.to_nat limit)). lia.
Qed.

Lemma valid_prefix_cut limit s : ∃ tail, s = valid_prefix limit s +:+ tail.
Proof.
  induction limit as [|n IH]; cbn [valid_prefix]; [by exists s|]. destruct (valid_utf8 0 _); [|done].
  exists (str_drop (S n) s). by rewrite str_take_drop.
Qed.

Lemma trim_cut s limit : ∃ tail, s = TrimContentToTokenLimit s limit +:+ tail.
Proof.
  unfold TrimContentToTokenLimit. destruct getCL100KEncoder as [enc|] eqn:E.
  - pose proof (encoding_cuttable enc eq_refl) as [Hde Happ _ _].
    case_decide; [exists ""; by rewrite app_nil_String|].
    exists (Decode enc (drop (Z.to_nat limit) (Encode enc s))). by rewrite <-Happ, take_drop, Hde.
  - repeat case_decide; [by exists s|exists ""; by rewrite app_nil_String|apply valid_prefix_cut].
Qed.

Lemma trim_message_cut m limit : cut_of (with_content (TrimContentToTokenLimit (Content m) limit) m) m.
Proof. split; [done|]. apply trim_cut. Qed.

Lemma trim_message_tokens m limit : tokens (with_content (TrimContentToTokenLimit (Content m) limit) m) ≤ 0 `max` limit.
Proof. apply trim_tokens. Qed.

(** The shares never use more than remains, whatever the floating-point shares are. *)
Lemma trim_shares_spec budget total remaining sys :
  Forall2 cut_of (trim_shares budget total remaining sys) sys ∧
  countTokens (trim_shares budget total remaining sys) ≤ 0 `max` remaining.
Proof.
  revert remaining. induction sys as [|m rest IH]; intros remaining; cbn [trim_shares]; [split; [constructor|cbn; lia]|].
  set (limit := match rest with [] => remaining | _ => _ end).
  assert (limit ≤ remaining) as Hl by (subst limit; destruct rest; [lia|]; case_decide; lia).
  pose proof (trim_message_tokens m limit) as Ht. pose proof (tokens_nonneg (with_content (TrimContentToTokenLimit (Content m) limit) m)).
  set (m' := with_content _ m) in *. destruct (IH (remaining - tokens m')) as [IH1 IH2]. split.
  - constructor; [apply trim_message_cut|done].
  - rewrite countTokens_cons. lia.
Qed.

Lemma trimSystems_spec sys budget :
  Forall2 cut_of (trimSystems sys budget) sys ∧ countTokens (trimSystems sys budget) ≤ 0 `max` budget.
Proof.
  unfold trimSystems. destruct sys as [|m rest]; [split; [constructor|cbn; lia]|]. set (sys := m :: rest).
  destruct (decide (budget ≤ 0)) as [Hb|Hb]; [|destruct (decide (countTokens sys ≤ 0)) as [Ht|Ht]].
  - clearbody sys. split.
    + induction sys as [|x l IH]; cbn; constructor; [|done]. split; [done|]. by exists (Content x).
    + assert (countTokens (with_content "" <$> sys) = 0) as ->; [|lia].
      induction sys as [|x l IH]; [done|]. cbn [fmap list_fmap]. rewrite countTokens_cons, IH. done.
  - split; [|lia]. clear. induction sys; constructor; [apply cut_refl|done].
  - apply trim_shares_spec.
Qed.

Lemma trim_both_spec sys m budget :
  0 ≤ budget →
  Forall2 cut_of (trim_both sys m budget).1 (sys ++ [m]) ∧
  (trim_both sys m budget).2 = countTokens (trim_both sys m budget).1 ∧ (trim_both sys m budget).2 ≤ budget.
Proof.
  intros Hb. unfold trim_both. pose proof (countTokens_nonneg sys). pose proof (tokens_nonneg m).
  destruct (decide (countTokens sys + tokens m ≤ 0)) as [Ht|Ht]; cbn [fst snd].
  - split_and!; [clear; induction (sys ++ [m]); constructor; [apply cut_refl|done]| |lia].
    rewrite countTokens_app, countTokens_cons. cbn. lia.
  - set (p2 := tokens m `min` budget). set (p1 := countTokens sys `min` budget).
    destruct (SFltb _ _); rewrite countTokens_app, countTokens_cons; change (countTokens []) with 0.
    + pose proof (trimSystems_spec sys (0 `max` (budget - p2))) as [Hs1 Hs2]. pose proof (trim_message_tokens m p2).
      split_and!; [|done|lia]. apply Forall2_app; [done|]. constructor; [apply trim_message_cut|constructor].
    + pose proof (trimSystems_spec sys p1) as [Hs1 Hs2]. pose proof (trim_message_tokens m (0 `max` (budget - p1))).
      split_and!; [|done|lia]. apply Forall2_app; [done|]. constructor; [apply trim_message_cut|constructor].
Qed.

(** ** The result *)
Lemma cut_all msgs : Forall2 cut_of msgs msgs.
Proof. induction msgs; constructor; [apply cut_refl|done]. Qed.

(** Step 3 keeps the messages, cuts them and meets the budget. *)
Lemma trim_kept_spec sys last budget :
  0 ≤ budget →
  Forall2 cut_of (trim_kept sys last budget).1 (fst <$> (sys ++ option_list last)) ∧
  (trim_kept sys last budget).2 = countTokens (trim_kept sys last budget).1 ∧ (trim_kept sys last budget).2 ≤ budget.
Proof.
  intros Hb.
  assert (∀ m, let kept := [with_content (TrimContentToTokenLimit (Content m) budget) m] in
    Forall2 cut_of kept [m] ∧ countTokens kept = countTokens kept ∧ countTokens kept ≤ budget) as Hone.
  { intros m. cbn zeta. split_and!; [constructor; [apply trim_message_cut|constructor]|done|].
    rewrite countTokens_cons. pose proof (trim_message_tokens m budget). change (countTokens []) with 0. lia. }
  assert (∀ kept, Forall2 cut_of (trimSystems kept budget) kept ∧
    countTokens (trimSystems kept budget) = countTokens (trimSystems kept budget) ∧ countTokens (trimSystems kept budget) ≤ budget) as Hsys.
  { intros kept. destruct (trimSystems_spec kept budget). split_and!; [done..|lia]. }
  unfold trim_kept. destruct sys as [|m1 [|m2 sys] ], last as [m|]; cbn [option_list fst snd]; rewrite ?fmap_app, ?app_nil_r.
  - apply (Hone m.1).
  - apply (Hsys []).
  - apply (trim_both_spec (fst <$> [m1]) m.1 budget Hb).
  - apply (Hone m1.1).
  - apply (trim_both_spec (fst <$> (m1 :: m2 :: sys)) m.1 budget Hb).
  - apply Hsys.
Qed.

(** ** The indices *)
Lemma indexed_lookup msgs m i : (m, i) ∈ indexed msgs ↔ msgs !! i = Some m.
Proof.
  unfold indexed. rewrite list_elem_of_lookup. split.
  - intros [j Hj]. apply lookup_zip_Some in Hj as [Hm Hi]. apply lookup_seq in Hi as [-> _]. done.
  - intros Hm. exists i. apply lookup_zip_Some. split; [done|]. apply lookup_seq. apply lookup_lt_Some in Hm. split; [lia|done].
Qed.

Lemma indexed_nodup msgs : NoDup (indexed msgs).
Proof. apply (NoDup_fmap_1 snd). unfold indexed. rewrite snd_zip by (rewrite length_seq; lia). apply NoDup_seq. Qed.

Definition kept_pairs msgs : list (Message * nat) := kept_systems msgs ++ option_list (lastNonSystem msgs).

Lemma last_system msgs mi : lastNonSystem msgs = Some mi → mi ∈ indexed msgs ∧ is_system mi.1 = false.
Proof.
  intros [k Ek]%last_Some. assert (mi ∈ filter (λ mi : Message * nat, negb (is_system mi.1)) (indexed msgs)) as [Hn Hi]%list_elem_of_filter
    by (unfold lastNonSystem in *; rewrite Ek; set_solver).
  split; [done|]. by destruct (is_system _).
Qed.

Lemma kept_pairs_in msgs mi : mi ∈ kept_pairs msgs → mi ∈ indexed msgs.
Proof.
  intros [ [_ Hi]%list_elem_of_filter|Hl]%elem_of_app; [done|].
  destruct (lastNonSystem msgs) eqn:El; [|by apply elem_of_nil in Hl]. apply list_elem_of_singleton in Hl as ->. by apply last_system.
Qed.

Lemma kept_pairs_nodup msgs : NoDup (snd <$> kept_pairs msgs).
Proof.
  apply NoDup_fmap_2_strong.
  - intros [m i] [m' i'] Hi%kept_pairs_in Hi'%kept_pairs_in [= ->]. apply indexed_lookup in Hi, Hi'. congruence.
  - apply NoDup_app. split_and!; [apply NoDup_filter, indexed_nodup| |destruct (lastNonSystem msgs); repeat constructor; by intros ?%elem_of_nil].
    intros mi [Hs _]%list_elem_of_filter Hl. destruct (lastNonSystem msgs) eqn:El; [|by apply elem_of_nil in Hl].
    apply list_elem_of_singleton in Hl as ->. apply last_system in El as [_ El]. by rewrite El in Hs.
Qed.

Lemma kept_pairs_lookup msgs : Forall2 (λ m i, msgs !! i = Some m) (fst <$> kept_pairs msgs) (snd <$> kept_pairs msgs).
Proof.
  assert (Forall (λ mi, msgs !! mi.2 = Some mi.1) (kept_pairs msgs)) as Hf.
  { apply Forall_forall. intros [m i] Hi%kept_pairs_in. by apply indexed_lookup. }
  induction Hf; cbn; by constructor.
Qed.

Lemma indexed_snoc msgs m : indexed (msgs ++ [m]) = indexed msgs ++ [(m, length msgs)].
Proof. unfold indexed. rewrite length_app, seq_app, zip_with_app by by rewrite length_seq. done. Qed.

Lemma last_spec msgs m i :
  lastNonSystem msgs = Some (m, i) ↔
  msgs !! i = Some m ∧ is_system m = false ∧ ∀ j m', (i < j)%nat → msgs !! j = Some m' → is_system m' = true.
Proof.
  revert m i. induction msgs as [|x msgs IH] using rev_ind; intros m i; [by split; [|intros [? _] ] |].
  unfold lastNonSystem. rewrite indexed_snoc, filter_app, last_app. cbn [filter list_filter].
  destruct (decide (negb (is_system (x, length msgs).1))) as [Hn|Hn]; cbn in Hn |- *.
  - split.
    + intros [= <- <-]. split_and!; [by apply lookup_snoc_Some; right|by destruct (is_system x)|].
      intros j m' Hj [ [? _]|[? _] ]%lookup_snoc_Some; lia.
    + intros ([ [Hi _]|[-> ->] ]%lookup_snoc_Some & Hs & Hr); [|done].
      by rewrite (Hr (length msgs) x) in Hn by (done || (apply lookup_snoc_Some; by right)).
  - assert (is_system x = true) as Hx by by destruct (is_system x). fold (lastNonSystem msgs).
    rewrite IH. setoid_rewrite lookup_snoc_Some. split.
    + intros (Hm & Hs & Hr). split_and!; [left; split; [by eapply lookup_lt_Some|done]|done|].
      intros j m' Hj [ [_ Hm']|[_ <-] ]; [by eapply Hr|done].
    + intros ([ [_ Hm]|[_ <-] ] & Hs & Hr); [|congruence]. split_and!; [done..|].
      intros j m' Hj Hm'. eapply Hr; [done|]. left. split; [by eapply lookup_lt_Some|done].
Qed.

(** The messages that step 2 keeps. *)
Definition to_keep (msgs : list Message) (i : nat) : Prop :=
  ∃ m, msgs !! i = Some m ∧ (Role m = "system" ∨ ∀ j m', (i < j)%nat → msgs !! j = Some m' → Role m' = "system").

Lemma kept_index msgs i : i ∈ snd <$> kept_pairs msgs ↔ to_keep msgs i.
Proof.
  assert (∀ m, is_system m = true ↔ Role m = "system") as Hsys by (intros m; unfold is_system; by rewrite bool_decide_eq_true).
  rewrite list_elem_of_fmap. split.
  - intros ([m j] & -> & Hm). cbn. exists m. apply elem_of_app in Hm as [ [Hs Hi]%list_elem_of_filter|Hl].
    + apply indexed_lookup in Hi. split; [done|]. left. apply Hsys. by destruct (is_system _).
    + destruct (lastNonSystem msgs) as [ [m' j']|] eqn:El; [|by apply elem_of_nil in Hl]. apply list_elem_of_singleton in Hl as [= <- <-].
      apply last_spec in El as (Hm & _ & Hr). split; [done|]. right. intros k m' Hk Hm'. apply Hsys. by eapply Hr.
  - intros (m & Hm & Hk). exists (m, i). split; [done|]. unfold kept_pairs. rewrite elem_of_app.
    destruct (is_system m) eqn:Es.
    + left. apply list_elem_of_filter. split; [cbn; by rewrite Es|by apply indexed_lookup].
    + right. rewrite (proj2 (last_spec msgs m i)); [by apply list_elem_of_singleton|].
      split_and!; [done..|]. intros j m' Hj Hm'. apply Hsys. destruct Hk as [Hk%Hsys|Hk]; [congruence|]. by eapply Hk.
Qed.

Lemma all_indices (msgs : list Message) : Forall2 (λ m i, msgs !! i = Some m) msgs (seq 0 (length msgs)).
Proof. apply Forall2_same_length_lookup_2; [by rewrite length_seq|]. intros i m j Hm [ -> _]%lookup_seq. done. Qed.

Lemma cut_pairs (msgs kept origs : list Message) (idx : list nat) :
  Forall2 cut_of kept origs → Forall2 (λ m i, msgs !! i = Some m) origs idx →
  Forall2 (λ m i, ∃ orig, msgs !! i = Some orig ∧ cut_of m orig) kept idx.
Proof.
  intros Hc. revert idx. induction Hc as [|m o ms os Hm _ IH]; intros idx Hi; inversion Hi; subst; constructor; eauto.
Qed.

Lemma pairs_omap (msgs origs : list Message) (idx : list nat) : Forall2 (λ m i, msgs !! i = Some m) origs idx → omap (msgs !!.) idx = origs.
Proof. induction 1 as [|m i ms ks Hm _ IH]; [done|]. cbn. by rewrite Hm, IH. Qed.

End cuttable_encoding.
End fit.

(** ** Examples *)
Section examples.
Local Instance fit_tokenizer : Tokenizer := Some byte_encoding.
Local Existing Instance amd64.


(** The kept messages are not always in the order of the conversation: the last
    message comes last even when a system message follows it. *)
Lemma kept_out_of_order :
  Fit [MkMessage "user" "Hi there"; MkMessage "user" "Q?"; MkMessage "system" "Be brief."] 12 =
    ([MkMessage "system" "Be brief."; MkMessage "user" "Q?"], [2; 1]%nat, 11).
Proof. vm_compute. reflexivity. Qed.
End examples.
